(* ===== verification/_CoqProject ===== *)
-Q . S2P
Prelude.v
Types.v
ObjectPool.v
Striping.v
OpWrapper.v
Shmopt.v
HentryOffset.v
ShmList.v
Invariant.v
FieldWidths.v
SegmentGrowth.v
ValueAllocator.v
HashTable.v
Recycle.v
Lock.v
LockProtocol.v
CacheTable.v
CLib.v
ShmCache.v
ShmCacheSpec.v
Statistics.v
Sizing.v
Init.v
Attach.v
LazySegments.v
Processes.v
Safety.v
LockFree.v
Config.v
Tools.v
Monitor.v
TestDriver.v
IniAnnotation.v
PhpShmCache.v
PhpObjects.v
JavaShmCache.v
Examples.v
ClientExamples.v
