(* ===== verification/Prelude.v ===== *)
(** * A verification development for libshmcache

    libshmcache is a cache in shared memory: any number of processes map the
    same segments and store, read and delete values by key.  This library
    models its C code as functions on an explicit state and proves what makes
    it correct.

    ** The program and its parts

    One hashtable segment holds a header ([struct shm_memory_info]), the
    buckets, two queues and an array of allocators; value segments, mapped on
    demand and cut into stripings, hold the entries.  An entry is a header
    followed by its key and its value, addressed by a packed segment index and
    offset.  The entries are chained from the buckets, and linked in a circular
    list in the order of insertion, from which the oldest are recycled when
    memory runs short.  A lock in the header serialises the writers; readers
    take it only when the configuration asks for it.

    - Prelude: record update, the state monad [M] with faults and its rules
      ([wp]), C integers, error numbers, array access.
    - Types: the structures of src/shmcache_types.h, the state
      [shmcache_context] of every operation (the context of a process together
      with the shared memory it maps), memory accesses, and the class [Env] of
      what lies outside the source tree (kernel, C library, libfastcommon).
    - ObjectPool, Striping: src/shm_object_pool.[hc] and
      src/shm_striping_allocator.[hc], a FIFO ring and a bump allocator.
    - OpWrapper, Shmopt, SegmentGrowth: src/shm_op_wrapper.c and src/shmopt.[hc],
      mapping segments, and that growing keeps the invariant.
    - HentryOffset, ShmList: the packed offsets of src/shm_value_allocator.h and
      the recycle list of src/shm_list.h.
    - Invariant, FieldWidths: [inv s es], the well-formedness of a cache with
      the entries [es], and its frame rules; that it isolates the entries and
      keeps fields of the shared structures within their C types.
    - ValueAllocator, HashTable, Recycle: src/shm_value_allocator.c and
      src/shm_hashtable.[hc]; Recycle closes their mutual recursion.
    - Lock, LockProtocol: src/shm_lock.c, as the calls of one process and as
      the interleaved steps of many.
    - CLib: strtoll and sprintf of integers.
    - CacheTable: the interface [CacheLaws] of the table to the exported
      operations, and its implementation [rep].
    - ShmCache, ShmCacheSpec, Statistics: the exported operations of
      src/shmcache.c and what they do.
    - Sizing, Init, Attach, Config: the sizes, the initialisation by the first
      and by later processes, and the configuration file (src/shmcache.c).
    - LazySegments: a read by a process that has not mapped the segments others
      added, and maps them in the middle of it (src/shmopt.h).
    - Processes: any number of processes, each with a context of its own, that
      attach to one shared memory and take turns call by call.
    - Safety: what holds at any time of a run of such processes: where the
      entries lie, and what the fields of the shared structures hold.
    - LockFree: a get without the lock as a machine that goes from entry to entry,
      between whose steps other processes write.
    - Tools, Monitor, TestDriver, IniAnnotation, PhpShmCache, PhpObjects,
      JavaShmCache: the clients in src/tools/, src/tsar-shmcache-module/,
      src/tests/, src/shmcache_ini_annotation.c, src/php-shmcache/ (its methods;
      its objects and what the module registers) and src/java/jni/.
    - Examples, ClientExamples: a concrete environment, the cache it
      initialises, and every theorem with hypotheses applied to it.

    ** How code and model correspond

    A C function is a definition of the same name; a loop of it, or a part
    that deserves a name, is a definition beside it, whose comment gives the
    lines.  A function returns its result and changes the state through the
    monad; a result through a pointer is part of the returned tuple.  [None] is
    a run without meaning in C: an access outside a mapped segment or an
    array, a NULL dereference, a division by zero, an overflow of a signed
    addition where the operands are not bounded, or a loop that ran out of
    fuel.  Every specification is a [wp], which excludes all of these: it says
    that the function returns, and then what it returns.

    An external call is an answer of the environment for the number of calls
    made so far ([ticks]); theorems hold for all answers unless a hypothesis
    names the ones they need.  The shared memory of a value segment is two maps,
    from addresses to entry headers and to bytes; addresses of entries and
    their keys and values never overlap ([entries_isolated]), which is proved
    and not built in.  An address is a pair of a segment and an offset.  Integers
    are [Z], with the conversions to 16, 32 and 64 bits written out where the
    source stores a wider value; floating point quotients are kept as pairs.
    Logging and usleep are left out.

    ** What the theorems show

    - The whole cache: [processes_refine] and [api_refines] (any sequence of
      calls, of many processes and of one, refines a list of records with unique
      keys), [api_errors_explained] (which argument or record each error number
      comes from and what the call leaves), [get_after_set], [incr_correct],
      [stats_correct]; the table behind it: [table_set_correct],
      [table_set_lossless], [lock_free_get_linearizable] (a get without the lock
      while others store new keys), [table_delete_correct],
      [table_set_expires_correct], [ht_get_correct], [ht_clear_correct],
      [to_array_correct].
    - Memory: [do_alloc_correct], [free_correct] (a block is released, and its
      striping goes back to the doing queue when that empties it),
      [recycle_correct] (how many of the oldest entries are dropped, and at which
      one recycling stops), [rearrange_correct], [create_segment_correct],
      [striping_blocks_disjoint]; of the runs of many processes from
      initialisation on, [entries_isolated] and [fields_fit].
    - Data structures: [pool_refines_fifo], [pool_remove_at_iterator],
      [list_refines_sequence], [hentry_offset_roundtrip].
    - Start: [init_correct], [attach_correct], [init_from_file_correct],
      [load_config_valid], [sizing_consistent], [layout_sound].
    - The lock: [lock_returns] and [lock_recovers_dead_owner] of one process;
      [lock_mutual_exclusion], [lock_recoverable] and [lock_can_be_lost] of many.
    - The clients: [dump_correct], [search_pattern_correct],
      [unescape_roundtrip], [stats_output_correct] (which includes that nothing
      is divided by zero), [tsar_correct],
      [test_driver_correct], [config_get_correct], [php_objects_share],
      [php_contexts_shared], [java_get_after_set].

    Some theorems state what the code does where it does not do what it means
    to: [mmap_failure_unreported], [mmap_leaks_descriptor],
    [remove_all_ignores_ht_error], [negative_segment_count],
    [min_memory_error_ignored], [long_filename_overflows], [lock_can_be_lost],
    [value_outlives_entry], [stale_cannot_grow], [failed_mapping_faults],
    [lock_free_get_may_miss], [remove_without_iterator],
    [unconstructed_object_faults], [rand_max_overruns], [array_bytes_wrap],
    [tsar_ratio_after_clear], and the value [pool_remove_at_iterator] returns.

    ** Fuel and bounds

    [shm_lock] spins as long as the mutex is busy: it takes the number of
    attempts to consider, and its theorems ask for the mutex to be free by then
    ([released_by], [mutex_ok]).  A walk along a chain or the list takes
    [chain_fuel], one more than the number of entries, which [inv] shows to be
    enough; a walk along a queue takes its capacity.  The recursion of
    [shm_ht_set] through rearranging takes a depth, and one more than the number
    of entries is enough ([rearrange_correct], [shm_ht_set]).  The loop over
    min_memory takes the number of segments that can still be created.
    [unescape_loop] takes the length of its string.

    The sizes of structures are those of a 64-bit Linux.  [config_ok] and
    [init_ok] bound the configuration (for instance 2^30 bytes for a segment,
    2^29 for a value, 2^35 for all memory), so that the int arithmetic of the
    source does not overflow: the size of an entry ([entry_size]) is an [int]
    that only a longer value could overflow.  Where no bound excludes it the
    conversion to 32 bits is written out: the bytes a rearrangement discards,
    the interval of the deadlock detection in microseconds, the bytes of the
    array of [shm_ht_to_array_ex].  Theorems about growing assume that mmap itself
    does not fail ([mapping_ok], part of [rep] and [init_ok]), since the code
    takes its failure for a mapping ([mmap_failure_unreported]).

    ** Not modelled

    - Reading an entry whose memory another process frees and fills again
      meanwhile: headers and bytes are apart in the model, so what a reader
      makes of such bytes is not described; LockFree lets other processes add
      keys and change expiry times, call by call, and shows what a delete may do.
      The calls of Processes are atomic to each other, and a process that has to
      map segments of others does so within a get that takes no lock, but before
      any other call, not within it: there [shmopt_create_value_segment] may also
      refuse to grow ([stale_cannot_grow]).  A value that a get returned refers
      to the shared memory, so operations in between can be put between the get
      and the copy ([value_outlives_entry]).
    - That [pthread_mutex_unlock] of a mutex another process locked releases it
      is assumed, as is that process ids are not used again.
    - The writes of [shm_ht_to_array_ex] into the array it allocates: its rows
      are a list, and [to_array_correct] shows that they fit in the array unless
      its size overflows ([array_bytes_wrap]).
    - The rounding of floating point quotients and the format of dates in the
      output of src/tools/shmcache_stats.c and src/tsar-shmcache-module/.
    - The releasing of memory of the process itself ([free], [shm_ht_free_array]),
      and code that is compiled out (#if 0 in src/shmcache.c).
    - The Java classes; the object store, class table and argument parser of the
      Zend engine; the INI reader, JSON parser and size parser of libfastcommon;
      the serializers of PHP, igbinary and msgpack; [rand]: the parameters
      [Env], [IniEnv], [JsonEnv], [PhpEnv] and [JavaEnv], and those of
      PhpObjects and TestDriver.  Two contexts of one PHP process are taken to map
      different shared memories; contexts that share one are those of Processes. *)
From Stdlib Require Export Ascii.
From stdpp Require Export base gmap list numbers strings.
Global Set Default Goal Selector "!".
#[global] Arguments Z.eqb : simpl never.
#[global] Arguments Z.ltb : simpl never.
#[global] Arguments Z.leb : simpl never.
#[global] Arguments Z.gtb : simpl never.
#[global] Arguments Z.geb : simpl never.
#[global] Arguments Z.rem : simpl never.

(** ** Record update

    [r <| f1; ..; fn := v |>] is the record [r] in which the (nested) field
    [f1 ... fn] is [v], and [::= g] applies [g] to the field: the C assignment
    [r->f1.fn = v].  A record type is made updatable by an instance of
    [Settable], the eta-expansion of its constructor. *)
Class Settable (R : Type) := eta_record : R → R.
Class Setter {R T : Type} (proj : R → T) := upd : (T → T) → R → R.
Arguments upd {R T} proj {_} f r.
Ltac solve_setter :=
  lazymatch goal with
  | |- @Setter ?R ?T ?proj =>
    let inst := constr:(@eta_record R _) in
    let body := eval hnf in inst in
    lazymatch (eval pattern proj in body) with
    | ?g _ =>
      let t := constr:(fun (f : T -> T) => g (fun x => f (proj x))) in
      let t := eval cbv beta in t in
      exact t
    end
  end.
#[export] Hint Extern 1 (Setter _) => solve_setter : typeclass_instances.

Declare Scope shm_scope.
Delimit Scope shm_scope with shm.
Notation "x <| f1 ; .. ; fn ::= g |>" := (upd f1 ( .. (upd fn g) .. ) x)
  (at level 1, f1, fn at next level, left associativity) : shm_scope.
Notation "x <| f1 ; .. ; fn := v |>" := (upd f1 ( .. (upd fn (λ _, v)) .. ) x)
  (at level 1, f1, fn at next level, left associativity) : shm_scope.

(** ** The state monad with faults

    A C function that reads and writes the state [S] and returns an [A] is a
    value of [M S A].  [None] is a run that the C standard gives no meaning
    (an access outside an object, a NULL dereference, a division by zero) or
    that exhausts the fuel of a loop; a theorem of total correctness excludes
    both. *)
Definition M (S A : Type) : Type := S → option (A * S).

#[export] Instance M_ret S : MRet (M S) := λ A a s, Some (a, s).
#[export] Instance M_bind S : MBind (M S) := λ A B k m s,
  match m s with Some (a, s') => k a s' | None => None end.

Definition fault {S A} : M S A := λ _, None.
Definition get {S} : M S S := λ s, Some (s, s).
Definition gets {S A} (f : S → A) : M S A := λ s, Some (f s, s).
Definition modify {S} (f : S → S) : M S unit := λ s, Some (tt, f s).
Definition of_option {S A} (o : option A) : M S A := λ s,
  match o with Some a => Some (a, s) | None => None end.
Definition when {S} (b : bool) (m : M S unit) : M S unit :=
  if b then m else mret tt.
(** run an operation of a sub-object [P] of the state: the C call passes a
    pointer to the member *)
Definition zoom {S P A} (prj : S → P) (put : P → S → S) (m : M P A) : M S A := λ s,
  match m (prj s) with Some (a, p) => Some (a, put p s) | None => None end.

(** [wp m Q s]: run from [s], [m] returns (no fault, no loss of fuel), with a
    result and a final state that satisfy [Q]. *)
Definition wp {S A} (m : M S A) (Q : A → S → Prop) (s : S) : Prop :=
  ∃ a s', m s = Some (a, s') ∧ Q a s'.

Notation "{{ P } } m {{ r s , Q } }" := (∀ s0, P s0 → wp m (λ r s, Q) s0)
  (at level 0, r name, s name,
   format "{{  P  } }  m  {{  r  s ,  Q  } }") : shm_scope.

Section wp.
Context {S : Type}.
Implicit Types (s : S).

Lemma wp_ret {A} (a : A) (Q : A → S → Prop) s : wp (mret a) Q s ↔ Q a s.
Proof. split; [intros (?&?&[=<- <-]&?); done|intros; by exists a, s]. Qed.

Lemma wp_bind {A B} (m : M S A) (k : A → M S B) Q s :
  wp (m ≫= k) Q s ↔ wp m (λ a s', wp (k a) Q s') s.
Proof.
  unfold wp, mbind, M_bind. split.
  - intros (b&s2&Hm&HQ). destruct (m s) as [[a s1]|] eqn:E; [|done]. eauto 10.
  - intros (a&s1&Hm&b&s2&Hk&HQ). rewrite Hm. eauto.
Qed.

Lemma wp_mono {A} (m : M S A) (Q Q' : A → S → Prop) s :
  wp m Q s → (∀ a s', Q a s' → Q' a s') → wp m Q' s.
Proof. intros (a&s'&?&?) HQ. exists a, s'. eauto. Qed.

(** what holds of the run under a condition *)
Lemma wp_when_true {A} (P : Prop) (m : M S A) (Q Q' : A → S → Prop) s :
  wp m Q s → (P → wp m Q' s) → wp m (λ a s', Q a s' ∧ (P → Q' a s')) s.
Proof.
  intros (a&s'&Hm&HQ) HQ'. exists a, s'. split_and!; [done|done|].
  intros (a2&s2&Hm2&H2)%HQ'. rewrite Hm in Hm2. by simplify_eq.
Qed.
Lemma wp_and {A} (m : M S A) (Q Q' : A → S → Prop) s :
  wp m Q s → wp m Q' s → wp m (λ a s', Q a s' ∧ Q' a s') s.
Proof.
  intros H1 H2. eapply wp_mono; [by apply (wp_when_true True m Q Q')|]. intros a s' [? ?]. auto.
Qed.

Lemma wp_run {A} (m : M S A) (Q : A → S → Prop) s a s' :
  m s = Some (a, s') → wp m Q s ↔ Q a s'.
Proof.
  intros E. split; [|intros; by exists a, s'].
  intros (?&?&E'&?). rewrite E in E'. by simplify_eq.
Qed.

(** what a run that returned says of its statements *)
Lemma wp_inv {A} (m : M S A) (Q : A → S → Prop) s a s' : wp m Q s → m s = Some (a, s') → Q a s'.
Proof. intros H Hm. by apply (wp_run m Q s a s' Hm). Qed.
Lemma run_bind {A B} (m : M S A) (k : A → M S B) s r :
  (m ≫= k) s = Some r → ∃ a s1, m s = Some (a, s1) ∧ k a s1 = Some r.
Proof. unfold mbind, M_bind. destruct (m s) as [[a s1]|]; [|done]. eauto. Qed.
Lemma run_of_option {A} (o : option A) s a s' : of_option o s = Some (a, s') → o = Some a ∧ s' = s.
Proof. unfold of_option. destruct o; naive_solver. Qed.

Lemma wp_gets {A} (f : S → A) Q s : wp (gets f) Q s ↔ Q (f s) s.
Proof. by apply wp_run. Qed.
Lemma wp_get (Q : S → S → Prop) s : wp get Q s ↔ Q s s.
Proof. by apply wp_run. Qed.
Lemma wp_modify (f : S → S) Q s : wp (modify f) Q s ↔ Q tt (f s).
Proof. by apply wp_run. Qed.
Lemma wp_of_option {A} (o : option A) Q s :
  wp (of_option o) Q s ↔ ∃ a, o = Some a ∧ Q a s.
Proof.
  unfold wp, of_option. destruct o as [a|]; naive_solver.
Qed.
Lemma wp_when (b : bool) (m : M S unit) Q s :
  wp (when b m) Q s ↔ if b then wp m Q s else Q tt s.
Proof. destruct b; [done|apply wp_ret]. Qed.
Lemma wp_zoom {P A} (prj : S → P) (put : P → S → S) (m : M P A) Q s :
  wp (zoom prj put m) Q s ↔ wp m (λ a p, Q a (put p s)) (prj s).
Proof.
  unfold wp, zoom. destruct (m (prj s)) as [[a p]|] eqn:E; naive_solver.
Qed.
Lemma wp_total {A} (m : M S A) Q s : wp m Q s → is_Some (m s).
Proof. intros (?&?&->&_). eauto. Qed.
End wp.

(** [wp_step] runs one statement of straight-line code; [wp_simpl] runs as
    many as it can.  Components add the rules of their operations to the
    database [wp]. *)
Create HintDb wp.
Ltac wp_step :=
  lazymatch goal with
  | |- wp (mret _) _ _ => apply (proj2 (wp_ret _ _ _))
  | |- wp (_ ≫= _) _ _ => apply (proj2 (wp_bind _ _ _ _))
  | |- wp (gets _) _ _ => apply (proj2 (wp_gets _ _ _))
  | |- wp get _ _ => apply (proj2 (wp_get _ _))
  | |- wp (modify _) _ _ => apply (proj2 (wp_modify _ _ _))
  | |- wp (when _ _) _ _ => apply (proj2 (wp_when _ _ _ _))
  | |- wp (zoom _ _ _) _ _ => apply (proj2 (wp_zoom _ _ _ _ _))
  end; cbn beta iota zeta.
Ltac wp_simpl := cbn beta iota zeta; repeat wp_step.

(** ** C integers *)
Local Open Scope Z_scope.
(** conversion to a [w]-bit signed (two's complement) or unsigned type *)
Definition wrap_signed (w z : Z) : Z := (z + 2 ^ (w - 1)) mod 2 ^ w - 2 ^ (w - 1).
Definition wrap_unsigned (w z : Z) : Z := z mod 2 ^ w.
Definition to_short : Z → Z := wrap_signed 16.
Definition to_int : Z → Z := wrap_signed 32.
Definition to_int64 : Z → Z := wrap_signed 64.
Definition to_uint : Z → Z := wrap_unsigned 32.

Lemma wrap_signed_small w z :
  0 < w → - 2 ^ (w - 1) ≤ z < 2 ^ (w - 1) → wrap_signed w z = z.
Proof.
  intros Hw Hz. unfold wrap_signed.
  replace (2 ^ w) with (2 * 2 ^ (w - 1)).
  2: { rewrite <-Z.pow_succ_r by lia. f_equal. lia. }
  rewrite Z.mod_small; lia.
Qed.

Lemma wrap_signed_range w z :
  0 < w → - 2 ^ (w - 1) ≤ wrap_signed w z < 2 ^ (w - 1).
Proof.
  intros Hw. unfold wrap_signed.
  replace (2 ^ w) with (2 * 2 ^ (w - 1)).
  2: { rewrite <-Z.pow_succ_r by lia. f_equal. lia. }
  assert (0 < 2 ^ (w - 1)) by (apply Z.pow_pos_nonneg; lia).
  pose proof (Z.mod_pos_bound (z + 2 ^ (w - 1)) (2 * 2 ^ (w - 1))). lia.
Qed.

(** errno values the code returns (Linux) *)
Definition EPERM : Z := 1.
Definition ENOENT : Z := 2.
Definition ESRCH : Z := 3.
Definition ENOMEM : Z := 12.
Definition EACCES : Z := 13.
Definition EFAULT : Z := 14.
Definition EBUSY : Z := 16.
Definition EEXIST : Z := 17.
Definition EINVAL : Z := 22.
Definition ENOSPC : Z := 28.
Definition ENAMETOOLONG : Z := 36.
Definition ETIMEDOUT : Z := 110.

(** array access through an [int] index, out of bounds is a fault *)
Definition znth {A} (l : list A) (i : Z) : option A :=
  if 0 <=? i then l !! Z.to_nat i else None.
Definition zupd {A} (l : list A) (i : Z) (x : A) : option (list A) :=
  if (0 <=? i) && (i <? Z.of_nat (length l)) then Some (<[Z.to_nat i := x]> l) else None.

Lemma znth_Some {A} (l : list A) i x :
  znth l i = Some x ↔ 0 ≤ i ∧ l !! Z.to_nat i = Some x.
Proof. unfold znth. destruct (0 <=? i) eqn:E; naive_solver lia. Qed.
Lemma znth_is_Some {A} (l : list A) i :
  0 ≤ i < Z.of_nat (length l) → is_Some (znth l i).
Proof.
  intros. unfold znth. destruct (Z.leb_spec 0 i); [|lia]. apply lookup_lt_is_Some. lia.
Qed.
Lemma zupd_Some {A} (l : list A) i x :
  0 ≤ i < Z.of_nat (length l) → zupd l i x = Some (<[Z.to_nat i := x]> l).
Proof.
  intros. unfold zupd. destruct (Z.leb_spec 0 i), (Z.ltb_spec i (Z.of_nat (length l))); lia || done.
Qed.
Lemma zupd_inv {A} (l l' : list A) i x :
  zupd l i x = Some l' → 0 ≤ i < Z.of_nat (length l) ∧ l' = <[Z.to_nat i := x]> l.
Proof.
  unfold zupd. destruct (Z.leb_spec 0 i), (Z.ltb_spec i (Z.of_nat (length l))); naive_solver.
Qed.
Lemma znth_insert {A} (l : list A) i j (x : A) :
  0 ≤ i < Z.of_nat (length l) → 0 ≤ j →
  znth (<[Z.to_nat i := x]> l) j = if i =? j then Some x else znth l j.
Proof.
  intros Hi Hj. unfold znth. rewrite (proj2 (Z.leb_le 0 j)) by done.
  destruct (Z.eqb_spec i j) as [->|Hne]; [apply list_lookup_insert_eq; lia|].
  apply list_lookup_insert_ne. lia.
Qed.
(** the increment of a ring index *)
Lemma rem_succ i cap :
  0 ≤ i < cap → Z.rem (i + 1) cap = if i + 1 =? cap then 0 else i + 1.
Proof.
  intros. rewrite Z.rem_mod_nonneg by lia. destruct (Z.eqb_spec (i + 1) cap) as [->|].
  - by apply Z_mod_same_full.
  - apply Z.mod_small. lia.
Qed.
(** a filter that keeps everything *)
Lemma filter_all {A} (P : A → Prop) `{∀ x, Decision (P x)} (l : list A) :
  (∀ x, x ∈ l → P x) → filter P l = l.
Proof.
  induction l as [|x l IH]; intros H'; [done|]. rewrite filter_cons_True by (apply H'; left).
  f_equal. apply IH. intros y Hy. apply H'. by right.
Qed.
Ltac case_bool :=
  match goal with
  | |- context [?a =? ?b] => destruct (Z.eqb_spec a b)
  | |- context [?a <? ?b] => destruct (Z.ltb_spec a b)
  | |- context [?a <=? ?b] => destruct (Z.leb_spec a b)
  | |- context [?a >? ?b] => rewrite (Z.gtb_ltb a b)
  | |- context [?a >=? ?b] => rewrite (Z.geb_leb a b)
  end.
(** decide every integer test of the goal, then of the hypotheses *)
Ltac case_bool_in :=
  match goal with
  | H : context [?a =? ?b] |- _ => destruct (Z.eqb_spec a b)
  | H : context [?a <? ?b] |- _ => destruct (Z.ltb_spec a b)
  | H : context [?a <=? ?b] |- _ => destruct (Z.leb_spec a b)
  end.
Ltac bool_lia := repeat (case_bool; try lia); repeat (case_bool_in; try lia); try lia.
(** evaluate the comparisons of the goal between constants *)
Ltac const_bool :=
  repeat match goal with
  | |- context [?a =? ?b] =>
    let r := eval vm_compute in (a =? b) in
    lazymatch r with true => change (a =? b) with true | false => change (a =? b) with false end
  end; cbn beta iota zeta delta [negb andb orb].
