(* ===== verification/Types.v ===== *)
(** * Data model: the structures of src/shmcache_types.h

    One [Record] per C [struct], field names as in the source with a prefix
    where C's name spaces would clash.  [shmcache_context] is the state of
    every operation: the process-local context together with the shared
    memory it maps.  The code of libfastcommon, of the C library and of the
    kernel is the class [Env]. *)
From S2P Require Import Prelude.
Local Open Scope Z_scope.
Local Open Scope shm_scope.

(** ** Constants (shmcache_types.h, 19-38) *)
Definition SHMCACHE_MAX_KEY_SIZE : Z := 64.
Definition SHMCACHE_STATUS_INIT : Z := 0.
Definition SHMCACHE_STATUS_NORMAL : Z := 0x12345678.
Definition SHMCACHE_TYPE_SHM : Z := 1.
Definition SHMCACHE_TYPE_MMAP : Z := 2.
Definition SHMCACHE_NEVER_EXPIRED : Z := 0.
Definition SHMCACHE_SERIALIZER_STRING : Z := 0x1.
Definition SHMCACHE_SERIALIZER_LIST : Z := Z.lor SHMCACHE_SERIALIZER_STRING 0x2.
Definition SHMCACHE_SERIALIZER_MAP : Z := Z.lor SHMCACHE_SERIALIZER_STRING 0x4.
Definition SHMCACHE_SERIALIZER_INTEGER : Z := Z.lor SHMCACHE_SERIALIZER_STRING 0x8.
Definition SHMCACHE_SERIALIZER_IGBINARY : Z := 0x200.
Definition SHMCACHE_SERIALIZER_MSGPACK : Z := 0x400.
Definition SHMCACHE_SERIALIZER_PHP : Z := 0x800.
Definition SHMCACHE_STRIPING_ALLOCATOR_POOL_DOING : Z := 0.
Definition SHMCACHE_STRIPING_ALLOCATOR_POOL_DONE : Z := 1.

(** ** Sizes of the structures placed in shared memory (LP64, glibc: the
    mutex takes 40 bytes) *)
Definition sizeof_int64 : Z := 8.
Definition sizeof_shm_hash_entry : Z := 64.
Definition sizeof_shm_striping_allocator : Z := 56.
Definition sizeof_shm_memory_info : Z := 464.

(** ** The environment

    The functions of libfastcommon, libc, libpthread and the kernel that the
    code calls.  A call that can answer differently each time takes the number
    of external calls made so far. *)
Class Env := {
  MEM_ALIGN : Z → Z;
  fc_hash_get_prime_capacity : Z → option Z;
  getpagesize : Z;
  MAX_PATH_SIZE : nat;
  time_NULL : nat → Z;
  get_current_time : nat → Z;
  get_current_time_us : nat → Z;
  malloc_ok : nat → Z → bool;
  os_errno : nat → Z;
  os_open : nat → string → bool → Z;
  os_fstat : nat → Z → Z * Z;
  os_ftruncate : nat → Z → Z → Z;
  os_mmap : nat → Z → Z → Z;
  os_munmap : nat → Z → Z → Z;
  os_access : nat → string → Z;
  os_chmod : nat → string → Z;
  os_unlink : nat → string → Z;
  os_shmget : nat → Z → Z → bool → Z;
  os_shmat : nat → Z → Z;
  os_shmdt : nat → Z → Z;
  os_shmctl_rmid : nat → Z → Z;
  os_kill0 : nat → Z → Z;
  writeToFile : nat → string → Z;
  fc_ftok : nat → string → Z → Z;
  file_write_lock : nat → Z → Z;
  pthread_mutex_trylock : nat → Z;
  pthread_mutex_unlock : nat → Z;
  pthread_mutexattr_init : nat → Z;
  pthread_mutexattr_setpshared : nat → Z;
  pthread_mutexattr_settype : nat → Z;
  pthread_mutex_init : nat → Z;
}.

(** What the code relies on of [MEM_ALIGN] (fastcommon/common_define.h), which
    rounds a size up to the machine word. *)
Class EnvLaws (E : Env) : Prop := {
  MEM_ALIGN_ge : ∀ x, x ≤ MEM_ALIGN x;
}.

(** ** Configuration (struct shmcache_config, 40-84) *)
Record va_policy_t := Va_policy {
  avg_key_ttl : Z;
  discard_memory_size : Z;
  max_fail_times : Z;
  sleep_us_when_recycle_valid_entries : Z;
}.
Record lock_policy_t := Lock_policy {
  read_within_lock : bool;
  trylock_interval_us : Z;
  detect_deadlock_interval_ms : Z;
}.
Record shmcache_config := Shmcache_config {
  filename : string;
  min_memory : Z;
  max_memory : Z;
  segment_size : Z;
  max_key_count : Z;
  max_value_size : Z;
  cfg_type : Z;
  recycle_key_once : Z;
  recycle_valid_entries : bool;
  va_policy : va_policy_t;
  lock_policy : lock_policy_t;
  hash_func : list ascii → Z;
}.
#[export] Instance eta_va_policy : Settable va_policy_t := λ r, Va_policy
  (avg_key_ttl r) (discard_memory_size r) (max_fail_times r)
  (sleep_us_when_recycle_valid_entries r).
#[export] Instance eta_config : Settable shmcache_config := λ r, Shmcache_config
  (filename r) (min_memory r) (max_memory r) (segment_size r) (max_key_count r)
  (max_value_size r) (cfg_type r) (recycle_key_once r) (recycle_valid_entries r)
  (va_policy r) (lock_policy r) (hash_func r).

(** ** Hash entries (86-124) *)
Record shm_segment_striping_pair := Ssp { ssp_segment : Z; ssp_striping : Z }.
Record shm_value := Shm_value { value_length : Z; value_options : Z }.
Record shm_list := Shm_list { list_prev : Z; list_next : Z }.
Record hentry_memory := Hentry_memory {
  mem_size : Z;
  mem_index : shm_segment_striping_pair;
  mem_offset : Z;
}.
(** the flexible array member [key] is in the byte memory that follows the
    structure *)
Record shm_hash_entry := Shm_hash_entry {
  he_list : shm_list;
  key_len : Z;
  expires : Z;
  he_value : shm_value;
  he_memory : hentry_memory;
  ht_next : Z;
}.
#[export] Instance eta_list : Settable shm_list := λ r, Shm_list (list_prev r) (list_next r).
#[export] Instance eta_value : Settable shm_value :=
  λ r, Shm_value (value_length r) (value_options r).
#[export] Instance eta_hentry_memory : Settable hentry_memory :=
  λ r, Hentry_memory (mem_size r) (mem_index r) (mem_offset r).
#[export] Instance eta_hash_entry : Settable shm_hash_entry := λ r, Shm_hash_entry
  (he_list r) (key_len r) (expires r) (he_value r) (he_memory r) (ht_next r).
(** the contents of memory that has never been written: zero pages *)
Definition hentry_zero : shm_hash_entry :=
  Shm_hash_entry (Shm_list 0 0) 0 0 (Shm_value 0 0) (Hentry_memory 0 (Ssp 0 0) 0) 0.

(** ** Queues, hashtable, allocators (126-180) *)
Record shm_ring_queue := Ring_queue { capacity : Z; head : Z; tail : Z }.
Record shm_object_pool_info := Object_pool_info {
  base_offset : Z;
  element_size : Z;
  queue : shm_ring_queue;
}.
(** struct shmcache_object_pool_context (290-294) with the arrays it points to *)
Record shmcache_object_pool_context := Object_pool_context {
  obj_pool_info : shm_object_pool_info;
  offsets : list Z;
  index : Z;
}.
#[export] Instance eta_ring_queue : Settable shm_ring_queue :=
  λ r, Ring_queue (capacity r) (head r) (tail r).
#[export] Instance eta_pool_info : Settable shm_object_pool_info :=
  λ r, Object_pool_info (base_offset r) (element_size r) (queue r).
#[export] Instance eta_pool : Settable shmcache_object_pool_context :=
  λ r, Object_pool_context (obj_pool_info r) (offsets r) (index r).

Record shm_hashtable := Shm_hashtable {
  ht_head : shm_list;
  ht_capacity : Z;
  ht_count : Z;
  buckets : list Z;
}.
Record shm_striping_allocator := Striping_allocator {
  last_alloc_time : Z;
  fail_times : Z;
  in_which_pool : Z;
  al_index : shm_segment_striping_pair;
  size_total : Z;
  size_used : Z;
  offset_base : Z;
  offset_free : Z;
  offset_end : Z;
}.
Record shm_value_size_info := Value_size_info {
  vsize : Z;
  count_current : Z;
  count_max : Z;
}.
#[export] Instance eta_hashtable : Settable shm_hashtable := λ r, Shm_hashtable
  (ht_head r) (ht_capacity r) (ht_count r) (buckets r).
#[export] Instance eta_allocator : Settable shm_striping_allocator :=
  λ r, Striping_allocator (last_alloc_time r) (fail_times r) (in_which_pool r)
  (al_index r) (size_total r) (size_used r) (offset_base r) (offset_free r) (offset_end r).
#[export] Instance eta_size_info : Settable shm_value_size_info :=
  λ r, Value_size_info (vsize r) (count_current r) (count_max r).

(** ** Statistics and the shared header (187-259) *)
Record shm_counter := Counter { total : Z; success : Z }.
Record shm_recycle_stats := Recycle_stats {
  recycle_total : Z;
  recycle_success : Z;
  recycle_force : Z;
  last_recycle_time : Z;
}.
Record shm_lock_stats := Lock_stats {
  lock_total : Z;
  lock_retry : Z;
  detect_deadlock : Z;
  unlock_deadlock : Z;
  last_detect_deadlock_time : Z;
  last_unlock_deadlock_time : Z;
}.
Record shm_stats := Shm_stats {
  stats_set : shm_counter;
  stats_get : shm_counter;
  stats_del : shm_counter;
  stats_incr : shm_counter;
  last_clear_time : Z;
  clear_ht_entry_total : Z;
  clear_ht_entry_valid : Z;
  recycle_key_stats : shm_recycle_stats;
  recycle_striping_stats : shm_recycle_stats;
  stats_lock : shm_lock_stats;
  last_get : shm_counter;
  last_calc_time : Z;
  stats_init_time : Z;
}.
Record shm_memory_usage := Memory_usage {
  alloced : Z;
  used_common : Z;
  used_entry : Z;
  used_key : Z;
  used_value : Z;
}.
(** struct shm_memory_info; its [value_allocator] member is in the pool
    contexts that point to it *)
Record shm_memory_info := Memory_info {
  mi_size : Z;
  status : Z;
  init_time : Z;
  mi_max_key_count : Z;
  lock_pid : Z;
  vm_segment : shm_value_size_info;
  vm_striping : shm_value_size_info;
  stats : shm_stats;
  usage : shm_memory_usage;
  hashtable : shm_hashtable;
}.
#[export] Instance eta_counter : Settable shm_counter := λ r, Counter (total r) (success r).
#[export] Instance eta_recycle_stats : Settable shm_recycle_stats := λ r, Recycle_stats
  (recycle_total r) (recycle_success r) (recycle_force r) (last_recycle_time r).
#[export] Instance eta_lock_stats : Settable shm_lock_stats := λ r, Lock_stats
  (lock_total r) (lock_retry r) (detect_deadlock r) (unlock_deadlock r)
  (last_detect_deadlock_time r) (last_unlock_deadlock_time r).
#[export] Instance eta_stats : Settable shm_stats := λ r, Shm_stats
  (stats_set r) (stats_get r) (stats_del r) (stats_incr r) (last_clear_time r)
  (clear_ht_entry_total r) (clear_ht_entry_valid r) (recycle_key_stats r)
  (recycle_striping_stats r) (stats_lock r) (last_get r) (last_calc_time r)
  (stats_init_time r).
#[export] Instance eta_usage : Settable shm_memory_usage := λ r, Memory_usage
  (alloced r) (used_common r) (used_entry r) (used_key r) (used_value r).
#[export] Instance eta_memory_info : Settable shm_memory_info := λ r, Memory_info
  (mi_size r) (status r) (init_time r) (mi_max_key_count r) (lock_pid r) (vm_segment r)
  (vm_striping r) (stats r) (usage r) (hashtable r).

(** ** Keys, values and arrays of the API (261-281): data together with its
    length *)
Record shmcache_key_info := Key_info { key_data : list ascii; key_length : Z }.
Record shmcache_value_info := Value_info {
  v_data : list ascii;
  v_length : Z;
  v_options : Z;
  v_expires : Z;
}.
Record shmcache_hash_entry := Hash_entry {
  entry_key : shmcache_key_info;
  entry_value : shmcache_value_info;
}.
Record shmcache_match_key_info := Match_key_info {
  match_key : list ascii;
  match_length : Z;
  op_type : Z;
}.

(** ** The context (283-326)

    A hash entry is addressed by its value segment and its offset in it; the
    value segments hold the entry headers ([hentries]) and, byte by byte, the
    keys and values behind them ([payload]).  [allocators] is the array at
    [allocators_offset] in the hashtable segment.  [base] of a segment is the
    address the kernel returned: 0 is NULL and -1 MAP_FAILED. *)
Record shmcache_segment_info := Segment_info {
  proj_id : Z;
  seg_key : Z;
  seg_size : Z;
  base : Z;
}.
Definition hptr : Type := Z * Z.
Record shmcache_context := Context {
  pid : Z;
  lock_fd : Z;
  detect_deadlock_clocks : Z;
  config : shmcache_config;
  memory : shm_memory_info;
  ht_segment : shmcache_segment_info;
  values_count : Z;
  values_items : list shmcache_segment_info;
  doing : shmcache_object_pool_context;
  done_pool : shmcache_object_pool_context;
  allocators : list shm_striping_allocator;
  allocators_offset : Z;
  list_head_offset : Z;
  create_segment : bool;
  hentries : gmap (Z * Z) shm_hash_entry;
  payload : gmap (Z * Z) ascii;
  g_current_time : Z;
  g_schedule_flag : bool;
  open_fds : list Z;
  ticks : nat;
}.
#[export] Instance eta_segment_info : Settable shmcache_segment_info :=
  λ r, Segment_info (proj_id r) (seg_key r) (seg_size r) (base r).
#[export] Instance eta_context : Settable shmcache_context := λ r, Context
  (pid r) (lock_fd r) (detect_deadlock_clocks r) (config r) (memory r) (ht_segment r)
  (values_count r) (values_items r) (doing r) (done_pool r) (allocators r)
  (allocators_offset r) (list_head_offset r) (create_segment r) (hentries r) (payload r)
  (g_current_time r) (g_schedule_flag r) (open_fds r) (ticks r).

Definition cmd (A : Type) : Type := M shmcache_context A.

(** ** Statements shared by all components *)

(** an external call: its answer is the environment's, and it counts *)
Definition ext {A} (f : nat → A) : cmd A := λ s,
  Some (f (ticks s), s <| ticks ::= S |>).

Definition on_doing {A} : M shmcache_object_pool_context A → cmd A :=
  zoom doing (λ p s, s <| doing := p |>).
Definition on_done {A} : M shmcache_object_pool_context A → cmd A :=
  zoom done_pool (λ p s, s <| done_pool := p |>).

(** [n] bytes at [p] lie inside a mapped value segment *)
Definition in_segment (s : shmcache_context) (p : hptr) (n : Z) : bool :=
  match znth (values_items s) p.1 with
  | Some seg => (p.1 <? values_count s) && negb (base seg =? 0) && negb (base seg =? -1)
      && (0 <=? p.2) && (0 <=? n) && (p.2 + n <=? seg_size seg)
  | None => false
  end.

Definition hentry_at (s : shmcache_context) (p : hptr) : shm_hash_entry :=
  default hentry_zero (hentries s !! p).

(** read and update the entry header a (non-NULL) pointer refers to *)
Definition load_hentry (p : hptr) : cmd shm_hash_entry := λ s,
  if in_segment s p sizeof_shm_hash_entry then Some (hentry_at s p, s) else None.
Definition store_hentry (p : hptr) (f : shm_hash_entry → shm_hash_entry) : cmd unit := λ s,
  if in_segment s p sizeof_shm_hash_entry
  then Some (tt, s <| hentries := <[p := f (hentry_at s p)]> (hentries s) |>) else None.

(** memcpy from and to the bytes of a value segment *)
Definition read_bytes (m : gmap (Z * Z) ascii) (p : hptr) (n : nat) : list ascii :=
  (λ i : nat, default Ascii.zero (m !! (p.1, p.2 + Z.of_nat i))) <$> seq 0 n.
Fixpoint write_bytes (m : gmap (Z * Z) ascii) (p : hptr) (bs : list ascii) : gmap (Z * Z) ascii :=
  match bs with
  | [] => m
  | b :: bs => <[p := b]> (write_bytes m (p.1, p.2 + 1) bs)
  end.
Definition memcpy_from (p : hptr) (n : Z) : cmd (list ascii) := λ s,
  if in_segment s p n then Some (read_bytes (payload s) p (Z.to_nat n), s) else None.
Definition memcpy_to (p : hptr) (data : list ascii) (n : Z) : cmd unit := λ s,
  if in_segment s p n && (n <=? Z.of_nat (length data))
  then Some (tt, s <| payload := write_bytes (payload s) p (take (Z.to_nat n) data) |>)
  else None.

(** the allocator at an index of the array *)
Definition load_allocator (i : Z) : cmd shm_striping_allocator := λ s,
  match znth (allocators s) i with Some a => Some (a, s) | None => None end.
Definition store_allocator (i : Z) (a : shm_striping_allocator) : cmd unit := λ s,
  match zupd (allocators s) i a with
  | Some l => Some (tt, s <| allocators := l |>) | None => None end.
(** [(char * )allocator - hashtable.base] and its inverse *)
Definition allocator_offset_of (s : shmcache_context) (i : Z) : Z :=
  allocators_offset s + i * sizeof_shm_striping_allocator.
Definition allocator_index_of (off : Z) : cmd Z := λ s,
  let d := off - allocators_offset s in
  if d mod sizeof_shm_striping_allocator =? 0
  then Some (d / sizeof_shm_striping_allocator, s) else None.

(** ** Zero pages: what a new segment and new bookkeeping contain *)
Definition stats_zero : shm_stats :=
  Shm_stats (Counter 0 0) (Counter 0 0) (Counter 0 0) (Counter 0 0) 0 0 0
    (Recycle_stats 0 0 0 0) (Recycle_stats 0 0 0 0) (Lock_stats 0 0 0 0 0 0) (Counter 0 0) 0 0.
Definition segment_zero : shmcache_segment_info := Segment_info 0 0 0 0.
Definition pool_zero (n : nat) : shmcache_object_pool_context :=
  Object_pool_context (Object_pool_info 0 0 (Ring_queue 0 0 0)) (replicate n 0) (-1).
Definition memory_zero (n_buckets : nat) : shm_memory_info :=
  Memory_info 0 0 0 0 0 (Value_size_info 0 0 0) (Value_size_info 0 0 0) stats_zero
    (Memory_usage 0 0 0 0 0) (Shm_hashtable (Shm_list 0 0) 0 0 (replicate n_buckets 0)).
Definition allocator_zero : shm_striping_allocator :=
  Striping_allocator 0 0 0 (Ssp 0 0) 0 0 0 0 0.
Definition zero_image (cfg : shmcache_config) (n_buckets n_stripings : nat) : shmcache_context :=
  Context 0 0 0 cfg (memory_zero n_buckets) segment_zero 0 [] (pool_zero (S n_stripings))
    (pool_zero (S n_stripings)) (replicate n_stripings allocator_zero) 0 0 false ∅ ∅ 0 false [] 0.

(** running an external call *)
Lemma wp_ext {A} s (f : nat → A) (Q : A → _ → Prop) :
  Q (f (ticks s)) (s <| ticks ::= S |>) → wp (ext f) Q s.
Proof. intros. by apply wp_run with (f (ticks s)) (s <| ticks ::= S |>). Qed.

(** ** Bytes *)
Lemma lookup_write_bytes m p bs q :
  write_bytes m p bs !! q =
    if decide (q.1 = p.1 ∧ p.2 ≤ q.2 < p.2 + Z.of_nat (length bs))
    then bs !! Z.to_nat (q.2 - p.2) else m !! q.
Proof.
  revert p. induction bs as [|b bs IH]; intros p; cbn [write_bytes length].
  { rewrite decide_False by lia. done. }
  destruct p as [sg o], q as [sg' o']. cbn [fst snd] in *. rewrite lookup_insert, IH. cbn [fst snd].
  case_decide as H1; simplify_eq.
  { rewrite decide_True by lia. by rewrite Z.sub_diag. }
  destruct (decide (sg' = sg ∧ o ≤ o' < o + Z.of_nat (S (length bs)))) as [[-> Hr]|Hn].
  - assert (o ≠ o') by congruence. rewrite decide_True by lia.
    replace (Z.to_nat (o' - o)) with (S (Z.to_nat (o' - (o + 1)))) by lia. done.
  - by rewrite decide_False by lia.
Qed.

Definition bytes_disjoint (p : hptr) (n : Z) (q : hptr) (m : Z) : Prop :=
  p.1 ≠ q.1 ∨ p.2 + n ≤ q.2 ∨ q.2 + m ≤ p.2.

Lemma read_write_disjoint m p bs q n :
  bytes_disjoint p (Z.of_nat (length bs)) q (Z.of_nat n) →
  read_bytes (write_bytes m p bs) q n = read_bytes m q n.
Proof.
  intros Hd. unfold read_bytes. apply list_fmap_ext. intros j i Hi%lookup_seq. cbn.
  rewrite lookup_write_bytes, decide_False; [done|]. cbn. unfold bytes_disjoint in Hd. lia.
Qed.
Lemma read_write_same m p bs : read_bytes (write_bytes m p bs) p (length bs) = bs.
Proof.
  apply list_eq_same_length with (length bs); [done|by unfold read_bytes; rewrite length_fmap, length_seq|].
  intros i x y Hi. unfold read_bytes. rewrite list_lookup_fmap, lookup_seq_lt by done. cbn.
  rewrite lookup_write_bytes, decide_True by (cbn; lia). cbn.
  replace (Z.to_nat (p.2 + Z.of_nat i - p.2)) with i by lia. intros Hx Hy. rewrite Hy in Hx.
  cbn in Hx. congruence.
Qed.
Lemma length_read_bytes m p n : length (read_bytes m p n) = n.
Proof. unfold read_bytes. by rewrite length_fmap, length_seq. Qed.
