(* ===== verification/ObjectPool.v ===== *)
(** * The object pool: a FIFO ring queue of offsets (src/shm_object_pool.h, .c)

    The pool is the queue of the value allocator: [shm_object_pool_alloc] pops
    at [head], [shm_object_pool_free] pushes at [tail], one slot always stays
    free.  [contents] is the abstract queue. *)
From S2P Require Import Prelude Types.
Local Open Scope Z_scope.
Local Open Scope shm_scope.

Module Pool.

Definition cmd (A : Type) : Type := M shmcache_object_pool_context A.
Notation rq op := (queue (obj_pool_info op)).

(** [op->offsets[i]] *)
Definition offset_at (i : Z) : cmd Z :=
  op ← get; of_option (znth (offsets op) i).
Definition set_offset_at (i x : Z) : cmd unit :=
  op ← get;
  l ← of_option (zupd (offsets op) i x);
  modify (λ op, op <| offsets := l |>).

(** ** Sizes (shm_object_pool.h, 23-39) *)
Definition shm_object_pool_get_queue_memory_size (max_count : Z) : Z :=
  sizeof_int64 * max_count.
Definition shm_object_pool_get_object_memory_size (element_size max_count : Z) : Z :=
  element_size * max_count.

(** ** Initialisation *)
Definition shm_object_pool_set (info : shm_object_pool_info) (offs : list Z) :
    shmcache_object_pool_context :=
  Object_pool_context info offs (-1).

(** the loop of [shm_object_pool_init_full] over [n] slots from [i] *)
Fixpoint fill_offsets (n : nat) (i offset step : Z) : cmd unit :=
  match n with
  | O => mret tt
  | S n => set_offset_at i offset;; fill_offsets n (i + 1) (offset + step) step
  end.
Definition shm_object_pool_init_full : cmd unit :=
  op ← get;
  let cap := capacity (rq op) in
  fill_offsets (Z.to_nat (cap - 1)) 0 (base_offset (obj_pool_info op))
    (element_size (obj_pool_info op));;
  modify (λ op, op <| obj_pool_info; queue; head := 0 |>
                   <| obj_pool_info; queue; tail := cap - 1 |>).

Definition shm_object_pool_init_empty : cmd unit :=
  modify (λ op, op <| obj_pool_info; queue; tail := 0 |>
                   <| obj_pool_info; queue; head := 0 |>).

(** ** Queue operations *)
Definition shm_object_pool_get_count (op : shmcache_object_pool_context) : Z :=
  if head (rq op) =? tail (rq op) then 0
  else if head (rq op) <? tail (rq op) then tail (rq op) - head (rq op)
  else (capacity (rq op) - head (rq op)) + tail (rq op).

Definition shm_object_pool_is_empty (op : shmcache_object_pool_context) : bool :=
  head (rq op) =? tail (rq op).

(** [x % y] of C: a fault when [y] is 0 *)
Definition c_rem (x y : Z) : cmd Z :=
  if y =? 0 then fault else mret (Z.rem x y).

Definition shm_object_pool_alloc : cmd Z :=
  op ← get;
  if head (rq op) =? tail (rq op) then mret (-1)
  else
    obj_offset ← offset_at (head (rq op));
    h ← c_rem (head (rq op) + 1) (capacity (rq op));
    modify (λ op, op <| obj_pool_info; queue; head := h |>);;
    mret obj_offset.
Definition shm_object_pool_pop : cmd Z := shm_object_pool_alloc.

Definition shm_object_pool_free (obj_offset : Z) : cmd Z :=
  op ← get;
  next_tail ← c_rem (tail (rq op) + 1) (capacity (rq op));
  if next_tail =? head (rq op) then mret ENOSPC
  else
    set_offset_at (tail (rq op)) obj_offset;;
    modify (λ op, op <| obj_pool_info; queue; tail := next_tail |>);;
    mret 0.
Definition shm_object_pool_push (obj_offset : Z) : cmd Z := shm_object_pool_free obj_offset.

(** ** Iteration *)
Definition shm_object_pool_first : cmd Z :=
  op ← get;
  if head (rq op) =? tail (rq op) then
    modify (λ op, op <| index := -1 |>);; mret (-1)
  else
    modify (λ op, op <| index := head (rq op) |>);;
    offset_at (head (rq op)).

Definition shm_object_pool_next : cmd Z :=
  op ← get;
  if index op =? -1 then mret (-1)
  else if index op =? tail (rq op) then
    modify (λ op, op <| index := -1 |>);; mret (-1)
  else
    i ← c_rem (index op + 1) (capacity (rq op));
    modify (λ op, op <| index := i |>);;
    if negb (i =? tail (rq op)) then offset_at i else mret (-1).

(** ** Removal at the iterator *)
Definition SHM_OP_DEC_INDEX (index capacity : Z) : Z :=
  if index =? 0 then capacity - 1 else index - 1.

(** the while loop of [shm_object_pool_remove]; it makes at most [capacity]
    turns *)
Fixpoint shift_to_head (fuel : nat) (current : Z) : cmd unit :=
  match fuel with
  | O => fault
  | S fuel =>
    op ← get;
    if current =? head (rq op) then mret tt
    else
      let previous := SHM_OP_DEC_INDEX current (capacity (rq op)) in
      x ← offset_at previous;
      set_offset_at current x;;
      shift_to_head fuel previous
  end.

Definition shm_object_pool_remove : cmd Z :=
  op ← get;
  if head (rq op) =? tail (rq op) then mret (-1)
  else if index op <? 0 then mret (-1)
  else
    shift_to_head (S (Z.to_nat (capacity (rq op)))) (index op);;
    h ← c_rem (head (rq op) + 1) (capacity (rq op));
    modify (λ op, op <| obj_pool_info; queue; head := h |>);;
    offset_at (index op).

Fixpoint remove_by_loop (fuel : nat) (obj_offset current_offset : Z) : cmd Z :=
  match fuel with
  | O => fault
  | S fuel =>
    if current_offset >? 0 then
      if current_offset =? obj_offset then shm_object_pool_remove
      else
        next ← shm_object_pool_next;
        remove_by_loop fuel obj_offset next
    else mret (-1)
  end.
Definition shm_object_pool_remove_by (obj_offset : Z) : cmd Z :=
  op ← get;
  current_offset ← shm_object_pool_first;
  remove_by_loop (S (Z.to_nat (capacity (rq op)))) obj_offset current_offset.

(** ** Abstraction: the queue as a list *)
Definition count (op : shmcache_object_pool_context) : Z := shm_object_pool_get_count op.

(** the ring position [i] places after [head]; [-1] is the one before it *)
Definition slot (op : shmcache_object_pool_context) (i : Z) : Z :=
  let p := head (rq op) + i in
  if p <? 0 then p + capacity (rq op)
  else if p <? capacity (rq op) then p else p - capacity (rq op).

Definition contents (op : shmcache_object_pool_context) : list Z :=
  (λ i, offsets op !!! Z.to_nat (slot op i)) <$> seqZ 0 (count op).

Record wf (op : shmcache_object_pool_context) : Prop := {
  wf_offsets : Z.of_nat (length (offsets op)) = capacity (rq op);
  wf_head : 0 ≤ head (rq op) < capacity (rq op);
  wf_tail : 0 ≤ tail (rq op) < capacity (rq op);
}.

(** the iterator stands at the [k]-th object *)
Definition at_pos (op : shmcache_object_pool_context) (k : Z) : Prop :=
  index op = slot op k.

Local Ltac ring_lia := unfold slot, count, shm_object_pool_get_count in *; bool_lia.

Lemma count_range op : wf op → 0 ≤ count op < capacity (rq op).
Proof. intros []. ring_lia. Qed.
Lemma slot_range op i :
  wf op → -1 ≤ i < capacity (rq op) → 0 ≤ slot op i < capacity (rq op).
Proof. intros [] ?. ring_lia. Qed.
Lemma slot_tail op : wf op → slot op (count op) = tail (rq op).
Proof. intros []. ring_lia. Qed.
Lemma slot_inj op i j :
  wf op → -1 ≤ i < capacity (rq op) - 1 → -1 ≤ j < capacity (rq op) - 1 →
  slot op i = slot op j → i = j.
Proof. intros []. ring_lia. Qed.

Lemma length_contents op : wf op → length (contents op) = Z.to_nat (count op).
Proof. intros. unfold contents. by rewrite length_fmap, length_seqZ. Qed.

Lemma contents_lookup op i :
  wf op → 0 ≤ i < count op →
  contents op !! Z.to_nat i = offsets op !! Z.to_nat (slot op i).
Proof.
  intros Hwf Hi. unfold contents. rewrite list_lookup_fmap, lookup_seqZ_lt by lia. simpl.
  rewrite Z2Nat.id, Z.add_0_l by lia. symmetry.
  apply list_lookup_lookup_total, lookup_lt_is_Some.
  pose proof (count_range op Hwf). pose proof (slot_range op i Hwf). destruct Hwf. lia.
Qed.

(** a ring read at the [i]-th slot yields the [i]-th object *)
Lemma znth_slot op i :
  wf op → 0 ≤ i < count op → znth (offsets op) (slot op i) = contents op !! Z.to_nat i.
Proof.
  intros Hwf Hi. rewrite contents_lookup by done. unfold znth.
  pose proof (count_range op Hwf). pose proof (slot_range op i Hwf).
  destruct (Z.leb_spec 0 (slot op i)); [done|lia].
Qed.

Lemma contents_eq op l :
  wf op → length l = Z.to_nat (count op) →
  (∀ i, 0 ≤ i < count op → offsets op !! Z.to_nat (slot op i) = l !! Z.to_nat i) →
  contents op = l.
Proof.
  intros Hwf Hl H. apply list_eq_same_length with (length l); [done|by rewrite length_contents|].
  intros i x y Hi Hx Hy.
  rewrite <-(Nat2Z.id i) in Hx, Hy. rewrite contents_lookup, H in Hx by (done || lia). congruence.
Qed.

Lemma empty_iff op : wf op → head (rq op) = tail (rq op) ↔ contents op = [].
Proof.
  intros Hwf. pose proof (length_contents op Hwf) as Hl. pose proof (count_range op Hwf).
  split; intros E.
  - apply length_zero_iff_nil. rewrite Hl. destruct Hwf. ring_lia.
  - rewrite E in Hl. simpl in Hl. destruct Hwf. ring_lia.
Qed.

(** ** Rules of the primitive steps *)
Lemma wp_offset_at op i (Q : Z → _ → Prop) :
  (∃ x, znth (offsets op) i = Some x ∧ Q x op) → wp (offset_at i) Q op.
Proof. intros. unfold offset_at. wp_simpl. by apply wp_of_option. Qed.

Lemma wp_set_offset_at op i x (Q : unit → _ → Prop) :
  0 ≤ i < Z.of_nat (length (offsets op)) →
  Q tt (op <| offsets := <[Z.to_nat i := x]> (offsets op) |>) →
  wp (set_offset_at i x) Q op.
Proof.
  intros. unfold set_offset_at. wp_simpl. apply wp_of_option.
  eexists. split; [by apply zupd_Some|]. by wp_simpl.
Qed.

Lemma wp_c_rem_succ (op : shmcache_object_pool_context) i cap (Q : Z → _ → Prop) :
  0 ≤ i < cap → Q (if i + 1 =? cap then 0 else i + 1) op → wp (c_rem (i + 1) cap) Q op.
Proof.
  intros Hi. unfold c_rem. destruct (Z.eqb_spec cap 0); [lia|].
  rewrite rem_succ by done. intros. by wp_simpl.
Qed.

(** ** Functional behaviour: allocation is [pop], free is a bounded [push] *)
Lemma pool_alloc_spec op :
  wf op →
  wp shm_object_pool_alloc (λ r op', wf op' ∧ offsets op' = offsets op ∧
    index op' = index op ∧ capacity (rq op') = capacity (rq op) ∧
    match contents op with
    | [] => r = -1 ∧ op' = op
    | x :: l => r = x ∧ contents op' = l
    end) op.
Proof.
  intros Hwf. unfold shm_object_pool_alloc. wp_simpl.
  pose proof (count_range op Hwf). pose proof (empty_iff op Hwf) as Hemp.
  destruct (Z.eqb_spec (head (rq op)) (tail (rq op))) as [E|E].
  { wp_simpl. rewrite (proj1 Hemp E). eauto 10. }
  assert (0 < count op) by (destruct Hwf; ring_lia).
  assert (head (rq op) = slot op 0) as Hs0 by (destruct Hwf; ring_lia).
  destruct (contents op) as [|x l] eqn:Ec; [tauto|].
  wp_simpl. apply wp_offset_at. exists x. split.
  { rewrite Hs0, znth_slot, Ec by (done || lia). done. }
  wp_simpl. apply wp_c_rem_succ; [by apply Hwf|]. wp_simpl.
  assert (wf (op <| obj_pool_info; queue; head :=
    if head (rq op) + 1 =? capacity (rq op) then 0 else head (rq op) + 1 |>)) as Hwf'.
  { destruct Hwf. split; cbn; bool_lia. }
  assert (count (op <| obj_pool_info; queue; head :=
    if head (rq op) + 1 =? capacity (rq op) then 0 else head (rq op) + 1 |>) = count op - 1).
  { clear Hs0. destruct Hwf. ring_lia; cbn in *; ring_lia. }
  split_and!; [done..|]. apply contents_eq; [done|..].
  { pose proof (length_contents op Hwf) as Hl. rewrite Ec in Hl. simpl in Hl. lia. }
  intros i Hi. change (offsets (upd _ _ _)) with (offsets op).
  replace (l !! Z.to_nat i) with ((x :: l) !! Z.to_nat (i + 1)).
  2: { rewrite Z2Nat.inj_add by lia. by rewrite Nat.add_comm. }
  rewrite <-Ec, contents_lookup by (done || lia). do 2 f_equal.
  clear Hs0. destruct Hwf. unfold slot. cbn. bool_lia.
Qed.

Lemma pool_free_spec op x :
  wf op →
  wp (shm_object_pool_free x) (λ r op', wf op' ∧ index op' = index op ∧
    capacity (rq op') = capacity (rq op) ∧
    if count op =? capacity (rq op) - 1 then r = ENOSPC ∧ op' = op
    else r = 0 ∧ contents op' = contents op ++ [x]) op.
Proof.
  intros Hwf. unfold shm_object_pool_free. wp_simpl.
  pose proof (count_range op Hwf).
  apply wp_c_rem_succ; [by apply Hwf|].
  destruct (Z.eqb_spec (count op) (capacity (rq op) - 1)) as [Efull|Efull].
  { match goal with |- context [?a =? ?b] => destruct (Z.eqb_spec a b) as [|E] end.
    - wp_simpl. auto.
    - exfalso. apply E. clear E. destruct Hwf. ring_lia. }
  match goal with |- context [?a =? ?b] => destruct (Z.eqb_spec a b) as [E|E] end.
  { exfalso. apply Efull. clear Efull. destruct Hwf. ring_lia. }
  wp_simpl. apply wp_set_offset_at; [destruct Hwf; lia|]. wp_simpl.
  set (op' := upd _ _ _).
  assert (wf op') as Hwf'.
  { destruct Hwf. split; cbn; [by rewrite length_insert|lia|bool_lia]. }
  assert (count op' = count op + 1) as Hc'.
  { clear Hwf'. destruct Hwf. subst op'. ring_lia; cbn in *; ring_lia. }
  split_and!; [done..|]. apply contents_eq; [done|..].
  { rewrite length_app, length_contents by done. simpl. lia. }
  rewrite Hc'. intros i Hi.
  assert (slot op' i = slot op i) as -> by done.
  change (offsets op') with (<[Z.to_nat (tail (rq op)) := x]> (offsets op)).
  pose proof (length_contents op Hwf) as Hl.
  pose proof (slot_tail op Hwf) as Ht.
  assert (0 ≤ slot op i < capacity (rq op)) by (apply slot_range; [done|lia]).
  destruct (decide (i = count op)) as [->|].
  - rewrite Ht, list_lookup_insert_eq by (destruct Hwf; lia).
    rewrite lookup_app_r by lia. by rewrite Hl, Nat.sub_diag.
  - rewrite lookup_app_l by lia. rewrite contents_lookup by (done || lia).
    apply list_lookup_insert_ne. intros Eq%Z2Nat.inj; [|destruct Hwf; lia..].
    rewrite <-Ht in Eq. apply slot_inj in Eq; [lia|done|..]; destruct Hwf; lia.
Qed.

(** ** Iteration: [first] stands at object 0, [next] steps to the next one *)
Lemma slot_inj0 op i j :
  wf op → 0 ≤ i < capacity (rq op) → 0 ≤ j < capacity (rq op) →
  slot op i = slot op j → i = j.
Proof. intros []. ring_lia. Qed.

Lemma first_spec op :
  wf op →
  wp shm_object_pool_first (λ r op',
    r = default (-1) (contents op !! 0%nat) ∧
    op' = op <| index := if bool_decide (contents op = []) then -1 else slot op 0 |>) op.
Proof.
  intros Hwf. unfold shm_object_pool_first. wp_simpl.
  pose proof (count_range op Hwf). pose proof (empty_iff op Hwf) as Hemp.
  destruct (Z.eqb_spec (head (rq op)) (tail (rq op))) as [E|E].
  { wp_simpl. rewrite (proj1 Hemp E). done. }
  wp_simpl. apply wp_offset_at. cbn.
  assert (head (rq op) = slot op 0) as -> by (destruct Hwf; ring_lia).
  assert (0 < count op) by (destruct Hwf; ring_lia).
  rewrite bool_decide_false by tauto.
  destruct (lookup_lt_is_Some_2 (contents op) 0) as [x Hx]; [rewrite length_contents by done; lia|].
  exists x. rewrite znth_slot by (done || lia). by rewrite Hx.
Qed.

Lemma next_spec op k :
  wf op → at_pos op k → -1 ≤ k < count op → (k = -1 → count op < capacity (rq op) - 1) →
  wp shm_object_pool_next (λ r op',
    r = default (-1) (contents op !! Z.to_nat (k + 1)) ∧
    op' = op <| index := slot op (k + 1) |>) op.
Proof.
  intros Hwf Hk Hr Hm1. unfold at_pos in Hk. unfold shm_object_pool_next. wp_simpl.
  pose proof (count_range op Hwf). rewrite Hk.
  pose proof (slot_range op k Hwf ltac:(lia)).
  pose proof (slot_tail op Hwf) as Ht.
  destruct (Z.eqb_spec (slot op k) (-1)); [lia|].
  destruct (Z.eqb_spec (slot op k) (tail (rq op))) as [E|E].
  { exfalso. rewrite <-Ht in E. destruct (decide (k = -1)) as [->|].
    - apply slot_inj in E; [lia|done|lia..].
    - apply slot_inj0 in E; [lia|done|lia..]. }
  wp_simpl. apply wp_c_rem_succ; [lia|]. wp_simpl.
  assert ((if slot op k + 1 =? capacity (rq op) then 0 else slot op k + 1) = slot op (k + 1)) as ->.
  { destruct Hwf. clear Ht. unfold slot, count, shm_object_pool_get_count in *. bool_lia. }
  destruct (Z.eqb_spec (slot op (k + 1)) (tail (rq op))) as [E'|E']; cbn.
  - rewrite <-Ht in E'. assert (k + 1 = count op) as -> by (apply slot_inj0 in E'; (done || lia)).
    wp_simpl. rewrite lookup_ge_None_2; [done|]. rewrite length_contents by done. lia.
  - assert (k + 1 < count op) by (destruct (decide (k + 1 = count op)) as [Eq|]; [congruence|lia]).
    apply wp_offset_at. cbn.
    destruct (lookup_lt_is_Some_2 (contents op) (Z.to_nat (k + 1))) as [x Hx].
    { rewrite length_contents by done. lia. }
    exists x. rewrite znth_slot by (done || lia). by rewrite Hx.
Qed.

(** ** Removal at the iterator *)
Lemma shift_spec fuel op j :
  wf op → 0 ≤ j < capacity (rq op) → (Z.to_nat j < fuel)%nat →
  wp (shift_to_head fuel (slot op j)) (λ _ op', ∃ l, op' = op <| offsets := l |> ∧
    length l = length (offsets op) ∧
    ∀ i, 0 ≤ i < capacity (rq op) → l !! Z.to_nat (slot op i) =
      offsets op !! Z.to_nat (slot op (if (1 <=? i) && (i <=? j) then i - 1 else i))) op.
Proof.
  revert op j. induction fuel as [|fuel IH]; intros op j Hwf Hj Hf; [lia|]. cbn [shift_to_head].
  wp_simpl. destruct (Z.eqb_spec (slot op j) (head (rq op))) as [E|E].
  { wp_simpl. exists (offsets op). split; [by destruct op|]. split; [done|]. intros i Hi.
    assert (j = 0) as ->. { destruct Hwf. ring_lia. }
    repeat case_bool; cbn; (lia || done). }
  assert (0 < j) by (destruct Hwf; ring_lia).
  assert (SHM_OP_DEC_INDEX (slot op j) (capacity (rq op)) = slot op (j - 1)) as ->.
  { destruct Hwf. unfold SHM_OP_DEC_INDEX. ring_lia. }
  wp_simpl. apply wp_offset_at.
  pose proof (slot_range op (j - 1) Hwf ltac:(lia)). pose proof (slot_range op j Hwf ltac:(lia)).
  destruct (znth_is_Some (offsets op) (slot op (j - 1))) as [x Hx]; [destruct Hwf; lia|].
  exists x. split; [done|]. wp_simpl. apply wp_set_offset_at; [destruct Hwf; lia|].
  set (op1 := op <| offsets := <[Z.to_nat (slot op j) := x]> (offsets op) |>).
  assert (wf op1) as Hwf1 by (destruct Hwf; split; cbn; rewrite ?length_insert; lia).
  eapply wp_mono; [apply (IH op1 (j - 1)); [done|cbn; lia..]|].
  intros _ op' (l&->&Hl&Hlk). exists l. split; [done|]. split; [by rewrite Hl; apply length_insert|].
  intros i Hi. change (slot op1) with (slot op) in Hlk. rewrite Hlk by done.
  apply znth_Some in Hx as [_ Hx].
  change (offsets op1) with (<[Z.to_nat (slot op j) := x]> (offsets op)).
  assert (∀ i', 0 ≤ i' < capacity (rq op) → i' ≠ j →
    <[Z.to_nat (slot op j) := x]> (offsets op) !! Z.to_nat (slot op i') =
    offsets op !! Z.to_nat (slot op i')) as Hne.
  { intros i' Hi' Hne. apply list_lookup_insert_ne.
    pose proof (slot_range op i' Hwf ltac:(lia)).
    intros Eq%Z2Nat.inj; [|lia..]. apply slot_inj0 in Eq; (done || lia). }
  destruct (decide (i = j)) as [->|].
  - rewrite (proj2 (Z.leb_gt j (j - 1))), andb_false_r by lia.
    rewrite (proj2 (Z.leb_le 1 j)), (proj2 (Z.leb_le j j)) by lia. cbn [andb].
    rewrite list_lookup_insert_eq by (destruct Hwf; lia). done.
  - rewrite Hne by (repeat case_bool; cbn; lia). repeat case_bool; cbn; (done || lia).
Qed.

(** [shm_object_pool_remove] takes the object at the iterator out of the
    queue, keeps the order of the others and leaves the iterator before its
    successor; its result is the object now under the iterator's slot *)
Lemma remove_spec op k :
  wf op → at_pos op k → 0 ≤ k < count op →
  wp shm_object_pool_remove (λ r op', wf op' ∧ capacity (rq op') = capacity (rq op) ∧
    index op' = index op ∧ at_pos op' (k - 1) ∧ count op' = count op - 1 ∧
    contents op' = delete (Z.to_nat k) (contents op) ∧
    contents op !! Z.to_nat (if k =? 0 then 0 else k - 1) = Some r) op.
Proof.
  intros Hwf Hk Hr. unfold at_pos in Hk. unfold shm_object_pool_remove. wp_simpl.
  pose proof (count_range op Hwf).
  destruct (Z.eqb_spec (head (rq op)) (tail (rq op))) as [E|E].
  { exfalso. destruct Hwf. ring_lia. }
  rewrite Hk. pose proof (slot_range op k Hwf ltac:(lia)).
  destruct (Z.ltb_spec (slot op k) 0); [lia|]. wp_simpl.
  eapply wp_mono; [apply shift_spec; [done|lia|lia]|].
  intros _ op1 (l&->&Hl&Hlk). wp_simpl. apply wp_c_rem_succ; [apply Hwf|]. wp_simpl.
  apply wp_offset_at. cbn.
  assert (contents op !! Z.to_nat (if k =? 0 then 0 else k - 1) = l !! Z.to_nat (slot op k)) as Hres.
  { rewrite Hlk, contents_lookup by (first [done|lia|repeat case_bool; cbn; lia]).
    do 2 f_equal. repeat case_bool; cbn; first [done|lia|f_equal; lia]. }
  destruct (lookup_lt_is_Some_2 l (Z.to_nat (slot op k))) as [x Hx].
  { destruct Hwf. lia. }
  exists x. split. { apply znth_Some. split; [lia|done]. }
  set (op' := upd _ _ _).
  assert (wf op') as Hwf'.
  { destruct Hwf. split; cbn; [by rewrite Hl|bool_lia|lia]. }
  assert (count op' = count op - 1) as Hc'.
  { clear Hres Hk Hlk Hx Hwf'. destruct Hwf. subst op'. ring_lia; cbn in *; ring_lia. }
  assert (∀ i, -1 ≤ i < capacity (rq op) - 1 → slot op' i = slot op (i + 1)) as Hs.
  { clear Hres Hk Hlk Hx Hwf'. intros i Hi. destruct Hwf. unfold slot. subst op'. cbn. bool_lia. }
  split_and!; [done|done|done| |done| |congruence].
  { unfold at_pos. change (index op') with (index op). rewrite Hs, Hk by lia. f_equal. lia. }
  apply contents_eq; [done|..].
  { rewrite length_delete by (apply lookup_lt_is_Some_2; rewrite length_contents by done; lia).
    rewrite length_contents by done. lia. }
  rewrite Hc'. intros i Hi. rewrite Hs by lia. change (offsets op') with l.
  rewrite Hlk by lia. repeat case_bool; cbn [andb]; try lia.
  - rewrite list_lookup_delete_lt, contents_lookup by (done || lia). do 3 f_equal. lia.
  - rewrite list_lookup_delete_ge by lia.
    replace (S (Z.to_nat i)) with (Z.to_nat (i + 1)) by lia. by rewrite contents_lookup by (done || lia).
Qed.

(** the queue without its first occurrence of [x] *)
Fixpoint remove_first (x : Z) (l : list Z) : list Z :=
  match l with
  | [] => []
  | y :: l => if y =? x then l else y :: remove_first x l
  end.
Lemma remove_first_not_in x l : x ∉ l → remove_first x l = l.
Proof.
  induction l as [|y l IH]; [done|]. intros [Hx Hl]%not_elem_of_cons. simpl.
  destruct (Z.eqb_spec y x); [congruence|]. by rewrite IH.
Qed.
Lemma remove_first_delete x l k :
  l !! k = Some x → x ∉ take k l → remove_first x l = delete k l.
Proof.
  revert k. induction l as [|y l IH]; intros [|k] Hk Hn; simplify_eq/=.
  - by rewrite Z.eqb_refl.
  - apply not_elem_of_cons in Hn as [Hn Hl].
    destruct (Z.eqb_spec y x); [congruence|]. f_equal. by apply IH.
Qed.

Lemma contents_index op i : contents (op <| index := i |>) = contents op.
Proof. done. Qed.
Lemma wf_index op i : wf op → wf (op <| index := i |>).
Proof. intros []. by split. Qed.

Lemma remove_by_loop_spec fuel op x k :
  wf op → at_pos op k → 0 ≤ k < count op → Forall (λ y, 0 < y) (contents op) →
  x ∉ take (Z.to_nat k) (contents op) → (Z.to_nat (count op - k) < fuel)%nat →
  wp (remove_by_loop fuel x (contents op !!! Z.to_nat k)) (λ r op', wf op' ∧
    capacity (rq op') = capacity (rq op) ∧
    contents op' = remove_first x (contents op) ∧
    if decide (x ∈ contents op) then 0 < r else r = -1) op.
Proof.
  revert op k. induction fuel as [|fuel IH]; intros op k Hwf Hk Hr Hpos Hn Hf; [lia|].
  cbn [remove_by_loop].
  destruct (lookup_lt_is_Some_2 (contents op) (Z.to_nat k)) as [y Hy].
  { rewrite length_contents by done. lia. }
  rewrite (list_lookup_total_correct _ _ _ Hy).
  pose proof (Forall_lookup_1 _ _ _ _ Hpos Hy) as Hypos. simpl in Hypos.
  rewrite Z.gtb_ltb. destruct (Z.ltb_spec 0 y); [|lia].
  destruct (Z.eqb_spec y x) as [->|Hne].
  - eapply wp_mono; [by eapply remove_spec|].
    intros r op' (?&?&_&_&_&Hc&Hlk). split_and!; [done|done|..].
    { rewrite Hc. symmetry. by apply remove_first_delete. }
    rewrite decide_True by (by eapply list_elem_of_lookup_2).
    by apply (Forall_lookup_1 _ _ _ _ Hpos) in Hlk.
  - wp_simpl. eapply wp_mono; [apply (next_spec op k); done || lia|].
    intros r op' [-> ->]. set (op' := op <| index := slot op (k + 1) |>).
    assert (x ∉ take (Z.to_nat (k + 1)) (contents op)) as Hn'.
    { replace (Z.to_nat (k + 1)) with (S (Z.to_nat k)) by lia.
      rewrite (take_S_r _ _ y) by done. set_solver. }
    destruct (decide (k + 1 < count op)).
    + replace (default (-1) (contents op !! Z.to_nat (k + 1))) with (contents op !!! Z.to_nat (k + 1)).
      2: { destruct (lookup_lt_is_Some_2 (contents op) (Z.to_nat (k + 1))) as [z Hz].
           { rewrite length_contents by done. lia. }
           by rewrite Hz, (list_lookup_total_correct _ _ _ Hz). }
      apply (IH op' (k + 1)); try done; [by apply wf_index|change (count op') with (count op)..]; lia.
    + rewrite lookup_ge_None_2 by (rewrite length_contents by done; lia). cbn [default].
      destruct fuel as [|fuel]; [lia|]. cbn [remove_by_loop].
      change (-1 >? 0) with false. cbn iota. wp_simpl.
      rewrite take_ge in Hn' by (rewrite length_contents by done; lia).
      rewrite remove_first_not_in, decide_False by done. by split_and!; [apply wf_index|..].
Qed.

Lemma remove_by_spec op x :
  wf op → Forall (λ y, 0 < y) (contents op) →
  wp (shm_object_pool_remove_by x) (λ r op', wf op' ∧
    capacity (rq op') = capacity (rq op) ∧
    contents op' = remove_first x (contents op) ∧
    if decide (x ∈ contents op) then 0 < r else r = -1) op.
Proof.
  intros Hwf Hpos. unfold shm_object_pool_remove_by. wp_simpl.
  eapply wp_mono; [by apply first_spec|]. intros r op' [-> ->].
  pose proof (length_contents op Hwf) as Hl. pose proof (count_range op Hwf).
  destruct (contents op) as [|y l] eqn:E.
  - rewrite bool_decide_true by done. cbn [default remove_by_loop lookup list_lookup].
    change (-1 >? 0) with false. cbn iota. wp_simpl.
    rewrite decide_False by set_solver. split_and!; [by apply wf_index|done|by rewrite contents_index|done].
  - rewrite bool_decide_false by done. cbn [lookup list_lookup default].
    set (op' := op <| index := slot op 0 |>). rewrite <-E in *.
    replace y with (contents op' !!! Z.to_nat 0) by (subst op'; rewrite contents_index, E; done).
    apply (remove_by_loop_spec _ op' x 0); try done; [by apply wf_index|..];
      change (count op') with (count op); [rewrite E in Hl; simpl in Hl; lia|set_solver|lia].
Qed.

(** ** Initialisation *)
Lemma init_empty_spec op :
  Z.of_nat (length (offsets op)) = capacity (rq op) → 0 < capacity (rq op) →
  wp shm_object_pool_init_empty (λ _ op', wf op' ∧ contents op' = [] ∧
    capacity (rq op') = capacity (rq op) ∧ offsets op' = offsets op ∧ index op' = index op) op.
Proof. intros. unfold shm_object_pool_init_empty. wp_simpl. split_and!; [split; cbn; lia|done..]. Qed.

Lemma fill_offsets_spec n op i b step :
  0 ≤ i → i + Z.of_nat n ≤ Z.of_nat (length (offsets op)) →
  wp (fill_offsets n i b step) (λ _ op', ∃ l, op' = op <| offsets := l |> ∧
    length l = length (offsets op) ∧
    (∀ j, 0 ≤ j < i → l !! Z.to_nat j = offsets op !! Z.to_nat j) ∧
    (∀ j, i ≤ j < i + Z.of_nat n → l !! Z.to_nat j = Some (b + (j - i) * step))) op.
Proof.
  revert op i b. induction n as [|n IH]; intros op i b Hi Hn; cbn [fill_offsets].
  { wp_simpl. exists (offsets op). split_and!; [by destruct op|done|done|intros; lia]. }
  wp_simpl. apply wp_set_offset_at; [lia|].
  eapply wp_mono; [apply IH; [lia|cbn; rewrite length_insert; lia]|].
  intros _ op' (l&->&Hl&Hlo&Hhi). exists l. cbn in *. rewrite length_insert in Hl.
  split_and!; [done|done|..].
  - intros j Hj. rewrite Hlo by lia. apply list_lookup_insert_ne. lia.
  - intros j Hj. destruct (decide (j = i)) as [->|].
    + rewrite Hlo, list_lookup_insert_eq by lia. f_equal. lia.
    + rewrite Hhi by lia. f_equal. lia.
Qed.

Lemma init_full_spec op :
  Z.of_nat (length (offsets op)) = capacity (rq op) → 0 < capacity (rq op) →
  wp shm_object_pool_init_full (λ _ op', wf op' ∧
    contents op' = (λ i, base_offset (obj_pool_info op) + i * element_size (obj_pool_info op))
                     <$> seqZ 0 (capacity (rq op) - 1)) op.
Proof.
  intros Hl Hc. unfold shm_object_pool_init_full. wp_simpl.
  eapply wp_mono; [apply fill_offsets_spec; lia|]. intros _ op1 (l&->&Hll&_&Hlk). wp_simpl.
  set (op' := upd _ _ _).
  assert (wf op') as Hwf by (split; cbn; lia).
  assert (count op' = capacity (rq op) - 1) as Hcnt.
  { subst op'. unfold count, shm_object_pool_get_count. cbn. bool_lia. }
  split; [done|]. apply contents_eq; [done|by rewrite length_fmap, length_seqZ, Hcnt|].
  rewrite Hcnt. intros i Hi. replace (slot op' i) with i by (subst op'; unfold slot; cbn; bool_lia).
  change (offsets op') with l. rewrite Hlk by lia.
  rewrite list_lookup_fmap, lookup_seqZ_lt by lia. cbn. f_equal. rewrite Z2Nat.id by lia.
  f_equal. f_equal. lia.
Qed.

(** ** Traces: every sequence of calls behaves as a bounded FIFO queue *)
Inductive call := Push (x : Z) | Pop.

Definition run_call (c : call) : cmd Z :=
  match c with
  | Push x => shm_object_pool_push x
  | Pop => shm_object_pool_pop
  end.
Fixpoint run (cs : list call) : cmd (list Z) :=
  match cs with
  | [] => mret []
  | c :: cs => r ← run_call c; rs ← run cs; mret (r :: rs)
  end.

(** the specification: a list that holds at most [n] objects *)
Definition spec_call (n : Z) (c : call) (q : list Z) : Z * list Z :=
  match c with
  | Push x => if Z.of_nat (length q) =? n then (ENOSPC, q) else (0, q ++ [x])
  | Pop => match q with [] => (-1, []) | x :: q => (x, q) end
  end.
Fixpoint spec_run (n : Z) (cs : list call) (q : list Z) : list Z * list Z :=
  match cs with
  | [] => ([], q)
  | c :: cs =>
    let '(r, q) := spec_call n c q in
    let '(rs, q) := spec_run n cs q in (r :: rs, q)
  end.

Lemma run_call_spec op c :
  wf op →
  wp (run_call c) (λ r op', wf op' ∧ capacity (rq op') = capacity (rq op) ∧
    (r, contents op') = spec_call (capacity (rq op) - 1) c (contents op)) op.
Proof.
  intros Hwf. pose proof (count_range op Hwf). destruct c as [x|]; cbn [run_call spec_call].
  - eapply wp_mono; [by apply pool_free_spec|]. intros r op' (?&_&?&Hr).
    rewrite length_contents, Z2Nat.id by (done || lia).
    destruct (Z.eqb_spec (count op) (capacity (rq op) - 1)); destruct Hr as [-> ->]; auto.
  - eapply wp_mono; [by apply pool_alloc_spec|]. intros r op' (?&_&_&?&Hr).
    destruct (contents op) as [|x l] eqn:E; destruct Hr as [-> Hc]; [subst op'; by rewrite E|by rewrite Hc].
Qed.

(** iterate to the [k]-th object *)
Fixpoint next_n (k : nat) : cmd unit :=
  match k with O => mret tt | S k => shm_object_pool_next;; next_n k end.
Definition goto (k : nat) : cmd unit := shm_object_pool_first;; next_n k.

Lemma next_n_spec n op k :
  wf op → at_pos op k → 0 ≤ k → k + Z.of_nat n < count op →
  wp (next_n n) (λ _ op', op' = op <| index := slot op (k + Z.of_nat n) |>) op.
Proof.
  revert op k. induction n as [|n IH]; intros op k Hwf Hk H0 Hn; cbn [next_n].
  { wp_simpl. unfold at_pos in Hk. rewrite Z.add_0_r, <-Hk. by destruct op. }
  wp_simpl. eapply wp_mono; [apply (next_spec op k); done || lia|]. intros _ op' [_ ->].
  eapply wp_mono.
  { apply (IH _ (k + 1)); [by apply wf_index|done|lia|].
    change (count (upd _ _ _)) with (count op). lia. }
  intros _ op' ->. cbn. unfold slot. cbn.
  replace (k + 1 + Z.of_nat n) with (k + Z.of_nat (S n)) by lia. by destruct op.
Qed.

Lemma goto_spec op k :
  wf op → (k < length (contents op))%nat →
  wp (goto k) (λ _ op', wf op' ∧ contents op' = contents op ∧ at_pos op' (Z.of_nat k) ∧
    capacity (rq op') = capacity (rq op)) op.
Proof.
  intros Hwf Hk. unfold goto. wp_simpl. eapply wp_mono; [by apply first_spec|].
  intros _ op' [_ ->]. rewrite bool_decide_false by (intros E; rewrite E in Hk; simpl in Hk; lia).
  rewrite length_contents in Hk by done.
  eapply wp_mono.
  { apply (next_n_spec k _ 0); [by apply wf_index|done|lia|].
    change (count (upd _ _ _)) with (count op). lia. }
  intros _ op' ->. split_and!; [by do 2 apply wf_index|done|done|done].
Qed.

(** the loop of the clients: [first], then [next] until the result is not
    positive *)
Fixpoint collect (fuel : nat) (current : Z) : cmd (list Z) :=
  match fuel with
  | O => fault
  | S fuel =>
    if current >? 0 then
      next ← shm_object_pool_next; l ← collect fuel next; mret (current :: l)
    else mret []
  end.

Lemma collect_spec fuel op k :
  wf op → at_pos op k → 0 ≤ k ≤ count op → k < capacity (rq op) →
  Forall (λ y, 0 < y) (contents op) → (Z.to_nat (count op - k) < fuel)%nat →
  wp (collect fuel (default (-1) (contents op !! Z.to_nat k)))
    (λ r _, r = drop (Z.to_nat k) (contents op)) op.
Proof.
  revert op k. induction fuel as [|fuel IH]; intros op k Hwf Hk Hr Hc Hpos Hf; [lia|].
  cbn [collect]. destruct (decide (k = count op)) as [->|].
  { rewrite lookup_ge_None_2 by (rewrite length_contents by done; lia). cbn [default].
    change (-1 >? 0) with false. cbn iota. wp_simpl.
    rewrite drop_ge; [done|]. rewrite length_contents by done. lia. }
  destruct (lookup_lt_is_Some_2 (contents op) (Z.to_nat k)) as [y Hy].
  { rewrite length_contents by done. lia. }
  rewrite Hy. cbn [from_option id]. pose proof (Forall_lookup_1 _ _ _ _ Hpos Hy) as Hypos. simpl in Hypos.
  rewrite Z.gtb_ltb. destruct (Z.ltb_spec 0 y); [|lia]. wp_simpl.
  pose proof (count_range op Hwf).
  eapply wp_mono; [apply (next_spec op k); done || lia|]. intros r op' [-> ->].
  wp_simpl. set (op' := op <| index := slot op (k + 1) |>).
  eapply wp_mono.
  { apply (IH op' (k + 1)); try done; [by apply wf_index|change (count op') with (count op)..|];
      [lia|change (rq op') with (rq op); lia|change (count op') with (count op); lia]. }
  intros l s2 ->. wp_simpl. change (contents op') with (contents op).
  rewrite (drop_S (contents op) y (Z.to_nat k)) by exact Hy. f_equal. f_equal. lia.
Qed.

(** ** Properties *)

(** C28: any sequence of [shm_object_pool_push] and [shm_object_pool_pop] calls on
    a well-formed pool of [capacity] slots runs without fault and returns
    exactly what a FIFO queue bounded by [capacity - 1] returns: objects come
    out in the order they went in, -1 from the empty queue, ENOSPC from the
    full one. *)
Theorem pool_refines_fifo op cs :
  wf op →
  ∃ op', run cs op = Some ((spec_run (capacity (rq op) - 1) cs (contents op)).1, op') ∧
    wf op' ∧ contents op' = (spec_run (capacity (rq op) - 1) cs (contents op)).2.
Proof.
  revert op. induction cs as [|c cs IH]; intros op Hwf; [by exists op|]. cbn [run spec_run].
  destruct (run_call_spec op c Hwf) as (r&op1&E&Hwf1&Hcap&Hs).
  destruct (IH op1 Hwf1) as (op2&E2&Hwf2&Hc2). rewrite Hcap in *. rewrite <-Hs.
  unfold mbind, M_bind. rewrite E, E2. destruct (spec_run _ cs (contents op1)). by exists op2.
Qed.

Definition pool4 : shmcache_object_pool_context :=
  Object_pool_context (Object_pool_info 1000 56 (Ring_queue 4 3 1)) [1056; 0; 0; 1000] (-1).
Lemma pool4_wf : wf pool4.
Proof. by split. Qed.

Lemma pool_refines_fifo_witness :
  contents pool4 = [1000; 1056] ∧
  ∃ op', run [Push 7; Push 8; Pop; Pop; Pop; Pop] pool4
         = Some ([0; ENOSPC; 1000; 1056; 7; -1], op') ∧ wf op' ∧ contents op' = [].
Proof.
  split; [reflexivity|].
  exact (pool_refines_fifo pool4 [Push 7; Push 8; Pop; Pop; Pop; Pop] pool4_wf).
Defined.

(** the client loop "[first]; while the offset is positive: [next]" over a
    pool of positive offsets terminates within [capacity] turns and visits
    every object of the queue exactly once, oldest first. *)
Theorem pool_iteration_complete op :
  wf op → Forall (λ y, 0 < y) (contents op) →
  wp (x ← shm_object_pool_first; collect (Z.to_nat (capacity (rq op))) x)
    (λ r _, r = contents op) op.
Proof.
  intros Hwf Hpos. wp_simpl. eapply wp_mono; [by apply first_spec|]. intros r op' [-> ->].
  pose proof (count_range op Hwf). case_bool_decide as E.
  - rewrite E. destruct (Z.to_nat (capacity (rq op))) as [|n] eqn:En; [lia|].
    cbn [collect default lookup list_lookup]. change (-1 >? 0) with false. cbn iota. by wp_simpl.
  - set (op' := op <| index := slot op 0 |>).
    pose proof (collect_spec (Z.to_nat (capacity (rq op))) op' 0) as Hcl.
    change (count op') with (count op) in Hcl. change (contents op') with (contents op) in Hcl.
    change (rq op') with (rq op) in Hcl. change (Z.to_nat 0) with 0%nat in Hcl.
    rewrite drop_0 in Hcl. apply Hcl; done || lia || by apply wf_index.
Qed.

Lemma pool_iteration_complete_witness :
  Forall (λ y, 0 < y) (contents pool4) ∧
  wp (x ← shm_object_pool_first; collect (Z.to_nat (capacity (rq pool4))) x)
    (λ r _, r = contents pool4) pool4.
Proof.
  assert (Forall (λ y, 0 < y) (contents pool4)) as H by (repeat constructor).
  split; [exact H|]. exact (pool_iteration_complete pool4 pool4_wf H).
Defined.

(** C37: after iterating to the [k]-th object, [shm_object_pool_remove] takes that
    object out and keeps the order of the others, but the offset it returns is
    the one of the object {e before} it in the queue (for [k] > 0), not of
    the removed one as the header promises. *)
Theorem pool_remove_at_iterator op k :
  wf op → (k < length (contents op))%nat →
  wp (goto k;; shm_object_pool_remove) (λ r op', wf op' ∧
    contents op' = delete k (contents op) ∧ contents op !! Nat.pred k = Some r) op.
Proof.
  intros Hwf Hk. wp_simpl. eapply wp_mono; [by apply goto_spec|].
  intros _ op1 (Hwf1&Hc&Hp&_). rewrite <-Hc in *. rewrite length_contents in Hk by done.
  eapply wp_mono; [apply (remove_spec op1 (Z.of_nat k)); [done|done|lia]|].
  intros r op' (?&_&_&_&_&Hd&Hr). rewrite Nat2Z.id in Hd. split_and!; [done..|].
  rewrite <-Hr. f_equal. bool_lia.
Qed.

Lemma pool_remove_at_iterator_witness :
  wp (goto 1;; shm_object_pool_remove) (λ r op', wf op' ∧
    contents op' = delete 1%nat (contents pool4) ∧ contents pool4 !! 0%nat = Some r) pool4
  ∧ contents pool4 !! 1%nat = Some 1056 ∧
  ∃ op', (goto 1;; shm_object_pool_remove) pool4 = Some (1000, op').
Proof.
  split; [exact (pool_remove_at_iterator pool4 1 pool4_wf ltac:(vm_compute; lia))|].
  split; [reflexivity|]. eexists. vm_compute. reflexivity.
Defined.

(** without an iterator nothing is removed, not the tail as the header says *)
Lemma remove_without_iterator op :
  index op < 0 → wp shm_object_pool_remove (λ r op', r = -1 ∧ op' = op) op.
Proof.
  intros Hi. unfold shm_object_pool_remove. wp_simpl. destruct (_ =? _); wp_simpl; [done|].
  rewrite (proj2 (Z.ltb_lt _ _)) by done. by wp_simpl.
Qed.

(** [shm_object_pool_remove_by] removes the first occurrence of the given
    offset and nothing else; its result is positive exactly when the offset was
    queued. *)
Theorem pool_remove_by_correct op x :
  wf op → Forall (λ y, 0 < y) (contents op) →
  wp (shm_object_pool_remove_by x) (λ r op', wf op' ∧
    contents op' = remove_first x (contents op) ∧
    (0 < r ↔ x ∈ contents op) ∧ (r = -1 ↔ x ∉ contents op)) op.
Proof.
  intros Hwf Hpos. eapply wp_mono; [by apply remove_by_spec|].
  intros r op' (?&_&?&Hr). destruct (decide _); naive_solver lia.
Qed.

Lemma pool_remove_by_correct_witness :
  wp (shm_object_pool_remove_by 1056) (λ r op', wf op' ∧
    contents op' = remove_first 1056 (contents pool4) ∧
    (0 < r ↔ 1056 ∈ contents pool4) ∧ (r = -1 ↔ 1056 ∉ contents pool4)) pool4
  ∧ remove_first 1056 (contents pool4) = [1000].
Proof.
  split; [|reflexivity].
  exact (pool_remove_by_correct pool4 1056 pool4_wf ltac:(repeat constructor)).
Defined.

End Pool.
