(* ===== verification/Striping.v ===== *)
(** * The striping allocator (src/shm_striping_allocator.h, .c)

    A striping is a range of a value segment from which values are carved in
    order; freeing only decreases [size_used], and the range is recycled as a
    whole when nothing of it is in use. *)
From S2P Require Import Prelude Types.
Local Open Scope Z_scope.
Local Open Scope shm_scope.

Module Striping.

Definition shm_striping_allocator_reset (al : shm_striping_allocator) : shm_striping_allocator :=
  al <| last_alloc_time := 0 |> <| fail_times := 0 |> <| size_used := 0 |>
     <| offset_free := offset_base al |>.

Definition shm_striping_allocator_init (al : shm_striping_allocator)
    (ssp_index : shm_segment_striping_pair) (base_offset total_size : Z) : shm_striping_allocator :=
  shm_striping_allocator_reset
    (al <| al_index := ssp_index |> <| offset_base := base_offset |>
        <| size_total := total_size |> <| offset_end := base_offset + total_size |>).

(** [now] is [g_current_time] *)
Definition shm_striping_allocator_alloc (now : Z) (al : shm_striping_allocator) (size : Z) :
    Z * shm_striping_allocator :=
  if offset_end al - offset_free al <? size
  then (-1, al <| fail_times ::= Z.succ |>)
  else (offset_free al,
        al <| last_alloc_time := now |> <| size_used ::= Z.add size |>
           <| offset_free ::= Z.add size |>).

Definition shm_striping_allocator_free (al : shm_striping_allocator) (size : Z) :
    Z * shm_striping_allocator :=
  (size_used al - size, al <| size_used ::= λ u, u - size |>).

Definition shm_striping_allocator_free_size (al : shm_striping_allocator) : Z :=
  offset_end al - offset_free al.
Definition shm_striping_allocator_used_size (al : shm_striping_allocator) : Z := size_used al.

(** ** The blocks in use *)
Record block := Block { b_offset : Z; b_size : Z }.

#[export] Instance block_eq_dec : EqDecision block.
Proof. solve_decision. Defined.

Definition b_disjoint (b c : block) : Prop :=
  b_offset b + b_size b ≤ b_offset c ∨ b_offset c + b_size c ≤ b_offset b.

Definition sum_sizes (bs : list block) : Z := foldr (λ b n, b_size b + n) 0 bs.

(** the allocator owns exactly the blocks [bs] *)
Record owns (al : shm_striping_allocator) (bs : list block) : Prop := {
  owns_range : offset_base al ≤ offset_free al ≤ offset_end al;
  owns_used : size_used al = sum_sizes bs;
  owns_in : ∀ b, b ∈ bs →
    0 < b_size b ∧ offset_base al ≤ b_offset b ∧ b_offset b + b_size b ≤ offset_free al;
  owns_nodup : NoDup bs;
  owns_disjoint : ∀ b c, b ∈ bs → c ∈ bs → b ≠ c → b_disjoint b c;
}.

(** what [shm_value_allocator_free] does with the allocator of a freed value *)
Definition release (al : shm_striping_allocator) (size : Z) : shm_striping_allocator :=
  let '(used, al') := shm_striping_allocator_free al size in
  if used <=? 0 then shm_striping_allocator_reset al' else al'.

(** the life of an allocator and of the blocks handed out *)
Inductive step : shm_striping_allocator * list block → shm_striping_allocator * list block → Prop :=
  | step_alloc al bs now size off al' :
      0 < size →
      shm_striping_allocator_alloc now al size = (off, al') → 0 ≤ off →
      step (al, bs) (al', Block off size :: bs)
  | step_alloc_fail al bs now size off al' :
      0 < size →
      shm_striping_allocator_alloc now al size = (off, al') → off < 0 →
      step (al, bs) (al', bs)
  | step_free al bs1 b bs2 :
      step (al, bs1 ++ b :: bs2) (release al (b_size b), bs1 ++ bs2).

(** ** Lemmas *)
Lemma sum_sizes_app bs cs : sum_sizes (bs ++ cs) = sum_sizes bs + sum_sizes cs.
Proof. induction bs; simpl; lia. Qed.

Lemma sum_sizes_pos bs :
  (∀ b, b ∈ bs → 0 < b_size b) → 0 ≤ sum_sizes bs ∧ (sum_sizes bs = 0 → bs = []).
Proof.
  induction bs as [|b bs IH]; intros H; [done|].
  destruct IH; [intros; apply H; by right|]. pose proof (H b ltac:(left)). simpl. split; lia.
Qed.

Lemma alloc_result now al size off al' :
  0 < size → offset_base al ≤ offset_free al ≤ offset_end al → 0 ≤ offset_base al →
  shm_striping_allocator_alloc now al size = (off, al') →
  (off = -1 ∧ offset_end al - offset_free al < size ∧ al' = al <| fail_times ::= Z.succ |>) ∨
  (off = offset_free al ∧ size ≤ offset_end al - offset_free al ∧ last_alloc_time al' = now ∧
   size_used al' = size_used al + size ∧ offset_free al' = offset_free al + size ∧
   offset_base al' = offset_base al ∧ offset_end al' = offset_end al ∧
   al_index al' = al_index al ∧ in_which_pool al' = in_which_pool al).
Proof.
  unfold shm_striping_allocator_alloc. intros Hs Hr Hb. bool_lia; intros [= <- <-]; [by left|].
  right. cbn. split_and!; lia || done.
Qed.

Lemma owns_alloc now al bs size off al' :
  owns al bs → 0 ≤ offset_base al → 0 < size →
  shm_striping_allocator_alloc now al size = (off, al') →
  if decide (0 ≤ off) then owns al' (Block off size :: bs) else owns al' bs.
Proof.
  intros Hown Hb Hs E.
  destruct (alloc_result now al size off al' Hs (owns_range _ _ Hown) Hb E)
    as [(->&Hl&->)|(->&Hl&_&Hu&Hf&Hba&He&_&_)]; destruct Hown as [Hr Hus Hin Hnd Hdis].
  { rewrite decide_False by lia. by split. }
  rewrite decide_True by lia.
  assert (Hnew : ∀ b, b ∈ bs → b_offset b + b_size b ≤ offset_free al) by (intros b ?%Hin; lia).
  split; rewrite ?Hf, ?Hba, ?He, ?Hu.
  - lia.
  - simpl. lia.
  - intros b [->|Hb']%elem_of_cons; simpl; [lia|]. pose proof (Hin b Hb'). lia.
  - constructor; [|done]. intros H. pose proof (Hin _ H). simpl in *. lia.
  - intros b c [->|Hb']%elem_of_cons [->|Hc']%elem_of_cons Hne; [done|..].
    + right. by apply Hnew.
    + left. by apply Hnew.
    + by apply Hdis.
Qed.

Lemma owns_remove al bs1 b bs2 :
  owns al (bs1 ++ b :: bs2) →
  owns (al <| size_used ::= λ u, u - b_size b |>) (bs1 ++ bs2).
Proof.
  intros [Hr Hus Hin Hnd Hdis].
  assert (Hsub : ∀ c, c ∈ bs1 ++ bs2 → c ∈ bs1 ++ b :: bs2) by set_solver.
  split; cbn; [done| |by auto| |by auto].
  - rewrite Hus, !sum_sizes_app. simpl. lia.
  - eapply sublist_NoDup; [done|]. apply sublist_app; [done|by constructor].
Qed.

Lemma owns_release al bs1 b bs2 :
  owns al (bs1 ++ b :: bs2) → owns (release al (b_size b)) (bs1 ++ bs2).
Proof.
  intros Hown. apply owns_remove in Hown. unfold release, shm_striping_allocator_free.
  destruct (Z.leb_spec (size_used al - b_size b) 0) as [Hz|]; [|done].
  destruct Hown as [Hr Hus Hin Hnd Hdis]. cbn in *.
  destruct (sum_sizes_pos (bs1 ++ bs2)) as [_ Hnil]; [intros b' H; by apply Hin|].
  destruct (sum_sizes_pos (bs1 ++ bs2)) as [Hnn _]; [intros b' H; by apply Hin|].
  rewrite Hnil by lia. split; cbn; [lia|done|set_solver|constructor|set_solver].
Qed.

Lemma step_base s t : step s t → offset_base t.1 = offset_base s.1 ∧ offset_end t.1 = offset_end s.1.
Proof.
  destruct 1 as [al bs now size off al' _ E _|al bs now size off al' _ E _|al bs1 b bs2]; cbn.
  - unfold shm_striping_allocator_alloc in E. case_match; by simplify_eq/=.
  - unfold shm_striping_allocator_alloc in E. case_match; by simplify_eq/=.
  - unfold release, shm_striping_allocator_free. by case_match.
Qed.

Lemma init_owns al i b n : 0 ≤ n → owns (shm_striping_allocator_init al i b n) [].
Proof. intros. split; cbn; [lia|done|set_solver|constructor|set_solver]. Qed.

(** ** Properties *)

(** C35: from initialisation on, whatever the sequence of allocations, refused
    allocations and releases, the blocks in use lie inside the striping, do
    not overlap, and [size_used] is the sum of their sizes. *)
Theorem striping_blocks_disjoint al0 i b n al bs :
  0 ≤ b → 0 ≤ n →
  rtc step (shm_striping_allocator_init al0 i b n, []) (al, bs) →
  offset_base al = b ∧ offset_end al = b + n ∧ owns al bs.
Proof.
  intros Hb Hn Hsteps.
  apply (rtc_ind_r (λ s, offset_base s.1 = b ∧ offset_end s.1 = b + n ∧ owns s.1 s.2)
    (shm_striping_allocator_init al0 i b n, [])) in Hsteps; [done|..].
  { split_and!; [done|done|by apply init_owns]. }
  clear al bs Hsteps. intros s t _ Hst (Hsb&Hse&Hown).
  destruct (step_base s t Hst) as [-> ->]. split_and!; [done|done|].
  destruct Hst as [al bs now size off al' Hs E Ho|al bs now size off al' Hs E Ho|al bs1 c bs2];
    cbn in *; [..|by apply owns_release].
  - apply (owns_alloc now al bs) in E; [|done|lia|done]. by rewrite decide_True in E.
  - apply (owns_alloc now al bs) in E; [|done|lia|done]. by rewrite decide_False in E by lia.
Qed.

Definition al0 : shm_striping_allocator :=
  Striping_allocator 0 0 0 (Ssp 0 0) 0 0 0 0 0.
Lemma striping_blocks_disjoint_witness :
  ∃ al bs, bs = [Block 140 60] ∧
    rtc step (shm_striping_allocator_init al0 (Ssp 1 3) 100 120, []) (al, bs) ∧
    (offset_base al = 100 ∧ offset_end al = 100 + 120 ∧ owns al bs).
Proof.
  eexists _, [Block 140 60]. split; [reflexivity|].
  match goal with |- ?A ∧ _ => assert A as H end.
  { eapply rtc_l; [eapply (step_alloc _ _ 7 40); [lia|vm_compute; reflexivity|lia]|].
    eapply rtc_l; [eapply (step_alloc _ _ 8 60); [lia|vm_compute; reflexivity|lia]|].
    eapply rtc_l; [eapply (step_alloc_fail _ _ 9 30); [lia|vm_compute; reflexivity|lia]|].
    eapply rtc_l; [exact (step_free _ [Block 140 60] (Block 100 40) [])|]. apply rtc_refl. }
  split; [exact H|]. refine (striping_blocks_disjoint al0 (Ssp 1 3) 100 120 _ _ _ _ H); lia.
Defined.

(** an allocation succeeds exactly when the free tail of the striping is
    large enough; it then returns the start of the free tail and advances it
    by [size]; a refusal only counts a failure. *)
Theorem striping_alloc_exact now al size :
  0 ≤ offset_base al ≤ offset_free al → 0 < size →
  let '(off, al') := shm_striping_allocator_alloc now al size in
  (0 ≤ off ↔ size ≤ shm_striping_allocator_free_size al) ∧
  (0 ≤ off → off = offset_free al ∧
     shm_striping_allocator_free_size al' = shm_striping_allocator_free_size al - size ∧
     shm_striping_allocator_used_size al' = shm_striping_allocator_used_size al + size ∧
     last_alloc_time al' = now ∧ fail_times al' = fail_times al) ∧
  (off < 0 → off = -1 ∧ al' = al <| fail_times ::= Z.succ |>).
Proof.
  intros Hb Hs. unfold shm_striping_allocator_alloc, shm_striping_allocator_free_size,
    shm_striping_allocator_used_size. bool_lia; cbn; split_and!; try lia; intros; split_and!; lia || done.
Qed.

Definition al1 : shm_striping_allocator := shm_striping_allocator_init al0 (Ssp 1 3) 100 120.
Lemma striping_alloc_exact_witness :
  0 ≤ offset_base al1 ≤ offset_free al1 ∧
  (let '(off, al') := shm_striping_allocator_alloc 5 al1 120 in
   off = 100 ∧ shm_striping_allocator_free_size al' = 0 ∧ last_alloc_time al' = 5) ∧
  (let '(off, al') := shm_striping_allocator_alloc 5 al1 121 in
   off = -1 ∧ al' = al1 <| fail_times ::= Z.succ |>).
Proof.
  assert (0 ≤ offset_base al1 ≤ offset_free al1) as Hb by (vm_compute; split; discriminate).
  pose proof (striping_alloc_exact 5 al1 120 Hb ltac:(lia)) as H1.
  pose proof (striping_alloc_exact 5 al1 121 Hb ltac:(lia)) as H2. split; [exact Hb|].
  destruct (shm_striping_allocator_alloc 5 al1 120) as [off1 a1].
  destruct (shm_striping_allocator_alloc 5 al1 121) as [off2 a2].
  change (shm_striping_allocator_free_size al1) with 120 in *. change (offset_free al1) with 100 in *.
  destruct H1 as (Ho&Hs&_), H2 as (Ho2&_&Hf). specialize (Hs (proj2 Ho ltac:(lia))).
  split; [lia|]. apply Hf. lia.
Defined.

End Striping.
