(* ===== verification/OpWrapper.v ===== *)
(** * Mapping and removing shared memory (src/shm_op_wrapper.c)

    The system calls are the environment's; [open_fds] is the table of the
    descriptors the process holds.  A function with an [int *err_no]
    parameter returns the pair (address, *err_no). *)
From stdpp Require Import pretty.
From S2P Require Import Prelude Types.
Local Open Scope Z_scope.
Local Open Scope shm_scope.

Section OpWrapper.
Context `{E : Env}.

Definition MAP_FAILED : Z := -1.

(** [errno != 0 ? errno : dflt] *)
Definition errno_or (dflt : Z) : cmd Z :=
  e ← ext os_errno; mret (if negb (e =? 0) then e else dflt).

(** open and close *)
Definition sys_open (path : string) (creat : bool) : cmd Z :=
  fd ← ext (λ n, os_open n path creat);
  when (0 <=? fd) (modify (λ s, s <| open_fds ::= cons fd |>));;
  mret fd.
Definition sys_close (fd : Z) : cmd unit :=
  modify (λ s, s <| open_fds ::= filter (λ x, x ≠ fd) |>).

Definition SHM_GET_MMAP_FILENAME (filename : string) (proj_id : Z) : string :=
  String.substring 0 (MAX_PATH_SIZE - 1) (filename +:+ "." +:+ pretty (proj_id - 1)).

(** ** shm_do_mmap (18-100) *)

(** the branch that finds or creates the file: the descriptor and whether it
    must be extended, or the error *)
Definition mmap_open_file (true_filename : string) (size : Z) (create_segment : bool) :
    cmd (Z + Z * bool) :=
  fd ← sys_open true_filename false;
  if 0 <=? fd then
    st ← ext (λ n, os_fstat n fd);
    if negb (fst st =? 0) then
      e ← errno_or EPERM; mret (inl e)
    else mret (inr (fd, snd st <? size))
  else
    e ← ext os_errno;
    if negb (create_segment && (e =? ENOENT)) then
      mret (inl (if negb (e =? 0) then e else EPERM))
    else
      fd ← sys_open true_filename true;
      if fd <? 0 then e ← errno_or EPERM; mret (inl e)
      else mret (inr (fd, true)).

Definition shm_do_mmap (filename : string) (proj_id size : Z) (create_segment : bool) :
    cmd (Z * Z) :=
  let true_filename := SHM_GET_MMAP_FILENAME filename proj_id in
  r ← mmap_open_file true_filename size create_segment;
  match r with
  | inl e => mret (0, e)
  | inr (fd, need_truncate) =>
    t ← (if need_truncate : bool then ext (λ n, os_ftruncate n fd size) else mret 0);
    if negb (t =? 0) then
      e ← errno_or EPERM;
      sys_close fd;;
      mret (0, e)
    else
      addr ← ext (λ n, os_mmap n size fd);
      when ((addr =? 0) || (addr =? MAP_FAILED)) (errno_or EPERM;; mret tt);;
      sys_close fd;;
      mret (addr, 0)
  end.

(** ** shm_do_shmmap (102-133) *)
Definition shm_do_shmmap (key size : Z) (create_segment : bool) : cmd (Z * Z) :=
  shmid ← (if create_segment then ext (λ n, os_shmget n key size true)
           else ext (λ n, os_shmget n key 0 false));
  if shmid <? 0 then
    e ← errno_or EPERM; mret (0, e)
  else
    addr ← ext (λ n, os_shmat n shmid);
    if (addr =? 0) || (addr =? -1) then
      e ← errno_or EPERM; mret (0, e)
    else mret (addr, 0).

(** ** shm_get_key (135-173): the result and [*key] (unchanged on an early
    error) *)
Definition shm_get_key (filename : string) (proj_id key0 : Z) : cmd (Z * Z) :=
  a ← ext (λ n, os_access n filename);
  r ← (if negb (a =? 0) then
         result ← errno_or ENOENT;
         if negb (result =? ENOENT) then mret result
         else
           result ← ext (λ n, writeToFile n filename);
           if negb (result =? 0) then mret result
           else
             c ← ext (λ n, os_chmod n filename);
             if negb (c =? 0) then errno_or EFAULT else mret 0
       else mret 0);
  if negb (r =? 0) then mret (r, key0)
  else
    key ← ext (λ n, fc_ftok n filename proj_id);
    if key =? -1 then e ← errno_or EFAULT; mret (e, key)
    else mret (0, key).

(** ** shm_mmap (175-187): address, [*key] and [*err_no] *)
Definition shm_mmap (type : Z) (filename : string) (proj_id size key0 : Z) (create_segment : bool) :
    cmd (Z * Z * Z) :=
  '(err_no, key) ← shm_get_key filename proj_id key0;
  if negb (err_no =? 0) then mret (0, key, err_no)
  else if type =? SHMCACHE_TYPE_MMAP then
    '(addr, e) ← shm_do_mmap filename proj_id size create_segment;
    mret (addr, key, e)
  else
    '(addr, e) ← shm_do_shmmap key size create_segment;
    mret (addr, key, e).

(** ** shm_exists (189-203) *)
Definition shm_exists (type : Z) (filename : string) (proj_id : Z) : cmd bool :=
  '(result, key) ← shm_get_key filename proj_id 0;
  if negb (result =? 0) then mret false
  else if type =? SHMCACHE_TYPE_MMAP then
    a ← ext (λ n, os_access n (SHM_GET_MMAP_FILENAME filename proj_id));
    mret (a =? 0)
  else
    id ← ext (λ n, os_shmget n key 0 false);
    mret (0 <=? id).

(** ** shm_munmap (205-230) *)
Definition shm_munmap (type addr size : Z) : cmd Z :=
  r ← (if type =? SHMCACHE_TYPE_MMAP then ext (λ n, os_munmap n addr size)
       else ext (λ n, os_shmdt n addr));
  if r =? 0 then mret 0 else errno_or EACCES.

(** ** shm_remove (232-272) *)
Definition shm_remove (type : Z) (filename : string) (proj_id size key : Z) : cmd Z :=
  if type =? SHMCACHE_TYPE_MMAP then
    u ← ext (λ n, os_unlink n (SHM_GET_MMAP_FILENAME filename proj_id));
    if negb (u =? 0) then errno_or EPERM else mret 0
  else
    shmid ← ext (λ n, os_shmget n key 0 false);
    if shmid <? 0 then errno_or EACCES
    else
      c ← ext (λ n, os_shmctl_rmid n shmid);
      if negb (c =? 0) then errno_or EACCES else mret 0.

(** ** Properties of a mapping

    The code outside the calls to the kernel: it only counts external calls
    and opens descriptors. *)
Definition quiet (s s' : shmcache_context) : Prop :=
  ∃ n fds, s' = s <| ticks := n |> <| open_fds := fds |> ∧ (ticks s ≤ n)%nat.

Lemma quiet_refl s : quiet s s.
Proof. exists (ticks s), (open_fds s). split; [by destruct s|lia]. Qed.
Lemma quiet_trans s1 s2 s3 : quiet s1 s2 → quiet s2 s3 → quiet s1 s3.
Proof. intros (n1&f1&->&?) (n2&f2&->&?). exists n2, f2. cbn in *. split; [done|lia]. Qed.

Lemma wp_ext_quiet {A} s (f : nat → A) (Q : A → _ → Prop) :
  (∀ s', quiet s s' → Q (f (ticks s)) s') → wp (ext f) Q s.
Proof.
  intros HQ. apply wp_run with (f (ticks s)) (s <| ticks ::= S |>); [done|]. apply HQ.
  exists (S (ticks s)), (open_fds s). split; [by destruct s|lia].
Qed.
(** error numbers are not negative *)
Definition errno_ok : Prop := (∀ n, 0 ≤ os_errno n) ∧ ∀ n f, 0 ≤ writeToFile n f.
Lemma wp_errno_or s d (Q : Z → _ → Prop) :
  (∀ e s', quiet s s' → (d ≠ 0 → e ≠ 0) → (0 ≤ d → errno_ok → 0 ≤ e) → Q e s') →
  wp (errno_or d) Q s.
Proof.
  intros HQ. unfold errno_or. wp_simpl. apply wp_ext_quiet. intros s' Hs'. wp_simpl.
  apply HQ; [done|..].
  - by destruct (Z.eqb_spec (os_errno (ticks s)) 0).
  - intros Hd [He _]. destruct (_ =? 0); [done|apply He].
Qed.
Lemma wp_sys_open s path c (Q : Z → _ → Prop) :
  (∀ s', quiet s s' → Q (os_open (ticks s) path c) s') → wp (sys_open path c) Q s.
Proof.
  intros HQ. unfold sys_open. wp_simpl. apply wp_ext_quiet. intros s1 H1. wp_simpl.
  destruct (_ <=? _); wp_simpl; apply HQ; [|done].
  eapply quiet_trans; [exact H1|]. exists (ticks s1), (os_open (ticks s) path c :: open_fds s1).
  split; [by destruct s1|lia].
Qed.
Lemma wp_sys_close s fd (Q : unit → _ → Prop) :
  (∀ s', quiet s s' → Q tt s') → wp (sys_close fd) Q s.
Proof.
  intros HQ. unfold sys_close. wp_simpl. apply HQ.
  exists (ticks s), (filter (λ x, x ≠ fd) (open_fds s)). split; [by destruct s|lia].
Qed.

Local Ltac trans_quiet :=
  repeat match goal with
  | H : quiet ?a ?b |- quiet ?a ?b => exact H
  | |- quiet ?a ?a => apply quiet_refl
  | H : quiet ?b ?c |- quiet ?a ?c => eapply quiet_trans; [|exact H]; clear H
  end.
(** run the calls to the kernel one by one, every outcome a case *)
Local Ltac quiet_step :=
  first
  [ progress wp_simpl
  | apply wp_ext_quiet; intros ? ?
  | apply wp_errno_or; intros ? ? ? ? ?
  | apply wp_sys_open; intros ? ?
  | apply wp_sys_close; intros ? ?
  | match goal with
    | |- wp (if negb (?a =? ?b) then _ else _) _ _ => destruct (Z.eqb_spec a b)
    | |- wp (if ?a =? ?b then _ else _) _ _ => destruct (Z.eqb_spec a b)
    | |- wp (if ?a <? ?b then _ else _) _ _ => destruct (Z.ltb_spec a b)
    | |- wp (if ?a <=? ?b then _ else _) _ _ => destruct (Z.leb_spec a b)
    | |- wp (if ?b then _ else _) _ _ => destruct b eqn:?
    | |- if ?b then wp _ _ _ else _ => destruct b eqn:?
    end; cbn beta iota delta [negb andb orb] ].

(** the result of a function that returns an error number *)
Local Ltac errno_nonneg :=
  let H := fresh in intros H;
  repeat match goal with
  | He : 0 ≤ _ → errno_ok → _ |- _ => specialize (He ltac:(done) H)
  end; first [done | apply H | lia].

Lemma get_key_spec filename proj_id key0 s :
  wp (shm_get_key filename proj_id key0) (λ r s', quiet s s' ∧ (errno_ok → 0 ≤ r.1)) s.
Proof.
  unfold shm_get_key, EFAULT, ENOENT. repeat quiet_step; cbn; (split; [trans_quiet|errno_nonneg]).
Qed.

Lemma exists_spec type filename proj_id s :
  wp (shm_exists type filename proj_id) (λ _ s', quiet s s') s.
Proof.
  unfold shm_exists. wp_simpl. eapply wp_mono; [apply get_key_spec|]. intros [r key] s1 [H1 _].
  repeat quiet_step; trans_quiet.
Qed.

(** the kernel's mmap does not fail *)
Definition mmap_succeeds : Prop := ∀ n size fd, os_mmap n size fd ≠ 0 ∧ os_mmap n size fd ≠ MAP_FAILED.

Lemma mmap_open_file_spec name size c s :
  wp (mmap_open_file name size c) (λ r s', quiet s s' ∧
    if r is inl e then e ≠ 0 ∧ (errno_ok → 0 ≤ e) else True) s.
Proof.
  unfold mmap_open_file, EPERM. repeat quiet_step; cbn; split; try (by trans_quiet); auto.
  all: try (split; [auto|errno_nonneg]).
  split; [by destruct (Z.eqb_spec (os_errno (ticks s')) 0)|]. intros [He _].
  destruct (_ =? 0); [done|apply He].
Qed.
Lemma do_mmap_spec filename proj_id size c s :
  wp (shm_do_mmap filename proj_id size c) (λ r s', quiet s s' ∧
    (r.1 = 0 → r.2 = 0 → ¬ mmap_succeeds) ∧ (mmap_succeeds → r.1 ≠ MAP_FAILED) ∧
    (errno_ok → 0 ≤ r.2)) s.
Proof.
  unfold shm_do_mmap. wp_simpl. eapply wp_mono; [apply mmap_open_file_spec|].
  intros [e|[fd t]] s1 [H1 He]; [wp_simpl; by destruct He|]. unfold EPERM.
  repeat quiet_step; cbn; (split_and!; [by trans_quiet| | |errno_nonneg]); try done.
  all: try (intros Hz _ Hm; exact (proj1 (Hm _ _ _) Hz)). all: try (intros Hm; apply Hm).
  all: try (intros _ Hz _; naive_solver).
Qed.
Lemma do_shmmap_spec key size c s :
  wp (shm_do_shmmap key size c) (λ r s', quiet s s' ∧
    (r.1 = 0 → r.2 ≠ 0) ∧ r.1 ≠ -1 ∧ (errno_ok → 0 ≤ r.2)) s.
Proof.
  unfold shm_do_shmmap, EPERM. repeat quiet_step; cbn; (split_and!; [by trans_quiet| | |errno_nonneg]); auto.
  all: intros Hz; rewrite Hz in *; done.
Qed.

(** a mapping fails with an error, or gives an address; for files this needs
    an mmap that does not fail *)
Definition mapping_ok (type : Z) : Prop := type = SHMCACHE_TYPE_MMAP → mmap_succeeds.
Lemma shm_mmap_spec type filename proj_id size key0 c s :
  mapping_ok type →
  wp (shm_mmap type filename proj_id size key0 c) (λ r s', quiet s s' ∧
    (r.1.1 = 0 → r.2 ≠ 0) ∧ r.1.1 ≠ -1 ∧ (errno_ok → 0 ≤ r.2)) s.
Proof.
  intros Hok. unfold shm_mmap. wp_simpl. eapply wp_mono; [apply get_key_spec|].
  intros [err key] s1 [H1 He]. wp_simpl. destruct (Z.eqb_spec err 0); cbn beta iota delta [negb].
  2: { wp_simpl. done. }
  destruct (Z.eqb_spec type SHMCACHE_TYPE_MMAP) as [Ht|Ht]; wp_simpl.
  - eapply wp_mono; [apply do_mmap_spec|]. intros [addr e'] s2 (H2&Hz&Hm&Hn). wp_simpl. cbn in *.
    split_and!; [by eapply quiet_trans| |by apply Hm, Hok|done].
    intros Ha He'. by apply Hz, Hok.
  - eapply wp_mono; [apply do_shmmap_spec|]. intros [addr e'] s2 (H2&Hz&Hm&Hn). wp_simpl. cbn in *.
    split_and!; [by eapply quiet_trans|done..].
Qed.

(** ** Properties *)

(** a failed [mmap] is not reported: when the file is there and large
    enough and the kernel answers MAP_FAILED, [shm_do_mmap] returns that
    address with [*err_no] = 0, which its callers take for a mapping. *)
Theorem mmap_failure_unreported filename proj_id size c s :
  (∀ n path c, 0 ≤ os_open n path c) → (∀ n fd, (os_fstat n fd).1 = 0 ∧ size ≤ (os_fstat n fd).2) →
  (∀ n sz fd, os_mmap n sz fd = MAP_FAILED) →
  wp (shm_do_mmap filename proj_id size c) (λ r s', r = (MAP_FAILED, 0)) s.
Proof.
  intros Ho Hf Hm. unfold shm_do_mmap, mmap_open_file. wp_simpl. apply wp_sys_open. intros s1 _.
  rewrite (proj2 (Z.leb_le _ _)) by apply Ho. wp_simpl. apply wp_ext_quiet. intros s2 _.
  destruct (Hf (ticks s1) (os_open (ticks s) (SHM_GET_MMAP_FILENAME filename proj_id) false)) as [H0 Hsz].
  rewrite H0, (proj2 (Z.ltb_ge _ _)) by done. const_bool. wp_simpl. const_bool. wp_simpl.
  apply wp_ext_quiet. intros s3 _. rewrite Hm. const_bool. unfold EPERM. repeat quiet_step; done.
Qed.

(** the descriptor of the file is leaked when [fstat] fails: it was opened
    and stays in the table of open descriptors. *)
Theorem mmap_leaks_descriptor filename proj_id size c s :
  (∀ n path c, 0 ≤ os_open n path c) → (∀ n fd, (os_fstat n fd).1 ≠ 0) →
  wp (shm_do_mmap filename proj_id size c) (λ r s', r.1 = 0 ∧ r.2 ≠ 0 ∧
    open_fds s' = os_open (ticks s) (SHM_GET_MMAP_FILENAME filename proj_id) false :: open_fds s) s.
Proof.
  intros Ho Hf. unfold shm_do_mmap, mmap_open_file, sys_open, errno_or. wp_simpl.
  apply wp_ext. rewrite (proj2 (Z.leb_le _ _)) by apply Ho. wp_simpl.
  set (fd := os_open _ _ _). set (s1 := s <| ticks ::= S |> <| open_fds ::= cons fd |>).
  rewrite (proj2 (Z.leb_le 0 fd)) by apply Ho. wp_simpl.
  apply wp_ext. rewrite (proj2 (Z.eqb_neq _ _)) by apply Hf. cbn [negb]. wp_simpl.
  apply wp_ext. wp_simpl. split_and!; [done| |done]. unfold EPERM. cbn. by destruct (Z.eqb_spec (os_errno (S (S (ticks s)))) 0).
Qed.
End OpWrapper.
