(* ===== verification/Shmopt.v ===== *)
(** * Value segments (src/shmopt.h, shmopt.c)

    Value segments are mapped on demand: [shmopt_create_value_segment] makes a
    new one and its striping allocators, [shmopt_open_value_segments] maps the
    ones another process made. *)
From S2P Require Import Prelude Types ObjectPool Striping OpWrapper.
Local Open Scope Z_scope.
Local Open Scope shm_scope.

Section Shmopt.
Context `{E : Env}.

(** ** shmopt_init_segment (shmopt.c, 11-26), on the segment it fills *)
Definition shmopt_init_segment (segment : shmcache_segment_info) (proj size : Z) :
    cmd (Z * shmcache_segment_info) :=
  s ← get;
  let segment := segment <| proj_id := proj |> in
  '(addr, key, result) ← shm_mmap (cfg_type (config s)) (filename (config s)) proj size
      (seg_key segment) (create_segment s);
  let segment := segment <| base := addr |> <| seg_key := key |> in
  if addr =? 0 then mret (result, segment)
  else mret (0, segment <| seg_size := size |>).

(** [segments.values.items[i]] *)
Definition load_segment (i : Z) : cmd shmcache_segment_info :=
  s ← get; of_option (znth (values_items s) i).
Definition store_segment (i : Z) (seg : shmcache_segment_info) : cmd unit :=
  s ← get; l ← of_option (zupd (values_items s) i seg);
  modify (λ s, s <| values_items := l |>).

Definition shmopt_init_value_segment (segment_index : Z) : cmd Z :=
  s ← get;
  segment ← load_segment segment_index;
  '(result, segment) ← shmopt_init_segment segment (segment_index + 2)
      (vsize (vm_segment (memory s)));
  store_segment segment_index segment;;
  mret result.

(** ** shmopt_create_value_segment (41-113) *)

(** the loop that creates the [n] allocators of a new segment *)
Fixpoint create_stripings (n : nat) (segment_index striping_offset : Z) : cmd unit :=
  match n with
  | O => mret tt
  | S n =>
    s ← get;
    let size := vsize (vm_striping (memory s)) in
    let striping_index := count_current (vm_striping (memory s)) in
    modify (λ s, s <| memory; vm_striping; count_current ::= Z.succ |>);;
    al ← load_allocator striping_index;
    let index_pair := Ssp (to_short segment_index) (to_short striping_index) in
    store_allocator striping_index
      ((Striping.shm_striping_allocator_init al index_pair striping_offset (to_int size))
         <| in_which_pool := SHMCACHE_STRIPING_ALLOCATOR_POOL_DOING |>);;
    on_doing (Pool.shm_object_pool_push (allocator_offset_of s striping_index));;
    create_stripings n segment_index (striping_offset + size)
  end.

Definition shmopt_create_value_segment : cmd Z :=
  s ← get;
  let segment := vm_segment (memory s) in
  if count_max segment <=? count_current segment then mret ENOSPC
  else if negb (values_count s =? count_current segment) then mret EINVAL
  else
    let segment_index := count_current segment in
    result ← shmopt_init_value_segment segment_index;
    if negb (result =? 0) then mret result
    else
      modify (λ s, s <| memory; vm_segment; count_current ::= Z.succ |>);;
      let striping_size := vsize (vm_striping (memory s)) in
      (if striping_size =? 0 then fault else mret tt);;
      create_stripings (Z.to_nat (to_int (Z.quot (vsize segment) striping_size))) segment_index 0;;
      modify (λ s, s <| values_count := segment_index + 1 |>
                     <| memory; usage; alloced ::= Z.add (vsize segment) |>);;
      mret 0.

(** ** shmopt_open_value_segments (115-131); [n] is the number of segments
    still to open *)
Fixpoint open_value_segments_loop (n : nat) (segment_index : Z) : cmd Z :=
  match n with
  | O => mret 0
  | S n =>
    result ← shmopt_init_value_segment segment_index;
    if negb (result =? 0) then mret result
    else
      modify (λ s, s <| values_count ::= Z.succ |>);;
      open_value_segments_loop n (segment_index + 1)
  end.
Definition shmopt_open_value_segments : cmd Z :=
  s ← get;
  open_value_segments_loop
    (Z.to_nat (count_current (vm_segment (memory s)) - values_count s)) (values_count s).

(** ** shmopt_get_value_segment (shmopt.h, 55-71): the base address *)
Definition shmopt_get_value_segment (index : Z) : cmd Z :=
  s ← get;
  if index <? values_count s then
    seg ← load_segment index; mret (base seg)
  else if index <? count_current (vm_segment (memory s)) then
    r ← shmopt_open_value_segments;
    if negb (r =? 0) then mret 0
    else seg ← load_segment index; mret (base seg)
  else mret 0.

(** ** shmopt_remove_all (133-161) *)
Fixpoint remove_segments (n : nat) (segment_index result : Z) : cmd Z :=
  match n with
  | O => mret result
  | S n =>
    result ← shmopt_init_value_segment segment_index;
    if negb (result =? 0) then mret result
    else
      s ← get;
      segment ← load_segment segment_index;
      r ← shm_remove (cfg_type (config s)) (filename (config s)) (proj_id segment)
            (seg_size segment) (seg_key segment);
      remove_segments n (segment_index + 1) (if negb (r =? 0) then r else result)
  end.
Definition shmopt_remove_all : cmd Z :=
  s ← get;
  result ← shm_remove (cfg_type (config s)) (filename (config s)) (proj_id (ht_segment s))
             (seg_size (ht_segment s)) (seg_key (ht_segment s));
  remove_segments (Z.to_nat (count_current (vm_segment (memory s)))) 0 result.

(** ** Mapped segments: the first [values_count] items are mapped and have the
    size of the shared header *)
Definition segments_mapped (count : Z) (items : list shmcache_segment_info) (size : Z) : Prop :=
  ∀ i, 0 ≤ i < count → ∃ seg, znth items i = Some seg ∧
    base seg ≠ 0 ∧ base seg ≠ -1 ∧ seg_size seg = size.
Definition segs_ok (s : shmcache_context) : Prop :=
  segments_mapped (values_count s) (values_items s) (vsize (vm_segment (memory s))).

(** [n] bytes at [p] are inside the mapped segments *)
Definition place_ok (s : shmcache_context) (p : hptr) (n : Z) : Prop :=
  0 ≤ p.1 < values_count s ∧ 0 ≤ p.2 ∧ 0 ≤ n ∧ p.2 + n ≤ vsize (vm_segment (memory s)).

Lemma in_segment_true s p n : segs_ok s → place_ok s p n → in_segment s p n = true.
Proof.
  intros Hs (H1&H2&H3&H4). unfold in_segment. destruct (Hs p.1 H1) as (seg&->&?&?&Hsz).
  rewrite Hsz. bool_lia.
Qed.

Lemma wp_get_value_segment s i (Q : Z → _ → Prop) :
  segs_ok s → 0 ≤ i < values_count s → (∀ b, b ≠ 0 → Q b s) →
  wp (shmopt_get_value_segment i) Q s.
Proof.
  intros Hs Hi HQ. unfold shmopt_get_value_segment, load_segment. wp_simpl.
  destruct (Z.ltb_spec i (values_count s)); [|lia]. wp_simpl. apply wp_of_option.
  destruct (Hs i Hi) as (seg&Hseg&?&?&_). exists seg. split; [done|]. wp_simpl. auto.
Qed.

Lemma wp_load_hentry s p (Q : shm_hash_entry → _ → Prop) :
  segs_ok s → place_ok s p sizeof_shm_hash_entry → Q (hentry_at s p) s → wp (load_hentry p) Q s.
Proof.
  intros. apply wp_run with (hentry_at s p) s; [|done]. unfold load_hentry.
  by rewrite in_segment_true.
Qed.
Lemma wp_store_hentry s p f (Q : unit → _ → Prop) :
  segs_ok s → place_ok s p sizeof_shm_hash_entry →
  Q tt (s <| hentries := <[p := f (hentry_at s p)]> (hentries s) |>) → wp (store_hentry p f) Q s.
Proof.
  intros Hs Hp HQ. eexists _, _. split; [|exact HQ]. unfold store_hentry.
  by rewrite in_segment_true.
Qed.
Lemma wp_memcpy_from s p n (Q : list ascii → _ → Prop) :
  segs_ok s → place_ok s p n → Q (read_bytes (payload s) p (Z.to_nat n)) s →
  wp (memcpy_from p n) Q s.
Proof.
  intros Hs Hp HQ. eexists _, _. split; [|exact HQ]. unfold memcpy_from. by rewrite in_segment_true.
Qed.
Lemma wp_memcpy_to s p data n (Q : unit → _ → Prop) :
  segs_ok s → place_ok s p n → n = Z.of_nat (length data) →
  Q tt (s <| payload := write_bytes (payload s) p data |>) → wp (memcpy_to p data n) Q s.
Proof.
  intros Hs Hp -> HQ. eexists _, _. split; [|exact HQ]. unfold memcpy_to.
  rewrite in_segment_true, (proj2 (Z.leb_le _ _)) by (done || lia). cbn [andb].
  by rewrite Nat2Z.id, firstn_all.
Qed.
Lemma wp_load_allocator s i a (Q : shm_striping_allocator → _ → Prop) :
  znth (allocators s) i = Some a → Q a s → wp (load_allocator i) Q s.
Proof. intros Ha HQ. eexists _, _. split; [|exact HQ]. unfold load_allocator. by rewrite Ha. Qed.
Lemma wp_store_allocator s i a (Q : unit → _ → Prop) :
  0 ≤ i < Z.of_nat (length (allocators s)) →
  Q tt (s <| allocators := <[Z.to_nat i := a]> (allocators s) |>) → wp (store_allocator i a) Q s.
Proof.
  intros Hi HQ. eexists _, _. split; [|exact HQ]. unfold store_allocator. by rewrite zupd_Some.
Qed.
Lemma wp_on_doing {A} s (m : M _ A) (Q : A → _ → Prop) :
  wp m (λ a op, Q a (s <| doing := op |>)) (doing s) → wp (on_doing m) Q s.
Proof. intros. unfold on_doing. by apply wp_zoom. Qed.
Lemma wp_on_done {A} s (m : M _ A) (Q : A → _ → Prop) :
  wp m (λ a op, Q a (s <| done_pool := op |>)) (done_pool s) → wp (on_done m) Q s.
Proof. intros. unfold on_done. by apply wp_zoom. Qed.


(** ** Properties *)

(** [shmopt_remove_all] loses an error: with at least one value segment the
    result does not depend on whether the hashtable segment could be removed. *)
Theorem remove_all_ignores_ht_error s r s1 :
  shm_remove (cfg_type (config s)) (filename (config s)) (proj_id (ht_segment s))
    (seg_size (ht_segment s)) (seg_key (ht_segment s)) s = Some (r, s1) →
  0 < count_current (vm_segment (memory s)) →
  shmopt_remove_all s = remove_segments (Z.to_nat (count_current (vm_segment (memory s)))) 0 0 s1.
Proof.
  intros Hrm Hc. unfold shmopt_remove_all, mbind, M_bind, get. rewrite Hrm.
  by destruct (Z.to_nat (count_current (vm_segment (memory s)))) eqn:Hn; [lia|].
Qed.

End Shmopt.
