(* ===== verification/HentryOffset.v ===== *)
(** * Packed entry offsets and pointers (src/shm_value_allocator.h)

    [union shm_hentry_offset] packs a 16-bit segment index (the low half-word
    on a little-endian machine) and a 48-bit offset into an [int64_t]; the
    index carries the mark 0x4000, the list head has the index -1. *)
From S2P Require Import Prelude Types Shmopt.
Local Open Scope Z_scope.
Local Open Scope shm_scope.

(** ** The union (shmcache_types.h, 101-107) *)
Definition hentry_pack (index offset : Z) : Z :=
  to_int64 (Z.lor (Z.land index (Z.ones 16)) (Z.shiftl (Z.land offset (Z.ones 48)) 16)).
Definition hentry_index (conv : Z) : Z := wrap_signed 16 (Z.land conv (Z.ones 16)).
Definition hentry_offset (conv : Z) : Z :=
  wrap_signed 48 (Z.land (Z.shiftr conv 16) (Z.ones 48)).

(** segment and offset an entry offset refers to *)
Definition hentry_addr (offset : Z) : hptr :=
  (Z.land (hentry_index offset) 0xFF, hentry_offset offset).
#[global] Arguments hentry_addr : simpl never.

Section HentryOffset.
Context `{E : Env}.

(** ** shm_get_hentry_ptr (66-79) *)
Definition shm_get_hentry_ptr (offset : Z) : cmd (option hptr) :=
  let '(segment, off) := hentry_addr offset in
  b ← shmopt_get_value_segment segment;
  mret (if negb (b =? 0) then Some (segment, off) else None).

(** ** shm_get_hentry_offset (81-88) *)
Definition shm_get_hentry_offset (entry : shm_hash_entry) : Z :=
  hentry_pack (Z.lor (ssp_segment (mem_index (he_memory entry))) 0x4000)
    (mem_offset (he_memory entry)).

(** ** shm_get_value_ptr (53-64) *)
Definition shm_get_value_ptr (entry : shm_hash_entry) : cmd (option hptr) :=
  let segment := ssp_segment (mem_index (he_memory entry)) in
  b ← shmopt_get_value_segment segment;
  mret (if negb (b =? 0)
        then Some (segment, mem_offset (he_memory entry) + sizeof_shm_hash_entry
                            + MEM_ALIGN (key_len entry))
        else None).

(** dereference a pointer that may be NULL *)
Definition non_null (p : option hptr) : cmd hptr := of_option p.

(** the key bytes behind the entry at [p]: [entry->key] *)
Definition key_ptr (p : hptr) : hptr := (p.1, p.2 + sizeof_shm_hash_entry).

End HentryOffset.

(** ** Packing is invertible *)
Lemma wrap_signed_mod w z : 0 < w → wrap_signed w (z mod 2 ^ w) = wrap_signed w z.
Proof.
  intros Hw. unfold wrap_signed. f_equal.
  assert (2 ^ w ≠ 0) by (apply Z.pow_nonzero; lia). by rewrite Zplus_mod_idemp_l.
Qed.
Lemma wrap_signed_congr w z : 0 < w → ∃ k, wrap_signed w z = z + k * 2 ^ w.
Proof.
  intros Hw. assert (2 ^ w ≠ 0) by (apply Z.pow_nonzero; lia).
  unfold wrap_signed. exists (- ((z + 2 ^ (w - 1)) / 2 ^ w)). rewrite Z.mod_eq by lia. lia.
Qed.
Lemma mod_wrap_signed w v z : 0 ≤ v ≤ w → 0 < w → wrap_signed w z mod 2 ^ v = z mod 2 ^ v.
Proof.
  intros Hv Hw. destruct (wrap_signed_congr w z Hw) as [k ->].
  replace (2 ^ w) with (2 ^ (w - v) * 2 ^ v) by (rewrite <-Z.pow_add_r by lia; f_equal; lia).
  rewrite Z.mul_assoc. apply Z_mod_plus_full.
Qed.

(** the packed word before its conversion to [int64_t] *)
Lemma hentry_pack_sum index offset :
  hentry_pack index offset = to_int64 (index mod 2 ^ 16 + (offset mod 2 ^ 48) * 2 ^ 16).
Proof.
  unfold hentry_pack. f_equal. rewrite !Z.land_ones by lia. rewrite Z.shiftl_mul_pow2 by lia.
  assert (0 ≤ index mod 2 ^ 16 < 2 ^ 16) by (apply Z.mod_pos_bound; lia).
  rewrite <-Z.add_lor_land.
  assert (Z.land (index mod 2 ^ 16) (offset mod 2 ^ 48 * 2 ^ 16) = 0) as ->; [|lia].
  rewrite <-Z.shiftl_mul_pow2 by lia. apply Z.bits_inj'. intros n Hn.
  rewrite Z.land_spec, Z.bits_0. destruct (decide (n < 16)).
  - rewrite Z.shiftl_spec_low by lia. apply andb_false_r.
  - rewrite Z.mod_pow2_bits_high by lia. done.
Qed.

Lemma hentry_index_pack index offset :
  - 2 ^ 15 ≤ index < 2 ^ 15 → hentry_index (hentry_pack index offset) = index.
Proof.
  intros Hi. unfold hentry_index. rewrite hentry_pack_sum, Z.land_ones by lia.
  unfold to_int64. rewrite mod_wrap_signed, Z_mod_plus_full, Z.mod_mod by lia.
  rewrite wrap_signed_mod by lia. apply wrap_signed_small; lia.
Qed.

Lemma hentry_offset_pack index offset :
  - 2 ^ 47 ≤ offset < 2 ^ 47 → hentry_offset (hentry_pack index offset) = offset.
Proof.
  intros Ho. unfold hentry_offset. rewrite hentry_pack_sum, Z.land_ones, Z.shiftr_div_pow2 by lia.
  assert (0 ≤ index mod 2 ^ 16 < 2 ^ 16) by (apply Z.mod_pos_bound; lia).
  set (u := index mod 2 ^ 16 + (offset mod 2 ^ 48) * 2 ^ 16).
  destruct (wrap_signed_congr 64 u ltac:(lia)) as [k Hk]. unfold to_int64. rewrite Hk.
  replace (u + k * 2 ^ 64) with (u + (k * 2 ^ 48) * 2 ^ 16) by lia.
  rewrite Z.div_add by lia. rewrite Z_mod_plus_full. subst u.
  rewrite Z.div_add by lia. rewrite Z.div_small, Z.add_0_l, Z.mod_mod by lia.
  rewrite wrap_signed_mod by lia. apply wrap_signed_small; lia.
Qed.

Lemma lor_mark segment : 0 ≤ segment < 256 →
  Z.lor segment 0x4000 = segment + 0x4000 ∧ Z.land (segment + 0x4000) 0xFF = segment.
Proof.
  intros Hs.
  assert (Forall (λ n, Z.lor n 0x4000 = n + 0x4000 ∧ Z.land (n + 0x4000) 0xFF = n) (seqZ 0 256))
    as H by (vm_compute; repeat constructor).
  rewrite Forall_forall in H. apply H, elem_of_seqZ. lia.
Qed.

(** the entry offset of a place, as [shm_get_hentry_offset] makes it *)
Definition offset_of_addr (p : hptr) : Z := hentry_pack (Z.lor p.1 0x4000) p.2.

Lemma hentry_addr_of_addr p :
  0 ≤ p.1 < 256 → 0 ≤ p.2 < 2 ^ 47 → hentry_addr (offset_of_addr p) = p.
Proof.
  intros H1 H2. destruct p as [seg off]; cbn in *. destruct (lor_mark seg H1) as [Hl Hm].
  unfold hentry_addr, offset_of_addr. cbn. rewrite Hl, hentry_index_pack, hentry_offset_pack by lia.
  by rewrite Hm.
Qed.

Lemma hentry_pack_small index offset :
  0 ≤ index < 2 ^ 15 → 0 ≤ offset < 2 ^ 47 →
  hentry_pack index offset = index + offset * 2 ^ 16.
Proof.
  intros Hi Ho. rewrite hentry_pack_sum, !Z.mod_small by lia. apply wrap_signed_small; lia.
Qed.

Lemma offset_of_addr_pos p : 0 ≤ p.1 < 256 → 0 ≤ p.2 < 2 ^ 47 → 0 < offset_of_addr p.
Proof.
  intros H1 H2. unfold offset_of_addr. destruct (lor_mark _ H1) as [-> _].
  rewrite hentry_pack_small; lia.
Qed.

(** the list head is not the offset of any entry *)
Lemma offset_of_addr_not_head p o :
  0 ≤ p.1 < 256 → offset_of_addr p ≠ hentry_pack (-1) o.
Proof.
  intros H1 Heq. apply (f_equal hentry_index) in Heq. unfold offset_of_addr in Heq.
  destruct (lor_mark _ H1) as [Hl _]. rewrite Hl, !hentry_index_pack in Heq by lia. lia.
Qed.

(** ** Entry offsets in use: the offset of a place with room for a header *)
Definition off_ok (s : shmcache_context) (o : Z) : Prop :=
  o = offset_of_addr (hentry_addr o) ∧ place_ok s (hentry_addr o) sizeof_shm_hash_entry ∧
  (hentry_addr o).1 < 256 ∧ (hentry_addr o).2 < 2 ^ 47.

Lemma off_ok_pos s o : off_ok s o → 0 < o.
Proof.
  intros (Ho&(?&?&_)&?&?). rewrite Ho. apply offset_of_addr_pos; lia.
Qed.
Lemma off_ok_inj s o1 o2 : off_ok s o1 → off_ok s o2 → hentry_addr o1 = hentry_addr o2 → o1 = o2.
Proof. intros (Ho1&_) (Ho2&_) Heq. by rewrite Ho1, Ho2, Heq. Qed.
Lemma off_ok_not_head s o h : off_ok s o → o ≠ hentry_pack (-1) h.
Proof. intros (Ho&(?&_)&?&_). rewrite Ho. apply offset_of_addr_not_head. lia. Qed.

Section pointers.
Context `{E : Env}.
Lemma wp_get_hentry_ptr s o (Q : option hptr → _ → Prop) :
  segs_ok s → off_ok s o → Q (Some (hentry_addr o)) s → wp (shm_get_hentry_ptr o) Q s.
Proof.
  intros Hs (_&(Hp&_)&_) HQ. unfold shm_get_hentry_ptr. destruct (hentry_addr o) as [seg off].
  wp_simpl. apply wp_get_value_segment; [done|done|]. intros b Hb. wp_simpl.
  by rewrite (proj2 (Z.eqb_neq _ _) Hb).
Qed.
Lemma wp_non_null s p (Q : hptr → _ → Prop) : Q p s → wp (non_null (Some p)) Q s.
Proof. intros. apply wp_of_option. eauto. Qed.
Lemma wp_get_value_ptr s e (Q : option hptr → _ → Prop) :
  segs_ok s → 0 ≤ ssp_segment (mem_index (he_memory e)) < values_count s →
  Q (Some (ssp_segment (mem_index (he_memory e)),
           mem_offset (he_memory e) + sizeof_shm_hash_entry + MEM_ALIGN (key_len e))) s →
  wp (shm_get_value_ptr e) Q s.
Proof.
  intros Hs Hp HQ. unfold shm_get_value_ptr.
  wp_simpl. apply wp_get_value_segment; [done|done|]. intros b Hb. wp_simpl.
  by rewrite (proj2 (Z.eqb_neq _ _) Hb).
Qed.
End pointers.

(** ** Properties *)

(** C36: packing a segment index of a [short] and a 48-bit offset into an
    [int64_t] and taking them apart with the bit fields of the union returns
    both; an entry offset made by [shm_get_hentry_offset] in one of the first
    256 segments is positive (so it never looks like the end of a chain),
    differs from every list head, and [shm_get_hentry_ptr] finds its place
    again. *)
Theorem hentry_offset_roundtrip (e : shm_hash_entry) index offset :
  - 2 ^ 15 ≤ index < 2 ^ 15 → - 2 ^ 47 ≤ offset < 2 ^ 47 →
  hentry_index (hentry_pack index offset) = index ∧
  hentry_offset (hentry_pack index offset) = offset ∧
  (0 ≤ ssp_segment (mem_index (he_memory e)) < 256 → 0 ≤ mem_offset (he_memory e) < 2 ^ 47 →
   0 < shm_get_hentry_offset e ∧
   hentry_addr (shm_get_hentry_offset e)
     = (ssp_segment (mem_index (he_memory e)), mem_offset (he_memory e)) ∧
   ∀ o, shm_get_hentry_offset e ≠ hentry_pack (-1) o).
Proof.
  intros Hi Ho. split; [by apply hentry_index_pack|]. split; [by apply hentry_offset_pack|].
  intros Hs Hoff. set (p := (ssp_segment (mem_index (he_memory e)), mem_offset (he_memory e))).
  change (shm_get_hentry_offset e) with (offset_of_addr p). split_and!.
  - by apply offset_of_addr_pos.
  - by apply hentry_addr_of_addr.
  - intros o. by apply offset_of_addr_not_head.
Qed.

Lemma hentry_offset_roundtrip_witness :
  let e := hentry_zero <| he_memory; mem_index := Ssp 254 2000 |>
                       <| he_memory; mem_offset := 1048640 |> in
  hentry_index (hentry_pack (-1) 440) = -1 ∧ hentry_offset (hentry_pack (-1) 440) = 440 ∧
  (0 ≤ ssp_segment (mem_index (he_memory e)) < 256 → 0 ≤ mem_offset (he_memory e) < 2 ^ 47 →
   0 < shm_get_hentry_offset e ∧
   hentry_addr (shm_get_hentry_offset e)
     = (ssp_segment (mem_index (he_memory e)), mem_offset (he_memory e)) ∧
   ∀ o, shm_get_hentry_offset e ≠ hentry_pack (-1) o) ∧
  hentry_addr (shm_get_hentry_offset e) = (254, 1048640).
Proof.
  intros e. assert (- 2 ^ 15 ≤ -1 < 2 ^ 15) as Hi by lia.
  assert (- 2 ^ 47 ≤ 440 < 2 ^ 47) as Ho by lia.
  destruct (hentry_offset_roundtrip e (-1) 440 Hi Ho) as (H1&H2&H3).
  split; [exact H1|]. split; [exact H2|]. split; [exact H3|]. vm_compute. reflexivity.
Defined.
