(* ===== verification/ShmList.v ===== *)
(** * The recycle list: a circular doubly linked list of entry offsets
    (src/shm_list.h)

    The head is in the hashtable segment, the nodes are the first member of
    the entries; [list_head_offset] is the packed offset of the head. *)
From S2P Require Import Prelude Types Shmopt HentryOffset.
Local Open Scope Z_scope.
Local Open Scope shm_scope.

(** a pointer to a node *)
Inductive list_ptr := LHead | LEntry (p : hptr).

Section ShmList.
Context `{E : Env}.

Definition shm_list_ptr (obj_offset : Z) : cmd (option list_ptr) :=
  s ← get;
  if obj_offset =? list_head_offset s then mret (Some LHead)
  else p ← shm_get_hentry_ptr obj_offset; mret (LEntry <$> p).

(** dereference and update of a node *)
Definition load_node (node : list_ptr) : cmd shm_list :=
  match node with
  | LHead => gets (λ s, ht_head (hashtable (memory s)))
  | LEntry p => e ← load_hentry p; mret (he_list e)
  end.
Definition store_node (node : list_ptr) (f : shm_list → shm_list) : cmd unit :=
  match node with
  | LHead => modify (λ s, s <| memory; hashtable; ht_head ::= f |>)
  | LEntry p => store_hentry p (λ e, e <| he_list ::= f |>)
  end.
(** [shm_list_ptr(context, offset)->next = x] and [->prev = x] *)
Definition set_next (offset x : Z) : cmd unit :=
  node ← shm_list_ptr offset; node ← of_option node;
  store_node node (λ l, l <| list_next := x |>).
Definition set_prev (offset x : Z) : cmd unit :=
  node ← shm_list_ptr offset; node ← of_option node;
  store_node node (λ l, l <| list_prev := x |>).

(** shm_list_set: [head_in_segment] is [(char * )head - base] *)
Definition shm_list_set (head_in_segment : Z) : cmd unit :=
  modify (λ s, s <| list_head_offset := hentry_pack (-1) head_in_segment |>).

Definition shm_list_init : cmd unit :=
  s ← get;
  modify (λ s, s <| memory; hashtable; ht_head; list_prev := list_head_offset s |>);;
  modify (λ s, s <| memory; hashtable; ht_head; list_next := list_head_offset s |>).

Definition SHM_LIST_ADD_TO_TAIL (node : list_ptr) (obj_offset : Z) : cmd unit :=
  s ← get;
  store_node node (λ l, l <| list_next := list_head_offset s |>);;
  h ← load_node LHead;
  store_node node (λ l, l <| list_prev := list_prev h |>);;
  h ← load_node LHead;
  set_next (list_prev h) obj_offset;;
  store_node LHead (λ l, l <| list_prev := obj_offset |>).

Definition shm_list_add_tail (obj_offset : Z) : cmd unit :=
  node ← shm_list_ptr obj_offset; node ← of_option node;
  SHM_LIST_ADD_TO_TAIL node obj_offset.

Definition shm_list_delete (obj_offset : Z) : cmd unit :=
  node ← shm_list_ptr obj_offset; node ← of_option node;
  n ← load_node node;
  if list_next n =? obj_offset then mret tt
  else
    n ← load_node node;
    set_next (list_prev n) (list_next n);;
    n ← load_node node;
    set_prev (list_next n) (list_prev n);;
    store_node node (λ l, l <| list_next := obj_offset |>);;
    store_node node (λ l, l <| list_prev := obj_offset |>).

Definition shm_list_move_tail (obj_offset : Z) : cmd unit :=
  node ← shm_list_ptr obj_offset; node ← of_option node;
  n ← load_node node;
  set_next (list_prev n) (list_next n);;
  n ← load_node node;
  set_prev (list_next n) (list_prev n);;
  SHM_LIST_ADD_TO_TAIL node obj_offset.

Definition shm_list_empty : cmd bool :=
  s ← get; h ← load_node LHead; mret (list_next h =? list_head_offset s).

Definition shm_list_first : cmd Z :=
  s ← get; h ← load_node LHead;
  if list_next h =? list_head_offset s then mret (-1) else mret (list_next h).

Definition shm_list_next (current_offset : Z) : cmd Z :=
  s ← get;
  node ← shm_list_ptr current_offset; node ← of_option node;
  n ← load_node node;
  if list_next n =? list_head_offset s then mret (-1) else mret (list_next n).

(** the loop of shm_list_count; it is given the number of entries as fuel *)
Fixpoint list_count_loop (fuel : nat) (offset count : Z) : cmd Z :=
  match fuel with
  | O => fault
  | S fuel =>
    s ← get;
    if offset =? list_head_offset s then mret count
    else
      node ← shm_list_ptr offset; node ← of_option node;
      n ← load_node node;
      list_count_loop fuel (list_next n) (count + 1)
  end.
Definition shm_list_count : cmd Z :=
  s ← get; h ← load_node LHead;
  list_count_loop (S (Z.to_nat (ht_count (hashtable (memory s))))) (list_next h) 0.

End ShmList.

(** ** Nodes as a map from offsets *)
Definition node (s : shmcache_context) (o : Z) : shm_list :=
  if o =? list_head_offset s then ht_head (hashtable (memory s))
  else he_list (hentry_at s (hentry_addr o)).
Definition node_ok (s : shmcache_context) (o : Z) : Prop :=
  o = list_head_offset s ∨ (o ≠ list_head_offset s ∧ off_ok s o).
Definition ptr_of (s : shmcache_context) (o : Z) : list_ptr :=
  if o =? list_head_offset s then LHead else LEntry (hentry_addr o).

(** an entry without its links *)
Definition nolist (e : shm_hash_entry) : shm_hash_entry := e <| he_list := Shm_list 0 0 |>.

(** only links change *)
Definition frame_list (s s' : shmcache_context) : Prop := ∃ hd en,
  s' = s <| memory; hashtable; ht_head := hd |> <| hentries := en |> ∧
  ∀ p, nolist (default hentry_zero (en !! p)) = nolist (hentry_at s p).

Lemma frame_list_refl s : frame_list s s.
Proof.
  exists (ht_head (hashtable (memory s))), (hentries s). split; [|done].
  by destruct s as [????[?????????[]]??????????????].
Qed.
Lemma frame_list_trans s1 s2 s3 : frame_list s1 s2 → frame_list s2 s3 → frame_list s1 s3.
Proof.
  intros (hd1&en1&->&H1) (hd2&en2&->&H2). exists hd2, en2. split; [done|].
  intros p. rewrite H2. apply H1.
Qed.
Lemma frame_list_hentry s s' p : frame_list s s' → nolist (hentry_at s' p) = nolist (hentry_at s p).
Proof. intros (hd&en&->&H). apply H. Qed.
Lemma frame_list_node_ok s s' x : frame_list s s' → node_ok s' x ↔ node_ok s x.
Proof. by intros (hd&en&->&_). Qed.
Lemma frame_list_segs_ok s s' : frame_list s s' → segs_ok s → segs_ok s'.
Proof. by intros (hd&en&->&_). Qed.
Lemma frame_list_head s s' : frame_list s s' → list_head_offset s' = list_head_offset s.
Proof. by intros (hd&en&->&_). Qed.
Lemma frame_list_ptr_of s s' x : frame_list s s' → ptr_of s' x = ptr_of s x.
Proof. by intros (hd&en&->&_). Qed.

(** what one assignment to a node does to the nodes *)
Definition assigned (s s' : shmcache_context) (o : Z) (f : shm_list → shm_list) : Prop :=
  frame_list s s' ∧
  ∀ x, node_ok s x → node s' x = if x =? o then f (node s x) else node s x.

Section rules.
Context `{E : Env}.

Lemma wp_list_ptr s o (Q : option list_ptr → _ → Prop) :
  segs_ok s → node_ok s o → Q (Some (ptr_of s o)) s → wp (shm_list_ptr o) Q s.
Proof.
  intros Hs Ho HQ. unfold shm_list_ptr. wp_simpl. unfold ptr_of in HQ.
  destruct (Z.eqb_spec o (list_head_offset s)) as [Eq|Eq]; [by wp_simpl|].
  destruct Ho as [|[_ Ho]]; [done|]. wp_simpl. apply wp_get_hentry_ptr; [done|done|]. by wp_simpl.
Qed.

Lemma wp_load_node s o (Q : shm_list → _ → Prop) :
  segs_ok s → node_ok s o → Q (node s o) s → wp (load_node (ptr_of s o)) Q s.
Proof.
  intros Hs Ho HQ. unfold ptr_of, node in *.
  destruct (Z.eqb_spec o (list_head_offset s)) as [Eq|Eq]; cbn [load_node]; [by wp_simpl|].
  destruct Ho as [|[_ Ho]]; [done|]. wp_simpl. apply wp_load_hentry; [done|apply Ho|]. by wp_simpl.
Qed.

Lemma wp_store_node s o f (Q : unit → _ → Prop) :
  segs_ok s → node_ok s o → (∀ s', assigned s s' o f → Q tt s') →
  wp (store_node (ptr_of s o) f) Q s.
Proof.
  intros Hs Ho HQ. unfold ptr_of.
  destruct (Z.eqb_spec o (list_head_offset s)) as [Eq|Eq]; cbn [store_node].
  - wp_simpl. apply HQ. split.
    + exists (f (ht_head (hashtable (memory s)))), (hentries s). split; [|done].
      by destruct s as [????[?????????[]]??????????????].
    + intros x _. unfold node. cbn. subst o. by destruct (x =? list_head_offset s).
  - destruct Ho as [|[_ Ho]]; [done|]. apply wp_store_hentry; [done|apply Ho|].
    apply HQ. split.
    + exists (ht_head (hashtable (memory s))),
        (<[hentry_addr o := (hentry_at s (hentry_addr o)) <| he_list ::= f |>]> (hentries s)).
      split; [by destruct s as [????[?????????[]]??????????????]|].
      intros p. rewrite lookup_insert. case_decide; [by subst p|done].
    + intros x Hx. unfold node. cbn. destruct (Z.eqb_spec x (list_head_offset s)) as [->|Hne].
      { by rewrite (proj2 (Z.eqb_neq _ _)) by done. }
      destruct Hx as [|[_ Hx]]; [done|]. unfold hentry_at. cbn.
      destruct (Z.eqb_spec x o) as [->|Hxo]; [by rewrite lookup_insert_eq|].
      rewrite lookup_insert_ne; [done|]. intros Heq. apply Hxo. symmetry. by apply (off_ok_inj s).
Qed.

Lemma wp_set_next s o v (Q : unit → _ → Prop) :
  segs_ok s → node_ok s o → (∀ s', assigned s s' o (λ l, l <| list_next := v |>) → Q tt s') →
  wp (set_next o v) Q s.
Proof.
  intros Hs Ho HQ. unfold set_next. wp_simpl. apply wp_list_ptr; [done..|]. wp_simpl.
  apply wp_of_option. eexists. split; [done|]. by apply wp_store_node.
Qed.
Lemma wp_set_prev s o v (Q : unit → _ → Prop) :
  segs_ok s → node_ok s o → (∀ s', assigned s s' o (λ l, l <| list_prev := v |>) → Q tt s') →
  wp (set_prev o v) Q s.
Proof.
  intros Hs Ho HQ. unfold set_prev. wp_simpl. apply wp_list_ptr; [done..|]. wp_simpl.
  apply wp_of_option. eexists. split; [done|]. by apply wp_store_node.
Qed.
End rules.

(** ** Paths: [path nx a es b] follows [nx] from [a] through [es] to [b] *)
Fixpoint path (nx : Z → Z) (a : Z) (es : list Z) (b : Z) : Prop :=
  match es with
  | [] => nx a = b
  | e :: es => nx a = e ∧ path nx e es b
  end.

Lemma path_app nx a l1 e l2 b : path nx a (l1 ++ e :: l2) b ↔ path nx a l1 e ∧ path nx e l2 b.
Proof. revert a. induction l1 as [|x l1 IH]; intros a; simpl; [done|]. rewrite IH. tauto. Qed.

Lemma path_ext nx nx' a es b :
  (∀ x, x ∈ a :: es → nx' x = nx x) → path nx a es b → path nx' a es b.
Proof.
  revert a. induction es as [|e es IH]; intros a Hx; simpl.
  - intros <-. apply Hx. set_solver.
  - intros [<- Hp]. split; [apply Hx; set_solver|]. apply IH; [|done]. set_solver.
Qed.

(** the last node of [a :: es] *)
Definition final (a : Z) (es : list Z) : Z := default a (last es).
Lemma final_cons a e es : final a (e :: es) = final e es.
Proof. unfold final. rewrite last_cons. by destruct (last es). Qed.
Lemma final_in a es : final a es ∈ a :: es.
Proof.
  revert a. induction es as [|e es IH]; intros a; [left|]. rewrite final_cons. right. apply IH.
Qed.

(** redirect the last step of a path *)
Lemma path_redirect nx nx' a es b c :
  path nx a es b → NoDup (a :: es) → nx' (final a es) = c →
  (∀ x, x ∈ a :: es → x ≠ final a es → nx' x = nx x) → path nx' a es c.
Proof.
  revert a. induction es as [|e es IH]; intros a; [done|].
  intros [<- Hp] [Hna Hnd]%NoDup_cons. rewrite final_cons. intros Hc Hx. split.
  - apply Hx; [left|]. intros Heq. apply Hna. rewrite Heq at 1. apply final_in.
  - apply IH; [done..|]. intros x Hxin. apply Hx. by right.
Qed.

(** the last node of a path leads to its end *)
Lemma path_final nx a es b : path nx a es b → nx (final a es) = b.
Proof.
  revert a. induction es as [|e es IH]; intros a; [done|]. intros [<- Hp].
  rewrite final_cons. by apply IH.
Qed.
Lemma path_first nx a es b : path nx a es b → nx a = List.hd b es.
Proof. destruct es; [done|]. by intros [-> _]. Qed.

(** taking [e] out: the node before it is linked to the node after it *)
Lemma path_remove nx nx' a l1 e l2 b :
  path nx a (l1 ++ e :: l2) b → NoDup (a :: l1 ++ e :: l2) →
  nx' (final a l1) = nx e →
  (∀ x, x ∈ a :: l1 ++ l2 → x ≠ final a l1 → nx' x = nx x) →
  path nx' a (l1 ++ l2) b.
Proof.
  intros [Hp1 Hp2]%path_app Hnd Hf Hx.
  assert (NoDup (a :: l1)) as Hnd1.
  { eapply sublist_NoDup; [done|]. by apply sublist_skip, sublist_inserts_r. }
  pose proof (path_first _ _ _ _ Hp2) as He.
  assert (path nx' a l1 (List.hd b l2)) as Hp1'.
  { eapply path_redirect; [done|done|congruence|]. intros x Hxin. apply Hx. set_solver. }
  destruct l2 as [|e2 l2]; [by rewrite app_nil_r|]. apply path_app. split; [done|].
  destruct Hp2 as [_ Hp2]. eapply path_ext; [|done]. intros x Hxin. apply Hx; [set_solver|].
  intros ->. pose proof (final_in a l1) as Hin.
  change (a :: l1 ++ e :: e2 :: l2) with ((a :: l1) ++ e :: e2 :: l2) in Hnd.
  apply NoDup_app in Hnd as (_&Hd&_). apply (Hd _ Hin). by right.
Qed.

(** appending [o] *)
Lemma path_snoc nx nx' a es b o :
  path nx a es b → NoDup (a :: es ++ [o]) → nx' (final a es) = o → nx' o = b →
  (∀ x, x ∈ a :: es → x ≠ final a es → nx' x = nx x) → path nx' a (es ++ [o]) b.
Proof.
  intros Hp Hnd Hf Ho Hx. apply path_app. split; [|done].
  eapply path_redirect; [done|..]; [|done..].
  eapply sublist_NoDup; [done|]. by apply sublist_skip, sublist_inserts_r.
Qed.
(** prepending [o] *)
Lemma path_cons_first nx nx' a es b o :
  path nx a es b → NoDup (a :: o :: es) → nx' a = o → nx' o = nx a →
  (∀ x, x ∈ es → nx' x = nx x) → path nx' a (o :: es) b.
Proof.
  intros Hp [Ha Hnd]%NoDup_cons Hfirst Ho Hx. split; [done|].
  destruct es as [|e es]; simpl in *; [congruence|]. destruct Hp as [He Hp].
  split; [congruence|]. by eapply path_ext.
Qed.

(** ** The circular list through the head [h] *)
Definition nx (s : shmcache_context) (o : Z) : Z := list_next (node s o).
Definition pv (s : shmcache_context) (o : Z) : Z := list_prev (node s o).

Definition dll (s : shmcache_context) (es : list Z) : Prop :=
  path (nx s) (list_head_offset s) es (list_head_offset s) ∧
  path (pv s) (list_head_offset s) (rev es) (list_head_offset s) ∧
  NoDup (list_head_offset s :: es) ∧ Forall (off_ok s) es.

Lemma dll_nodup s es : dll s es → NoDup (list_head_offset s :: es).
Proof. by intros (_&_&?&_). Qed.
Lemma dll_ok s es : dll s es → Forall (off_ok s) es.
Proof. by intros (_&_&_&?). Qed.

Lemma hd_rev_final h (es : list Z) : List.hd h (rev es) = final h es.
Proof.
  unfold final. destruct es as [|x es] using rev_ind; [done|].
  by rewrite rev_app_distr, last_snoc.
Qed.
Lemma final_rev_hd h (es : list Z) : final h (rev es) = List.hd h es.
Proof. by rewrite <-hd_rev_final, rev_involutive. Qed.

Lemma dll_links s l1 e l2 :
  dll s (l1 ++ e :: l2) →
  nx s e = List.hd (list_head_offset s) l2 ∧ pv s e = final (list_head_offset s) l1.
Proof.
  intros (Hn&Hp&_&_). apply path_app in Hn as [_ Hn]. apply path_first in Hn as ->.
  split; [done|]. rewrite rev_app_distr in Hp. simpl in Hp. rewrite <-app_assoc in Hp.
  apply path_app in Hp as [_ Hp]. apply path_first in Hp as ->. by rewrite hd_rev_final.
Qed.
Lemma dll_head_links s es :
  dll s es →
  nx s (list_head_offset s) = List.hd (list_head_offset s) es ∧
  pv s (list_head_offset s) = final (list_head_offset s) es.
Proof.
  intros (Hn&Hp&_&_). split; [by apply path_first in Hn|].
  apply path_first in Hp as ->. by rewrite hd_rev_final.
Qed.
Lemma dll_node_ok s es : dll s es → ∀ x, x ∈ list_head_offset s :: es → node_ok s x.
Proof.
  intros Hd x [->|Hx]%elem_of_cons; [by left|]. right. destruct Hd as (_&_&Hnd&Hok).
  apply NoDup_cons in Hnd as [Hnd _]. split; [by intros ->|].
  by eapply (proj1 (Forall_forall _ _)) in Hok.
Qed.
Lemma hd_in h (es : list Z) : List.hd h es ∈ h :: es.
Proof. destruct es; [left|right; left]. Qed.

(** the links after taking [e] out, and after putting [o] in front of the head *)
Lemma dll_unlink s s' l1 e l2 :
  dll s (l1 ++ e :: l2) → frame_list s s' →
  (∀ x, node_ok s x → x ≠ e → nx s' x = if x =? pv s e then nx s e else nx s x) →
  (∀ x, node_ok s x → x ≠ e → pv s' x = if x =? nx s e then pv s e else pv s x) →
  dll s' (l1 ++ l2).
Proof.
  intros Hd Hf Hnx Hpv. destruct (dll_links _ _ _ _ Hd) as [Hne Hpe].
  pose proof (dll_node_ok _ _ Hd) as Hok. destruct Hd as (Hn&Hp&Hnd&Ho).
  set (h := list_head_offset s) in *.
  assert (∀ x, x ∈ h :: l1 ++ l2 → node_ok s x ∧ x ≠ e) as Hin.
  { intros x Hx. split; [apply Hok; set_solver|]. intros ->.
    change (h :: l1 ++ e :: l2) with ((h :: l1) ++ e :: l2) in Hnd.
    apply NoDup_app in Hnd as (_&Hd&[Hn2 _]%NoDup_cons).
    change (h :: l1 ++ l2) with ((h :: l1) ++ l2) in Hx.
    apply elem_of_app in Hx as [Hx|Hx]; [|done]. apply (Hd _ Hx). left. }
  split_and!; rewrite ?(frame_list_head _ _ Hf); fold h.
  - eapply path_remove; [exact Hn|done|..].
    + destruct (Hin (final h l1)) as [? ?]; [pose proof (final_in h l1); set_solver|].
      rewrite Hnx by done. by rewrite <-Hpe, Z.eqb_refl.
    + intros x Hx Hne'. destruct (Hin x Hx). rewrite Hnx by done. rewrite Hpe.
      by rewrite (proj2 (Z.eqb_neq _ _) Hne').
  - rewrite rev_app_distr in *. simpl in Hp. rewrite <-app_assoc in Hp. simpl in Hp.
    assert (∀ x, x ∈ h :: rev l2 ++ rev l1 → x ∈ h :: l1 ++ l2) as Hrev.
    { intros x. rewrite !elem_of_cons, !elem_of_app, !list_elem_of_In, <-!in_rev. tauto. }
    eapply path_remove; [exact Hp|..].
    + rewrite (Permutation_rev (l1 ++ e :: l2)), rev_app_distr in Hnd. simpl in Hnd.
      by rewrite <-app_assoc in Hnd.
    + rewrite final_rev_hd. destruct (Hin (List.hd h l2)) as [? ?]; [pose proof (hd_in h l2); set_solver|].
      rewrite Hpv by done. by rewrite <-Hne, Z.eqb_refl.
    + intros x Hx Hne'. destruct (Hin x (Hrev x Hx)). rewrite Hpv by done.
      rewrite final_rev_hd, <-Hne in Hne'. by rewrite (proj2 (Z.eqb_neq _ _) Hne').
  - eapply sublist_NoDup; [done|]. by apply sublist_skip, sublist_app, sublist_cons.
  - destruct Hf as (hd&en&->&_). apply Forall_app in Ho as [H1 [_ H2]%Forall_cons].
    by apply Forall_app.
Qed.

Lemma dll_link s s' es o :
  dll s es → off_ok s o → o ∉ list_head_offset s :: es → frame_list s s' →
  (∀ x, node_ok s x → nx s' x = if x =? pv s (list_head_offset s) then o
                                else if x =? o then list_head_offset s else nx s x) →
  (∀ x, node_ok s x → pv s' x = if x =? list_head_offset s then o
                                else if x =? o then pv s (list_head_offset s) else pv s x) →
  dll s' (es ++ [o]).
Proof.
  intros Hd Ho Hnew Hf Hnx Hpv. destruct (dll_head_links _ _ Hd) as [_ Hph].
  pose proof (dll_node_ok _ _ Hd) as Hok. destruct Hd as (Hn&Hp&Hnd&Hall).
  set (h := list_head_offset s) in *.
  assert (node_ok s o) as Hoo by (right; split; [intros ->; set_solver|done]).
  assert (final h es ≠ o) as Hfo by (intros <-; apply Hnew, final_in).
  assert (∀ x, x ∈ h :: es → x ≠ o) as Hne by (intros x Hx ->; done).
  assert (NoDup (h :: es ++ [o])) as Hnd'.
  { change (NoDup ((h :: es) ++ [o])). apply NoDup_app. split_and!; [done| |apply NoDup_singleton].
    intros x Hx ->%list_elem_of_singleton. done. }
  split_and!; rewrite ?(frame_list_head _ _ Hf); fold h.
  - eapply path_snoc; [exact Hn|done|..].
    + rewrite Hnx by (apply Hok, final_in). by rewrite Hph, Z.eqb_refl.
    + rewrite Hnx, Hph by done. by rewrite (proj2 (Z.eqb_neq _ _) (not_eq_sym Hfo)), Z.eqb_refl.
    + intros x Hx Hxf. rewrite Hnx, Hph by by apply Hok.
      by rewrite (proj2 (Z.eqb_neq _ _) Hxf), (proj2 (Z.eqb_neq _ _) (Hne x Hx)).
  - rewrite rev_app_distr. simpl.
    assert (∀ x, x ∈ rev es → x ∈ h :: es) as Hrev.
    { intros x. rewrite elem_of_cons, !list_elem_of_In, <-in_rev. tauto. }
    eapply path_cons_first; [exact Hp|..].
    + rewrite (Permutation_rev (es ++ [o])), rev_app_distr in Hnd'. done.
    + rewrite Hpv by (by left). by rewrite Z.eqb_refl.
    + rewrite Hpv by done. rewrite Z.eqb_refl.
      by rewrite (proj2 (Z.eqb_neq _ _) (not_eq_sym (Hne h ltac:(left)))).
    + intros x Hx. rewrite Hpv by by apply Hok, Hrev.
      rewrite (proj2 (Z.eqb_neq _ _) (Hne x (Hrev x Hx))).
      rewrite (proj2 (Z.eqb_neq x h)); [done|]. intros ->.
      apply NoDup_cons in Hnd as [Hnd _]. apply Hnd.
      by rewrite list_elem_of_In, in_rev, <-list_elem_of_In.
  - done.
  - destruct Hf as (hd&en&->&_). apply Forall_app. split; [done|]. by constructor.
Qed.

(** ** Chains of assignments, all seen from the state [s0] before the first *)
Section specs.
Context `{E : Env}.
Variables (s0 : shmcache_context) (Hs0 : segs_ok s0).

Definition assigned_from (s s' : shmcache_context) (o : Z) (f : shm_list → shm_list) : Prop :=
  frame_list s0 s' ∧ ∀ x, node_ok s0 x → node s' x = if x =? o then f (node s x) else node s x.

Lemma wp_load_from s o (Q : shm_list → _ → Prop) :
  frame_list s0 s → node_ok s0 o → Q (node s o) s → wp (load_node (ptr_of s0 o)) Q s.
Proof.
  intros Hf Ho HQ. rewrite <-(frame_list_ptr_of _ _ _ Hf).
  apply wp_load_node; [by eapply frame_list_segs_ok|by eapply frame_list_node_ok|done].
Qed.
Lemma assigned_from_intro s s' o f : frame_list s0 s → assigned s s' o f → assigned_from s s' o f.
Proof.
  intros Hf [Hf' Hn]. split; [by eapply frame_list_trans|]. intros x Hx. apply Hn.
  by eapply frame_list_node_ok.
Qed.
Lemma wp_store_from s o f (Q : unit → _ → Prop) :
  frame_list s0 s → node_ok s0 o → (∀ s', assigned_from s s' o f → Q tt s') →
  wp (store_node (ptr_of s0 o) f) Q s.
Proof.
  intros Hf Ho HQ. rewrite <-(frame_list_ptr_of _ _ _ Hf).
  apply wp_store_node; [by eapply frame_list_segs_ok|by eapply frame_list_node_ok|].
  intros s' Ha. by apply HQ, assigned_from_intro.
Qed.
Lemma wp_set_next_from s o v (Q : unit → _ → Prop) :
  frame_list s0 s → node_ok s0 o →
  (∀ s', assigned_from s s' o (λ l, l <| list_next := v |>) → Q tt s') → wp (set_next o v) Q s.
Proof.
  intros Hf Ho HQ. apply wp_set_next; [by eapply frame_list_segs_ok|by eapply frame_list_node_ok|].
  intros s' Ha. by apply HQ, assigned_from_intro.
Qed.
Lemma wp_set_prev_from s o v (Q : unit → _ → Prop) :
  frame_list s0 s → node_ok s0 o →
  (∀ s', assigned_from s s' o (λ l, l <| list_prev := v |>) → Q tt s') → wp (set_prev o v) Q s.
Proof.
  intros Hf Ho HQ. apply wp_set_prev; [by eapply frame_list_segs_ok|by eapply frame_list_node_ok|].
  intros s' Ha. by apply HQ, assigned_from_intro.
Qed.
Lemma head_ptr : LHead = ptr_of s0 (list_head_offset s0).
Proof. unfold ptr_of. by rewrite Z.eqb_refl. Qed.

(** evaluate [node s' x] after the assignments of the context *)
Ltac nodes :=
  unfold nx, pv in *;
  repeat match goal with
  | H : assigned_from _ ?s' _ _ |- context [node ?s' _] => rewrite (proj2 H) by assumption
  end; repeat case_bool; cbn; try done; try congruence.
Ltac run_node :=
  first [ apply wp_load_from; [eassumption || apply frame_list_refl|assumption|]
        | apply wp_store_from; [eassumption || apply frame_list_refl|assumption|]
        | apply wp_set_next_from; [eassumption || apply frame_list_refl|assumption|]
        | apply wp_set_prev_from; [eassumption || apply frame_list_refl|assumption|] ].
Ltac step_node :=
  let s := fresh "s" in let F := fresh "F" in let A := fresh "A" in
  run_node; try (intros s A; pose proof (proj1 A) as F); wp_simpl.

(** [node->prev->next = node->next; node->next->prev = node->prev] *)
Lemma wp_unlink l1 e l2 (k : cmd unit) (Q : unit → _ → Prop) :
  dll s0 (l1 ++ e :: l2) →
  (∀ s', frame_list s0 s' → dll s' (l1 ++ l2) → wp k Q s') →
  wp (n ← load_node (ptr_of s0 e); set_next (list_prev n) (list_next n);;
      n ← load_node (ptr_of s0 e); set_prev (list_next n) (list_prev n);; k) Q s0.
Proof.
  intros Hd HQ. destruct (dll_links _ _ _ _ Hd) as [Hne Hpe].
  pose proof (dll_node_ok _ _ Hd) as Hok. set (h := list_head_offset s0) in *.
  assert (node_ok s0 e) as Hoe by (apply Hok; set_solver).
  assert (node_ok s0 (pv s0 e)) as Hop.
  { rewrite Hpe. apply Hok. pose proof (final_in h l1). set_solver. }
  assert (node_ok s0 (nx s0 e)) as Hon.
  { rewrite Hne. apply Hok. pose proof (hd_in h l2). set_solver. }
  assert (pv s0 e ≠ e) as Hpe'.
  { rewrite Hpe. intros Heq. pose proof (final_in h l1) as Hin. rewrite Heq in Hin.
    pose proof (dll_nodup _ _ Hd) as Hnd. change (NoDup ((h :: l1) ++ e :: l2)) in Hnd.
    apply NoDup_app in Hnd as (_&Hx&_). apply (Hx _ Hin). left. }
  wp_simpl. step_node. step_node. step_node.
  assert (node s e = (node s0 e)) as -> by nodes.
  step_node. apply HQ; [done|].
  eapply dll_unlink; [exact Hd|done|..]; intros x Hx Hxe; nodes.
Qed.

Lemma wp_add_to_tail s es o (Q : unit → _ → Prop) :
  frame_list s0 s → dll s es → off_ok s0 o → o ∉ list_head_offset s0 :: es →
  (∀ s', frame_list s0 s' → dll s' (es ++ [o]) → Q tt s') →
  wp (SHM_LIST_ADD_TO_TAIL (ptr_of s0 o) o) Q s.
Proof.
  intros Hf Hd Ho Hnew HQ. destruct (dll_head_links _ _ Hd) as [_ Hph].
  pose proof (dll_node_ok _ _ Hd) as Hok. pose proof (frame_list_head _ _ Hf) as Hhead.
  rewrite Hhead in Hok, Hph. set (h := list_head_offset s0) in *.
  assert (∀ x, node_ok s x → node_ok s0 x) as Hto by (intros x; by apply (frame_list_node_ok _ _ x Hf)).
  assert (o ≠ h) as Hoh by (intros ->; set_solver).
  assert (node_ok s0 o) as Hoo by by right.
  assert (node_ok s0 h) as Hoh' by by left.
  assert (pv s h ≠ o) as Hpo by (rewrite Hph; intros <-; apply Hnew, final_in).
  assert (node_ok s0 (pv s h)) as Hop by (apply Hto; rewrite Hph; apply Hok, final_in).
  unfold SHM_LIST_ADD_TO_TAIL. rewrite head_ptr. fold h. wp_simpl. rewrite Hhead.
  step_node. step_node. assert (list_prev (node s1 h) = pv s h) as -> by nodes.
  step_node. step_node. assert (list_prev (node s2 h) = pv s h) as -> by nodes.
  step_node. step_node. apply HQ; [done|].
  assert (frame_list s s4) as Hf4.
  { destruct Hf as (hd1&en1&->&H1), F2 as (hd2&en2&->&H2). exists hd2, en2. split; [done|].
    intros p. rewrite H2. symmetry. apply H1. }
  eapply dll_link; [exact Hd|..]; rewrite ?Hhead.
  - destruct Hf as (hd1&en1&->&_). done.
  - done.
  - done.
  - intros x Hx%Hto. fold h. nodes.
  - intros x Hx%Hto. fold h. nodes.
Qed.
End specs.

Lemma dll_node_eq s s' es :
  dll s es → frame_list s s' → (∀ x, x ∈ list_head_offset s :: es → node s' x = node s x) →
  dll s' es.
Proof.
  intros (Hn&Hp&Hnd&Ho) Hf Hx. split_and!; rewrite ?(frame_list_head _ _ Hf); [| |done|].
  - eapply path_ext; [|done]. intros x Hin. unfold nx. by rewrite Hx.
  - eapply path_ext; [|done]. intros x Hin. unfold pv. rewrite Hx; [done|].
    rewrite elem_of_cons, !list_elem_of_In, <-in_rev, <-list_elem_of_In in Hin.
    by apply elem_of_cons.
  - destruct Hf as (hd&en&->&_). done.
Qed.
Lemma dll_not_in s l1 e l2 : dll s (l1 ++ e :: l2) → e ∉ list_head_offset s :: l1 ++ l2.
Proof.
  intros Hd. pose proof (dll_nodup _ _ Hd) as Hnd.
  change (list_head_offset s :: l1 ++ e :: l2)
    with ((list_head_offset s :: l1) ++ e :: l2) in Hnd.
  rewrite <-Permutation_middle in Hnd. by apply NoDup_cons in Hnd as [? _].
Qed.

Section operations.
Context `{E : Env}.

Lemma list_delete_spec s l1 e l2 :
  segs_ok s → dll s (l1 ++ e :: l2) →
  wp (shm_list_delete e) (λ _ s', frame_list s s' ∧ dll s' (l1 ++ l2)) s.
Proof.
  intros Hs Hd. destruct (dll_links _ _ _ _ Hd) as [Hne _]. pose proof (dll_not_in _ _ _ _ Hd) as Hni.
  assert (node_ok s e) as Hoe by (apply (dll_node_ok _ _ Hd); set_solver).
  unfold shm_list_delete. wp_simpl. apply wp_list_ptr; [done..|]. wp_simpl.
  apply wp_of_option. eexists. split; [done|]. wp_simpl.
  apply wp_load_node; [done..|]. fold (nx s e).
  destruct (Z.eqb_spec (nx s e) e) as [Heq|_].
  { destruct Hni. rewrite Hne in Heq. rewrite <-Heq at 1. pose proof (hd_in (list_head_offset s) l2).
    set_solver. }
  apply (wp_unlink s Hs l1 e l2); [done|]. intros s4 F4 D4. wp_simpl.
  apply (wp_store_from s Hs); [done..|]. intros s5 [F5 N5].
  apply (wp_store_from s Hs); [done..|]. intros s6 [F6 N6].
  split; [done|]. assert (∀ t, frame_list s t → frame_list s4 t) as Hsym.
  { destruct F4 as (hd4&en4&->&G4). intros t (hd&en&->&G). exists hd, en. split; [done|].
    intros p. rewrite G. symmetry. apply G4. }
  eapply dll_node_eq; [exact D4|by apply Hsym|].
  rewrite (frame_list_head _ _ F4). intros x Hx.
  assert (node_ok s x) by (apply (dll_node_ok _ _ Hd); set_solver).
  assert (x ≠ e) as Hxe by by intros ->.
  rewrite N6, N5 by done. by rewrite (proj2 (Z.eqb_neq _ _) Hxe).
Qed.

Lemma list_add_tail_spec s es o :
  segs_ok s → dll s es → off_ok s o → o ∉ list_head_offset s :: es →
  wp (shm_list_add_tail o) (λ _ s', frame_list s s' ∧ dll s' (es ++ [o])) s.
Proof.
  intros Hs Hd Ho Hnew. unfold shm_list_add_tail. wp_simpl.
  apply wp_list_ptr; [done|right; split; [set_solver|done]|]. wp_simpl.
  apply wp_of_option. eexists. split; [done|].
  eapply (wp_add_to_tail s Hs s es); eauto using frame_list_refl.
Qed.

Lemma list_move_tail_spec s l1 e l2 :
  segs_ok s → dll s (l1 ++ e :: l2) →
  wp (shm_list_move_tail e) (λ _ s', frame_list s s' ∧ dll s' (l1 ++ l2 ++ [e])) s.
Proof.
  intros Hs Hd. pose proof (dll_not_in _ _ _ _ Hd) as Hni.
  assert (node_ok s e) as Hoe by (apply (dll_node_ok _ _ Hd); set_solver).
  assert (off_ok s e) as Ho.
  { eapply (proj1 (Forall_forall _ _) (dll_ok _ _ Hd)). set_solver. }
  unfold shm_list_move_tail. wp_simpl. apply wp_list_ptr; [done..|]. wp_simpl.
  apply wp_of_option. eexists. split; [done|].
  apply (wp_unlink s Hs l1 e l2); [done|]. intros s1 F1 D1.
  eapply (wp_add_to_tail s Hs); [done..|]. intros s2 F2 D2. by rewrite <-app_assoc in D2.
Qed.

Lemma list_first_spec s es :
  dll s es → wp shm_list_first (λ r s', s' = s ∧ r = List.hd (-1) es) s.
Proof.
  intros Hd. destruct (dll_head_links _ _ Hd) as [Hn _]. unfold shm_list_first, load_node. wp_simpl.
  unfold nx, node in Hn. rewrite Z.eqb_refl in Hn. rewrite Hn.
  destruct es as [|x es]; cbn [List.hd]; [by rewrite Z.eqb_refl; wp_simpl|].
  rewrite (proj2 (Z.eqb_neq _ _)); [by wp_simpl|].
  pose proof (dll_nodup _ _ Hd) as [Hh _]%NoDup_cons. set_solver.
Qed.

Lemma list_next_spec s l1 e l2 :
  segs_ok s → dll s (l1 ++ e :: l2) →
  wp (shm_list_next e) (λ r s', s' = s ∧ r = List.hd (-1) l2) s.
Proof.
  intros Hs Hd. destruct (dll_links _ _ _ _ Hd) as [Hne _].
  assert (node_ok s e) as Hoe by (apply (dll_node_ok _ _ Hd); set_solver).
  unfold shm_list_next. wp_simpl. apply wp_list_ptr; [done..|]. wp_simpl.
  apply wp_of_option. eexists. split; [done|]. wp_simpl. apply wp_load_node; [done..|].
  fold (nx s e). rewrite Hne.
  destruct l2 as [|x l2]; cbn [List.hd]; [by rewrite Z.eqb_refl; wp_simpl|].
  rewrite (proj2 (Z.eqb_neq _ _)); [by wp_simpl|].
  pose proof (dll_nodup _ _ Hd) as [Hh _]%NoDup_cons. set_solver.
Qed.

Lemma list_init_spec s :
  wp shm_list_init (λ _ s', frame_list s s' ∧ dll s' []) s.
Proof.
  unfold shm_list_init. wp_simpl. split.
  - exists (Shm_list (list_head_offset s) (list_head_offset s)), (hentries s). split; [|done].
    by destruct s as [????[?????????[]]??????????????].
  - split_and!; cbn; [| |apply NoDup_singleton|done]; unfold nx, pv, node; cbn; by rewrite Z.eqb_refl.
Qed.

Lemma list_count_loop_spec s l1 l2 fuel n :
  segs_ok s → dll s (l1 ++ l2) → (length l2 < fuel)%nat →
  wp (list_count_loop fuel (List.hd (list_head_offset s) l2) n)
    (λ r s', s' = s ∧ r = n + Z.of_nat (length l2)) s.
Proof.
  revert l1 fuel n. induction l2 as [|e l2 IH]; intros l1 fuel n Hs Hd Hf;
    (destruct fuel as [|fuel]; [simpl in Hf; lia|]); cbn [list_count_loop List.hd length]; wp_simpl.
  { rewrite Z.eqb_refl. wp_simpl. split; [done|]. simpl. lia. }
  destruct (dll_links _ _ _ _ Hd) as [Hne _].
  assert (node_ok s e) as Hoe by (apply (dll_node_ok _ _ Hd); set_solver).
  rewrite (proj2 (Z.eqb_neq _ _)).
  2: { pose proof (dll_nodup _ _ Hd) as [Hh _]%NoDup_cons. set_solver. }
  wp_simpl. apply wp_list_ptr; [done..|]. wp_simpl.
  apply wp_of_option. eexists. split; [done|]. wp_simpl. apply wp_load_node; [done..|].
  fold (nx s e). rewrite Hne. eapply wp_mono.
  - apply (IH (l1 ++ [e])); [done|by rewrite <-app_assoc|simpl in Hf; lia].
  - intros r s' [-> ->]. split; [done|]. lia.
Qed.
End operations.

(** ** Properties *)
Section properties.
Context `{E : Env}.

Inductive list_op :=
| Add_tail (o : Z)
| Delete (o : Z)
| Move_tail (o : Z).
Definition run_list_op (op : list_op) : cmd unit :=
  match op with
  | Add_tail o => shm_list_add_tail o
  | Delete o => shm_list_delete o
  | Move_tail o => shm_list_move_tail o
  end.
Fixpoint run_list (ops : list list_op) : cmd unit :=
  match ops with
  | [] => mret tt
  | op :: ops => run_list_op op;; run_list ops
  end.
(** the operation on the sequence of offsets *)
Definition list_step (op : list_op) (es : list Z) : list Z :=
  match op with
  | Add_tail o => es ++ [o]
  | Delete o => filter (λ x, x ≠ o) es
  | Move_tail o => filter (λ x, x ≠ o) es ++ [o]
  end.
(** only new entries are added, only members are deleted and moved *)
Fixpoint list_valid (s : shmcache_context) (ops : list list_op) (es : list Z) : Prop :=
  match ops with
  | [] => True
  | op :: ops =>
    match op with
    | Add_tail o => off_ok s o ∧ o ∉ list_head_offset s :: es
    | Delete o | Move_tail o => o ∈ es
    end ∧ list_valid s ops (list_step op es)
  end.

Lemma filter_ne_middle (l1 l2 : list Z) o :
  NoDup (l1 ++ o :: l2) → filter (λ x, x ≠ o) (l1 ++ o :: l2) = l1 ++ l2.
Proof.
  intros (_&Hn1&Hn2)%NoDup_app. apply NoDup_cons in Hn2 as [Hn2 _].
  rewrite filter_app, filter_cons_False by auto. f_equal; apply filter_all;
    intros x Hx ->; [apply (Hn1 o Hx); left|done].
Qed.
Lemma frame_list_valid s s' ops es : frame_list s s' → list_valid s ops es → list_valid s' ops es.
Proof.
  intros (hd&en&->&_). revert es. induction ops as [|op ops IH]; intros es; [done|].
  intros [H1 H2]. split; [|by apply IH]. by destruct op.
Qed.
Lemma frame_list_segs s s' : frame_list s s' → segs_ok s → segs_ok s'.
Proof. by intros (hd&en&->&_). Qed.

Lemma list_op_spec s op es :
  segs_ok s → dll s es → list_valid s [op] es →
  wp (run_list_op op) (λ _ s', frame_list s s' ∧ dll s' (list_step op es)) s.
Proof.
  intros Hs Hd [Hv _]. destruct op as [o|o|o]; cbn [run_list_op list_step].
  - destruct Hv. by apply list_add_tail_spec.
  - apply list_elem_of_split in Hv as (l1&l2&->).
    rewrite filter_ne_middle by (by apply dll_nodup, NoDup_cons in Hd as [_ ?]).
    by apply list_delete_spec.
  - apply list_elem_of_split in Hv as (l1&l2&->).
    rewrite filter_ne_middle, <-app_assoc by (by apply dll_nodup, NoDup_cons in Hd as [_ ?]).
    by apply list_move_tail_spec.
Qed.

(** C27: the recycle list, links by offset in shared memory, refines a sequence:
    any series of [shm_list_add_tail], [shm_list_delete] and
    [shm_list_move_tail] calls keeps it a well-formed circular doubly linked
    list whose entries are, in order, those of the sequence on which the same
    series of operations was done; nothing but links changes. *)
Theorem list_refines_sequence s es ops :
  segs_ok s → dll s es → list_valid s ops es →
  wp (run_list ops) (λ _ s', frame_list s s' ∧ dll s' (foldl (λ es op, list_step op es) es ops)) s.
Proof.
  revert s es. induction ops as [|op ops IH]; intros s es Hs Hd Hv; cbn [run_list].
  { wp_simpl. split; [apply frame_list_refl|done]. }
  destruct Hv as [Hv1 Hv2]. wp_simpl. eapply wp_mono; [by apply list_op_spec|].
  intros _ s1 [Hf1 Hd1]. eapply wp_mono.
  { apply (IH s1 (list_step op es)); [by eapply frame_list_segs|done|by eapply frame_list_valid]. }
  intros _ s2 [Hf2 Hd2]. split; [by eapply frame_list_trans|done].
Qed.

(** [shm_list_count] and the client loop over [shm_list_first] and
    [shm_list_next] terminate: the count is the length of the list, and the
    loop visits its entries in order, up to the -1 that ends it. *)
Theorem list_count_correct s es :
  segs_ok s → dll s es → Z.of_nat (length es) ≤ ht_count (hashtable (memory s)) →
  wp shm_list_count (λ r s', s' = s ∧ r = Z.of_nat (length es)) s ∧
  wp shm_list_first (λ r s', s' = s ∧ r = List.hd (-1) es) s ∧
  ∀ l1 e l2, es = l1 ++ e :: l2 →
    wp (shm_list_next e) (λ r s', s' = s ∧ r = List.hd (-1) l2) s.
Proof.
  intros Hs Hd Hc. split_and!; [|by apply list_first_spec|intros l1 e l2 ->; by eapply list_next_spec].
  unfold shm_list_count, load_node. wp_simpl. destruct (dll_head_links _ _ Hd) as [Hn _].
  unfold nx, node in Hn. rewrite Z.eqb_refl in Hn. rewrite Hn.
  eapply wp_mono; [apply (list_count_loop_spec s [] es); [done|done|lia]|].
  intros r s' [-> ->]. split; [done|lia].
Qed.
End properties.
