(* ===== verification/Invariant.v ===== *)
(** * The invariant of a mapped cache

    [inv s es]: the state [s] is a well-formed cache whose entries, in the
    order of the recycle list, have the offsets [es].  It is the conjunction
    of one predicate per data structure; every predicate is stated on
    projections of the state, so an update of another part keeps it by
    conversion. *)
From S2P Require Import Prelude Types ObjectPool Striping Shmopt HentryOffset ShmList.
Local Open Scope Z_scope.
Local Open Scope shm_scope.

(** ** Geometry: segments and stripings *)
(** stripings per segment *)
Definition stripings_per_segment (s : shmcache_context) : Z :=
  vsize (vm_segment (memory s)) / vsize (vm_striping (memory s)).
Definition current_stripings (s : shmcache_context) : Z := count_current (vm_striping (memory s)).

Definition geometry (s : shmcache_context) : Prop :=
  let seg := vm_segment (memory s) in let st := vm_striping (memory s) in
  (0 < vsize st ≤ vsize seg ∧ vsize seg < 2 ^ 31) ∧
  (0 ≤ count_current seg ≤ count_max seg ∧ count_max seg ≤ 256) ∧
  (count_max st = count_max seg * stripings_per_segment s ∧ count_max st ≤ 2 ^ 15 ∧
   count_current st = count_current seg * stripings_per_segment s) ∧
  (values_count s = count_current seg ∧ Z.of_nat (length (values_items s)) = count_max seg ∧
   segs_ok s) ∧
  (Z.of_nat (length (allocators s)) = count_max st ∧ 0 < allocators_offset s) ∧
  ∃ h, list_head_offset s = hentry_pack (-1) h.

(** ** Allocated entries *)
Definition hdr (s : shmcache_context) (o : Z) : shm_hash_entry := hentry_at s (hentry_addr o).
Definition mem_of (s : shmcache_context) (o : Z) : hentry_memory := he_memory (hdr s o).
Definition striping_of (s : shmcache_context) (o : Z) : Z := ssp_striping (mem_index (mem_of s o)).
Definition entry_block (s : shmcache_context) (o : Z) : Striping.block :=
  Striping.Block (mem_offset (mem_of s o)) (mem_size (mem_of s o)).
Definition blocks (s : shmcache_context) (os : list Z) (i : Z) : list Striping.block :=
  entry_block s <$> filter (λ o, striping_of s o = i) os.

(** the header at [o] says where it is *)
Definition placed (s : shmcache_context) (o : Z) : Prop :=
  o = offset_of_addr (hentry_addr o) ∧
  ssp_segment (mem_index (mem_of s o)) = (hentry_addr o).1 ∧
  mem_offset (mem_of s o) = (hentry_addr o).2 ∧
  0 ≤ striping_of s o < current_stripings s ∧
  (hentry_addr o).1 = striping_of s o / stripings_per_segment s ∧
  sizeof_shm_hash_entry ≤ mem_size (mem_of s o).

(** the allocator of striping [i] covers its part of its segment and owns
    exactly the blocks of the entries in it *)
Definition allocator_ok (s : shmcache_context) (os : list Z) (i : Z)
    (a : shm_striping_allocator) : Prop :=
  al_index a = Ssp (i / stripings_per_segment s) i ∧
  offset_base a = (i mod stripings_per_segment s) * vsize (vm_striping (memory s)) ∧
  offset_end a = offset_base a + vsize (vm_striping (memory s)) ∧
  Striping.owns a (blocks s os i).

Definition sum_by (f : Z → Z) (os : list Z) : Z := foldr (λ o n, f o + n) 0 os.

Definition alloc_inv (s : shmcache_context) (os : list Z) : Prop :=
  NoDup os ∧ Forall (placed s) os ∧
  (∀ i, 0 ≤ i < current_stripings s →
     ∃ a, znth (allocators s) i = Some a ∧ allocator_ok s os i a) ∧
  used_entry (usage (memory s)) = sum_by (λ o, mem_size (mem_of s o)) os.

(** ** The two queues of allocators *)
Definition pool_flag (s : shmcache_context) (i flag : Z) : Prop :=
  ∃ a, znth (allocators s) i = Some a ∧ in_which_pool a = flag.
(** [x] is the offset of an allocator in use with the flag *)
Definition pool_member (s : shmcache_context) (flag x : Z) : Prop :=
  ∃ i, 0 ≤ i < current_stripings s ∧ x = allocator_offset_of s i ∧ pool_flag s i flag.

Definition queue_ok (s : shmcache_context) (flag : Z) (op : shmcache_object_pool_context) : Prop :=
  Pool.wf op ∧ capacity (queue (obj_pool_info op)) = count_max (vm_striping (memory s)) + 1 ∧
  NoDup (Pool.contents op) ∧ Forall (pool_member s flag) (Pool.contents op).

Definition pool_inv (s : shmcache_context) : Prop :=
  queue_ok s SHMCACHE_STRIPING_ALLOCATOR_POOL_DOING (doing s) ∧
  queue_ok s SHMCACHE_STRIPING_ALLOCATOR_POOL_DONE (done_pool s) ∧
  ∀ i, 0 ≤ i < current_stripings s →
    pool_flag s i SHMCACHE_STRIPING_ALLOCATOR_POOL_DOING ∨
    (pool_flag s i SHMCACHE_STRIPING_ALLOCATOR_POOL_DONE ∧
     allocator_offset_of s i ∈ Pool.contents (done_pool s)).

(** ** The table *)
Section table.
Context `{E : Env}.

(** key, value and complete record of the entry at [o] *)
Definition key_of (s : shmcache_context) (o : Z) : list ascii :=
  read_bytes (payload s) (key_ptr (hentry_addr o)) (Z.to_nat (key_len (hdr s o))).
Definition value_ptr (s : shmcache_context) (o : Z) : hptr :=
  ((hentry_addr o).1, (hentry_addr o).2 + sizeof_shm_hash_entry + MEM_ALIGN (key_len (hdr s o))).
Definition value_of (s : shmcache_context) (o : Z) : list ascii :=
  read_bytes (payload s) (value_ptr s o) (Z.to_nat (value_length (he_value (hdr s o)))).
Definition record_of (s : shmcache_context) (o : Z) : shmcache_hash_entry :=
  Hash_entry (Key_info (key_of s o) (key_len (hdr s o)))
    (Value_info (value_of s o) (value_length (he_value (hdr s o)))
       (value_options (he_value (hdr s o))) (expires (hdr s o))).

Definition entry_size (key_len value_len : Z) : Z :=
  sizeof_shm_hash_entry + MEM_ALIGN key_len + MEM_ALIGN value_len.
Definition entry_ok (s : shmcache_context) (o : Z) : Prop :=
  0 ≤ key_len (hdr s o) ≤ SHMCACHE_MAX_KEY_SIZE ∧ 0 ≤ value_length (he_value (hdr s o)) ∧
  mem_size (mem_of s o) = entry_size (key_len (hdr s o)) (value_length (he_value (hdr s o))).

(** a chain of entries from a bucket, closed by 0 *)
Definition hnext (s : shmcache_context) (o : Z) : Z := ht_next (hdr s o).
Fixpoint chain (nxt : Z → Z) (start : Z) (c : list Z) : Prop :=
  match c with
  | [] => start = 0
  | o :: c => start = o ∧ chain nxt (nxt o) c
  end.
Definition bucket_of (s : shmcache_context) (k : list ascii) : Z :=
  to_uint (hash_func (config s) k) mod ht_capacity (hashtable (memory s)).

Definition buckets_ok (s : shmcache_context) (es : list Z) : Prop :=
  0 < ht_capacity (hashtable (memory s)) < 2 ^ 31 ∧
  Z.of_nat (length (buckets (hashtable (memory s)))) = ht_capacity (hashtable (memory s)) ∧
  ∀ b, 0 ≤ b < ht_capacity (hashtable (memory s)) → ∃ start c,
    znth (buckets (hashtable (memory s))) b = Some start ∧ chain (hnext s) start c ∧
    c ≡ₚ filter (λ o, bucket_of s (key_of s o) = b) es.

Definition counters_ok (s : shmcache_context) (es : list Z) : Prop :=
  ht_count (hashtable (memory s)) = Z.of_nat (length es) ∧
  used_key (usage (memory s)) = sum_by (λ o, key_len (hdr s o)) es ∧
  used_value (usage (memory s)) = sum_by (λ o, value_length (he_value (hdr s o))) es.

Definition table (s : shmcache_context) (es : list Z) : Prop :=
  Forall (entry_ok s) es ∧ NoDup (key_of s <$> es) ∧ buckets_ok s es ∧ counters_ok s es.

Definition inv (s : shmcache_context) (es : list Z) : Prop :=
  geometry s ∧ pool_inv s ∧ alloc_inv s es ∧ dll s es ∧ table s es.
(** between allocation and insertion: [o] is allocated but not in the table *)
Definition inv_with (s : shmcache_context) (o : Z) (es : list Z) : Prop :=
  geometry s ∧ pool_inv s ∧ alloc_inv s (o :: es) ∧ dll s es ∧ table s es.
End table.

(** ** Consequences of the geometry *)
Lemma stripings_pos s : geometry s → 0 < stripings_per_segment s ∧
  stripings_per_segment s * vsize (vm_striping (memory s)) ≤ vsize (vm_segment (memory s)).
Proof.
  intros ([Hv _]&_). unfold stripings_per_segment. split; [apply Z.div_str_pos; lia|].
  rewrite Z.mul_comm. apply Z.mul_div_le. lia.
Qed.
Lemma geometry_current s : geometry s →
  0 ≤ current_stripings s ≤ count_max (vm_striping (memory s)).
Proof.
  intros Hg. destruct (stripings_pos s Hg). destruct Hg as (_&?&(?&?&?)&_).
  unfold current_stripings. nia.
Qed.
Lemma geometry_allocators s i : geometry s → 0 ≤ i < current_stripings s →
  0 ≤ i < Z.of_nat (length (allocators s)).
Proof. intros Hg Hi. pose proof (geometry_current s Hg). destruct Hg as (_&_&_&_&[-> _]&_). lia. Qed.
Lemma geometry_segs s : geometry s → segs_ok s.
Proof. by intros (_&_&_&(_&_&?)&_). Qed.
Lemma geometry_segment_of s i : geometry s → 0 ≤ i < current_stripings s →
  0 ≤ i / stripings_per_segment s < values_count s ∧ i / stripings_per_segment s < 256.
Proof.
  intros Hg Hi. destruct (stripings_pos s Hg) as [Hn _].
  destruct Hg as (_&?&(_&_&Hc)&(->&_)&_). unfold current_stripings in Hi. rewrite Hc in Hi.
  assert (0 ≤ i / stripings_per_segment s) by (apply Z.div_pos; lia).
  assert (i / stripings_per_segment s < count_current (vm_segment (memory s)))
    by (apply Z.div_lt_upper_bound; lia).
  lia.
Qed.
(** the part of a segment that belongs to striping [i] *)
Lemma geometry_base s i : geometry s → 0 ≤ i →
  0 ≤ (i mod stripings_per_segment s) * vsize (vm_striping (memory s)) ∧
  (i mod stripings_per_segment s) * vsize (vm_striping (memory s))
    + vsize (vm_striping (memory s)) ≤ vsize (vm_segment (memory s)).
Proof.
  intros Hg Hi. destruct (stripings_pos s Hg) as [Hn Hle].
  pose proof (Z.mod_pos_bound i _ Hn). destruct Hg as ([Hv _]&_). nia.
Qed.

(** ** Sums and permutations *)
Lemma sum_by_app f l1 l2 : sum_by f (l1 ++ l2) = sum_by f l1 + sum_by f l2.
Proof. induction l1; simpl; lia. Qed.
Lemma sum_by_perm f l1 l2 : l1 ≡ₚ l2 → sum_by f l1 = sum_by f l2.
Proof. induction 1; simpl; lia. Qed.
Lemma sum_by_ext f g l : (∀ o, o ∈ l → f o = g o) → sum_by f l = sum_by g l.
Proof. induction l as [|x l IH]; intros H; simpl; [done|]. rewrite H, IH; set_solver. Qed.

Lemma owns_perm al bs bs' : bs ≡ₚ bs' → Striping.owns al bs → Striping.owns al bs'.
Proof.
  intros Hp [Hr Hu Hi Hn Hd]. split; [done| |intros b; rewrite <-Hp; auto|by rewrite <-Hp|].
  - rewrite Hu. unfold Striping.sum_sizes. clear -Hp. induction Hp; simpl; lia.
  - intros b c. rewrite <-Hp. auto.
Qed.
Lemma blocks_perm s os os' i : os ≡ₚ os' → blocks s os i ≡ₚ blocks s os' i.
Proof. intros Hp. unfold blocks. by rewrite Hp. Qed.
Lemma allocator_ok_perm s os os' i a :
  os ≡ₚ os' → allocator_ok s os i a → allocator_ok s os' i a.
Proof.
  intros Hp (?&?&?&Ho). split_and!; [done..|]. eapply owns_perm; [by apply blocks_perm|done].
Qed.
Lemma alloc_inv_perm s os os' : os ≡ₚ os' → alloc_inv s os → alloc_inv s os'.
Proof.
  intros Hp (Hn&Hpl&Ha&Hu). split_and!; [by rewrite <-Hp|by rewrite <-Hp| |].
  - intros i Hi. destruct (Ha i Hi) as (a&?&?). exists a. eauto using allocator_ok_perm.
  - rewrite Hu. by apply sum_by_perm.
Qed.

(** ** Memory safety: every allocated entry is inside its segment, and no two
    overlap *)
Lemma alloc_inv_block s os o :
  alloc_inv s os → o ∈ os → ∃ a, znth (allocators s) (striping_of s o) = Some a ∧
    allocator_ok s os (striping_of s o) a ∧ entry_block s o ∈ blocks s os (striping_of s o).
Proof.
  intros (_&Hp&Ha&_) Ho. apply (proj1 (Forall_forall _ _) Hp) in Ho as Hpo.
  destruct Hpo as (_&_&_&Hi&_). destruct (Ha _ Hi) as (a&Hz&Hok). exists a. split_and!; [done..|].
  unfold blocks. apply list_elem_of_fmap. exists o. split; [done|]. by apply list_elem_of_filter.
Qed.

Lemma alloc_inv_place s os o :
  geometry s → alloc_inv s os → o ∈ os →
  off_ok s o ∧ place_ok s (hentry_addr o) (mem_size (mem_of s o)) ∧
  sizeof_shm_hash_entry ≤ mem_size (mem_of s o).
Proof.
  intros Hg Hal Ho. destruct (alloc_inv_block _ _ _ Hal Ho) as (a&Hz&(Hix&Hb&He&Hown)&Hin).
  destruct Hal as (_&Hp&_&_). apply (proj1 (Forall_forall _ _) Hp) in Ho.
  destruct Ho as (Hoff&Hseg&Hmo&Hi&Hdiv&Hsz).
  destruct (Striping.owns_in _ _ Hown _ Hin) as (Hpos&Hlo&Hhi). cbn in *.
  pose proof (Striping.owns_range _ _ Hown) as Hr.
  destruct (geometry_base s (striping_of s o) Hg ltac:(lia)).
  destruct (geometry_segment_of s (striping_of s o) Hg Hi).
  assert (place_ok s (hentry_addr o) (mem_size (mem_of s o))) as Hpl.
  { unfold place_ok. rewrite <-Hmo, Hdiv. lia. }
  split_and!; [|done|done]. split; [done|]. destruct Hpl as (?&?&?&?).
  destruct Hg as ([_ ?]&_). unfold place_ok. unfold sizeof_shm_hash_entry in *. lia.
Qed.

Lemma alloc_inv_disjoint s os o1 o2 :
  geometry s → alloc_inv s os → o1 ∈ os → o2 ∈ os → o1 ≠ o2 →
  bytes_disjoint (hentry_addr o1) (mem_size (mem_of s o1))
                 (hentry_addr o2) (mem_size (mem_of s o2)).
Proof.
  intros Hg Hal H1 H2 Hne. unfold bytes_disjoint.
  destruct (decide ((hentry_addr o1).1 = (hentry_addr o2).1)) as [Hsg|]; [right|by left].
  destruct (alloc_inv_block _ _ _ Hal H1) as (a1&Hz1&(_&Hb1&He1&Hown1)&Hin1).
  destruct (alloc_inv_block _ _ _ Hal H2) as (a2&Hz2&(_&Hb2&He2&Hown2)&Hin2).
  destruct Hal as (_&Hp&_&_). rewrite Forall_forall in Hp.
  destruct (Hp _ H1) as (Ho1&_&Hm1&Hi1&Hd1&_), (Hp _ H2) as (Ho2&_&Hm2&Hi2&Hd2&_).
  destruct (decide (striping_of s o1 = striping_of s o2)) as [Heq|Hst].
  - rewrite Heq in *. simplify_eq. rewrite <-Hm1, <-Hm2.
    apply (Striping.owns_disjoint _ _ Hown1 _ _ Hin1 Hin2).
    intros [= Hoff _]. apply Hne. rewrite Ho1, Ho2. f_equal. apply injective_projections; congruence.
  - destruct (Striping.owns_in _ _ Hown1 _ Hin1) as (_&?&?).
    destruct (Striping.owns_in _ _ Hown2 _ Hin2) as (_&?&?). cbn in *.
    pose proof (Striping.owns_range _ _ Hown1). pose proof (Striping.owns_range _ _ Hown2).
    rewrite Hd1, Hd2 in Hsg. destruct (stripings_pos s Hg) as [Hn _].
    pose proof (Z.div_mod (striping_of s o1) (stripings_per_segment s)).
    pose proof (Z.div_mod (striping_of s o2) (stripings_per_segment s)).
    destruct Hg as ([Hv _]&_).
    set (m1 := striping_of s o1 mod stripings_per_segment s) in *.
    set (m2 := striping_of s o2 mod stripings_per_segment s) in *.
    assert (m1 ≠ m2) by (intros ?; lia). rewrite <-Hm1, <-Hm2.
    assert (m1 + 1 ≤ m2 ∨ m2 + 1 ≤ m1) as [|] by lia; nia.
Qed.

(** ** What the predicates depend on *)
Lemma blocks_ext s s' os i :
  (∀ o, o ∈ os → mem_of s' o = mem_of s o) → blocks s' os i = blocks s os i.
Proof.
  unfold blocks. induction os as [|o os IH]; intros H; [done|]. unfold striping_of.
  rewrite !filter_cons, !H by left. fold (striping_of s o).
  assert (blocks s' os i = blocks s os i) as Hb by (apply IH; set_solver).
  unfold blocks, striping_of in Hb. case_decide; cbn; rewrite Hb; [|done].
  f_equal. unfold entry_block. by rewrite H by left.
Qed.

Lemma alloc_inv_frame s s' os :
  vm_segment (memory s') = vm_segment (memory s) →
  vm_striping (memory s') = vm_striping (memory s) →
  allocators s' = allocators s → used_entry (usage (memory s')) = used_entry (usage (memory s)) →
  (∀ o, o ∈ os → mem_of s' o = mem_of s o) → alloc_inv s os → alloc_inv s' os.
Proof.
  intros Hsg Hst Hal Hu Hm (Hn&Hp&Ha&Hus).
  assert (stripings_per_segment s' = stripings_per_segment s) as Hps
    by (unfold stripings_per_segment; by rewrite Hsg, Hst).
  assert (current_stripings s' = current_stripings s) as Hcs
    by (unfold current_stripings; by rewrite Hst).
  split_and!; [done| | |].
  - rewrite Forall_forall in *. intros o Ho. destruct (Hp o Ho) as (?&?&?&?&?&?).
    unfold placed, striping_of in *. rewrite Hm, Hps, Hcs by done. done.
  - rewrite Hcs, Hal. intros i Hi. destruct (Ha i Hi) as (a&?&?&?&?&?). exists a. split; [done|].
    unfold allocator_ok. rewrite Hps, Hst, (blocks_ext s s') by done. done.
  - rewrite Hu, Hus. apply sum_by_ext. intros o Ho. by rewrite Hm.
Qed.

Section agree.
Context `{E : Env}.

(** the entry at [o] is the same in both states, its links apart *)
Definition nolinks (e : shm_hash_entry) : shm_hash_entry :=
  e <| he_list := Shm_list 0 0 |> <| ht_next := 0 |>.
Definition agree (s s' : shmcache_context) (o : Z) : Prop :=
  nolinks (hdr s' o) = nolinks (hdr s o) ∧ key_of s' o = key_of s o ∧ value_of s' o = value_of s o.

Lemma agree_refl s o : agree s s o.
Proof. done. Qed.
Lemma agree_trans s1 s2 s3 o : agree s1 s2 o → agree s2 s3 o → agree s1 s3 o.
Proof. intros (?&?&?) (?&?&?). split_and!; congruence. Qed.
Lemma nolinks_fields (e e' : shm_hash_entry) : nolinks e' = nolinks e →
  key_len e' = key_len e ∧ expires e' = expires e ∧ he_value e' = he_value e ∧
  he_memory e' = he_memory e.
Proof. destruct e, e'. unfold nolinks. cbn. intros [= -> -> -> ->]. done. Qed.
Lemma agree_fields s s' o : agree s s' o →
  key_len (hdr s' o) = key_len (hdr s o) ∧ expires (hdr s' o) = expires (hdr s o) ∧
  he_value (hdr s' o) = he_value (hdr s o) ∧ mem_of s' o = mem_of s o.
Proof. intros (H&_). by apply nolinks_fields in H. Qed.
(** a state whose bytes are the same *)
Lemma agree_hdr s s' o : payload s' = payload s → nolinks (hdr s' o) = nolinks (hdr s o) → agree s s' o.
Proof.
  intros Hp Hn. destruct (nolinks_fields _ _ Hn) as (Hk&_&Hv&_).
  split_and!; [done| |]; unfold key_of, value_of, value_ptr; by rewrite ?Hk, ?Hv, Hp.
Qed.
Lemma agree_record s s' o : agree s s' o → record_of s' o = record_of s o.
Proof.
  intros H. destruct (agree_fields _ _ _ H) as (H1&H2&H3&_). destruct H as (_&Hk&Hv).
  unfold record_of. by rewrite H1, H2, H3, Hk, Hv.
Qed.

Lemma frame_list_hdr s s' o : frame_list s s' → nolist (hdr s' o) = nolist (hdr s o).
Proof. intros (hd&en&->&H). exact (H (hentry_addr o)). Qed.
Lemma frame_list_agree s s' o : frame_list s s' → agree s s' o.
Proof.
  intros Hf. apply agree_hdr; [by destruct Hf as (hd&en&->&_)|].
  exact (f_equal (λ e, e <| ht_next := 0 |>) (frame_list_hdr s s' o Hf)).
Qed.
Lemma frame_list_hnext s s' o : frame_list s s' → hnext s' o = hnext s o.
Proof. intros Hf. exact (f_equal ht_next (frame_list_hdr s s' o Hf)). Qed.

Lemma chain_ext nxt nxt' start c :
  (∀ o, o ∈ c → nxt' o = nxt o) → chain nxt start c → chain nxt' start c.
Proof.
  revert start. induction c as [|o c IH]; intros start H; [done|]. intros [-> Hc]. split; [done|].
  rewrite H by left. apply IH; [set_solver|done].
Qed.

(** what the table depends on: everything but times, options, values and links *)
Definition same_shape (s s' : shmcache_context) (o : Z) : Prop :=
  key_len (hdr s' o) = key_len (hdr s o) ∧
  value_length (he_value (hdr s' o)) = value_length (he_value (hdr s o)) ∧
  mem_of s' o = mem_of s o ∧ key_of s' o = key_of s o.
Lemma agree_shape s s' o : agree s s' o → same_shape s s' o.
Proof.
  intros H. destruct (agree_fields _ _ _ H) as (?&_&Hv&?). destruct H as (_&?&_).
  split_and!; [done|by rewrite Hv|done|done].
Qed.

Lemma entries_ok_shape s s' es :
  (∀ o, o ∈ es → same_shape s s' o) → Forall (entry_ok s) es → Forall (entry_ok s') es.
Proof.
  rewrite !Forall_forall. intros H He o Ho. destruct (He o Ho) as (?&?&?).
  destruct (H o Ho) as (Hk&Hv&Hm&_). unfold entry_ok. by rewrite Hk, Hv, Hm.
Qed.
Lemma keys_shape s s' (es : list Z) :
  (∀ o, o ∈ es → same_shape s s' o) → key_of s' <$> es = key_of s <$> es.
Proof. intros H. apply list_fmap_ext. intros i o Ho%list_elem_of_lookup_2. by apply H. Qed.
Lemma records_ext s s' (es : list Z) :
  (∀ o, o ∈ es → agree s s' o) → record_of s' <$> es = record_of s <$> es.
Proof.
  intros H. apply list_fmap_ext. intros i o Ho%list_elem_of_lookup_2. by apply agree_record, H.
Qed.
Lemma filter_ext_in {A} (P Q : A → Prop) `{∀ x, Decision (P x), ∀ x, Decision (Q x)} (l : list A) :
  (∀ x, x ∈ l → P x ↔ Q x) → filter P l = filter Q l.
Proof.
  induction l as [|x l IH]; intros Hl; [done|]. rewrite !filter_cons.
  rewrite IH by set_solver. specialize (Hl x ltac:(left)). repeat case_decide; naive_solver.
Qed.
Lemma buckets_ok_shape s s' es :
  config s' = config s →
  ht_capacity (hashtable (memory s')) = ht_capacity (hashtable (memory s)) →
  buckets (hashtable (memory s')) = buckets (hashtable (memory s)) →
  (∀ o, o ∈ es → same_shape s s' o) → (∀ o, o ∈ es → hnext s' o = hnext s o) →
  buckets_ok s es → buckets_ok s' es.
Proof.
  intros Hcf Hcap Hb H Hnx (Hc&Hl&Hch). unfold buckets_ok. rewrite Hcap, Hb. do 2 (split; [done|]).
  intros b Hbr. destruct (Hch b Hbr) as (start&c&?&Hchain&Hp). exists start, c.
  assert (filter (λ o, bucket_of s' (key_of s' o) = b) es
          = filter (λ o, bucket_of s (key_of s o) = b) es) as Hfl.
  { apply filter_ext_in. intros o Ho. destruct (H o Ho) as (_&_&_&Hk). unfold bucket_of.
    by rewrite Hk, Hcf, Hcap. }
  split_and!; [done| |by rewrite Hfl].
  eapply chain_ext; [|exact Hchain]. intros o Ho. rewrite Hp in Ho.
  apply list_elem_of_filter in Ho as [_ Ho]. auto.
Qed.
Lemma counters_ok_shape s s' es :
  ht_count (hashtable (memory s')) = ht_count (hashtable (memory s)) →
  used_key (usage (memory s')) = used_key (usage (memory s)) →
  used_value (usage (memory s')) = used_value (usage (memory s)) →
  (∀ o, o ∈ es → same_shape s s' o) → counters_ok s es → counters_ok s' es.
Proof.
  intros Hc Hk Hv H (?&Hks&Hvs). unfold counters_ok. rewrite Hc, Hk, Hv, Hks, Hvs.
  split_and!; [done|..]; apply sum_by_ext; intros o Ho; by destruct (H o Ho) as (?&?&_).
Qed.
Lemma table_shape s s' es :
  config s' = config s →
  ht_capacity (hashtable (memory s')) = ht_capacity (hashtable (memory s)) →
  buckets (hashtable (memory s')) = buckets (hashtable (memory s)) →
  ht_count (hashtable (memory s')) = ht_count (hashtable (memory s)) →
  used_key (usage (memory s')) = used_key (usage (memory s)) →
  used_value (usage (memory s')) = used_value (usage (memory s)) →
  (∀ o, o ∈ es → same_shape s s' o) → (∀ o, o ∈ es → hnext s' o = hnext s o) →
  table s es → table s' es.
Proof.
  intros ???????? (?&?&?&?). split_and!;
    eauto using entries_ok_shape, buckets_ok_shape, counters_ok_shape. by rewrite (keys_shape s).
Qed.

Lemma entries_ok_ext s s' es :
  (∀ o, o ∈ es → agree s s' o) → Forall (entry_ok s) es → Forall (entry_ok s') es.
Proof. intros H. apply entries_ok_shape. auto using agree_shape. Qed.
Lemma keys_ext s s' (es : list Z) :
  (∀ o, o ∈ es → agree s s' o) → key_of s' <$> es = key_of s <$> es.
Proof. intros H. apply keys_shape. auto using agree_shape. Qed.
Lemma table_ext s s' es :
  config s' = config s →
  ht_capacity (hashtable (memory s')) = ht_capacity (hashtable (memory s)) →
  buckets (hashtable (memory s')) = buckets (hashtable (memory s)) →
  ht_count (hashtable (memory s')) = ht_count (hashtable (memory s)) →
  used_key (usage (memory s')) = used_key (usage (memory s)) →
  used_value (usage (memory s')) = used_value (usage (memory s)) →
  (∀ o, o ∈ es → agree s s' o) → (∀ o, o ∈ es → hnext s' o = hnext s o) →
  table s es → table s' es.
Proof. intros. eapply table_shape; eauto using agree_shape. Qed.
End agree.

(** a change of links keeps everything but the list *)
Section frame.
Context `{E : Env}.
Lemma frame_list_geometry s s' : frame_list s s' → geometry s → geometry s'.
Proof. by intros (hd&en&->&_). Qed.
Lemma frame_list_pool_inv s s' : frame_list s s' → pool_inv s → pool_inv s'.
Proof. by intros (hd&en&->&_). Qed.
Lemma frame_list_alloc_inv s s' os : frame_list s s' → alloc_inv s os → alloc_inv s' os.
Proof.
  intros Hf. apply alloc_inv_frame; [by destruct Hf as (hd&en&->&_)..|].
  intros o _. by apply (agree_fields s s' o), frame_list_agree.
Qed.
Lemma frame_list_table s s' es : frame_list s s' → table s es → table s' es.
Proof.
  intros Hf. apply table_ext; [by destruct Hf as (hd&en&->&_)..| |]; intros o _;
    [by apply frame_list_agree|by apply frame_list_hnext].
Qed.
End frame.

(** ** The queues of allocators *)
Lemma allocator_offset_inj s i j : allocator_offset_of s i = allocator_offset_of s j → i = j.
Proof. unfold allocator_offset_of, sizeof_shm_striping_allocator. lia. Qed.
Lemma allocator_offset_pos s i : geometry s → 0 ≤ i → 0 < allocator_offset_of s i.
Proof.
  intros (_&_&_&_&[_ ?]&_) ?. unfold allocator_offset_of, sizeof_shm_striping_allocator. lia.
Qed.
Lemma pool_member_pos s flag x : geometry s → pool_member s flag x → 0 < x.
Proof. intros Hg (i&Hi&->&_). apply allocator_offset_pos; [done|lia]. Qed.

Lemma pool_members_length s flag l :
  geometry s → NoDup l → Forall (pool_member s flag) l →
  Z.of_nat (length l) ≤ count_max (vm_striping (memory s)).
Proof.
  intros Hg Hnd Hall. destruct (geometry_current s Hg) as [? Hle].
  assert (l ⊆+ allocator_offset_of s <$> seqZ 0 (current_stripings s)) as Hsub.
  { apply NoDup_submseteq; [done|]. intros x Hx. apply (proj1 (Forall_forall _ _) Hall) in Hx.
    destruct Hx as (i&Hi&->&_). apply list_elem_of_fmap. exists i. split; [done|].
    apply elem_of_seqZ. lia. }
  apply submseteq_length in Hsub. rewrite length_fmap, length_seqZ in Hsub. lia.
Qed.

Lemma queue_ok_frame s s' flag op :
  vm_striping (memory s') = vm_striping (memory s) → allocators_offset s' = allocators_offset s →
  (∀ x i, 0 ≤ i < current_stripings s → x = allocator_offset_of s i → x ∈ Pool.contents op →
     pool_flag s i flag → pool_flag s' i flag) →
  queue_ok s flag op → queue_ok s' flag op.
Proof.
  intros Hst Hoff Hfl (?&Hc&?&Hm). split_and!; [done|by rewrite Hst|done|].
  rewrite Forall_forall in *. intros x Hx. destruct (Hm x Hx) as (i&Hi&->&Hf). exists i.
  unfold current_stripings, allocator_offset_of in *. rewrite Hst, Hoff. split_and!; eauto; lia.
Qed.

Lemma queue_ok_index s flag op i : queue_ok s flag op → queue_ok s flag (op <| index := i |>).
Proof. intros (?&?&?&?). split; [by apply Pool.wf_index|done]. Qed.

Lemma queue_push_spec s flag op x :
  geometry s → queue_ok s flag op → pool_member s flag x → x ∉ Pool.contents op →
  wp (Pool.shm_object_pool_push x) (λ r op', r = 0 ∧ queue_ok s flag op' ∧
    Pool.contents op' = Pool.contents op ++ [x] ∧ index op' = index op) op.
Proof.
  intros Hg (Hwf&Hcap&Hnd&Hm) Hx Hnew.
  assert (NoDup (Pool.contents op ++ [x])) as Hnd'.
  { apply NoDup_app. split_and!; [done| |apply NoDup_singleton].
    by intros y Hy ->%list_elem_of_singleton. }
  assert (Forall (pool_member s flag) (Pool.contents op ++ [x])) as Hm'
    by (apply Forall_app; split; [done|by constructor]).
  pose proof (pool_members_length s flag _ Hg Hnd' Hm') as Hlen.
  rewrite length_app, Pool.length_contents in Hlen by done. simpl in Hlen.
  eapply wp_mono; [by apply Pool.pool_free_spec|]. intros r op' (Hwf'&Hi&Hcap'&Hr).
  destruct (Z.eqb_spec (Pool.count op) (capacity (queue (obj_pool_info op)) - 1)) as [Heq|_].
  { pose proof (Pool.count_range op Hwf). lia. }
  destruct Hr as [-> Hc]. unfold queue_ok. rewrite Hcap', Hc. done.
Qed.

Lemma pool_flag_det s i f g : pool_flag s i f → pool_flag s i g → f = g.
Proof. intros (a&?&<-) (b&?&<-). by simplify_eq. Qed.

Section allocator_index.
Lemma wp_allocator_index_of s i (Q : Z → _ → Prop) :
  Q i s → wp (allocator_index_of (allocator_offset_of s i)) Q s.
Proof.
  intros HQ. eexists _, _. split; [|exact HQ]. unfold allocator_index_of, allocator_offset_of.
  replace (allocators_offset s + i * sizeof_shm_striping_allocator - allocators_offset s)
    with (i * sizeof_shm_striping_allocator) by lia.
  unfold sizeof_shm_striping_allocator. by rewrite Z_mod_mult, Z.div_mul by lia.
Qed.
End allocator_index.

(** ** More frames *)
Lemma dll_ext s s' es :
  list_head_offset s' = list_head_offset s →
  ht_head (hashtable (memory s')) = ht_head (hashtable (memory s)) →
  values_count s ≤ values_count s' →
  vsize (vm_segment (memory s')) = vsize (vm_segment (memory s)) →
  (∀ x, x ∈ es → he_list (hdr s' x) = he_list (hdr s x)) → dll s es → dll s' es.
Proof.
  intros Hh Hhd Hvc Hsg Hl (Hn&Hp&Hnd&Hok).
  assert (∀ x, x ∈ list_head_offset s :: es → node s' x = node s x) as Hnode.
  { intros x Hx. unfold node. rewrite Hh, Hhd. destruct (Z.eqb_spec x (list_head_offset s)); [done|].
    apply Hl. set_solver. }
  unfold dll. rewrite Hh. split_and!; [| |done|].
  - eapply path_ext; [|done]. intros x Hx. unfold nx. by rewrite Hnode.
  - eapply path_ext; [|done]. intros x Hx. unfold pv. rewrite Hnode; [done|].
    rewrite elem_of_cons, !list_elem_of_In, <-in_rev, <-list_elem_of_In in Hx. by apply elem_of_cons.
  - eapply Forall_impl; [exact Hok|]. intros x (?&(?&?&?&?)&?). unfold off_ok, place_ok. rewrite Hsg.
    split_and!; done || lia.
Qed.

(** only the entries, their allocators, the table and the usage counters change *)
Definition table_frame (s s' : shmcache_context) : Prop := ∃ al dg dn en u ht,
  s' = s <| allocators := al |> <| doing := dg |> <| done_pool := dn |> <| hentries := en |>
         <| memory; usage := u |> <| memory; hashtable := ht |> ∧
  ht_capacity ht = ht_capacity (hashtable (memory s)).
Lemma table_frame_refl s : table_frame s s.
Proof.
  exists (allocators s), (doing s), (done_pool s), (hentries s), (usage (memory s)),
    (hashtable (memory s)). split; [by destruct s as [????[]]|done].
Qed.
Lemma table_frame_trans s1 s2 s3 : table_frame s1 s2 → table_frame s2 s3 → table_frame s1 s3.
Proof.
  intros (?&?&?&?&?&?&->&Hc) (al&dg&dn&en&u&ht&->&Hc2). exists al, dg, dn, en, u, ht.
  split; [done|]. by rewrite Hc2.
Qed.
Lemma frame_list_table_frame s s' : frame_list s s' → table_frame s s'.
Proof.
  intros (hd&en&->&_). exists (allocators s), (doing s), (done_pool s), en, (usage (memory s)),
    ((hashtable (memory s)) <| ht_head := hd |>). split; [by destruct s as [????[]]|done].
Qed.

(** ** What can be read of an entry in the table *)
Section readable.
Context `{E : Env} `{L : !EnvLaws E}.

Definition readable (s : shmcache_context) (o : Z) : Prop :=
  off_ok s o ∧ 0 ≤ key_len (hdr s o) ∧ 0 ≤ value_length (he_value (hdr s o)) ∧
  place_ok s (key_ptr (hentry_addr o)) (key_len (hdr s o)) ∧
  place_ok s (value_ptr s o) (value_length (he_value (hdr s o))) ∧
  ssp_segment (mem_index (mem_of s o)) = (hentry_addr o).1 ∧
  mem_offset (mem_of s o) = (hentry_addr o).2.

Lemma alloc_inv_readable s os o :
  geometry s → alloc_inv s os → o ∈ os → entry_ok s o → readable s o.
Proof.
  intros Hg Hal Ho (Hk&Hv&Hsz). destruct (alloc_inv_place _ _ _ Hg Hal Ho) as (?&(?&?&?&?)&_).
  destruct Hal as (_&Hp&_). apply (proj1 (Forall_forall _ _) Hp) in Ho.
  destruct Ho as (_&?&?&_). pose proof (MEM_ALIGN_ge (key_len (hdr s o))).
  pose proof (MEM_ALIGN_ge (value_length (he_value (hdr s o)))).
  unfold readable, place_ok, key_ptr, value_ptr, entry_size, sizeof_shm_hash_entry in *. cbn.
  split_and!; done || lia.
Qed.
Lemma inv_readable s os es : geometry s → alloc_inv s os → table s es → es ⊆ os →
  Forall (readable s) es.
Proof.
  intros Hg Hal (He&_) Hsub. rewrite Forall_forall in *. intros o Ho.
  eapply alloc_inv_readable; [done|done|by apply Hsub|by apply He].
Qed.
End readable.

(** ** What no table operation touches *)
Definition same_cache (s s' : shmcache_context) : Prop :=
  pid s' = pid s ∧ config s' = config s ∧ g_schedule_flag s' = g_schedule_flag s ∧
  lock_fd s' = lock_fd s ∧ detect_deadlock_clocks s' = detect_deadlock_clocks s ∧
  ht_segment s' = ht_segment s ∧ lock_pid (memory s') = lock_pid (memory s) ∧
  status (memory s') = status (memory s) ∧
  mi_max_key_count (memory s') = mi_max_key_count (memory s) ∧
  ht_capacity (hashtable (memory s')) = ht_capacity (hashtable (memory s)) ∧
  vsize (vm_segment (memory s')) = vsize (vm_segment (memory s)) ∧
  count_max (vm_segment (memory s')) = count_max (vm_segment (memory s)) ∧
  vsize (vm_striping (memory s')) = vsize (vm_striping (memory s)) ∧
  count_max (vm_striping (memory s')) = count_max (vm_striping (memory s)) ∧
  mi_size (memory s') = mi_size (memory s) ∧
  allocators_offset s' = allocators_offset s ∧ list_head_offset s' = list_head_offset s ∧
  count_current (vm_segment (memory s)) ≤ count_current (vm_segment (memory s')).
#[export] Instance same_cache_preorder : PreOrder same_cache.
Proof.
  split; [done|]. unfold same_cache. intros s1 s2 s3 H1 H2. intuition (congruence || lia).
Qed.

Lemma table_frame_same_cache s s' : table_frame s s' → same_cache s s'.
Proof. by intros (?&?&?&?&?&?&->&?). Qed.

(** ** Room for new entries *)
(** the free bytes of every striping *)
Definition room (s : shmcache_context) (i : Z) : option Z :=
  Striping.shm_striping_allocator_free_size <$> znth (allocators s) i.
Definition same_room (s s' : shmcache_context) : Prop :=
  ∀ i, 0 ≤ i < current_stripings s → room s' i = room s i.
(** the striping that an element of a queue stands for has [size] bytes left *)
Definition fits (s : shmcache_context) (size x : Z) : Prop := ∃ i n,
  0 ≤ i < current_stripings s ∧ x = allocator_offset_of s i ∧ room s i = Some n ∧ size ≤ n.
(** some striping of the queue [doing] has *)
Definition has_room (s : shmcache_context) (size : Z) : Prop :=
  Exists (fits s size) (Pool.contents (doing s)).

(** queued stripings with room that are still queued and have room *)
Lemma has_room_ext s s' size :
  current_stripings s ≤ current_stripings s' → (∀ i, allocator_offset_of s' i = allocator_offset_of s i) →
  same_room s s' → (∀ x, x ∈ Pool.contents (doing s) → x ∈ Pool.contents (doing s')) →
  has_room s size → has_room s' size.
Proof.
  intros Hc Ho Hr Hd (x&Hx&i&n&Hi&->&Hn&Hle)%Exists_exists. apply Exists_exists.
  eexists. split; [by apply Hd|]. exists i, n. rewrite Ho, Hr by done. split_and!; done || lia.
Qed.

(** ** Isolation *)
Section isolation.
Context `{E : Env} `{L : !EnvLaws E}.

(** every entry - its header, key and value, with their alignment - lies inside
    a mapped value segment, its key and value inside the entry, and the bytes of
    different entries are disjoint *)
Definition isolated (s : shmcache_context) (es : list Z) : Prop :=
  (∀ o, o ∈ es →
     place_ok s (hentry_addr o) (mem_size (mem_of s o)) ∧
     mem_size (mem_of s o) = entry_size (key_len (hdr s o)) (value_length (he_value (hdr s o))) ∧
     place_ok s (key_ptr (hentry_addr o)) (key_len (hdr s o)) ∧
     place_ok s (value_ptr s o) (value_length (he_value (hdr s o)))) ∧
  ∀ o1 o2, o1 ∈ es → o2 ∈ es → o1 ≠ o2 →
    bytes_disjoint (hentry_addr o1) (mem_size (mem_of s o1)) (hentry_addr o2) (mem_size (mem_of s o2)).
Lemma inv_isolated s es : inv s es → isolated s es.
Proof.
  intros (Hg&_&Ha&_&Ht). pose proof (inv_readable s es es Hg Ha Ht ltac:(done)) as Hrd.
  rewrite Forall_forall in Hrd. split.
  - intros o Ho. destruct (Hrd o Ho) as (_&_&_&Hk&Hv&_). destruct Ht as (He&_). rewrite Forall_forall in He.
    split_and!; [by apply (alloc_inv_place s es o Hg Ha Ho)|by apply (He o Ho)|done|done].
  - intros o1 o2 H1 H2 Hne. by apply (alloc_inv_disjoint s es).
Qed.
End isolation.
