(* ===== verification/FieldWidths.v ===== *)
(** * The fields in shared memory fit their C types (src/shmcache_types.h)

    The model computes with unbounded integers.  In a well-formed cache the
    values of the fields below lie in the range of the type the header file
    gives them, and the bytes in use add up to no more than the segments have. *)
From S2P Require Import Prelude Types ObjectPool Striping Shmopt HentryOffset ShmList Invariant.
Local Open Scope Z_scope.
Local Open Scope shm_scope.

(** a value of a signed type of [w] bits *)
Definition signed (w z : Z) : Prop := - 2 ^ (w - 1) ≤ z < 2 ^ (w - 1).
Notation int_field := (signed 32).
Notation short_field := (signed 16).
Notation int64_field := (signed 64).

Ltac field_range := unfold signed; change (2 ^ (32 - 1)) with (2 ^ 31); change (2 ^ (16 - 1)) with (2 ^ 15);
  change (2 ^ (64 - 1)) with (2 ^ 63); change (2 ^ (48 - 1)) with (2 ^ 47).

(** struct shm_hash_entry, and the offset it is referred to by *)
Definition entry_fields (s : shmcache_context) (o : Z) : Prop :=
  (int64_field o ∧ short_field (hentry_index o) ∧ signed 48 (hentry_offset o)) ∧
  (int_field (key_len (hdr s o)) ∧ int_field (value_length (he_value (hdr s o)))) ∧
  (int_field (mem_size (mem_of s o)) ∧ short_field (ssp_segment (mem_index (mem_of s o))) ∧
   short_field (ssp_striping (mem_index (mem_of s o))) ∧ int64_field (mem_offset (mem_of s o))).
(** its links: the chain of its bucket and the recycle list *)
Definition link_fields (s : shmcache_context) (o : Z) : Prop :=
  int64_field (ht_next (hdr s o)) ∧ int64_field (list_prev (he_list (hdr s o))) ∧
  int64_field (list_next (he_list (hdr s o))).
(** struct shm_hashtable apart from the counts *)
Definition hashtable_fields (ht : shm_hashtable) : Prop :=
  int64_field (list_prev (ht_head ht)) ∧ int64_field (list_next (ht_head ht)) ∧
  Forall int64_field (buckets ht).
(** struct shm_striping_allocator *)
Definition allocator_fields (a : shm_striping_allocator) : Prop :=
  (short_field (ssp_segment (al_index a)) ∧ short_field (ssp_striping (al_index a)) ∧
   short_field (in_which_pool a)) ∧
  (int_field (size_used a) ∧ size_used a ≤ offset_free a - offset_base a) ∧
  int64_field (offset_base a) ∧ int64_field (offset_free a) ∧ int64_field (offset_end a).
(** struct shm_ring_queue *)
Definition queue_fields (q : shm_ring_queue) : Prop :=
  int_field (capacity q) ∧ int_field (head q) ∧ int_field (tail q).
(** the sizes and counts of struct shm_memory_info *)
Definition header_fields (m : shm_memory_info) : Prop :=
  (int64_field (vsize (vm_segment m)) ∧ int_field (count_current (vm_segment m)) ∧
   int_field (count_max (vm_segment m))) ∧
  (int64_field (vsize (vm_striping m)) ∧ int_field (count_current (vm_striping m)) ∧
   int_field (count_max (vm_striping m))) ∧
  (int_field (ht_capacity (hashtable m)) ∧ int_field (ht_count (hashtable m))) ∧
  (int64_field (used_entry (usage m)) ∧ int64_field (used_key (usage m)) ∧ int64_field (used_value (usage m))).

(** ** Disjoint blocks do not fill more than their range *)
Definition points (b : Striping.block) : list Z := seqZ (Striping.b_offset b) (Striping.b_size b).
Lemma sum_sizes_points bs : (∀ b, b ∈ bs → 0 < Striping.b_size b) →
  Z.of_nat (length (bs ≫= points)) = Striping.sum_sizes bs.
Proof.
  induction bs as [|b bs IH]; intros Hpos; [done|]. cbn [mbind list_bind Striping.sum_sizes foldr].
  rewrite length_app, Nat2Z.inj_add. change (list_bind _ _ points bs) with (bs ≫= points).
  rewrite IH by (intros; apply Hpos; by right).
  unfold points. rewrite length_seqZ. pose proof (Hpos b ltac:(left)).
  unfold Striping.sum_sizes. lia.
Qed.
Lemma points_nodup bs : NoDup bs →
  (∀ b c, b ∈ bs → c ∈ bs → b ≠ c → Striping.b_disjoint b c) → NoDup (bs ≫= points).
Proof.
  induction 1 as [|b bs Hb Hnd IH]; intros Hd; [constructor|]. cbn [mbind list_bind].
  change (list_bind _ _ points bs) with (bs ≫= points).
  apply NoDup_app. split; [apply NoDup_seqZ|]. split.
  - intros x Hx (c&Hxc&Hc)%list_elem_of_bind. unfold points in *. rewrite elem_of_seqZ in Hx, Hxc.
    destruct (Hd b c) as [|]; [left|by right|by intros ->|lia|lia].
  - apply IH. intros; apply Hd; [by right|by right|done].
Qed.
Lemma owns_sum al bs : Striping.owns al bs →
  0 ≤ Striping.sum_sizes bs ≤ offset_free al - offset_base al.
Proof.
  intros [Hr _ Hin Hnd Hdis]. rewrite <-sum_sizes_points by (intros b ?%Hin; lia). split; [lia|].
  assert ((bs ≫= points) ⊆+ seqZ (offset_base al) (offset_free al - offset_base al)) as Hsub.
  { apply NoDup_submseteq; [by apply points_nodup|]. intros x (b&Hx&Hb)%list_elem_of_bind.
    unfold points in Hx. apply elem_of_seqZ in Hx. apply elem_of_seqZ. destruct (Hin b Hb) as (?&?&?). lia. }
  apply submseteq_length in Hsub. rewrite length_seqZ in Hsub. lia.
Qed.

(** ** The bytes of all entries, striping by striping *)
Lemma sum_by_add f g l : sum_by (λ x, f x + g x) l = sum_by f l + sum_by g l.
Proof. induction l as [|x l IH]; simpl in *; lia. Qed.
Lemma sum_by_zero l : sum_by (λ _, 0) l = 0.
Proof. induction l as [|x l IH]; simpl in *; lia. Qed.
Lemma sum_by_one k v l : NoDup l → sum_by (λ i, if decide (k = i) then v else 0) l
  = if decide (k ∈ l) then v else 0.
Proof.
  induction 1 as [|i l Hi _ IH]; [done|]. simpl. rewrite IH.
  destruct (decide (k = i)) as [->|Hne].
  - rewrite decide_False by done. rewrite decide_True by left. lia.
  - destruct (decide (k ∈ l)); [rewrite decide_True by (by right)|rewrite decide_False by set_solver]; lia.
Qed.
Lemma sum_by_bound f l m : (∀ x, x ∈ l → f x ≤ m) → sum_by f l ≤ m * Z.of_nat (length l).
Proof.
  induction l as [|x l IH]; intros Hf; [simpl; lia|]. cbn [length].
  pose proof (Hf x ltac:(left)). assert (sum_by f l ≤ m * Z.of_nat (length l)) by (apply IH; intros; apply Hf; by right).
  simpl in *. lia.
Qed.
Lemma sum_by_mono f g l : (∀ x, x ∈ l → f x ≤ g x) → sum_by f l ≤ sum_by g l.
Proof.
  induction l as [|x l IH]; intros Hf; [done|].
  pose proof (Hf x ltac:(left)). assert (sum_by f l ≤ sum_by g l) by (apply IH; intros; apply Hf; by right).
  simpl in *. lia.
Qed.
Lemma sum_by_nonneg f l : (∀ x, x ∈ l → 0 ≤ f x) → 0 ≤ sum_by f l.
Proof. intros H. rewrite <-(sum_by_zero l). by apply sum_by_mono. Qed.

Lemma blocks_partition s os n : (∀ o, o ∈ os → 0 ≤ striping_of s o < n) →
  sum_by (λ o, mem_size (mem_of s o)) os = sum_by (λ i, Striping.sum_sizes (blocks s os i)) (seqZ 0 n).
Proof.
  induction os as [|o os IH]; intros Hr; [simpl; by rewrite sum_by_zero|].
  change (sum_by ?f (o :: os)) with (f o + sum_by f os). rewrite IH by (intros; apply Hr; by right).
  rewrite (sum_by_ext (λ i, Striping.sum_sizes (blocks s (o :: os) i))
    (λ i, (if decide (striping_of s o = i) then mem_size (mem_of s o) else 0)
          + Striping.sum_sizes (blocks s os i))).
  - rewrite sum_by_add, sum_by_one by apply NoDup_seqZ. rewrite decide_True; [done|].
    apply elem_of_seqZ. pose proof (Hr o ltac:(left)). lia.
  - intros i _. unfold blocks. rewrite filter_cons. by destruct (decide (striping_of s o = i)).
Qed.

Section widths.
Context `{E : Env} `{L : !EnvLaws E}.

(** the memory of all entries lies in the stripings, these in the segments *)
Lemma used_bounds s es : geometry s → alloc_inv s es →
  0 ≤ used_entry (usage (memory s)) ≤ current_stripings s * vsize (vm_striping (memory s)) ∧
  current_stripings s * vsize (vm_striping (memory s))
    ≤ count_current (vm_segment (memory s)) * vsize (vm_segment (memory s)).
Proof.
  intros Hg (_&Hp&Ha&Hu). rewrite Forall_forall in Hp.
  destruct (stripings_pos s Hg) as [Hn Hle]. pose proof (geometry_current s Hg) as [Hcs _].
  assert (∀ i, i ∈ seqZ 0 (current_stripings s) →
    0 ≤ Striping.sum_sizes (blocks s es i) ≤ vsize (vm_striping (memory s))) as Hb.
  { intros i Hi%elem_of_seqZ. destruct (Ha i ltac:(lia)) as (a&_&_&_&He&Hown).
    pose proof (owns_sum a _ Hown). destruct (Striping.owns_range _ _ Hown). lia. }
  rewrite Hu, (blocks_partition s es (current_stripings s)) by (intros o Ho; by apply Hp).
  split; [split|].
  - apply sum_by_nonneg. intros i Hi. by apply Hb.
  - etrans; [apply sum_by_bound; intros i Hi; apply Hb; exact Hi|]. rewrite length_seqZ, Z2Nat.id by lia. lia.
  - destruct Hg as (_&_&(_&_&Hcc)&_). unfold current_stripings. rewrite Hcc.
    assert (0 ≤ count_current (vm_segment (memory s))) by (unfold current_stripings in Hcs; nia). nia.
Qed.
Lemma keys_values_bounds s es : table s es → alloc_inv s es →
  0 ≤ used_key (usage (memory s)) ∧ 0 ≤ used_value (usage (memory s)) ∧
  used_key (usage (memory s)) + used_value (usage (memory s)) ≤ used_entry (usage (memory s)).
Proof.
  intros (He&_&_&(_&->&->)) (_&_&_&->). rewrite Forall_forall in He. split_and!.
  - apply sum_by_nonneg. intros o Ho. apply (He o Ho).
  - apply sum_by_nonneg. intros o Ho. apply (He o Ho).
  - rewrite <-sum_by_add. apply sum_by_mono. intros o Ho. destruct (He o Ho) as (?&?&->).
    unfold entry_size, sizeof_shm_hash_entry.
    pose proof (MEM_ALIGN_ge (key_len (hdr s o))). pose proof (MEM_ALIGN_ge (value_length (he_value (hdr s o)))).
    lia.
Qed.

Lemma entry_fields_fit s es o : geometry s → alloc_inv s es → table s es → o ∈ es → entry_fields s o.
Proof.
  intros Hg Ha Ht Ho. pose proof (inv_readable s es es Hg Ha Ht ltac:(done)) as Hrd.
  rewrite Forall_forall in Hrd. destruct (Hrd o Ho) as ((Hoff&_&Hseg&_)&_&_&_&(Hv1&Hv2&Hv3&Hv4)&Hsi&Hmo).
  destruct (alloc_inv_place s es o Hg Ha Ho) as (_&(Hp1&Hp2&Hp3&Hp4)&Hsz).
  destruct Ht as (He&_). rewrite Forall_forall in He. destruct (He o Ho) as (Hk&_&_).
  destruct Ha as (_&Hp&_). rewrite Forall_forall in Hp. destruct (Hp o Ho) as (_&_&_&Hst&_).
  pose proof (geometry_current s Hg). destruct Hg as ((_&Hvs)&_&(_&H15&_)&_).
  unfold entry_fields, SHMCACHE_MAX_KEY_SIZE, sizeof_shm_hash_entry in *. cbn [fst snd value_ptr] in *.
  fold (striping_of s o). rewrite Hsi, Hmo. split_and!.
  - rewrite Hoff. unfold offset_of_addr, hentry_pack, to_int64. apply wrap_signed_range. lia.
  - apply wrap_signed_range. lia.
  - apply wrap_signed_range. lia.
  - field_range. lia.
  - field_range. lia.
  - field_range. lia.
  - field_range. lia.
  - field_range. lia.
  - field_range. lia.
Qed.
Lemma allocator_fields_fit s es i : geometry s → alloc_inv s es → pool_inv s → 0 ≤ i < current_stripings s →
  ∃ a, znth (allocators s) i = Some a ∧ allocator_fields a.
Proof.
  intros Hg (_&_&Ha&_) (_&_&Hfl) Hi. destruct (Ha i Hi) as (a&Hz&Hix&Hb&He&Hown). exists a. split; [done|].
  assert (in_which_pool a = SHMCACHE_STRIPING_ALLOCATOR_POOL_DOING ∨
          in_which_pool a = SHMCACHE_STRIPING_ALLOCATOR_POOL_DONE) as Hpool.
  { destruct (Hfl i Hi) as [(b&Hb2&<-)|((b&Hb2&<-)&_)]; [left|right]; congruence. }
  unfold SHMCACHE_STRIPING_ALLOCATOR_POOL_DOING, SHMCACHE_STRIPING_ALLOCATOR_POOL_DONE in Hpool.
  pose proof (owns_sum a _ Hown) as Hsum. rewrite <-(Striping.owns_used _ _ Hown) in Hsum.
  pose proof (Striping.owns_range _ _ Hown). destruct (geometry_base s i Hg ltac:(lia)) as [Hb0 Hb1].
  pose proof (geometry_current s Hg). destruct (geometry_segment_of s i Hg Hi) as [? ?].
  destruct Hg as ((_&Hvs)&_&(_&H15&_)&_). unfold allocator_fields. rewrite Hix. cbn [ssp_segment ssp_striping].
  split_and!; try field_range; lia.
Qed.
Lemma queue_fields_fit s flag op : geometry s → queue_ok s flag op → queue_fields (queue (obj_pool_info op)).
Proof.
  intros (_&_&(_&H15&_)&_) ([_ Hh Ht]&Hc&_). unfold Pool.rq in *. unfold queue_fields.
  split_and!; field_range; lia.
Qed.

Lemma Forall_sub_filter {A} (P Q : A → Prop) `{!∀ x, Decision (Q x)} l : Forall P l → Forall P (filter Q l).
Proof. intros Hl. apply Forall_forall. rewrite Forall_forall in Hl. by intros x [_ ?%Hl]%list_elem_of_filter. Qed.
(** the links refer to entries, or to the end of a chain or the head of the list *)
Lemma path_range (P : Z → Prop) nxt a es b :
  path nxt a es b → Forall P es → P b → ∀ x, x ∈ a :: es → P (nxt x).
Proof.
  revert a. induction es as [|e es IH]; intros a Hp Hes Hb x Hx.
  - apply list_elem_of_singleton in Hx as ->. cbn in Hp. by rewrite Hp.
  - apply Forall_cons in Hes as [He Hes]. cbn in Hp. destruct Hp as [Ha Hp].
    apply elem_of_cons in Hx as [->|Hx]; [by rewrite Ha|by apply (IH e)].
Qed.
Lemma chain_range (P : Z → Prop) nxt start c :
  chain nxt start c → Forall P c → P 0 → P start ∧ ∀ x, x ∈ c → P (nxt x).
Proof.
  revert start. induction c as [|o c IH]; intros start Hc HP H0.
  - cbn in Hc. subst start. split; [done|]. by intros x ?%not_elem_of_nil.
  - cbn in Hc. destruct Hc as [-> Hc]. apply Forall_cons in HP as [Ho HP].
    destruct (IH (nxt o) Hc HP H0) as [Hn Hx]. split; [done|].
    intros x [->|?]%elem_of_cons; auto.
Qed.
Lemma links_fit s es : inv s es →
  hashtable_fields (hashtable (memory s)) ∧ Forall (link_fields s) es.
Proof.
  intros (Hg&_&Ha&(Hnx&Hpv&Hnd&_)&Ht). set (h := list_head_offset s) in *.
  assert (Forall int64_field es) as Hes.
  { apply Forall_forall. intros o Ho. by destruct (entry_fields_fit s es o Hg Ha Ht Ho) as ((?&_)&_). }
  assert (int64_field h) as Hh.
  { subst h. destruct Hg as (_&_&_&_&_&(x&->)). apply wrap_signed_range. lia. }
  assert (int64_field 0) as H0 by (field_range; lia).
  assert (∀ x, x ∈ h :: es → int64_field (nx s x) ∧ int64_field (pv s x)) as Hl.
  { intros x Hx. split; [by eapply path_range|]. eapply path_range; [exact Hpv|by apply Forall_rev|done|].
    rewrite elem_of_cons, list_elem_of_In, <-in_rev, <-list_elem_of_In. by apply elem_of_cons in Hx. }
  assert (∀ o, o ∈ es → node s o = he_list (hdr s o)) as Hnode.
  { intros o Ho. unfold node. apply NoDup_cons in Hnd as [Hn _]. rewrite (proj2 (Z.eqb_neq _ _)); [done|].
    intros ->. by apply Hn. }
  destruct Ht as (_&_&(Hcap&Hlb&Hb)&_). split.
  - destruct (Hl h ltac:(left)) as [H1 H2]. unfold nx, pv, node in H1, H2. subst h.
    rewrite Z.eqb_refl in H1, H2. split_and!; [done|done|]. apply Forall_lookup. intros i st Hi.
    pose proof (lookup_lt_Some _ _ _ Hi). destruct (Hb (Z.of_nat i) ltac:(lia)) as (st'&c&Hst&Hc&Hp).
    unfold znth in Hst. rewrite (proj2 (Z.leb_le _ _)), Nat2Z.id, Hi in Hst by lia. injection Hst as ->.
    eapply chain_range; [exact Hc| |done]. rewrite Hp. by apply Forall_sub_filter.
  - apply Forall_forall. intros o Ho. unfold link_fields. rewrite <-(Hnode o Ho).
    destruct (Hl o ltac:(by right)) as [H1 H2]. split; [|by split].
    assert (0 ≤ bucket_of s (key_of s o) < ht_capacity (hashtable (memory s))) as Hbo
      by (unfold bucket_of; apply Z.mod_pos_bound; lia).
    destruct (Hb _ Hbo) as (st&c&_&Hc&Hp). change (ht_next (hdr s o)) with (hnext s o).
    eapply chain_range; [exact Hc|rewrite Hp; by apply Forall_sub_filter|done|].
    rewrite Hp. by apply list_elem_of_filter.
Qed.

(** the ranges of all these fields, and the bytes in use *)
Definition fields_in_range (s : shmcache_context) (es : list Z) : Prop :=
  header_fields (memory s) ∧ hashtable_fields (hashtable (memory s)) ∧
  queue_fields (queue (obj_pool_info (doing s))) ∧ queue_fields (queue (obj_pool_info (done_pool s))) ∧
  (∀ i, 0 ≤ i < current_stripings s → ∃ a, znth (allocators s) i = Some a ∧ allocator_fields a) ∧
  Forall (λ o, entry_fields s o ∧ link_fields s o) es ∧
  (used_key (usage (memory s)) + used_value (usage (memory s)) ≤ used_entry (usage (memory s)) ∧
   used_entry (usage (memory s)) ≤ current_stripings s * vsize (vm_striping (memory s)) ∧
   current_stripings s * vsize (vm_striping (memory s))
     ≤ count_current (vm_segment (memory s)) * vsize (vm_segment (memory s))).
Lemma inv_fields s es : inv s es → Z.of_nat (length es) < 2 ^ 31 → fields_in_range s es.
Proof.
  intros Hinv Hlen. destruct (links_fit s es Hinv) as [Hht Hlinks].
  destruct Hinv as (Hg&Hp&Ha&_&Ht). pose proof Hp as (Hd&Hn&_).
  destruct (used_bounds s es Hg Ha) as [[Hu0 Hu1] Hu2].
  destruct (keys_values_bounds s es Ht Ha) as (Hk&Hv&Hkv).
  split; [|split_and!; [done|by eapply queue_fields_fit|by eapply queue_fields_fit|
    by eauto using allocator_fields_fit| |lia|lia|lia]].
  - destruct Ht as (_&_&(Hcap&_)&(Hc&_)). pose proof (geometry_current s Hg).
    destruct Hg as (([? ?]&Hvs)&(Hcc&Hcm)&(_&H15&_)&_). unfold current_stripings in *.
    assert (count_current (vm_striping (memory s)) * vsize (vm_striping (memory s)) ≤ 2 ^ 15 * 2 ^ 31)
      by (apply Z.mul_le_mono_nonneg; lia).
    split_and!; field_range; lia.
  - rewrite Forall_forall in Hlinks. apply Forall_forall. intros o Ho. split; [by eapply entry_fields_fit|by apply Hlinks].
Qed.

(** no more entries than headers fit in the segments *)
Lemma entries_bound s es : inv s es →
  sizeof_shm_hash_entry * Z.of_nat (length es)
    ≤ count_max (vm_segment (memory s)) * vsize (vm_segment (memory s)).
Proof.
  intros (Hg&_&Ha&_&Ht). destruct (used_bounds s es Hg Ha) as [[_ Hu] Hst].
  assert (sizeof_shm_hash_entry * Z.of_nat (length es) ≤ used_entry (usage (memory s))) as Hlow.
  { destruct Ha as (_&Hp&_&->). rewrite Forall_forall in Hp.
    clear Ht Hu Hst. induction es as [|o es IH]; [simpl; lia|]. cbn [length].
    destruct (Hp o ltac:(left)) as (_&_&_&_&_&Ho).
    assert (sizeof_shm_hash_entry * Z.of_nat (length es) ≤ sum_by (λ o, mem_size (mem_of s o)) es)
      by (apply IH; intros; apply Hp; by right).
    unfold sum_by in *. cbn [foldr]. lia. }
  etrans; [exact Hlow|]. etrans; [exact Hu|]. etrans; [exact Hst|].
  destruct Hg as (((H1&H2)&_)&((H3&H4)&_)&_). apply Z.mul_le_mono_nonneg_r; lia.
Qed.
End widths.
