(* ===== verification/SegmentGrowth.v ===== *)
(** * A new value segment keeps the invariant
    (shmopt_create_value_segment of src/shmopt.c) *)
From S2P Require Import Prelude Types ObjectPool Striping OpWrapper Shmopt HentryOffset ShmList Invariant.
Local Open Scope Z_scope.
Local Open Scope shm_scope.

Section growth.
Context `{E : Env}.

(** the allocator [shmopt_create_value_segment] puts at index [i] *)
Definition new_allocator (s : shmcache_context) (segment_index i offset : Z) : shm_striping_allocator :=
  (Striping.shm_striping_allocator_init
     (default allocator_zero (znth (allocators s) i)) (Ssp segment_index i) offset
     (vsize (vm_striping (memory s))))
    <| in_which_pool := SHMCACHE_STRIPING_ALLOCATOR_POOL_DOING |>.

Lemma create_stripings_spec n s segment_index offset :
  let c := current_stripings s in
  Pool.wf (doing s) → 0 ≤ c → 0 ≤ segment_index < 2 ^ 15 → c + Z.of_nat n ≤ 2 ^ 15 →
  c + Z.of_nat n ≤ Z.of_nat (length (allocators s)) →
  0 ≤ vsize (vm_striping (memory s)) < 2 ^ 31 →
  Pool.count (doing s) + Z.of_nat n < capacity (queue (obj_pool_info (doing s))) →
  wp (create_stripings n segment_index offset) (λ _ s', ∃ al dg,
    s' = s <| allocators := al |> <| doing := dg |>
           <| memory; vm_striping; count_current := c + Z.of_nat n |> ∧
    length al = length (allocators s) ∧
    Pool.wf dg ∧ capacity (queue (obj_pool_info dg)) = capacity (queue (obj_pool_info (doing s))) ∧
    Pool.contents dg = Pool.contents (doing s) ++ (allocator_offset_of s <$> seqZ c (Z.of_nat n)) ∧
    ∀ i, 0 ≤ i → znth al i =
      (if (c <=? i) && (i <? c + Z.of_nat n)
       then Some (new_allocator s segment_index i (offset + (i - c) * vsize (vm_striping (memory s))))
       else znth (allocators s) i)) s.
Proof.
  revert s offset. induction n as [|n IH]; intros s offset c Hwf Hc Hseg Hc15 Hlen Hvs Hcnt;
    cbn [create_stripings].
  { wp_simpl. exists (allocators s), (doing s). rewrite Z.add_0_r.
    split; [by destruct s as [????[??????[]]]|].
    split_and!; [done..|by rewrite seqZ_nil, app_nil_r by lia|]. intros i Hi. bool_lia; done. }
  destruct (znth_is_Some (allocators s) c ltac:(lia)) as [a Ha].
  wp_simpl. change (count_current (vm_striping (memory s))) with c.
  eapply wp_load_allocator; [exact Ha|]. wp_simpl. apply wp_store_allocator; [cbn; lia|]. wp_simpl.
  set (s1 := s <| memory; vm_striping; count_current ::= Z.succ |> <| allocators := _ |>).
  apply wp_on_doing. eapply wp_mono; [by apply Pool.pool_free_spec|]. intros r dg (Hwf'&_&Hcap&Hr).
  change (doing s1) with (doing s) in *. rewrite (proj2 (Z.eqb_neq _ _)) in Hr by lia.
  destruct Hr as [_ Hct]. set (s2 := s1 <| doing := dg |>).
  assert (to_int (vsize (vm_striping (memory s))) = vsize (vm_striping (memory s))) as Hti
    by (apply wrap_signed_small; lia).
  assert (to_short segment_index = segment_index) as Hts by (apply wrap_signed_small; lia).
  assert (to_short c = c) as Htc by (apply wrap_signed_small; lia).
  assert (allocators s2 = <[Z.to_nat c := new_allocator s segment_index c offset]> (allocators s)) as Hal2.
  { subst s2 s1. cbn. unfold new_allocator. by rewrite Hti, Hts, Htc, Ha. }
  assert (Pool.count dg = Pool.count (doing s) + 1) as Hcnt'.
  { apply (f_equal length) in Hct. rewrite length_app, !Pool.length_contents in Hct by done.
    simpl in Hct. pose proof (Pool.count_range _ Hwf). pose proof (Pool.count_range _ Hwf'). lia. }
  assert (current_stripings s2 = c + 1) as Hc2 by done.
  assert (length (allocators s2) = length (allocators s)) as Hl2 by (rewrite Hal2; apply length_insert).
  eapply wp_mono.
  { apply (IH s2 (offset + vsize (vm_striping (memory s)))); rewrite ?Hc2, ?Hl2; try done || lia.
    change (doing s2) with dg. rewrite Hcap, Hcnt'. lia. }
  rewrite Hc2. intros _ s' (al&dg'&->&Hl&Hwf2&Hcap2&Hct2&Hal). exists al, dg'.
  replace (c + 1 + Z.of_nat n) with (c + Z.of_nat (S n)) in * by lia.
  split; [done|]. change (doing s2) with dg in *.
  split_and!; [by rewrite Hl, Hl2|done|by rewrite Hcap2| |].
  - rewrite Hct2, Hct, <-app_assoc. f_equal. rewrite (seqZ_cons c) by lia. rewrite fmap_cons. cbn. f_equal.
    by replace (Z.pred (Z.of_nat (S n))) with (Z.of_nat n) by lia.
  - intros i Hi. rewrite Hal by done. rewrite Hal2, znth_insert by lia.
    destruct (Z.eqb_spec c i) as [<-|Hne].
    + bool_lia. by rewrite Z.sub_diag, Z.add_0_r.
    + bool_lia; [|done..]. set (vs := vsize (vm_striping (memory s))).
      change (vsize (vm_striping (memory s2))) with vs.
      replace (offset + vs + (i - (c + 1)) * vs) with (offset + (i - c) * vs) by lia.
      unfold new_allocator. rewrite Hal2, znth_insert by lia.
      by rewrite (proj2 (Z.eqb_neq _ _) Hne).
Qed.

(** mapping the next segment *)
Lemma init_value_segment_spec s i :
  mapping_ok (cfg_type (config s)) → 0 ≤ i < Z.of_nat (length (values_items s)) →
  wp (shmopt_init_value_segment i) (λ r s', ∃ n fds seg,
    s' = s <| ticks := n |> <| open_fds := fds |>
           <| values_items := <[Z.to_nat i := seg]> (values_items s) |> ∧
    (r = 0 → base seg ≠ 0 ∧ base seg ≠ -1 ∧ seg_size seg = vsize (vm_segment (memory s))) ∧
    (errno_ok → 0 ≤ r)) s.
Proof.
  intros Hok Hi. unfold shmopt_init_value_segment, shmopt_init_segment, load_segment. wp_simpl.
  destruct (znth_is_Some (values_items s) i Hi) as [seg0 Hseg0].
  apply wp_of_option. exists seg0. split; [done|]. wp_simpl.
  eapply wp_mono; [by apply shm_mmap_spec|]. intros [[addr key] result] s1 ((n&fds&->&_)&Hz&Hm&Hn).
  cbn in Hz, Hm. wp_simpl. unfold store_segment. destruct (Z.eqb_spec addr 0) as [Ha|Ha]; wp_simpl.
  - apply wp_of_option. eexists. split; [by apply zupd_Some|]. wp_simpl.
    eexists n, fds, _. split; [done|]. split; [|done]. intros Hr. by destruct (Hz Ha Hr).
  - apply wp_of_option. eexists. split; [by apply zupd_Some|]. wp_simpl.
    eexists n, fds, _. split; [done|]. done.
Qed.

Lemma segments_mapped_insert count items size seg i :
  segments_mapped count items size → count ≤ i < Z.of_nat (length items) → 0 ≤ count →
  segments_mapped count (<[Z.to_nat i := seg]> items) size ∧
  (base seg ≠ 0 → base seg ≠ -1 → seg_size seg = size → i = count →
   segments_mapped (count + 1) (<[Z.to_nat i := seg]> items) size).
Proof.
  intros Hm Hi Hc. split.
  - intros j Hj. rewrite znth_insert by lia. rewrite (proj2 (Z.eqb_neq _ _)) by lia. by apply Hm.
  - intros ??? -> j Hj. rewrite znth_insert by lia. destruct (Z.eqb_spec count j) as [<-|].
    + by exists seg.
    + apply Hm. lia.
Qed.

(** the state after a new segment, from its parts *)
Definition grown (s : shmcache_context) (n : nat) (fds : list Z) (items : list shmcache_segment_info)
    (al : list shm_striping_allocator) (dg : shmcache_object_pool_context) : shmcache_context :=
  s <| ticks := n |> <| open_fds := fds |> <| values_items := items |>
    <| memory; vm_segment; count_current ::= Z.succ |>
    <| allocators := al |> <| doing := dg |>
    <| memory; vm_striping; count_current := current_stripings s + stripings_per_segment s |>
    <| values_count := count_current (vm_segment (memory s)) + 1 |>
    <| memory; usage; alloced ::= Z.add (vsize (vm_segment (memory s))) |>.

Lemma grown_geometry s n fds items al dg :
  geometry s → count_current (vm_segment (memory s)) < count_max (vm_segment (memory s)) →
  length items = length (values_items s) → length al = length (allocators s) →
  segments_mapped (count_current (vm_segment (memory s)) + 1) items (vsize (vm_segment (memory s))) →
  geometry (grown s n fds items al dg).
Proof.
  intros (G1&G2&G3&G4&G5&G6) Hlt Hi Ha Hm. unfold geometry, segs_ok. cbn. rewrite Hi, Ha.
  unfold stripings_per_segment in *. cbn in *.
  unfold current_stripings in *. split_and!; try done; try lia; try nia; apply G1 || apply G5.
Qed.

(** the allocators after [create_stripings], from the current number on *)
Definition extended (s : shmcache_context) (al : list shm_striping_allocator) : Prop :=
  let c := current_stripings s in
  ∀ i, 0 ≤ i → znth al i =
    (if (c <=? i) && (i <? c + stripings_per_segment s)
     then Some (new_allocator s (count_current (vm_segment (memory s))) i
                  (0 + (i - c) * vsize (vm_striping (memory s))))
     else znth (allocators s) i).

Lemma extended_old s al i : extended s al → 0 ≤ i < current_stripings s →
  znth al i = znth (allocators s) i.
Proof. intros H Hi. rewrite H by lia. by rewrite (proj2 (Z.leb_gt _ _)) by lia. Qed.

Lemma grown_pool_inv s n fds items al dg :
  geometry s → extended s al →
  Pool.wf dg → capacity (queue (obj_pool_info dg)) = capacity (queue (obj_pool_info (doing s))) →
  Pool.contents dg = Pool.contents (doing s)
    ++ (allocator_offset_of s <$> seqZ (current_stripings s) (stripings_per_segment s)) →
  pool_inv s → pool_inv (grown s n fds items al dg).
Proof.
  intros Hg Hext Hwf Hcap Hc ((Hwf0&Hcap0&Hnd&Hm)&Hn&Hfl). set (s' := grown s n fds items al dg).
  destruct (stripings_pos s Hg) as [Hn0 _]. pose proof (geometry_current s Hg) as Hcur.
  assert (current_stripings s' = current_stripings s + stripings_per_segment s) as Hcs by done.
  assert (∀ i f, 0 ≤ i < current_stripings s → pool_flag s i f → pool_flag s' i f) as Hk.
  { intros i f Hi (a&Ha&Hf). exists a. split; [|done]. by rewrite <-Ha, <-(extended_old s al). }
  assert (∀ i, current_stripings s ≤ i < current_stripings s' →
            pool_flag s' i SHMCACHE_STRIPING_ALLOCATOR_POOL_DOING) as Hnew.
  { intros i Hi. exists (new_allocator s (count_current (vm_segment (memory s))) i
      (0 + (i - current_stripings s) * vsize (vm_striping (memory s)))). split; [|done]. change (allocators s') with al. rewrite Hext by lia.
    rewrite (proj2 (Z.leb_le _ _)), (proj2 (Z.ltb_lt _ _)) by lia. done. }
  assert (∀ f x, pool_member s f x → pool_member s' f x) as Hmem.
  { intros f x (i&Hi&->&Hf). exists i. split; [lia|]. split; [done|by apply Hk]. }
  split_and!.
  - split_and!; [done|exact (eq_trans Hcap Hcap0)| |]; cbn [doing grown].
    all: change (doing s') with dg; rewrite Hc.
    + apply NoDup_app. split_and!; [done| |].
      * intros x Hx. apply (proj1 (Forall_forall _ _) Hm) in Hx as (i&Hi&->&_).
        intros (j&Heq%allocator_offset_inj&Hj%elem_of_seqZ)%list_elem_of_fmap. lia.
      * apply NoDup_fmap_2_strong; [|apply NoDup_seqZ]. intros i j _ _. apply allocator_offset_inj.
    + apply Forall_app. split; [eapply Forall_impl; [exact Hm|by intros x ?; apply Hmem]|].
      apply Forall_fmap, Forall_forall. intros i Hi%elem_of_seqZ. exists i. cbn.
      split; [lia|]. split; [done|]. apply Hnew. lia.
  - destruct Hn as (?&?&?&Hm'). split_and!; [done..|].
    eapply Forall_impl; [exact Hm'|by intros x ?; apply Hmem].
  - intros i Hi. destruct (decide (i < current_stripings s)) as [Hlt|Hge].
    + destruct (Hfl i ltac:(lia)) as [|[? ?]]; [left|right; split; [|done]]; apply Hk; done || lia.
    + left. apply Hnew. lia.
Qed.

Lemma blocks_none s os i : (∀ o, o ∈ os → striping_of s o ≠ i) → blocks s os i = [].
Proof.
  intros H. unfold blocks. induction os as [|o os IH]; [done|].
  rewrite filter_cons_False by (apply H; left). apply IH. intros x Hx. apply H. by right.
Qed.

Lemma grown_alloc_inv s n fds items al dg os :
  geometry s → extended s al → alloc_inv s os → alloc_inv (grown s n fds items al dg) os.
Proof.
  intros Hg Hext (Hnd&Hpl&Ha&Hu). set (s' := grown s n fds items al dg).
  destruct (stripings_pos s Hg) as [Hn0 _]. pose proof (geometry_current s Hg) as Hcur.
  assert (current_stripings s' = current_stripings s + stripings_per_segment s) as Hcs by done.
  assert (∀ i, blocks s' os i = blocks s os i) as Hbl by done.
  rewrite Forall_forall in Hpl.
  split_and!; [done| | |done].
  - apply Forall_forall. intros o Ho. destruct (Hpl o Ho) as (?&?&?&[Hlo Hhi]&?&?).
    do 3 (split; [done|]). split; [|done]. rewrite Hcs. split; [done|].
    change (striping_of s' o) with (striping_of s o). lia.
  - intros i Hi. change (allocators s') with al.
    destruct (decide (i < current_stripings s)) as [Hlt|Hge].
    { rewrite (extended_old s) by (done || lia). exact (Ha i ltac:(lia)). }
    rewrite Hext, (proj2 (Z.leb_le _ _)), (proj2 (Z.ltb_lt _ _)) by lia.
    eexists. split; [done|]. rewrite Z.add_0_l.
    assert (current_stripings s = count_current (vm_segment (memory s)) * stripings_per_segment s) as Hc
      by (destruct Hg as (_&_&(_&_&?)&_); done).
    assert (i / stripings_per_segment s = count_current (vm_segment (memory s)) ∧
            i mod stripings_per_segment s = i - current_stripings s) as [Hdiv Hmod].
    { replace i with (i - current_stripings s + count_current (vm_segment (memory s)) * stripings_per_segment s)
        by lia. rewrite Z.div_add, Z_mod_plus_full by lia. rewrite Z.div_small, Z.mod_small by lia. lia. }
    unfold allocator_ok. change (stripings_per_segment s') with (stripings_per_segment s).
    rewrite Hdiv, Hmod, Hbl. split_and!; [done..|].
    assert (blocks s os i = []) as ->.
    { apply blocks_none. intros o Ho. destruct (Hpl o Ho) as (_&_&_&?&_). lia. }
    destruct Hg as ([? _]&_). split; cbn; [lia|done|set_solver|constructor|set_solver].
Qed.

(** the first new striping is empty *)
Lemma grown_room s n fds items al dg size :
  geometry s → extended s al →
  Pool.contents dg = Pool.contents (doing s) ++
    (allocator_offset_of s <$> seqZ (current_stripings s) (stripings_per_segment s)) →
  size ≤ vsize (vm_striping (memory s)) → has_room (grown s n fds items al dg) size.
Proof.
  intros Hg Hext Hc Hsize. destruct (stripings_pos s Hg) as [Hn _]. pose proof (geometry_current s Hg).
  apply Exists_exists. exists (allocator_offset_of s (current_stripings s)). cbn. rewrite Hc. split.
  { apply elem_of_app. right. apply list_elem_of_fmap. eexists. split; [done|]. apply elem_of_seqZ. lia. }
  exists (current_stripings s), (vsize (vm_striping (memory s))).
  split; [cbn; lia|]. split; [done|]. split; [|done]. unfold room. cbn. rewrite Hext by lia.
  rewrite (proj2 (Z.leb_le _ _)), (proj2 (Z.ltb_lt _ _)) by lia. cbn. unfold new_allocator.
  unfold Striping.shm_striping_allocator_free_size. cbn. f_equal. lia.
Qed.

(** growing keeps the entries; it succeeds only by adding one segment *)
Definition grow_post (s : shmcache_context) (es : list Z) (r : Z) (s' : shmcache_context) : Prop :=
  same_cache s s' ∧ inv s' es ∧ (∀ x, agree s s' x) ∧
  (g_current_time s' = g_current_time s ∧ hashtable (memory s') = hashtable (memory s) ∧
   hentries s' = hentries s) ∧
  usage (memory s') = (usage (memory s)) <| alloced := if r =? 0
    then vsize (vm_segment (memory s)) + alloced (usage (memory s)) else alloced (usage (memory s)) |> ∧
  count_current (vm_segment (memory s'))
    = (if r =? 0 then count_current (vm_segment (memory s)) + 1 else count_current (vm_segment (memory s))) ∧
  (errno_ok → 0 ≤ r) ∧ (r = 0 → ∀ size, size ≤ vsize (vm_striping (memory s)) → has_room s' size).

Lemma grow_same s es r n fds items :
  r ≠ 0 → (errno_ok → 0 ≤ r) → inv s es → Z.of_nat (length items) = Z.of_nat (length (values_items s)) →
  segments_mapped (values_count s) items (vsize (vm_segment (memory s))) →
  grow_post s es r (s <| ticks := n |> <| open_fds := fds |> <| values_items := items |>).
Proof.
  intros Hr Hr0 ((G1&G2&G3&(G4&G4'&G4'')&G5&G6)&Hp&Ha&Hd&Ht) Hi Hm.
  unfold grow_post. rewrite (proj2 (Z.eqb_neq _ _) Hr).
  split; [done|]. split.
  - split; [|done]. split; [exact G1|]. split; [exact G2|]. split; [exact G3|]. split; [|done].
    split; [exact G4|]. split; [exact (eq_trans Hi G4')|exact Hm].
  - split_and!; try done. by destruct s as [????[????????[]]].
Qed.

Lemma create_value_segment_spec s es :
  mapping_ok (cfg_type (config s)) → inv s es →
  wp shmopt_create_value_segment (grow_post s es) s.
Proof.
  intros Hok Hinv. pose proof Hinv as (Hg&Hp&Ha&Hd&Ht).
  pose proof Hg as ((?&?)&(?&?)&(Hmax&H15&Hcc)&(Hvc&Hil&Hsm)&(Hal&?)&_).
  unfold shmopt_create_value_segment. wp_simpl.
  destruct (Z.leb_spec (count_max (vm_segment (memory s))) (count_current (vm_segment (memory s)))).
  { wp_simpl. eapply (grow_same s es ENOSPC (ticks s) (open_fds s) (values_items s)) in Hinv; [|done..].
    by destruct s. }
  rewrite (proj2 (Z.eqb_eq _ _) Hvc). cbn [negb].
  set (i := count_current (vm_segment (memory s))). wp_simpl.
  eapply wp_mono; [apply (init_value_segment_spec s i); [done|lia]|].
  intros r s1 (n&fds&seg&->&Hseg&Hrn).
  destruct (segments_mapped_insert i (values_items s) (vsize (vm_segment (memory s))) seg i) as [Hm1 Hm2];
    [subst i; rewrite <-Hvc; exact Hsm|subst i; lia|subst i; lia|].
  destruct (Z.eqb_spec r 0) as [Hr|Hr]; cbn [negb]; wp_simpl.
  2: { apply grow_same; [done|done|done|by rewrite length_insert|by rewrite Hvc]. }
  specialize (Hm2 (proj1 (Hseg Hr)) (proj1 (proj2 (Hseg Hr))) (proj2 (proj2 (Hseg Hr))) eq_refl).
  rewrite (proj2 (Z.eqb_neq _ _)) by lia. wp_simpl.
  destruct (stripings_pos s Hg) as [Hn0 _].
  assert (to_int (Z.quot (vsize (vm_segment (memory s))) (vsize (vm_striping (memory s))))
          = stripings_per_segment s) as ->.
  { rewrite Z.quot_div_nonneg by lia. apply wrap_signed_small; [lia|].
    assert (stripings_per_segment s ≤ vsize (vm_segment (memory s))); [|unfold stripings_per_segment in *; lia].
    apply Z.div_le_upper_bound; nia. }
  pose proof Hp as ((Hwf&Hcap&Hnd&Hmem)&_&_).
  assert (Pool.count (doing s) ≤ current_stripings s) as Hcnt.
  { assert (Pool.contents (doing s) ⊆+ allocator_offset_of s <$> seqZ 0 (current_stripings s)) as Hsub.
    { apply NoDup_submseteq; [done|]. intros x Hx. apply (proj1 (Forall_forall _ _) Hmem) in Hx.
      destruct Hx as (j&Hj&->&_). apply list_elem_of_fmap. exists j. split; [done|].
      apply elem_of_seqZ. lia. }
    apply submseteq_length in Hsub. rewrite length_fmap, length_seqZ, Pool.length_contents in Hsub by done.
    pose proof (geometry_current s Hg). lia. }
  unfold current_stripings in *.
  assert (current_stripings s + stripings_per_segment s ≤ count_max (vm_striping (memory s))) as Hroom
    by (unfold current_stripings; subst i; nia).
  unfold current_stripings in Hroom.
  eapply wp_mono.
  { apply (create_stripings_spec (Z.to_nat (stripings_per_segment s))); rewrite ?Z2Nat.id by lia;
      unfold current_stripings; cbn; subst i; done || lia. }
  cbv zeta. rewrite Z2Nat.id by lia.
  intros _ s2 (al&dg&->&Hl&Hwf'&Hcap'&Hct&Hz). wp_simpl.
  set (items := <[Z.to_nat i := seg]> (values_items s)).
  match goal with |- grow_post _ _ _ ?t => change t with (grown s n fds items al dg) end.
  assert (extended s al) as Hext by exact Hz.
  assert (geometry (grown s n fds items al dg)) as Hg'.
  { apply grown_geometry; [done|lia|apply length_insert|exact Hl|exact Hm2]. }
  assert (∀ x, agree s (grown s n fds items al dg) x) as Hag by (intros x; by apply agree_hdr).
  split.
  { split_and!; try done. cbn. lia. }
  split.
  2: { do 5 (split; [done|]). intros _ size Hsize. by eapply grown_room. }
  split; [exact Hg'|]. split; [by apply grown_pool_inv|]. split; [by apply grown_alloc_inv|]. split.
  - eapply (dll_ext s); [done|done| |done|done|exact Hd]. cbn. lia.
  - eapply (table_ext s); try done.
Qed.
End growth.

(** ** Properties *)
Section properties.
Context `{E : Env}.

Lemma create_segment_full s :
  count_max (vm_segment (memory s)) ≤ count_current (vm_segment (memory s)) →
  wp shmopt_create_value_segment (λ r s', r = ENOSPC ∧ s' = s) s.
Proof.
  intros Hle. unfold shmopt_create_value_segment. wp_simpl.
  rewrite (proj2 (Z.leb_le _ _)) by done. by wp_simpl.
Qed.

(** a process that has not mapped every segment of the others cannot add one *)
Lemma stale_cannot_grow s :
  values_count s ≠ count_current (vm_segment (memory s)) →
  count_current (vm_segment (memory s)) < count_max (vm_segment (memory s)) →
  shmopt_create_value_segment s = Some (EINVAL, s).
Proof.
  intros Hne Hlt. unfold shmopt_create_value_segment, get, mbind, M_bind.
  by rewrite (proj2 (Z.leb_gt _ _) Hlt), (proj2 (Z.eqb_neq _ _) Hne).
Qed.

(** C24: [shmopt_create_value_segment] keeps a well-formed cache well-formed and
    every record unchanged, as long as mmap itself does not fail ([mapping_ok];
    what happens otherwise is [mmap_failure_unreported]).  It returns 0 exactly
    when it has added one segment with its stripings and counted its memory,
    after which every entry that fits in a striping has room in the doing queue;
    when it returns an error (no segment left, or a file or shared memory that
    cannot be created, opened or sized) the numbers of segments and stripings and
    the memory allocated stay what they were.  A process that has not mapped all
    segments is outside of [inv]; see [stale_cannot_grow]. *)
Theorem create_segment_correct s es :
  mapping_ok (cfg_type (config s)) → inv s es →
  wp shmopt_create_value_segment (λ r s', inv s' es ∧ same_cache s s' ∧
    (∀ o, o ∈ es → record_of s' o = record_of s o) ∧
    count_current (vm_segment (memory s')) =
      count_current (vm_segment (memory s)) + (if r =? 0 then 1 else 0) ∧
    current_stripings s' = current_stripings s + (if r =? 0 then stripings_per_segment s else 0) ∧
    alloced (usage (memory s')) =
      alloced (usage (memory s)) + (if r =? 0 then vsize (vm_segment (memory s)) else 0) ∧
    (r = 0 → ∀ size, size ≤ vsize (vm_striping (memory s)) → has_room s' size) ∧
    (count_current (vm_segment (memory s)) = count_max (vm_segment (memory s)) → r = ENOSPC)) s.
Proof.
  intros Hok Hinv.
  destruct (create_value_segment_spec s es Hok Hinv) as (r&s'&Hrun&Hsc&Hinv'&Hag&_&Hus&Hcc&_&Hroom).
  eexists _, _. split; [exact Hrun|].
  assert (count_current (vm_segment (memory s')) =
      count_current (vm_segment (memory s)) + (if r =? 0 then 1 else 0)) as Hcc'
    by (rewrite Hcc; destruct (r =? 0); lia).
  split_and!; [done|done|intros o _; by apply agree_record|done| |rewrite Hus; cbn; destruct (r =? 0); lia|done|].
  - pose proof Hinv as ((_&_&(_&_&Hc1)&_)&_). pose proof Hinv' as ((_&_&(_&_&Hc2)&_)&_).
    assert (stripings_per_segment s' = stripings_per_segment s) as Hps.
    { unfold stripings_per_segment. by destruct Hsc as (_&_&_&_&_&_&_&_&_&_&->&_&->&_). }
    unfold current_stripings. rewrite Hc2, Hc1, Hcc', Hps. destruct (r =? 0); lia.
  - intros Hfull. destruct (create_segment_full s) as (r0&s0&Hrun0&->&_); [lia|].
    rewrite Hrun in Hrun0. by simplify_eq.
Qed.

Lemma open_segments_loop_spec n s :
  mapping_ok (cfg_type (config s)) → segs_ok s → 0 ≤ values_count s →
  values_count s + Z.of_nat n ≤ Z.of_nat (length (values_items s)) →
  wp (open_value_segments_loop n (values_count s)) (λ r s', ∃ m fds tk items,
    s' = s <| ticks := tk |> <| open_fds := fds |> <| values_items := items |>
           <| values_count := values_count s + Z.of_nat m |> ∧ (m ≤ n)%nat ∧
    (r = 0 → m = n) ∧ segs_ok s' ∧ length items = length (values_items s)) s.
Proof.
  revert s. induction n as [|n IH]; intros s Hok Hs Hv Hn; cbn [open_value_segments_loop].
  { wp_simpl. exists 0%nat, (open_fds s), (ticks s), (values_items s). rewrite Z.add_0_r.
    split; [by destruct s|]. split_and!; [lia|done| |done]. by destruct s. }
  wp_simpl. eapply wp_mono; [apply (init_value_segment_spec s (values_count s)); [done|lia]|].
  intros r s1 (tk&fds&seg&->&Hseg&_).
  destruct (segments_mapped_insert (values_count s) (values_items s) (vsize (vm_segment (memory s))) seg
    (values_count s) Hs) as [Hm1 Hm2]; [lia|lia|].
  destruct (Z.eqb_spec r 0) as [->|Hr]; cbn [negb]; wp_simpl.
  2: { exists 0%nat, fds, tk, (<[Z.to_nat (values_count s) := seg]> (values_items s)).
       rewrite Z.add_0_r. split; [by destruct s|]. split_and!; [lia|done|exact Hm1|apply length_insert]. }
  destruct (Hseg eq_refl) as (H1&H2&H3). specialize (Hm2 H1 H2 H3 eq_refl).
  set (s1 := _ <| values_count ::= Z.succ |>).
  change (values_count s + 1) with (values_count s1). eapply wp_mono.
  { apply (IH s1); [exact Hok|exact Hm2|cbn; lia|]. cbn. rewrite length_insert. lia. }
  intros r s2 (m&fds2&tk2&items2&->&Hm&Hr&Hs2&Hl). exists (S m), fds2, tk2, items2.
  replace (values_count s + Z.of_nat (S m)) with (values_count s1 + Z.of_nat m) by (cbn; lia).
  split; [done|]. split_and!; [lia|intros Hr0; by rewrite Hr|exact Hs2|].
  rewrite Hl. apply length_insert.
Qed.

(** [shmopt_open_value_segments] attaches a process to the segments other
    processes created since: when it returns 0 all [count.current] segments
    are mapped with their size; when a mapping fails it stops after the ones
    it mapped, and in either case every segment it counts is usable. *)
Theorem open_segments_correct s :
  mapping_ok (cfg_type (config s)) → segs_ok s →
  0 ≤ values_count s ≤ count_current (vm_segment (memory s)) →
  count_current (vm_segment (memory s)) ≤ Z.of_nat (length (values_items s)) →
  wp shmopt_open_value_segments (λ r s', segs_ok s' ∧
    values_count s ≤ values_count s' ≤ count_current (vm_segment (memory s)) ∧
    (r = 0 → values_count s' = count_current (vm_segment (memory s'))) ∧
    memory s' = memory s ∧ hentries s' = hentries s ∧ payload s' = payload s) s.
Proof.
  intros Hok Hs Hv Hl. unfold shmopt_open_value_segments. wp_simpl.
  eapply wp_mono; [apply open_segments_loop_spec; [done|done|lia|lia]|].
  intros r s' (m&fds&tk&items&->&Hm&Hr&Hs'&_). split_and!; try done; try (cbn; lia).
Qed.
End properties.
