(* ===== verification/ValueAllocator.v ===== *)
(** * The value allocator: placing and freeing entries
    (src/shm_value_allocator.c, except recycling)

    Striping allocators move between two queues: [doing] (may have room) and
    [done_pool] (given up as full).  An entry, its key and its value are one
    allocation. *)
From S2P Require Import Prelude Types ObjectPool Striping Shmopt HentryOffset ShmList Invariant.
Local Open Scope Z_scope.
Local Open Scope shm_scope.

Section ValueAllocator.
Context `{E : Env}.

(** ** shm_value_striping_alloc (14-36), for the allocator at index [ai] *)
Definition shm_value_striping_alloc (ai size : Z) : cmd (option hptr) :=
  s ← get;
  al ← load_allocator ai;
  let '(offset, al') := Striping.shm_striping_allocator_alloc (g_current_time s) al size in
  store_allocator ai al';;
  if offset <? 0 then mret None
  else
    b ← shmopt_get_value_segment (ssp_segment (al_index al'));
    if b =? 0 then mret None
    else
      let entry := (ssp_segment (al_index al'), offset) in
      store_hentry entry (λ e, e <| he_memory; mem_offset := offset |>);;
      store_hentry entry (λ e, e <| he_memory; mem_index := al_index al' |>);;
      store_hentry entry (λ e, e <| he_memory; mem_size := size |>);;
      mret (Some entry).

(** ** shm_value_allocator_do_alloc (38-75) *)
(** lines 54-68: an allocator that is nearly full, or has failed too often,
    leaves the queue *)
Definition retire (ai allocator_offset : Z) : cmd unit :=
  al ← load_allocator ai;
  s ← get;
  let policy := va_policy (config s) in
  when ((Striping.shm_striping_allocator_free_size al <=? discard_memory_size policy)
        || (max_fail_times policy <? fail_times al))
    (removed_offset ← on_doing Pool.shm_object_pool_remove;
     when (removed_offset =? allocator_offset)
       (al ← load_allocator ai;
        store_allocator ai (al <| in_which_pool := SHMCACHE_STRIPING_ALLOCATOR_POOL_DONE |>);;
        on_done (Pool.shm_object_pool_push allocator_offset);;
        mret tt)).

(** the loop turns at most once per slot of the queue *)
Fixpoint do_alloc_loop (fuel : nat) (size allocator_offset : Z) : cmd (option hptr) :=
  match fuel with
  | O => fault
  | S fuel =>
    if allocator_offset >? 0 then
      ai ← allocator_index_of allocator_offset;
      entry ← shm_value_striping_alloc ai size;
      match entry with
      | Some entry =>
        modify (λ s, s <| memory; usage; used_entry ::= λ u, u + size |>);;
        mret (Some entry)
      | None =>
        retire ai allocator_offset;;
        allocator_offset ← on_doing Pool.shm_object_pool_next;
        do_alloc_loop fuel size allocator_offset
      end
    else mret None
  end.

Definition shm_value_allocator_do_alloc (size : Z) : cmd (option hptr) :=
  s ← get;
  allocator_offset ← on_doing Pool.shm_object_pool_first;
  do_alloc_loop (S (Z.to_nat (capacity (queue (obj_pool_info (doing s)))))) size allocator_offset.

(** ** shm_value_allocator_do_recycle (78-97), for the allocator at index [ai] *)
Definition shm_value_allocator_do_recycle (ai : Z) : cmd Z :=
  al ← load_allocator ai;
  if in_which_pool al =? SHMCACHE_STRIPING_ALLOCATOR_POOL_DONE then
    s ← get;
    let allocator_offset := allocator_offset_of s ai in
    r ← on_done (Pool.shm_object_pool_remove_by allocator_offset);
    if 0 <=? r then
      al ← load_allocator ai;
      store_allocator ai (al <| in_which_pool := SHMCACHE_STRIPING_ALLOCATOR_POOL_DOING |>);;
      on_doing (Pool.shm_object_pool_push allocator_offset);;
      mret 0
    else mret EFAULT
  else mret 0.

(** ** shm_value_allocator_free (321-345): result and [*recycled] *)
Definition shm_value_allocator_free (entry : hptr) (recycled : bool) : cmd (Z * bool) :=
  e ← load_hentry entry;
  let ai := ssp_striping (mem_index (he_memory e)) in
  let size := mem_size (he_memory e) in
  al ← load_allocator ai;
  let '(used, al') := Striping.shm_striping_allocator_free al size in
  store_allocator ai al';;
  modify (λ s, s <| memory; usage; used_entry ::= λ u, u - size |>);;
  if used <=? 0 then
    store_allocator ai (Striping.shm_striping_allocator_reset al');;
    r ← shm_value_allocator_do_recycle ai;
    mret (r, true)
  else mret (0, recycled).

End ValueAllocator.

(** ** Updating one allocator *)
Lemma alloc_inv_at s s' os os' ai a' :
  geometry s → 0 ≤ ai < current_stripings s →
  vm_segment (memory s') = vm_segment (memory s) →
  vm_striping (memory s') = vm_striping (memory s) →
  allocators s' = <[Z.to_nat ai := a']> (allocators s) →
  NoDup os' → Forall (placed s') os' →
  used_entry (usage (memory s')) = sum_by (λ o, mem_size (mem_of s' o)) os' →
  allocator_ok s' os' ai a' → (∀ i, i ≠ ai → blocks s' os' i = blocks s os i) →
  alloc_inv s os → alloc_inv s' os'.
Proof.
  intros Hg Hai Hsg Hst Hal Hnd Hpl Hu Hok Hb (_&_&Ha&_).
  assert (stripings_per_segment s' = stripings_per_segment s) as Hps
    by (unfold stripings_per_segment; by rewrite Hsg, Hst).
  split_and!; [done..| |done]. unfold current_stripings. rewrite Hst. intros i Hi.
  pose proof (geometry_allocators s ai Hg Hai). rewrite Hal, znth_insert by lia.
  destruct (Z.eqb_spec ai i) as [<-|Hne]; [by exists a'|].
  destruct (Ha i Hi) as (a&Hz&?&?&?&?). exists a. split; [done|].
  unfold allocator_ok. rewrite Hps, Hst, Hb by done. done.
Qed.

(** an update that leaves the striping and its blocks alone *)
Lemma alloc_inv_touch s os ai a a' :
  geometry s → 0 ≤ ai < current_stripings s → znth (allocators s) ai = Some a →
  al_index a' = al_index a → offset_base a' = offset_base a → offset_end a' = offset_end a →
  offset_free a' = offset_free a → size_used a' = size_used a →
  alloc_inv s os → alloc_inv (s <| allocators := <[Z.to_nat ai := a']> (allocators s) |>) os.
Proof.
  intros Hg Hai Hz H1 H2 H3 H4 H5 Hinv. pose proof Hinv as (Hnd&Hpl&Ha&Hu).
  eapply alloc_inv_at; [done..| | |exact Hinv].
  - destruct (Ha ai Hai) as (b&Hzb&?&?&?&[]). simplify_eq.
    split_and!; [by rewrite H1|by rewrite H2|by rewrite H2, H3|].
    split; rewrite ?H2, ?H3, ?H4, ?H5; done.
  - done.
Qed.

Lemma pool_flag_insert s ai a' i f :
  geometry s → 0 ≤ ai < current_stripings s → 0 ≤ i →
  pool_flag (s <| allocators := <[Z.to_nat ai := a']> (allocators s) |>) i f ↔
  if ai =? i then in_which_pool a' = f else pool_flag s i f.
Proof.
  intros Hg Hai Hi. pose proof (geometry_allocators s ai Hg Hai). unfold pool_flag. cbn.
  rewrite znth_insert by lia. destruct (ai =? i); [|done]. naive_solver.
Qed.
Lemma pool_inv_touch s ai a a' :
  geometry s → 0 ≤ ai < current_stripings s → znth (allocators s) ai = Some a →
  in_which_pool a' = in_which_pool a → pool_inv s →
  pool_inv (s <| allocators := <[Z.to_nat ai := a']> (allocators s) |>).
Proof.
  intros Hg Hai Hz Hf (Hd&Hn&Hfl).
  set (s' := s <| allocators := <[Z.to_nat ai := a']> (allocators s) |>).
  assert (∀ i f, 0 ≤ i → pool_flag s i f → pool_flag s' i f) as Hk.
  { intros i f Hi Hp. apply pool_flag_insert; [done..|].
    destruct (Z.eqb_spec ai i) as [<-|]; [|done]. destruct Hp as (b&?&<-). by simplify_eq. }
  split_and!.
  - eapply queue_ok_frame; [..|exact Hd]; [done..|]. intros x i ? _ _. apply Hk. lia.
  - eapply queue_ok_frame; [..|exact Hn]; [done..|]. intros x i ? _ _. apply Hk. lia.
  - intros i Hi. destruct (Hfl i Hi) as [|[? ?]]; [left|right; split]; try apply Hk; done || lia.
Qed.
Lemma geometry_allocators_insert s n a' :
  geometry s → geometry (s <| allocators := <[n := a']> (allocators s) |>).
Proof.
  unfold geometry. cbn. rewrite length_insert. done.
Qed.

(** the place a striping would hand out next is not in use *)
Lemma alloc_fresh s os ai a size :
  geometry s → alloc_inv s os → 0 ≤ ai < current_stripings s →
  znth (allocators s) ai = Some a → 0 < size → size ≤ offset_end a - offset_free a →
  ∀ o, o ∈ os → hentry_addr o ≠ (ai / stripings_per_segment s, offset_free a).
Proof.
  intros Hg Hinv Hai Hz Hs Hroom o Ho Heq.
  destruct (alloc_inv_block _ _ _ Hinv Ho) as (b&Hzb&(_&Hb1&He1&Hown1)&Hin).
  destruct Hinv as (_&Hpl&Ha&_). destruct (Ha ai Hai) as (a2&Hz2&_&Hb2&He2&Hown2). simplify_eq.
  apply (proj1 (Forall_forall _ _) Hpl) in Ho. destruct Ho as (_&_&Hm&Hi&Hd&_).
  destruct (Striping.owns_in _ _ Hown1 _ Hin) as (?&?&?).
  pose proof (Striping.owns_range _ _ Hown1). pose proof (Striping.owns_range _ _ Hown2).
  cbn in *. rewrite Heq in Hm, Hd. cbn in *.
  destruct (decide (striping_of s o = ai)) as [Ho|Hne].
  { rewrite Ho in *. simplify_eq. lia. }
  destruct (stripings_pos s Hg) as [Hn _].
  pose proof (Z.div_mod (striping_of s o) (stripings_per_segment s)).
  pose proof (Z.div_mod ai (stripings_per_segment s)). destruct Hg as ([Hv _]&_).
  set (m1 := striping_of s o mod stripings_per_segment s) in *.
  set (m2 := ai mod stripings_per_segment s) in *.
  assert (m1 ≠ m2) by (intros ?; lia). assert (m1 + 1 ≤ m2 ∨ m2 + 1 ≤ m1) as [|] by lia; nia.
Qed.

(** ** Allocation *)
(** what an attempt to place an entry of [size] bytes may change, and its
    result: nothing more is in use, or the entry at the returned place is *)
Definition alloc_post (s : shmcache_context) (os : list Z) (size : Z) (r : option hptr)
    (s' : shmcache_context) : Prop :=
  ∃ al dg dn en ue, s' = s <| allocators := al |> <| doing := dg |> <| done_pool := dn |>
      <| hentries := en |> <| memory; usage; used_entry := ue |> ∧
    geometry s' ∧ pool_inv s' ∧
    match r with
    | None => en = hentries s ∧ alloc_inv s' os
    | Some p => (∀ q, q ≠ p → en !! q = hentries s !! q) ∧
        ∃ o, hentry_addr o = p ∧ o ∉ os ∧ alloc_inv s' (o :: os) ∧ mem_size (mem_of s' o) = size
    end.

Lemma alloc_post_trans s os size r s1 s2 :
  alloc_post s os size None s1 → alloc_post s1 os size r s2 → alloc_post s os size r s2.
Proof.
  intros (al1&dg1&dn1&en1&ue1&->&_&_&->&_) (al&dg&dn&en&ue&->&Hg&Hp&Hr).
  exists al, dg, dn, en, ue. by split_and!.
Qed.

Lemma mem_of_other s s' o q :
  (∀ q', q' ≠ q → hentries s' !! q' = hentries s !! q') → hentry_addr o ≠ q → hdr s' o = hdr s o.
Proof. intros H Hne. unfold hdr, hentry_at. by rewrite H. Qed.

Lemma room_insert s ai a a' :
  geometry s → 0 ≤ ai < current_stripings s → znth (allocators s) ai = Some a →
  Striping.shm_striping_allocator_free_size a' = Striping.shm_striping_allocator_free_size a →
  same_room s (s <| allocators := <[Z.to_nat ai := a']> (allocators s) |>).
Proof.
  intros Hg Hai Hz Hf i Hi. pose proof (geometry_allocators s ai Hg Hai). unfold room. cbn.
  rewrite znth_insert by lia. destruct (Z.eqb_spec ai i) as [<-|]; [|done]. rewrite Hz. cbn. by rewrite Hf.
Qed.
Lemma alloc_post_same s os size r s' : alloc_post s os size r s' →
  current_stripings s' = current_stripings s ∧ ∀ i, allocator_offset_of s' i = allocator_offset_of s i.
Proof. intros (al&dg&dn&en&ue&->&_). done. Qed.
(** a striping that fits still fits, and did before *)
Lemma fits_same s s' size x :
  current_stripings s' = current_stripings s →
  (∀ i, allocator_offset_of s' i = allocator_offset_of s i) → same_room s s' →
  fits s size x → fits s' size x.
Proof.
  intros Hc Ho Hr (i&n&Hi&->&Hn&Hle). exists i, n. rewrite Hc, Ho, Hr by done. done.
Qed.

Section alloc.
Context `{E : Env}.

(** lines 22-35: what is written into the header of the new entry *)
Lemma wp_init_header s p ix size (Q : option hptr → _ → Prop) :
  segs_ok s → place_ok s p sizeof_shm_hash_entry →
  (∀ e, he_memory e = Hentry_memory size ix p.2 →
     Q (Some p) (s <| hentries := <[p := e]> (hentries s) |>)) →
  wp (store_hentry p (λ e, e <| he_memory; mem_offset := p.2 |>);;
      store_hentry p (λ e, e <| he_memory; mem_index := ix |>);;
      store_hentry p (λ e, e <| he_memory; mem_size := size |>);;
      mret (Some p)) Q s.
Proof.
  intros Hs Hp HQ. wp_simpl. apply wp_store_hentry; [done..|]. wp_simpl.
  apply wp_store_hentry; [done..|]. wp_simpl. apply wp_store_hentry; [done..|]. wp_simpl.
  unfold hentry_at. cbn. rewrite !lookup_insert_eq. cbn.
  match goal with |- Q _ ?t => set (t' := t) end.
  assert (t' = s <| hentries := <[p := (default hentry_zero (hentries s !! p))
      <| he_memory := Hentry_memory size ix p.2 |>]> (hentries s) |>) as ->.
  { subst t'. cbn. rewrite !insert_insert_eq. done. }
  by apply HQ.
Qed.

Lemma striping_alloc_spec s os ai size :
  geometry s → pool_inv s → alloc_inv s os → 0 ≤ ai < current_stripings s →
  sizeof_shm_hash_entry ≤ size →
  wp (shm_value_striping_alloc ai size) (λ r s',
    ∃ al en, s' = s <| allocators := al |> <| hentries := en |> ∧
    (r = None → ¬ fits s size (allocator_offset_of s ai) ∧ same_room s s') ∧
    alloc_post s os size r
      (if r is Some _ then s' <| memory; usage; used_entry ::= λ u, u + size |> else s')) s.
Proof.
  intros Hg Hp Hinv Hai Hsz. pose proof Hinv as (Hnd&Hpl&Ha&Hu).
  destruct (Ha ai Hai) as (a&Hz&Hix&Hba&Hen&Hown).
  pose proof (geometry_allocators s ai Hg Hai) as Hlen. pose proof (geometry_segs s Hg) as Hs.
  destruct (geometry_base s ai Hg ltac:(lia)) as [Hb0 Hb1].
  destruct (geometry_segment_of s ai Hg Hai) as [Hsg Hsg256].
  pose proof (Striping.owns_range _ _ Hown) as Hr. unfold sizeof_shm_hash_entry in Hsz.
  unfold shm_value_striping_alloc. wp_simpl. eapply wp_load_allocator; [done|].
  destruct (Striping.shm_striping_allocator_alloc (g_current_time s) a size) as [off a'] eqn:Eal.
  wp_simpl. apply wp_store_allocator; [done|].
  assert (0 < size) as Hpos by lia. assert (0 ≤ offset_base a) as Hbpos by lia.
  destruct (Striping.alloc_result _ _ _ _ _ Hpos Hr Hbpos Eal)
    as [(->&Hfull&->)|(Hoff&Hroom&_&Hus&Hfr&Hba'&Hen'&Hix'&Hfl)].
  { rewrite (proj2 (Z.ltb_lt _ _)) by lia. wp_simpl.
    set (al' := <[Z.to_nat ai := _]> (allocators s)). exists al', (hentries s). split; [done|].
    split.
    { intros _. split; [|by eapply room_insert].
      intros (i&n&Hi&<-%allocator_offset_inj&Hn&Hle). unfold room in Hn. rewrite Hz in Hn.
      injection Hn as <-. unfold Striping.shm_striping_allocator_free_size in Hle. lia. }
    exists al', (doing s), (done_pool s), (hentries s), (used_entry (usage (memory s))).
    split; [by destruct s as [????[????????[]]]|]. split_and!; [| |done|].
    - by apply geometry_allocators_insert.
    - by eapply pool_inv_touch.
    - by eapply alloc_inv_touch. }
  rewrite (proj2 (Z.ltb_ge _ _)) by lia. rewrite Hix', Hix. cbn [ssp_segment]. wp_simpl.
  apply wp_get_value_segment; [done|done|]. intros b Hb. rewrite (proj2 (Z.eqb_neq _ _) Hb).
  set (p := (ai / stripings_per_segment s, off)).
  apply (wp_init_header _ p); [done|unfold sizeof_shm_hash_entry; split_and!; cbn; lia|]. intros e He.
  eexists _, _. split; [done|]. split; [done|].
  set (s' := _ <| memory; usage; used_entry ::= _ |>). set (o := offset_of_addr p).
  assert (hentry_addr o = p) as Hop.
  { apply hentry_addr_of_addr; cbn; [lia|]. destruct Hg as ([_ ?]&_). lia. }
  assert (∀ x, x ∈ os → hentry_addr x ≠ p) as Hfresh.
  { subst p. rewrite Hoff. by eapply alloc_fresh. }
  assert (∀ q, q ≠ p → hentries s' !! q = hentries s !! q) as Hoth.
  { intros q Hq. cbn. by apply lookup_insert_ne. }
  assert (mem_of s' o = Hentry_memory size (Ssp (ai / stripings_per_segment s) ai) off) as Hmo.
  { unfold mem_of, hdr, hentry_at. rewrite Hop. cbn. rewrite lookup_insert_eq. cbn.
    rewrite He. cbn. by rewrite Hoff. }
  assert (∀ x, x ∈ os → mem_of s' x = mem_of s x) as Hmem.
  { intros x Hx. unfold mem_of. rewrite (mem_of_other s s' x p); [done..|by apply Hfresh]. }
  assert (o ∉ os) as Hnew by (intros Hin; by apply (Hfresh _ Hin)).
  eexists _, (doing s), (done_pool s), _, _. split; [done|]. split_and!.
  { exact (geometry_allocators_insert s _ a' Hg). }
  { exact (pool_inv_touch s ai a a' Hg Hai Hz Hfl Hp). }
  { exact Hoth. }
  exists o. split_and!; [done|done| |by rewrite Hmo].
  assert (∀ i, blocks s' (o :: os) i
             = if decide (ai = i) then Striping.Block off size :: blocks s os i else blocks s os i) as Hbl.
  { intros i. assert (striping_of s' o = ai) as Hst by (unfold striping_of; by rewrite Hmo).
    unfold blocks at 1. rewrite filter_cons. rewrite <-(blocks_ext s s' os) by done.
    destruct (decide (striping_of s' o = i)), (decide (ai = i)); [|congruence..|done].
    cbn [fmap list_fmap]. f_equal. unfold entry_block. by rewrite Hmo. }
  eapply (alloc_inv_at s s' os (o :: os) ai a'); [done|done|done|done|done|by constructor| | | | |done].
  - constructor.
    + unfold placed, striping_of. rewrite Hmo, Hop. cbn. unfold sizeof_shm_hash_entry. done.
    + rewrite Forall_forall in *. intros x Hx. destruct (Hpl x Hx) as (?&?&?&?&?&?).
      unfold placed, striping_of in *. rewrite Hmem by done. done.
  - cbn [sum_by foldr]. rewrite Hmo. cbn. rewrite Hu.
    assert (sum_by (λ x, mem_size (mem_of s' x)) os = sum_by (λ x, mem_size (mem_of s x)) os) as Heq
      by (apply sum_by_ext; intros x Hx; by rewrite Hmem).
    unfold sum_by in *. lia.
  - rewrite <-Hix' in Hix. split_and!; [done|by rewrite Hba'|by rewrite Hen', Hba'|].
    rewrite Hbl, decide_True by done. apply (Striping.owns_alloc _ _ (blocks s os ai)) in Eal;
      [|done|lia|lia]. by rewrite decide_True in Eal by lia.
  - intros i Hne. by rewrite Hbl, decide_False.
Qed.

(** the iterator of [doing] after [retire] stands before the rest of the queue *)
Definition rest_of_queue (s : shmcache_context) (l : list Z) : Prop :=
  ∃ k, Pool.at_pos (doing s) k ∧ -1 ≤ k < Pool.count (doing s) ∧
    (k = -1 → Pool.count (doing s) < capacity (queue (obj_pool_info (doing s))) - 1) ∧
    drop (Z.to_nat (k + 1)) (Pool.contents (doing s)) = l.

(** an allocator that is not queued in [doing] any more *)
Lemma pool_inv_unqueued s op' :
  queue_ok s SHMCACHE_STRIPING_ALLOCATOR_POOL_DOING op' → pool_inv s → pool_inv (s <| doing := op' |>).
Proof. intros Hq (_&Hn&Hfl). split_and!; [exact Hq|exact Hn|exact Hfl]. Qed.

Lemma retire_move_spec s op' os size ai a :
  geometry s → alloc_inv s os → pool_inv s → 0 ≤ ai < current_stripings s →
  znth (allocators s) ai = Some a → pool_flag s ai SHMCACHE_STRIPING_ALLOCATOR_POOL_DOING →
  allocator_offset_of s ai ∉ Pool.contents op' →
  queue_ok s SHMCACHE_STRIPING_ALLOCATOR_POOL_DOING op' →
  wp (al ← load_allocator ai;
      store_allocator ai (al <| in_which_pool := SHMCACHE_STRIPING_ALLOCATOR_POOL_DONE |>);;
      on_done (Pool.shm_object_pool_push (allocator_offset_of s ai));;
      mret tt) (λ _ s', alloc_post s os size None s' ∧ same_room s s' ∧ doing s' = op')
    (s <| doing := op' |>).
Proof.
  intros Hg Hinv (Hd&Hn&Hfl) Hai Hz Hf Hni Hq. pose proof (geometry_allocators s ai Hg Hai) as Hlen.
  wp_simpl. eapply wp_load_allocator; [done|]. wp_simpl. apply wp_store_allocator; [done|].
  set (a' := a <| in_which_pool := SHMCACHE_STRIPING_ALLOCATOR_POOL_DONE |>).
  set (s1 := s <| allocators := <[Z.to_nat ai := a']> (allocators s) |>).
  assert (geometry s1) as Hg1 by exact (geometry_allocators_insert s _ a' Hg).
  assert (∀ i f, 0 ≤ i → i ≠ ai → pool_flag s i f → pool_flag s1 i f) as Hk.
  { intros i f Hi Hne Hp. apply pool_flag_insert; [done..|]. by rewrite (proj2 (Z.eqb_neq _ _)). }
  assert (pool_flag s1 ai SHMCACHE_STRIPING_ALLOCATOR_POOL_DONE) as Hnew.
  { apply pool_flag_insert; [done..|lia|]. by rewrite Z.eqb_refl. }
  assert (∀ x i, x = allocator_offset_of s i → x ∈ Pool.contents (done_pool s) → i ≠ ai) as Hnot.
  { intros x i -> Hx ->. destruct Hn as (_&_&_&Hm). apply (proj1 (Forall_forall _ _) Hm) in Hx.
    destruct Hx as (j&_&<-%allocator_offset_inj&Hfj). by pose proof (pool_flag_det _ _ _ _ Hf Hfj). }
  assert (queue_ok s1 SHMCACHE_STRIPING_ALLOCATOR_POOL_DONE (done_pool s)) as Hn1.
  { eapply queue_ok_frame; [..|exact Hn]; [done..|]. intros x i Hi Hx Hin. apply Hk; [lia|].
    by eapply Hnot. }
  wp_simpl. apply wp_on_done. eapply wp_mono.
  { apply (queue_push_spec s1 SHMCACHE_STRIPING_ALLOCATOR_POOL_DONE (done_pool s) (allocator_offset_of s ai)); [done|done| |].
    - exists ai. split; [exact Hai|by split].
    - intros Hx. by apply (Hnot (allocator_offset_of s ai) ai) in Hx. }
  intros r dn (_&Hdn&Hc&_). wp_simpl.
  split; [|split; [exact (room_insert s ai a a' Hg Hai Hz eq_refl)|done]].
  eexists _, op', dn, (hentries s), (used_entry (usage (memory s))).
  split; [by destruct s as [????[????????[]]]|]. split_and!; [exact Hg1| |done|].
  - split_and!; [|exact Hdn|].
    + eapply queue_ok_frame; [..|exact Hq]; [done..|]. intros x i Hi -> Hin. apply Hk; [lia|].
      by intros ->.
    + intros i Hi. cbn [done_pool]. destruct (Z.eqb_spec ai i) as [<-|Hne].
      * right. split; [exact Hnew|]. cbn. rewrite Hc. apply elem_of_app. right. by left.
      * destruct (Hfl i Hi) as [|[? ?]]; [left; apply Hk; done || lia|]. right.
        split; [apply Hk; done || lia|]. cbn. rewrite Hc. apply elem_of_app. by left.
  - exact (alloc_inv_touch s os ai a a' Hg Hai Hz eq_refl eq_refl eq_refl eq_refl eq_refl Hinv).
Qed.

Lemma alloc_post_doing s op' os size :
  geometry s → alloc_inv s os → pool_inv s →
  queue_ok s SHMCACHE_STRIPING_ALLOCATOR_POOL_DOING op' →
  alloc_post s os size None (s <| doing := op' |>).
Proof.
  intros Hg Hinv Hp Hq.
  exists (allocators s), op', (done_pool s), (hentries s), (used_entry (usage (memory s))).
  split; [by destruct s as [????[????????[]]]|]. split; [done|].
  split; [by apply pool_inv_unqueued|done].
Qed.

Lemma retire_spec s os size ai k :
  geometry s → alloc_inv s os → pool_inv s → 0 ≤ ai < current_stripings s →
  Pool.at_pos (doing s) k → 0 ≤ k < Pool.count (doing s) →
  Pool.contents (doing s) !! Z.to_nat k = Some (allocator_offset_of s ai) →
  wp (retire ai (allocator_offset_of s ai)) (λ _ s', alloc_post s os size None s' ∧ same_room s s' ∧
    rest_of_queue s' (drop (Z.to_nat (k + 1)) (Pool.contents (doing s)))) s.
Proof.
  intros Hg Hinv Hp Hai Hk Hkr Hx. pose proof Hp as (Hd&_&_). pose proof Hd as (Hwf&_&Hnd&Hm).
  destruct (proj1 (proj2 (proj2 Hinv)) ai Hai) as (a&Hz&_).
  assert (pool_flag s ai SHMCACHE_STRIPING_ALLOCATOR_POOL_DOING) as Hf.
  { apply list_elem_of_lookup_2, (proj1 (Forall_forall _ _) Hm) in Hx.
    destruct Hx as (j&_&<-%allocator_offset_inj&?). done. }
  unfold retire. wp_simpl. eapply wp_load_allocator; [done|]. wp_simpl. case_match.
  2: { split.
       - pose proof (alloc_post_doing s (doing s) os size Hg Hinv Hp Hd) as H0.
         by destruct s.
       - split; [done|]. exists k. split_and!; done || lia. }
  wp_simpl. apply wp_on_doing. eapply wp_mono; [by apply (Pool.remove_spec (doing s) k)|].
  intros r op' (Hwf'&Hcap'&_&Hk'&Hcnt&Hc&Hr).
  assert (queue_ok s SHMCACHE_STRIPING_ALLOCATOR_POOL_DOING op') as Hd'.
  { destruct Hd as (_&Hcap&_). split_and!; [done|by rewrite Hcap'| |].
    - rewrite Hc. eapply sublist_NoDup; [done|apply sublist_delete].
    - rewrite Hc. rewrite Forall_forall in *. intros y Hy. apply Hm.
      eapply elem_of_sublist; [done|apply sublist_delete]. }
  assert (∀ s', doing s' = op' →
    rest_of_queue s' (drop (Z.to_nat (k + 1)) (Pool.contents (doing s)))) as Hrest.
  { intros s' Hs'. unfold rest_of_queue. rewrite Hs'. exists (k - 1). pose proof (Pool.count_range _ Hwf). split_and!; [done|lia|lia|lia|].
    rewrite Hc, delete_take_drop. rewrite Z.sub_add.
    pose proof (lookup_lt_Some _ _ _ Hx) as Hlt. rewrite drop_app_ge by (rewrite length_take; lia).
    rewrite length_take, Nat.min_l, Nat.sub_diag by lia. rewrite drop_0.
    by replace (Z.to_nat (k + 1)) with (S (Z.to_nat k)) by lia. }
  wp_step. destruct (r =? allocator_offset_of s ai).
  - eapply wp_mono; [eapply (retire_move_spec s op' os size ai a); try done|].
    + rewrite Hc. intros Hin. apply list_elem_of_lookup in Hin as [j Hj].
      destruct (decide (j < Z.to_nat k)%nat).
      * rewrite list_lookup_delete_lt in Hj by done.
        pose proof (NoDup_lookup _ _ _ _ Hnd Hj Hx). lia.
      * rewrite list_lookup_delete_ge in Hj by lia.
        pose proof (NoDup_lookup _ _ _ _ Hnd Hj Hx). lia.
    + intros _ s' (?&?&?). split_and!; [done|done|by apply Hrest].
  - split_and!; [by apply alloc_post_doing|done|by apply Hrest].
Qed.

Lemma do_alloc_loop_spec fuel s os size k :
  geometry s → alloc_inv s os → pool_inv s → sizeof_shm_hash_entry ≤ size →
  Pool.at_pos (doing s) k → 0 ≤ k ≤ Pool.count (doing s) →
  (Z.to_nat (Pool.count (doing s) - k) < fuel)%nat →
  wp (do_alloc_loop fuel size (default (-1) (Pool.contents (doing s) !! Z.to_nat k)))
    (λ r s', alloc_post s os size r s' ∧
       (r = None → Forall (λ x, ¬ fits s size x) (drop (Z.to_nat k) (Pool.contents (doing s))))) s.
Proof.
  revert s k. induction fuel as [|fuel IH]; intros s k Hg Hinv Hp Hsz Hk Hkr Hf; [lia|].
  cbn [do_alloc_loop]. pose proof Hp as (Hd&_&_). pose proof Hd as (Hwf&_&Hnd&Hm).
  destruct (Pool.contents (doing s) !! Z.to_nat k) as [x|] eqn:Hx; cbn [default id].
  2: { change (-1 >? 0) with false. wp_simpl.
       pose proof (alloc_post_doing s (doing s) os size Hg Hinv Hp Hd) as H0.
       split; [by destruct s|]. intros _. apply lookup_ge_None in Hx. by rewrite drop_ge. }
  apply list_elem_of_lookup_2 in Hx as Hin. apply (proj1 (Forall_forall _ _) Hm) in Hin.
  destruct Hin as (ai&Hai&->&Hfl). pose proof (allocator_offset_pos s ai Hg ltac:(lia)).
  apply lookup_lt_Some in Hx as Hlt. rewrite Pool.length_contents in Hlt by done.
  rewrite Z.gtb_ltb, (proj2 (Z.ltb_lt _ _)) by done. wp_simpl. apply wp_allocator_index_of.
  wp_simpl. eapply wp_mono; [by apply (striping_alloc_spec s os)|].
  intros r s1 (al&en&->&Hno&Hpost). destruct r as [p|]; [wp_simpl; by split|].
  destruct (Hno eq_refl) as [Hno1 Hroom1]. clear Hno.
  set (s1 := s <| allocators := al |> <| hentries := en |>) in *.
  assert (geometry s1 ∧ pool_inv s1 ∧ alloc_inv s1 os) as (Hg1&Hp1&Hinv1).
  { destruct Hpost as (al1&dg1&dn1&en1&ue1&->&?&?&?&?). done. }
  wp_simpl. eapply wp_mono.
  { apply (retire_spec s1 os size ai k); try done. change (doing s1) with (doing s). lia. }
  intros _ s2 (Hpost2&Hroom2&(k'&Hk'&Hkr'&Hkm&Hdrop)). change (doing s1) with (doing s) in Hdrop.
  assert (geometry s2 ∧ pool_inv s2 ∧ alloc_inv s2 os) as (Hg2&Hp2&Hinv2).
  { destruct Hpost2 as (al1&dg1&dn1&en1&ue1&->&?&?&?&?). done. }
  pose proof Hp2 as (Hd2&_&_). pose proof Hd2 as (Hwf2&_).
  wp_simpl. apply wp_on_doing. eapply wp_mono; [by apply (Pool.next_spec (doing s2) k')|].
  intros x op' [-> ->]. set (s3 := s2 <| doing := _ |>).
  assert (alloc_post s2 os size None s3) as Hpost3.
  { apply alloc_post_doing; [done..|]. by apply queue_ok_index. }
  assert (Pool.count (doing s2) - (k' + 1) = Pool.count (doing s) - (k + 1)) as Hcnt.
  { apply (f_equal length) in Hdrop. rewrite !length_drop, !Pool.length_contents in Hdrop by done. lia. }
  eapply wp_mono.
  - apply (IH s3 (k' + 1)); try done; [by destruct Hpost3 as (al1&dg1&dn1&en1&ue1&->&?&?&?&?)..| |].
    + change (Pool.count (doing s3)) with (Pool.count (doing s2)). lia.
    + change (Pool.count (doing s3)) with (Pool.count (doing s2)). lia.
  - intros r s4 [Hpost4 Hnone]. split.
    + eapply alloc_post_trans; [exact Hpost|].
      eapply alloc_post_trans; [exact Hpost2|]. by eapply alloc_post_trans.
    + intros Hr. specialize (Hnone Hr). destruct (alloc_post_same _ _ _ _ _ Hpost2) as [Hc2 Ho2].
      change (Pool.contents (doing s3)) with (Pool.contents (doing s2)) in Hnone. rewrite Hdrop in Hnone.
      rewrite (drop_S _ _ _ Hx). constructor; [done|].
      replace (S (Z.to_nat k)) with (Z.to_nat (k + 1)) by lia.
      eapply Forall_impl; [exact Hnone|]. intros y Hy Hfit. apply Hy.
      apply (fits_same s1 s3); [exact Hc2|exact Ho2|exact Hroom2|].
      by apply (fits_same s s1).
Qed.

Lemma do_alloc_spec s os size :
  geometry s → alloc_inv s os → pool_inv s → sizeof_shm_hash_entry ≤ size →
  wp (shm_value_allocator_do_alloc size) (λ r s', alloc_post s os size r s' ∧
    (r = None → ¬ has_room s size)) s.
Proof.
  intros Hg Hinv Hp Hsz. pose proof Hp as (Hd&_&_). pose proof Hd as (Hwf&_&Hnd&Hm).
  unfold shm_value_allocator_do_alloc. wp_simpl. apply wp_on_doing.
  eapply wp_mono; [by apply Pool.first_spec|]. intros x op' [-> ->].
  pose proof (Pool.count_range _ Hwf).
  assert (∀ i, alloc_post s os size None (s <| doing := (doing s) <| index := i |> |>)) as Hpost.
  { intros i. apply alloc_post_doing; [done..|]. by apply queue_ok_index. }
  case_bool_decide as Hnil.
  { rewrite Hnil. cbn [lookup list_lookup default do_alloc_loop].
    change (-1 >? 0) with false. wp_simpl. split; [apply Hpost|]. intros _. unfold has_room.
    rewrite Hnil. by intros ?%Exists_nil. }
  specialize (Hpost (Pool.slot (doing s) 0)). set (s1 := s <| doing := _ |>) in *.
  assert (geometry s1 ∧ pool_inv s1 ∧ alloc_inv s1 os) as (Hg1&Hp1&Hinv1).
  { destruct Hpost as (al1&dg1&dn1&en1&ue1&->&?&?&?&?). done. }
  eapply wp_mono.
  - apply (do_alloc_loop_spec _ s1 os size 0); try done;
      change (Pool.count (doing s1)) with (Pool.count (doing s)); lia.
  - intros r s2 [Hpost2 Hnone]. split; [by eapply alloc_post_trans|]. intros Hr.
    specialize (Hnone Hr). apply Forall_not_Exists. exact Hnone.
Qed.
End alloc.

(** ** Freeing *)
Definition free_post (s : shmcache_context) (os : list Z) (s' : shmcache_context) : Prop :=
  ∃ al dg dn ue, s' = s <| allocators := al |> <| doing := dg |> <| done_pool := dn |>
      <| memory; usage; used_entry := ue |> ∧
    geometry s' ∧ pool_inv s' ∧ alloc_inv s' os.

Lemma remove_first_sublist x l : Pool.remove_first x l `sublist_of` l.
Proof.
  induction l as [|y l IH]; [constructor|]. simpl. destruct (y =? x); by constructor.
Qed.
Lemma remove_first_NoDup x l : NoDup l → x ∉ Pool.remove_first x l.
Proof.
  induction l as [|y l IH]; intros Hnd; [set_solver|]. simpl.
  apply NoDup_cons in Hnd as [Hy Hnd]. destruct (Z.eqb_spec y x); [by subst|set_solver].
Qed.
Lemma remove_first_other x y l : y ∈ l → y ≠ x → y ∈ Pool.remove_first x l.
Proof.
  induction l as [|z l IH]; intros Hy Hne; [set_solver|]. simpl.
  destruct (Z.eqb_spec z x); set_solver.
Qed.

(** [o] is alone in its striping: freeing it, with [os] left, empties it *)
Definition empties (s : shmcache_context) (o : Z) (os : list Z) : bool :=
  forallb (λ x, negb (striping_of s x =? striping_of s o)) os.
Lemma empties_ext s s' o os :
  (∀ x, x ∈ o :: os → striping_of s' x = striping_of s x) → empties s' o os = empties s o os.
Proof.
  intros H. unfold empties. induction os as [|x os IH]; [done|]. cbn [forallb].
  rewrite IH by set_solver. by rewrite (H x), (H o) by set_solver.
Qed.
Lemma empties_blocks s o os : empties s o os = true ↔ blocks s os (striping_of s o) = [].
Proof.
  unfold empties, blocks. induction os as [|x os IH]; [done|]. cbn [forallb]. rewrite filter_cons.
  destruct (Z.eqb_spec (striping_of s x) (striping_of s o)); case_decide; done.
Qed.

(** the striping with the index [i] is in the queue [doing]: it moves there
    when it was given up *)
Definition requeued (s : shmcache_context) (i : Z) (s' : shmcache_context) : Prop :=
  pool_flag s' i SHMCACHE_STRIPING_ALLOCATOR_POOL_DOING ∧
  (pool_flag s i SHMCACHE_STRIPING_ALLOCATOR_POOL_DOING → doing s' = doing s ∧ done_pool s' = done_pool s) ∧
  (pool_flag s i SHMCACHE_STRIPING_ALLOCATOR_POOL_DONE →
   Pool.contents (doing s') = Pool.contents (doing s) ++ [allocator_offset_of s i] ∧
   Pool.contents (done_pool s') = Pool.remove_first (allocator_offset_of s i) (Pool.contents (done_pool s))).
(** the queues after freeing [o] *)
Definition queues_after_free (s : shmcache_context) (o : Z) (os : list Z) (s' : shmcache_context) : Prop :=
  if empties s o os then
    requeued s (striping_of s o) s' ∧ room s' (striping_of s o) = Some (vsize (vm_striping (memory s)))
  else doing s' = doing s ∧ done_pool s' = done_pool s.

Section free.
Context `{E : Env}.

Lemma do_recycle_spec s os ai :
  geometry s → alloc_inv s os → pool_inv s → 0 ≤ ai < current_stripings s →
  wp (shm_value_allocator_do_recycle ai) (λ r s', r = 0 ∧ free_post s os s' ∧
    requeued s ai s' ∧ room s' ai = room s ai) s.
Proof.
  intros Hg Hinv Hp Hai. pose proof Hp as (Hd&Hn&Hfl).
  destruct (proj1 (proj2 (proj2 Hinv)) ai Hai) as (a&Hz&_).
  pose proof (geometry_allocators s ai Hg Hai) as Hlen.
  unfold shm_value_allocator_do_recycle. wp_simpl. eapply wp_load_allocator; [done|].
  destruct (Hfl ai Hai) as [Hf|[Hf Hin]].
  { destruct Hf as (b&Hb&Hf). simplify_eq. rewrite Hf. const_bool. wp_simpl. split; [done|]. split; [|split].
    - exists (allocators s), (doing s), (done_pool s), (used_entry (usage (memory s))).
      split; [by destruct s as [????[????????[]]]|done].
    - split; [by exists a|]. split; [done|]. intros (b&Hb&Hf'). simplify_eq. by rewrite Hf in Hf'.
    - done. }
  pose proof Hf as (b&Hb&Hf'). simplify_eq. rewrite Hf'. const_bool. wp_simpl. apply wp_on_done.
  pose proof Hn as (Hwf&Hcap&Hnd&Hm).
  eapply wp_mono.
  { apply (Pool.remove_by_spec (done_pool s) (allocator_offset_of s ai)); [done|].
    eapply Forall_impl; [exact Hm|]. intros x. by apply pool_member_pos. }
  intros r dn (Hwf'&Hcap'&Hc&Hr). rewrite decide_True in Hr by done.
  rewrite (proj2 (Z.leb_le _ _)) by lia. wp_simpl. eapply wp_load_allocator; [done|].
  wp_simpl. apply wp_store_allocator; [done|].
  set (a' := a <| in_which_pool := SHMCACHE_STRIPING_ALLOCATOR_POOL_DOING |>).
  set (s1 := s <| allocators := <[Z.to_nat ai := a']> (allocators s) |>).
  assert (geometry s1) as Hg1 by exact (geometry_allocators_insert s _ a' Hg).
  assert (∀ i f, 0 ≤ i → i ≠ ai → pool_flag s i f → pool_flag s1 i f) as Hk.
  { intros i f Hi Hne Hq. apply pool_flag_insert; [done..|]. by rewrite (proj2 (Z.eqb_neq _ _)). }
  assert (pool_flag s1 ai SHMCACHE_STRIPING_ALLOCATOR_POOL_DOING) as Hnew.
  { apply pool_flag_insert; [done..|lia|]. by rewrite Z.eqb_refl. }
  assert (∀ x i, x = allocator_offset_of s i → x ∈ Pool.contents (doing s) → i ≠ ai) as Hnot.
  { intros x i -> Hx ->. destruct Hd as (_&_&_&Hmd). apply (proj1 (Forall_forall _ _) Hmd) in Hx.
    destruct Hx as (j&_&<-%allocator_offset_inj&Hfj). by pose proof (pool_flag_det _ _ _ _ Hf Hfj). }
  assert (queue_ok s1 SHMCACHE_STRIPING_ALLOCATOR_POOL_DOING (doing s)) as Hd1.
  { eapply queue_ok_frame; [..|exact Hd]; [done..|]. intros x i Hi Hx Hxin. apply Hk; [lia|].
    by eapply Hnot. }
  wp_simpl. apply wp_on_doing. eapply wp_mono.
  { apply (queue_push_spec s1 SHMCACHE_STRIPING_ALLOCATOR_POOL_DOING (doing s)
      (allocator_offset_of s ai)); [done|done| |].
    - exists ai. split; [exact Hai|by split].
    - intros Hx. by apply (Hnot (allocator_offset_of s ai) ai) in Hx. }
  intros r' dg (_&Hdg&Hdgc&_). wp_simpl. split; [done|].
  split; [|split; [split; [exact Hnew|split]|]].
  2: { intros Hf2. by pose proof (pool_flag_det _ _ _ _ Hf Hf2). }
  2: { intros _. split; [exact Hdgc|exact Hc]. }
  2: { unfold room. cbn. rewrite Hz. rewrite znth_insert by lia. by rewrite Z.eqb_refl. }
  eexists _, dg, dn, (used_entry (usage (memory s))).
  split; [by destruct s as [????[????????[]]]|]. split_and!; [exact Hg1| |].
  - split_and!; [exact Hdg| |].
    + eapply queue_ok_frame with (s := s); [done|done| |].
      * intros x i Hi -> Hx. apply Hk; [lia|]. intros ->. cbn in Hx. rewrite Hc in Hx.
        by eapply remove_first_NoDup.
      * split_and!; cbn; [done|by rewrite Hcap'| |]; rewrite Hc.
        -- eapply sublist_NoDup; [done|apply remove_first_sublist].
        -- rewrite Forall_forall in *. intros x Hx. apply Hm.
           eapply elem_of_sublist; [done|apply remove_first_sublist].
    + intros i Hi. cbn. destruct (Z.eqb_spec ai i) as [<-|Hne]; [by left|].
      destruct (Hfl i Hi) as [|[? ?]]; [left; apply Hk; done || lia|right].
      split; [apply Hk; done || lia|]. rewrite Hc. apply remove_first_other; [done|].
      intros Heq. by apply Hne, (allocator_offset_inj s).
  - exact (alloc_inv_touch s os ai a a' Hg Hai Hz eq_refl eq_refl eq_refl eq_refl eq_refl Hinv).
Qed.

Lemma release_fields a n :
  al_index (Striping.release a n) = al_index a ∧
  offset_base (Striping.release a n) = offset_base a ∧
  offset_end (Striping.release a n) = offset_end a ∧
  in_which_pool (Striping.release a n) = in_which_pool a.
Proof. unfold Striping.release, Striping.shm_striping_allocator_free. by case_match. Qed.

Lemma alloc_inv_release s o os a :
  geometry s → alloc_inv s (o :: os) → znth (allocators s) (striping_of s o) = Some a →
  alloc_inv (s <| allocators := <[Z.to_nat (striping_of s o) :=
                 Striping.release a (mem_size (mem_of s o))]> (allocators s) |>
               <| memory; usage; used_entry ::= λ u, u - mem_size (mem_of s o) |>) os.
Proof.
  intros Hg Hinv Hz. pose proof Hinv as (Hnd&Hpl&Ha&Hu).
  apply NoDup_cons in Hnd as [Hno Hnd]. apply Forall_cons in Hpl as [Hpo Hpl].
  assert (0 ≤ striping_of s o < current_stripings s) as Hai by apply Hpo.
  destruct (Ha _ Hai) as (b&Hb&Hix&Hba&Hen&Hown). simplify_eq.
  destruct (release_fields a (mem_size (mem_of s o))) as (H1&H2&H3&_).
  eapply alloc_inv_at; [exact Hg|exact Hai|done|done|done|done|exact Hpl| | | |exact Hinv].
  - transitivity (sum_by (λ x, mem_size (mem_of s x)) os); [|done]. cbn. rewrite Hu.
    unfold sum_by. cbn [foldr]. lia.
  - split_and!; [by rewrite H1|by rewrite H2|by rewrite H3, H2|].
    assert (blocks s (o :: os) (striping_of s o) = entry_block s o :: blocks s os (striping_of s o)) as Hbl.
    { unfold blocks. by rewrite filter_cons, decide_True. }
    rewrite Hbl in Hown. exact (Striping.owns_release a [] _ _ Hown).
  - intros i Hi. unfold blocks at 2. by rewrite filter_cons, decide_False.
Qed.

(** the bytes in use after the release tell whether the striping is empty *)
Lemma released_used s o os : alloc_inv s (o :: os) →
  ∀ a, znth (allocators s) (striping_of s o) = Some a →
  (size_used a - mem_size (mem_of s o) ≤ 0 ↔ empties s o os = true) ∧
  offset_end a = offset_base a + vsize (vm_striping (memory s)).
Proof.
  intros Hinv a Hz. destruct (alloc_inv_block s (o :: os) o Hinv ltac:(left)) as (b&Hb&(_&_&He&Hown)&_).
  simplify_eq. split; [|done]. rewrite empties_blocks.
  unfold blocks at 1 in Hown. rewrite filter_cons, decide_True, fmap_cons in Hown by done.
  fold (blocks s os (striping_of s o)) in Hown. destruct Hown as [_ Hu Hin _ _]. rewrite Hu.
  change (Striping.sum_sizes (entry_block s o :: blocks s os (striping_of s o)))
    with (mem_size (mem_of s o) + Striping.sum_sizes (blocks s os (striping_of s o))).
  destruct (Striping.sum_sizes_pos (blocks s os (striping_of s o))) as [H0 Hnil].
  { intros c Hc. apply (Hin c). by right. }
  split; [intros; apply Hnil; lia|]. intros ->. cbn. lia.
Qed.

Lemma value_free_spec s o os recycled :
  geometry s → alloc_inv s (o :: os) → pool_inv s →
  wp (shm_value_allocator_free (hentry_addr o) recycled) (λ r s',
    r.1 = 0 ∧ r.2 = recycled || empties s o os ∧ free_post s os s' ∧ queues_after_free s o os s') s.
Proof.
  intros Hg Hinv Hp. pose proof (released_used s o os Hinv) as Hused. destruct (alloc_inv_place s (o :: os) o Hg Hinv ltac:(left)) as ((_&Hpl&_)&_&_).
  assert (0 ≤ striping_of s o < current_stripings s) as Hai.
  { destruct Hinv as (_&[Hpo _]%Forall_cons&_). apply Hpo. }
  pose proof (geometry_allocators s _ Hg Hai) as Hlen.
  destruct (proj1 (proj2 (proj2 Hinv)) _ Hai) as (a&Hz&_).
  unfold shm_value_allocator_free. wp_simpl.
  apply wp_load_hentry; [by apply geometry_segs|done|]. wp_simpl.
  change (ssp_striping (mem_index (he_memory (hentry_at s (hentry_addr o))))) with (striping_of s o).
  change (mem_size (he_memory (hentry_at s (hentry_addr o)))) with (mem_size (mem_of s o)).
  set (ai := striping_of s o) in *. set (size := mem_size (mem_of s o)).
  eapply wp_load_allocator; [done|].
  pose proof (alloc_inv_release s o os a Hg Hinv Hz) as Hinv'.
  specialize (Hused a Hz). fold ai size in Hused.
  set (s1 := s <| allocators := _ |> <| memory; usage; used_entry ::= _ |>) in Hinv'.
  destruct (release_fields a size) as (_&_&_&Hfl).
  assert (geometry s1) as Hg1 by exact (geometry_allocators_insert s _ _ Hg).
  assert (pool_inv s1) as Hp1 by exact (pool_inv_touch s ai a _ Hg Hai Hz Hfl Hp).
  fold ai size in s1. unfold Striping.release in s1.
  destruct (Striping.shm_striping_allocator_free a size) as [used a'] eqn:Ea.
  assert (used ≤ 0 ↔ empties s o os = true) as Hem.
  { rewrite <-(proj1 Hused). unfold Striping.shm_striping_allocator_free in Ea. by simplify_eq. }
  wp_simpl. apply wp_store_allocator; [done|]. wp_simpl. unfold queues_after_free.
  destruct (Z.leb_spec used 0) as [Hle|Hgt].
  - rewrite (proj1 Hem Hle), orb_true_r. wp_simpl. apply wp_store_allocator; [cbn; by rewrite length_insert|]. wp_simpl. 
    match goal with |- wp _ _ ?t => assert (t = s1) as -> end.
    { subst s1. cbn. by rewrite list_insert_insert_eq. }
    eapply wp_mono; [by apply (do_recycle_spec s1 os)|].
    intros r s2 (->&(al&dg&dn&ue&Hs2&?&?&?)&Hq&Hroom). wp_simpl. split_and!; [done|done| | |].
    + subst s2. eexists al, dg, dn, ue. split; [done|done].
    + destruct Hq as (Hq1&Hq2&Hq3). split; [exact Hq1|]. split.
      * intros Hf. apply Hq2. apply pool_flag_insert; [done..|lia|]. rewrite Z.eqb_refl.
        destruct Hf as (b&Hb&Hf2). fold ai in Hb. assert (b = a) as -> by congruence.
        rewrite <-Hf2, <-Hfl. unfold Striping.release. by rewrite Ea, (proj2 (Z.leb_le _ _) Hle).
      * intros Hf. apply Hq3. apply pool_flag_insert; [done..|lia|]. rewrite Z.eqb_refl.
        destruct Hf as (b&Hb&Hf2). fold ai in Hb. assert (b = a) as -> by congruence.
        rewrite <-Hf2, <-Hfl. unfold Striping.release. by rewrite Ea, (proj2 (Z.leb_le _ _) Hle).
    + fold ai. rewrite Hroom. unfold room. subst s1. cbn.
      rewrite znth_insert by lia. rewrite Z.eqb_refl. cbn. f_equal.
      unfold Striping.shm_striping_allocator_free in Ea. simplify_eq/=. 
      unfold Striping.shm_striping_allocator_free_size, Striping.shm_striping_allocator_reset. cbn. lia.
  - assert (empties s o os = false) as -> by (destruct (empties s o os); [lia|done]).
    rewrite orb_false_r. wp_simpl. split_and!; [done|done| |done|done]. eexists _, (doing s), (done_pool s), _.
    split; [|split_and!; [exact Hg1|exact Hp1|exact Hinv']]. done.
Qed.
End free.

(** ** Properties *)
Section properties.
Context `{E : Env}.

(** C18: [shm_value_allocator_do_alloc] always returns; it gives NULL, only when
    no striping of the queue [doing] has room, and keeps all allocations, or the address of a new block of the requested size in
    some striping, inside its segment and disjoint from every block in use;
    the queues of allocators stay well-formed and no other header changes. *)
Theorem do_alloc_correct s os size :
  geometry s → alloc_inv s os → pool_inv s → sizeof_shm_hash_entry ≤ size →
  wp (shm_value_allocator_do_alloc size) (λ r s', geometry s' ∧ pool_inv s' ∧
    match r with
    | None => ¬ has_room s size ∧ alloc_inv s' os ∧ hentries s' = hentries s
    | Some p => ∃ o, hentry_addr o = p ∧ o ∉ os ∧ alloc_inv s' (o :: os) ∧
        mem_size (mem_of s' o) = size ∧ place_ok s' p size ∧
        (∀ o', o' ∈ os → bytes_disjoint p size (hentry_addr o') (mem_size (mem_of s' o'))) ∧
        ∀ q, q ≠ p → hentry_at s' q = hentry_at s q
    end) s.
Proof.
  intros Hg Ha Hp Hsz. eapply wp_mono; [by apply do_alloc_spec|].
  intros r s' [(al&dg&dn&en&ue&->&Hg'&Hp'&Hr) Hnone].
  set (s' := _ <| memory; usage; used_entry := ue |>) in *.
  split_and!; [done|done|]. destruct r as [p|]; [|destruct Hr as [-> ?]; by auto].
  destruct Hr as (Hoth&o&<-&Hno&Ha'&Hms). exists o.
  destruct (alloc_inv_place s' (o :: os) o Hg' Ha' ltac:(left)) as (_&Hpl&_). rewrite Hms in Hpl.
  split_and!; [done|done|done|done|done| |].
  - intros o' Ho'. rewrite <-Hms. apply (alloc_inv_disjoint s' (o :: os)); [done|done|left|by right|].
    by intros ->.
  - intros q Hq. unfold hentry_at. change (hentries s') with en. by rewrite Hoth.
Qed.

(** C19: [shm_value_allocator_free] of a block in use always returns 0, releases
    exactly that block and keeps the others and the queues well-formed.  When
    the block was the last one in its striping, it reports so in [*recycled],
    the whole striping is free again, and a striping that had been given up
    leaves the queue [done] for the end of the queue [doing]; otherwise
    [*recycled] and the queues stay as they are. *)
Theorem free_correct s o os recycled :
  geometry s → alloc_inv s (o :: os) → pool_inv s →
  wp (shm_value_allocator_free (hentry_addr o) recycled) (λ r s',
    r.1 = 0 ∧ r.2 = recycled || empties s o os ∧ geometry s' ∧ pool_inv s' ∧ alloc_inv s' os ∧
    queues_after_free s o os s' ∧ hentries s' = hentries s ∧ payload s' = payload s) s.
Proof.
  intros Hg Ha Hp. eapply wp_mono; [by apply value_free_spec|].
  intros r s' (Hr&Hrec&(al&dg&dn&ue&->&Hg'&Hp'&Ha')&Hq). done.
Qed.
End properties.
