(* ===== verification/HashTable.v ===== *)
(** * The hash table (src/shm_hashtable.h, shm_hashtable.c, except
    [shm_ht_set])

    Buckets hold the offset of the first entry, entries are chained through
    [ht_next]; 0 ends a chain. *)
From S2P Require Import Prelude Types ObjectPool Striping Shmopt HentryOffset ShmList Invariant ValueAllocator.
Local Open Scope Z_scope.
Local Open Scope shm_scope.

Section HashTable.
Context `{E : Env}.

(** ** Time to live (shm_hashtable.h, 17-21) *)
Definition HT_CALC_EXPIRES (current_time ttl : Z) : Z :=
  if ttl =? SHMCACHE_NEVER_EXPIRED then 0 else current_time + ttl.
Definition HT_ENTRY_IS_VALID (entry_expires current_time : Z) : bool :=
  (entry_expires =? 0) || (current_time <=? entry_expires).

(** ** Sizes and initialisation *)
Definition shm_ht_get_memory_size (capacity : Z) : Z := sizeof_int64 * capacity.

Definition shm_ht_get_capacity (max_count : Z) : Z :=
  match fc_hash_get_prime_capacity max_count with
  | None => max_count
  | Some capacity => to_int capacity
  end.

Definition shm_ht_init (capacity : Z) : cmd unit :=
  modify (λ s, s <| memory; hashtable; ht_capacity := capacity |>
                 <| memory; hashtable; ht_count := 0 |>).

Definition shm_ht_count (s : shmcache_context) : Z := ht_count (hashtable (memory s)).

(** ** Buckets *)
(** [(unsigned int)hash % capacity]: the capacity is converted to unsigned,
    division by 0 is a fault *)
Definition HT_GET_BUCKET_INDEX (key : shmcache_key_info) : cmd Z :=
  s ← get;
  let cap := to_uint (ht_capacity (hashtable (memory s))) in
  if cap =? 0 then fault
  else mret (to_uint (hash_func (config s) (take (Z.to_nat (key_length key)) (key_data key))) mod cap).

Definition load_bucket (i : Z) : cmd Z :=
  s ← get; of_option (znth (buckets (hashtable (memory s))) i).
Definition store_bucket (i x : Z) : cmd unit :=
  s ← get; l ← of_option (zupd (buckets (hashtable (memory s))) i x);
  modify (λ s, s <| memory; hashtable; buckets := l |>).

(** [hentry->key_len == pkey->length && memcmp(...) == 0], for the entry at [p] *)
Definition HT_KEY_EQUALS (p : hptr) (pkey : shmcache_key_info) : cmd bool :=
  e ← load_hentry p;
  if key_len e =? key_length pkey then
    k ← memcpy_from (key_ptr p) (key_length pkey);
    mret (bool_decide (k = take (Z.to_nat (key_length pkey)) (key_data pkey)))
  else mret false.

(** the search loop of shm_ht_set (92-101), shm_ht_get (144-159),
    shm_ht_delete_ex (189-205) and shm_ht_set_expires (221-234): the entry
    with the key, its offset, and the entry before it in the chain *)
Fixpoint search_loop (fuel : nat) (key : shmcache_key_info) (previous : option hptr) (offset : Z) :
    cmd (option hptr * Z * option hptr) :=
  match fuel with
  | O => fault
  | S fuel =>
    if offset >? 0 then
      entry ← shm_get_hentry_ptr offset; entry ← non_null entry;
      eq ← HT_KEY_EQUALS entry key;
      if eq : bool then mret (Some entry, offset, previous)
      else
        e ← load_hentry entry;
        search_loop fuel key (Some entry) (ht_next e)
    else mret (None, offset, previous)
  end.
(** a chain has at most [count] entries *)
Definition chain_fuel (s : shmcache_context) : nat := S (Z.to_nat (shm_ht_count s)).
Definition search (key : shmcache_key_info) (offset : Z) : cmd (option hptr * Z * option hptr) :=
  s ← get; search_loop (chain_fuel s) key None offset.

(** ** shm_ht_get (134-162): the result and what it stores in [*value]; the
    data is not copied, [vr_data] points into the segment *)
Record value_ref := Value_ref {
  vr_data : option hptr;
  vr_length : Z;
  vr_options : Z;
  vr_expires : Z;
}.
Definition shm_ht_get (key : shmcache_key_info) : cmd (Z * option value_ref) :=
  index ← HT_GET_BUCKET_INDEX key;
  entry_offset ← load_bucket index;
  '(found, _, _) ← search key entry_offset;
  match found with
  | None => mret (ENOENT, None)
  | Some entry =>
    e ← load_hentry entry;
    p ← shm_get_value_ptr e;
    let value := Value_ref p (value_length (he_value e)) (value_options (he_value e)) (expires e) in
    now ← ext get_current_time;
    mret (if HT_ENTRY_IS_VALID (expires e) now then 0 else ETIMEDOUT, Some value)
  end.

(** ** shm_ht_free_entry (164-174): [*recycled] *)
Definition shm_ht_free_entry (entry : hptr) (entry_offset : Z) (recycled : bool) : cmd bool :=
  modify (λ s, s <| memory; hashtable; ht_count ::= Z.pred |>);;
  e ← load_hentry entry;
  modify (λ s, s <| memory; usage; used_value ::= λ u, u - value_length (he_value e) |>);;
  modify (λ s, s <| memory; usage; used_key ::= λ u, u - key_len e |>);;
  shm_list_delete entry_offset;;
  '(_, recycled) ← shm_value_allocator_free entry recycled;
  store_hentry entry (λ e, e <| ht_next := 0 |>);;
  mret recycled.

(** ** shm_ht_delete_ex (176-208): result and [*recycled] *)
Definition shm_ht_delete_ex (key : shmcache_key_info) (recycled : bool) : cmd (Z * bool) :=
  index ← HT_GET_BUCKET_INDEX key;
  entry_offset ← load_bucket index;
  '(found, entry_offset, previous) ← search key entry_offset;
  match found with
  | None => mret (ENOENT, recycled)
  | Some entry =>
    e ← load_hentry entry;
    match previous with
    | Some previous => store_hentry previous (λ p, p <| ht_next := ht_next e |>)
    | None => store_bucket index (ht_next e)
    end;;
    recycled ← shm_ht_free_entry entry entry_offset recycled;
    mret (0, recycled)
  end.
Definition shm_ht_delete (key : shmcache_key_info) : cmd Z :=
  '(result, _) ← shm_ht_delete_ex key false; mret result.

(** ** shm_ht_set_expires (210-237) *)
Definition shm_ht_set_expires (key : shmcache_key_info) (new_expires : Z) : cmd Z :=
  index ← HT_GET_BUCKET_INDEX key;
  entry_offset ← load_bucket index;
  '(found, _, _) ← search key entry_offset;
  match found with
  | None => mret ENOENT
  | Some entry =>
    e ← load_hentry entry;
    now ← ext get_current_time;
    if HT_ENTRY_IS_VALID (expires e) now then
      store_hentry entry (λ e, e <| expires := new_expires |>);;
      mret 0
    else mret ETIMEDOUT
  end.

(** ** shm_ht_clear (239-272) *)
(** the loop over the allocators from index [ai], [n] of them *)
Fixpoint clear_allocators (n : nat) (ai : Z) : cmd unit :=
  match n with
  | O => mret tt
  | S n =>
    al ← load_allocator ai;
    store_allocator ai ((Striping.shm_striping_allocator_reset al)
      <| in_which_pool := SHMCACHE_STRIPING_ALLOCATOR_POOL_DOING |>);;
    s ← get;
    on_doing (Pool.shm_object_pool_push (allocator_offset_of s ai));;
    clear_allocators n (ai + 1)
  end.

Definition shm_ht_clear : cmd Z :=
  now ← ext get_current_time;
  modify (λ s, s <| memory; stats; last_calc_time := now |>
                 <| memory; stats; last_clear_time := now |>);;
  s ← get;
  let ht_cnt := ht_count (hashtable (memory s)) in
  modify (λ s, s <| memory; hashtable; buckets ::= λ bs,
      replicate (Z.to_nat (ht_capacity (hashtable (memory s)))) 0 ++
      drop (Z.to_nat (ht_capacity (hashtable (memory s)))) bs |>);;
  modify (λ s, s <| memory; hashtable; ht_count := 0 |>);;
  shm_list_init;;
  on_doing Pool.shm_object_pool_init_empty;;
  on_done Pool.shm_object_pool_init_empty;;
  clear_allocators (Z.to_nat (count_current (vm_striping (memory s)))) 0;;
  modify (λ s, s <| memory; usage; used_key := 0 |>
                 <| memory; usage; used_value := 0 |>
                 <| memory; usage; used_entry := 0 |>);;
  mret ht_cnt.

(** ** Listing the entries (274-407) *)
Definition SHMCACHE_MATCH_KEY_OP_EXACT : Z := 0.
Definition SHMCACHE_MATCH_KEY_OP_LEFT : Z := 1.
Definition SHMCACHE_MATCH_KEY_OP_RIGHT : Z := 2.
Definition SHMCACHE_MATCH_KEY_OP_ANYWHERE : Z :=
  Z.lor SHMCACHE_MATCH_KEY_OP_LEFT SHMCACHE_MATCH_KEY_OP_RIGHT.

(** [memcmp(a, b, n) == 0] on the first [n] bytes *)
Definition memcmp_eq (a b : list ascii) (n : Z) : bool :=
  bool_decide (take (Z.to_nat n) a = take (Z.to_nat n) b).

(** is there a match at a position from [start], [loop] positions left *)
Fixpoint match_anywhere (loop : nat) (key entry_key : list ascii) (n : Z) : bool :=
  match loop with
  | O => false
  | S loop => memcmp_eq key entry_key n || match_anywhere loop key (tl entry_key) n
  end.

(** [entry_key] are the [entry->key_len] bytes of the key *)
Definition shm_ht_match_key (key_info : shmcache_match_key_info) (entry_key : list ascii) : bool :=
  let entry_key_len := Z.of_nat (length entry_key) in
  if entry_key_len <? match_length key_info then false
  else if op_type key_info =? SHMCACHE_MATCH_KEY_OP_EXACT then
    (match_length key_info =? entry_key_len) &&
      memcmp_eq (match_key key_info) entry_key (match_length key_info)
  else if op_type key_info =? SHMCACHE_MATCH_KEY_OP_LEFT then
    memcmp_eq (match_key key_info) entry_key (match_length key_info)
  else if op_type key_info =? SHMCACHE_MATCH_KEY_OP_RIGHT then
    memcmp_eq (match_key key_info)
      (drop (Z.to_nat (entry_key_len - match_length key_info)) entry_key) (match_length key_info)
  else if op_type key_info =? SHMCACHE_MATCH_KEY_OP_ANYWHERE then
    match_anywhere (Z.to_nat (entry_key_len - match_length key_info + 1))
      (match_key key_info) entry_key (match_length key_info)
  else false.

(** [HT_ENTRY_IS_VALID(src, current_time) && HT_KEY_MATCHED(key_info, src)] *)
Definition selected (key_info : option shmcache_match_key_info) (current_time : Z) (src : hptr) :
    cmd bool :=
  e ← load_hentry src;
  if HT_ENTRY_IS_VALID (expires e) current_time then
    match key_info with
    | None => mret true
    | Some ki =>
      k ← memcpy_from (key_ptr src) (key_len e);
      mret (shm_ht_match_key ki k)
    end
  else mret false.

(** the loop that skips [offset] selected entries *)
Fixpoint skip_loop (fuel : nat) (key_info : option shmcache_match_key_info) (current_time : Z)
    (offset i entry_offset : Z) : cmd Z :=
  match fuel with
  | O => fault
  | S fuel =>
    if (entry_offset >? 0) && (i <? offset) then
      src ← shm_get_hentry_ptr entry_offset; src ← non_null src;
      sel ← selected key_info current_time src;
      next ← shm_list_next entry_offset;
      skip_loop fuel key_info current_time offset (if sel : bool then i + 1 else i) next
    else mret entry_offset
  end.

Definition sizeof_shmcache_hash_entry : Z := 40.

(** the loop that copies the selected entries: [inl] is the out-of-memory
    return *)
Fixpoint copy_loop (fuel : nat) (key_info : option shmcache_match_key_info) (current_time : Z)
    (row_count count entry_offset : Z) : cmd (unit + list shmcache_hash_entry) :=
  match fuel with
  | O => fault
  | S fuel =>
    if entry_offset >? 0 then
      src ← shm_get_hentry_ptr entry_offset; src ← non_null src;
      sel ← selected key_info current_time src;
      if sel : bool then
        e ← load_hentry src;
        ok ← ext (λ n, malloc_ok n (key_len e + value_length (he_value e)));
        if ok : bool then
          k ← memcpy_from (key_ptr src) (key_len e);
          p ← shm_get_value_ptr e; p ← non_null p;
          d ← memcpy_from p (value_length (he_value e));
          let dest := Hash_entry (Key_info k (key_len e))
            (Value_info d (value_length (he_value e)) (value_options (he_value e)) (expires e)) in
          next ← shm_list_next entry_offset;
          if count + 1 =? row_count then mret (inr [dest])
          else
            r ← copy_loop fuel key_info current_time row_count (count + 1) next;
            mret (match r with inl _ => inl tt | inr l => inr (dest :: l) end)
        else mret (inl tt)
      else
        next ← shm_list_next entry_offset;
        copy_loop fuel key_info current_time row_count count next
    else mret (inr [])
  end.

(** the rows asked for, and the bytes allocated for them: an [int] *)
Definition rows_asked (s : shmcache_context) (offset count : Z) : Z :=
  let row_count := shm_ht_count s - offset in
  if (0 <? count) && (count <? row_count) then count else row_count.
Definition array_bytes (row_count : Z) : Z := to_int (sizeof_shmcache_hash_entry * row_count).

(** the result and the array; that the rows fit in [array_bytes] is shown of the
    result ([to_array_correct]) *)
Definition shm_ht_to_array_ex (key_info : option shmcache_match_key_info) (offset count : Z) :
    cmd (Z * list shmcache_hash_entry) :=
  if offset <? 0 then mret (EINVAL, [])
  else
    s ← get;
    let row_count := rows_asked s offset count in
    if row_count <=? 0 then mret (0, [])
    else
      ok ← ext (λ n, malloc_ok n (array_bytes row_count));
      if ok : bool then
        t ← ext time_NULL;
        let current_time := to_int t in
        entry_offset ← shm_list_first;
        entry_offset ← skip_loop (chain_fuel s) key_info current_time offset 0 entry_offset;
        r ← copy_loop (chain_fuel s) key_info current_time row_count 0 entry_offset;
        mret (match r with inl _ => (ENOMEM, []) | inr l => (0, l) end)
      else mret (ENOMEM, []).
Definition shm_ht_to_array : cmd (Z * list shmcache_hash_entry) := shm_ht_to_array_ex None 0 0.

End HashTable.

(** ** Chains *)
Lemma chain_first nxt start c : chain nxt start c → start = List.hd 0 c.
Proof. destruct c; [done|]. by intros [-> _]. Qed.
Lemma chain_app nxt start c1 o c2 :
  chain nxt start (c1 ++ o :: c2) → chain nxt (nxt o) c2.
Proof. revert start. induction c1 as [|x c1 IH]; intros start [-> H]; [done|]. by eapply IH. Qed.

(** replace the rest of a chain behind [c1] by the chain that starts at [r] *)
Lemma chain_splice nxt nxt' start start' c1 rest r rest' :
  chain nxt start (c1 ++ rest) → chain nxt' r rest' → NoDup c1 →
  (∀ x, x ∈ c1 → Some x ≠ last c1 → nxt' x = nxt x) →
  match last c1 with Some x => nxt' x = r ∧ start' = start | None => start' = r end →
  chain nxt' start' (c1 ++ rest').
Proof.
  revert start start'. induction c1 as [|x c1 IH]; intros start start' Hc Hr Hnd Hx Hl.
  { simpl in Hl. by subst. }
  destruct Hc as [-> Hc]. apply NoDup_cons in Hnd as [Hxn Hnd]. cbn [app chain].
  rewrite last_cons in Hx, Hl. destruct (last c1) as [y|] eqn:Hlast.
  - destruct Hl as [Hy ->]. split; [done|]. rewrite Hx; [|left|].
    + eapply IH; [done..| |done]. intros z Hz Hne. apply Hx; [by right|done].
    + intros [= ->]. apply Hxn. by apply last_Some_elem_of.
  - destruct Hl as [Hy ->]. split; [done|]. apply last_None in Hlast as ->. by rewrite Hy.
Qed.

Definition key_ok (key : shmcache_key_info) : Prop :=
  key_length key = Z.of_nat (length (key_data key)).

Section search.
Context `{E : Env}.

Lemma wp_key_equals s o key (Q : bool → _ → Prop) :
  segs_ok s → readable s o → key_ok key → Q (bool_decide (key_of s o = key_data key)) s →
  wp (HT_KEY_EQUALS (hentry_addr o) key) Q s.
Proof.
  intros Hs ((_&Hpl&_)&Hk&_&Hkp&_) Hkey HQ. unfold HT_KEY_EQUALS. wp_simpl.
  apply wp_load_hentry; [done|done|]. fold (hdr s o).
  destruct (Z.eqb_spec (key_len (hdr s o)) (key_length key)) as [Heq|Hne].
  - wp_simpl. rewrite <-Heq. apply wp_memcpy_from; [done|done|]. wp_simpl. rewrite Heq, Hkey.
    rewrite Nat2Z.id, firstn_all. unfold key_of in HQ. by rewrite Heq, Hkey, Nat2Z.id in HQ.
  - wp_simpl. rewrite bool_decide_false in HQ; [done|]. intros Hkeq. apply Hne.
    rewrite Hkey, <-Hkeq. unfold key_of. rewrite length_read_bytes. lia.
Qed.

Definition last_addr (c : list Z) (previous : option hptr) : option hptr :=
  match last c with Some x => Some (hentry_addr x) | None => previous end.

(** what a search of the chain [c] finds *)
Inductive search_result (s : shmcache_context) (key : list ascii) (c : list Z)
    (previous : option hptr) : option hptr * Z * option hptr → Prop :=
  | search_found c1 o c2 :
      c = c1 ++ o :: c2 → key_of s o = key → (∀ x, x ∈ c1 → key_of s x ≠ key) →
      search_result s key c previous (Some (hentry_addr o), o, last_addr c1 previous)
  | search_none : (∀ x, x ∈ c → key_of s x ≠ key) →
      search_result s key c previous (None, 0, last_addr c previous).

Lemma search_loop_spec fuel s key c start previous :
  segs_ok s → key_ok key → chain (hnext s) start c → Forall (readable s) c →
  (length c < fuel)%nat →
  wp (search_loop fuel key previous start)
    (λ r s', s' = s ∧ search_result s (key_data key) c previous r) s.
Proof.
  revert start c previous. induction fuel as [|fuel IH]; intros start c previous Hs Hk Hc Hr Hf; [lia|].
  cbn [search_loop]. destruct c as [|o c].
  { simpl in Hc. subst start. change (0 >? 0) with false. wp_simpl. split; [done|].
    apply search_none. set_solver. }
  destruct Hc as [-> Hc]. apply Forall_cons in Hr as [Hro Hr]. pose proof Hro as (Hoff&_).
  pose proof (off_ok_pos _ _ Hoff). rewrite Z.gtb_ltb, (proj2 (Z.ltb_lt _ _)) by done.
  wp_simpl. apply wp_get_hentry_ptr; [done..|]. wp_simpl. apply wp_non_null. wp_simpl.
  apply wp_key_equals; [done..|]. case_bool_decide as Heq; wp_simpl.
  { split; [done|]. apply (search_found _ _ (o :: c) previous [] o c); [done|done|set_solver]. }
  apply wp_load_hentry; [done|apply Hoff|]. wp_simpl. eapply wp_mono.
  - apply (IH _ c); [done..|simpl in Hf; lia].
  - intros r s' [-> Hres]. split; [done|]. destruct Hres as [c1 x c2 -> Hx Hc1|Hnone].
    + replace (last_addr c1 (Some (hentry_addr o))) with (last_addr (o :: c1) previous).
      * apply (search_found _ _ _ _ (o :: c1) x c2); [done|done|set_solver].
      * unfold last_addr. rewrite last_cons. by destruct (last c1).
    + replace (last_addr c (Some (hentry_addr o))) with (last_addr (o :: c) previous).
      * apply search_none. set_solver.
      * unfold last_addr. rewrite last_cons. by destruct (last c).
Qed.

(** from the key to its bucket and through the chain *)
Lemma wp_bucket_index s es key (Q : Z → _ → Prop) :
  buckets_ok s es → key_ok key → Q (bucket_of s (key_data key)) s → wp (HT_GET_BUCKET_INDEX key) Q s.
Proof.
  intros (Hc&_) Hk HQ. unfold HT_GET_BUCKET_INDEX. wp_simpl.
  assert (to_uint (ht_capacity (hashtable (memory s))) = ht_capacity (hashtable (memory s))) as ->.
  { unfold to_uint, wrap_unsigned. apply Z.mod_small. lia. }
  rewrite (proj2 (Z.eqb_neq _ _)) by lia. wp_simpl.
  by rewrite Hk, Nat2Z.id, firstn_all.
Qed.
Lemma bucket_of_range s es k : buckets_ok s es →
  0 ≤ bucket_of s k < ht_capacity (hashtable (memory s)).
Proof. intros (Hc&_). apply Z.mod_pos_bound. lia. Qed.
Lemma wp_load_bucket s es b (Q : Z → _ → Prop) :
  buckets_ok s es → 0 ≤ b < ht_capacity (hashtable (memory s)) →
  (∀ start c, znth (buckets (hashtable (memory s))) b = Some start → chain (hnext s) start c →
     c ≡ₚ filter (λ o, bucket_of s (key_of s o) = b) es → Q start s) →
  wp (load_bucket b) Q s.
Proof.
  intros (Hc&Hl&Hch) Hb HQ. destruct (Hch b Hb) as (start&c&?&?&?). unfold load_bucket. wp_simpl.
  apply wp_of_option. eauto.
Qed.
Lemma wp_store_bucket s b x (Q : unit → _ → Prop) :
  0 ≤ b < Z.of_nat (length (buckets (hashtable (memory s)))) →
  Q tt (s <| memory; hashtable; buckets := <[Z.to_nat b := x]> (buckets (hashtable (memory s))) |>) →
  wp (store_bucket b x) Q s.
Proof.
  intros Hb HQ. unfold store_bucket. wp_simpl. apply wp_of_option.
  eexists. split; [by apply zupd_Some|]. by wp_simpl.
Qed.

Lemma search_spec s es key start c :
  geometry s → table s es → Forall (readable s) es → key_ok key →
  chain (hnext s) start c → c ≡ₚ filter (λ o, bucket_of s (key_of s o) = bucket_of s (key_data key)) es →
  wp (search key start) (λ r s', s' = s ∧ search_result s (key_data key) c None r) s.
Proof.
  intros Hg (_&_&_&(Hcnt&_)) Hr Hk Hc Hp. unfold search. wp_simpl. apply search_loop_spec.
  - by apply geometry_segs.
  - done.
  - done.
  - rewrite Hp. rewrite Forall_forall in *. intros x [_ Hx]%list_elem_of_filter. auto.
  - unfold chain_fuel, shm_ht_count. rewrite Hcnt, Nat2Z.id, Hp.
    pose proof (length_filter (λ o, bucket_of s (key_of s o) = bucket_of s (key_data key)) es). lia.
Qed.
End search.

(** ** Changing one chain *)
Lemma agree_bucket_of `{E : Env} s s' o :
  config s' = config s → ht_capacity (hashtable (memory s')) = ht_capacity (hashtable (memory s)) →
  agree s s' o → bucket_of s' (key_of s' o) = bucket_of s (key_of s o).
Proof. intros Hcf Hcap (_&Hk&_). unfold bucket_of. by rewrite Hcf, Hcap, Hk. Qed.

Lemma buckets_ok_relink `{E : Env} s s' es es' b start' c' :
  config s' = config s → ht_capacity (hashtable (memory s')) = ht_capacity (hashtable (memory s)) →
  0 ≤ b < ht_capacity (hashtable (memory s)) →
  buckets (hashtable (memory s')) = <[Z.to_nat b := start']> (buckets (hashtable (memory s))) →
  chain (hnext s') start' c' → c' ≡ₚ filter (λ o, bucket_of s' (key_of s' o) = b) es' →
  (∀ b', b' ≠ b → filter (λ o, bucket_of s' (key_of s' o) = b') es'
                  ≡ₚ filter (λ o, bucket_of s (key_of s o) = b') es) →
  (∀ o, o ∈ es → bucket_of s (key_of s o) ≠ b → hnext s' o = hnext s o) →
  buckets_ok s es → buckets_ok s' es'.
Proof.
  intros Hcf Hcap Hb Hbs Hch Hp Hoth Hnx (Hc&Hl&Hold). unfold buckets_ok.
  rewrite Hcap, Hbs, length_insert. do 2 (split; [done|]). intros b' Hb'.
  rewrite znth_insert by lia. destruct (Z.eqb_spec b b') as [<-|Hne]; [by exists start', c'|].
  destruct (Hold b' Hb') as (start&c&?&Hcc&Hpc). exists start, c. split_and!; [done| |].
  - eapply chain_ext; [|exact Hcc]. intros o Ho. rewrite Hpc in Ho.
    apply list_elem_of_filter in Ho as [Hbo Ho]. apply Hnx; [done|congruence].
  - rewrite Hpc. symmetry. by apply Hoth.
Qed.

(** ** Changes that only add to the chains *)
(** the chain of a bucket *)
Definition bucket_chain `{E : Env} (s : shmcache_context) (es : list Z) (b : Z) (c : list Z) : Prop :=
  ∃ start, znth (buckets (hashtable (memory s))) b = Some start ∧ chain (hnext s) start c ∧
    c ≡ₚ filter (λ o, bucket_of s (key_of s o) = b) es.
(** every entry stays where it is, and chains are only extended at their ends *)
Definition extends `{E : Env} (s : shmcache_context) (es : list Z) (s' : shmcache_context) (es' : list Z) : Prop :=
  config s' = config s ∧ ht_capacity (hashtable (memory s')) = ht_capacity (hashtable (memory s)) ∧
  (∀ o, o ∈ es → o ∈ es' ∧ key_of s' o = key_of s o) ∧
  ∀ b c, bucket_chain s es b c → ∃ c', bucket_chain s' es' b (c ++ c').
Lemma chain_unique nxt start c c' :
  chain nxt start c → chain nxt start c' → 0 ∉ c → 0 ∉ c' → c = c'.
Proof.
  revert start c'. induction c as [|o c IH]; intros start [|o' c']; cbn; [done|set_solver..|].
  intros [-> Hc] [<- Hc'] H1 H2. f_equal. apply (IH (nxt o)); set_solver.
Qed.
Lemma extends_same `{E : Env} s s' es :
  config s' = config s → hashtable (memory s') = hashtable (memory s) →
  (∀ o, o ∈ es → hnext s' o = hnext s o ∧ key_of s' o = key_of s o) → extends s es s' es.
Proof.
  intros Hcf Hh Ho. split_and!; [done|by rewrite Hh|intros o Hin; split; [done|by apply Ho]|].
  intros b c (start&Hst&Hc&Hp). exists []. rewrite app_nil_r. exists start. rewrite Hh. split_and!; [done| |].
  - eapply chain_ext; [|exact Hc]. intros o Hin. rewrite Hp in Hin.
    apply list_elem_of_filter in Hin as [_ Hin]. by apply Ho.
  - rewrite Hp. apply reflexive_eq, filter_ext_in. intros x Hx. unfold bucket_of.
    by rewrite Hcf, Hh, (proj2 (Ho x Hx)).
Qed.
Lemma extends_refl `{E : Env} s es : extends s es s es.
Proof. by apply extends_same. Qed.
Lemma extends_keys `{E : Env} s s' es : extends s es s' es → key_of s' <$> es = key_of s <$> es.
Proof.
  intros (_&_&Ho&_). apply list_fmap_ext. intros i x Hx%list_elem_of_lookup_2. by apply Ho.
Qed.
Lemma extends_trans `{E : Env} s1 es1 s2 es2 s3 es3 :
  extends s1 es1 s2 es2 → extends s2 es2 s3 es3 → extends s1 es1 s3 es3.
Proof.
  intros (Hc1&Hh1&Ho1&Hb1) (Hc2&Hh2&Ho2&Hb2). split_and!; [congruence..| |].
  - intros o (H1&H2)%Ho1. destruct (Ho2 o H1). split; [done|congruence].
  - intros b c (c1&Hx)%Hb1. apply Hb2 in Hx as (c2&Hx). exists (c1 ++ c2). by rewrite app_assoc.
Qed.

(** ** Freeing an entry *)
Definition free_entry_post `{E : Env} (s : shmcache_context) (o : Z) (os es : list Z)
    (s' : shmcache_context) : Prop :=
  table_frame s s' ∧ geometry s' ∧ pool_inv s' ∧ alloc_inv s' os ∧ dll s' es ∧
  buckets (hashtable (memory s')) = buckets (hashtable (memory s)) ∧
  ht_capacity (hashtable (memory s')) = ht_capacity (hashtable (memory s)) ∧
  ht_count (hashtable (memory s')) = ht_count (hashtable (memory s)) - 1 ∧
  used_key (usage (memory s')) = used_key (usage (memory s)) - key_len (hdr s o) ∧
  used_value (usage (memory s')) = used_value (usage (memory s)) - value_length (he_value (hdr s o)) ∧
  ∀ x, hentry_addr x ≠ hentry_addr o → agree s s' x ∧ hnext s' x = hnext s x.

Section free_entry.
Context `{E : Env}.

Lemma free_entry_spec s o os l1 l2 recycled :
  geometry s → pool_inv s → alloc_inv s (o :: os) → dll s (l1 ++ o :: l2) →
  wp (shm_ht_free_entry (hentry_addr o) o recycled) (λ r s',
    r = recycled || empties s o os ∧ free_entry_post s o os (l1 ++ l2) s') s.
Proof.
  intros Hg Hp Hinv Hd. pose proof (geometry_segs s Hg) as Hs.
  destruct (alloc_inv_place s (o :: os) o Hg Hinv ltac:(left)) as ((_&Hpl&_)&_&_).
  unfold shm_ht_free_entry. wp_simpl. apply wp_load_hentry; [done|done|]. wp_simpl.
  set (s1 := s <| memory; hashtable; ht_count ::= _ |> <| memory; usage; used_value ::= _ |>
               <| memory; usage; used_key ::= _ |>).
  eapply wp_mono; [apply (list_delete_spec s1 l1 o l2); done|]. intros _ s2 [Hf Hd2].
  wp_simpl. eapply wp_mono.
  { apply (value_free_spec s2 o os recycled).
    - by apply (frame_list_geometry s1).
    - by apply (frame_list_alloc_inv s1).
    - by apply (frame_list_pool_inv s1). }
  intros [r1 rec] s3 (_&Hrec&Hfree&_). cbn in Hrec. wp_simpl.
  assert (rec = recycled || empties s o os) as ->.
  { rewrite Hrec. f_equal. apply empties_ext. intros x _. unfold striping_of.
    by destruct (agree_shape _ _ _ (frame_list_agree s1 s2 x Hf)) as (_&_&->&_). }
  assert (geometry s3 ∧ pool_inv s3 ∧ alloc_inv s3 os) as (Hg3&Hp3&Hinv3)
    by (destruct Hfree as (?&?&?&?&_&?&?&?); done).
  apply wp_store_hentry.
  { by apply geometry_segs. }
  { destruct Hfree as (?&?&?&?&->&_), Hf as (hd&en&->&_). exact Hpl. }
  wp_simpl. split; [done|].
  set (s4 := s3 <| hentries := _ |>).
  assert (∀ x, nolinks (hdr s3 x) = nolinks (hdr s x) ∧ hnext s3 x = hnext s x) as H3.
  { intros x. destruct (frame_list_agree s1 s2 x Hf) as (Hn&_).
    pose proof (frame_list_hnext s1 s2 x Hf) as Hx. destruct Hfree as (?&?&?&?&->&_). done. }
  assert (∀ x, hentry_addr x ≠ hentry_addr o → hdr s4 x = hdr s3 x) as Hother.
  { intros x Hx. apply (mem_of_other s3 s4 x (hentry_addr o)); [|done].
    intros q Hq. apply lookup_insert_ne. congruence. }
  assert (∀ x, mem_of s4 x = mem_of s3 x ∧ he_list (hdr s4 x) = he_list (hdr s3 x)) as Hmem.
  { intros x. unfold mem_of. destruct (decide (hentry_addr x = hentry_addr o)) as [Hx|Hx].
    - unfold hdr, hentry_at. rewrite Hx. subst s4. cbn. by rewrite lookup_insert_eq.
    - by rewrite Hother. }
  assert (table_frame s s4) as Htf.
  { eapply table_frame_trans; [|eapply table_frame_trans; [apply (frame_list_table_frame _ _ Hf)|]].
    - exists (allocators s), (doing s), (done_pool s), (hentries s), (usage (memory s1)),
        (hashtable (memory s1)). split; [by destruct s as [????[]]|done].
    - destruct Hfree as (al&dg&dn&ue&->&_). exists al, dg, dn, (hentries s4),
        ((usage (memory s2)) <| used_entry := ue |>), (hashtable (memory s2)).
      subst s4. split; [by destruct s2 as [????[]]|done]. }
  split_and!; [exact Htf|exact Hg3|exact Hp3| | | | | | | |].
  - eapply alloc_inv_frame; [..|exact Hinv3]; [done..|]. intros x _. apply Hmem.
  - eapply (dll_ext s2); [..|exact Hd2]; try (by destruct Hfree as (?&?&?&?&->&_)).
    intros x _. rewrite (proj2 (Hmem x)). by destruct Hfree as (?&?&?&?&->&_).
  - subst s4. by destruct Hfree as (?&?&?&?&->&_), Hf as (hd&en&->&_).
  - subst s4. by destruct Hfree as (?&?&?&?&->&_), Hf as (hd&en&->&_).
  - subst s4. by destruct Hfree as (?&?&?&?&->&_), Hf as (hd&en&->&_).
  - subst s4. by destruct Hfree as (?&?&?&?&->&_), Hf as (hd&en&->&_).
  - subst s4. by destruct Hfree as (?&?&?&?&->&_), Hf as (hd&en&->&_).
  - intros x Hx. split.
    + apply agree_hdr; [|rewrite Hother by done; apply H3].
      destruct Htf as (?&?&?&?&?&?&->&_). done.
    + unfold hnext. rewrite Hother by done. apply H3.
Qed.
End free_entry.

(** ** Linking [v] behind [c1] in the chain of bucket [b] *)
Definition nonext (e : shm_hash_entry) : shm_hash_entry := e <| ht_next := 0 |>.
Definition relinked (s : shmcache_context) (b start : Z) (c1 : list Z) (v : Z)
    (s1 : shmcache_context) : Prop := ∃ en start',
  s1 = s <| hentries := en |>
         <| memory; hashtable; buckets := <[Z.to_nat b := start']> (buckets (hashtable (memory s))) |> ∧
  (∀ x, off_ok s x → hnext s1 x = if decide (last c1 = Some x) then v else hnext s x) ∧
  (if last c1 is Some _ then start' = start else start' = v) ∧
  ∀ x, nonext (hdr s1 x) = nonext (hdr s x).

Section relink.
Context `{E : Env}.

Lemma relink_spec s b start c1 v :
  geometry s → 0 ≤ b < Z.of_nat (length (buckets (hashtable (memory s)))) →
  znth (buckets (hashtable (memory s))) b = Some start → Forall (off_ok s) c1 →
  wp (match last_addr c1 None with
      | Some previous => store_hentry previous (λ p, p <| ht_next := v |>)
      | None => store_bucket b v
      end) (λ _ s1, relinked s b start c1 v s1) s.
Proof.
  intros Hg Hb Hst Hoff. unfold last_addr. destruct (last c1) as [y|] eqn:Hlast.
  - assert (off_ok s y) as Hy.
    { apply (proj1 (Forall_forall _ _) Hoff). by apply last_Some_elem_of. }
    apply wp_store_hentry; [by apply geometry_segs|apply Hy|].
    exists (<[hentry_addr y := (hentry_at s (hentry_addr y)) <| ht_next := v |>]> (hentries s)), start.
    rewrite Hlast. split_and!; [| |done|].
    + rewrite list_insert_id; [by destruct s as [????[?????????[]]]|].
      apply znth_Some in Hst as [_ ?]. done.
    + intros x Hx. unfold hnext, hdr, hentry_at. cbn.
      case_decide as Heq; [simplify_eq; by rewrite lookup_insert_eq|].
      rewrite lookup_insert_ne; [done|]. intros Ha. apply Heq. f_equal. by eapply off_ok_inj.
    + intros x. unfold hdr, hentry_at. cbn. rewrite lookup_insert. case_decide as Ha; [|done].
      by rewrite Ha.
  - apply wp_store_bucket; [done|]. exists (hentries s), v. rewrite Hlast.
    split_and!; [by destruct s as [????[?????????[]]]|done..].
Qed.

Lemma relinked_agree s b start c1 v s1 x : relinked s b start c1 v s1 → agree s s1 x.
Proof.
  intros (en&start'&->&_&_&Hn). apply agree_hdr; [done|].
  exact (f_equal (λ e, e <| he_list := Shm_list 0 0 |>) (Hn x)).
Qed.
Lemma relinked_table_frame s b start c1 v s1 : relinked s b start c1 v s1 → table_frame s s1.
Proof.
  intros (en&start'&->&_). eexists (allocators s), (doing s), (done_pool s), en, (usage (memory s)), _.
  by destruct s as [????[]].
Qed.
Lemma relinked_invs s b start c1 v s1 os es :
  relinked s b start c1 v s1 → geometry s → pool_inv s → alloc_inv s os → dll s es →
  geometry s1 ∧ pool_inv s1 ∧ alloc_inv s1 os ∧ dll s1 es.
Proof.
  intros Hr Hg Hp Ha Hd.
  assert (∀ o, mem_of s1 o = mem_of s o) as Hm
    by (intros o; by apply (agree_fields s s1 o), (relinked_agree _ _ _ _ _ _ _ Hr)).
  destruct Hr as (en&start'&->&_&_&Hn). split_and!; [done|done| |].
  - eapply alloc_inv_frame; [..|exact Ha]; done.
  - eapply dll_ext; [..|exact Hd]; try done. intros x _. exact (f_equal he_list (Hn x)).
Qed.

(** the chain of [b] after linking, when nothing else of it changes from then
    on *)
Lemma relinked_chain nxt s b start c1 v s1 s2 rest rest' :
  relinked s b start c1 v s1 → chain nxt start (c1 ++ rest) → NoDup c1 →
  Forall (off_ok s) c1 → (∀ x, x ∈ c1 → hnext s x = nxt x) →
  (∀ x, x ∈ c1 → hnext s2 x = hnext s1 x) → chain (hnext s2) v rest' →
  ∃ start', buckets (hashtable (memory s1)) = <[Z.to_nat b := start']> (buckets (hashtable (memory s))) ∧
    chain (hnext s2) start' (c1 ++ rest').
Proof.
  intros (en&start'&Hs1&Hnx&Hl&_) Hc Hnd Hoff Hnxt Heq Hr. exists start'. subst s1.
  split; [done|]. rewrite Forall_forall in Hoff.
  eapply chain_splice; [exact Hc|exact Hr|done|..].
  - intros x Hx Hne. rewrite Heq, Hnx by auto. rewrite decide_False by congruence. auto.
  - destruct (last c1) as [y|] eqn:Hlast; [|done].
    apply last_Some_elem_of in Hlast as Hy. split; [|done].
    rewrite Heq, Hnx by auto. by rewrite decide_True.
Qed.
End relink.

(** ** Deleting *)
Lemma filter_middle {A} (P : A → Prop) `{∀ x, Decision (P x)} (l1 l2 : list A) o :
  filter P (l1 ++ o :: l2) = if decide (P o) then filter P l1 ++ o :: filter P l2
                             else filter P (l1 ++ l2).
Proof. rewrite filter_app, filter_cons. case_decide; [done|]. by rewrite filter_app. Qed.

Section delete.
Context `{E : Env} `{L : !EnvLaws E}.

Lemma inv_off_ok s os es : geometry s → alloc_inv s os → es ⊆ os → Forall (off_ok s) es.
Proof.
  intros Hg Ha Hsub. apply Forall_forall. intros x Hx.
  by destruct (alloc_inv_place s os x Hg Ha (Hsub _ Hx)).
Qed.
Lemma off_ok_addr_ne s x o : off_ok s x → off_ok s o → x ≠ o → hentry_addr x ≠ hentry_addr o.
Proof. intros Hx Ho Hne Heq. apply Hne. by eapply off_ok_inj. Qed.

(** the table without the entry [o] that was found behind [c1] in its chain,
    once [c1] is linked to the entry behind [o] and [o] is freed *)
Lemma table_delete s s1 s2 os es1 o es2 start c1 c2 :
  geometry s → alloc_inv s os → es1 ++ o :: es2 ⊆ os → NoDup (es1 ++ o :: es2) →
  table s (es1 ++ o :: es2) →
  chain (hnext s) start (c1 ++ o :: c2) →
  c1 ++ o :: c2 ≡ₚ filter (λ x, bucket_of s (key_of s x) = bucket_of s (key_of s o)) (es1 ++ o :: es2) →
  relinked s (bucket_of s (key_of s o)) start c1 (hnext s o) s1 →
  (∃ os' es', free_entry_post s1 o os' es' s2) →
  table s2 (es1 ++ es2) ∧ ∀ x, x ∈ es1 ++ es2 → agree s s2 x.
Proof.
  intros Hg Ha Hsub Hnd (Hent&Hkeys&Hbk&Hcnt&Huk&Huv) Hc Hp Hrl (os'&es'&Hfr).
  pose proof (inv_off_ok s os _ Hg Ha Hsub) as Hoff. rewrite Forall_forall in Hoff.
  set (b := bucket_of s (key_of s o)) in *.
  destruct Hfr as (Htf&_&_&_&_&Hb2&Hcap2&Hcnt2&Huk2&Huv2&Hag2).
  assert (o ∉ es1 ++ es2) as Hno.
  { rewrite <-Permutation_middle in Hnd. by apply NoDup_cons in Hnd as [? _]. }
  assert (∀ x, x ∈ es1 ++ es2 → x ∈ es1 ++ o :: es2 ∧ x ≠ o) as Hin.
  { intros x Hx. split; [set_solver|]. by intros ->. }
  assert (∀ x, x ∈ es1 ++ o :: es2 → x ≠ o → agree s1 s2 x ∧ hnext s2 x = hnext s1 x) as Hag12.
  { intros x Hx Hne. apply Hag2, (off_ok_addr_ne s); [by apply Hoff|apply Hoff; set_solver|done]. }
  assert (∀ x, x ∈ es1 ++ es2 → agree s s2 x) as Hag.
  { intros x [Hx Hne]%Hin. eapply agree_trans; [by eapply relinked_agree|]. by apply Hag12. }
  assert (NoDup (c1 ++ o :: c2)) as Hndc by (rewrite Hp; by apply NoDup_filter).
  assert (∀ x, x ∈ c1 ++ c2 → x ∈ es1 ++ o :: es2 ∧ x ≠ o) as Hcin.
  { intros x Hx. rewrite <-Permutation_middle in Hndc. apply NoDup_cons in Hndc as [Ho _].
    split; [|by intros ->]. assert (x ∈ c1 ++ o :: c2) as Hx' by set_solver.
    rewrite Hp in Hx'. by apply list_elem_of_filter in Hx' as [_ ?]. }
  split; [|exact Hag]. split_and!.
  - apply (entries_ok_ext s); [done|]. apply Forall_app in Hent as [? [_ ?]%Forall_cons]. by apply Forall_app.
  - rewrite (keys_ext s) by done. eapply sublist_NoDup; [exact Hkeys|].
    rewrite !fmap_app. cbn. by apply sublist_app, sublist_cons.
  - destruct (relinked_chain (hnext s) s b start c1 (hnext s o) s1 s2 (o :: c2) c2 Hrl Hc) as (start'&Hbs&Hch).
    { by apply NoDup_app in Hndc as (?&_). }
    { apply Forall_forall. intros x Hx. apply Hoff, Hcin. set_solver. }
    { done. }
    { intros x Hx. destruct (Hcin x) as [? ?]; [set_solver|]. by apply Hag12. }
    { apply chain_app in Hc. eapply chain_ext; [|exact Hc]. intros x Hx.
      destruct (Hcin x) as [Hxe Hxo]; [set_solver|]. destruct (Hag12 x Hxe Hxo) as [_ ->].
      destruct Hrl as (en&st&_&Hnx&_). rewrite Hnx by by apply Hoff. apply decide_False.
      intros Hl%last_Some_elem_of. apply NoDup_app in Hndc as (_&Hd&_). apply (Hd x Hl). by right. }
    assert (config s2 = config s) as Hcf by (destruct Htf as (?&?&?&?&?&?&->&_), Hrl as (?&?&->&_); done).
    assert (ht_capacity (hashtable (memory s2)) = ht_capacity (hashtable (memory s))) as Hcap
      by (rewrite Hcap2; destruct Hrl as (?&?&->&_); done).
    assert (∀ b', filter (λ x, bucket_of s2 (key_of s2 x) = b') (es1 ++ es2)
                = filter (λ x, bucket_of s (key_of s x) = b') (es1 ++ es2)) as Hfl.
    { intros b'. apply filter_ext_in. intros x Hx. by rewrite (agree_bucket_of s s2) by auto. }
    eapply (buckets_ok_relink s s2 (es1 ++ o :: es2)); [done|done| | |exact Hch| | | |done].
    + by eapply bucket_of_range.
    + by rewrite Hb2.
    + rewrite Hfl. apply (Permutation_cons_inv (a := o)). rewrite Permutation_middle, Hp.
      rewrite filter_middle, decide_True by done. by rewrite filter_app, Permutation_middle.
    + intros b' Hne. by rewrite Hfl, filter_middle, decide_False by done.
    + intros x Hx Hne. destruct (decide (x = o)) as [->|Hxo]; [done|].
      destruct (Hag12 x Hx Hxo) as [_ ->]. destruct Hrl as (en&st&_&Hnx&_).
      rewrite Hnx by by apply Hoff. apply decide_False. intros Hl%last_Some_elem_of. apply Hne.
      assert (x ∈ c1 ++ o :: c2) as Hx' by set_solver. rewrite Hp in Hx'.
      by apply list_elem_of_filter in Hx' as [? _].
  - assert (∀ x, agree s s1 x) as Hag1 by (intros x; by eapply relinked_agree).
    assert (ht_count (hashtable (memory s1)) = ht_count (hashtable (memory s)) ∧
            usage (memory s1) = usage (memory s)) as [Hc1 Hu1]
      by (destruct Hrl as (?&?&->&_); done).
    destruct (agree_fields _ _ _ (Hag1 o)) as (Hk1&_&Hv1&_).
    unfold counters_ok. rewrite Hcnt2, Huk2, Huv2, Hc1, Hu1, Hcnt, Huk, Huv, Hk1, Hv1.
    rewrite (sum_by_ext (λ x, key_len (hdr s2 x)) (λ x, key_len (hdr s x)) (es1 ++ es2)),
      (sum_by_ext (λ x, value_length (he_value (hdr s2 x))) (λ x, value_length (he_value (hdr s x)))
         (es1 ++ es2)).
    2,3: intros x Hx; destruct (agree_fields _ _ _ (Hag x Hx)) as (Hk&_&Hv&_); by rewrite ?Hk, ?Hv.
    rewrite !sum_by_app, !length_app. unfold sum_by. cbn [foldr length]. lia.
Qed.

Lemma search_none_key s (es : list Z) key c :
  (∀ x, x ∈ c → key_of s x ≠ key) →
  c ≡ₚ filter (λ o, bucket_of s (key_of s o) = bucket_of s key) es → key ∉ key_of s <$> es.
Proof.
  intros Hn Hp (o&->&Ho)%list_elem_of_fmap. apply (Hn o); [|done].
  rewrite Hp. by apply list_elem_of_filter.
Qed.

(** the place of an element with a unique key *)
Lemma split_by_key {A} (f : Z → A) l1 o l2 l1' o' l2' :
  NoDup (f <$> l1 ++ o :: l2) → l1 ++ o :: l2 = l1' ++ o' :: l2' → f o' = f o →
  o' = o ∧ l1' = l1 ∧ l2' = l2.
Proof.
  revert l1'. induction l1 as [|x l1 IH]; intros [|y l1'] Hnd Heq Hf; simplify_eq/=; [done|..];
    apply NoDup_cons in Hnd as [Hn Hnd].
  - destruct Hn. rewrite <-Hf. apply list_elem_of_fmap_2. set_solver.
  - destruct Hn. rewrite Hf. apply list_elem_of_fmap_2. set_solver.
  - by destruct (IH l1' Hnd) as (->&->&->).
Qed.

(** the outcome of a deletion in the table with the entries [es] *)
Definition deleted (s : shmcache_context) (es : list Z) (key : list ascii) (s' : shmcache_context)
    (es' : list Z) : Prop :=
  ∃ l1 o l2, es = l1 ++ o :: l2 ∧ key_of s o = key ∧ es' = l1 ++ l2 ∧ inv s' es' ∧
    ∀ x, x ∈ es' → agree s s' x.

Lemma delete_ex_spec s es key recycled :
  inv s es → key_ok key →
  wp (shm_ht_delete_ex key recycled) (λ r s',
    table_frame s s' ∧
    (∀ l1 o l2, es = l1 ++ o :: l2 → key_of s o = key_data key →
       r.2 = recycled || empties s o (l1 ++ l2)) ∧
    ((r.1 = 0 ∧ ∃ es', deleted s es (key_data key) s' es') ∨
     (r.1 = ENOENT ∧ s' = s ∧ key_data key ∉ key_of s <$> es))) s.
Proof.
  intros (Hg&Hp&Ha&Hd&Ht) Hk. pose proof Ht as (_&_&Hbk&_).
  pose proof (inv_readable s es es Hg Ha Ht ltac:(done)) as Hrd.
  pose proof (inv_off_ok s es es Hg Ha ltac:(done)) as Hoff.
  pose proof (geometry_segs s Hg) as Hs.
  unfold shm_ht_delete_ex. wp_simpl. eapply wp_bucket_index; [done..|]. wp_simpl.
  eapply wp_load_bucket; [done|by eapply bucket_of_range|]. intros start c Hst Hc Hpc.
  wp_simpl. eapply wp_mono; [by eapply search_spec|]. intros r s0 [-> Hres].
  destruct Hres as [c1 o c2 -> Hko Hc1|Hnone].
  2: { assert (key_data key ∉ key_of s <$> es) as Hno by by eapply search_none_key.
       wp_simpl. split_and!; [apply table_frame_refl| |by right].
       intros l1 o l2 -> Hko. destruct Hno. apply list_elem_of_fmap. exists o. set_solver. }
  assert (o ∈ es) as Ho.
  { assert (o ∈ c1 ++ o :: c2) as Hin by set_solver. rewrite Hpc in Hin.
    by apply list_elem_of_filter in Hin as [_ ?]. }
  apply list_elem_of_split in Ho as (l1&l2&->).
  rewrite Forall_forall in Hrd, Hoff. wp_simpl. apply wp_load_hentry; [done|apply Hoff; set_solver|].
  rewrite <-Hko in Hpc, Hst |- *.
  wp_simpl. eapply wp_mono.
  { eapply (relink_spec s _ start c1); [done| |done|].
    { destruct (Hbk) as (_&->&_). by eapply bucket_of_range. }
    apply Forall_forall. intros x Hx. apply Hoff.
    assert (x ∈ c1 ++ o :: c2) as Hin by set_solver. rewrite Hpc in Hin.
    by apply list_elem_of_filter in Hin as [_ ?]. }
  intros u s1 Hrl. cbn beta in Hrl. change (ht_next (hentry_at s (hentry_addr o))) with (hnext s o) in Hrl.
  destruct (relinked_invs _ _ _ _ _ _ _ _ Hrl Hg Hp Ha Hd) as (Hg1&Hp1&Ha1&Hd1).
  assert (alloc_inv s1 (o :: l1 ++ l2)) as Ha1'.
  { eapply alloc_inv_perm; [|exact Ha1]. by rewrite Permutation_middle. }
  wp_simpl. eapply wp_mono; [by apply (free_entry_spec s1 o (l1 ++ l2) l1 l2)|].
  intros rec s2 [Hrec Hpost]. wp_simpl.
  destruct (table_delete s s1 s2 _ l1 o l2 start c1 c2 Hg Ha ltac:(done)) as [Ht2 Hag]; try done.
  { by destruct Ha. }
  { by eexists _, _. }
  destruct Hpost as (Htf&Hg2&Hp2&Ha2&Hd2&_).
  split_and!; [eapply table_frame_trans; [by eapply relinked_table_frame|done]| |left].
  { intros l1' o' l2' Heq Hko'. assert (o' = o ∧ l1' = l1 ∧ l2' = l2) as (->&->&->).
    { apply (split_by_key (key_of s)); [by destruct Ht as (_&?&_)|done|congruence]. }
    cbn [snd]. rewrite Hrec. f_equal. apply empties_ext. intros x _. unfold striping_of.
    by destruct (agree_shape _ _ _ (relinked_agree _ _ _ _ _ _ x Hrl)) as (_&_&->&_). }
  split; [done|]. exists (l1 ++ l2), l1, o, l2. split_and!; done.
Qed.
End delete.

(** ** Reading *)
Section get.
Context `{E : Env} `{L : !EnvLaws E}.

(** the entry of a key, as an element of [es] *)
Definition finds (s : shmcache_context) (es : list Z) (key : list ascii) (o : Z) : Prop :=
  o ∈ es ∧ key_of s o = key.
Lemma finds_unique s es key o o' :
  NoDup (key_of s <$> es) → finds s es key o → finds s es key o' → o = o'.
Proof.
  intros Hnd [Ho Hk] [Ho' Hk'].
  apply list_elem_of_lookup in Ho as [i Hi]. apply list_elem_of_lookup in Ho' as [j Hj].
  assert ((key_of s <$> es) !! i = Some key) by (rewrite list_lookup_fmap, Hi; cbn; congruence).
  assert ((key_of s <$> es) !! j = Some key) by (rewrite list_lookup_fmap, Hj; cbn; congruence).
  assert (i = j) as -> by (eapply NoDup_lookup; eauto). congruence.
Qed.

(** the common start of get and set_expires *)
Lemma wp_find {A} s es key (k : option hptr * Z * option hptr → cmd A) (Q : A → _ → Prop) :
  inv s es → key_ok key →
  (∀ o previous, finds s es (key_data key) o → wp (k (Some (hentry_addr o), o, previous)) Q s) →
  (∀ previous, key_data key ∉ key_of s <$> es → wp (k (None, 0, previous)) Q s) →
  wp (index ← HT_GET_BUCKET_INDEX key; entry_offset ← load_bucket index;
      r ← search key entry_offset; k r) Q s.
Proof.
  intros (Hg&Hp&Ha&Hd&Ht) Hk Hf Hn. pose proof Ht as (_&_&Hbk&_).
  pose proof (inv_readable s es es Hg Ha Ht ltac:(done)) as Hrd.
  wp_simpl. eapply wp_bucket_index; [done..|]. wp_simpl.
  eapply wp_load_bucket; [done|by eapply bucket_of_range|]. intros start c Hst Hc Hpc.
  wp_simpl. eapply wp_mono; [by eapply search_spec|]. intros r s0 [-> Hres].
  destruct Hres as [c1 o c2 -> Hko Hc1|Hnone].
  - apply Hf. split; [|done]. assert (o ∈ c1 ++ o :: c2) as Hin by set_solver. rewrite Hpc in Hin.
    by apply list_elem_of_filter in Hin as [_ ?].
  - apply Hn. by eapply search_none_key.
Qed.

Definition value_ref_of (s : shmcache_context) (o : Z) : value_ref :=
  Value_ref (Some (value_ptr s o)) (value_length (he_value (hdr s o)))
    (value_options (he_value (hdr s o))) (expires (hdr s o)).

Lemma readable_value_ptr s o : readable s o → value_ptr s o =
  (ssp_segment (mem_index (mem_of s o)),
   mem_offset (mem_of s o) + sizeof_shm_hash_entry + MEM_ALIGN (key_len (hdr s o))).
Proof. intros (_&_&_&_&_&H1&H2). unfold value_ptr. by rewrite H1, H2. Qed.
Lemma readable_segment s o : readable s o →
  0 ≤ ssp_segment (mem_index (mem_of s o)) < values_count s.
Proof. intros ((_&(?&_)&_)&_&_&_&_&->&_). done. Qed.

(** load the header of an entry, and the address of its value *)
Lemma wp_load_readable s o (Q : shm_hash_entry → _ → Prop) :
  segs_ok s → readable s o → Q (hdr s o) s → wp (load_hentry (hentry_addr o)) Q s.
Proof. intros Hs ((_&?&_)&_) HQ. by apply wp_load_hentry. Qed.
Lemma wp_value_ptr s o (Q : option hptr → _ → Prop) :
  segs_ok s → readable s o → Q (Some (value_ptr s o)) s → wp (shm_get_value_ptr (hdr s o)) Q s.
Proof.
  intros Hs Hr HQ. apply wp_get_value_ptr; [done|by apply readable_segment|].
  by rewrite readable_value_ptr in HQ.
Qed.

Lemma get_spec s es key :
  inv s es → key_ok key →
  wp (shm_ht_get key) (λ r s',
    (key_data key ∉ key_of s <$> es ∧ r = (ENOENT, None) ∧ s' = s) ∨
    ∃ o, finds s es (key_data key) o ∧ s' = s <| ticks ::= S |> ∧
      r = (if HT_ENTRY_IS_VALID (expires (hdr s o)) (get_current_time (ticks s)) then 0 else ETIMEDOUT,
           Some (value_ref_of s o))) s.
Proof.
  intros Hinv Hk. pose proof Hinv as (Hg&_&Ha&_&Ht).
  pose proof (inv_readable s es es Hg Ha Ht ltac:(done)) as Hrd. rewrite Forall_forall in Hrd.
  apply wp_find with es; [done..| |].
  - intros o previous Hf. wp_simpl.
    apply wp_load_readable; [by apply geometry_segs|by apply Hrd, Hf|].
    wp_simpl. apply wp_value_ptr; [by apply geometry_segs|by apply Hrd, Hf|].
    wp_simpl. apply wp_ext. wp_simpl. right. by exists o.
  - intros previous Hn. wp_simpl. by left.
Qed.

(** ** Setting the time to live *)
Definition with_expires (x : Z) (r : shmcache_hash_entry) : shmcache_hash_entry :=
  Hash_entry (entry_key r)
    (Value_info (v_data (entry_value r)) (v_length (entry_value r)) (v_options (entry_value r)) x).

Lemma set_expires_spec s es key x :
  inv s es → key_ok key →
  wp (shm_ht_set_expires key x) (λ r s',
    (key_data key ∉ key_of s <$> es ∧ r = ENOENT ∧ s' = s) ∨
    ∃ o, finds s es (key_data key) o ∧
      if HT_ENTRY_IS_VALID (expires (hdr s o)) (get_current_time (ticks s)) then
        r = 0 ∧ inv s' es ∧ same_cache s s' ∧ record_of s' o = with_expires x (record_of s o) ∧
        (∀ y, y ∈ es → y ≠ o → agree s s' y) ∧ extends s es s' es
      else r = ETIMEDOUT ∧ s' = s <| ticks ::= S |>) s.
Proof.
  intros Hinv Hk. pose proof Hinv as (Hg&Hp&Ha&Hd&Ht).
  pose proof (inv_readable s es es Hg Ha Ht ltac:(done)) as Hrd. rewrite Forall_forall in Hrd.
  apply wp_find with es; [done..| |].
  2: { intros previous Hn. wp_simpl. by left. }
  intros o previous Hf. wp_simpl. pose proof (Hrd o ltac:(apply Hf)) as Hro.
  apply wp_load_readable; [by apply geometry_segs|done|]. wp_simpl. apply wp_ext.
  destruct (HT_ENTRY_IS_VALID _ _) eqn:Hv; wp_simpl; [|right; exists o; by rewrite Hv].
  apply wp_store_hentry; [by apply geometry_segs|apply Hro|]. wp_simpl. right. exists o. rewrite Hv.
  split; [done|]. set (s' := s <| ticks ::= S |> <| hentries := _ |>).
  assert (∀ y, readable s y → y ≠ o → hdr s' y = hdr s y) as Hoth.
  { intros y (Hy&_) Hne. apply (mem_of_other s s' y (hentry_addr o)).
    - intros q Hq. by apply lookup_insert_ne.
    - eapply off_ok_addr_ne; [done|apply Hro|done]. }
  assert (hdr s' o = (hdr s o) <| expires := x |>) as Ho.
  { unfold hdr, hentry_at. subst s'. cbn. by rewrite lookup_insert_eq. }
  assert (∀ y, y ∈ es → y ≠ o → agree s s' y) as Hag.
  { intros y Hy Hne. apply agree_hdr; [done|]. by rewrite Hoth by auto. }
  assert (∀ y, y ∈ es → same_shape s s' y ∧ hnext s' y = hnext s y ∧
            he_list (hdr s' y) = he_list (hdr s y)) as Hsh.
  { intros y Hy. destruct (decide (y = o)) as [->|Hne].
    - unfold same_shape, mem_of, hnext, key_of. rewrite Ho. done.
    - split; [by apply agree_shape, Hag|]. unfold hnext. by rewrite Hoth by auto. }
  split_and!; [done| |done| |exact Hag|].
  - split_and!; [done|done| | |].
    + eapply alloc_inv_frame; [..|exact Ha]; try done. intros y Hy. by apply Hsh.
    + eapply dll_ext; [..|exact Hd]; try done. intros y Hy. by apply Hsh.
    + eapply table_shape; [..|exact Ht]; try done; intros y Hy; by apply Hsh.
  - unfold record_of, with_expires, key_of, value_of, value_ptr. rewrite Ho. done.
  - apply extends_same; [done|done|]. intros y Hy. destruct (Hsh y Hy) as ((_&_&_&?)&?&_). done.
Qed.
End get.

(** ** Listing *)
Section to_array.
Context `{E : Env} `{L : !EnvLaws E}.

(** only the count of external calls changes *)
Definition ticked (s s' : shmcache_context) : Prop := ∃ n, s' = s <| ticks := n |>.
Lemma ticked_refl s : ticked s s.
Proof. exists (ticks s). by destruct s. Qed.
Lemma ticked_trans s1 s2 s3 : ticked s1 s2 → ticked s2 s3 → ticked s1 s3.
Proof. intros (n1&->) (n2&->). by exists n2. Qed.
Lemma ticked_step s : ticked s (s <| ticks ::= S |>).
Proof. by exists (S (ticks s)). Qed.

Definition select (s : shmcache_context) (key_info : option shmcache_match_key_info)
    (current_time o : Z) : bool :=
  HT_ENTRY_IS_VALID (expires (hdr s o)) current_time &&
  match key_info with None => true | Some ki => shm_ht_match_key ki (key_of s o) end.
Definition selection s key_info current_time (l : list Z) : list Z :=
  filter (λ o, select s key_info current_time o = true) l.

Lemma selected_spec s ki t o (Q : bool → _ → Prop) :
  segs_ok s → readable s o → Q (select s ki t o) s → wp (selected ki t (hentry_addr o)) Q s.
Proof.
  intros Hs Hr HQ. unfold selected. wp_simpl. apply wp_load_readable; [done..|].
  unfold select in HQ. destruct (HT_ENTRY_IS_VALID _ _); [|by wp_simpl].
  destruct ki as [ki|]; wp_simpl; [|done].
  apply wp_memcpy_from; [done|apply Hr|]. wp_simpl. exact HQ.
Qed.
Lemma selection_cons s ki t o l :
  selection s ki t (o :: l) = if select s ki t o then o :: selection s ki t l else selection s ki t l.
Proof. unfold selection. rewrite filter_cons. by destruct (select s ki t o); case_decide. Qed.

Lemma skip_loop_spec fuel s l1 l2 ki t offset i :
  segs_ok s → dll s (l1 ++ l2) → Forall (readable s) l2 → (length l2 < fuel)%nat → 0 ≤ i ≤ offset →
  wp (skip_loop fuel ki t offset i (List.hd (-1) l2)) (λ r s', s' = s ∧ ∃ l3 l4, l2 = l3 ++ l4 ∧
    r = List.hd (-1) l4 ∧
    selection s ki t l4 = drop (Z.to_nat (offset - i)) (selection s ki t l2)) s.
Proof.
  revert l1 l2 i. induction fuel as [|fuel IH]; intros l1 l2 i Hs Hd Hr Hf Hi; [lia|].
  cbn [skip_loop]. destruct l2 as [|o l2]; cbn [List.hd].
  { change (-1 >? 0) with false. cbn [andb]. wp_simpl. split; [done|]. exists [], []. split_and!; [done..|].
    change (selection s ki t []) with (@nil Z). by rewrite drop_nil. }
  apply Forall_cons in Hr as [Hro Hr]. pose proof (off_ok_pos _ _ (proj1 Hro)).
  rewrite Z.gtb_ltb, (proj2 (Z.ltb_lt _ _)) by done. cbn [andb].
  destruct (Z.ltb_spec i offset).
  2: { wp_simpl. split; [done|]. exists [], (o :: l2). replace (offset - i) with 0 by lia. done. }
  wp_simpl. apply wp_get_hentry_ptr; [done|apply Hro|]. wp_simpl. apply wp_non_null. wp_simpl.
  apply selected_spec; [done..|]. wp_simpl. eapply wp_mono; [by eapply list_next_spec|].
  intros next s' [-> ->]. eapply wp_mono.
  { apply (IH (l1 ++ [o]) l2); [done|by rewrite <-app_assoc|done|simpl in Hf; lia|].
    destruct (select s ki t o); lia. }
  intros r s' [-> (l3&l4&->&->&Hsel)]. split; [done|]. exists (o :: l3), l4.
  split_and!; [done..|]. rewrite Hsel, selection_cons.
  destruct (select s ki t o); [|done]. replace (Z.to_nat (offset - i)) with (S (Z.to_nat (offset - (i + 1)))) by lia.
  done.
Qed.

Definition malloc_succeeds : Prop := ∀ n z, malloc_ok n z = true.

Lemma copy_loop_spec fuel s l1 l2 ki t rows count :
  segs_ok s → dll s (l1 ++ l2) → Forall (readable s) l2 → (length l2 < fuel)%nat → count < rows →
  wp (copy_loop fuel ki t rows count (List.hd (-1) l2)) (λ r s', ticked s s' ∧
    (malloc_succeeds → r ≠ inl tt) ∧
    ∀ l, r = inr l →
      l = take (Z.to_nat (rows - count)) (record_of s <$> selection s ki t l2)) s.
Proof.
  revert s l1 l2 count. induction fuel as [|fuel IH]; intros s l1 l2 count Hs Hd Hr Hf Hc; [lia|].
  cbn [copy_loop]. destruct l2 as [|o l2]; cbn [List.hd].
  { change (-1 >? 0) with false. wp_simpl. split_and!; [apply ticked_refl|done|].
    intros l [= <-]. cbn. by rewrite take_nil. }
  apply Forall_cons in Hr as [Hro Hr]. pose proof (off_ok_pos _ _ (proj1 Hro)).
  rewrite Z.gtb_ltb, (proj2 (Z.ltb_lt _ _)) by done.
  wp_simpl. apply wp_get_hentry_ptr; [done|apply Hro|]. wp_simpl. apply wp_non_null. wp_simpl.
  apply selected_spec; [done..|]. wp_simpl. rewrite selection_cons. destruct (select s ki t o).
  2: { wp_simpl. eapply wp_mono; [by eapply list_next_spec|]. intros next s' [-> ->].
       apply (IH s (l1 ++ [o])); [done|by rewrite <-app_assoc|done|simpl in Hf; lia|done]. }
  wp_simpl. apply wp_load_readable; [done..|]. wp_simpl. apply wp_ext.
  set (s1 := s <| ticks ::= S |>). destruct (malloc_ok _ _) eqn:Hm.
  2: { wp_simpl. split_and!; [apply ticked_step|intros Hok; by rewrite Hok in Hm|done]. }
  wp_simpl. apply wp_memcpy_from; [done|apply Hro|]. wp_simpl.
  apply (wp_value_ptr s1); [done..|]. wp_simpl. apply wp_non_null. wp_simpl.
  apply wp_memcpy_from; [done|apply Hro|]. wp_simpl.
  eapply wp_mono; [by apply (list_next_spec s1 l1 o l2)|]. intros next s' [-> ->]. fold s1.
  change (Hash_entry _ _) with (record_of s o).
  destruct (Z.eqb_spec (count + 1) rows) as [Heq|Hne].
  { wp_simpl. split_and!; [apply ticked_step|done|]. intros l [= <-].
    replace (Z.to_nat (rows - count)) with 1%nat by lia. cbn. by rewrite take_0. }
  wp_simpl. eapply wp_mono.
  { apply (IH s1 (l1 ++ [o]) l2); [done|by rewrite <-app_assoc|done|simpl in Hf; lia|lia]. }
  intros r s2 (Ht&Hok&Hl). wp_simpl. split_and!.
  - eapply ticked_trans; [apply ticked_step|done].
  - intros Hms. specialize (Hok Hms). by destruct r as [[]|].
  - destruct r as [|l2']; [done|]. intros l [= <-]. rewrite (Hl l2') by done.
    replace (Z.to_nat (rows - count)) with (S (Z.to_nat (rows - (count + 1)))) by lia. done.
Qed.

(** the rows a listing returns *)
Definition listing (s : shmcache_context) (es : list Z) (ki : option shmcache_match_key_info)
    (offset count current_time : Z) : list shmcache_hash_entry :=
  take (Z.to_nat (rows_asked s offset count)) (drop (Z.to_nat offset) (record_of s <$> selection s ki current_time es)).

Lemma to_array_ex_spec s es ki offset count :
  inv s es → 0 ≤ offset →
  wp (shm_ht_to_array_ex ki offset count) (λ r s', ticked s s' ∧
    (malloc_succeeds → r.1 = 0) ∧
    (r.1 = 0 → r.2 = listing s es ki offset count (to_int (time_NULL (S (ticks s))))) ∧
    (r.1 ≠ 0 → r = (ENOMEM, []))) s.
Proof.
  intros (Hg&_&Ha&Hd&Ht) Hoff. pose proof (inv_readable s es es Hg Ha Ht ltac:(done)) as Hrd.
  pose proof (geometry_segs s Hg) as Hs. destruct Ht as (_&_&_&(Hcnt&_)).
  unfold shm_ht_to_array_ex. rewrite (proj2 (Z.ltb_ge _ _)) by done. wp_simpl.
  assert (length es < chain_fuel s)%nat as Hfuel.
  { unfold chain_fuel, shm_ht_count. rewrite Hcnt. lia. }
  set (rows := rows_asked s offset count). destruct (Z.leb_spec rows 0) as [Hrows|Hrows].
  { wp_simpl. split_and!; [apply ticked_refl|done| |done]. intros _. unfold listing.
    fold rows. replace (Z.to_nat rows) with 0%nat by lia. done. }
  wp_simpl. apply wp_ext. set (s1 := s <| ticks ::= S |>). destruct (malloc_ok _ _) eqn:Hm.
  2: { wp_simpl. split_and!; [apply ticked_step| |done|done].
       intros Hok. by rewrite Hok in Hm. }
  wp_simpl. apply wp_ext. set (now := to_int _). wp_simpl. set (s2 := s1 <| ticks ::= S |>).
  eapply wp_mono; [by apply (list_first_spec s2 es)|]. intros first s' [-> ->].
  wp_simpl. eapply wp_mono.
  { apply (skip_loop_spec _ s2 [] es ki now offset 0); done || lia. }
  intros r0 s' [-> (l3&l4&->&->&Hsel)]. wp_simpl. eapply wp_mono.
  { apply (copy_loop_spec _ s2 l3 l4 ki now rows 0); [done|done| | |lia].
    - by apply Forall_app in Hrd as [_ ?].
    - rewrite length_app in Hfuel. lia. }
  intros r s3 (Htk&Hok&Hl). wp_simpl.
  assert (ticked s s3) as Htk'.
  { eapply ticked_trans; [apply (ticked_step s)|].
    eapply ticked_trans; [apply (ticked_step s1)|exact Htk]. }
  destruct r as [[]|l].
  - split_and!; [done|intros Hms; by destruct (Hok Hms)|done|done].
  - split_and!; [done|done| |done]. intros _. cbn. rewrite (Hl l) by done.
    rewrite Hsel, !Z.sub_0_r, fmap_drop. done.
Qed.
End to_array.

(** ** Clearing *)
(** what clearing needs: the fixed parts of the structures; the table, the
    list, the queues' positions and the usage of the stripings may be anything *)
Definition clearable (s : shmcache_context) : Prop :=
  geometry s ∧
  (∀ i, 0 ≤ i < current_stripings s → ∃ a, znth (allocators s) i = Some a ∧
     al_index a = Ssp (i / stripings_per_segment s) i ∧
     offset_base a = (i mod stripings_per_segment s) * vsize (vm_striping (memory s)) ∧
     offset_end a = offset_base a + vsize (vm_striping (memory s))) ∧
  (0 < ht_capacity (hashtable (memory s)) < 2 ^ 31 ∧
   Z.of_nat (length (buckets (hashtable (memory s)))) = ht_capacity (hashtable (memory s))) ∧
  (∀ op, op = doing s ∨ op = done_pool s →
     Z.of_nat (length (offsets op)) = capacity (queue (obj_pool_info op)) ∧
     capacity (queue (obj_pool_info op)) = count_max (vm_striping (memory s)) + 1).

Section clear.
Context `{E : Env}.

Lemma inv_clearable s es : inv s es → clearable s.
Proof.
  intros (Hg&(Hd&Hn&_)&(_&_&Ha&_)&_&(_&_&(Hc&Hl&_)&_)). split_and!; [done| |lia|lia|done|].
  - intros i Hi. destruct (Ha i Hi) as (a&?&?&?&?&_). by exists a.
  - destruct Hd as ([]&?&_), Hn as ([]&?&_). intros op [->| ->]; done.
Qed.

Definition cleared_allocator (a : shm_striping_allocator) : shm_striping_allocator :=
  (Striping.shm_striping_allocator_reset a)
    <| in_which_pool := SHMCACHE_STRIPING_ALLOCATOR_POOL_DOING |>.

Lemma clear_allocators_spec n s ai :
  Pool.wf (doing s) → 0 ≤ ai → ai + Z.of_nat n ≤ Z.of_nat (length (allocators s)) →
  Pool.count (doing s) + Z.of_nat n < capacity (queue (obj_pool_info (doing s))) →
  wp (clear_allocators n ai) (λ _ s', ∃ al dg,
    s' = s <| allocators := al |> <| doing := dg |> ∧ length al = length (allocators s) ∧
    Pool.wf dg ∧ capacity (queue (obj_pool_info dg)) = capacity (queue (obj_pool_info (doing s))) ∧
    Pool.contents dg = Pool.contents (doing s) ++ (allocator_offset_of s <$> seqZ ai (Z.of_nat n)) ∧
    ∀ i, 0 ≤ i → znth al i =
      (if (ai <=? i) && (i <? ai + Z.of_nat n) then cleared_allocator <$> znth (allocators s) i
       else znth (allocators s) i)) s.
Proof.
  revert s ai. induction n as [|n IH]; intros s ai Hwf Hai Hlen Hcnt; cbn [clear_allocators].
  { wp_simpl. exists (allocators s), (doing s). split; [by destruct s|].
    split_and!; [done..|by rewrite app_nil_r|]. intros i Hi. bool_lia; done. }
  destruct (znth_is_Some (allocators s) ai ltac:(lia)) as [a Ha].
  wp_simpl. eapply wp_load_allocator; [done|]. wp_simpl. apply wp_store_allocator; [lia|]. wp_simpl.
  set (s1 := s <| allocators := _ |>). apply wp_on_doing.
  eapply wp_mono; [by apply Pool.pool_free_spec|]. intros r dg (Hwf'&_&Hcap&Hr).
  rewrite (proj2 (Z.eqb_neq _ _)) in Hr by (change (doing s1) with (doing s); lia).
  destruct Hr as [_ Hc]. set (s2 := s1 <| doing := dg |>).
  assert (length (allocators s2) = length (allocators s)) as Hl2 by apply length_insert.
  assert (Pool.count dg = Pool.count (doing s) + 1) as Hcnt'.
  { apply (f_equal length) in Hc. rewrite length_app, !Pool.length_contents in Hc by done. simpl in Hc.
    pose proof (Pool.count_range _ Hwf). pose proof (Pool.count_range _ Hwf').
    change (doing s1) with (doing s) in Hc. lia. }
  eapply wp_mono.
  { apply (IH s2 (ai + 1)); [done|lia|lia|]. change (doing s2) with dg.
    rewrite Hcap. change (doing s1) with (doing s). lia. }
  intros _ s' (al&dg'&->&Hl&Hwf2&Hcap2&Hc2&Hal). exists al, dg'. split; [done|].
  split_and!; [by rewrite Hl, Hl2|done|by rewrite Hcap2| |].
  - rewrite Hc2. change (doing s2) with dg. rewrite Hc, <-app_assoc. change (doing s1) with (doing s).
    f_equal. rewrite (seqZ_cons ai) by lia. rewrite fmap_cons. cbn. f_equal.
    by replace (Z.pred (Z.of_nat (S n))) with (Z.of_nat n) by lia.
  - intros i Hi. rewrite Hal by done. change (allocators s2) with
      (<[Z.to_nat ai := cleared_allocator a]> (allocators s)). rewrite znth_insert by lia.
    destruct (Z.eqb_spec ai i) as [<-|Hne]; [rewrite Ha|]; bool_lia; done.
Qed.

Lemma replicate_lookup_znth n (x : Z) b : 0 ≤ b < n → znth (replicate (Z.to_nat n) x) b = Some x.
Proof. intros. unfold znth. rewrite (proj2 (Z.leb_le 0 b)) by lia. apply lookup_replicate_2. lia. Qed.

Lemma clear_spec s :
  clearable s →
  wp shm_ht_clear (λ r s', r = ht_count (hashtable (memory s)) ∧ inv s' [] ∧ same_cache s s' ∧
    last_clear_time (stats (memory s')) = get_current_time (ticks s) ∧
    stats_lock (stats (memory s')) = stats_lock (stats (memory s)) ∧
    ticks s' = S (ticks s)) s.
Proof.
  intros (Hg&Hal&[Hcap Hbl]&Hq). unfold shm_ht_clear. wp_simpl. apply wp_ext. wp_simpl.
  set (s1 := s <| ticks ::= S |> <| memory; stats; last_calc_time := _ |>
               <| memory; stats; last_clear_time := _ |> <| memory; hashtable; buckets ::= _ |>
               <| memory; hashtable; ht_count := 0 |>).
  eapply wp_mono; [apply list_init_spec|]. intros _ s2 [Hf Hd2]. wp_simpl.
  pose proof Hf as (hd&en&Hs2&_).
  destruct (Hq (doing s) ltac:(by left)) as [Hdl Hdc]. destruct (Hq (done_pool s) ltac:(by right)) as [Hnl Hnc].
  pose proof (geometry_current s Hg) as Hcur.
  apply wp_on_doing. eapply wp_mono; [apply Pool.init_empty_spec; subst s2; [exact Hdl|cbn; lia]|].
  intros _ dg (Hwfd&Hdg&Hdcap&_&_). wp_simpl.
  apply wp_on_done. eapply wp_mono; [apply Pool.init_empty_spec; subst s2; [exact Hnl|cbn; lia]|].
  intros _ dn (Hwfn&Hdn&Hncap&_&_). wp_simpl.
  set (s3 := s2 <| doing := dg |> <| done_pool := dn |>).
  change (count_current (vm_striping _)) with (current_stripings s).
  assert (length (allocators s3) = length (allocators s)) as Hal3 by by subst s2.
  assert (Z.of_nat (length (allocators s)) = count_max (vm_striping (memory s))) as Hlen
    by (by destruct Hg as (_&_&_&_&[? _]&_)).
  assert (Pool.count dg = 0) as Hcnt.
  { pose proof (Pool.length_contents dg Hwfd) as Hl. rewrite Hdg in Hl.
    pose proof (Pool.count_range dg Hwfd). simpl in Hl. lia. }
  eapply wp_mono.
  { apply (clear_allocators_spec _ s3 0); [done|lia|lia|]. change (doing s3) with dg.
    rewrite Hdcap. subst s2. cbn. lia. }
  intros _ s4 (al&dg'&->&Hl&Hwf'&Hcap'&Hc'&Hznth). wp_simpl.
  set (s5 := _ <| memory; usage; used_key := 0 |> <| memory; usage; used_value := 0 |>
               <| memory; usage; used_entry := 0 |>).
  split_and!; [done| |by subst s2..].
  assert (∀ i, 0 ≤ i < current_stripings s → ∃ a, znth (allocators s) i = Some a ∧
            znth (allocators s5) i = Some (cleared_allocator a)) as Hclr.
  { intros i Hi. destruct (Hal i Hi) as (a&Ha&_). exists a. split; [done|]. cbn [s5].
    change (allocators s5) with al. rewrite Hznth by lia. 
    rewrite (proj2 (Z.leb_le _ _)), (proj2 (Z.ltb_lt _ _)) by lia. cbn [andb].
    assert (allocators s3 = allocators s) as -> by by subst s2. by rewrite Ha. }
  assert (∀ i, 0 ≤ i < current_stripings s → pool_flag s5 i SHMCACHE_STRIPING_ALLOCATOR_POOL_DOING) as Hfl.
  { intros i Hi. destruct (Hclr i Hi) as (a&_&Ha). by exists (cleared_allocator a). }
  assert (geometry s5) as Hg5.
  { assert (length (allocators s5) = length (allocators s)) as Hl5
      by (change (allocators s5) with al; by rewrite Hl).
    destruct Hg as (G1&G2&G3&G4&[G5 G5']&G6). subst s2.
    split_and!; [apply G1..|apply G2|apply G2|apply G2|apply G3|apply G3|apply G3|apply G4|apply G4
      |apply G4| |exact G5'|exact G6]. by rewrite Hl5. }
  assert (current_stripings s5 = current_stripings s) as Hcur5 by by subst s2.
  assert (stripings_per_segment s5 = stripings_per_segment s) as Hps5 by by subst s2.
  assert (vsize (vm_striping (memory s5)) = vsize (vm_striping (memory s))) as Hvs5 by by subst s2.
  assert (∀ i, allocator_offset_of s3 i = allocator_offset_of s i) as Hoff3 by by subst s2.
  assert (∀ i, allocator_offset_of s5 i = allocator_offset_of s i) as Hoff5 by by subst s2.
  change (doing s3) with dg in Hc'. rewrite Hdg, Z2Nat.id in Hc' by lia. cbn [app] in Hc'.
  split_and!; [exact Hg5| | | |].
  - split_and!.
    + split_and!; [done| |change (doing s5) with dg'; rewrite Hc'|].
      * change (doing s5) with dg'. rewrite Hcap'. change (doing s3) with dg. rewrite Hdcap.
        subst s2. cbn. lia.
      * apply NoDup_fmap_2_strong; [|apply NoDup_seqZ]. intros i j _ _. rewrite !Hoff3.
        apply allocator_offset_inj.
      * change (doing s5) with dg'. rewrite Hc'. apply Forall_fmap, Forall_forall.
        intros i Hi%elem_of_seqZ. exists i. rewrite Hcur5, Hoff5. cbn. rewrite Hoff3.
        split_and!; [lia|lia|done|apply Hfl; lia].
    + split_and!; [done|change (done_pool s5) with dn; rewrite Hncap; subst s2; cbn; lia| |];
        change (done_pool s5) with dn; rewrite Hdn; constructor.
    + intros i Hi. left. apply Hfl. by rewrite <-Hcur5.
  - split_and!; [constructor|constructor| |done]. rewrite Hcur5. intros i Hi.
    destruct (Hclr i Hi) as (a&Ha&Ha5). exists (cleared_allocator a). split; [done|].
    destruct (Hal i Hi) as (a'&Ha'&Hix&Hb&He). simplify_eq.
    split_and!; [by rewrite Hps5|by rewrite Hps5, Hvs5|by rewrite Hvs5|].
    destruct Hg as ([? _]&_). split; cbn; [lia|done|set_solver|constructor|set_solver].
  - eapply (dll_ext s2); [..|exact Hd2]; try done.
  - split_and!; [constructor|constructor| |split_and!; [by subst s2|done|done]].
    assert (buckets (hashtable (memory s5)) =
      replicate (Z.to_nat (ht_capacity (hashtable (memory s)))) 0 ++
      drop (Z.to_nat (ht_capacity (hashtable (memory s)))) (buckets (hashtable (memory s)))) as Hb5
      by by subst s2.
    assert (ht_capacity (hashtable (memory s5)) = ht_capacity (hashtable (memory s))) as Hcap5
      by by subst s2.
    rewrite drop_ge in Hb5 by lia. rewrite app_nil_r in Hb5.
    unfold buckets_ok. rewrite Hb5, Hcap5, length_replicate. split; [done|]. split; [lia|].
    intros b Hb. exists 0, []. split_and!; [by apply replicate_lookup_znth|done|done].
Qed.
End clear.

Lemma listing_length `{E : Env} s es ki offset count t :
  listing s es ki offset count t ≠ [] →
  0 < rows_asked s offset count ∧
  Z.of_nat (length (listing s es ki offset count t)) ≤ rows_asked s offset count.
Proof.
  unfold listing. set (l := drop _ _). destruct (Z.ltb_spec 0 (rows_asked s offset count)) as [H|H].
  - intros _. split; [done|]. rewrite length_take. lia.
  - by replace (Z.to_nat (rows_asked s offset count)) with 0%nat by lia.
Qed.

(** ** Matching keys *)
Lemma memcmp_eq_prefix (a b : list ascii) :
  memcmp_eq a b (Z.of_nat (length a)) = true ↔ a `prefix_of` b ∨ (length b < length a)%nat ∧ a = take (length a) b.
Proof.
  unfold memcmp_eq. rewrite bool_decide_eq_true, Nat2Z.id, firstn_all. split.
  - intros Heq. destruct (decide (length a ≤ length b)%nat) as [Hle|]; [left|right; split; [lia|done]].
    exists (drop (length a) b). rewrite Heq at 1. by rewrite take_drop.
  - intros [[c ->]|[_ Heq]]; [|done]. by rewrite take_app_length.
Qed.
Lemma memcmp_eq_iff (a b : list ascii) : (length a ≤ length b)%nat →
  memcmp_eq a b (Z.of_nat (length a)) = true ↔ a `prefix_of` b.
Proof. rewrite memcmp_eq_prefix. intros. naive_solver lia. Qed.
Lemma match_anywhere_spec n (a b : list ascii) :
  length b = (length a + n)%nat →
  match_anywhere (S n) a b (Z.of_nat (length a)) = true ↔ ∃ l1 l2, b = l1 ++ a ++ l2.
Proof.
  revert b. induction n as [|n IH]; intros b Hl; cbn [match_anywhere].
  - rewrite orb_false_r, memcmp_eq_iff by lia. split.
    + intros [c ->]. by exists [], c.
    + intros (l1&l2&->). rewrite !length_app in Hl. destruct l1; [|simpl in Hl; lia].
      by exists l2.
  - rewrite orb_true_iff, memcmp_eq_iff by lia. destruct b as [|x b]; [simpl in Hl; lia|].
    change (match_anywhere (S n) a b (Z.of_nat (length a)) = true) with
      (match_anywhere (S n) a (tl (x :: b)) (Z.of_nat (length a)) = true).
    cbn [tl]. rewrite (IH b) by (simpl in Hl; lia). split.
    + intros [[c ->]|(l1&l2&->)]; [by exists [], c|by exists (x :: l1), l2].
    + intros ([|y l1]&l2&Heq); [left; by exists l2|right]. simplify_eq/=. by exists l1, l2.
Qed.

(** ** Properties *)
Section properties.
Context `{E : Env} `{L : !EnvLaws E}.

(** the four ways to match a key are equality, prefix, suffix and
    substring, and an unknown operation matches nothing; the byte comparisons
    never leave the key. *)
Lemma match_key_spec key_info entry_key :
  match_length key_info = Z.of_nat (length (match_key key_info)) →
  (op_type key_info = SHMCACHE_MATCH_KEY_OP_EXACT →
    shm_ht_match_key key_info entry_key = true ↔ match_key key_info = entry_key) ∧
  (op_type key_info = SHMCACHE_MATCH_KEY_OP_LEFT →
    shm_ht_match_key key_info entry_key = true ↔ match_key key_info `prefix_of` entry_key) ∧
  (op_type key_info = SHMCACHE_MATCH_KEY_OP_RIGHT →
    shm_ht_match_key key_info entry_key = true ↔ match_key key_info `suffix_of` entry_key) ∧
  (op_type key_info = SHMCACHE_MATCH_KEY_OP_ANYWHERE →
    shm_ht_match_key key_info entry_key = true ↔ ∃ l1 l2, entry_key = l1 ++ match_key key_info ++ l2) ∧
  (¬ 0 ≤ op_type key_info ≤ 3 → shm_ht_match_key key_info entry_key = false).
Proof.
  destruct key_info as [k n op]. cbn. intros ->. unfold shm_ht_match_key. cbn.
  destruct (Z.ltb_spec (Z.of_nat (length entry_key)) (Z.of_nat (length k))) as [Hlt|Hge].
  { split_and!; intros _; try done; (split; [done|]).
    - intros ->. lia.
    - intros ?%prefix_length. lia.
    - intros ?%suffix_length. lia.
    - intros (l1&l2&->). rewrite !length_app in Hlt. lia. }
  unfold SHMCACHE_MATCH_KEY_OP_ANYWHERE, SHMCACHE_MATCH_KEY_OP_EXACT, SHMCACHE_MATCH_KEY_OP_LEFT,
    SHMCACHE_MATCH_KEY_OP_RIGHT. change (Z.lor 1 2) with 3. split_and!; intros Hop.
  - subst op. change (0 =? 0) with true. cbn iota. rewrite andb_true_iff, memcmp_eq_iff, Z.eqb_eq by lia.
    split; [|by intros ->]. intros [Hl [c ->]]. rewrite length_app in Hl.
    destruct c; [by rewrite app_nil_r|simpl in Hl; lia].
  - subst op. change (1 =? 0) with false. change (1 =? 1) with true. cbn iota. apply memcmp_eq_iff. lia.
  - subst op. change (2 =? 0) with false. change (2 =? 1) with false. change (2 =? 2) with true. cbn iota.
    replace (Z.to_nat (Z.of_nat (length entry_key) - Z.of_nat (length k)))
      with (length entry_key - length k)%nat by lia.
    rewrite memcmp_eq_iff by (rewrite length_drop; lia). split.
    + intros [c Hc]. exists (take (length entry_key - length k) entry_key).
      assert (c = []) as ->.
      { apply (f_equal length) in Hc. rewrite length_app, length_drop in Hc. destruct c; [done|simpl in Hc; lia]. }
      rewrite app_nil_r in Hc. rewrite <-Hc at 2. by rewrite take_drop.
    + intros [c ->]. rewrite length_app, Nat.add_sub, drop_app_length. done.
  - subst op. change (3 =? 0) with false. change (3 =? 1) with false. change (3 =? 2) with false.
    change (3 =? 3) with true. cbn iota.
    replace (Z.to_nat (Z.of_nat (length entry_key) - Z.of_nat (length k) + 1))
      with (S (length entry_key - length k))%nat by lia.
    apply match_anywhere_spec. lia.
  - rewrite !(proj2 (Z.eqb_neq _ _)) by lia. done.
Qed.

(** [shm_ht_get] always returns: ENOENT exactly when no entry has the key,
    else the address of the value of the one that has, inside its segment and
    with its length and options, and 0 or ETIMEDOUT by its expiry time; it
    writes nothing. *)
Theorem ht_get_correct s es key :
  inv s es → key_ok key →
  wp (shm_ht_get key) (λ r s', memory s' = memory s ∧ hentries s' = hentries s ∧
    payload s' = payload s ∧
    ((key_data key ∉ key_of s <$> es ∧ r = (ENOENT, None)) ∨
     ∃ o, finds s es (key_data key) o ∧
       place_ok s (value_ptr s o) (value_length (he_value (hdr s o))) ∧
       r = (if HT_ENTRY_IS_VALID (expires (hdr s o)) (get_current_time (ticks s)) then 0
            else ETIMEDOUT, Some (value_ref_of s o)))) s.
Proof.
  intros Hinv Hk. eapply wp_mono; [by apply get_spec|]. pose proof Hinv as (Hg&_&Ha&_&Ht).
  pose proof (inv_readable s es es Hg Ha Ht ltac:(done)) as Hrd. rewrite Forall_forall in Hrd.
  intros r s' [(Hn&->&->)|(o&Hf&->&->)]; split_and!; try done; [by left|right].
  exists o. split_and!; [done| |done]. apply Hrd, Hf.
Qed.

(** C20: [shm_ht_clear] returns the number of entries and makes a well-formed
    empty cache of any state whose fixed parts are intact - whatever a process
    that died in the middle of an operation left in the table, the recycle
    list, the queues and the stripings. *)
Theorem ht_clear_correct s :
  clearable s →
  wp shm_ht_clear (λ r s', r = ht_count (hashtable (memory s)) ∧ inv s' [] ∧ same_cache s s' ∧
    used_entry (usage (memory s')) = 0 ∧ used_key (usage (memory s')) = 0 ∧
    used_value (usage (memory s')) = 0 ∧ shm_ht_count s' = 0) s.
Proof.
  intros Hc. eapply wp_mono; [by apply clear_spec|]. intros r s' (->&Hinv&Hsc&_).
  destruct (Hinv) as (_&_&(_&_&_&Hu)&_&(_&_&_&(Hn&Hk&Hv))). done.
Qed.

(** C26: [shm_ht_to_array_ex] lists, oldest first, the records that are valid
    and match the key pattern, from the given offset on and at most as many
    rows as asked for; it fails with EINVAL for a negative offset and otherwise
    only with ENOMEM, each time with an empty array.  As long as the bytes of
    all rows can be counted by an int, what it copies fits in the array it
    allocated. *)
Theorem to_array_correct s es ki offset count :
  inv s es →
  wp (shm_ht_to_array_ex ki offset count) (λ r s',
    (offset < 0 → r = (EINVAL, []) ∧ s' = s) ∧
    (0 ≤ offset → ticked s s' ∧ (malloc_succeeds → r.1 = 0) ∧
      (r.1 = 0 → r.2 = listing s es ki offset count (to_int (time_NULL (S (ticks s))))) ∧
      (r.1 ≠ 0 → r = (ENOMEM, []))) ∧
    (sizeof_shmcache_hash_entry * Z.of_nat (length es) < 2 ^ 31 → r.2 ≠ [] →
     sizeof_shmcache_hash_entry * Z.of_nat (length r.2) ≤ array_bytes (rows_asked s offset count))) s.
Proof.
  intros Hinv. destruct (Z.ltb_spec offset 0) as [Hneg|Hpos].
  { unfold shm_ht_to_array_ex. rewrite (proj2 (Z.ltb_lt _ _) Hneg). wp_simpl. split_and!; [done|lia|done]. }
  eapply wp_mono; [by apply to_array_ex_spec|]. intros [r l] s' (Ht&Hok&Hl&Hne). cbn [fst snd] in *.
  split; [lia|]. split; [done|]. intros Hlen Hnil. destruct (decide (r = 0)) as [->|Hr].
  2: { specialize (Hne Hr). by simplify_eq. }
  rewrite (Hl eq_refl) in *. pose proof (listing_length s es ki offset count _ Hnil) as [H1 H2].
  destruct Hinv as (_&_&_&_&(_&_&_&(Hc&_))).
  assert (rows_asked s offset count ≤ Z.of_nat (length es)) as H3.
  { unfold rows_asked, shm_ht_count. rewrite Hc.
    destruct (0 <? count), (Z.ltb_spec count (Z.of_nat (length es) - offset)); cbn [andb]; lia. }
  unfold array_bytes, sizeof_shmcache_hash_entry in *. unfold to_int at 2.
  rewrite (wrap_signed_small 32 (40 * _)); [lia|lia|].
  change (2 ^ (32 - 1)) with (2 ^ 31). lia.
Qed.

(** the size of the array is computed in int: for two to the 32nd bytes and more
    the array is too small for its rows. *)
Theorem array_bytes_wrap : ∃ rows, 0 < array_bytes rows < sizeof_shmcache_hash_entry * rows ∧
  sizeof_shmcache_hash_entry * rows < 2 ^ 33.
Proof. exists 107374183. by vm_compute. Qed.
End properties.
