(* ===== verification/Recycle.v ===== *)
(** * Recycling, allocation and insertion (src/shm_value_allocator.c, 99-319;
    [shm_ht_set] of src/shm_hashtable.c)

    These functions are mutually recursive in the source: [shm_ht_set]
    allocates, an allocation may rearrange the memory, and rearranging
    re-inserts every valid entry with [shm_ht_set].  Each is defined on the
    function it calls back; [shm_ht_set_n] ties the knot with the depth of the
    recursion as fuel. *)
From S2P Require Import Prelude Types ObjectPool Striping Shmopt HentryOffset ShmList Invariant OpWrapper SegmentGrowth ValueAllocator HashTable.
Local Open Scope Z_scope.
Local Open Scope shm_scope.

Section Recycle.
Context `{E : Env}.

(** ** shm_value_allocator_recycle (99-200) *)
(** which of the two statistics the caller passes *)
Inductive recycle_target := Recycle_key | Recycle_striping.
Definition upd_recycle_stats (target : recycle_target) (f : shm_recycle_stats → shm_recycle_stats)
    (s : shmcache_context) : shmcache_context :=
  match target with
  | Recycle_key => s <| memory; stats; recycle_key_stats ::= f |>
  | Recycle_striping => s <| memory; stats; recycle_striping_stats ::= f |>
  end.

(** the while loop (122-170): (result, clear_count, valid_count) *)
Fixpoint recycle_loop (fuel : nat) (recycle_keys_once : Z) (entry_offset clear_count valid_count : Z)
    (recycled : bool) : cmd (Z * Z * Z) :=
  match fuel with
  | O => fault
  | S fuel =>
    if entry_offset >? 0 then
      entry ← shm_get_hentry_ptr entry_offset; entry ← non_null entry;
      e ← load_hentry entry;
      s ← get;
      let valid := HT_ENTRY_IS_VALID (expires e) (g_current_time s) in
      if valid && negb (recycle_valid_entries (config s)) then
        next ← shm_list_next entry_offset;
        recycle_loop fuel recycle_keys_once next clear_count valid_count recycled
      else
        let current_offset := entry_offset in
        entry_offset ← shm_list_next entry_offset;
        k ← memcpy_from (key_ptr entry) (key_len e);
        '(r, recycled) ← shm_ht_delete_ex (Key_info k (key_len e)) recycled;
        recycled ← (if negb (r =? 0) then shm_ht_free_entry entry current_offset recycled
                    else mret recycled);
        let clear_count := clear_count + 1 in
        let valid_count := if valid then valid_count + 1 else valid_count in
        if 0 <? recycle_keys_once then
          if recycle_keys_once <=? clear_count then mret (0, clear_count, valid_count)
          else recycle_loop fuel recycle_keys_once entry_offset clear_count valid_count recycled
        else if recycled : bool then mret (0, clear_count, valid_count)
        else recycle_loop fuel recycle_keys_once entry_offset clear_count valid_count recycled
    else mret (ENOMEM, clear_count, valid_count)
  end.

Definition shm_value_allocator_recycle (target : recycle_target) (recycle_keys_once : Z) : cmd Z :=
  start_time ← ext get_current_time_us;
  modify (λ s, s <| g_current_time := Z.quot start_time 1000000 |>);;
  s ← get;
  entry_offset ← shm_list_first;
  '(result, clear_count, valid_count) ←
    recycle_loop (chain_fuel s) recycle_keys_once entry_offset 0 0 false;
  modify (λ s, s <| memory; stats; clear_ht_entry_total ::= Z.add clear_count |>);;
  when (0 <? valid_count)
    (modify (λ s, s <| memory; stats; clear_ht_entry_valid ::= Z.add valid_count |>));;
  modify (λ s, upd_recycle_stats target
    (λ r, r <| last_recycle_time := g_current_time s |> <| recycle_total ::= Z.succ |>) s);;
  when (result =? 0)
    (modify (upd_recycle_stats target (λ r, r <| recycle_success ::= Z.succ |>));;
     when (0 <? valid_count)
       (modify (upd_recycle_stats target (λ r, r <| recycle_force ::= Z.succ |>))));;
  mret result.

(** ** shm_value_allocator_try_rearrange (202-256), on [set] = [shm_ht_set] *)
Fixpoint reinsert (set : shmcache_key_info → shmcache_value_info → cmd Z)
    (entries : list shmcache_hash_entry) (result : Z) : cmd Z :=
  match entries with
  | [] => mret result
  | entry :: entries =>
    result ← set (entry_key entry) (entry_value entry);
    if negb (result =? 0) then mret result else reinsert set entries result
  end.

Definition shm_value_allocator_try_rearrange
    (set : shmcache_key_info → shmcache_value_info → cmd Z) : cmd Z :=
  s ← get;
  let u := usage (memory s) in
  let used := used_common u + used_entry u in
  let free := alloced u - used in
  let striping := vm_striping (memory s) in
  (* sums and products of [int]s *)
  if free <? to_int (to_int (SHMCACHE_MAX_KEY_SIZE + max_value_size (config s))
                     + to_int (count_current striping * discard_memory_size (va_policy (config s))))
             + vsize striping
  then mret ENOSPC
  else
    ext get_current_time_us;;
    '(result, array) ← shm_ht_to_array;
    if negb (result =? 0) then mret result
    else
      shm_ht_clear;;
      result ← reinsert set array result;
      when (negb (result =? 0)) (shm_ht_clear;; mret tt);;
      mret result.

(** ** shm_value_allocator_alloc (258-319), on [rearrange] *)
Definition shm_value_allocator_alloc (rearrange : cmd Z) (key_len value_len : Z) :
    cmd (option hptr) :=
  let size := sizeof_shm_hash_entry + MEM_ALIGN key_len + MEM_ALIGN value_len in
  entry ← shm_value_allocator_do_alloc size;
  match entry with
  | Some entry => mret (Some entry)
  | None =>
    s ← get;
    let segment := vm_segment (memory s) in
    recycle ←
      (if count_max segment <=? count_current segment then mret true
       else
         allocator_offset ← on_done Pool.shm_object_pool_first;
         if allocator_offset >? 0 then
           ai ← allocator_index_of allocator_offset;
           al ← load_allocator ai;
           s ← get;
           let ttl := avg_key_ttl (va_policy (config s)) in
           mret ((0 <? ttl) && (ttl <=? g_current_time s - last_alloc_time al))
         else mret false);
    result ←
      (if recycle : bool then
         result ← shm_value_allocator_recycle Recycle_striping (-1);
         s ← get;
         if negb (result =? 0) && negb (recycle_valid_entries (config s)) then
           let segment := vm_segment (memory s) in
           if count_current segment <? count_max segment then shmopt_create_value_segment
           else rearrange
         else mret result
       else shmopt_create_value_segment);
    if result =? 0 then shm_value_allocator_do_alloc size else mret None
  end.

(** ** shm_ht_set (shm_hashtable.c, 40-132), on [rearrange] *)
(** key, value and their sizes go into the new entry (112-119) *)
Definition fill_entry (new_entry : hptr) (key : shmcache_key_info) (value : shmcache_value_info) :
    cmd unit :=
  memcpy_to (key_ptr new_entry) (key_data key) (key_length key);;
  store_hentry new_entry (λ n, n <| key_len := key_length key |>);;
  n ← load_hentry new_entry;
  hvalue ← shm_get_value_ptr n; hvalue ← non_null hvalue;
  memcpy_to hvalue (v_data value) (v_length value);;
  store_hentry new_entry (λ n, n <| he_value; value_length := v_length value |>
                                 <| he_value; value_options := v_options value |>
                                 <| expires := v_expires value |>).

(** the new entry is filled and put behind [previous], or first in its bucket
    (111-131) *)
Definition attach_entry (index : Z) (previous : option hptr) (new_entry : hptr)
    (key : shmcache_key_info) (value : shmcache_value_info) : cmd Z :=
  n ← load_hentry new_entry;
  let new_offset := shm_get_hentry_offset n in
  fill_entry new_entry key value;;
  match previous with
  | Some previous => store_hentry previous (λ p, p <| ht_next := new_offset |>)
  | None => store_bucket index new_offset
  end;;
  modify (λ s, s <| memory; hashtable; ht_count ::= Z.succ |>
                 <| memory; usage; used_value ::= Z.add (v_length value) |>
                 <| memory; usage; used_key ::= Z.add (key_length key) |>);;
  shm_list_add_tail new_offset;;
  mret 0.

(** the new entry is linked to the rest of the chain, and the entry with the
    key is freed (103-109) *)
Definition take_over (new_entry : hptr) (found : option hptr) (old_offset : Z) : cmd unit :=
  match found with
  | Some old_entry =>
    e ← load_hentry old_entry;
    store_hentry new_entry (λ n, n <| ht_next := ht_next e |>);;
    shm_ht_free_entry old_entry old_offset false;;
    mret tt
  | None => store_hentry new_entry (λ n, n <| ht_next := 0 |>)
  end.

(** the new entry takes the place of the entry with the key, or the last place
    of the chain (87-131) *)
Definition insert_entry (new_entry : hptr) (key : shmcache_key_info) (value : shmcache_value_info) :
    cmd Z :=
  index ← HT_GET_BUCKET_INDEX key;
  old_offset ← load_bucket index;
  '(found, old_offset, previous) ← search key old_offset;
  take_over new_entry found old_offset;;
  attach_entry index previous new_entry key value.

Definition shm_ht_set_on (rearrange : cmd Z) (key : shmcache_key_info) (value : shmcache_value_info) :
    cmd Z :=
  s ← get;
  if SHMCACHE_MAX_KEY_SIZE <? key_length key then mret ENAMETOOLONG
  else if max_value_size (config s) <? v_length value then mret EINVAL
  else
    result ← (if max_key_count (config s) <=? shm_ht_count s
              then shm_value_allocator_recycle Recycle_key (recycle_key_once (config s))
              else mret 0);
    if negb (result =? 0) then mret result
    else
      s ← get;
      when (negb (g_schedule_flag s))
        (t ← ext time_NULL; modify (λ s, s <| g_current_time := t |>));;
      new_entry ← shm_value_allocator_alloc rearrange (key_length key) (v_length value);
      match new_entry with
      | None => mret ENOMEM
      | Some new_entry => insert_entry new_entry key value
      end.

(** the recursion through rearranging, at most [n] levels deep *)
Fixpoint shm_ht_set_n (n : nat) (key : shmcache_key_info) (value : shmcache_value_info) : cmd Z :=
  match n with
  | O => fault
  | S n => shm_ht_set_on (shm_value_allocator_try_rearrange (shm_ht_set_n n)) key value
  end.

(** every level re-inserts strictly fewer entries than the table holds *)
Definition shm_ht_set (key : shmcache_key_info) (value : shmcache_value_info) : cmd Z := λ s,
  shm_ht_set_n (S (Z.to_nat (shm_ht_count s))) key value s.

End Recycle.

(** ** Views *)
(** the entries as the API shows them, oldest first *)
Definition view `{E : Env} (s : shmcache_context) (es : list Z) : list shmcache_hash_entry :=
  record_of s <$> es.

Lemma view_agree `{E : Env} s s' es : (∀ x, x ∈ es → agree s s' x) → view s' es = view s es.
Proof. apply records_ext. Qed.

(** ** Recycling *)
Section recycle.
Context `{E : Env} `{L : !EnvLaws E}.

Definition valid_at (s : shmcache_context) (now o : Z) : bool :=
  HT_ENTRY_IS_VALID (expires (hdr s o)) now.
(** the entries the recycler skips *)
Definition keep (s : shmcache_context) (o : Z) : bool :=
  valid_at s (g_current_time s) o && negb (recycle_valid_entries (config s)).
Definition kept (s : shmcache_context) (l : list Z) : list Z := filter (λ o, keep s o = true) l.
Definition dropped (s : shmcache_context) (l : list Z) : list Z := filter (λ o, keep s o = false) l.
Definition dropped_valid (s : shmcache_context) (l : list Z) : list Z :=
  filter (λ o, valid_at s (g_current_time s) o = true) (dropped s l).

Lemma kept_cons s o l : kept s (o :: l) = if keep s o then o :: kept s l else kept s l.
Proof. unfold kept. rewrite filter_cons. by destruct (keep s o); case_decide. Qed.
Lemma dropped_cons s o l : dropped s (o :: l) = if keep s o then dropped s l else o :: dropped s l.
Proof. unfold dropped. rewrite filter_cons. by destruct (keep s o); case_decide. Qed.
Lemma dropped_valid_cons s o l : dropped_valid s (o :: l) =
  if keep s o then dropped_valid s l
  else if valid_at s (g_current_time s) o then o :: dropped_valid s l else dropped_valid s l.
Proof.
  unfold dropped_valid. rewrite dropped_cons. destruct (keep s o); [done|].
  rewrite filter_cons. by destruct (valid_at _ _ _); case_decide.
Qed.
Lemma kept_dropped_length s l : (length (kept s l) + length (dropped s l))%nat = length l.
Proof.
  induction l as [|o l IH]; [done|]. rewrite kept_cons, dropped_cons.
  destruct (keep s o); cbn [length]; lia.
Qed.
Lemma keep_agree s s' x : table_frame s s' → agree s s' x → keep s' x = keep s x.
Proof.
  intros (?&?&?&?&?&?&->&_) Hx. destruct (agree_fields _ _ _ Hx) as (_&He&_).
  unfold keep, valid_at. by rewrite He.
Qed.
Lemma keep_frame s s' l : table_frame s s' → (∀ x, x ∈ l → agree s s' x) →
  kept s' l = kept s l ∧ dropped s' l = dropped s l ∧ dropped_valid s' l = dropped_valid s l.
Proof.
  intros Hf Hag. assert (∀ x, x ∈ l → valid_at s' (g_current_time s') x = valid_at s (g_current_time s) x
    ∧ keep s' x = keep s x) as Hk.
  { intros x Hx. destruct (agree_fields _ _ _ (Hag x Hx)) as (_&He&_).
    unfold keep, valid_at. rewrite He. by destruct Hf as (?&?&?&?&?&?&->&_). }
  assert (dropped s' l = dropped s l) as Hd.
  { apply filter_ext_in. intros x Hx. by rewrite (proj2 (Hk x Hx)). }
  split_and!; [|done|].
  - apply filter_ext_in. intros x Hx. by rewrite (proj2 (Hk x Hx)).
  - unfold dropped_valid. rewrite Hd. apply filter_ext_in. intros x [_ Hx]%list_elem_of_filter.
    by rewrite (proj1 (Hk x Hx)).
Qed.

(** deleting an entry by its own key *)
Lemma delete_self_spec s l1 o l2 recycled :
  inv s (l1 ++ o :: l2) →
  wp (shm_ht_delete_ex (Key_info (key_of s o) (key_len (hdr s o))) recycled) (λ r s',
    table_frame s s' ∧ r.1 = 0 ∧ r.2 = recycled || empties s o (l1 ++ l2) ∧ inv s' (l1 ++ l2) ∧
    ∀ x, x ∈ l1 ++ l2 → agree s s' x) s.
Proof.
  intros Hinv. pose proof Hinv as (_&_&_&_&(He&Hnd&_)).
  assert (o ∈ l1 ++ o :: l2) as Ho by set_solver.
  eapply wp_mono; [apply (delete_ex_spec s _ _ recycled Hinv)|].
  { unfold key_ok, key_of. cbn. rewrite length_read_bytes.
    apply (proj1 (Forall_forall _ _) He) in Ho as ((?&_)&_). lia. }
  intros r s' (Htf&Hrec&[[Hr (es'&l1'&o'&l2'&Heq&Hk&->&Hinv'&Hag)]|(_&_&Hn)]).
  2: { destruct Hn. apply list_elem_of_fmap. by exists o. }
  destruct (split_by_key (key_of s) l1 o l2 l1' o' l2') as (->&->&->); [done|done|done|].
  split_and!; [done|done|by apply Hrec|done|done].
Qed.

(** the recycler may stop between [l3] and [l4], after the entries [l1] and
    [cc] entries dropped so far: it has just dropped the last entry of [l3], and
    with it as many as it should, or the last entry of a striping *)
Definition stops (s : shmcache_context) (once : Z) (l1 : list Z) (cc : Z) (l3 l4 : list Z) : Prop :=
  ∃ a o, l3 = a ++ [o] ∧ keep s o = false ∧
    if 0 <? once then once ≤ cc + Z.of_nat (length (dropped s l3))
    else empties s o (l1 ++ kept s a ++ l4) = true.
(** it stops at the first place of [l2] where it may, or reaches the end *)
Definition first_stop (s : shmcache_context) (once : Z) (l1 : list Z) (cc : Z) (l2 : list Z)
    (result : Z) (l3 l4 : list Z) : Prop :=
  result = ENOMEM ∧ l4 = [] ∧ (∀ a b, l2 = a ++ b → ¬ stops s once l1 cc a b) ∨
  result = 0 ∧ stops s once l1 cc l3 l4 ∧
    (∀ a b, l2 = a ++ b → stops s once l1 cc a b → (length l3 ≤ length a)%nat).

Lemma stops_nil s once l1 cc l4 : ¬ stops s once l1 cc [] l4.
Proof. intros (a&o&Heq&_). by destruct a. Qed.
Lemma stops_keep s once l1 cc o l3 l4 :
  keep s o = true → stops s once l1 cc (o :: l3) l4 ↔ stops s once (l1 ++ [o]) cc l3 l4.
Proof.
  intros Hk. unfold stops. split.
  - intros ([|y a]&x&Heq&Hx&H); simplify_eq/=; [congruence|]. exists a, x. split_and!; [done|done|].
    rewrite dropped_cons, kept_cons, Hk, <-?app_assoc in *. done.
  - intros (a&x&->&Hx&H). exists (o :: a), x. split_and!; [done|done|].
    rewrite dropped_cons, kept_cons, Hk, <-?app_assoc in *. done.
Qed.
Lemma stops_drop s s1 once l1 cc o l3 l4 :
  keep s o = false → table_frame s s1 → (∀ x, x ∈ l1 ++ l3 ++ l4 → agree s s1 x) → l3 ≠ [] →
  stops s once l1 cc (o :: l3) l4 ↔ stops s1 once l1 (cc + 1) l3 l4.
Proof.
  intros Hk Hf Hag Hne. unfold stops.
  assert (∀ a x, l3 = a ++ [x] → keep s1 x = keep s x ∧ dropped s1 l3 = dropped s l3 ∧
    empties s1 x (l1 ++ kept s1 a ++ l4) = empties s x (l1 ++ kept s (o :: a) ++ l4)) as Heq.
  { intros a x ->. destruct (keep_frame s s1 (a ++ [x]) Hf) as (_&Hd&_); [intros; apply Hag; set_solver|].
    destruct (keep_frame s s1 a Hf) as (Ha&_); [intros; apply Hag; set_solver|].
    split_and!; [apply keep_agree; [done|apply Hag; set_solver]|done|]. rewrite Ha, kept_cons, Hk.
    apply empties_ext. intros y Hy. unfold striping_of.
    destruct (agree_shape s s1 y) as (_&_&->&_); [|done]. apply Hag. unfold kept in Hy.
    rewrite elem_of_cons, !elem_of_app in Hy. rewrite !elem_of_app.
    destruct Hy as [->|[|[[_ ?]%list_elem_of_filter|]]]; [right; left; set_solver|tauto..]. }
  rewrite dropped_cons, Hk. cbn [length]. split.
  - intros ([|y a]&x&He&Hx&H); simplify_eq/=. destruct (Heq a x eq_refl) as (H1&H2&H3).
    exists a, x. rewrite H1, H2, H3. split_and!; [done|done|]. destruct (0 <? once); [lia|done].
  - intros (a&x&->&Hx&H). destruct (Heq a x eq_refl) as (H1&H2&H3). exists (o :: a), x.
    rewrite H1 in Hx. rewrite H2, H3 in H. split_and!; [done|done|]. destruct (0 <? once); [lia|done].
Qed.
(** one more entry in front *)
Lemma first_stop_keep s once l1 cc o l2 result l3 l4 :
  keep s o = true → first_stop s once (l1 ++ [o]) cc l2 result l3 l4 →
  first_stop s once l1 cc (o :: l2) result (o :: l3) l4.
Proof.
  intros Hk [(?&?&Hn)|(?&Hs&Hm)]; [left|right]; split_and!; try done.
  - intros [|y a] b Heq Hst; simplify_eq/=; [by apply stops_nil in Hst|].
    apply (stops_keep _ _ _ _ _ _ _ Hk) in Hst. by apply (Hn a b).
  - by apply stops_keep.
  - intros [|y a] b Heq Hst; simplify_eq/=; [by apply stops_nil in Hst|].
    apply (stops_keep _ _ _ _ _ _ _ Hk) in Hst. pose proof (Hm a b eq_refl Hst). lia.
Qed.
Lemma first_stop_drop s s1 once l1 cc o l2 result l3 l4 :
  keep s o = false → table_frame s s1 → (∀ x, x ∈ l1 ++ l2 → agree s s1 x) → l2 = l3 ++ l4 →
  ¬ stops s once l1 cc [o] l2 → first_stop s1 once l1 (cc + 1) l2 result l3 l4 →
  first_stop s once l1 cc (o :: l2) result (o :: l3) l4.
Proof.
  intros Hk Hf Hag Hl Hno Hfs.
  assert (∀ a b, l2 = a ++ b → stops s once l1 cc (o :: a) b → stops s1 once l1 (cc + 1) a b) as Hdrop.
  { intros a b Heq Hst. destruct (decide (a = [])) as [->|Hne]; [by rewrite Heq in Hno|].
    eapply stops_drop; [exact Hk|exact Hf|by rewrite <-Heq|done|done]. }
  destruct Hfs as [(?&?&Hn)|(?&Hs&Hm)]; [left|right]; split_and!; try done.
  - intros [|y a] b Heq Hst; simplify_eq/=; [by apply stops_nil in Hst|].
    by apply (Hn a b), Hdrop.
  - apply (stops_drop s s1); [done|done|by rewrite <-Hl| |done]. intros ->. by apply stops_nil in Hs.
  - intros [|y a] b Heq Hst; [by apply stops_nil in Hst|]. injection Heq as <- Heq.
    pose proof (Hm a b Heq (Hdrop a b Heq Hst)). cbn. lia.
Qed.

(** what the recycler does with the entries [l2] from its position on: it
    passes over a prefix [l3], drops the entries of it that it does not keep,
    and stops before [l4] *)
Definition recycle_loop_post (s : shmcache_context) (l1 l2 : list Z) (once cc vc : Z)
    (r : Z * Z * Z) (s' : shmcache_context) : Prop :=
  let '(result, cc', vc') := r in
  table_frame s s' ∧ ∃ l3 l4, l2 = l3 ++ l4 ∧
    inv s' (l1 ++ kept s l3 ++ l4) ∧ (∀ x, x ∈ l1 ++ kept s l3 ++ l4 → agree s s' x) ∧
    cc' = cc + Z.of_nat (length (dropped s l3)) ∧
    vc' = vc + Z.of_nat (length (dropped_valid s l3)) ∧
    (result = ENOMEM ∧ l4 = [] ∧ (0 < once → cc < once → cc' < once) ∨
     result = 0 ∧ cc < cc' ∧ (0 < once → cc < once → cc' = once)) ∧
    first_stop s once l1 cc l2 result l3 l4.

(** one more entry in front of the passed prefix *)
Lemma recycle_post_keep s l1 o l2 once cc vc r s' :
  keep s o = true → recycle_loop_post s (l1 ++ [o]) l2 once cc vc r s' →
  recycle_loop_post s l1 (o :: l2) once cc vc r s'.
Proof.
  intros Hk. destruct r as [[result cc'] vc']. intros (Hf&l3&l4&->&Hinv&Hag&Hcc&Hvc&Hr&Hfs).
  split; [done|]. exists (o :: l3), l4. rewrite kept_cons, dropped_cons, dropped_valid_cons, Hk.
  rewrite <-!app_assoc in Hinv, Hag. split_and!; [done..|]. by apply first_stop_keep.
Qed.
Lemma recycle_post_drop s l1 o l2 once cc vc r s1 s' :
  keep s o = false → table_frame s s1 → (∀ x, x ∈ l1 ++ l2 → agree s s1 x) →
  recycle_loop_post s1 l1 l2 once (cc + 1)
    (if valid_at s (g_current_time s) o then vc + 1 else vc) r s' →
  (0 < once → cc + 1 < once) → ¬ stops s once l1 cc [o] l2 →
  recycle_loop_post s l1 (o :: l2) once cc vc r s'.
Proof.
  intros Hk Hf1 Hag1. destruct r as [[result cc'] vc'].
  intros (Hf&l3&l4&->&Hinv&Hag&Hcc&Hvc&Hr&Hfs) Honce Hno.
  destruct (keep_frame s s1 l3 Hf1) as (Hk1&Hd1&Hv1); [intros x Hx; apply Hag1; set_solver|].
  rewrite Hk1, ?Hd1, ?Hv1 in *.
  split; [by eapply table_frame_trans|]. exists (o :: l3), l4.
  rewrite kept_cons, dropped_cons, dropped_valid_cons, Hk.
  split_and!; [done|done| | | | |by eapply first_stop_drop].
  - intros x Hx. eapply agree_trans; [apply Hag1|by apply Hag]. unfold kept in Hx.
    rewrite !elem_of_app in *. destruct Hx as [|[[_ ?]%list_elem_of_filter|]]; tauto.
  - rewrite Hcc. simpl. lia.
  - rewrite Hvc. destruct (valid_at _ _ _); simpl; lia.
  - destruct Hr as [(?&?&?)|(?&?&?)]; [left|right]; split_and!; auto with lia.
Qed.

Lemma recycle_loop_spec fuel s l1 l2 once cc vc recycled :
  inv s (l1 ++ l2) → (length l2 < fuel)%nat → (0 < once → cc < once) → (once ≤ 0 → recycled = false) →
  wp (recycle_loop fuel once (List.hd (-1) l2) cc vc recycled)
    (recycle_loop_post s l1 l2 once cc vc) s.
Proof.
  revert s l1 l2 cc vc recycled.
  induction fuel as [|fuel IH]; intros s l1 l2 cc vc recycled Hinv Hf Honce Hrec; [lia|].
  cbn [recycle_loop]. destruct l2 as [|o l2]; cbn [List.hd].
  { change (-1 >? 0) with false. wp_simpl. split; [apply table_frame_refl|].
    exists [], []. split_and!; [done..|cbn; lia|cbn; lia|left; split_and!; done|left].
    split_and!; [done|done|]. intros a b [-> _]%eq_sym%app_eq_nil. apply stops_nil. }
  pose proof Hinv as (Hg&_&Ha&Hd&Ht). pose proof (geometry_segs s Hg) as Hs.
  pose proof (inv_readable s _ _ Hg Ha Ht ltac:(done)) as Hrd.
  assert (readable s o) as Hro by (eapply (proj1 (Forall_forall _ _) Hrd); set_solver).
  pose proof (off_ok_pos _ _ (proj1 Hro)).
  rewrite Z.gtb_ltb, (proj2 (Z.ltb_lt _ _)) by done.
  wp_simpl. apply wp_get_hentry_ptr; [done|apply Hro|]. wp_simpl. apply wp_non_null. wp_simpl.
  apply wp_load_readable; [done..|]. wp_simpl.
  change (HT_ENTRY_IS_VALID (expires (hdr s o)) (g_current_time s)) with (valid_at s (g_current_time s) o).
  fold (keep s o). destruct (keep s o) eqn:Hk.
  { wp_simpl. eapply wp_mono; [by eapply list_next_spec|]. intros next s' [-> ->].
    eapply wp_mono; [apply (IH s (l1 ++ [o]) l2)|].
    - by rewrite <-app_assoc.
    - simpl in Hf. lia.
    - done.
    - done.
    - intros r s' Hr. by apply recycle_post_keep. }
  wp_simpl. eapply wp_mono; [by eapply list_next_spec|]. intros next s' [-> ->]. wp_simpl.
  apply wp_memcpy_from; [done|apply Hro|]. wp_simpl. fold (key_of s o).
  eapply wp_mono; [by apply delete_self_spec|]. intros [r rec] s1 (Hf1&Hr&Hre&Hinv1&Hag1).
  cbn in Hr, Hre. subst r rec. const_bool. wp_simpl.
  assert (stops s once l1 cc [o] l2 ↔
    if 0 <? once then once ≤ cc + 1 else empties s o (l1 ++ l2) = true) as Hso.
  { unfold stops. split.
    - intros ([|? []]&x&Heq&_&Hx); simplify_eq/=. rewrite dropped_cons, Hk in Hx. exact Hx.
    - intros Hx. exists [], o. rewrite dropped_cons, Hk. done. }
  assert (∀ r s', recycle_loop_post s1 l1 l2 once (cc + 1)
    (if valid_at s (g_current_time s) o then vc + 1 else vc) r s' → (0 < once → cc + 1 < once) →
    ¬ stops s once l1 cc [o] l2 → recycle_loop_post s l1 (o :: l2) once cc vc r s') as Hdrop by (intros; by eapply recycle_post_drop).
  assert (∀ s', s' = s1 → (0 < once → cc + 1 = once) → stops s once l1 cc [o] l2 → recycle_loop_post s l1 (o :: l2) once cc vc
    (0, cc + 1, if valid_at s (g_current_time s) o then vc + 1 else vc) s') as Hstop.
  { intros s' -> Hst Hs2. split; [done|]. exists [o], l2.
    rewrite kept_cons, dropped_cons, dropped_valid_cons, Hk.
    split_and!; [done|done|done|cbn; lia|destruct (valid_at _ _ _); cbn; lia| |].
    - right; split_and!; auto with lia.
    - right. split_and!; [done|done|]. intros [|y a] b _ Hab; [by apply stops_nil in Hab|cbn; lia]. }
  destruct (Z.ltb_spec 0 once) as [Ho|Ho].
  - destruct (Z.leb_spec once (cc + 1)).
    + wp_simpl. apply Hstop; [done| |by apply Hso]. specialize (Honce Ho). lia.
    + eapply wp_mono; [apply (IH s1 l1 l2); [done|simpl in Hf; lia|lia|lia]|]. intros r s' Hr.
      apply Hdrop; [done|lia|]. intros Hst%Hso. lia.
  - rewrite (Hrec Ho), orb_false_l. destruct (empties s o (l1 ++ l2)).
    + wp_simpl. apply Hstop; [done|lia|by apply Hso].
    + eapply wp_mono; [apply (IH s1 l1 l2); [done|simpl in Hf; lia|lia|done]|]. intros r s' Hr.
      apply Hdrop; [done|lia|]. by intros ?%Hso.
Qed.

(** updates of statistics, time and call count keep the invariant, and the
    entries, by conversion *)
Definition recycle_stats_of (target : recycle_target) (s : shmcache_context) : shm_recycle_stats :=
  match target with
  | Recycle_key => recycle_key_stats (stats (memory s))
  | Recycle_striping => recycle_striping_stats (stats (memory s))
  end.
Definition counted (b : bool) (n : Z) : Z := if b then n + 1 else n.

(** the outcome of one call of the recycler: [s0] is the state at the time it
    works with *)
Definition recycle_post (target : recycle_target) (once : Z) (s : shmcache_context) (es : list Z)
    (r : Z) (s' : shmcache_context) : Prop :=
  let now := Z.quot (get_current_time_us (ticks s)) 1000000 in
  let s0 := s <| g_current_time := now |> in
  same_cache s s' ∧ g_current_time s' = now ∧ vm_segment (memory s') = vm_segment (memory s) ∧
  ∃ l3 l4, es = l3 ++ l4 ∧ inv s' (kept s0 l3 ++ l4) ∧
    (∀ x, x ∈ kept s0 l3 ++ l4 → agree s s' x) ∧
    (r = ENOMEM ∧ l4 = [] ∨ r = 0 ∧ 0 < Z.of_nat (length (dropped s0 l3)) ∧
       (0 < once → Z.of_nat (length (dropped s0 l3)) = once)) ∧
    first_stop s0 once [] 0 es r l3 l4 ∧
    let cc := Z.of_nat (length (dropped s0 l3)) in
    let vc := Z.of_nat (length (dropped_valid s0 l3)) in
    clear_ht_entry_total (stats (memory s')) = clear_ht_entry_total (stats (memory s)) + cc ∧
    clear_ht_entry_valid (stats (memory s')) = clear_ht_entry_valid (stats (memory s)) + vc ∧
    recycle_stats_of target s' = Recycle_stats
      (recycle_total (recycle_stats_of target s) + 1)
      (counted (r =? 0) (recycle_success (recycle_stats_of target s)))
      (counted ((r =? 0) && (0 <? vc)) (recycle_force (recycle_stats_of target s))) now.

Lemma recycle_spec target once s es :
  inv s es →
  wp (shm_value_allocator_recycle target once) (recycle_post target once s es) s.
Proof.
  intros Hinv. unfold shm_value_allocator_recycle. wp_simpl. apply wp_ext. wp_simpl.
  set (now := Z.quot _ _). set (s0 := s <| ticks ::= S |> <| g_current_time := now |>).
  assert (inv s0 es) as Hinv0 by exact Hinv.
  eapply wp_mono; [apply (list_first_spec s0 es); apply Hinv0|]. intros first s' [-> ->]. wp_simpl.
  eapply wp_mono.
  { apply (recycle_loop_spec (chain_fuel s0) s0 [] es once 0 0 false); [done| |lia|done].
    destruct Hinv as (_&_&_&_&(_&_&_&(Hc&_))). unfold chain_fuel, shm_ht_count.
    change (hashtable (memory s0)) with (hashtable (memory s)). rewrite Hc. lia. }
  intros [[result cc] vc] s1 ((al&dg&dn&en&u&ht&Hs1&Hcap)&l3&l4&Hes&Hinv1&Hag1&Hcc&Hvc&Hr&Hfs).
  cbn [app] in *. wp_simpl.
  change (kept s0) with (kept (s <| g_current_time := now |>)) in *.
  change (dropped s0) with (dropped (s <| g_current_time := now |>)) in *.
  change (dropped_valid s0) with (dropped_valid (s <| g_current_time := now |>)) in *.
  set (sn := s <| g_current_time := now |>) in *.
  enough (∀ s2, inv s2 (kept sn l3 ++ l4) →
    (∀ x, x ∈ kept sn l3 ++ l4 → agree s1 s2 x) → same_cache s1 s2 →
    g_current_time s2 = now → vm_segment (memory s2) = vm_segment (memory s) →
    clear_ht_entry_total (stats (memory s2)) = clear_ht_entry_total (stats (memory s)) + cc →
    clear_ht_entry_valid (stats (memory s2)) = clear_ht_entry_valid (stats (memory s)) + vc →
    recycle_stats_of target s2 = Recycle_stats
      (recycle_total (recycle_stats_of target s) + 1)
      (counted (result =? 0) (recycle_success (recycle_stats_of target s)))
      (counted ((result =? 0) && (0 <? vc)) (recycle_force (recycle_stats_of target s))) now →
    recycle_post target once s es result s2) as Hfin.
  { assert (stats (memory s1) = stats (memory s)) as Hst1 by by subst s1.
    assert (vm_segment (memory s1) = vm_segment (memory s)) as Hvm1 by by subst s1.
    assert (g_current_time s1 = now) as Hnow1 by by subst s1.
    assert (Z.add cc (clear_ht_entry_total (stats (memory s)))
            = clear_ht_entry_total (stats (memory s)) + cc) as Hcc' by lia.
    assert (vc ≤ 0 → clear_ht_entry_valid (stats (memory s))
            = clear_ht_entry_valid (stats (memory s)) + vc) as Hvc' by lia.
    assert (Z.add vc (clear_ht_entry_valid (stats (memory s)))
            = clear_ht_entry_valid (stats (memory s)) + vc) as Hvc'' by lia.
    destruct (Z.ltb_spec 0 vc) as [Hv|Hv]; wp_simpl; destruct (Z.eqb_spec result 0) as [Hres|Hres];
      wp_simpl; destruct target; (apply Hfin; [exact Hinv1|done..| | |]); cbn; rewrite ?Hst1, ?Hnow1;
      try done; auto. }
  intros s2 H2 Hag2 Hsc Hnow Hvm Hct Hcv Hst. cbv zeta. fold now sn.
  split; [etrans; [|exact Hsc]; by subst s1|]. do 2 (split; [done|]). exists l3, l4.
  split; [done|]. split; [done|].
  split; [intros x Hx; eapply agree_trans; [by apply (Hag1 x)|by apply Hag2]|].
  split; [destruct Hr as [(?&?&_)|(?&?&?)]; [by left|right; split; [done|split; [|]]]|].
  { apply Z.lt_le_trans with cc; [done|]. by rewrite Hcc. }
  { intros Ho. transitivity cc; [by rewrite Hcc|auto]. }
  split; [exact Hfs|].
  rewrite Hct, Hcv, Hst, Hcc, Hvc, !Z.add_0_l. done.
Qed.
End recycle.

(** ** Allocating an entry *)
Section alloc.
Context `{E : Env} `{L : !EnvLaws E}.

Lemma alloc_post_none s es size s' :
  inv s es → alloc_post s es size None s' →
  inv s' es ∧ same_cache s s' ∧ (∀ x, agree s s' x) ∧ g_current_time s' = g_current_time s ∧
  vm_segment (memory s') = vm_segment (memory s) ∧ extends s es s' es.
Proof.
  intros (Hg&Hp&Ha&Hd&Ht) (al&dg&dn&en&ue&->&Hg'&Hp'&->&Ha'). split_and!; try done.
  by apply extends_same.
Qed.

Lemma alloc_post_some s es size p s' :
  inv s es → alloc_post s es size (Some p) s' →
  same_cache s s' ∧ ((∀ x, x ∈ es → agree s s' x) ∧ extends s es s' es) ∧
  ∃ o, hentry_addr o = p ∧ o ∉ es ∧ inv_with s' o es ∧ mem_size (mem_of s' o) = size.
Proof.
  intros (Hg&Hp&Ha&Hd&Ht) (al&dg&dn&en&ue&Hs'&Hg'&Hp'&Hen&o&Ho&Hno&Ha'&Hsz).
  pose proof (inv_off_ok s es es Hg Ha ltac:(done)) as Hoff. rewrite Forall_forall in Hoff.
  assert (off_ok s o) as Hoo.
  { destruct (alloc_inv_place s' (o :: es) o Hg' Ha' ltac:(left)) as (Hok&_). by subst s'. }
  assert (∀ x, x ∈ es → hdr s' x = hdr s x) as Hh.
  { intros x Hx. apply (mem_of_other s s' x p).
    - intros q Hq. subst s'. by apply Hen.
    - rewrite <-Ho. apply (off_ok_addr_ne s); [by apply Hoff|done|by intros ->]. }
  assert (∀ x, x ∈ es → agree s s' x) as Hag.
  { intros x Hx. apply agree_hdr; [by subst s'|]. by rewrite Hh. }
  split; [by subst s'|]. split.
  { split; [exact Hag|]. apply extends_same; [by subst s'..|]. intros x Hx. unfold hnext. rewrite Hh by done.
    split; [done|]. by destruct (Hag x Hx) as (_&?&_). }
  exists o. split_and!; [done|done| |done].
  split_and!; [done|done|done| |].
  - eapply (dll_ext s); [..|exact Hd]; try by subst s'. intros x Hx. by rewrite Hh.
  - eapply (table_ext s); [..|exact Ht]; try by subst s'; try done. intros x Hx.
    unfold hnext. by rewrite Hh.
Qed.

(** the entries that are left are some of the old ones, in the same order *)
Definition shrunk (s : shmcache_context) (es : list Z) (s' : shmcache_context) (es' : list Z) : Prop :=
  same_cache s s' ∧ view s' es' `sublist_of` view s es.
Lemma shrunk_refl s es : shrunk s es s es.
Proof. done. Qed.
Lemma shrunk_trans s1 es1 s2 es2 s3 es3 :
  shrunk s1 es1 s2 es2 → shrunk s2 es2 s3 es3 → shrunk s1 es1 s3 es3.
Proof. intros [? ?] [? ?]. split; by etrans. Qed.
Lemma shrunk_agree s es s' es' :
  same_cache s s' → es' `sublist_of` es → (∀ x, x ∈ es' → agree s s' x) → shrunk s es s' es'.
Proof.
  intros Hs Hl Hag. split; [done|]. rewrite (view_agree s s') by done. by apply fmap_sublist.
Qed.
Lemma shrunk_length s es s' es' : shrunk s es s' es' → (length es' ≤ length es)%nat.
Proof. intros [_ Hl%sublist_length]. unfold view in Hl. by rewrite !length_fmap in Hl. Qed.

Lemma recycle_shrunk target once s es r s' :
  recycle_post target once s es r s' → ∃ es', inv s' es' ∧ shrunk s es s' es' ∧
    (r = 0 ∧ (length es' < length es)%nat ∨ r = ENOMEM) ∧
    vm_segment (memory s') = vm_segment (memory s).
Proof.
  intros (Hsc&_&Hvm&l3&l4&->&Hinv&Hag&Hr&_). eexists. split; [exact Hinv|].
  split; [|split; [destruct Hr as [[? _]|(?&Hd&_)]; [by right|left]|done]].
  - apply shrunk_agree; [done| |done]. apply sublist_app; [|done]. apply sublist_filter.
  - split; [done|]. rewrite !length_app. pose proof (kept_dropped_length (s <| g_current_time := Z.quot (get_current_time_us (ticks s)) 1000000 |>) l3). lia.
Qed.

(** the outcome of an allocation *)
Definition alloc_result (s : shmcache_context) (es : list Z) (size : Z) (r : option hptr)
    (s' : shmcache_context) : Prop := ∃ es',
  shrunk s es s' es' ∧
  match r with
  | None => inv s' es'
  | Some p => ∃ o, hentry_addr o = p ∧ o ∉ es' ∧ inv_with s' o es' ∧ mem_size (mem_of s' o) = size
  end.

Lemma do_alloc_result s es s1 es1 size :
  shrunk s es s1 es1 → inv s1 es1 → sizeof_shm_hash_entry ≤ size →
  wp (shm_value_allocator_do_alloc size) (alloc_result s es size) s1.
Proof.
  intros Hsh Hinv Hsz. pose proof Hinv as (Hg&Hp&Ha&_&_).
  eapply wp_mono; [by apply do_alloc_spec|]. intros [p|] s2 [Hpost _].
  - destruct (alloc_post_some _ _ _ _ _ Hinv Hpost) as (Hsc&[Hag _]&Ho). exists es1. split; [|done].
    eapply shrunk_trans; [done|]. by apply shrunk_agree.
  - destruct (alloc_post_none _ _ _ _ Hinv Hpost) as (Hinv2&Hsc&Hag&_). exists es1. split; [|done].
    eapply shrunk_trans; [done|]. apply shrunk_agree; auto.
Qed.

Lemma grow_shrunk s es r s' : grow_post s es r s' → inv s' es ∧ shrunk s es s' es.
Proof. intros (?&?&?&_). split; [done|]. apply shrunk_agree; auto. Qed.

Lemma inv_done_index s es i : inv s es → inv (s <| done_pool := (done_pool s) <| index := i |> |>) es.
Proof.
  intros (Hg&(Hd&Hn&Hf)&Ha&Hdl&Ht). split_and!; [done| |done|done|done].
  split_and!; [exact Hd|by apply queue_ok_index|exact Hf].
Qed.

(** lines 273-288: the decision to recycle only looks at the state *)
Lemma alloc_decide_spec s es (Q : bool → _ → Prop) :
  inv s es →
  (∀ b s', inv s' es → shrunk s es s' es → vm_segment (memory s') = vm_segment (memory s) →
     (count_current (vm_segment (memory s)) < count_max (vm_segment (memory s)) →
      avg_key_ttl (va_policy (config s)) ≤ 0 → b = false ∧ (∀ x, agree s s' x) ∧ extends s es s' es) →
     Q b s') →
  wp (if count_max (vm_segment (memory s)) <=? count_current (vm_segment (memory s)) then mret true
      else
        allocator_offset ← on_done Pool.shm_object_pool_first;
        if allocator_offset >? 0 then
          ai ← allocator_index_of allocator_offset;
          al ← load_allocator ai;
          s ← get;
          let ttl := avg_key_ttl (va_policy (config s)) in
          mret ((0 <? ttl) && (ttl <=? g_current_time s - last_alloc_time al))
        else mret false) Q s.
Proof.
  intros Hinv HQ. pose proof Hinv as (Hg&(_&(Hwf&_&_&Hm)&_)&(_&_&Ha&_)&_).
  destruct (Z.leb_spec (count_max (vm_segment (memory s))) (count_current (vm_segment (memory s)))).
  { wp_simpl. apply HQ; [done..|lia]. }
  wp_simpl. apply wp_on_done.
  eapply wp_mono; [by apply Pool.first_spec|]. intros x dn [-> ->].
  set (s1 := s <| done_pool := _ |>).
  assert (inv s1 es) as Hinv1 by by apply inv_done_index.
  assert (shrunk s es s1 es) as Hsh by done.
  destruct (Pool.contents (done_pool s) !! 0%nat) as [x|] eqn:Hx; cbn [default id].
  2: { change (-1 >? 0) with false. wp_simpl. apply HQ; [done..|]. intros _ _. split_and!; [done|done|by apply extends_same]. }
  apply list_elem_of_lookup_2 in Hx. apply (proj1 (Forall_forall _ _) Hm) in Hx.
  destruct Hx as (i&Hi&->&a&Hz&_). pose proof (allocator_offset_pos s i Hg ltac:(lia)).
  unfold id. rewrite Z.gtb_ltb, (proj2 (Z.ltb_lt _ _)) by done. wp_simpl.
  change (allocator_offset_of s i) with (allocator_offset_of s1 i). apply wp_allocator_index_of.
  wp_simpl. eapply wp_load_allocator; [exact Hz|]. wp_simpl. apply HQ; [done..|].
  intros _ Httl. split; [|split; [done|by apply extends_same]]. cbn. by rewrite (proj2 (Z.ltb_ge _ _)) by done.
Qed.

Lemma recycling_alloc_spec rearrange s es key_len value_len :
  mapping_ok (cfg_type (config s)) → 0 ≤ key_len → 0 ≤ value_len → inv s es →
  (∀ s1 es1, inv s1 es1 → shrunk s es s1 es1 →
     wp rearrange (λ _ s2, ∃ es2, inv s2 es2 ∧ shrunk s1 es1 s2 es2) s1) →
  wp (shm_value_allocator_alloc rearrange key_len value_len)
    (alloc_result s es (entry_size key_len value_len)) s.
Proof.
  intros Hok Hk Hv Hinv Hre. unfold shm_value_allocator_alloc. fold (entry_size key_len value_len).
  assert (sizeof_shm_hash_entry ≤ entry_size key_len value_len) as Hsz.
  { unfold entry_size. pose proof (MEM_ALIGN_ge key_len). pose proof (MEM_ALIGN_ge value_len). lia. }
  wp_simpl. eapply wp_mono; [by apply (do_alloc_result s es s es)|].
  intros [p|] s1 Hres; [by wp_simpl|]. destruct Hres as (es1&Hsh1&Hinv1).
  wp_simpl. apply (alloc_decide_spec s1 es1); [done|]. intros recycle s2 Hinv2 Hsh2 Hvm2 _.
  assert (∀ s' es', shrunk s2 es1 s' es' → shrunk s es s' es') as Htr.
  { intros s' es' H. eapply shrunk_trans; [exact Hsh1|]. by eapply shrunk_trans. }
  assert (∀ s', same_cache s s' → mapping_ok (cfg_type (config s'))) as Hmap
    by (intros s' (_&->&_); done).
  wp_simpl.
  apply (wp_mono _ (λ _ s', ∃ es', inv s' es' ∧ shrunk s es s' es')).
  2: { intros r s' (es'&Hinv'&Hsh'). destruct (Z.eqb_spec r 0).
       - by eapply do_alloc_result.
       - wp_simpl. by exists es'. }
  assert (∀ s' es', inv s' es' → shrunk s es s' es' →
    wp shmopt_create_value_segment (λ _ s', ∃ es', inv s' es' ∧ shrunk s es s' es') s') as Hcreate.
  { intros s' es' Hinv' Hsh'. eapply wp_mono.
    - apply (create_value_segment_spec s' es'); [apply Hmap, Hsh'|done].
    - intros r s'' [? ?]%grow_shrunk. exists es'. split; [done|]. by eapply shrunk_trans. }
  destruct recycle; [|apply Hcreate with es1; [done|by apply Htr]].
  wp_simpl. eapply wp_mono; [by apply (recycle_spec _ _ s2 es1)|].
  intros r s3 (es3&Hinv3&Hsh3%Htr&_)%recycle_shrunk. wp_simpl.
  destruct (_ && _); wp_simpl; [|by exists es3].
  destruct (_ <? _); [by eapply Hcreate|]. eapply wp_mono; [by apply (Hre s3 es3)|].
  intros r' s4 (es4&?&?). exists es4. split; [done|]. by eapply shrunk_trans.
Qed.
End alloc.

(** ** Filling the new entry *)
Definition value_ok (value : shmcache_value_info) : Prop :=
  v_length value = Z.of_nat (length (v_data value)).

Section fill.
Context `{E : Env} `{L : !EnvLaws E}.

Definition filled_header (key : shmcache_key_info) (value : shmcache_value_info) (e : shm_hash_entry) :
    shm_hash_entry :=
  e <| key_len := key_length key |>
    <| he_value := Shm_value (v_length value) (v_options value) |>
    <| expires := v_expires value |>.

Lemma fill_entry_spec s o key value :
  segs_ok s → off_ok s o → place_ok s (hentry_addr o) (entry_size (key_length key) (v_length value)) →
  ssp_segment (mem_index (mem_of s o)) = (hentry_addr o).1 → mem_offset (mem_of s o) = (hentry_addr o).2 →
  key_ok key → value_ok value →
  wp (fill_entry (hentry_addr o) key value) (λ _ s', ∃ pl,
    s' = s <| payload := pl |>
           <| hentries := <[hentry_addr o := filled_header key value (hdr s o)]> (hentries s) |> ∧
    key_of s' o = key_data key ∧ value_of s' o = v_data value ∧
    ∀ q n, bytes_disjoint (hentry_addr o) (entry_size (key_length key) (v_length value)) q (Z.of_nat n) →
      read_bytes pl q n = read_bytes (payload s) q n) s.
Proof.
  intros Hs Ho (Hp1&Hp2&Hp3&Hp4) Hsg Hoff Hk Hv. pose proof Ho as (_&Hhd&_).
  unfold key_ok, value_ok in *. unfold entry_size, sizeof_shm_hash_entry in *.
  pose proof (MEM_ALIGN_ge (key_length key)). pose proof (MEM_ALIGN_ge (v_length value)).
  set (p := hentry_addr o) in *. unfold fill_entry. wp_simpl.
  apply wp_memcpy_to; [done| |done|].
  { unfold place_ok, key_ptr, sizeof_shm_hash_entry; cbn. lia. }
  wp_simpl. apply wp_store_hentry; [done|done|]. wp_simpl. apply wp_load_hentry; [done|done|].
  unfold hentry_at at 1. cbn. rewrite lookup_insert_eq. cbn [default]. unfold id.
  wp_simpl. apply wp_get_value_ptr; [done| |].
  { change (0 ≤ ssp_segment (mem_index (mem_of s o)) < values_count s). rewrite Hsg. done. }
  wp_simpl. apply wp_non_null. wp_simpl. cbn.
  change (he_memory (hentry_at _ _)) with (mem_of s o). rewrite Hsg, Hoff.
  apply wp_memcpy_to; [done| |done|].
  { unfold place_ok, sizeof_shm_hash_entry; cbn. lia. }
  wp_simpl. apply wp_store_hentry; [done|done|]. 
  set (vp := (p.1, p.2 + 64 + MEM_ALIGN (key_length key))).
  set (pl := write_bytes (write_bytes (payload s) (key_ptr p) (key_data key)) vp (v_data value)).
  set (s' := s <| payload := pl |> <| hentries := <[p := filled_header key value (hdr s o)]> (hentries s) |>).
  match goal with |- ∃ pl, ?t = _ ∧ _ => assert (t = s') as -> end.
  { unfold hentry_at. cbn. rewrite !lookup_insert_eq. cbn. rewrite insert_insert_eq. done. }
  exists pl. split; [done|].
  assert (hdr s' o = filled_header key value (hdr s o)) as Hh.
  { unfold hdr, hentry_at. cbn. by rewrite lookup_insert_eq. }
  split_and!.
  - unfold key_of. rewrite Hh. change (key_len (filled_header _ _ _)) with (key_length key).
    rewrite Hk, Nat2Z.id. change (payload s') with pl. unfold pl. rewrite read_write_disjoint.
    + apply read_write_same.
    + fold p. unfold bytes_disjoint, key_ptr, vp, sizeof_shm_hash_entry. cbn. right. right. lia.
  - unfold value_of. rewrite Hh. change (value_length (he_value (filled_header _ _ _))) with (v_length value).
    assert (value_ptr s' o = vp) as -> by (unfold value_ptr; by rewrite Hh).
    rewrite Hv, Nat2Z.id. apply read_write_same.
  - intros q n Hd. unfold pl. rewrite !read_write_disjoint; [done|..];
      unfold bytes_disjoint, key_ptr, vp, sizeof_shm_hash_entry in *; cbn in *; lia.
Qed.
End fill.

(** ** Inserting the new entry *)
Section insert.
Context `{E : Env} `{L : !EnvLaws E}.

(** the state before the new entry [o] is filled: the entry with its key is
    gone, the chain of its bucket is [c1 ++ c2] without it, and [o] is linked to
    [c2] *)
Definition detached (s : shmcache_context) (o : Z) (es : list Z) (b : Z) (c1 c2 : list Z)
    (s2 : shmcache_context) (es2 : list Z) : Prop :=
  table_frame s s2 ∧ geometry s2 ∧ pool_inv s2 ∧ alloc_inv s2 (o :: es2) ∧ dll s2 es2 ∧
  buckets (hashtable (memory s2)) = buckets (hashtable (memory s)) ∧
  counters_ok s2 es2 ∧ es2 ⊆ es ∧
  (∀ x, x ∈ es2 → agree s s2 x ∧ hnext s2 x = hnext s x) ∧ mem_of s2 o = mem_of s o ∧
  chain (hnext s) (hnext s2 o) c2 ∧ c1 ++ c2 ≡ₚ filter (λ x, bucket_of s (key_of s x) = b) es2 ∧
  ∀ b', b' ≠ b → filter (λ x, bucket_of s (key_of s x) = b') es2
                 ≡ₚ filter (λ x, bucket_of s (key_of s x) = b') es.

(** storing [ht_next] of the new entry *)
Lemma wp_link_new s o es v (Q : unit → _ → Prop) :
  inv_with s o es →
  (∀ s1, table_frame s s1 → geometry s1 → pool_inv s1 → alloc_inv s1 (o :: es) → dll s1 es →
     memory s1 = memory s → (∀ x, x ∈ es → hdr s1 x = hdr s x) → mem_of s1 o = mem_of s o →
     hnext s1 o = v → Q tt s1) →
  wp (store_hentry (hentry_addr o) (λ n, n <| ht_next := v |>)) Q s.
Proof.
  intros (Hg&Hp&Ha&Hd&Ht) HQ.
  destruct (alloc_inv_place s (o :: es) o Hg Ha ltac:(left)) as (Hoff&_&_).
  pose proof (inv_off_ok s (o :: es) (o :: es) Hg Ha ltac:(done)) as Hoffs. rewrite Forall_forall in Hoffs.
  apply wp_store_hentry; [by apply geometry_segs|apply Hoff|].
  set (s1 := s <| hentries := _ |>).
  assert (hdr s1 o = (hdr s o) <| ht_next := v |>) as Ho.
  { unfold hdr, hentry_at. subst s1. cbn. by rewrite lookup_insert_eq. }
  assert (∀ x, x ∈ es → hdr s1 x = hdr s x) as Hx.
  { intros x Hx. apply (mem_of_other s s1 x (hentry_addr o)).
    - intros q Hq. by apply lookup_insert_ne.
    - destruct Ha as ([Hno _]%NoDup_cons&_).
      apply (off_ok_addr_ne s); [apply Hoffs; by right|done|by intros ->]. }
  assert (mem_of s1 o = mem_of s o) as Hm by (unfold mem_of; by rewrite Ho).
  apply HQ; [| |done| | |done|done|done|unfold hnext; by rewrite Ho].
  - exists (allocators s), (doing s), (done_pool s), (hentries s1), (usage (memory s)), (hashtable (memory s)).
    split; [by destruct s as [????[]]|done].
  - done.
  - eapply alloc_inv_frame; [..|exact Ha]; try done. intros x [->|Hxe]%elem_of_cons; [done|].
    unfold mem_of. by rewrite Hx.
  - eapply dll_ext; [..|exact Hd]; try done. intros x Hxe. by rewrite Hx.
Qed.

Lemma detach_none_spec s o es b c start :
  inv_with s o es → chain (hnext s) start c →
  c ≡ₚ filter (λ x, bucket_of s (key_of s x) = b) es →
  wp (take_over (hentry_addr o) None 0) (λ _ s2, detached s o es b c [] s2 es) s.
Proof.
  intros Hinv Hc Hp. unfold take_over. apply (wp_link_new s o es); [done|].
  intros s1 Hf Hg1 Hp1 Ha1 Hd1 Hmem Hx Hm Hn. pose proof Hinv as (_&_&_&_&(_&_&_&Hcnt)).
  assert (∀ x, x ∈ es → agree s s1 x ∧ hnext s1 x = hnext s x) as Hag.
  { intros x Hxe. split; [|unfold hnext; by rewrite Hx]. apply agree_hdr; [|by rewrite Hx].
    by destruct Hf as (?&?&?&?&?&?&->&_). }
  unfold detached. rewrite app_nil_r, Hmem. split_and!; try done.
  eapply counters_ok_shape; [..|exact Hcnt]; rewrite ?Hmem; try done.
  intros x Hxe. by apply agree_shape, Hag.
Qed.

Lemma detach_found_spec s o l1 old l2 b c1 c2 start :
  inv_with s o (l1 ++ old :: l2) → chain (hnext s) start (c1 ++ old :: c2) →
  bucket_of s (key_of s old) = b →
  c1 ++ old :: c2 ≡ₚ filter (λ x, bucket_of s (key_of s x) = b) (l1 ++ old :: l2) →
  wp (take_over (hentry_addr o) (Some (hentry_addr old)) old)
    (λ _ s2, detached s o (l1 ++ old :: l2) b c1 c2 s2 (l1 ++ l2)) s.
Proof.
  intros Hinv Hc Hb Hp. pose proof Hinv as (Hg&_&Ha&_&(_&_&_&Hcnt)).
  destruct (alloc_inv_place s _ old Hg Ha) as (Hoff&_&_); [set_solver|].
  unfold take_over. wp_simpl. apply wp_load_hentry; [by apply geometry_segs|apply Hoff|]. wp_simpl.
  change (ht_next (hentry_at s (hentry_addr old))) with (hnext s old).
  apply (wp_link_new s o (l1 ++ old :: l2)); [done|].
  intros s1 Hf Hg1 Hp1 Ha1 Hd1 Hmem Hx Hm Hn. wp_simpl.
  assert (∀ x, x ∈ l1 ++ old :: l2 → agree s s1 x ∧ hnext s1 x = hnext s x) as Hag1.
  { intros x Hxe. split; [|unfold hnext; by rewrite Hx]. apply agree_hdr; [|by rewrite Hx].
    by destruct Hf as (?&?&?&?&?&?&->&_). }
  assert (o :: l1 ++ old :: l2 ≡ₚ old :: o :: l1 ++ l2) as Hperm.
  { rewrite <-Permutation_middle. apply Permutation_swap. }
  eapply wp_mono.
  { apply (free_entry_spec s1 old (o :: l1 ++ l2) l1 l2); [done|done| |done].
    by eapply alloc_inv_perm. }
  intros rec s2 (_&Hf2&Hg2&Hp2&Ha2&Hd2&Hbk2&_&Hc2&Hk2&Hv2&Hag2). wp_simpl.
  pose proof (inv_off_ok s (o :: l1 ++ old :: l2) (o :: l1 ++ old :: l2) Hg Ha ltac:(done)) as Hoffs.
  rewrite Forall_forall in Hoffs.
  assert (old ∉ o :: l1 ++ l2) as Hnold.
  { destruct Ha as (Hnd&_). rewrite Hperm in Hnd. by apply NoDup_cons in Hnd as [? _]. }
  assert (∀ x, x ∈ o :: l1 ++ l2 → agree s1 s2 x ∧ hnext s2 x = hnext s1 x) as Hag12.
  { intros x Hxe. apply Hag2, (off_ok_addr_ne s); [apply Hoffs; set_solver|done|by intros ->]. }
  assert (∀ x, x ∈ l1 ++ l2 → agree s s2 x ∧ hnext s2 x = hnext s x) as Hag.
  { intros x Hxe. destruct (Hag12 x) as [? Hn2]; [by right|].
    destruct (Hag1 x) as [? Hn1]; [set_solver|].
    split; [by eapply agree_trans|by rewrite Hn2]. }
  split_and!; [by eapply table_frame_trans|done|done|done|done|by rewrite Hbk2, Hmem| |set_solver
    |done| | | |].
  - destruct Hcnt as (Hcn&Hck&Hcv). rewrite Hmem in Hc2, Hk2, Hv2.
    unfold counters_ok. rewrite Hc2, Hk2, Hv2, Hcn, Hck, Hcv, !Hx by set_solver.
    rewrite (sum_by_ext (λ x, key_len (hdr s2 x)) (λ x, key_len (hdr s x)) (l1 ++ l2)),
      (sum_by_ext (λ x, value_length (he_value (hdr s2 x))) (λ x, value_length (he_value (hdr s x)))
         (l1 ++ l2)).
    2,3: intros x Hxe; destruct (agree_shape _ _ _ (proj1 (Hag x Hxe))) as (Hkk&Hvv&_); done.
    rewrite !sum_by_app, !length_app. unfold sum_by. cbn [foldr length]. lia.
  - destruct (Hag12 o) as [Ho _]; [by left|]. apply agree_fields in Ho as (_&_&_&->). done.
  - destruct (Hag12 o) as [_ ->]; [by left|]. rewrite Hn. by apply chain_app in Hc.
  - apply (Permutation_cons_inv (a := old)). rewrite Permutation_middle, Hp.
    rewrite filter_middle, decide_True by done. by rewrite filter_app, Permutation_middle.
  - intros b' Hne. by rewrite filter_middle, decide_False by congruence.
Qed.

Definition new_record (key : shmcache_key_info) (value : shmcache_value_info) : shmcache_hash_entry :=
  Hash_entry (Key_info (key_data key) (key_length key))
    (Value_info (v_data value) (v_length value) (v_options value) (v_expires value)).

Lemma placed_offset s o : placed s o → shm_get_hentry_offset (hdr s o) = o.
Proof.
  intros (Ho&Hs&Hoff&_). unfold shm_get_hentry_offset. change (he_memory (hdr s o)) with (mem_of s o).
  rewrite Hs, Hoff. by symmetry.
Qed.

(** the state once the entry is filled *)
Lemma fill_spec s2 o es2 key value :
  geometry s2 → pool_inv s2 → alloc_inv s2 (o :: es2) → dll s2 es2 →
  mem_size (mem_of s2 o) = entry_size (key_length key) (v_length value) →
  (∀ x, x ∈ es2 → entry_ok s2 x) → key_ok key → value_ok value →
  wp (fill_entry (hentry_addr o) key value) (λ _ s3, ∃ pl en,
    s3 = s2 <| payload := pl |> <| hentries := en |> ∧
    alloc_inv s3 (o :: es2) ∧ dll s3 es2 ∧ hdr s3 o = filled_header key value (hdr s2 o) ∧
    record_of s3 o = new_record key value ∧
    ∀ x, x ∈ es2 → agree s2 s3 x ∧ hnext s3 x = hnext s2 x) s2.
Proof.
  intros Hg Hp Ha Hd Hsz Hent Hk Hv.
  destruct (alloc_inv_place s2 (o :: es2) o Hg Ha ltac:(left)) as (Hoff&Hpl&_). rewrite Hsz in Hpl.
  pose proof (inv_off_ok s2 (o :: es2) (o :: es2) Hg Ha ltac:(done)) as Hoffs.
  rewrite Forall_forall in Hoffs. pose proof Ha as ([Hno _]%NoDup_cons&[(_&Hsg&Hmo&_) _]%Forall_cons&_).
  eapply wp_mono; [apply (fill_entry_spec s2 o key value)|]; try done; [by apply geometry_segs|].
  intros _ s3 (pl&Hs3&Hkey&Hval&Hpay).
  assert (hdr s3 o = filled_header key value (hdr s2 o)) as Ho3.
  { unfold hdr, hentry_at. subst s3. cbn. by rewrite lookup_insert_eq. }
  assert (∀ x, x ∈ es2 → hdr s3 x = hdr s2 x) as Hx3.
  { intros x Hx. apply (mem_of_other s2 s3 x (hentry_addr o)).
    - intros q Hq. subst s3. by apply lookup_insert_ne.
    - apply (off_ok_addr_ne s2); [apply Hoffs; by right|done|by intros ->]. }
  assert (mem_of s3 o = mem_of s2 o) as Hm3 by (unfold mem_of; by rewrite Ho3).
  exists pl. eexists. split; [exact Hs3|]. split_and!.
  - eapply alloc_inv_frame; [..|exact Ha]; try by subst s3.
    intros x [->|Hx]%elem_of_cons; [done|]. unfold mem_of. by rewrite Hx3.
  - eapply dll_ext; [..|exact Hd]; try by subst s3. intros x Hx. by rewrite Hx3.
  - exact Ho3.
  - unfold record_of. rewrite Hkey, Hval, Ho3. done.
  - intros x Hx. split; [|unfold hnext; by rewrite Hx3].
    assert (x ≠ o) as Hne by by intros ->.
    pose proof (alloc_inv_disjoint s2 _ o x Hg Ha ltac:(by left) ltac:(by right) (not_eq_sym Hne)) as Hdj.
    destruct (Hent x Hx) as (Hkl&Hvl&Hsx). rewrite Hsz, Hsx in Hdj.
    pose proof (MEM_ALIGN_ge (key_len (hdr s2 x))).
    pose proof (MEM_ALIGN_ge (value_length (he_value (hdr s2 x)))).
    unfold bytes_disjoint, entry_size in *. unfold agree, key_of, value_of, value_ptr. rewrite Hx3 by done.
    assert (payload s3 = pl) as -> by by subst s3.
    split_and!; [done| |]; apply Hpay; unfold bytes_disjoint, key_ptr, sizeof_shm_hash_entry in *; cbn; lia.
Qed.

(** the table with the new entry, from the chain of its bucket and the sums *)
Lemma table_attach s s6 o es es2 key c1 c2 start' :
  table s es → NoDup es2 → es2 ⊆ es → key_data key ∉ key_of s <$> es2 →
  config s6 = config s → ht_capacity (hashtable (memory s6)) = ht_capacity (hashtable (memory s)) →
  (∀ x, x ∈ es2 → agree s s6 x) → key_of s6 o = key_data key → entry_ok s6 o →
  buckets (hashtable (memory s6))
    = <[Z.to_nat (bucket_of s (key_data key)) := start']> (buckets (hashtable (memory s))) →
  chain (hnext s6) start' (c1 ++ o :: c2) →
  c1 ++ c2 ≡ₚ filter (λ x, bucket_of s (key_of s x) = bucket_of s (key_data key)) es2 →
  (∀ b', b' ≠ bucket_of s (key_data key) → filter (λ x, bucket_of s (key_of s x) = b') es2
                                         ≡ₚ filter (λ x, bucket_of s (key_of s x) = b') es) →
  (∀ x, x ∈ es2 → x ∉ c1 → hnext s6 x = hnext s x) →
  counters_ok s6 (es2 ++ [o]) → table s6 (es2 ++ [o]).
Proof.
  intros (Hent&Hkeys&Hbk&_) Hnd Hsub Hnew Hcf Hcap Hag Hko Heo Hbs Hch Hperm Hoth Hnx Hcnt.
  set (b := bucket_of s (key_data key)) in *.
  assert (∀ b', filter (λ x, bucket_of s6 (key_of s6 x) = b') es2
              = filter (λ x, bucket_of s (key_of s x) = b') es2) as Hfl.
  { intros b'. apply filter_ext_in. intros x Hx. by rewrite (agree_bucket_of s s6) by auto. }
  assert (bucket_of s6 (key_of s6 o) = b) as Hbo by (unfold bucket_of, b; by rewrite Hcf, Hcap, Hko).
  split_and!; [| | |done].
  - apply Forall_app. split; [|by constructor]. apply (entries_ok_ext s); [done|].
    rewrite Forall_forall in *. auto.
  - rewrite fmap_app, (keys_ext s) by done. cbn. rewrite Hko. apply NoDup_app.
    split_and!; [|by intros k Hk ->%list_elem_of_singleton|apply NoDup_singleton].
    apply NoDup_fmap_2_strong; [|done]. intros x y Hx Hy Hxy.
    eapply (finds_unique s es (key_of s y)); [done|split; auto..].
  - eapply (buckets_ok_relink s s6 es); [done|done| |exact Hbs|exact Hch| | | |exact Hbk].
    + by eapply bucket_of_range.
    + rewrite filter_app, Hfl, filter_cons_True, <-Hperm by done. cbn.
      by rewrite <-Permutation_middle, (Permutation_app_comm (c1 ++ c2)).
    + intros b' Hne. rewrite filter_app, Hfl, filter_cons_False by congruence.
      change (filter _ []) with (@nil Z). rewrite app_nil_r. by apply Hoth.
    + intros x Hx Hbx. assert (x ∈ filter (λ y, bucket_of s (key_of s y) = bucket_of s (key_of s x)) es2) as Hin.
      { rewrite Hoth by done. by apply list_elem_of_filter. }
      apply list_elem_of_filter in Hin as [_ Hin]. apply Hnx; [done|]. intros Hc1. apply Hbx.
      assert (x ∈ c1 ++ c2) as Hc by set_solver. rewrite Hperm in Hc.
      by apply list_elem_of_filter in Hc as [? _].
Qed.

(** the new entry is linked between the two parts of the chain of its bucket, and
    all other links are as before *)
Definition rechained (s s' : shmcache_context) (o : Z) (es2 : list Z) (b : Z) (c1 c2 : list Z) : Prop :=
  ∃ start', buckets (hashtable (memory s')) = <[Z.to_nat b := start']> (buckets (hashtable (memory s))) ∧
    chain (hnext s') start' (c1 ++ o :: c2) ∧ ∀ x, x ∈ es2 → x ∉ c1 → hnext s' x = hnext s x.
Lemma attach_spec s o es key value c1 c2 rest start s2 es2 :
  let b := bucket_of s (key_data key) in
  table s es → mem_size (mem_of s o) = entry_size (key_length key) (v_length value) →
  key_ok key → value_ok value → key_length key ≤ SHMCACHE_MAX_KEY_SIZE →
  znth (buckets (hashtable (memory s))) b = Some start → chain (hnext s) start (c1 ++ rest) →
  detached s o es b c1 c2 s2 es2 → key_data key ∉ key_of s <$> es2 →
  wp (attach_entry b (last_addr c1 None) (hentry_addr o) key value) (λ r s',
    (r = 0 ∧ inv s' (es2 ++ [o]) ∧ same_cache s s' ∧ (∀ x, x ∈ es2 → agree s s' x) ∧
     record_of s' o = new_record key value) ∧ rechained s s' o es2 b c1 c2) s2.
Proof.
  intros b Ht Hsz Hk Hv Hk64 Hst Hc (Hf2&Hg2&Hp2&Ha2&Hd2&Hbk2&Hcnt2&Hsub&Hag2&Hm2&Hch&Hperm&Hoth) Hnew.
  destruct (alloc_inv_place s2 (o :: es2) o Hg2 Ha2 ltac:(left)) as (Hoff&_&_).
  pose proof Ha2 as ([Hno Hnd2]%NoDup_cons&[Hpl _]%Forall_cons&_).
  pose proof (inv_off_ok s2 (o :: es2) (o :: es2) Hg2 Ha2 ltac:(done)) as Hoffs.
  rewrite Forall_forall in Hoffs. pose proof Ht as (Hent&_&Hbko&_). rewrite Forall_forall in Hent.
  assert (∀ x, x ∈ c1 ++ c2 → x ∈ es2) as Hcin.
  { intros x Hx. rewrite Hperm in Hx. by apply list_elem_of_filter in Hx as [_ ?]. }
  assert (NoDup (c1 ++ c2)) as Hndc by (rewrite Hperm; by apply NoDup_filter).
  unfold attach_entry. wp_simpl. apply wp_load_hentry; [by apply geometry_segs|apply Hoff|].
  fold (hdr s2 o). rewrite placed_offset by done. wp_simpl.
  eapply wp_mono.
  { apply (fill_spec s2 o es2 key value); try done; [by rewrite Hm2|]. intros x Hx.
    assert (Forall (entry_ok s2) es2) as Hall.
    { apply (entries_ok_ext s); [intros y Hy; by apply Hag2|]. apply Forall_forall. auto. }
    by eapply (proj1 (Forall_forall _ _)). }
  intros _ s3 (pl&en&Hs3&Ha3&Hd3&Ho3&Hr3&Hag3).
  assert (memory s3 = memory s2 ∧ geometry s3 ∧ pool_inv s3) as (Hmem3&Hg3&Hp3) by by subst s3.
  wp_simpl. eapply wp_mono.
  { apply (relink_spec s3 b start c1 o); [done| | |].
    - rewrite Hmem3, Hbk2. pose proof (bucket_of_range s es (key_data key) Hbko).
      destruct Hbko as (_&->&_). done.
    - by rewrite Hmem3, Hbk2.
    - apply Forall_forall. intros x Hx. assert (off_ok s2 x) by (apply Hoffs; right; apply Hcin; set_solver).
      by subst s3. }
  intros u s4 Hrl. cbn beta in Hrl. pose proof Hrl as (en4&st4&Hs4&Hnx4&_&_).
  destruct (relinked_invs _ _ _ _ _ _ _ _ Hrl Hg3 Hp3 Ha3 Hd3) as (Hg4&Hp4&Ha4&Hd4).
  wp_simpl. set (s5 := s4 <| memory; hashtable; ht_count ::= _ |> <| memory; usage; used_value ::= _ |>
                         <| memory; usage; used_key ::= _ |>).
  eapply wp_mono.
  { apply (list_add_tail_spec s5 es2 o); [by apply geometry_segs|done| |].
    - assert (off_ok s3 o) by by subst s3. by subst s4.
    - intros [Heq|Hin]%elem_of_cons; [|done].
      destruct Hg2 as (_&_&_&_&_&h&Hh). apply (off_ok_not_head s2 o h Hoff). rewrite <-Hh, Heq.
      subst s5 s4 s3. done. }
  intros _ s6 [Hf6 Hd6]. wp_simpl.
  assert (∀ x, hnext s6 x = hnext s4 x) as Hn6.
  { intros x. by rewrite (frame_list_hnext s5 s6 x Hf6). }
  assert (∀ x, agree s3 s6 x) as Hag36.
  { intros x. eapply agree_trans; [by eapply (relinked_agree s3 b start c1 o s4)|].
    exact (frame_list_agree s5 s6 x Hf6). }
  assert (∀ x, x ∈ es2 → agree s s6 x) as Hag6.
  { intros x Hx. eapply agree_trans; [by apply Hag2|]. eapply agree_trans; [by apply Hag3|done]. }
  assert (∀ x, off_ok s2 x → hnext s4 x = if decide (last c1 = Some x) then o else hnext s3 x) as Hnx4'.
  { intros x Hx. apply Hnx4. by subst s3. }
  assert (∀ x, x ∈ c1 → x ∈ es2) as Hc1 by (intros x Hx; apply Hcin; set_solver).
  assert (∀ x, x ∈ es2 → x ∉ c1 → hnext s6 x = hnext s x) as Hkeep.
  { intros x Hx Hxc. rewrite Hn6, Hnx4' by (apply Hoffs; by right).
    rewrite decide_False by (intros Hl; by apply Hxc, last_Some_elem_of).
    rewrite (proj2 (Hag3 x Hx)). by apply Hag2. }
  assert (hnext s6 o = hnext s2 o) as Hno6.
  { rewrite Hn6, Hnx4' by done. rewrite decide_False by (intros Hl%last_Some_elem_of; by apply Hno, Hc1).
    unfold hnext. by rewrite Ho3. }
  destruct (relinked_chain (hnext s) s3 b start c1 o s4 s6 rest (o :: c2) Hrl Hc) as (start'&Hbs&Hch6).
  { by apply NoDup_app in Hndc as (?&_). }
  { apply Forall_forall. intros x Hx. assert (off_ok s2 x) by (apply Hoffs; right; auto). by subst s3. }
  { intros x Hx. rewrite (proj2 (Hag3 x (Hc1 x Hx))). by apply Hag2, Hc1. }
  { done. }
  { split; [done|]. rewrite Hno6. eapply chain_ext; [|exact Hch]. intros x Hx. apply Hkeep.
    - apply Hcin. set_solver.
    - intros Hx1. apply NoDup_app in Hndc as (_&Hd&_). by apply (Hd x Hx1). }
  assert (memory s6 = (memory s5) <| hashtable; ht_head := ht_head (hashtable (memory s6)) |>) as Hmem6.
  { destruct Hf6 as (hd&en6&->&_). done. }
  assert (same_cache s s6) as Hsc.
  { etrans; [by apply table_frame_same_cache|]. etrans; [|apply table_frame_same_cache, frame_list_table_frame; exact Hf6].
    subst s5 s4 s3. done. }
  assert (record_of s6 o = new_record key value) as Hr6 by (by rewrite (agree_record s3)).
  assert (key_of s6 o = key_data key) as Hk6 by exact (f_equal (λ r, key_data (entry_key r)) Hr6).
  assert (key_len (hdr s6 o) = key_length key) as Hkl6 by exact (f_equal (λ r, key_length (entry_key r)) Hr6).
  assert (value_length (he_value (hdr s6 o)) = v_length value) as Hvl6
    by exact (f_equal (λ r, v_length (entry_value r)) Hr6).
  assert (buckets (hashtable (memory s6)) = <[Z.to_nat b := start']> (buckets (hashtable (memory s)))) as Hbs6.
  { rewrite Hmem6. change (buckets (hashtable (memory s4)) = <[Z.to_nat b := start']> (buckets (hashtable (memory s)))).
    by rewrite Hbs, Hmem3, Hbk2. }
  split; [|by exists start'].
  split; [done|]. split; [|done]. split; [by eapply frame_list_geometry|].
  split; [by eapply frame_list_pool_inv|]. split; [|split; [done|]].
  { eapply alloc_inv_perm; [apply Permutation_cons_append|]. by apply (frame_list_alloc_inv s5). }
  eapply (table_attach s s6 o es es2 key c1 c2 start'); try done.
  - apply Hsc.
  - apply Hsc.
  - unfold entry_ok. rewrite Hkl6, Hvl6, Hk, Hv in *.
    destruct (agree_fields _ _ _ (Hag36 o)) as (_&_&_&Hm6).
    assert (mem_of s3 o = mem_of s2 o) as Hm3 by (unfold mem_of; by rewrite Ho3).
    rewrite Hm6, Hm3, Hm2, Hsz. split_and!; [lia|done|lia|done].
  - destruct Hcnt2 as (Hcn&Hck&Hcv).
    assert (ht_count (hashtable (memory s6)) = Z.succ (ht_count (hashtable (memory s2))) ∧
            used_key (usage (memory s6)) = key_length key + used_key (usage (memory s2)) ∧
            used_value (usage (memory s6)) = v_length value + used_value (usage (memory s2))) as (H1&H2&H3).
    { rewrite Hmem6. subst s5 s4 s3. done. }
    assert (∀ x, x ∈ es2 → same_shape s2 s6 x) as Hsh.
    { intros x Hx. apply agree_shape. eapply agree_trans; [by apply Hag3|done]. }
    unfold counters_ok. rewrite H1, H2, H3, Hcn, Hck, Hcv, length_app, !sum_by_app.
    rewrite (sum_by_ext (λ x, key_len (hdr s6 x)) (λ x, key_len (hdr s2 x)) es2) by (intros x Hx; by apply Hsh).
    rewrite (sum_by_ext (λ x, value_length (he_value (hdr s6 x)))
      (λ x, value_length (he_value (hdr s2 x))) es2) by (intros x Hx; by apply Hsh).
    unfold sum_by. cbn [foldr length]. rewrite Hkl6, Hvl6. lia.
Qed.
End insert.

(** ** shm_ht_set *)
Definition has_key (key : list ascii) (r : shmcache_hash_entry) : Prop := key_data (entry_key r) = key.
#[export] Instance has_key_dec key r : Decision (has_key key r).
Proof. unfold has_key. apply _. Defined.
Definition without (key : list ascii) (l : list shmcache_hash_entry) : list shmcache_hash_entry :=
  filter (λ r, ¬ has_key key r) l.

Lemma without_app key l1 l2 : without key (l1 ++ l2) = without key l1 ++ without key l2.
Proof. apply filter_app. Qed.
Lemma without_all key l : (∀ r, r ∈ l → ¬ has_key key r) → without key l = l.
Proof. apply filter_all. Qed.
Lemma without_sublist key l1 l2 : l1 `sublist_of` l2 → without key l1 `sublist_of` without key l2.
Proof.
  induction 1 as [|x l1 l2 _ IH|x l1 l2 _ IH]; [done|..]; unfold without in *; rewrite !filter_cons.
  - case_decide; by try constructor.
  - case_decide; by try constructor.
Qed.

Section set.
Context `{E : Env} `{L : !EnvLaws E}.

Lemma view_without s es key : key ∉ key_of s <$> es → without key (view s es) = view s es.
Proof.
  intros Hk. apply without_all. intros r (o&->&Ho)%list_elem_of_fmap Hh. apply Hk.
  apply list_elem_of_fmap. exists o. split; [by symmetry|done].
Qed.
Lemma view_without_middle s l1 o l2 :
  NoDup (key_of s <$> l1 ++ o :: l2) →
  without (key_of s o) (view s (l1 ++ o :: l2)) = view s (l1 ++ l2).
Proof.
  intros Hnd. unfold view. rewrite !fmap_app, fmap_cons. rewrite !fmap_app, fmap_cons in Hnd.
  rewrite <-Permutation_middle, <-fmap_app in Hnd. apply NoDup_cons in Hnd as [Hno _].
  rewrite without_app. change (record_of s o :: _) with ([record_of s o] ++ (record_of s <$> l2)).
  rewrite without_app. change (without _ [_]) with (filter (λ r, ¬ has_key (key_of s o) r) [record_of s o]).
  rewrite (filter_cons_False _ (record_of s o)) by (by intros H; apply H).
  change (filter _ []) with (@nil shmcache_hash_entry). cbn [app].
  rewrite <-without_app, <-!fmap_app. by apply view_without.
Qed.

(** an entry with a new key is linked to the end of its chain *)
Lemma rechained_extends s s' o es key value c :
  inv_with s o es → inv s' (es ++ [o]) → same_cache s s' → (∀ x, x ∈ es → agree s s' x) →
  record_of s' o = new_record key value →
  bucket_chain s es (bucket_of s (key_data key)) c →
  rechained s s' o es (bucket_of s (key_data key)) c [] → extends s es s' (es ++ [o]).
Proof.
  intros Hinv Hinv' Hsc Hag Hr (start&Hst&Hc&Hp) (start'&Hbs&Hch&Hkeep).
  set (b := bucket_of s (key_data key)) in *.
  assert (config s' = config s ∧ ht_capacity (hashtable (memory s')) = ht_capacity (hashtable (memory s)))
    as [Hcf Hcap] by (split; apply Hsc).
  assert (∀ x, x ∈ es → key_of s' x = key_of s x) as Hkx by (intros x Hx; by destruct (Hag x Hx) as (_&?&_)).
  assert (∀ b', filter (λ x, bucket_of s' (key_of s' x) = b') es
              = filter (λ x, bucket_of s (key_of s x) = b') es) as Hfl.
  { intros b'. apply filter_ext_in. intros x Hx. by rewrite (agree_bucket_of s s') by auto. }
  assert (bucket_of s' (key_of s' o) = b) as Hbo.
  { assert (key_of s' o = key_data key) as -> by exact (f_equal (λ r, key_data (entry_key r)) Hr).
    unfold bucket_of, b. by rewrite Hcf, Hcap. }
  split_and!; [done|done|intros x Hx; split; [set_solver|auto]|].
  pose proof Hinv as (Hg&_&Ha&_&Ht). pose proof Ht as (_&_&Hbk&_).
  pose proof (inv_off_ok s (o :: es) es Hg Ha ltac:(set_solver)) as Hoffs. rewrite Forall_forall in Hoffs.
  assert (∀ b' c', c' ≡ₚ filter (λ x, bucket_of s (key_of s x) = b') es → 0 ∉ c') as Hpos.
  { intros b' c' -> [_ H0]%list_elem_of_filter. pose proof (off_ok_pos s 0 (Hoffs 0 H0)). lia. }
  pose proof (bucket_of_range s es (key_data key) Hbk) as Hb. destruct Hbk as (_&Hlen&_). fold b in Hb.
  intros b' c' (st&Hst'&Hc'&Hp'). destruct (decide (b' = b)) as [->|Hne].
  - rewrite Hst in Hst'. injection Hst' as <-.
    rewrite (chain_unique _ _ _ _ Hc' Hc) by (by eapply Hpos).
    exists [o], start'. rewrite Hbs, znth_insert, (proj2 (Z.eqb_eq b b)) by lia.
    split_and!; [done|done|]. rewrite filter_app, Hfl, filter_cons_True by done. by rewrite <-Hp.
  - pose proof (proj1 (znth_Some _ _ _) Hst') as [Hb' _].
    exists [], st. rewrite app_nil_r, Hbs, znth_insert, (proj2 (Z.eqb_neq b b')) by (done || lia).
    split_and!; [done| |].
    + eapply chain_ext; [|exact Hc']. intros x Hx. rewrite Hp' in Hx.
      apply list_elem_of_filter in Hx as [Hxb Hx]. apply Hkeep; [done|]. intros Hxc. rewrite Hp in Hxc.
      apply list_elem_of_filter in Hxc as [Hxb' _]. congruence.
    + rewrite filter_app, Hfl, filter_cons_False by congruence. change (filter _ []) with (@nil Z).
      by rewrite app_nil_r.
Qed.

(** the new entry is last, in place of the entry with its key *)
Lemma insert_entry_spec s o es key value :
  inv_with s o es → o ∉ es → mem_size (mem_of s o) = entry_size (key_length key) (v_length value) →
  key_ok key → value_ok value → key_length key ≤ SHMCACHE_MAX_KEY_SIZE →
  wp (insert_entry (hentry_addr o) key value) (λ r s', r = 0 ∧ ∃ es', inv s' es' ∧ same_cache s s' ∧
    view s' es' = without (key_data key) (view s es) ++ [new_record key value] ∧
    (key_data key ∉ key_of s <$> es → extends s es s' es')) s.
Proof.
  intros Hinv Hno Hsz Hk Hv Hk64. pose proof Hinv as (Hg&Hp&Ha&Hd&Ht). pose proof Ht as (_&Hkeys&Hbk&_).
  pose proof (inv_readable s (o :: es) es Hg Ha Ht ltac:(set_solver)) as Hrd.
  unfold insert_entry. wp_simpl. eapply wp_bucket_index; [done..|]. wp_simpl.
  eapply wp_load_bucket; [done|by eapply bucket_of_range|]. intros start c Hst Hc Hpc.
  wp_simpl. eapply wp_mono; [by eapply search_spec|]. intros r s0 [-> Hres].
  destruct Hres as [c1 old c2 -> Hko Hc1|Hnone]; wp_simpl.
  - assert (old ∈ es) as Hold.
    { assert (old ∈ c1 ++ old :: c2) as Hin by set_solver. rewrite Hpc in Hin.
      by apply list_elem_of_filter in Hin as [_ ?]. }
    apply list_elem_of_split in Hold as (l1&l2&->).
    pose proof (detach_found_spec s o l1 old l2 (bucket_of s (key_data key)) c1 c2 start Hinv Hc) as Hdt.
    rewrite Hko in Hdt. specialize (Hdt eq_refl Hpc).
    eapply wp_mono; [exact Hdt|]. intros u s2 Hdet. cbn beta in Hdet.
    assert (key_data key ∉ key_of s <$> l1 ++ l2) as Hnew.
    { rewrite <-Hko. rewrite fmap_app, fmap_cons, <-Permutation_middle, <-fmap_app in Hkeys.
      by apply NoDup_cons in Hkeys as [? _]. }
    eapply wp_mono; [by eapply (attach_spec s o (l1 ++ old :: l2))|].
    intros r s' [(->&Hinv'&Hsc&Hag&Hr) _]. split; [done|]. exists ((l1 ++ l2) ++ [o]).
    split_and!; [done|done| |intros Hnk; destruct Hnk; rewrite <-Hko; apply list_elem_of_fmap_2; set_solver].
    unfold view at 1. rewrite fmap_app, (records_ext s s') by done.
    cbn. rewrite Hr. f_equal. rewrite <-Hko. symmetry. by apply view_without_middle.
  - pose proof (search_none_key s es (key_data key) c Hnone Hpc) as Hnew.
    eapply wp_mono; [by eapply (detach_none_spec s o es _ c)|]. intros u s2 Hdet. cbn beta in Hdet.
    eapply wp_mono; [eapply (attach_spec s o es key value c [] []); try done; by rewrite app_nil_r|].
    intros r s' [(->&Hinv'&Hsc&Hag&Hr) Hre]. split; [done|]. exists (es ++ [o]).
    split_and!; [done|done| |intros _; eapply (rechained_extends s s' o es key value c); try done; by eexists].
    unfold view at 1. rewrite fmap_app, (records_ext s s') by done.
    cbn. rewrite Hr. f_equal. symmetry. by apply view_without.
Qed.

(** how storing fails: a key longer than the maximum, or a value longer than the
    configured [limit], changes nothing; a lack of memory may have cost some
    records *)
Definition set_failure (limit : Z) (key : shmcache_key_info) (value : shmcache_value_info)
    (l : list shmcache_hash_entry) (r : Z) (l' : list shmcache_hash_entry) : Prop :=
  r = ENAMETOOLONG ∧ SHMCACHE_MAX_KEY_SIZE < key_length key ∧ l' = l ∨
  r = EINVAL ∧ limit < v_length value ∧ l' = l ∨
  r = ENOMEM ∧ l' `sublist_of` l.
Lemma set_failure_sublist limit key value l r l' :
  set_failure limit key value l r l' → l' `sublist_of` l.
Proof. by intros [(_&_&->)|[(_&_&->)|(_&?)]]. Qed.

(** the contract of [shm_ht_set]: on success the entry is last, and the others
    are some of the old ones in their order; on failure nothing is added *)
Definition set_post (key : shmcache_key_info) (value : shmcache_value_info)
    (s : shmcache_context) (es : list Z) (r : Z) (s' : shmcache_context) : Prop :=
  ∃ es', inv s' es' ∧ same_cache s s' ∧
  (Z.of_nat (length es) ≤ max_key_count (config s) →
   Z.of_nat (length es') ≤ max_key_count (config s)) ∧
  if decide (r = 0) then
    ∃ l, l `sublist_of` without (key_data key) (view s es) ∧ view s' es' = l ++ [new_record key value]
  else set_failure (max_value_size (config s)) key value (view s es) r (view s' es').

Lemma set_on_spec rearrange key value s es :
  mapping_ok (cfg_type (config s)) → inv s es → key_ok key → value_ok value →
  (∀ s1 es1, inv s1 es1 → shrunk s es s1 es1 →
     wp rearrange (λ _ s2, ∃ es2, inv s2 es2 ∧ shrunk s1 es1 s2 es2) s1) →
  wp (shm_ht_set_on rearrange key value) (set_post key value s es) s.
Proof.
  intros Hok Hinv Hk Hv Hre. unfold shm_ht_set_on. wp_simpl.
  assert (∀ r s' es', inv s' es' → shrunk s es s' es' →
    set_failure (max_value_size (config s)) key value (view s es) r (view s' es') → r ≠ 0 →
    set_post key value s es r s') as Hrej.
  { intros r s' es' ? Hsh Hf Hr. exists es'. rewrite decide_False by done.
    pose proof (shrunk_length _ _ _ _ Hsh). destruct Hsh. split_and!; [done|done|lia|done]. }
  assert (∀ s' es', inv s' es' → shrunk s es s' es' → set_post key value s es ENOMEM s') as Hfail.
  { intros s' es' ? Hsh. apply Hrej with es'; [done|done| |done]. right; right. by destruct Hsh. }
  destruct (Z.ltb_spec SHMCACHE_MAX_KEY_SIZE (key_length key)) as [|Hk64].
  { wp_simpl. apply Hrej with es; [done|done| |done]. by left. }
  destruct (Z.ltb_spec (max_value_size (config s)) (v_length value)).
  { wp_simpl. apply Hrej with es; [done|done| |done]. by right; left. }
  wp_simpl.
  assert (ht_count (hashtable (memory s)) = Z.of_nat (length es)) as Hcount
    by (by destruct Hinv as (_&_&_&_&(_&_&_&(?&_)))).
  apply (wp_mono _ (λ r s', ∃ es', inv s' es' ∧ shrunk s es s' es' ∧ (r ≠ 0 → r = ENOMEM) ∧
    (r = 0 → Z.of_nat (length es) ≤ max_key_count (config s) →
     Z.of_nat (length es') < max_key_count (config s)))).
  { unfold shm_ht_count. destruct (Z.leb_spec (max_key_count (config s)) (ht_count (hashtable (memory s)))) as [Hle|Hlt].
    - eapply wp_mono; [by apply recycle_spec|].
      intros r s' (es'&?&?&Hr&_)%recycle_shrunk. exists es'.
      split_and!; [done|done|by destruct Hr as [[-> _]| ->]|]. intros -> Hm. destruct Hr as [[_ ?]|?]; [lia|done].
    - wp_simpl. exists es. split_and!; [done|done|done|]. lia. }
  intros r s1 (es1&Hinv1&Hsh1&Hr1&Hcap1). destruct (Z.eqb_spec r 0) as [->|Hr]; cbn [negb]; wp_simpl.
  2: { rewrite (Hr1 Hr). by apply Hfail with es1. }
  specialize (Hcap1 eq_refl).
  assert (∀ s2, inv s2 es1 → shrunk s es s2 es1 →
    wp (new_entry ← shm_value_allocator_alloc rearrange (key_length key) (v_length value);
        match new_entry with
        | Some new_entry => insert_entry new_entry key value
        | None => mret ENOMEM
        end) (set_post key value s es) s2) as Hrest.
  { intros s2 Hinv2 Hsh2. wp_simpl. unfold key_ok, value_ok in *.
    assert (mapping_ok (cfg_type (config s2))) as Hok2 by (destruct Hsh2 as [(_&->&_) _]; done).
    eapply wp_mono.
    { apply (recycling_alloc_spec rearrange s2 es1); [done|lia|lia|done|]. intros s3 es3 ? ?. apply Hre; [done|].
      by eapply shrunk_trans. }
    intros [p|] s3 (es3&Hsh3&Hres).
    - destruct Hres as (o&<-&Hno&Hinv3&Hsz).
      eapply wp_mono; [by apply (insert_entry_spec s3 o es3)|].
      intros r s4 (->&es4&Hinv4&Hsc4&Hview&_). exists es4.
      destruct (shrunk_trans _ _ _ _ _ _ Hsh2 Hsh3) as [Hsc Hsub]. split_and!; [done|by etrans| |].
      { intros Hm. specialize (Hcap1 Hm). pose proof (shrunk_length _ _ _ _ Hsh3).
        apply (f_equal length) in Hview. rewrite length_app in Hview. unfold view, without in Hview.
        rewrite length_fmap in Hview. cbn [length] in Hview.
        pose proof (length_filter (λ r, ¬ has_key (key_data key) r) (record_of s3 <$> es3)) as Hlf.
        rewrite length_fmap in Hlf. lia. }
      rewrite decide_True by done. eexists. split; [|exact Hview]. by apply without_sublist.
    - wp_simpl. apply Hfail with es3; [done|]. by eapply shrunk_trans. }
  destruct (g_schedule_flag s1); cbn [negb]; wp_simpl.
  - exact (proj1 (wp_bind _ _ _ _) (Hrest s1 Hinv1 Hsh1)).
  - apply wp_ext. wp_simpl.
    match goal with |- wp _ _ ?t => exact (proj1 (wp_bind _ _ _ _) (Hrest t Hinv1 Hsh1)) end.
Qed.

(** ** Storing where nothing has to be recycled *)
(** a queued striping has room, or a segment may be added before expired
    entries are looked for *)
Definition lossless (s : shmcache_context) (size : Z) : Prop :=
  has_room s size ∨
  count_current (vm_segment (memory s)) < count_max (vm_segment (memory s)) ∧
  avg_key_ttl (va_policy (config s)) ≤ 0 ∧ size ≤ vsize (vm_striping (memory s)).
(** the allocation failed because no segment could be added *)
Definition not_grown (s : shmcache_context) (size : Z) (s' : shmcache_context) : Prop :=
  ¬ has_room s size ∧ count_current (vm_segment (memory s')) = count_current (vm_segment (memory s)).

Lemma alloc_lossless_spec rearrange s es key_len value_len :
  mapping_ok (cfg_type (config s)) → 0 ≤ key_len → 0 ≤ value_len → inv s es →
  lossless s (entry_size key_len value_len) →
  wp (shm_value_allocator_alloc rearrange key_len value_len)
    (λ r s', ((∀ x, x ∈ es → agree s s' x) ∧ extends s es s' es) ∧
    match r with
    | Some p => ∃ o, p = hentry_addr o ∧ o ∉ es ∧ inv_with s' o es ∧
        mem_size (mem_of s' o) = entry_size key_len value_len
    | None => inv s' es ∧ not_grown s (entry_size key_len value_len) s'
    end) s.
Proof.
  intros Hok Hk Hv Hinv Hll. unfold shm_value_allocator_alloc. fold (entry_size key_len value_len).
  assert (sizeof_shm_hash_entry ≤ entry_size key_len value_len) as Hsz.
  { unfold entry_size. pose proof (MEM_ALIGN_ge key_len). pose proof (MEM_ALIGN_ge value_len). lia. }
  pose proof Hinv as (Hg&Hp&Ha&_&_). wp_simpl.
  eapply wp_mono; [by apply do_alloc_spec|]. intros [p|] s1 [Hpost Hnone].
  { wp_simpl. destruct (alloc_post_some _ _ _ _ _ Hinv Hpost) as (_&?&o&<-&?&?&?). split; [done|by exists o]. }
  specialize (Hnone eq_refl). destruct Hll as [|(Hcc&Httl&Hss)]; [done|].
  destruct (alloc_post_none _ _ _ _ Hinv Hpost) as (Hinv1&Hsc1&Hag1&_&_&Hx1).
  assert (vm_segment (memory s1) = vm_segment (memory s) ∧ vm_striping (memory s1) = vm_striping (memory s))
    as [Hvm1 Hst1] by (by destruct Hpost as (?&?&?&?&?&->&_)).
  wp_simpl. apply (alloc_decide_spec s1 es); [done|]. rewrite Hvm1.
  assert (config s1 = config s) as -> by apply Hsc1.
  intros b s2 Hinv2 [Hsc2 _] Hvm2 [-> [Hag2 Hx2]]; [done|done|]. wp_simpl.
  eapply wp_mono.
  { apply (create_value_segment_spec s2 es); [|done]. destruct Hsc2 as (_&->&_). by destruct Hsc1 as (_&->&_). }
  intros r s3 (Hsc3&Hinv3&Hag3&(_&Hh3&He3)&_&Hcc3&_&Hroom3).
  assert (∀ x, x ∈ es → agree s s3 x) as Hag.
  { intros x Hx. eapply agree_trans; [by apply Hag1|]. eapply agree_trans; [apply Hag2|apply Hag3]. }
  assert (extends s es s3 es) as Hx3.
  { eapply extends_trans; [exact Hx1|]. eapply extends_trans; [exact Hx2|].
    apply extends_same; [apply Hsc3|done|]. intros x _. destruct (Hag3 x) as (_&?&_).
    unfold hnext, hdr, hentry_at. by rewrite He3. }
  destruct (Z.eqb_spec r 0) as [->|Hr].
  2: { wp_simpl. split; [by split|]. split; [done|]. split; [done|]. by rewrite Hcc3, Hvm2. }
  pose proof Hinv3 as (Hg3&Hp3&Ha3&_&_).
  eapply wp_mono; [by apply do_alloc_spec|]. intros [p|] s4 [Hpost4 Hnone4].
  - destruct (alloc_post_some _ _ _ _ _ Hinv3 Hpost4) as (_&[Hag4 Hx4]&o&<-&?&?&?). split; [|by exists o].
    split; [|by eapply extends_trans]. intros x Hx. eapply agree_trans; [by apply Hag|by apply Hag4].
  - exfalso. apply Hnone4; [done|]. apply Hroom3; [done|].
    assert (vsize (vm_striping (memory s2)) = vsize (vm_striping (memory s1))) as -> by apply Hsc2.
    by rewrite Hst1.
Qed.

(** the new record is put behind all the others, or no record is touched; a new
    key only adds to a chain *)
Definition stored_exactly (key : shmcache_key_info) (value : shmcache_value_info)
    (s : shmcache_context) (es : list Z) (r : Z) (s' : shmcache_context) : Prop :=
  ∃ es', inv s' es' ∧ (key_data key ∉ key_of s <$> es → extends s es s' es') ∧
  (r = 0 ∧ view s' es' = without (key_data key) (view s es) ++ [new_record key value] ∨
   r = ENOMEM ∧ view s' es' = view s es ∧
     not_grown s (entry_size (key_length key) (v_length value)) s').

Lemma set_on_lossless_spec rearrange key value s es :
  mapping_ok (cfg_type (config s)) → inv s es → key_ok key → value_ok value →
  key_length key ≤ SHMCACHE_MAX_KEY_SIZE → v_length value ≤ max_value_size (config s) →
  Z.of_nat (length es) < max_key_count (config s) →
  lossless s (entry_size (key_length key) (v_length value)) →
  wp (shm_ht_set_on rearrange key value) (stored_exactly key value s es) s.
Proof.
  intros Hok Hinv Hk Hv Hk64 Hvm Hcnt Hll. unfold shm_ht_set_on. wp_simpl.
  rewrite (proj2 (Z.ltb_ge _ _) Hk64), (proj2 (Z.ltb_ge _ _) Hvm). wp_simpl. unfold shm_ht_count.
  assert (ht_count (hashtable (memory s)) = Z.of_nat (length es)) as ->
    by (by destruct Hinv as (_&_&_&_&(_&_&_&(?&_)))).
  rewrite (proj2 (Z.leb_gt _ _) Hcnt). wp_simpl. change (0 =? 0) with true. cbn [negb]. wp_simpl.
  set (size := entry_size (key_length key) (v_length value)) in *.
  assert (∀ s2, config s2 = config s → inv s2 es → view s2 es = view s es → extends s es s2 es → lossless s2 size →
    (∀ s3, not_grown s2 size s3 → not_grown s size s3) →
    wp (new_entry ← shm_value_allocator_alloc rearrange (key_length key) (v_length value);
        match new_entry with
        | Some new_entry => insert_entry new_entry key value
        | None => mret ENOMEM
        end) (stored_exactly key value s es) s2) as Hrest.
  { intros s2 Hcf2 Hinv2 Hview2 Hx2 Hll2 Hng. wp_simpl. unfold key_ok, value_ok in *. eapply wp_mono.
    { apply (alloc_lossless_spec rearrange s2 es); [by rewrite Hcf2|lia|lia|done|done]. }
    intros [p|] s3 [[Hag Hx] Hres].
    - destruct Hres as (o&->&Hno&Hinv3&Hsz). eapply wp_mono; [by apply (insert_entry_spec s3 o es)|].
      intros r s4 (->&es4&Hinv4&_&Hview&Hext). exists es4. split; [done|].
      pose proof (extends_trans _ _ _ _ _ _ Hx2 Hx) as Hx3. split; [|left; split; [done|]].
      { intros Hnew. eapply extends_trans; [exact Hx3|]. apply Hext. by rewrite (extends_keys s s3 es). }
      by rewrite Hview, (view_agree s2 s3), Hview2.
    - wp_simpl. destruct Hres as [Hinv3 Hng3]. exists es. split; [done|].
      split; [intros _; by eapply extends_trans|right].
      split; [done|]. split; [by rewrite (view_agree s2 s3)|by apply Hng]. }
  destruct (g_schedule_flag s); cbn [negb]; wp_simpl.
  - exact (proj1 (wp_bind _ _ _ _) (Hrest s eq_refl Hinv eq_refl (extends_refl s es) Hll (λ _ H, H))).
  - apply wp_ext. wp_simpl.
    match goal with |- wp _ _ ?t =>
      exact (proj1 (wp_bind _ _ _ _) (Hrest t eq_refl Hinv eq_refl (extends_refl s es) Hll (λ _ H, H))) end.
Qed.

Lemma set_lossless_spec key value s es :
  mapping_ok (cfg_type (config s)) → inv s es → key_ok key → value_ok value →
  key_length key ≤ SHMCACHE_MAX_KEY_SIZE → v_length value ≤ max_value_size (config s) →
  Z.of_nat (length es) < max_key_count (config s) →
  lossless s (entry_size (key_length key) (v_length value)) →
  wp (shm_ht_set key value) (stored_exactly key value s es) s.
Proof.
  intros Hok Hinv Hk Hv Hk64 Hvm Hcnt Hll.
  change (wp (shm_ht_set_n (S (Z.to_nat (shm_ht_count s))) key value) (stored_exactly key value s es) s).
  cbn [shm_ht_set_n]. exact (set_on_lossless_spec _ key value s es Hok Hinv Hk Hv Hk64 Hvm Hcnt Hll).
Qed.

(** ** Rearranging *)
Definition record_ok (r : shmcache_hash_entry) : Prop := key_ok (entry_key r) ∧ value_ok (entry_value r).

Lemma view_records_ok s es : Forall (entry_ok s) es → Forall record_ok (view s es).
Proof.
  intros He. apply Forall_fmap. eapply Forall_impl; [exact He|]. intros o ((?&_)&?&_).
  split; unfold key_ok, value_ok, key_of, value_of; cbn; unfold key_of, value_of;
    rewrite length_read_bytes; lia.
Qed.
Lemma view_keys s es : (λ r, key_data (entry_key r)) <$> view s es = key_of s <$> es.
Proof. unfold view. by rewrite <-list_fmap_compose. Qed.

(** a record put back behind others is put there as it was *)
Lemma new_record_of r : new_record (entry_key r) (entry_value r) = r.
Proof. by destruct r as [[] []]. Qed.

(** putting the records [rs] back behind the records of [l0]: some of them, in
    their order, and nothing else, is in the table at any time *)
Lemma reinsert_spec set n rs l0 s es result :
  (∀ key value s es, mapping_ok (cfg_type (config s)) → inv s es → key_ok key → value_ok value →
     (length es < n)%nat → wp (set key value) (set_post key value s es) s) →
  mapping_ok (cfg_type (config s)) → inv s es → view s es `sublist_of` l0 → Forall record_ok rs →
  (length (l0 ++ rs) ≤ n)%nat →
  wp (reinsert set rs result) (λ _ s', ∃ es', inv s' es' ∧ same_cache s s' ∧
    view s' es' `sublist_of` l0 ++ rs) s.
Proof.
  intros Hset. revert l0 s es result.
  induction rs as [|r rs IH]; intros l0 s es result Hok Hinv Hl Hrs Hn; cbn [reinsert].
  { wp_simpl. exists es. by rewrite app_nil_r. }
  apply Forall_cons in Hrs as [[Hk Hv] Hrs]. wp_simpl.
  assert (length es < n)%nat as Hes.
  { apply sublist_length in Hl. unfold view in Hl. rewrite length_fmap in Hl.
    rewrite length_app in Hn. simpl in Hn. lia. }
  eapply wp_mono; [by apply Hset|]. intros r' s1 (es1&Hinv1&Hsc&_&Hres).
  assert (view s1 es1 `sublist_of` l0 ++ [r]) as Hl1.
  { case_decide.
    - destruct Hres as (l&Hsub&->). rewrite new_record_of. apply sublist_app; [|done].
      etrans; [exact Hsub|]. etrans; [apply sublist_filter|done].
    - apply set_failure_sublist in Hres. etrans; [exact Hres|]. etrans; [exact Hl|].
      by apply sublist_inserts_r. }
  destruct (Z.eqb_spec r' 0); cbn [negb].
  - eapply wp_mono.
    + apply (IH (l0 ++ [r]) s1 es1); [by destruct Hsc as (_&->&_)|done|done|done|by rewrite <-app_assoc].
    + intros r2 s2 (es2&?&?&Hv2). exists es2. split_and!; [done|by etrans|].
      by rewrite <-app_assoc in Hv2.
  - wp_simpl. exists es1. split_and!; [done|done|]. etrans; [exact Hl1|].
    apply sublist_app; [done|]. apply sublist_skip, sublist_nil_l.
Qed.

Lemma listing_sublist s es ki offset count now : listing s es ki offset count now `sublist_of` view s es.
Proof.
  unfold listing, view. etrans; [apply sublist_take|]. etrans; [apply sublist_drop|].
  apply fmap_sublist, sublist_filter.
Qed.

Lemma rearrange_spec set n s es :
  (∀ key value s es, mapping_ok (cfg_type (config s)) → inv s es → key_ok key → value_ok value →
     (length es < n)%nat → wp (set key value) (set_post key value s es) s) →
  mapping_ok (cfg_type (config s)) → inv s es → (length es ≤ n)%nat →
  wp (shm_value_allocator_try_rearrange set) (λ _ s', ∃ es', inv s' es' ∧ shrunk s es s' es') s.
Proof.
  intros Hset Hok Hinv Hn. unfold shm_value_allocator_try_rearrange. wp_simpl.
  destruct (_ <? _); [wp_simpl; by exists es|]. wp_simpl. apply wp_ext. wp_simpl.
  set (s1 := s <| ticks ::= S |>). eapply wp_mono; [by apply (to_array_ex_spec s1 es None 0 0)|].
  intros [result array] s2 ((n2&->)&_&Hok2&_). cbn in Hok2. set (s2 := s1 <| ticks := n2 |>).
  wp_simpl. destruct (Z.eqb_spec result 0) as [->|Hr]; cbn [negb]; wp_simpl; [|by exists es].
  specialize (Hok2 eq_refl). eapply wp_mono.
  { apply clear_spec. by apply (inv_clearable s2 es). }
  intros _ s3 (_&Hinv3&Hsc3&_).
  assert (array `sublist_of` view s es) as Hsub by (subst array; exact (listing_sublist s1 es None 0 0 _)).
  wp_simpl. eapply wp_mono.
  { apply (reinsert_spec set n array [] s3 []); [done|by destruct Hsc3 as (_&->&_)|done|done| |].
    - destruct Hinv as (_&_&_&_&(He&_)). pose proof (view_records_ok s es He) as Hall.
      rewrite Forall_forall in *. intros r Hr. apply Hall. by eapply elem_of_sublist.
    - apply sublist_length in Hsub. unfold view in Hsub. rewrite length_fmap in Hsub. simpl. lia. }
  intros result s4 (es4&Hinv4&Hsc4&Hv4). cbn [app] in Hv4.
  assert (same_cache s s4) as Hsc by (etrans; [|exact Hsc4]; exact Hsc3).
  wp_simpl. destruct (negb (result =? 0)); wp_simpl.
  - eapply wp_mono; [by eapply clear_spec, inv_clearable|]. intros _ s5 (_&Hinv5&Hsc5&_). wp_simpl.
    exists []. split; [done|]. split; [by etrans|]. apply sublist_nil_l.
  - exists es4. split; [done|]. split; [done|]. by etrans.
Qed.

(** the depth of the recursion through rearranging is bounded by the number of
    entries *)
Lemma set_n_spec n key value s es :
  mapping_ok (cfg_type (config s)) → inv s es → key_ok key → value_ok value → (length es < n)%nat →
  wp (shm_ht_set_n n key value) (set_post key value s es) s.
Proof.
  revert key value s es. induction n as [|n IH]; intros key value s es Hok Hinv Hk Hv Hn; [lia|].
  cbn [shm_ht_set_n]. apply set_on_spec; [done..|]. intros s1 es1 Hinv1 Hsh.
  apply (rearrange_spec _ n); [exact IH|by destruct Hsh as [(_&->&_) _]|done|].
  apply shrunk_length in Hsh. lia.
Qed.

Lemma set_spec key value s es :
  mapping_ok (cfg_type (config s)) → inv s es → key_ok key → value_ok value →
  wp (shm_ht_set key value) (set_post key value s es) s.
Proof.
  intros Hok Hinv Hk Hv. unfold shm_ht_set. apply set_n_spec; [done..|].
  destruct Hinv as (_&_&_&_&(_&_&_&(Hc&_))). unfold shm_ht_count. rewrite Hc. lia.
Qed.
End set.

(** ** Properties *)
Section properties.
Context `{E : Env} `{L : !EnvLaws E}.

(** C13: the recycler works from the oldest entry on: it passes over a prefix
    of the recycle list, drops the entries of it that have expired - and the
    valid ones only when the configuration allows it - and leaves the rest and
    every remaining record as they were.  It returns 0 as soon as it has dropped
    [recycle_keys_once] entries when that is positive, and otherwise as soon as
    an entry it drops was the last one of its striping; when the list ends
    before, it returns ENOMEM.  The statistics count what it did. *)
Theorem recycle_correct target once s es :
  inv s es →
  wp (shm_value_allocator_recycle target once) (λ r s',
    let now := Z.quot (get_current_time_us (ticks s)) 1000000 in
    let s0 := s <| g_current_time := now |> in
    ∃ l3 l4, es = l3 ++ l4 ∧ inv s' (kept s0 l3 ++ l4) ∧
      (∀ x, x ∈ kept s0 l3 ++ l4 → record_of s' x = record_of s x) ∧
      (r = ENOMEM ∧ l4 = [] ∨
       r = 0 ∧ (0 < length (dropped s0 l3))%nat ∧
         (0 < once → Z.of_nat (length (dropped s0 l3)) = once)) ∧
      first_stop s0 once [] 0 es r l3 l4 ∧
      (recycle_valid_entries (config s) = false →
         ∀ x, x ∈ dropped s0 l3 → HT_ENTRY_IS_VALID (expires (hdr s x)) now = false) ∧
      clear_ht_entry_total (stats (memory s'))
        = clear_ht_entry_total (stats (memory s)) + Z.of_nat (length (dropped s0 l3)) ∧
      recycle_total (recycle_stats_of target s') = recycle_total (recycle_stats_of target s) + 1 ∧
      recycle_success (recycle_stats_of target s')
        = recycle_success (recycle_stats_of target s) + (if r =? 0 then 1 else 0)) s.
Proof.
  intros Hinv. eapply wp_mono; [by apply recycle_spec|].
  intros r s' (_&_&_&l3&l4&->&Hinv'&Hag&Hr&Hfs&Hct&_&Hst). cbv zeta. exists l3, l4.
  split_and!; [done|done|intros x Hx; by apply agree_record, Hag| |exact Hfs| |done|by rewrite Hst|].
  - destruct Hr as [|(?&?&?)]; [by left|right]. split_and!; [done|lia|done].
  - intros Hrv x (Hk&_)%list_elem_of_filter. unfold keep in Hk. cbn in Hk. rewrite Hrv in Hk.
    cbn in Hk. by rewrite andb_true_r in Hk.
  - rewrite Hst. unfold counted. cbn. destruct (r =? 0); lia.
Qed.

(** a key longer than 64 bytes is refused with ENAMETOOLONG, a value longer
    than the configured maximum with EINVAL, before anything is changed. *)
Theorem set_rejects key value s :
  SHMCACHE_MAX_KEY_SIZE < key_length key ∨ max_value_size (config s) < v_length value →
  shm_ht_set key value s =
    Some (if SHMCACHE_MAX_KEY_SIZE <? key_length key then ENAMETOOLONG else EINVAL, s).
Proof.
  intros Hor. unfold shm_ht_set. cbn [shm_ht_set_n]. unfold shm_ht_set_on, get, mbind, M_bind.
  destruct (Z.ltb_spec SHMCACHE_MAX_KEY_SIZE (key_length key)); [done|].
  destruct (Z.ltb_spec (max_value_size (config s)) (v_length value)); [done|lia].
Qed.

(** C25: rearranging - clearing the table and storing its valid records again,
    each of which may recycle and rearrange in turn - terminates, keeps the
    cache well-formed, and leaves some of the records it found, unchanged and
    in the same order. *)
Theorem rearrange_correct n s es :
  mapping_ok (cfg_type (config s)) → inv s es → (length es ≤ n)%nat →
  wp (shm_value_allocator_try_rearrange (shm_ht_set_n n)) (λ _ s', ∃ es', inv s' es' ∧
    same_cache s s' ∧ view s' es' `sublist_of` view s es) s.
Proof.
  intros Hok Hinv Hn. eapply (rearrange_spec _ n); [|done..].
  intros. by apply set_n_spec.
Qed.
End properties.
