(* ===== verification/Lock.v ===== *)
(** * The write lock and deadlock recovery (src/shm_lock.h, shm_lock.c)

    [shm_lock] spins on a process-shared mutex; a waiter that waits too long
    probes the process recorded in [lock_pid] and, when it is gone, clears the
    table and unlocks on its behalf under a file lock. *)
From S2P Require Import Prelude Types OpWrapper Shmopt Invariant HashTable.
Local Open Scope Z_scope.
Local Open Scope shm_scope.

Section Lock.
Context `{E : Env}.

(** ** shm_lock_init (13-56) *)
Definition shm_lock_init : cmd Z :=
  r ← ext pthread_mutexattr_init;
  if negb (r =? 0) then mret r
  else
    r ← ext pthread_mutexattr_setpshared;
    if negb (r =? 0) then mret r
    else
      r ← ext pthread_mutexattr_settype;
      if negb (r =? 0) then mret r
      else
        r ← ext pthread_mutex_init;
        if negb (r =? 0) then mret r
        else modify (λ s, s <| memory; lock_pid := 0 |>);; mret 0.

(** ** shm_lock_file, shm_unlock_file (58-96) *)
Definition shm_lock_file : cmd Z :=
  s ← get;
  when (0 <? lock_fd s) (sys_close (lock_fd s));;
  fd ← sys_open (filename (config s)) true;
  modify (λ s, s <| lock_fd := fd |>);;
  if fd <? 0 then errno_or EPERM
  else
    result ← ext (λ n, file_write_lock n fd);
    if negb (result =? 0) then
      sys_close fd;;
      modify (λ s, s <| lock_fd := -1 |>);;
      mret result
    else mret result.

Definition shm_unlock_file : cmd unit :=
  s ← get;
  sys_close (lock_fd s);;
  modify (λ s, s <| lock_fd := -1 |>).

(** ** shm_detect_deadlock (98-131) *)
Definition shm_detect_deadlock (last_pid : Z) : cmd Z :=
  result ← shm_lock_file;
  if negb (result =? 0) then mret result
  else
    s ← get;
    when (last_pid =? lock_pid (memory s))
      (modify (λ s, s <| memory; lock_pid := 0 |>);;
       shm_ht_clear;;
       result ← ext pthread_mutex_unlock;
       when (result =? 0)
         (modify (λ s, s <| memory; stats; stats_lock; unlock_deadlock ::= Z.succ |>);;
          now ← ext get_current_time;
          modify (λ s, s <| memory; stats; stats_lock; last_unlock_deadlock_time := now |>)));;
    shm_unlock_file;;
    mret 0.

(** the probe of the owner (151-159) *)
Definition probe_owner (owner : Z) : cmd unit :=
  r ← ext (λ n, os_kill0 n owner);
  when (negb (r =? 0))
    (errno ← ext os_errno;
     when ((errno =? ESRCH) || (errno =? ENOENT))
       (modify (λ s, s <| memory; stats; stats_lock; detect_deadlock ::= Z.succ |>);;
        now ← ext get_current_time;
        modify (λ s, s <| memory; stats; stats_lock; last_detect_deadlock_time := now |>);;
        shm_detect_deadlock owner;; mret tt)).

(** ** shm_lock (133-169): the loop runs as long as the mutex is busy, so it
    takes the number of attempts to consider *)
Fixpoint lock_loop (attempts : nat) (clocks : Z) : cmd Z :=
  match attempts with
  | O => fault
  | S attempts =>
    result ← ext pthread_mutex_trylock;
    if result =? EBUSY then
      modify (λ s, s <| memory; stats; stats_lock; lock_retry ::= Z.succ |>);;
      let clocks := clocks + 1 in
      s ← get;
      let owner := lock_pid (memory s) in
      if (detect_deadlock_clocks s <? clocks) && (0 <? owner) then
        probe_owner owner;;
        lock_loop attempts 0
      else lock_loop attempts clocks
    else mret result
  end.

Definition shm_lock (attempts : nat) : cmd Z :=
  modify (λ s, s <| memory; stats; stats_lock; lock_total ::= Z.succ |>);;
  result ← lock_loop attempts 0;
  when (result =? 0) (modify (λ s, s <| memory; lock_pid := pid s |>));;
  mret result.

(** ** shm_unlock (171-183) *)
Definition shm_unlock : cmd Z :=
  modify (λ s, s <| memory; lock_pid := 0 |>);;
  ext pthread_mutex_unlock.

(** ** What taking the lock may change *)
(** the lock words, its statistics and what the calls to the kernel count *)
Definition lock_frame (s s' : shmcache_context) : Prop := ∃ n fds fd p sl,
  s' = s <| ticks := n |> <| open_fds := fds |> <| lock_fd := fd |>
         <| memory; lock_pid := p |> <| memory; stats; stats_lock := sl |> ∧ (ticks s ≤ n)%nat.
(** the fixed parameters of a mapped cache *)
Definition same_config (s s' : shmcache_context) : Prop :=
  pid s' = pid s ∧ config s' = config s ∧ g_schedule_flag s' = g_schedule_flag s ∧
  detect_deadlock_clocks s' = detect_deadlock_clocks s ∧ ht_segment s' = ht_segment s ∧
  status (memory s') = status (memory s) ∧
  mi_max_key_count (memory s') = mi_max_key_count (memory s) ∧
  ht_capacity (hashtable (memory s')) = ht_capacity (hashtable (memory s)) ∧
  vsize (vm_segment (memory s')) = vsize (vm_segment (memory s)) ∧
  count_max (vm_segment (memory s')) = count_max (vm_segment (memory s)) ∧
  vsize (vm_striping (memory s')) = vsize (vm_striping (memory s)) ∧
  count_max (vm_striping (memory s')) = count_max (vm_striping (memory s)) ∧
  mi_size (memory s') = mi_size (memory s) ∧
  allocators_offset s' = allocators_offset s ∧ list_head_offset s' = list_head_offset s ∧
  count_current (vm_segment (memory s)) ≤ count_current (vm_segment (memory s')).
#[export] Instance same_config_preorder : PreOrder same_config.
Proof.
  split; [done|]. unfold same_config. intros s1 s2 s3 H1 H2. intuition (congruence || lia).
Qed.
#[export] Instance same_cache_config : subrelation same_cache same_config.
Proof. intros s s' H. unfold same_cache in H. unfold same_config. intuition congruence. Qed.

#[export] Instance lock_frame_preorder : PreOrder lock_frame.
Proof.
  split.
  - intros s. exists (ticks s), (open_fds s), (lock_fd s), (lock_pid (memory s)), (stats_lock (stats (memory s))).
    split; [|done]. by destruct s as [????[???????[]]].
  - intros s1 s2 s3 (n&f&d&p&l&->&?) (n2&f2&d2&p2&l2&->&?). exists n2, f2, d2, p2, l2. cbn in *.
    split; [done|lia].
Qed.
Lemma quiet_lock_frame s s' : quiet s s' → lock_frame s s'.
Proof.
  intros (n&fds&->&?). exists n, fds, (lock_fd s), (lock_pid (memory s)), (stats_lock (stats (memory s))).
  split; [|done]. by destruct s as [????[???????[]]].
Qed.
Lemma lock_frame_config s s' : lock_frame s s' → same_config s s'.
Proof. by intros (?&?&?&?&?&->&_). Qed.
Lemma lock_frame_ticks s s' : lock_frame s s' → (ticks s ≤ ticks s')%nat.
Proof. by intros (?&?&?&?&?&->&?). Qed.
Lemma lock_frame_clearable s s' : lock_frame s s' → clearable s → clearable s'.
Proof. by intros (?&?&?&?&?&->&_). Qed.
Lemma lock_frame_inv s s' es : lock_frame s s' → inv s es → inv s' es.
Proof. by intros (?&?&?&?&?&->&_). Qed.
(** the updates of the lock's own words *)
Lemma lock_frame_stats s f :
  lock_frame s (s <| memory; stats; stats_lock ::= f |>).
Proof.
  exists (ticks s), (open_fds s), (lock_fd s), (lock_pid (memory s)), (f (stats_lock (stats (memory s)))).
  split; [|done]. by destruct s.
Qed.
Lemma lock_frame_pid s p : lock_frame s (s <| memory; lock_pid := p |>).
Proof.
  exists (ticks s), (open_fds s), (lock_fd s), p, (stats_lock (stats (memory s))).
  split; [|done]. by destruct s as [????[???????[]]].
Qed.
Lemma lock_frame_fd s fd : lock_frame s (s <| lock_fd := fd |>).
Proof.
  exists (ticks s), (open_fds s), fd, (lock_pid (memory s)), (stats_lock (stats (memory s))).
  split; [|done]. by destruct s as [????[???????[]]].
Qed.

(** ** The lock file and recovery *)
Definition lock_file_available : Prop :=
  (∀ n path c, 0 ≤ os_open n path c) ∧ ∀ n fd, file_write_lock n fd = 0.
Definition lock_file_post (s : shmcache_context) (r : Z) (s' : shmcache_context) : Prop :=
  lock_frame s s' ∧ lock_pid (memory s') = lock_pid (memory s) ∧ (lock_file_available → r = 0) ∧
  (errno_ok → (∀ n fd, 0 ≤ file_write_lock n fd) → 0 ≤ r).
Lemma lock_file_spec s : wp shm_lock_file (lock_file_post s) s.
Proof.
  unfold shm_lock_file. wp_simpl.
  assert (∀ s1, quiet s s1 →
    wp (fd ← sys_open (filename (config s)) true;
        modify (λ s, s <| lock_fd := fd |>);;
        if fd <? 0 then errno_or EPERM else
        result ← ext (λ n, file_write_lock n fd);
        if negb (result =? 0) then sys_close fd;; modify (λ s, s <| lock_fd := -1 |>);; mret result
        else mret result)
      (lock_file_post s) s1) as H.
  { intros s1 H1. wp_simpl. apply wp_sys_open. intros s2 H2. wp_simpl.
    assert (quiet s s2) as (n&fds&->&Hn) by by eapply quiet_trans.
    assert (lock_file_available → 0 ≤ os_open (ticks s1) (filename (config s)) true) as Hop
      by (intros [Ho _]; apply Ho).
    set (fd := os_open _ _ _) in *. clearbody fd. clear H1 H2.
    assert (lock_frame s (s <| ticks := n |> <| open_fds := fds |> <| lock_fd := fd |>)) as Hf.
    { etrans; [apply quiet_lock_frame; by exists n, fds|]. apply lock_frame_fd. }
    set (s2 := _ <| lock_fd := fd |>) in *.
    assert (lock_pid (memory s2) = lock_pid (memory s)) as Hp by done. clearbody s2.
    destruct (Z.ltb_spec fd 0).
    - apply wp_errno_or. intros e s3 H3 _ Hnn. split; [etrans; [exact Hf|by apply quiet_lock_frame]|].
      split; [by destruct H3 as (?&?&->&_)|]. split; [|by intros; apply Hnn].
      intros Hav. specialize (Hop Hav). lia.
    - wp_simpl. apply wp_ext_quiet. intros s3 H3. wp_simpl. destruct (Z.eqb_spec (file_write_lock (ticks s2) fd) 0) as [Hw|Hw]; cbn [negb]; wp_simpl.
      + split; [etrans; [exact Hf|by apply quiet_lock_frame]|].
        split; [by destruct H3 as (?&?&->&_)|]. by split; [|intros; rewrite Hw].
      + apply wp_sys_close. intros s4 H4. wp_simpl. assert (quiet s2 s4) as H24 by by eapply quiet_trans.
        split; [|split_and!; [by destruct H24 as (?&?&->&_)|by intros [_ Hav]; destruct Hw; apply Hav|by auto]].
        etrans; [exact Hf|]. etrans; [by apply quiet_lock_frame|]. apply lock_frame_fd. }
  destruct (_ <? _); [|apply H, quiet_refl]. apply wp_sys_close. intros s1 H1. cbn beta. by apply H.
Qed.

Lemma unlock_file_spec s :
  wp shm_unlock_file (λ _ s', lock_frame s s' ∧ lock_pid (memory s') = lock_pid (memory s) ∧
    lock_fd s' = -1) s.
Proof.
  unfold shm_unlock_file. wp_simpl. apply wp_sys_close. intros s1 H1. wp_simpl.
  split; [|by destruct H1 as (?&?&->&_)].
  etrans; [by apply quiet_lock_frame|]. apply lock_frame_fd.
Qed.

(** some probe found that the process in [lock_pid] is gone *)
Definition owner_died : Prop := ∃ n m p, 0 < p ∧ os_kill0 n p ≠ 0 ∧
  (os_errno m = ESRCH ∨ os_errno m = ENOENT).

(** taking the lock leaves the cache as it is, or empties it because the
    owner died *)
Definition lock_rel (s s' : shmcache_context) : Prop :=
  same_config s s' ∧ (ticks s ≤ ticks s')%nat ∧
  (lock_frame s s' ∨ (inv s' [] ∧ owner_died)).
Lemma lock_frame_rel s s' : lock_frame s s' → lock_rel s s'.
Proof. intros H. split_and!; [by apply lock_frame_config|by apply lock_frame_ticks|by left]. Qed.
#[export] Instance lock_rel_preorder : PreOrder lock_rel.
Proof.
  split; [intros s; by apply lock_frame_rel|].
  intros s1 s2 s3 (C1&T1&H1) (C2&T2&H2). split; [by etrans|]. split; [lia|].
  destruct H2 as [H2|]; [|by right]. destruct H1 as [H1|[H1 Hd]]; [left; by etrans|].
  right. eauto using lock_frame_inv.
Qed.
Lemma lock_rel_clearable s s' : lock_rel s s' → clearable s → clearable s'.
Proof. intros (_&_&[H|[H _]]) Hc; [by eapply lock_frame_clearable|by eapply inv_clearable]. Qed.

(** an external call, then an update of the lock words *)
Lemma wp_ext_lock {A} s (f : nat → A) (Q : A → _ → Prop) :
  (∀ s', lock_frame s s' → ticks s' = S (ticks s) → memory s' = memory s → Q (f (ticks s)) s') →
  wp (ext f) Q s.
Proof.
  intros H. apply wp_ext, H; [|done..]. apply quiet_lock_frame.
  exists (S (ticks s)), (open_fds s). split; [by destruct s|lia].
Qed.

Lemma detect_deadlock_spec s last_pid :
  clearable s → owner_died →
  wp (shm_detect_deadlock last_pid) (λ r s', lock_rel s s' ∧
    (lock_file_available → last_pid = lock_pid (memory s) → inv s' [] ∧ lock_pid (memory s') = 0)) s.
Proof.
  intros Hc Hdead. unfold shm_detect_deadlock. wp_simpl.
  eapply wp_mono; [apply lock_file_spec|]. intros r s1 (H1&Hp1&Hav&_). wp_simpl.
  destruct (Z.eqb_spec r 0) as [Hr|Hr]; cbn [negb]; wp_simpl.
  2: { split; [by apply lock_frame_rel|]. intros Ha _. by destruct (Hr (Hav Ha)). }
  rewrite Hp1. destruct (Z.eqb_spec last_pid (lock_pid (memory s))) as [Heq|Hne].
  2: { wp_simpl. eapply wp_mono; [apply unlock_file_spec|]. intros _ s2 (H2&_). wp_simpl.
       split; [by apply lock_frame_rel; etrans|done]. }
  wp_simpl. assert (lock_frame s (s1 <| memory; lock_pid := 0 |>)) as H2
    by (etrans; [exact H1|apply lock_frame_pid]).
  eapply wp_mono; [apply clear_spec; by eapply lock_frame_clearable|].
  intros c s3 (_&Hinv&Hsc&_&_&Ht). wp_simpl.
  assert (lock_pid (memory s3) = 0) as Hp3 by (by destruct Hsc as (_&_&_&_&_&_&->&_)).
  assert (∀ s4, lock_frame s3 s4 → lock_pid (memory s4) = 0 →
    wp (shm_unlock_file;; mret 0) (λ r s', lock_rel s s' ∧
    (lock_file_available → last_pid = lock_pid (memory s) → inv s' [] ∧ lock_pid (memory s') = 0)) s4) as Hend.
  { intros s4 H4 Hp4. wp_simpl. eapply wp_mono; [apply unlock_file_spec|].
    intros _ s5 (H5&Hp5&_). wp_simpl. rewrite Hp5. assert (inv s5 []) by eauto using lock_frame_inv.
    split; [|done]. pose proof (lock_frame_ticks _ _ H4) as T4. pose proof (lock_frame_ticks _ _ H5) as T5.
    pose proof (lock_frame_ticks _ _ H2) as T2. cbn in Ht, T2. split; [|split; [lia|by right]].
    etrans; [exact (lock_frame_config _ _ H2)|]. etrans; [exact (same_cache_config _ _ Hsc)|].
    exact (lock_frame_config _ _ (transitivity H4 H5)). }
  apply wp_ext_lock. intros s4 H4 _ Hm4. wp_simpl. destruct (_ =? 0); cbn [when]; wp_simpl.
  2: { apply (proj1 (wp_bind _ _ _ _)), Hend; [done|by rewrite Hm4]. }
  apply wp_ext_lock. intros s5 H5 _ Hm5. wp_simpl. apply (proj1 (wp_bind _ _ _ _)), Hend.
  - etrans; [exact H4|]. etrans; [apply lock_frame_stats|]. etrans; [exact H5|]. apply lock_frame_stats.
  - change (lock_pid (memory s5) = 0). by rewrite Hm5, <-Hp3, <-Hm4.
Qed.

(** ** Taking the lock *)
(** from the [n0]-th external call on, the mutex is not held by another *)
Definition released_by (n0 : nat) : Prop := ∀ n, (n0 ≤ n)%nat → pthread_mutex_trylock n ≠ EBUSY.

(** one probe of the owner, after [detect_deadlock_clocks] attempts *)
Definition dead (p : Z) : Prop := ∀ n, os_kill0 n p ≠ 0 ∧ os_errno n = ESRCH.
Lemma probe_spec s owner (Q : unit → _ → Prop) :
  clearable s → 0 < owner →
  (∀ s', lock_rel s s' → (lock_file_available → dead owner → owner = lock_pid (memory s) →
                          inv s' []) → Q tt s') →
  wp (probe_owner owner) Q s.
Proof.
  intros Hc Ho HQ. unfold probe_owner. wp_simpl. apply wp_ext_lock. intros s1 H1 _ Hm1. wp_simpl.
  destruct (Z.eqb_spec (os_kill0 (ticks s) owner) 0) as [Hk|Hk]; cbn [negb].
  { apply HQ; [by apply lock_frame_rel|]. intros _ Hd. by destruct (Hd (ticks s)). }
  wp_simpl. apply wp_ext_lock. intros s2 H2 _ Hm2. wp_simpl.
  assert (lock_frame s s2) as H02 by by etrans.
  destruct ((_ =? _) || _) eqn:He.
  2: { apply HQ; [by apply lock_frame_rel|]. intros _ Hd. rewrite (proj2 (Hd _)) in He. done. }
  wp_simpl. apply wp_ext_lock. intros s3 H3 _ Hm3. wp_simpl.
  assert (owner_died) as Hd.
  { exists (ticks s), (ticks s1), owner. split_and!; [done..|].
    apply orb_true_iff in He as [He%Z.eqb_eq|He%Z.eqb_eq]; auto. }
  assert (lock_frame s (s3 <| memory; stats; stats_lock; last_detect_deadlock_time := get_current_time (ticks s2) |>))
    as H04.
  { etrans; [exact H02|]. etrans; [apply lock_frame_stats|]. etrans; [exact H3|].
    apply lock_frame_stats. }
  eapply wp_mono; [apply detect_deadlock_spec; [by eapply lock_frame_clearable|done]|].
  intros r s5 [H5 Hrec]. wp_simpl. apply HQ; [by etrans; [apply lock_frame_rel|]|].
  intros Hav _ Heq. refine (proj1 (Hrec Hav _)). rewrite Heq.
  change (lock_pid (memory s) = lock_pid (memory s3)). rewrite Hm3. cbn. by rewrite Hm2, Hm1.
Qed.

Lemma lock_loop_spec attempts clocks s n0 :
  clearable s → released_by n0 → (n0 - ticks s < attempts)%nat →
  wp (lock_loop attempts clocks) (λ r s', lock_rel s s' ∧ r ≠ EBUSY ∧
    ∃ n, r = pthread_mutex_trylock n) s.
Proof.
  revert clocks s. induction attempts as [|a IH]; intros clocks s Hc Hrel Hn; [lia|].
  cbn [lock_loop]. wp_simpl. apply wp_ext_lock. intros s1 H1 Ht1 _. wp_simpl.
  destruct (Z.eqb_spec (pthread_mutex_trylock (ticks s)) EBUSY) as [Hb|Hb].
  2: { wp_simpl. split; [by apply lock_frame_rel|]. eauto. }
  assert (ticks s < n0)%nat as Hlt.
  { destruct (decide (n0 ≤ ticks s)%nat) as [Hle|]; [by destruct (Hrel _ Hle)|lia]. }
  wp_simpl. set (s2 := s1 <| memory; stats; stats_lock; lock_retry ::= Z.succ |>).
  assert (lock_frame s s2) as H2 by (etrans; [exact H1|apply lock_frame_stats]).
  assert (ticks s2 = S (ticks s)) as Ht2 by done.
  assert (clearable s2) as Hc2 by by eapply lock_frame_clearable. clearbody s2.
  destruct ((_ <? _) && _) eqn:Hp.
  - apply andb_true_iff in Hp as [_ Hp%Z.ltb_lt]. wp_simpl. apply probe_spec; [done..|].
    intros s3 H3 _. destruct (H3) as (_&Ht3&_).
    eapply wp_mono; [apply IH; [by eapply lock_rel_clearable|done|lia]|].
    intros r s4 (H4&?&?). split; [|done]. etrans; [by apply lock_frame_rel|]. by etrans.
  - eapply wp_mono; [apply IH; [done|done|lia]|].
    intros r s4 (H4&?&?). split; [|done]. etrans; [by apply lock_frame_rel|done].
Qed.

(** [shm_lock] returns; the holder is recorded *)
Lemma lock_spec attempts s n0 :
  clearable s → released_by n0 → (n0 - ticks s < attempts)%nat →
  wp (shm_lock attempts) (λ r s', lock_rel s s' ∧ r ≠ EBUSY ∧
    (r = 0 → lock_pid (memory s') = pid s) ∧ ∃ n, r = pthread_mutex_trylock n) s.
Proof.
  intros Hc Hrel Hn. unfold shm_lock. wp_simpl.
  set (s1 := s <| memory; stats; stats_lock; lock_total ::= Z.succ |>).
  assert (lock_frame s s1) as H1 by apply lock_frame_stats.
  assert (pid s1 = pid s) as Hp by done.
  eapply wp_mono; [apply (lock_loop_spec attempts 0 s1 n0); [by eapply lock_frame_clearable|done..]|].
  intros r s2 (H2&Hb&Hr). assert (lock_rel s s2) as H02 by (etrans; [by apply lock_frame_rel|done]).
  wp_simpl. destruct (Z.eqb_spec r 0) as [Hr0|Hr0]; wp_simpl; [|done].
  split; [etrans; [exact H02|apply lock_frame_rel, lock_frame_pid]|].
  split_and!; [done| |done]. intros _. destruct H02 as (Hcf&_). apply Hcf.
Qed.

Lemma unlock_spec s :
  wp shm_unlock (λ r s', lock_frame s s' ∧ lock_pid (memory s') = 0 ∧
    r = pthread_mutex_unlock (ticks s)) s.
Proof.
  unfold shm_unlock. wp_simpl. apply wp_ext_lock. intros s1 H1 _ Hm. cbn in Hm.
  split_and!; [|by rewrite Hm|done]. etrans; [apply lock_frame_pid|exact H1].
Qed.

(** ** Recovery from a dead owner *)
Lemma lock_loop_recovers attempts clocks s n0 :
  clearable s → released_by n0 → (n0 - ticks s < attempts)%nat →
  lock_file_available → 0 < lock_pid (memory s) → dead (lock_pid (memory s)) →
  clocks ≤ detect_deadlock_clocks s →
  (∀ n, (ticks s ≤ n ≤ ticks s + Z.to_nat (detect_deadlock_clocks s - clocks))%nat →
     pthread_mutex_trylock n = EBUSY) →
  wp (lock_loop attempts clocks) (λ r s', lock_rel s s' ∧ r ≠ EBUSY ∧ inv s' []) s.
Proof.
  revert clocks s. induction attempts as [|a IH]; intros clocks s Hc Hrel Hn Hav Hpos Hdead Hcl Hbusy;
    [lia|].
  cbn [lock_loop]. wp_simpl. apply wp_ext_lock. intros s1 H1 Ht1 Hm1. wp_simpl.
  rewrite (Hbusy (ticks s)) by lia. change (EBUSY =? EBUSY) with true. wp_simpl.
  assert (ticks s < n0)%nat as Hlt.
  { destruct (decide (n0 ≤ ticks s)%nat) as [Hle|]; [|lia]. destruct (Hrel _ Hle). apply Hbusy. lia. }
  set (s2 := s1 <| memory; stats; stats_lock; lock_retry ::= Z.succ |>).
  assert (lock_frame s s2) as H2 by (etrans; [exact H1|apply lock_frame_stats]).
  assert (ticks s2 = S (ticks s)) as Ht2 by done.
  assert (lock_pid (memory s2) = lock_pid (memory s)) as Hp2 by (cbn; by rewrite Hm1).
  assert (clearable s2) as Hc2 by by eapply lock_frame_clearable. clearbody s2.
  destruct (lock_frame_config _ _ H2) as (_&_&_&HD&_). rewrite HD, Hp2.
  destruct (Z.ltb_spec (detect_deadlock_clocks s) (clocks + 1)) as [Hprobe|Hwait]; cbn [andb].
  - rewrite (proj2 (Z.ltb_lt _ _) Hpos). wp_simpl. apply probe_spec; [done..|].
    intros s3 H3 Hempty. rewrite Hp2 in Hempty. specialize (Hempty Hav Hdead eq_refl).
    destruct (H3) as (_&Ht3&_). eapply wp_mono; [apply (lock_loop_spec a 0 s3 n0);
      [by eapply inv_clearable|done|lia]|].
    intros r s4 (H4&Hb&_). split; [etrans; [by apply lock_frame_rel|]; by etrans|]. split; [done|].
    destruct H4 as (_&_&[H4|[? _]]); [by eapply lock_frame_inv|done].
  - eapply wp_mono; [apply IH; rewrite ?Hp2, ?HD, ?Ht2; try done || lia|].
    + intros n Hn'. apply Hbusy. lia.
    + intros r s4 (H4&Hb&Hi). split; [|done]. etrans; [by apply lock_frame_rel|done].
Qed.

(** C15: [shm_lock] is deadlock free: if the mutex is free from some call on, it
    returns within the corresponding number of attempts; it never returns
    EBUSY, on success the caller is recorded as the owner, and the cache keeps
    its entries unless a probe found the previous owner dead. *)
Theorem lock_returns attempts s es n0 :
  inv s es → released_by n0 → (n0 - ticks s < attempts)%nat →
  wp (shm_lock attempts) (λ r s', r ≠ EBUSY ∧ (r = 0 → lock_pid (memory s') = pid s) ∧
    ((∀ n p, os_kill0 n p = 0) → inv s' es ∧ lock_frame s s') ∧
    (inv s' es ∨ inv s' [])) s.
Proof.
  intros Hi Hrel Hn. eapply wp_mono; [by apply (lock_spec attempts s n0); [eapply inv_clearable|..]|].
  intros r s' ((_&_&H)&Hb&Hp&_). split_and!; [done..| |].
  - intros Hk. destruct H as [H|[_ (n&m&p&_&Hd&_)]]; [|by destruct Hd]. eauto using lock_frame_inv.
  - destruct H as [H|[H _]]; [left|by right]. by eapply lock_frame_inv.
Qed.

(** C14: recovery: when the recorded owner died holding the mutex, a waiter
    that finds the mutex busy for [detect_deadlock_clocks + 1] attempts clears
    the table, and the cache it then locks is a well-formed empty one.  The
    owner may have left the buckets, the chains, the recycle list, the positions
    of the queues, the bytes used in each striping, the counters and the entries
    in any state; what [clearable] asks for is that the numbers of segments and
    stripings fit together and the waiter has mapped its segments, which excludes
    an owner that died while it added a segment (shmopt.c:72-105). *)
Theorem lock_recovers_dead_owner attempts s n0 :
  clearable s → released_by n0 → (n0 - ticks s < attempts)%nat →
  lock_file_available → 0 < lock_pid (memory s) → dead (lock_pid (memory s)) →
  0 ≤ detect_deadlock_clocks s →
  (∀ n, (ticks s ≤ n ≤ ticks s + Z.to_nat (detect_deadlock_clocks s))%nat →
     pthread_mutex_trylock n = EBUSY) →
  wp (shm_lock attempts) (λ r s', r ≠ EBUSY ∧ inv s' [] ∧
    (r = 0 → lock_pid (memory s') = pid s)) s.
Proof.
  intros Hc Hrel Hn Hav Hpos Hd HD Hbusy. unfold shm_lock. wp_simpl.
  set (s1 := s <| memory; stats; stats_lock; lock_total ::= Z.succ |>).
  eapply wp_mono; [apply (lock_loop_recovers attempts 0 s1 n0); try done|].
  - intros n Hn'. apply Hbusy. cbn in Hn'. by rewrite Z.sub_0_r in Hn'.
  - intros r s2 ((Hcf&_)&Hb&Hi). wp_simpl. destruct (Z.eqb_spec r 0); wp_simpl; [|done].
    split_and!; [done| |intros _; by destruct Hcf]. eapply lock_frame_inv, Hi. apply lock_frame_pid.
Qed.

End Lock.
