(* ===== verification/LockProtocol.v ===== *)
(** * The lock among several processes (src/shm_lock.c, 98-183)

    Lock.v models the calls of one process, with what the others do hidden in
    the answers of the environment.  Here the processes are explicit: each is
    at a point between two accesses to the words they share - the mutex,
    [lock.pid] and the file lock - and one step of one process makes one such
    access.  A process may die at any point; the kernel then releases its file
    lock, and nothing else.  Process ids are positive and are not used again. *)
From S2P Require Import Prelude Types.
From stdpp Require Import relations.
Local Open Scope Z_scope.
Local Open Scope shm_scope.

(** ** Where a process is *)
Inductive lock_point :=
| Idle                                (** outside of the lock *)
| Trying (clocks : Z)                 (** line 141: about to try the mutex *)
| Busy (clocks : Z)                   (** line 145: it was busy, [clocks] counted *)
| Probing (owner : Z)                 (** line 149: about to probe [owner] *)
| Wait_file (owner : Z)               (** line 102: [owner] is dead *)
| Checking (owner : Z)                (** line 106: file lock held *)
| Clearing                            (** line 108: [lock.pid] reset, clears the table *)
| Unlock_mutex                        (** line 113 *)
| Unlock_file                         (** line 129 *)
| Acquired                            (** line 160: mutex taken, [lock.pid] not yet set *)
| Critical                            (** line 168 on: [lock.pid] set, the caller's work *)
| Releasing                           (** line 176: [lock.pid] reset, mutex still held *)
| Dead.

(** the shared words and the point of every process *)
Record lock_state := Lock_state {
  l_mutex : option Z;
  l_pid : Z;
  l_file : option Z;
  l_point : Z → lock_point;
}.
#[export] Instance eta_lock_state : Settable lock_state := λ s, Lock_state
  (l_mutex s) (l_pid s) (l_file s) (l_point s).

Definition goto (p : Z) (pt : lock_point) (s : lock_state) : lock_state :=
  s <| l_point := λ q, if decide (q = p) then pt else l_point s q |>.

Section protocol.
(** [detect_deadlock_clocks] of the contexts *)
Context (clocks_max : Z).

(** one step of process [p], at the point [pt] *)
Inductive lock_step_at (p : Z) (s : lock_state) : lock_point → lock_state → Prop :=
(** shm_lock *)
| Step_begin : lock_step_at p s Idle (goto p (Trying 0) s)
| Step_try_busy c : l_mutex s ≠ None → lock_step_at p s (Trying c) (goto p (Busy (c + 1)) s)
| Step_try_ok c : l_mutex s = None →
    lock_step_at p s (Trying c) (goto p Acquired (s <| l_mutex := Some p |>))
| Step_try_error c : lock_step_at p s (Trying c) (goto p Idle s)
| Step_wait c : ¬ (clocks_max < c ∧ 0 < l_pid s) → lock_step_at p s (Busy c) (goto p (Trying c) s)
| Step_suspect c : clocks_max < c → 0 < l_pid s →
    lock_step_at p s (Busy c) (goto p (Probing (l_pid s)) s)
| Step_alive o : lock_step_at p s (Probing o) (goto p (Trying 0) s)
| Step_dead o : l_point s o = Dead → lock_step_at p s (Probing o) (goto p (Wait_file o) s)
| Step_own : lock_step_at p s Acquired (goto p Critical (s <| l_pid := p |>))
(** shm_detect_deadlock *)
| Step_file_fails o : lock_step_at p s (Wait_file o) (goto p (Trying 0) s)
| Step_file o : l_file s = None →
    lock_step_at p s (Wait_file o) (goto p (Checking o) (s <| l_file := Some p |>))
| Step_same o : l_pid s = o → lock_step_at p s (Checking o) (goto p Clearing (s <| l_pid := 0 |>))
| Step_other o : l_pid s ≠ o → lock_step_at p s (Checking o) (goto p Unlock_file s)
| Step_clear : lock_step_at p s Clearing (goto p Unlock_mutex s)
| Step_unlock_mutex : lock_step_at p s Unlock_mutex (goto p Unlock_file (s <| l_mutex := None |>))
| Step_unlock_error : lock_step_at p s Unlock_mutex (goto p Unlock_file s)
| Step_unlock_file : lock_step_at p s Unlock_file (goto p (Trying 0) (s <| l_file := None |>))
(** shm_unlock *)
| Step_release : lock_step_at p s Critical (goto p Releasing (s <| l_pid := 0 |>))
| Step_unlock : lock_step_at p s Releasing (goto p Idle (s <| l_mutex := None |>)).

(** the death of [p] *)
Definition die (p : Z) (s : lock_state) : lock_state :=
  goto p Dead (s <| l_file ::= λ f, if decide (f = Some p) then None else f |>).

Inductive lock_step : lock_state → lock_state → Prop :=
| Run p s s' : 0 < p → lock_step_at p s (l_point s p) s' → lock_step s s'
| Die p s : 0 < p → lock_step s (die p s).

(** after [shm_lock_init] *)
Definition lock_initial : lock_state := Lock_state None 0 None (λ _, Idle).
Definition lock_reachable (s : lock_state) : Prop := rtc lock_step lock_initial s.

(** ** The invariant *)
Definition holds_mutex (pt : lock_point) : Prop :=
  match pt with Acquired | Critical | Releasing => True | _ => False end.
Definition holds_file (pt : lock_point) : Prop :=
  match pt with Checking _ | Clearing | Unlock_mutex | Unlock_file => True | _ => False end.
Definition recovering (pt : lock_point) : Prop :=
  match pt with Clearing | Unlock_mutex => True | _ => False end.
Definition suspects (pt : lock_point) (o : Z) : Prop :=
  pt = Wait_file o ∨ pt = Checking o.

Record lock_inv (s : lock_state) : Prop := {
  li_mutex : ∀ p, holds_mutex (l_point s p) → l_mutex s = Some p;
  li_owner : ∀ o, l_pid s = o → o ≠ 0 →
    0 < o ∧ l_mutex s = Some o ∧ (l_point s o = Critical ∨ l_point s o = Dead);
  li_critical : ∀ p, l_point s p = Critical → l_pid s = p;
  li_file : ∀ p, holds_file (l_point s p) → l_file s = Some p;
  li_recovering : ∀ p, recovering (l_point s p) →
    l_pid s = 0 ∧ ∃ d, l_mutex s = Some d ∧ l_point s d = Dead;
  li_probing : ∀ p o, l_point s p = Probing o → 0 < o;
  li_suspects : ∀ p o, suspects (l_point s p) o → 0 < o ∧ l_point s o = Dead;
}.

Lemma lock_inv_initial : lock_inv lock_initial.
Proof. split; cbn; try done. by intros p o [|]. Qed.

(** split on which process a fact is about *)
Ltac whose :=
  repeat match goal with
  | |- context [decide (?a = ?b)] => destruct (decide (a = b)); subst; cbn
  | H : context [decide (?a = ?b)] |- _ => destruct (decide (a = b)); subst; cbn in H
  end.
(** what the invariant says in a state where [p], alive, is about to run *)
Record lock_facts (p : Z) (s : lock_state) : Prop := {
  lf_alive : l_point s p ≠ Dead;
  lf_unsuspected : ∀ q, ¬ suspects (l_point s q) p;
  lf_own : l_pid s = p → l_point s p = Critical;
  lf_recovering : ∀ q, recovering (l_point s q) → l_file s = Some q ∧ l_pid s = 0 ∧
    ∃ d, d ≠ p ∧ l_mutex s = Some d ∧ l_point s d = Dead;
  lf_critical : ∀ q, l_point s q = Critical → l_mutex s = Some q ∧ l_pid s = q;
}.
Lemma lock_facts_of p s : 0 < p → lock_inv s → l_point s p ≠ Dead → lock_facts p s.
Proof.
  intros Hp [Hm Ho Hc Hf Hr Hpr Hsu] Hpd. split.
  - done.
  - intros q Hq. by destruct (Hsu q p Hq).
  - intros Hpid. destruct (Ho p Hpid ltac:(lia)) as (_&_&[|]); done.
  - intros q Hq. destruct (Hr q Hq) as (?&d&?&?).
    split; [apply Hf; by destruct (l_point s q)|]. split; [done|]. exists d. split; [congruence|done].
  - intros q Hq. split; [apply Hm; by rewrite Hq|by apply Hc].
Qed.

Lemma lock_inv_run p s s' : 0 < p → lock_inv s → lock_step_at p s (l_point s p) s' → lock_inv s'.
Proof.
  intros Hp Hinv Hs.
  destruct (lock_facts_of p s Hp Hinv) as [Hpd Hns Hown Hrec Hcr]; [intros Heq; rewrite Heq in Hs; inversion Hs|].
  destruct Hinv as [Hm Ho Hc Hf _ Hpr Hsu].
  pose proof (Hm p) as Hmp; pose proof (Hf p) as Hfp; pose proof (Hrec p) as Hrp;
    pose proof (Hpr p) as Hprp; pose proof (Hsu p) as Hsup; pose proof (Hc p) as Hcp.
  inversion Hs as [Hpt|c Hb Hpt|c Hb Hpt|c Hpt|c Hb Hpt|c Hb1 Hb2 Hpt|o Hpt|o Hb Hpt|Hpt|
    o Hpt|o Hb Hpt|o Hb Hpt|o Hb Hpt|Hpt|Hpt|Hpt|Hpt|Hpt|Hpt]; subst s'; clear Hs.
  all: rewrite <-Hpt in Hmp, Hfp, Hrp, Hprp, Hsup, Hcp, Hpd, Hown; cbn in Hmp, Hfp, Hrp.
  all: try specialize (Hmp I); try specialize (Hfp I); try specialize (Hcp eq_refl);
    try specialize (Hprp _ eq_refl); try destruct (Hrp I) as (_&?&d0&?&?&Hd0);
    try destruct (Hsup _ (or_introl eq_refl)); try destruct (Hsup _ (or_intror eq_refl)).
  all: split; [intros q|intros o' Hpid Hne|intros q|intros q|intros q|intros q o'|intros q o'];
    cbn in *; whose; try done.
  (* what another process knows still holds, or it would be this process *)
  all: try (intros; exfalso; congruence).
  all: try (by eauto).
  all: try (intros Hq; first [by destruct (Hns _ Hq) | pose proof (Hm _ Hq); congruence
    | pose proof (Hf _ Hq); congruence | destruct (Hcr _ Hq); congruence
    | destruct (Hrec _ Hq) as (?&?&d&?&?&?); first [congruence | split; [congruence|exists d; by whose]]]).
  all: try (by specialize (Hown eq_refl)).
  all: try (destruct (Ho _ eq_refl Hne) as (?&?&?); exfalso; intuition congruence).
  (* the point this process has reached *)
  all: try (intros [[=]|[=]]; subst; solve [by split | congruence]).
  all: try (intros [= <-]; done).
  - intros _. destruct (Ho _ eq_refl ltac:(lia)) as (_&?&_). split; [done|].
    exists (l_pid s). split; [done|]. case_decide; congruence.
  - intros _. split; [done|]. exists d0. by whose.
  - intros Hq. pose proof (Hm q Hq). assert (q = d0) as -> by congruence. by rewrite Hd0 in Hq.
Qed.

Lemma lock_inv_die p s : 0 < p → lock_inv s → lock_inv (die p s).
Proof.
  intros Hp [Hm Ho Hc Hf Hr Hpr Hsu].
  split; [intros q|intros o' Hpid Hne|intros q|intros q|intros q|intros q o'|intros q o'];
    cbn in *; whose; try done; try (by eauto); try (by intros [|]).
  - destruct (Ho _ eq_refl Hne) as (?&?&_). auto.
  - intros Hq. pose proof (Hf q Hq). congruence.
  - intros Hq. destruct (Hr q Hq) as (?&d&?&?). split; [done|]. exists d. by whose.
Qed.

Lemma lock_inv_reachable s : lock_reachable s → lock_inv s.
Proof.
  intros H. assert (∀ s1 s2, rtc lock_step s1 s2 → lock_inv s1 → lock_inv s2) as Hstep;
    [|exact (Hstep _ _ H lock_inv_initial)].
  induction 1 as [|s1 s2 s3 [p s4 s2' Hp Hs|p s4 Hp] _ IH]; intros Hi; [done|apply IH..].
  - by eapply lock_inv_run.
  - by apply lock_inv_die.
Qed.

(** the processes that may write to the table *)
Definition in_section (pt : lock_point) : Prop := holds_mutex pt ∨ pt = Clearing.

(** C9: whatever the processes do and whenever they die, at most one is inside
    the lock or clearing the table for a dead owner. *)
Theorem lock_mutual_exclusion s p q :
  lock_reachable s → in_section (l_point s p) → in_section (l_point s q) → p = q.
Proof.
  intros Hs. pose proof (lock_inv_reachable s Hs) as [Hm _ _ Hf Hr _ _].
  assert (∀ a b, holds_mutex (l_point s a) → l_point s b = Clearing → False) as Hno.
  { intros a b Ha Hb. destruct (Hr b) as (_&d&Hd&Hdd); [by rewrite Hb|].
    pose proof (Hm a Ha). assert (a = d) as -> by congruence. by rewrite Hdd in Ha. }
  intros [Hp|Hp] [Hq|Hq]; try (exfalso; by eauto).
  - pose proof (Hm p Hp). pose proof (Hm q Hq). congruence.
  - pose proof (Hf p) as H1. pose proof (Hf q) as H2. rewrite Hp in H1. rewrite Hq in H2.
    specialize (H1 I). specialize (H2 I). congruence.
Qed.

(** ** Who holds the mutex and the file lock *)
Record lock_held (s : lock_state) : Prop := {
  lh_mutex : ∀ o, l_mutex s = Some o → 0 < o ∧ (holds_mutex (l_point s o) ∨ l_point s o = Dead);
  lh_file : ∀ q, l_file s = Some q → 0 < q ∧ holds_file (l_point s q);
}.
Lemma lock_held_reachable s : lock_reachable s → lock_held s.
Proof.
  intros H. assert (∀ s1 s2, rtc lock_step s1 s2 → lock_held s1 → lock_held s2) as Hstep;
    [|by apply (Hstep _ _ H); split].
  induction 1 as [|s1 s2 s3 [p s4 s2' Hp Hs|p s4 Hp] _ IH]; intros [Hm Hf]; [done|apply IH..].
  - pose proof (Hm p) as Hmp. pose proof (Hf p) as Hfp.
    inversion Hs as [Hpt|c ? Hpt|c ? Hpt|c Hpt|c ? Hpt|c ? ? Hpt|o Hpt|o ? Hpt|Hpt|
      o Hpt|o ? Hpt|o ? Hpt|o ? Hpt|Hpt|Hpt|Hpt|Hpt|Hpt|Hpt]; subst s2'; rewrite <-Hpt in Hmp, Hfp; cbn in Hmp, Hfp;
      (split; intros o'; cbn; whose; intuition (simplify_eq/=; auto)).
    all: try (by apply Hm); try (by apply Hf).
  - split; intros o; cbn; whose; intuition (simplify_eq/=; auto).
    all: try (by apply Hm); try (by apply Hf).
Qed.

(** ** The lock can be lost, and only then is it *)
(** an owner that died with [lock.pid] = 0 and that nobody recovers from *)
Definition lost (s : lock_state) : Prop :=
  l_pid s = 0 ∧ (∃ d, l_mutex s = Some d ∧ l_point s d = Dead) ∧ ∀ q, ¬ recovering (l_point s q).

Lemma lost_forever s s' : lock_inv s → lost s → rtc lock_step s s' → lock_inv s' ∧ lost s'.
Proof.
  intros Hi Hl H. induction H as [|s1 s2 s3 Hs _ IH]; [done|].
  apply IH; destruct Hs as [p s4 s2 Hp Hs|p s4 Hp]; try by (eauto using lock_inv_run, lock_inv_die).
  - destruct Hi as [Hm Ho Hc Hf _ Hpr Hsu], Hl as (H0&(d&Hd&Hdd)&Hrec).
    pose proof (Hm p) as Hmp; pose proof (Hrec p) as Hrp; pose proof (Hsu p) as Hsup.
    inversion Hs as [Hpt|c ? Hpt|c ? Hpt|c Hpt|c ? Hpt|c ? ? Hpt|o Hpt|o ? Hpt|Hpt|
      o Hpt|o ? Hpt|o Hb Hpt|o ? Hpt|Hpt|Hpt|Hpt|Hpt|Hpt|Hpt]; subst s2; rewrite <-Hpt in Hmp, Hrp, Hsup; cbn in Hmp, Hrp;
      try (by destruct Hrp); try (specialize (Hmp I); congruence); try congruence;
      try (destruct (Hsup o (or_intror eq_refl)); lia);
      (split; [done|split; [exists d|intros q]; cbn; whose; try first [done|congruence|by apply Hrec]]).
  - destruct Hl as (H0&(d&Hd&Hdd)&Hrec).
    split; [done|split; [exists d|intros q]; unfold die; cbn; whose; first [done|tauto|by apply Hrec]].
Qed.

(** C17: a process that dies between taking the mutex (shm_lock.c:141) and
    recording itself in [lock.pid] (161), between resetting [lock.pid] (175) and
    releasing the mutex (176), or between the two steps of a recovery, loses the
    lock for good: from such a reachable state, no process is ever inside again. *)
Theorem lock_can_be_lost : ∃ s, lock_reachable s ∧
  ∀ s', rtc lock_step s s' → ∀ p, ¬ in_section (l_point s' p).
Proof.
  exists (die 1 (goto 1 Acquired (goto 1 (Trying 0) lock_initial <| l_mutex := Some 1 |>))).
  assert (lock_reachable (die 1 (goto 1 Acquired (goto 1 (Trying 0) lock_initial <| l_mutex := Some 1 |>)))) as Hr.
  { eapply rtc_l; [apply (Run 1); [lia|apply Step_begin]|].
    eapply rtc_l; [apply (Run 1); [lia|by apply Step_try_ok]|].
    apply rtc_once. by apply Die. }
  split; [exact Hr|]. intros s' Hs' p Hp.
  edestruct lost_forever as [Hi (_&(d&Hd&Hdd)&Hrec)]; [exact (lock_inv_reachable _ Hr)| |exact Hs'|].
  - split; [done|]. split; [by exists 1|]. intros q. unfold die; cbn. whose; tauto.
  - destruct Hp as [Hp|Hp]; [|by apply (Hrec p); rewrite Hp].
    pose proof (li_mutex _ Hi p Hp). assert (p = d) as -> by congruence. by rewrite Hdd in Hp.
Qed.

(** ** Otherwise a waiting process can get the lock *)
Definition can_enter (p : Z) (s : lock_state) : Prop :=
  ∃ s', rtc lock_step s s' ∧ l_point s' p = Critical.
Lemma can_run q s s' p : 0 < q → lock_step_at q s (l_point s q) s' → can_enter p s' → can_enter p s.
Proof. intros Hq Hs (t&Ht&?). exists t. split; [|done]. eapply rtc_l; [by eapply Run|done]. Qed.

(** the point of a process after the others moved *)
Ltac at_point := cbn; repeat (case_decide; try congruence); try done.
Lemma can_enter_free p s c :
  0 < p → l_mutex s = None → l_point s p = Trying c → can_enter p s.
Proof.
  intros Hp Hm Hpt.
  eapply (can_run p); [done|rewrite Hpt; by apply Step_try_ok|].
  eexists. split; [|].
  { apply rtc_once. apply (Run p); [done|]. at_point. apply Step_own. }
  at_point.
Qed.

Lemma can_enter_released p s q c :
  0 < p → 0 < q → l_point s q = Releasing → l_point s p = Trying c → can_enter p s.
Proof.
  intros Hp Hq Hqt Hpt. eapply (can_run q); [done|rewrite Hqt; apply Step_unlock|].
  eapply (can_enter_free _ _ c); at_point.
Qed.
Lemma can_enter_holder p s q c :
  0 < p → 0 < q → holds_mutex (l_point s q) → l_point s p = Trying c → can_enter p s.
Proof.
  intros Hp Hq Hqt Hpt.
  assert (∀ s, l_point s q = Critical → l_point s p = Trying c → can_enter p s) as Hc.
  { clear Hqt Hpt s. intros s Hqt Hpt. eapply (can_run q); [done|rewrite Hqt; apply Step_release|].
    eapply (can_enter_released _ _ q c); at_point. }
  destruct (l_point s q) eqn:Heq; try done.
  - eapply (can_run q); [done|rewrite Heq; apply Step_own|]. apply Hc; at_point.
  - by apply Hc.
  - by eapply can_enter_released.
Qed.

Lemma can_enter_unlocked p s q c :
  0 < p → 0 < q → l_point s q = Unlock_mutex → l_point s p = Trying c → can_enter p s.
Proof.
  intros Hp Hq Hqt Hpt. eapply (can_run q); [done|rewrite Hqt; apply Step_unlock_mutex|].
  eapply (can_enter_free _ _ c); at_point.
Qed.
Lemma can_enter_recovering p s q c :
  0 < p → 0 < q → recovering (l_point s q) → l_point s p = Trying c → can_enter p s.
Proof.
  intros Hp Hq Hqt Hpt. destruct (l_point s q) eqn:Heq; try done; [|by eapply can_enter_unlocked].
  eapply (can_run q); [done|rewrite Heq; apply Step_clear|].
  eapply (can_enter_unlocked _ _ q c); at_point.
Qed.

(** [p] recovers the lock of a dead owner by itself when the file lock is free *)
Lemma can_enter_by_recovery n p s c :
  (Z.to_nat (clocks_max - c) ≤ n)%nat →
  0 < p → 0 < l_pid s → l_mutex s ≠ None → l_point s (l_pid s) = Dead → l_file s = None →
  l_point s p = Trying c → can_enter p s.
Proof.
  revert s c. induction n as [|n IH]; intros s c Hn Hp Hpid Hm Hd Hf Hpt.
  all: assert (l_pid s ≠ p) by congruence.
  all: eapply (can_run p); [done|rewrite Hpt; by apply Step_try_busy|].
  all: destruct (decide (clocks_max < c + 1)); [|try lia].
  3: { eapply (can_run p); [done|at_point; apply Step_wait; cbn; lia|]. apply (IH _ (c + 1)); at_point. lia. }
  all: eapply (can_run p); [done|at_point; by apply Step_suspect|].
  all: eapply (can_run p); [done|at_point; apply Step_dead; at_point|].
  all: eapply (can_run p); [done|at_point; by apply Step_file|].
  all: eapply (can_run p); [done|at_point; by apply Step_same|].
  all: eapply (can_run p); [done|at_point; apply Step_clear|].
  all: eapply (can_run p); [done|at_point; apply Step_unlock_mutex|].
  all: eapply (can_run p); [done|at_point; apply Step_unlock_file|].
  all: eapply (can_enter_free _ _ 0); at_point.
Qed.

(** C16: in every reachable state in which the lock is not lost, every process
    that waits for it can still get it: whoever holds it leaves, a dead owner is
    recovered from, and a file lock is given back. *)
Theorem lock_recoverable s p c :
  lock_reachable s → 0 < p → l_point s p = Trying c → ¬ lost s → can_enter p s.
Proof.
  intros Hs Hp Hpt Hl.
  pose proof (lock_inv_reachable s Hs) as [_ Ho _ Hf _ _ _].
  pose proof (lock_held_reachable s Hs) as [Hm Hlf].
  destruct (l_mutex s) as [d|] eqn:Hmu; [|by eapply can_enter_free].
  destruct (Hm d eq_refl) as [Hd [Hh|Hdd]]; [by eapply can_enter_holder|].
  (* whoever has the file lock gives it back, or recovers *)
  assert (recovering_or_free : (∃ q, 0 < q ∧ recovering (l_point s q)) ∨ ∀ q, ¬ recovering (l_point s q)).
  { destruct (l_file s) as [q|] eqn:Hfs.
    - destruct (Hlf q eq_refl) as [Hq Hh].
      assert (∀ q', recovering (l_point s q') → q' = q) as Hq'.
      { intros q' Hq'. assert (Some q = Some q') as [= ->]; [|done]. apply Hf. by destruct (l_point s q'). }
      destruct (l_point s q) eqn:Heq; try done.
      1, 4: right; intros q' Hr; rewrite (Hq' q' Hr), Heq in Hr; done.
      all: left; exists q; by rewrite Heq.
    - right. intros q Hr. assert (None = Some q); [|done]. apply Hf. by destruct (l_point s q). }
  destruct recovering_or_free as [(q&Hq&Hr)|Hnr]; [by eapply can_enter_recovering|].
  destruct (decide (l_pid s = 0)) as [H0|H0]; [by destruct Hl; split_and!; eauto|].
  destruct (Ho _ eq_refl H0) as (Hpos&Heq&_). injection Heq as ->.
  destruct (l_file s) as [q|] eqn:Hfs.
  2: { eapply can_enter_by_recovery; [reflexivity|try done..]. by rewrite Hmu. }
  destruct (Hlf q eq_refl) as [Hq Hh]. assert (q ≠ p) by (intros ->; by rewrite Hpt in Hh).
  assert (q ≠ l_pid s) by (intros ->; by rewrite Hdd in Hh).
  assert (∀ s', l_point s' q = Unlock_file → l_point s' p = Trying c → l_pid s' = l_pid s →
    l_mutex s' ≠ None → l_point s' (l_pid s) = Dead → can_enter p s') as Hfree.
  { intros s' Hq' Hp' Hpid' Hm' Hd'. eapply (can_run q); [done|rewrite Hq'; apply Step_unlock_file|].
    eapply (can_enter_by_recovery _ _ _ c); [reflexivity|..]; at_point; congruence. }
  destruct (l_point s q) as [| | | | |o| | | | | | |] eqn:Hqt; try done; [|by destruct (Hnr q); rewrite Hqt..|].
  - destruct (decide (l_pid s = o)).
    + eapply (can_run q); [done|rewrite Hqt; by apply Step_same|].
      eapply (can_enter_recovering _ _ q c); at_point.
    + eapply (can_run q); [done|rewrite Hqt; by apply Step_other|].
      apply Hfree; at_point. by rewrite Hmu.
  - apply Hfree; try done. by rewrite Hmu.
Qed.
End protocol.
