(* ===== verification/CacheTable.v ===== *)
(** * What the hash table promises to the exported operations

    Seen from outside, a cache is the list of its records in the order of the
    recycle list.  [CacheLaws] states, for a representation predicate between
    states and such lists, what every table operation does to the list; the
    exported operations are verified against it.  [rep] is the representation
    the invariant gives, and [rep_laws] its laws. *)
From S2P Require Import Prelude Types ObjectPool Shmopt OpWrapper HentryOffset ShmList Invariant HashTable Recycle Lock.
Local Open Scope Z_scope.
Local Open Scope shm_scope.

(** ** The abstract cache *)
#[export] Instance has_key_dec key r : Decision (has_key key r).
Proof. unfold has_key. apply _. Defined.

(** the record with the key *)
Fixpoint find_key (key : list ascii) (l : list shmcache_hash_entry) : option shmcache_hash_entry :=
  match l with
  | [] => None
  | r :: l => if decide (has_key key r) then Some r else find_key key l
  end.
(** change the record with the key *)
Definition update_key (key : list ascii) (f : shmcache_hash_entry → shmcache_hash_entry)
    (l : list shmcache_hash_entry) : list shmcache_hash_entry :=
  (λ r, if decide (has_key key r) then f r else r) <$> l.
Definition keys_of (l : list shmcache_hash_entry) : list (list ascii) :=
  (λ r, key_data (entry_key r)) <$> l.

(** storing: the new record is last, in place of the one with its key; some
    others may have been recycled.  A failure stores nothing, and one of the
    arguments changes nothing; [limit] is the configured size of a value. *)
Definition abs_set (limit : Z) (key : shmcache_key_info) (value : shmcache_value_info)
    (l : list shmcache_hash_entry) (r : Z) (l' : list shmcache_hash_entry) : Prop :=
  if decide (r = 0) then
    ∃ l0, l0 `sublist_of` without (key_data key) l ∧ l' = l0 ++ [new_record key value]
  else set_failure limit key value l r l'.

Lemma find_key_none key l : find_key key l = None ↔ key ∉ keys_of l.
Proof.
  induction l as [|r l IH]; cbn [find_key keys_of fmap list_fmap].
  - split; [intros _; apply not_elem_of_nil|done].
  - rewrite not_elem_of_cons. unfold has_key. case_decide; naive_solver.
Qed.
Lemma find_key_some key l1 r l2 :
  key_data (entry_key r) = key → key ∉ keys_of l1 → find_key key (l1 ++ r :: l2) = Some r.
Proof.
  intros Hk. induction l1 as [|r1 l1 IH]; cbn [app find_key]; intros Hn.
  - by rewrite decide_True.
  - unfold keys_of in Hn. rewrite fmap_cons, not_elem_of_cons in Hn. destruct Hn.
    rewrite decide_False; [by apply IH|]. unfold has_key. congruence.
Qed.
Lemma find_key_app_new key l r : key ∉ keys_of l → has_key key r → find_key key (l ++ [r]) = Some r.
Proof. intros. by apply find_key_some. Qed.
Lemma keys_without key l : key ∉ keys_of (without key l).
Proof.
  intros (r&->&[Hn _]%list_elem_of_filter)%list_elem_of_fmap. by apply Hn.
Qed.

Section laws.
Context `{E : Env} `{L : !EnvLaws E}.

(** a reading of the clock *)
Definition clock (now : Z) : Prop := ∃ n, now = get_current_time n.

(** [*value] of a get refers to the bytes of the entry in the segment *)
Definition refers (s : shmcache_context) (vr : value_ref) (v : shmcache_value_info) : Prop :=
  vr_length vr = v_length v ∧ vr_options vr = v_options v ∧ vr_expires vr = v_expires v ∧
  ∃ p, vr_data vr = Some p ∧ in_segment s p (v_length v) = true ∧
    read_bytes (payload s) p (Z.to_nat (v_length v)) = v_data v.
Definition get_outcome (s : shmcache_context) (l : list shmcache_hash_entry) (key : list ascii)
    (r : Z * option value_ref) : Prop :=
  match find_key key l with
  | None => r = (ENOENT, None)
  | Some rec => ∃ now vr, clock now ∧ refers s vr (entry_value rec) ∧
      r = (if HT_ENTRY_IS_VALID (v_expires (entry_value rec)) now then 0 else ETIMEDOUT, Some vr)
  end.
Definition set_expires_outcome (l : list shmcache_hash_entry) (key : list ascii) (x r : Z)
    (l' : list shmcache_hash_entry) : Prop :=
  match find_key key l with
  | None => r = ENOENT ∧ l' = l
  | Some rec => ∃ now, clock now ∧
      if HT_ENTRY_IS_VALID (v_expires (entry_value rec)) now
      then r = 0 ∧ l' = update_key key (with_expires x) l
      else r = ETIMEDOUT ∧ l' = l
  end.

(** the words the exported operations change themselves: the lock, the
    statistics and what the calls to the kernel count *)
Definition api_frame (s s' : shmcache_context) : Prop := ∃ n fds fd p st,
  s' = s <| ticks := n |> <| open_fds := fds |> <| lock_fd := fd |>
         <| memory; lock_pid := p |> <| memory; stats := st |>.
#[export] Instance api_frame_preorder : PreOrder api_frame.
Proof.
  split.
  - intros s. exists (ticks s), (open_fds s), (lock_fd s), (lock_pid (memory s)), (stats (memory s)).
    by destruct s as [????[]].
  - intros s1 s2 s3 (n&f&d&p&l&->) (n2&f2&d2&p2&l2&->). by exists n2, f2, d2, p2, l2.
Qed.
Lemma lock_frame_api s s' : lock_frame s s' → api_frame s s'.
Proof.
  intros (n&f&d&p&l&->&_). exists n, f, d, p, ((stats (memory s)) <| stats_lock := l |>).
  by destruct s as [????[]].
Qed.
Lemma api_frame_stats s f : api_frame s (s <| memory; stats ::= f |>).
Proof.
  exists (ticks s), (open_fds s), (lock_fd s), (lock_pid (memory s)), (f (stats (memory s))).
  by destruct s as [????[]].
Qed.
Lemma api_frame_ticks s : api_frame s (s <| ticks ::= S |>).
Proof.
  exists (S (ticks s)), (open_fds s), (lock_fd s), (lock_pid (memory s)), (stats (memory s)).
  by destruct s as [????[]].
Qed.
Lemma api_frame_refers s s' vr v : api_frame s s' → refers s vr v → refers s' vr v.
Proof. by intros (?&?&?&?&?&->). Qed.

(** ** Storing without loss *)
(** the key and value are within the limits, and there is a free slot and room
    for the entry, or a segment may be added for it *)
Definition storable_in (s : shmcache_context) (l : list shmcache_hash_entry)
    (key : shmcache_key_info) (value : shmcache_value_info) : Prop :=
  key_length key ≤ SHMCACHE_MAX_KEY_SIZE ∧ v_length value ≤ max_value_size (config s) ∧
  Z.of_nat (length l) < max_key_count (config s) ∧
  lossless s (entry_size (key_length key) (v_length value)).
(** the record is added and every other one stays, or no segment could be added
    and nothing changes *)
Definition set_exactly (s : shmcache_context) (l : list shmcache_hash_entry)
    (key : shmcache_key_info) (value : shmcache_value_info) (r : Z) (s' : shmcache_context)
    (l' : list shmcache_hash_entry) : Prop :=
  r = 0 ∧ l' = without (key_data key) l ++ [new_record key value] ∨
  r = ENOMEM ∧ l' = l ∧ not_grown s (entry_size (key_length key) (v_length value)) s'.

Lemma api_frame_storable s s' l key value :
  api_frame s s' → storable_in s l key value → storable_in s' l key value.
Proof. by intros (?&?&?&?&?&->). Qed.
Lemma api_frame_room s s' size : api_frame s s' → has_room s size → has_room s' size.
Proof. by intros (?&?&?&?&?&->). Qed.

(** ** The interface *)
Class CacheLaws (Rep : shmcache_context → list shmcache_hash_entry → Prop) : Prop := {
  law_frame : ∀ s s' l, api_frame s s' → Rep s l → Rep s' l;
  law_clearable : ∀ s l, Rep s l → clearable s;
  law_mapping : ∀ s l, Rep s l → mapping_ok (cfg_type (config s));
  law_empty : ∀ s, inv s [] → mapping_ok (cfg_type (config s)) → Rep s [];
  law_count : ∀ s l, Rep s l → shm_ht_count s = Z.of_nat (length l);
  law_keys : ∀ s l, Rep s l → NoDup (keys_of l);
  law_get : ∀ s l key, Rep s l → key_ok key →
    wp (shm_ht_get key) (λ r s', (api_frame s s' ∧ memory s' = memory s) ∧ get_outcome s' l (key_data key) r) s;
  law_set : ∀ s l key value, Rep s l → key_ok key → value_ok value →
    wp (shm_ht_set key value) (λ r s', same_cache s s' ∧ ∃ l', Rep s' l' ∧
      abs_set (max_value_size (config s)) key value l r l' ∧
      (Z.of_nat (length l) ≤ max_key_count (config s) →
       Z.of_nat (length l') ≤ max_key_count (config s))) s;
  law_set_lossless : ∀ s l key value, Rep s l → key_ok key → value_ok value →
    storable_in s l key value →
    wp (shm_ht_set key value) (λ r s', same_cache s s' ∧ ∃ l', Rep s' l' ∧
      set_exactly s l key value r s' l') s;
  law_delete : ∀ s l key, Rep s l → key_ok key →
    wp (shm_ht_delete key) (λ r s', same_cache s s' ∧ Rep s' (without (key_data key) l) ∧
      r = if find_key (key_data key) l then 0 else ENOENT) s;
  law_set_expires : ∀ s l key x, Rep s l → key_ok key →
    wp (shm_ht_set_expires key x) (λ r s', same_cache s s' ∧ ∃ l', Rep s' l' ∧
      set_expires_outcome l (key_data key) x r l') s;
  law_clear : ∀ s l, Rep s l →
    wp shm_ht_clear (λ r s', same_cache s s' ∧ Rep s' [] ∧ r = Z.of_nat (length l)) s;
}.

(** ** The implementation *)
Definition rep (s : shmcache_context) (l : list shmcache_hash_entry) : Prop :=
  ∃ es, inv s es ∧ l = view s es ∧ mapping_ok (cfg_type (config s)).

Lemma length_view s es : length (view s es) = length es.
Proof. apply length_fmap. Qed.
Lemma keys_of_view s es : keys_of (view s es) = key_of s <$> es.
Proof. apply view_keys. Qed.
Lemma find_key_view s es o key :
  NoDup (key_of s <$> es) → finds s es key o → find_key key (view s es) = Some (record_of s o).
Proof.
  intros Hnd [Ho Hk]. apply list_elem_of_split in Ho as (l1&l2&->).
  unfold view. rewrite fmap_app, fmap_cons. apply find_key_some; [done|].
  change (record_of s <$> l1) with (view s l1). rewrite keys_of_view.
  rewrite fmap_app, fmap_cons, <-Permutation_middle in Hnd. apply NoDup_cons in Hnd as [Hn _].
  rewrite <-Hk. set_solver.
Qed.
Lemma inv_keys s es : inv s es → NoDup (key_of s <$> es).
Proof. by intros (_&_&_&_&(_&?&_)). Qed.
Lemma same_cache_mapping s s' : same_cache s s' →
  mapping_ok (cfg_type (config s)) → mapping_ok (cfg_type (config s')).
Proof. intros (_&->&_) H. exact H. Qed.

Lemma readable_refers s o : segs_ok s → readable s o →
  refers s (value_ref_of s o) (entry_value (record_of s o)).
Proof.
  intros Hs (_&_&Hv&_&Hp&_). split_and!; [done..|]. exists (value_ptr s o).
  split_and!; [done|by apply in_segment_true|done].
Qed.

Lemma rep_get s l key : rep s l → key_ok key →
  wp (shm_ht_get key) (λ r s', (api_frame s s' ∧ memory s' = memory s) ∧ get_outcome s' l (key_data key) r) s.
Proof.
  intros (es&Hinv&->&_) Hk. pose proof (inv_keys s es Hinv) as Hnd.
  eapply wp_mono; [by apply get_spec|].
  intros r s' [(Hn&->&->)|(o&Hf&->&->)].
  - split; [done|]. unfold get_outcome. by rewrite (proj2 (find_key_none _ _)) by by rewrite keys_of_view.
  - split; [split; [apply api_frame_ticks|done]|]. unfold get_outcome. rewrite (find_key_view _ _ o) by done.
    exists (get_current_time (ticks s)), (value_ref_of s o). split; [by eexists|]. split; [|done].
    pose proof Hinv as (Hg&_&Ha&_&Ht). pose proof (inv_readable s es es Hg Ha Ht ltac:(done)) as Hrd.
    rewrite Forall_forall in Hrd. eapply api_frame_refers; [apply api_frame_ticks|].
    apply readable_refers; [by apply geometry_segs|by apply Hrd, Hf].
Qed.

Lemma rep_set s l key value : rep s l → key_ok key → value_ok value →
  wp (shm_ht_set key value) (λ r s', same_cache s s' ∧ ∃ l', rep s' l' ∧
    abs_set (max_value_size (config s)) key value l r l' ∧ (Z.of_nat (length l) ≤ max_key_count (config s) →
       Z.of_nat (length l') ≤ max_key_count (config s))) s.
Proof.
  intros (es&Hinv&->&Hm) Hk Hv. eapply wp_mono; [by apply (set_spec key value s es)|].
  intros r s' (es'&Hinv'&Hsc&Hmax&Hr). split; [done|]. exists (view s' es').
  split; [exists es'; by eauto using same_cache_mapping|].
  rewrite !length_view. split; [exact Hr|exact Hmax].
Qed.

Lemma rep_set_lossless s l key value : rep s l → key_ok key → value_ok value →
  storable_in s l key value →
  wp (shm_ht_set key value) (λ r s', same_cache s s' ∧ ∃ l', rep s' l' ∧
    set_exactly s l key value r s' l') s.
Proof.
  intros (es&Hinv&->&Hm) Hk Hv (Hk64&Hvm&Hcnt&Hll). rewrite length_view in Hcnt. eapply wp_mono.
  { apply wp_and; [by apply (set_spec key value s es)|by apply (set_lossless_spec key value s es)]. }
  intros r s' [(_&_&Hsc&_) (es'&Hinv'&_&Hr)]. split; [done|]. exists (view s' es').
  split; [exists es'; by eauto using same_cache_mapping|exact Hr].
Qed.

Lemma rep_delete s l key : rep s l → key_ok key →
  wp (shm_ht_delete key) (λ r s', same_cache s s' ∧ rep s' (without (key_data key) l) ∧
    r = if find_key (key_data key) l then 0 else ENOENT) s.
Proof.
  intros (es&Hinv&->&Hm) Hk. pose proof (inv_keys s es Hinv) as Hnd. unfold shm_ht_delete. wp_simpl.
  eapply wp_mono; [by apply delete_ex_spec|]. intros [r b] s' (Hf&_&Hr). wp_simpl.
  pose proof (table_frame_same_cache _ _ Hf) as Hsc. split; [done|].
  destruct Hr as [[Hr (es'&l1&o&l2&->&Hko&->&Hinv'&Hag)]|(Hr&->&Hn)]; cbn in Hr; subst r.
  - rewrite (find_key_view s _ o) by (first [exact Hnd|split; [set_solver|done]]). split; [|done].
    exists (l1 ++ l2). split; [done|]. rewrite <-Hko, view_without_middle by done.
    rewrite (view_agree s s') by done. eauto using same_cache_mapping.
  - rewrite (proj2 (find_key_none _ _)) by by rewrite keys_of_view. split; [|done].
    exists es. by rewrite view_without.
Qed.

Lemma view_update s s' es o x :
  NoDup (key_of s <$> es) → o ∈ es → record_of s' o = with_expires x (record_of s o) →
  (∀ y, y ∈ es → y ≠ o → agree s s' y) →
  view s' es = update_key (key_of s o) (with_expires x) (view s es).
Proof.
  intros Hnd Ho Hr Hag. unfold view, update_key. rewrite <-list_fmap_compose.
  apply list_fmap_ext. intros i y Hy. cbn. unfold has_key.
  change (key_data (entry_key (record_of s y))) with (key_of s y).
  apply list_elem_of_lookup_2 in Hy. destruct (decide (y = o)) as [->|Hne].
  - by rewrite decide_True.
  - rewrite decide_False; [by apply agree_record, Hag|]. intros Heq. apply Hne.
    by eapply (finds_unique s es (key_of s o)).
Qed.

Lemma rep_set_expires s l key x : rep s l → key_ok key →
  wp (shm_ht_set_expires key x) (λ r s', same_cache s s' ∧ ∃ l', rep s' l' ∧
    set_expires_outcome l (key_data key) x r l') s.
Proof.
  intros (es&Hinv&->&Hm) Hk. pose proof (inv_keys s es Hinv) as Hnd.
  eapply wp_mono; [by apply set_expires_spec|]. unfold set_expires_outcome.
  intros r s' [(Hn&->&->)|(o&Hf&Hr)].
  - split; [done|]. exists (view s es). rewrite (proj2 (find_key_none _ _)) by by rewrite keys_of_view.
    split; [by exists es|done].
  - rewrite (find_key_view s es o) by done.
    change (v_expires (entry_value (record_of s o))) with (expires (hdr s o)).
    destruct (HT_ENTRY_IS_VALID _ _) eqn:Hval.
    + destruct Hr as (->&Hinv'&Hsc&Hrec&Hag&_). split; [done|].
      exists (view s' es). split; [exists es; by eauto using same_cache_mapping|].
      exists (get_current_time (ticks s)). split; [by eexists|]. rewrite Hval. split; [done|].
      destruct Hf as [Ho <-]. by apply view_update.
    + destruct Hr as [-> ->]. split; [done|]. exists (view s es). split; [by exists es|].
      exists (get_current_time (ticks s)). rewrite Hval. split; [by eexists|done].
Qed.

Lemma rep_clear s l : rep s l →
  wp shm_ht_clear (λ r s', same_cache s s' ∧ rep s' [] ∧ r = Z.of_nat (length l)) s.
Proof.
  intros (es&Hinv&->&Hm). eapply wp_mono; [by eapply clear_spec, inv_clearable|].
  intros r s' (->&Hinv'&Hsc&_). split_and!; [done|exists []; by eauto using same_cache_mapping|].
  unfold view. rewrite length_fmap. by destruct Hinv as (_&_&_&_&(_&_&_&(?&_))).
Qed.

#[export] Instance rep_laws : CacheLaws rep.
Proof.
  split.
  - intros s s' l (n&f&d&p&st&->) (es&Hinv&->&Hm). exists es. by split_and!.
  - intros s l (es&Hinv&_). by eapply inv_clearable.
  - by intros s l (es&_&_&?).
  - intros s Hinv Hm. by exists [].
  - intros s l (es&Hinv&->&_). unfold view. rewrite length_fmap.
    by destruct Hinv as (_&_&_&_&(_&_&_&(?&_))).
  - intros s l (es&Hinv&->&_). rewrite keys_of_view. by apply inv_keys.
  - exact rep_get.
  - exact rep_set.
  - exact rep_set_lossless.
  - exact rep_delete.
  - exact rep_set_expires.
  - exact rep_clear.
Qed.
End laws.

(** ** Properties *)
Section properties.
Context `{E : Env} `{L : !EnvLaws E}.
Implicit Types (l : list shmcache_hash_entry).

(** C6: storing is total and correct: [shm_ht_set] on a cache with the records
    [l] returns, with 0 and the new record last, in place of the one with its
    key, the records before it some of the others in their old order; or with
    an error and some of the old records.  The cache never holds more than
    [max_key_count] records, and the expiry, recycling, segment growth and
    rearranging it may go through keep every invariant. *)
Theorem table_set_correct s l key value :
  rep s l → key_ok key → value_ok value →
  wp (shm_ht_set key value) (λ r s', same_cache s s' ∧ ∃ l', rep s' l' ∧
    abs_set (max_value_size (config s)) key value l r l' ∧ NoDup (keys_of l') ∧
    (Z.of_nat (length l) ≤ max_key_count (config s) →
     Z.of_nat (length l') ≤ max_key_count (config s))) s.
Proof.
  intros Hrep Hk Hv. eapply wp_mono; [by apply (rep_set s l)|].
  intros r s' (?&l'&?&?&?). split; [done|]. exists l'. split_and!; [done|done|by eapply law_keys|done].
Qed.

(** C7: storing loses nothing as long as it does not have to.  Let key and
    value be within the limits and fewer records than max_key_count be stored.
    With room in a queued striping [shm_ht_set] puts the new record behind all
    the others, in place of one with its key, and returns 0.  Without, but with
    a segment that may still be added and whose stripings are large enough, and
    with avg_key_ttl not positive (otherwise the code recycles old entries before
    it adds a segment), it does the same, or the system gave no memory for the
    segment, and it returns ENOMEM and changes no record. *)
Theorem table_set_lossless s l key value :
  rep s l → key_ok key → value_ok value → storable_in s l key value →
  wp (shm_ht_set key value) (λ r s', ∃ l', rep s' l' ∧ set_exactly s l key value r s' l' ∧
    (has_room s (entry_size (key_length key) (v_length value)) →
     r = 0 ∧ l' = without (key_data key) l ++ [new_record key value])) s.
Proof.
  intros Hrep Hk Hv Hst. eapply wp_mono; [by apply (rep_set_lossless s l)|].
  intros r s' (_&l'&Hrep'&Hex). exists l'. split_and!; [done|done|]. intros Hroom.
  by destruct Hex as [|(_&_&Hno&_)].
Qed.

(** deleting removes exactly the record with the key and returns 0, or
    returns ENOENT and changes nothing when there is none. *)
Theorem table_delete_correct s l key :
  rep s l → key_ok key →
  wp (shm_ht_delete key) (λ r s', same_cache s s' ∧ rep s' (without (key_data key) l) ∧
    (r = 0 ↔ key_data key ∈ keys_of l) ∧ (r = ENOENT ↔ key_data key ∉ keys_of l)) s.
Proof.
  intros Hrep Hk. eapply wp_mono; [by apply (rep_delete s l)|]. intros r s' (?&?&->).
  pose proof (find_key_none (key_data key) l) as Hf.
  destruct (decide (key_data key ∈ keys_of l)) as [Hin|Hin].
  - destruct (find_key (key_data key) l); [done|]. by destruct (proj1 Hf).
  - rewrite (proj2 Hf Hin). done.
Qed.

(** [shm_ht_set_expires] changes the expiry time of the record with the
    key, and nothing else, if that record has not expired; it returns ENOENT
    or ETIMEDOUT otherwise. *)
Theorem table_set_expires_correct s l key x :
  rep s l → key_ok key →
  wp (shm_ht_set_expires key x) (λ r s', same_cache s s' ∧ ∃ l', rep s' l' ∧
    set_expires_outcome l (key_data key) x r l' ∧ keys_of l' = keys_of l) s.
Proof.
  intros Hrep Hk. eapply wp_mono; [by apply (rep_set_expires s l)|]. intros r s' (?&l'&?&Ho).
  split; [done|]. exists l'. split_and!; [done|done|]. unfold set_expires_outcome in Ho.
  destruct (find_key _ _); [|by destruct Ho as [_ ->]]. destruct Ho as (now&_&Ho).
  destruct (HT_ENTRY_IS_VALID _ _); [|by destruct Ho as [_ ->]]. destruct Ho as [_ ->].
  unfold keys_of, update_key. rewrite <-list_fmap_compose. apply list_fmap_ext. intros i r' _.
  unfold compose. by destruct (decide _).
Qed.
End properties.
