(* ===== verification/CLib.v ===== *)
(** * The functions of the C library the source computes with: [strtoll] in
    base 10 and [sprintf("%"PRId64)] *)
From S2P Require Import Prelude.
Local Open Scope Z_scope.

Definition code (c : ascii) : Z := Z.of_nat (nat_of_ascii c).
Definition is_space (c : ascii) : bool :=
  (code c =? 32) || ((9 <=? code c) && (code c <=? 13)).
Definition is_digit (c : ascii) : bool := (48 <=? code c) && (code c <=? 57).
Definition NUL : ascii := Ascii.zero.
Definition minus : ascii := ascii_of_nat 45.
Definition plus : ascii := ascii_of_nat 43.

(** the bytes of a buffer before its first NUL *)
Fixpoint c_string (l : list ascii) : list ascii :=
  match l with
  | [] => []
  | c :: l => if code c =? 0 then [] else c :: c_string l
  end.

Fixpoint skip_spaces (l : list ascii) : list ascii :=
  match l with
  | c :: l' => if is_space c then skip_spaces l' else l
  | [] => []
  end.
Fixpoint parse_digits (acc : Z) (l : list ascii) : Z * list ascii :=
  match l with
  | c :: l' => if is_digit c then parse_digits (acc * 10 + (code c - 48)) l' else (acc, l)
  | [] => (acc, [])
  end.

Definition LLONG_MAX : Z := 2 ^ 63 - 1.
Definition LLONG_MIN : Z := - 2 ^ 63.

(** the value, and the string from [*endptr] on; the string has no NUL *)
Definition strtoll (l : list ascii) : Z * list ascii :=
  let t := skip_spaces l in
  let '(neg, d) := match t with
                   | c :: t' => if code c =? 45 then (true, t')
                                else if code c =? 43 then (false, t') else (false, t)
                   | [] => (false, []) end in
  match d with
  | c :: _ => if is_digit c then
                let '(v, rest) := parse_digits 0 d in
                (Z.max LLONG_MIN (Z.min LLONG_MAX (if neg : bool then - v else v)), rest)
              else (0, l)
  | [] => (0, l)
  end.

Definition digit (d : Z) : ascii := ascii_of_nat (Z.to_nat (48 + d)).
(** the decimal digits of [n >= 0] in front of [acc]; 20 suffice for 64 bits *)
Fixpoint print_digits (fuel : nat) (n : Z) (acc : list ascii) : list ascii :=
  match fuel with
  | O => acc
  | S fuel =>
    let acc := digit (n mod 10) :: acc in
    if n <? 10 then acc else print_digits fuel (n / 10) acc
  end.
Definition sprintf_int64 (z : Z) : list ascii :=
  if z <? 0 then minus :: print_digits 20 (- z) [] else print_digits 20 z [].

(** ** Printing and parsing back *)
Lemma code_digit d : 0 ≤ d < 10 → code (digit d) = 48 + d.
Proof. intros Hd. unfold code, digit. rewrite nat_ascii_embedding; lia. Qed.
Lemma is_digit_digit d : 0 ≤ d < 10 → is_digit (digit d) = true.
Proof. intros Hd. unfold is_digit. rewrite code_digit by done. bool_lia. Qed.

Lemma c_string_app l : Forall (λ c, code c ≠ 0) l → c_string (l ++ [NUL]) = l.
Proof.
  induction 1 as [|c l Hc _ IH]; [done|]. cbn [app c_string].
  by rewrite (proj2 (Z.eqb_neq _ _) Hc), IH.
Qed.

(** a string of digits and the number it denotes *)
Definition digits_ok (l : list ascii) : Prop := Forall (λ c, is_digit c = true) l.
Definition value_of_digits (acc : Z) (l : list ascii) : Z :=
  foldl (λ a c, a * 10 + (code c - 48)) acc l.
Lemma parse_digits_all acc l : digits_ok l → parse_digits acc l = (value_of_digits acc l, []).
Proof.
  intros H. revert acc. induction H as [|c l Hc _ IH]; intros acc; [done|].
  cbn [parse_digits]. by rewrite Hc, IH.
Qed.

Lemma print_digits_spec fuel n acc : 0 ≤ n < 10 ^ Z.of_nat fuel → (0 < fuel)%nat →
  ∃ ds, print_digits fuel n acc = ds ++ acc ∧ digits_ok ds ∧ ds ≠ [] ∧
    (length ds ≤ fuel)%nat ∧ value_of_digits 0 ds = n.
Proof.
  revert n acc. induction fuel as [|fuel IH]; intros n acc Hn Hf; [lia|]. cbn [print_digits].
  pose proof (Z.mod_pos_bound n 10 ltac:(lia)) as Hm.
  destruct (Z.ltb_spec n 10) as [Hlt|Hge].
  - exists [digit (n mod 10)]. split_and!; [done| |done|simpl; lia|].
    + apply Forall_singleton. by apply is_digit_digit.
    + cbn. rewrite code_digit by done. rewrite Z.mod_small; lia.
  - rewrite Nat2Z.inj_succ, Z.pow_succ_r in Hn by lia.
    assert (0 ≤ n / 10 < 10 ^ Z.of_nat fuel) as Hq
      by (split; [apply Z.div_pos; lia|apply Z.div_lt_upper_bound; lia]).
    assert (0 < fuel)%nat as Hf'.
    { destruct fuel; [|lia]. change (10 ^ Z.of_nat 0) with 1 in Hn. lia. }
    destruct (IH (n / 10) (digit (n mod 10) :: acc) Hq Hf') as (ds&Heq&Hd&Hne&Hl&Hv).
    exists (ds ++ [digit (n mod 10)]). rewrite <-app_assoc, length_app. split_and!; [done| | |simpl; lia|].
    + apply Forall_app. split; [done|]. apply Forall_singleton. by apply is_digit_digit.
    + by destruct ds.
    + unfold value_of_digits in *. rewrite foldl_app, Hv. cbn [foldl]. rewrite code_digit by done.
      pose proof (Z.div_mod n 10). lia.
Qed.

Lemma digits_no_nul l : digits_ok l → Forall (λ c, code c ≠ 0) l.
Proof.
  intros H. eapply Forall_impl; [exact H|]. intros c Hc. unfold is_digit in Hc.
  apply andb_true_iff in Hc as [Hc%Z.leb_le _]. lia.
Qed.
Lemma digit_not_special c : is_digit c = true →
  is_space c = false ∧ (code c =? 45) = false ∧ (code c =? 43) = false.
Proof.
  unfold is_digit, is_space. intros [H1%Z.leb_le H2%Z.leb_le]%andb_true_iff. bool_lia; done.
Qed.
(** a non-negative number in digits, and a negative one after a minus sign *)
Lemma strtoll_digits ds : digits_ok ds → ds ≠ [] →
  strtoll ds = (Z.max LLONG_MIN (Z.min LLONG_MAX (value_of_digits 0 ds)), []) ∧
  strtoll (minus :: ds) = (Z.max LLONG_MIN (Z.min LLONG_MAX (- value_of_digits 0 ds)), []).
Proof.
  intros H Hne. destruct ds as [|c ds]; [done|]. pose proof H as [Hc _]%Forall_cons.
  destruct (digit_not_special c Hc) as (Hs&Hm&Hp). unfold strtoll. split.
  - cbn [skip_spaces]. rewrite Hs, Hm, Hp. cbn iota. by rewrite Hc, parse_digits_all.
  - change (skip_spaces (minus :: c :: ds)) with (minus :: c :: ds).
    cbv iota beta zeta. change (code minus =? 45) with true. cbv iota. by rewrite Hc, parse_digits_all.
Qed.

(** what [sprintf] prints: digits, after a minus sign for a negative number *)
Lemma sprintf_int64_digits z : LLONG_MIN ≤ z ≤ LLONG_MAX →
  ∃ ds, digits_ok ds ∧ ds ≠ [] ∧ (length ds ≤ 20)%nat ∧ value_of_digits 0 ds = Z.abs z ∧
    sprintf_int64 z = if z <? 0 then minus :: ds else ds.
Proof.
  unfold sprintf_int64, LLONG_MIN, LLONG_MAX. intros Hz.
  destruct (Z.ltb_spec z 0) as [Hneg|Hpos].
  - destruct (print_digits_spec 20 (- z) []) as (ds&->&Hd&Hne&Hl&Hv); [lia|lia|].
    exists ds. rewrite app_nil_r. split_and!; done || lia.
  - destruct (print_digits_spec 20 z []) as (ds&->&Hd&Hne&Hl&Hv); [lia|lia|].
    exists ds. rewrite app_nil_r. split_and!; done || lia.
Qed.
Lemma strtoll_sprintf z : LLONG_MIN ≤ z ≤ LLONG_MAX → strtoll (sprintf_int64 z) = (z, []).
Proof.
  intros Hz. destruct (sprintf_int64_digits z Hz) as (ds&Hd&Hne&_&Hv&->).
  destruct (strtoll_digits ds Hd Hne) as [H1 H2].
  destruct (Z.ltb_spec z 0); rewrite ?H1, ?H2, Hv; f_equal; unfold LLONG_MIN, LLONG_MAX in *; lia.
Qed.
Lemma sprintf_int64_spec z : LLONG_MIN ≤ z ≤ LLONG_MAX →
  (length (sprintf_int64 z) ≤ 21)%nat ∧
  strtoll (c_string (sprintf_int64 z ++ [NUL])) = (z, []).
Proof.
  intros Hz. rewrite c_string_app; [rewrite strtoll_sprintf by done|];
    destruct (sprintf_int64_digits z Hz) as (ds&Hd&_&Hl&_&->).
  - split; [|done]. destruct (z <? 0); cbn [length]; lia.
  - apply digits_no_nul in Hd. destruct (z <? 0); [by constructor|done].
Qed.
