(* ===== verification/ShmCache.v ===== *)
(** * The exported operations (src/shmcache.c, 778-1052; shmcache.h)

    Each takes the lock, runs the table operation, counts it and unlocks.
    [attempts] bounds the attempts [shm_lock] makes. *)
From S2P Require Import Prelude Types OpWrapper CLib ObjectPool Shmopt HentryOffset ShmList ValueAllocator HashTable Recycle Lock.
Local Open Scope Z_scope.
Local Open Scope shm_scope.

Section ShmCache.
Context `{E : Env}.

Definition count_success (result : Z) (c : shm_counter) : shm_counter :=
  if result =? 0 then c <| success ::= Z.succ |> else c.

(** shmcache_set_ex (778-794) *)
Definition shmcache_set_ex (attempts : nat) (key : shmcache_key_info) (value : shmcache_value_info) :
    cmd Z :=
  result ← shm_lock attempts;
  if negb (result =? 0) then mret result
  else
    modify (λ s, s <| memory; stats; stats_set; total ::= Z.succ |>);;
    result ← shm_ht_set key value;
    modify (λ s, s <| memory; stats; stats_set ::= count_success result |>);;
    shm_unlock;;
    mret result.

(** shmcache_set (796-806) *)
Definition shmcache_set (attempts : nat) (key : shmcache_key_info) (data : list ascii)
    (data_len ttl : Z) : cmd Z :=
  now ← (if ttl =? SHMCACHE_NEVER_EXPIRED then mret 0 else ext get_current_time);
  shmcache_set_ex attempts key
    (Value_info data data_len SHMCACHE_SERIALIZER_STRING (HT_CALC_EXPIRES now ttl)).

(** shmcache_get (808-834): the part that runs in the lock when the
    configuration asks for it (820-827) *)
Definition get_and_count (key : shmcache_key_info) : cmd (Z * option value_ref) :=
  modify (λ s, s <| memory; stats; stats_get; total ::= Z.succ |>);;
  '(result, value) ← shm_ht_get key;
  modify (λ s, s <| memory; stats; stats_get ::= count_success result |>);;
  mret (result, value).
Definition shmcache_get (attempts : nat) (key : shmcache_key_info) : cmd (Z * option value_ref) :=
  s ← get;
  if read_within_lock (lock_policy (config s)) then
    result ← shm_lock attempts;
    if negb (result =? 0) then mret (result, None)
    else
      r ← get_and_count key;
      shm_unlock;;
      mret r
  else get_and_count key.

(** shmcache_delete (836-850) *)
Definition shmcache_delete (attempts : nat) (key : shmcache_key_info) : cmd Z :=
  result ← shm_lock attempts;
  if negb (result =? 0) then mret result
  else
    modify (λ s, s <| memory; stats; stats_del; total ::= Z.succ |>);;
    result ← shm_ht_delete key;
    modify (λ s, s <| memory; stats; stats_del ::= count_success result |>);;
    shm_unlock;;
    mret result.

(** shmcache_set_ttl (852-866) *)
Definition shmcache_set_ttl (attempts : nat) (key : shmcache_key_info) (ttl : Z) : cmd Z :=
  if ttl <? 0 then mret EINVAL
  else
    result ← shm_lock attempts;
    if negb (result =? 0) then mret result
    else
      now ← (if ttl =? SHMCACHE_NEVER_EXPIRED then mret 0 else ext get_current_time);
      result ← shm_ht_set_expires key (HT_CALC_EXPIRES now ttl);
      shm_unlock;;
      mret result.

(** shmcache_set_expires (868-881) *)
Definition shmcache_set_expires (attempts : nat) (key : shmcache_key_info) (expires : Z) : cmd Z :=
  now ← (if 0 <? expires then ext get_current_time else mret 0);
  if (0 <? expires) && (expires <? now) then mret EINVAL
  else
    result ← shm_lock attempts;
    if negb (result =? 0) then mret result
    else
      result ← shm_ht_set_expires key expires;
      shm_unlock;;
      mret result.

(** shmcache_incr (883-939): the result and [*new_value], [None] when it is not
    written.  The addition is a fault when it overflows. *)
Definition sizeof_buff : Z := 24.
Definition checked_add (a b : Z) : cmd Z :=
  if (LLONG_MIN <=? a + b) && (a + b <=? LLONG_MAX) then mret (a + b) else fault.

(** the new value computed from the old one (900-921): the result and
    [*new_value] *)
Definition incr_existing (value : value_ref) (increment : Z) : cmd (Z * option Z) :=
  if (vr_length value <? 0) || (sizeof_buff <=? vr_length value) then mret (EINVAL, None)
  else
    p ← non_null (vr_data value);
    data ← memcpy_from p (vr_length value);
    let '(v, endptr) := strtoll (c_string (data ++ [NUL])) in
    if negb (bool_decide (endptr = [])) then mret (EINVAL, Some v)
    else v ← checked_add v increment; mret (0, Some v).

(** the branches (899-924) before the value is stored *)
Definition incr_value (result : Z) (value : option value_ref) (increment : Z) : cmd (Z * option Z) :=
  match value with
  | Some value => if result =? 0 then incr_existing value increment else mret (0, Some increment)
  | None => mret (0, Some increment)
  end.

Definition shmcache_incr (attempts : nat) (key : shmcache_key_info) (increment ttl : Z) :
    cmd (Z * option Z) :=
  result ← shm_lock attempts;
  if negb (result =? 0) then mret (result, None)
  else
    '(result, value) ← shm_ht_get key;
    '(result, new_value) ← incr_value result value increment;
    result ←
      (if negb (result =? 0) then mret result
       else
         let data := sprintf_int64 (default 0 new_value) in
         now ← (if ttl =? SHMCACHE_NEVER_EXPIRED then mret 0 else ext get_current_time);
         shm_ht_set key (Value_info data (Z.of_nat (length data)) SHMCACHE_SERIALIZER_INTEGER
                           (HT_CALC_EXPIRES now ttl)));
    modify (λ s, s <| memory; stats; stats_incr; total ::= Z.succ |>);;
    modify (λ s, s <| memory; stats; stats_incr ::= count_success result |>);;
    shm_unlock;;
    mret (result, new_value).

(** shmcache_remove_all (941-952) *)
Definition shmcache_remove_all : cmd Z :=
  result ← shm_lock_file;
  if negb (result =? 0) then mret result
  else
    result ← shmopt_remove_all;
    shm_unlock_file;;
    mret result.

(** shmcache_stats_ex (954-1002); a [double] quotient is kept as the pair of
    its integer operands *)
Record shmcache_stats := Stats {
  stats_shm : shm_stats;
  stats_segment_size : Z;
  stats_capacity : Z;
  stats_count : Z;
  stats_max_key_count : Z;
  stats_memory_max : Z;
  stats_memory_used : Z;
  stats_usage : shm_memory_usage;
  hit_ratio : Z * Z;
  hit_get_qps : Z * Z;
  hit_seconds : Z;
}.
Definition MAX_KEYS_IN_SHM (s : shmcache_context) : Z := mi_max_key_count (memory s).

Definition hit_stats : cmd (Z * Z * (Z * Z) * Z) :=
  s ← get;
  when (negb (g_schedule_flag s))
    (t ← ext time_NULL; modify (λ s, s <| g_current_time := t |>));;
  s ← get;
  let st := stats (memory s) in
  let seconds := to_int (g_current_time s - last_calc_time st) in
  let total_delta := total (stats_get st) - total (last_get st) in
  if 0 <? total_delta then
    let success_delta := success (stats_get st) - success (last_get st) in
    if 0 <? seconds then
      modify (λ s, s <| memory; stats; last_calc_time := g_current_time s |>
                     <| memory; stats; last_get; total := total (stats_get st) |>
                     <| memory; stats; last_get; success := success (stats_get st) |>);;
      mret (success_delta, total_delta, (total_delta, seconds), seconds)
    else mret (success_delta, total_delta, (total_delta, 1), seconds)
  else mret (-1, 1, (0, 1), seconds).

Definition shmcache_stats_ex (calc_hit_ratio : bool) : cmd shmcache_stats :=
  s ← get;
  let mk := Stats (stats (memory s)) (seg_size (ht_segment s))
    (ht_capacity (hashtable (memory s))) (shm_ht_count s) (MAX_KEYS_IN_SHM s)
    (seg_size (ht_segment s) + vsize (vm_segment (memory s)) * count_max (vm_segment (memory s)))
    (used_common (usage (memory s)) + used_entry (usage (memory s))) (usage (memory s)) in
  if calc_hit_ratio then
    '(num, den, qps, seconds) ← hit_stats;
    mret (mk (num, den) qps seconds)
  else mret (mk (-1, 1) (0, 1) 0).

(** shmcache_clear_stats (1004-1013) *)
Definition shmcache_clear_stats (attempts : nat) : cmd unit :=
  shm_lock attempts;;
  modify (λ s, s <| memory; stats := stats_zero |>);;
  now ← ext get_current_time;
  modify (λ s, s <| memory; stats; last_calc_time := now |>
                 <| memory; stats; stats_init_time := now |>);;
  shm_unlock;;
  mret tt.

(** shmcache_clear (1037-1052) *)
Definition shmcache_clear (attempts : nat) : cmd Z :=
  result ← shm_lock attempts;
  if negb (result =? 0) then mret result
  else
    shm_ht_clear;;
    shm_unlock;;
    mret 0.

(** shmcache_get_serializer_label (1015-1035) *)
Definition shmcache_get_serializer_label (serializer : Z) : string :=
  if serializer =? SHMCACHE_SERIALIZER_STRING then "string"
  else if serializer =? SHMCACHE_SERIALIZER_LIST then "list"
  else if serializer =? SHMCACHE_SERIALIZER_MAP then "map"
  else if serializer =? SHMCACHE_SERIALIZER_INTEGER then "integer"
  else if serializer =? SHMCACHE_SERIALIZER_MSGPACK then "msgpack"
  else if serializer =? SHMCACHE_SERIALIZER_IGBINARY then "igbinary"
  else if serializer =? SHMCACHE_SERIALIZER_PHP then "php"
  else "unkown".

(** shmcache_get_last_clear_time, shmcache_get_init_time (shmcache.h, 219-233) *)
Definition shmcache_get_last_clear_time (s : shmcache_context) : Z :=
  last_clear_time (stats (memory s)).
Definition shmcache_get_init_time (s : shmcache_context) : Z := init_time (memory s).

(** shmcache_destroy (757-776) *)
Fixpoint munmap_values (n : nat) (index : Z) : cmd unit :=
  match n with
  | O => mret tt
  | S n =>
    s ← get;
    seg ← load_segment index;
    when (negb (base seg =? 0))
      (shm_munmap (cfg_type (config s)) (base seg) (seg_size seg);;
       store_segment index (seg <| base := 0 |>));;
    munmap_values n (index + 1)
  end.
Definition shmcache_destroy : cmd unit :=
  s ← get;
  munmap_values (Z.to_nat (values_count s)) 0;;
  when (negb (base (ht_segment s) =? 0))
    (shm_munmap (cfg_type (config s)) (base (ht_segment s)) (seg_size (ht_segment s));;
     modify (λ s, s <| ht_segment; base := 0 |>)).


(** ** Properties *)
Lemma munmap_quiet type addr size s :
  wp (shm_munmap type addr size) (λ _ s', quiet s s') s.
Proof.
  unfold shm_munmap. wp_simpl.
  destruct (type =? _); apply wp_ext_quiet; intros s1 H1; destruct (_ =? 0); wp_simpl; try done;
    apply wp_errno_or; intros e s2 H2 _ _; by eapply quiet_trans.
Qed.
Lemma munmap_values_spec n i s :
  0 ≤ i → i + Z.of_nat n ≤ Z.of_nat (length (values_items s)) →
  wp (munmap_values n i) (λ _ s', ∃ tk fds items,
    s' = s <| ticks := tk |> <| open_fds := fds |> <| values_items := items |> ∧
    length items = length (values_items s) ∧
    ∀ j, 0 ≤ j → if (i <=? j) && (j <? i + Z.of_nat n)
                 then ∃ seg, znth items j = Some seg ∧ base seg = 0
                 else znth items j = znth (values_items s) j) s.
Proof.
  revert i s. induction n as [|n IH]; intros i s Hi Hn; cbn [munmap_values].
  { wp_simpl. exists (ticks s), (open_fds s), (values_items s). split; [by destruct s|].
    split; [done|]. intros j Hj. bool_lia; done. }
  destruct (znth_is_Some (values_items s) i ltac:(lia)) as [seg Hseg].
  unfold load_segment, store_segment. wp_simpl. apply wp_of_option. exists seg. split; [done|]. wp_simpl.
  assert (∀ s1 items1 tk1 fds1 seg1, s1 = s <| ticks := tk1 |> <| open_fds := fds1 |> <| values_items := items1 |> →
    items1 = <[Z.to_nat i := seg1]> (values_items s) → base seg1 = 0 →
    wp (munmap_values n (i + 1)) (λ _ s', ∃ tk fds items,
      s' = s <| ticks := tk |> <| open_fds := fds |> <| values_items := items |> ∧
      length items = length (values_items s) ∧
      ∀ j, 0 ≤ j → if (i <=? j) && (j <? i + Z.of_nat (S n))
                 then ∃ seg, znth items j = Some seg ∧ base seg = 0
                 else znth items j = znth (values_items s) j) s1) as Hrest.
  { intros s1 items1 tk1 fds1 seg1 -> -> Hb. eapply wp_mono; [apply IH; [lia|cbn; rewrite length_insert; lia]|].
    intros _ s2 (tk&fds&items&->&Hl&Hj). exists tk, fds, items. split; [done|].
    split; [rewrite Hl; apply length_insert|]. intros j Hj0. specialize (Hj j Hj0).
    assert (znth (<[Z.to_nat i := seg1]> (values_items s)) j =
      if i =? j then Some seg1 else znth (values_items s) j) as Hins by (apply znth_insert; lia).
    cbn [values_items] in Hj. cbn in Hj. rewrite Hins in Hj.
    destruct (Z.eqb_spec i j), (Z.leb_spec (i + 1) j), (Z.ltb_spec j (i + 1 + Z.of_nat n)),
      (Z.leb_spec i j), (Z.ltb_spec j (i + Z.of_nat (S n))); try lia; cbn [andb] in *; eauto. }
  destruct (Z.eqb_spec (base seg) 0) as [Hb|Hb]; cbn [negb]; wp_simpl.
  - apply (Hrest s (values_items s) (ticks s) (open_fds s) seg); [by destruct s| |done].
    symmetry. apply list_insert_id. by apply znth_Some in Hseg as [_ ?].
  - eapply wp_mono; [apply munmap_quiet|]. intros _ s1 (tk&fds&->&_). wp_simpl.
    apply wp_of_option. eexists. split; [apply zupd_Some; cbn; lia|]. wp_simpl.
    by eapply (Hrest _ _ tk fds (seg <| base := 0 |>)).
Qed.

(** [shmcache_destroy] unmaps everything: afterwards no value segment and
    no hashtable segment of the context has an address, and the shared
    contents are untouched. *)
Theorem destroy_unmaps_all s :
  0 ≤ values_count s ≤ Z.of_nat (length (values_items s)) →
  wp shmcache_destroy (λ _ s', base (ht_segment s') = 0 ∧
    (∀ i, 0 ≤ i < values_count s → ∃ seg, znth (values_items s') i = Some seg ∧ base seg = 0) ∧
    memory s' = memory s ∧ hentries s' = hentries s ∧ payload s' = payload s) s.
Proof.
  intros Hv. unfold shmcache_destroy. wp_simpl.
  eapply wp_mono; [apply munmap_values_spec; lia|]. intros _ s1 (tk&fds&items&->&_&Hj). wp_simpl.
  assert (∀ i, 0 ≤ i < values_count s → ∃ seg, znth items i = Some seg ∧ base seg = 0) as Hi.
  { intros i Hi. specialize (Hj i ltac:(lia)).
    by rewrite (proj2 (Z.leb_le 0 i)), (proj2 (Z.ltb_lt i _)) in Hj by lia. }
  destruct (Z.eqb_spec (base (ht_segment s)) 0) as [Hb|Hb]; cbn [negb]; wp_simpl; [done|].
  eapply wp_mono; [apply munmap_quiet|]. intros _ s2 (tk2&fds2&->&_). by wp_simpl.
Qed.

End ShmCache.
