(* ===== verification/ShmCacheSpec.v ===== *)
(** * The exported operations refine an abstract cache

    Every exported operation, run on a state that represents a list of
    records, returns, and its result and the list the final state represents
    are those of the abstract operation.  The operations are verified against
    [CacheLaws], the interface of the table, and [api_refines] composes them
    to any sequence of calls. *)
From S2P Require Import Prelude Types OpWrapper CLib Shmopt HentryOffset Invariant HashTable Recycle Lock CacheTable ShmCache.
Local Open Scope Z_scope.
Local Open Scope shm_scope.

Section api.
Context `{E : Env} (Rep : shmcache_context → list shmcache_hash_entry → Prop) `{!CacheLaws Rep}.
Context (attempts : nat).
Implicit Types (l : list shmcache_hash_entry) (key : shmcache_key_info).

(** the mutex becomes free within the attempts of [shm_lock] *)
Definition mutex_ok : Prop := ∃ n0, released_by n0 ∧ (n0 < attempts)%nat.
(** locking finds the records as they were, or none when the owner of the
    lock died *)
Definition locked l l1 : Prop := l1 = l ∨ (l1 = [] ∧ owner_died).
Definition lock_error (r : Z) : Prop := r ≠ 0 ∧ r ≠ EBUSY ∧ ∃ n, r = pthread_mutex_trylock n.

Lemma api_frame_config s s' : api_frame s s' → same_config s s'.
Proof. by intros (?&?&?&?&?&->). Qed.

Lemma wp_locked s l (Q : Z → _ → Prop) :
  mutex_ok → Rep s l →
  (∀ r s1 l1, Rep s1 l1 → locked l l1 → same_config s s1 → (r ≠ 0 → lock_error r) → Q r s1) →
  wp (shm_lock attempts) Q s.
Proof.
  intros (n0&Hrel&Hn0) Hrep HQ. eapply wp_mono.
  { apply (lock_spec attempts s n0); [by eapply law_clearable|done|lia]. }
  intros r s1 ((Hcf&_&Hf)&Hb&_&Ht). destruct Hf as [Hf|[Hinv Hd]].
  - apply HQ with l; [|by left|done|done]. eapply law_frame; [|done]. by apply lock_frame_api.
  - apply HQ with []; [|by right|done|done]. apply law_empty; [done|].
    pose proof (law_mapping s l Hrep). by destruct Hcf as (_&->&_).
Qed.

(** count and unlock: the end of an operation *)
Lemma wp_stats {A} s l f (k : cmd A) (Q : A → _ → Prop) :
  Rep s l → (∀ s', Rep s' l → api_frame s s' → wp k Q s') →
  wp (modify (λ s, s <| memory; stats ::= f |>);; k) Q s.
Proof.
  intros Hrep HQ. wp_simpl. assert (api_frame s (s <| memory; stats ::= f |>)) as Hf
    by apply api_frame_stats. apply HQ; [by eapply law_frame|done].
Qed.
Lemma wp_unlock s l (Q : Z → _ → Prop) :
  Rep s l → (∀ r s', Rep s' l → api_frame s s' → lock_pid (memory s') = 0 → Q r s') →
  wp shm_unlock Q s.
Proof.
  intros Hrep HQ. eapply wp_mono; [apply unlock_spec|]. intros r s' (Hf&Hp&_).
  apply lock_frame_api in Hf. apply HQ; [by eapply law_frame|done|done].
Qed.

(** the outcome of an operation that runs in the lock: it got the lock and did
    [ok] to the records the lock protects, or it failed to get it *)
Definition served {A} (s : shmcache_context) l (fail : A → Prop)
    (ok : list shmcache_hash_entry → A → list shmcache_hash_entry → Prop)
    (r : A) (s' : shmcache_context) : Prop :=
  same_config s s' ∧ ∃ l1 l', locked l l1 ∧ Rep s' l' ∧
    ((fail r ∧ l' = l1) ∨ (ok l1 r l' ∧ (lock_pid (memory s) = 0 → lock_pid (memory s') = 0))).

Lemma served_failed {A} s l l1 (fail : A → Prop) ok r s1 :
  same_config s s1 → locked l l1 → Rep s1 l1 → fail r → served s l fail ok r s1.
Proof. intros. split; [done|]. exists l1, l1. split_and!; [done|done|by left]. Qed.
Lemma served_done {A} s l l1 l' (fail : A → Prop) (ok : _ → A → _ → Prop) r s' :
  same_config s s' → locked l l1 → Rep s' l' → ok l1 r l' →
  (lock_pid (memory s) = 0 → lock_pid (memory s') = 0) → served s l fail ok r s'.
Proof. intros. split; [done|]. exists l1, l'. split_and!; [done|done|by right]. Qed.

Local Ltac chain_config :=
  repeat match goal with
  | |- same_config ?a ?a => reflexivity
  | H : same_config ?b ?c |- same_config ?a ?c => etrans; [|exact H]; clear H
  | H : same_cache ?b ?c |- same_config ?a ?c => etrans; [|exact (same_cache_config _ _ H)]; clear H
  | H : api_frame ?b ?c |- same_config ?a ?c => etrans; [|exact (api_frame_config _ _ H)]; clear H
  end.
(** take the lock, or fail *)
Local Ltac take_lock :=
  eapply wp_locked; [done..|];
  let r := fresh "r" in let Hr := fresh "Hr" in
  intros r ? ? ? ? ? ?; destruct (Z.eqb_spec r 0) as [->|Hr]; cbn [negb];
  [|wp_simpl; eapply served_failed; [by chain_config|done|done|by auto]].
(** release it and return *)
Local Ltac release :=
  wp_simpl; eapply wp_unlock; [done|]; intros ? ? ? ? ?; wp_simpl;
  eapply served_done; [by chain_config|done|done| |done].

(** ** Storing *)
(** the configured size a value may have *)
Context (limit : Z).
Definition limited (s : shmcache_context) : Prop := max_value_size (config s) = limit.
Lemma limited_config s s' : same_config s s' → limited s → limited s'.
Proof. unfold limited. by intros (_&->&_). Qed.

Lemma set_ex_served s l key value :
  mutex_ok → Rep s l → limited s → key_ok key → value_ok value →
  wp (shmcache_set_ex attempts key value) (served s l lock_error (abs_set limit key value)) s.
Proof.
  intros Hm Hrep Hlim Hk Hv. unfold shmcache_set_ex. wp_simpl. take_lock.
  eapply wp_stats; [done|]. intros s2 Hrep2 Hf2. wp_simpl.
  assert (limited s2) as <- by (eapply limited_config; [|exact Hlim]; by chain_config).
  eapply wp_mono; [by apply law_set|]. intros r s3 (Hc3&l'&Hrep3&Habs&_).
  eapply wp_stats; [done|]. intros s4 Hrep4 Hf4. by release.
Qed.

(** the value [shmcache_set] stores *)
Definition string_value (data : list ascii) (data_len now ttl : Z) : shmcache_value_info :=
  Value_info data data_len SHMCACHE_SERIALIZER_STRING (HT_CALC_EXPIRES now ttl).
Lemma law_ticks s l : Rep s l → Rep (s <| ticks ::= S |>) l.
Proof. intros. eapply law_frame; [apply api_frame_ticks|done]. Qed.
Lemma served_after {A} s0 s l fail (ok : _ → A → _ → Prop) r s' :
  same_config s0 s → lock_pid (memory s) = lock_pid (memory s0) →
  served s l fail ok r s' → served s0 l fail ok r s'.
Proof. intros Hc Hp [Hc' H]. rewrite Hp in H. split; [by etrans|done]. Qed.
Lemma served_mono {A} s l fail (ok ok' : _ → A → _ → Prop) r s' :
  (∀ l1 l', ok l1 r l' → ok' l1 r l') → served s l fail ok r s' → served s l fail ok' r s'.
Proof.
  intros Hok [Hc (l1&l'&Hl&Hrep&H)]. split; [done|]. exists l1, l'. split_and!; [done|done|].
  destruct H as [|[? ?]]; [by left|right]. auto.
Qed.

Lemma set_served s l key data data_len ttl :
  mutex_ok → Rep s l → limited s → key_ok key → data_len = Z.of_nat (length data) →
  wp (shmcache_set attempts key data data_len ttl)
    (served s l lock_error (λ l r l', ∃ now, (ttl = SHMCACHE_NEVER_EXPIRED ∨ clock now) ∧
       abs_set limit key (string_value data data_len now ttl) l r l')) s.
Proof.
  intros Hm Hrep Hlim Hk Hd. unfold shmcache_set. wp_simpl.
  destruct (Z.eqb_spec ttl SHMCACHE_NEVER_EXPIRED) as [->|Ht]; wp_simpl.
  - eapply wp_mono; [by apply (set_ex_served s l)|]. intros r s' Hs. eapply served_mono; [|exact Hs].
    intros l1 l' Ha. exists 0. auto.
  - apply wp_ext. wp_simpl. eapply wp_mono; [by apply (set_ex_served _ l); [done|by apply law_ticks|done..]|].
    intros r s' Hs. eapply served_after; [apply api_frame_config, api_frame_ticks|done|].
    eapply served_mono; [|exact Hs]. intros l1 l' Ha. eexists. split; [right; by eexists|done].
Qed.

(** ** Reading *)
(** what a caller does with [*value] *)
Definition copy_value (v : option value_ref) : cmd (option shmcache_value_info) :=
  match v with
  | None => mret None
  | Some v =>
    p ← non_null (vr_data v);
    data ← memcpy_from p (vr_length v);
    mret (Some (Value_info data (vr_length v) (vr_options v) (vr_expires v)))
  end.
Definition abs_get (key : list ascii) l (r : Z * option shmcache_value_info) l' : Prop :=
  l' = l ∧ match find_key key l with
  | None => r = (ENOENT, None)
  | Some rec => ∃ now, clock now ∧
      r = (if HT_ENTRY_IS_VALID (v_expires (entry_value rec)) now then 0 else ETIMEDOUT,
           Some (entry_value rec))
  end.
Definition get_copy key : cmd (Z * option shmcache_value_info) :=
  '(r, v) ← shmcache_get attempts key;
  v ← copy_value v;
  mret (r, v).

Lemma wp_copy s l (k : list ascii) r (Q : _ → _ → Prop) :
  get_outcome s l k r →
  (∀ v, abs_get k l (r.1, v) l → Q v s) → wp (copy_value r.2) Q s.
Proof.
  unfold get_outcome, abs_get. destruct (find_key k l) as [rec|].
  - intros (now&vr&Hnow&(Hl&Ho&He&p&Hp&Hin&Hd)&->) HQ. cbn. rewrite Hp. wp_simpl.
    apply wp_non_null. wp_simpl. rewrite Hl. eapply wp_run.
    { unfold memcpy_from. by rewrite Hin. }
    rewrite Hd, Ho, He. apply wp_ret. apply HQ. split; [done|]. exists now. split; [done|].
    by destruct (entry_value rec).
  - intros -> HQ. apply wp_ret, HQ. done.
Qed.
Lemma outcome_frame s s' l (k : list ascii) r :
  api_frame s s' → get_outcome s l k r → get_outcome s' l k r.
Proof.
  unfold get_outcome. destruct (find_key k l); [|done]. intros Hf (now&vr&?&Hr&?).
  exists now, vr. split_and!; [done|by eapply api_frame_refers|done].
Qed.

(** reading counts the call, and its success when it is one *)
Definition counted_get (r : Z) (c : shm_counter) : shm_counter :=
  count_success r (c <| total ::= Z.succ |>).

Lemma get_and_count_spec s l key :
  Rep s l → key_ok key →
  wp (get_and_count key) (λ r s', Rep s' l ∧ api_frame s s' ∧ get_outcome s' l (key_data key) r ∧
    lock_pid (memory s') = lock_pid (memory s) ∧
    stats_get (stats (memory s')) = counted_get r.1 (stats_get (stats (memory s)))) s.
Proof.
  intros Hrep Hk. unfold get_and_count. wp_simpl.
  set (s1 := s <| memory; stats; stats_get; total ::= Z.succ |>).
  assert (api_frame s s1) as Hf1 by exact (api_frame_stats s _).
  assert (Rep s1 l) as Hrep1 by by eapply law_frame.
  eapply wp_mono; [by apply law_get|]. intros [r v] s2 [[Hf2 Hm2] Ho]. wp_simpl.
  set (s3 := s2 <| memory; stats; stats_get ::= count_success r |>).
  assert (api_frame s2 s3) as Hf3 by exact (api_frame_stats s2 _).
  assert (api_frame s s3) as Hf by (etrans; [exact Hf1|by etrans]).
  split_and!; [by eapply law_frame|done|exact (outcome_frame s2 s3 _ _ _ Hf3 Ho)| |]; cbn; rewrite Hm2; done.
Qed.

Definition get_failed (r : Z * option shmcache_value_info) : Prop := lock_error r.1 ∧ r.2 = None.
(** the value still lies in the segment when the call returns *)
Lemma get_ref_served s l key :
  mutex_ok → Rep s l → key_ok key →
  wp (shmcache_get attempts key) (λ r s', same_config s s' ∧ ∃ l1, locked l l1 ∧ Rep s' l1 ∧
    ((lock_error r.1 ∧ r.2 = None) ∨
     (get_outcome s' l1 (key_data key) r ∧ (lock_pid (memory s) = 0 → lock_pid (memory s') = 0)))) s.
Proof.
  intros Hm Hrep Hk. unfold shmcache_get. wp_simpl. destruct (read_within_lock _).
  - wp_simpl. eapply wp_locked; [done..|]. intros r s1 l1 Hrep1 Hl1 Hc1 Hr.
    destruct (Z.eqb_spec r 0) as [->|Hne]; cbn [negb]; wp_simpl.
    2: { split; [done|]. exists l1. split_and!; [done|done|left]. auto. }
    eapply wp_mono; [by apply get_and_count_spec|]. intros r2 s2 (Hrep2&Hf2&Ho2&_).
    wp_simpl. eapply wp_unlock; [done|]. intros _ s3 Hrep3 Hf3 Hp3. wp_simpl.
    split; [by chain_config|]. exists l1. split_and!; [done|done|right].
    split; [by eapply outcome_frame|done].
  - eapply wp_mono; [by apply get_and_count_spec|]. intros r s2 (Hrep2&Hf2&Ho2&Hp2&_).
    split; [by chain_config|]. exists l. split_and!; [by left|done|right]. by rewrite Hp2.
Qed.
Lemma get_served s l key :
  mutex_ok → Rep s l → key_ok key →
  wp (get_copy key) (served s l get_failed (abs_get (key_data key))) s.
Proof.
  intros Hm Hrep Hk. unfold get_copy. wp_simpl. eapply wp_mono; [by apply get_ref_served|].
  intros [r v] s1 (Hc&l1&Hl1&Hrep1&[[Hr Hv]|[Ho Hp]]).
  - cbn in Hv. subst v. apply wp_ret. wp_simpl. by eapply served_failed.
  - wp_simpl. apply (wp_copy s1 l1 (key_data key) (r, v)); [done|]. intros v' Hv'. wp_simpl.
    by eapply served_done.
Qed.

(** ** Deleting *)
Definition abs_delete (key : list ascii) l (r : Z) l' : Prop :=
  l' = without key l ∧ r = if find_key key l then 0 else ENOENT.
Lemma delete_served s l key :
  mutex_ok → Rep s l → key_ok key →
  wp (shmcache_delete attempts key) (served s l lock_error (abs_delete (key_data key))) s.
Proof.
  intros Hm Hrep Hk. unfold shmcache_delete. wp_simpl. take_lock.
  eapply wp_stats; [done|]. intros s2 Hrep2 Hf2. wp_simpl.
  eapply wp_mono; [by apply law_delete|]. intros r s3 (Hc3&Hrep3&Hr).
  eapply wp_stats; [done|]. intros s4 Hrep4 Hf4. release. done.
Qed.

(** ** Expiry times *)
Lemma ht_set_expires_served s l1 key x (Q : Z → _ → Prop) :
  Rep s l1 → key_ok key →
  (∀ r s' l', same_config s s' → Rep s' l' → set_expires_outcome l1 (key_data key) x r l' →
     lock_pid (memory s') = 0 → Q r s') →
  wp (result ← shm_ht_set_expires key x; shm_unlock;; mret result) Q s.
Proof.
  intros Hrep Hk HQ. wp_simpl. eapply wp_mono; [by apply law_set_expires|].
  intros r s2 (Hc2&l'&Hrep2&Ho). wp_simpl. eapply wp_unlock; [done|]. intros _ s3 Hrep3 Hf3 Hp3.
  wp_simpl. eapply HQ; [by chain_config|done..].
Qed.

Definition abs_set_ttl (key : list ascii) (ttl : Z) l (r : Z) l' : Prop :=
  if ttl <? 0 then r = EINVAL ∧ l' = l
  else ∃ now, (ttl = SHMCACHE_NEVER_EXPIRED ∨ clock now) ∧
    set_expires_outcome l key (HT_CALC_EXPIRES now ttl) r l'.
Lemma set_ttl_served s l key ttl :
  mutex_ok → Rep s l → key_ok key →
  wp (shmcache_set_ttl attempts key ttl) (served s l lock_error (abs_set_ttl (key_data key) ttl)) s.
Proof.
  intros Hm Hrep Hk. unfold shmcache_set_ttl, abs_set_ttl. destruct (Z.ltb_spec ttl 0).
  { wp_simpl. eapply served_done; [done|by left|done|done|done]. }
  wp_simpl. take_lock. destruct (Z.eqb_spec ttl SHMCACHE_NEVER_EXPIRED) as [->|Ht]; wp_simpl.
  - apply (proj1 (wp_bind _ _ _ _)). eapply ht_set_expires_served; [done|done|].
    intros r s' l' Hc' Hrep' Ho Hp. eapply served_done; [by chain_config|done|done| |done].
    exists 0. auto.
  - apply wp_ext. wp_simpl. apply (proj1 (wp_bind _ _ _ _)).
    eapply ht_set_expires_served; [by apply law_ticks|done|].
    intros r s' l' Hc' Hrep' Ho Hp. eapply served_done; [|done|done| |done].
    + etrans; [done|]. etrans; [|done]. apply api_frame_config, api_frame_ticks.
    + eexists. split; [right; by eexists|done].
Qed.

Definition abs_set_expires (key : list ascii) (x : Z) l (r : Z) l' : Prop :=
  (r = EINVAL ∧ l' = l ∧ ∃ now, clock now ∧ 0 < x < now) ∨ set_expires_outcome l key x r l'.
Lemma set_expires_served s l key x :
  mutex_ok → Rep s l → key_ok key →
  wp (shmcache_set_expires attempts key x) (served s l lock_error (abs_set_expires (key_data key) x)) s.
Proof.
  intros Hm Hrep Hk. unfold shmcache_set_expires. wp_simpl.
  assert (∀ s0, Rep s0 l → same_config s s0 → lock_pid (memory s0) = lock_pid (memory s) →
    wp (result ← shm_lock attempts;
        if negb (result =? 0) then mret result
        else result ← shm_ht_set_expires key x; shm_unlock;; mret result)
      (served s l lock_error (abs_set_expires (key_data key) x)) s0) as Hrest.
  { intros s0 Hrep0 Hc0 Hp0. wp_simpl. take_lock.
    eapply ht_set_expires_served; [done|done|]. intros r s' l' Hc' Hrep' Ho Hp.
    eapply served_done; [by chain_config|done|done|by right|done]. }
  destruct (Z.ltb_spec 0 x); cbn [andb]; wp_simpl.
  - apply wp_ext. wp_simpl. destruct (Z.ltb_spec x (get_current_time (ticks s))).
    + wp_simpl. eapply served_done; [apply api_frame_config, api_frame_ticks|by left|by apply law_ticks| |done].
      left. split_and!; [done|done|]. eexists. split; [by eexists|done].
    + apply Hrest; [by apply law_ticks|apply api_frame_config, api_frame_ticks|done].
  - apply (proj1 (wp_bind _ _ _ _)). by apply Hrest.
Qed.

(** ** Clearing *)
Definition abs_clear l (r : Z) l' : Prop := r = 0 ∧ l' = [].
Lemma clear_served s l :
  mutex_ok → Rep s l → wp (shmcache_clear attempts) (served s l lock_error abs_clear) s.
Proof.
  intros Hm Hrep. unfold shmcache_clear. wp_simpl. take_lock. wp_simpl.
  eapply wp_mono; [by apply law_clear|]. intros c s2 (Hc2&Hrep2&_). release. done.
Qed.

(** ** Incrementing *)
(** the integer a value holds, if it is one that fits the buffer *)
Definition parse_int (v : shmcache_value_info) : option Z :=
  if (v_length v <? 0) || (sizeof_buff <=? v_length v) then None
  else let '(n, endptr) := strtoll (c_string (v_data v ++ [NUL])) in
       if bool_decide (endptr = []) then Some n else None.
Definition integer_value (n now ttl : Z) : shmcache_value_info :=
  Value_info (sprintf_int64 n) (Z.of_nat (length (sprintf_int64 n))) SHMCACHE_SERIALIZER_INTEGER
    (HT_CALC_EXPIRES now ttl).
(** the new number is stored, and reported even when it could not be stored *)
Definition stores key (n ttl : Z) l (r : Z * option Z) l' : Prop :=
  r.2 = Some n ∧ ∃ now, (ttl = SHMCACHE_NEVER_EXPIRED ∨ clock now) ∧
    abs_set limit key (integer_value n now ttl) l r.1 l'.
Definition abs_incr key (inc ttl : Z) l (r : Z * option Z) l' : Prop :=
  match find_key (key_data key) l with
  | None => stores key inc ttl l r l'
  | Some rec => ∃ now, clock now ∧
      if HT_ENTRY_IS_VALID (v_expires (entry_value rec)) now then
        match parse_int (entry_value rec) with
        | Some n => stores key (n + inc) ttl l r l'
        | None => r.1 = EINVAL ∧ l' = l
        end
      else stores key inc ttl l r l'
  end.
(** the addition does not overflow *)
Definition incr_safe (k : list ascii) (inc : Z) l : Prop :=
  ∀ rec n, find_key k l = Some rec → parse_int (entry_value rec) = Some n →
    LLONG_MIN ≤ n + inc ≤ LLONG_MAX.

(** what [incr_value] decides: the number to store, or EINVAL *)
Definition incr_decision (k : list ascii) (inc : Z) l (d : Z * option Z) : Prop :=
  match find_key k l with
  | None => d = (0, Some inc)
  | Some rec => ∃ now, clock now ∧
      if HT_ENTRY_IS_VALID (v_expires (entry_value rec)) now then
        match parse_int (entry_value rec) with
        | Some n => d = (0, Some (n + inc))
        | None => d.1 = EINVAL
        end
      else d = (0, Some inc)
  end.
Lemma incr_value_spec s l (k : list ascii) inc r :
  get_outcome s l k r → incr_safe k inc l →
  wp (incr_value r.1 r.2 inc) (λ d s', s' = s ∧ incr_decision k inc l d) s.
Proof.
  unfold get_outcome, incr_decision, incr_safe. destruct (find_key k l) as [rec|].
  2: { intros -> _. by apply wp_ret. }
  intros (now&vr&Hnow&(Hl&_&_&p&Hp&Hin&Hd)&->) Hsafe. cbn [fst snd incr_value].
  destruct (HT_ENTRY_IS_VALID _ now) eqn:Hv.
  2: { apply wp_ret. split; [done|]. exists now. by rewrite Hv. }
  change (0 =? 0) with true. cbn iota. unfold incr_existing. rewrite Hl.
  unfold parse_int at 1. destruct ((_ <? _) || _) eqn:Hb.
  { wp_simpl. split; [done|]. exists now. by rewrite Hv. }
  rewrite Hp. wp_simpl. apply wp_non_null. wp_simpl. eapply wp_run; [unfold memcpy_from; by rewrite Hin|].
  rewrite Hd. destruct (strtoll _) as [n endptr] eqn:Hst. destruct (bool_decide (endptr = [])) eqn:He; cbn [negb].
  - wp_simpl. assert (parse_int (entry_value rec) = Some n) as Hpi
      by (unfold parse_int; by rewrite Hb, Hst, He).
    specialize (Hsafe rec n eq_refl Hpi). unfold checked_add.
    rewrite (proj2 (Z.leb_le _ _)), (proj2 (Z.leb_le _ _)) by lia. cbn [andb]. wp_simpl.
    split; [done|]. exists now. by rewrite Hv.
  - wp_simpl. split; [done|]. exists now. by rewrite Hv.
Qed.
Lemma incr_decision_abs key inc ttl l d r l' :
  incr_decision (key_data key) inc l d →
  (d.1 = 0 → ∀ n, d.2 = Some n → stores key n ttl l r l') →
  (d.1 ≠ 0 → r.1 = d.1 ∧ l' = l) → abs_incr key inc ttl l r l'.
Proof.
  unfold incr_decision, abs_incr. destruct (find_key _ l) as [rec|].
  2: { intros -> H _. by apply H. }
  intros (now&Hnow&Hd) H1 H2. exists now. split; [done|]. destruct (HT_ENTRY_IS_VALID _ now).
  2: { subst d. by apply H1. }
  destruct (parse_int _); [subst d; by apply H1|]. rewrite Hd in H2. by apply H2.
Qed.

Definition incr_failed (r : Z * option Z) : Prop := lock_error r.1 ∧ r.2 = None.
Lemma incr_store_spec s l key n ttl :
  Rep s l → limited s → key_ok key →
  wp (let data := sprintf_int64 n in
      now ← (if ttl =? SHMCACHE_NEVER_EXPIRED then mret 0 else ext get_current_time);
      shm_ht_set key (Value_info data (Z.of_nat (length data)) SHMCACHE_SERIALIZER_INTEGER
                        (HT_CALC_EXPIRES now ttl)))
    (λ r s', same_config s s' ∧ ∃ l', Rep s' l' ∧ stores key n ttl l (r, Some n) l') s.
Proof.
  intros Hrep Hlim Hk. wp_simpl. destruct (Z.eqb_spec ttl SHMCACHE_NEVER_EXPIRED) as [->|Ht]; wp_simpl.
  - eapply wp_mono; [by apply law_set|]. rewrite Hlim. intros r s' (Hc&l'&Hrep'&Ha&_).
    split; [by apply same_cache_config|]. exists l'. split; [done|]. split; [done|]. exists 0. auto.
  - apply wp_ext. wp_simpl. eapply wp_mono; [by apply law_set; [apply law_ticks|..]|].
    change (config (s <| ticks ::= S |>)) with (config s). rewrite Hlim. intros r s' (Hc&l'&Hrep'&Ha&_).
    split; [etrans; [apply api_frame_config, api_frame_ticks|by apply same_cache_config]|].
    exists l'. split; [done|]. split; [done|]. eexists. split; [right; by eexists|done].
Qed.

Lemma incr_served s l key inc ttl :
  mutex_ok → Rep s l → limited s → key_ok key → incr_safe (key_data key) inc l →
  wp (shmcache_incr attempts key inc ttl) (served s l incr_failed (abs_incr key inc ttl)) s.
Proof.
  intros Hm Hrep Hlim Hk Hsafe. unfold shmcache_incr. wp_simpl. eapply wp_locked; [done..|].
  intros r s1 l1 Hrep1 Hl1 Hc1 He. destruct (Z.eqb_spec r 0) as [->|Hr]; cbn [negb].
  2: { wp_simpl. eapply served_failed; [done|done|done|]. split; [auto|done]. }
  wp_simpl. eapply wp_mono; [by apply law_get|]. intros [r v] s2 [[Hf2 _] Ho]. wp_simpl.
  assert (incr_safe (key_data key) inc l1) as Hsafe1 by (destruct Hl1 as [->|[-> _]]; [done|by intros ??]).
  assert (Rep s2 l1) as Hrep2 by by eapply law_frame.
  assert (limited s2) as Hlim2 by (eapply limited_config; [|exact Hlim]; by chain_config).
  eapply wp_mono; [by apply (incr_value_spec s2 l1 (key_data key) inc (r, v))|]. intros [d nv] s' [-> Hdec]. wp_simpl.
  enough (∀ r s3 l', same_config s2 s3 → Rep s3 l' → abs_incr key inc ttl l1 (r, nv) l' →
    wp (modify (λ s, s <| memory; stats; stats_incr; total ::= Z.succ |>);;
        modify (λ s, s <| memory; stats; stats_incr ::= count_success r |>);;
        shm_unlock;; mret (r, nv)) (served s l incr_failed (abs_incr key inc ttl)) s3) as Hend.
  { destruct (Z.eqb_spec d 0) as [->|Hd]; cbn [negb].
    - assert (∃ n, nv = Some n) as [n ->].
      { unfold incr_decision in Hdec. destruct (find_key _ _) as [rec|]; [|simplify_eq; by eexists].
        destruct Hdec as (now&_&Hdec). destruct (HT_ENTRY_IS_VALID _ _); [|simplify_eq; by eexists].
        destruct (parse_int _); [simplify_eq; by eexists|done]. }
      eapply wp_mono; [by apply (incr_store_spec s2 l1 key n ttl)|].
      intros r' s3 (Hc3&l'&Hrep3&Hst). apply Hend with l'; [done|done|].
      eapply incr_decision_abs; [exact Hdec|by intros _ ? [= <-]|done].
    - apply wp_ret, (Hend d s2 l1); [done|done|].
      eapply incr_decision_abs; [exact Hdec|done|done]. }
  intros r' s3 l' Hc3 Hrep3 Ha.
  eapply wp_stats; [done|]. intros s4 Hrep4 Hf4. eapply wp_stats; [done|]. intros s5 Hrep5 Hf5.
  release. done.
Qed.

(** ** Sequences of operations *)
Inductive api_op :=
| Op_set_ex (key : shmcache_key_info) (value : shmcache_value_info)
| Op_set (key : shmcache_key_info) (data : list ascii) (ttl : Z)
| Op_get (key : shmcache_key_info)
| Op_delete (key : shmcache_key_info)
| Op_set_ttl (key : shmcache_key_info) (ttl : Z)
| Op_set_expires (key : shmcache_key_info) (expires : Z)
| Op_incr (key : shmcache_key_info) (increment ttl : Z)
| Op_clear.
(** the error number, and the value or the number the call gave *)
Inductive api_answer := Value (v : shmcache_value_info) | Number (n : Z).
Definition api_result : Type := Z * option api_answer.

Definition op_ok (op : api_op) l : Prop :=
  match op with
  | Op_set_ex key value => key_ok key ∧ value_ok value
  | Op_set key _ _ | Op_get key | Op_delete key | Op_set_ttl key _ | Op_set_expires key _ => key_ok key
  | Op_incr key inc _ => key_ok key ∧ incr_safe (key_data key) inc l
  | Op_clear => True
  end.
Definition answer {A} (wrap : A → api_answer) (m : cmd (Z * option A)) : cmd api_result :=
  '(r, a) ← m; mret (r, wrap <$> a).
Definition code_only (m : cmd Z) : cmd (Z * option api_answer) := r ← m; mret (r, None).
Definition run_op (op : api_op) : cmd api_result :=
  match op with
  | Op_set_ex key value => code_only (shmcache_set_ex attempts key value)
  | Op_set key data ttl => code_only (shmcache_set attempts key data (Z.of_nat (length data)) ttl)
  | Op_get key => answer Value (get_copy key)
  | Op_delete key => code_only (shmcache_delete attempts key)
  | Op_set_ttl key ttl => code_only (shmcache_set_ttl attempts key ttl)
  | Op_set_expires key x => code_only (shmcache_set_expires attempts key x)
  | Op_incr key inc ttl => answer Number (shmcache_incr attempts key inc ttl)
  | Op_clear => code_only (shmcache_clear attempts)
  end.
(** the abstract operation *)
Definition abs_op (op : api_op) l (r : api_result) l' : Prop :=
  match op with
  | Op_set_ex key value => abs_set limit key value l r.1 l'
  | Op_set key data ttl => ∃ now, (ttl = SHMCACHE_NEVER_EXPIRED ∨ clock now) ∧
      abs_set limit key (string_value data (Z.of_nat (length data)) now ttl) l r.1 l'
  | Op_get key => ∃ v, r.2 = Value <$> v ∧ abs_get (key_data key) l (r.1, v) l'
  | Op_delete key => abs_delete (key_data key) l r.1 l'
  | Op_set_ttl key ttl => abs_set_ttl (key_data key) ttl l r.1 l'
  | Op_set_expires key x => abs_set_expires (key_data key) x l r.1 l'
  | Op_incr key inc ttl => ∃ n, r.2 = Number <$> n ∧ abs_incr key inc ttl l (r.1, n) l'
  | Op_clear => abs_clear l r.1 l'
  end.
(** one call, and a sequence of calls, of the abstract cache; the caller that
    does not get the lock changes nothing *)
Definition abs_call (op : api_op) l (r : api_result) l' : Prop :=
  ∃ l1, locked l l1 ∧ ((lock_error r.1 ∧ r.2 = None ∧ l' = l1) ∨ abs_op op l1 r l').
Inductive abs_run : list api_op → list shmcache_hash_entry → list api_result →
    list shmcache_hash_entry → Prop :=
| Abs_nil l : abs_run [] l [] l
| Abs_cons op ops l r l1 rs l2 :
    abs_call op l r l1 → abs_run ops l1 rs l2 → abs_run (op :: ops) l (r :: rs) l2.
Fixpoint run_ops (ops : list api_op) : cmd (list api_result) :=
  match ops with
  | [] => mret []
  | op :: ops => r ← run_op op; rs ← run_ops ops; mret (r :: rs)
  end.
(** the calls have well-formed arguments, and no increment overflows wherever
    the abstract cache can be when it comes to it *)
Fixpoint ops_safe (ops : list api_op) l : Prop :=
  match ops with
  | [] => True
  | op :: ops => op_ok op l ∧ ∀ r l', abs_call op l r l' → ops_safe ops l'
  end.
Definition never_incr (op : api_op) : Prop :=
  match op with Op_incr _ _ _ => False | _ => op_ok op [] end.
Lemma ops_safe_simple ops l : Forall never_incr ops → ops_safe ops l.
Proof.
  intros H. revert l. induction H as [|op ops Hop _ IH]; intros l; cbn [ops_safe]; [done|].
  split; [by destruct op|]. intros r l' _. apply IH.
Qed.

Definition api_failed (r : api_result) : Prop := lock_error r.1 ∧ r.2 = None.
Lemma served_call s l op r s' :
  served s l api_failed (abs_op op) r s' → same_config s s' ∧ ∃ l', Rep s' l' ∧ abs_call op l r l'.
Proof.
  intros [Hc (l1&l'&Hl&Hrep&H)]. split; [done|]. exists l'. split; [done|]. exists l1. split; [done|].
  destruct H as [[[? ?] ?]|[? _]]; [by left|by right].
Qed.
(** the result of an operation as one of a call *)
Lemma served_wrap {A} (m : cmd A) (wrap : A → api_result) s l fail op (ok : _ → A → _ → Prop) :
  (∀ r, fail r → api_failed (wrap r)) → (∀ l1 r l', ok l1 r l' → abs_op op l1 (wrap r) l') →
  wp m (served s l fail ok) s → wp (r ← m; mret (wrap r)) (served s l api_failed (abs_op op)) s.
Proof.
  intros Hf Hok Hm. wp_simpl. eapply wp_mono; [exact Hm|].
  intros r s' [Hc (l1&l'&Hl&Hrep&H)]. wp_simpl. split; [done|]. exists l1, l'. split_and!; [done|done|].
  destruct H as [[? ->]|[? ?]]; [left|right]; auto.
Qed.
Lemma code_only_served (m : cmd Z) s l op (ok : _ → Z → _ → Prop) :
  (∀ l1 r l', ok l1 r l' → abs_op op l1 (r, None) l') →
  wp m (served s l lock_error ok) s → wp (code_only m) (served s l api_failed (abs_op op)) s.
Proof. apply (served_wrap m (λ r, (r, None)) s l lock_error op). by intros r Hr. Qed.
Lemma answer_served {A} (w : A → api_answer) (m : cmd (Z * option A)) s l op ok :
  (∀ l1 (r : Z * option A) l', ok l1 r l' → abs_op op l1 (r.1, w <$> r.2) l') →
  wp m (served s l (λ r, lock_error r.1 ∧ r.2 = None) ok) s →
  wp (answer w m) (served s l api_failed (abs_op op)) s.
Proof.
  intros Hok Hm. apply (served_wrap m (λ r, (r.1, w <$> r.2)) s l _ op ok) in Hm.
  - unfold answer. wp_simpl. apply (proj1 (wp_bind _ _ _ _)) in Hm.
    eapply wp_mono; [exact Hm|]. by intros [r a] s'.
  - intros [r a] [? Ha]. cbn in Ha. subst a. by split.
  - done.
Qed.
Lemma run_op_served s l op :
  mutex_ok → Rep s l → limited s → op_ok op l → wp (run_op op) (served s l api_failed (abs_op op)) s.
Proof.
  intros Hm Hrep Hlim Hok. destruct op as [key value|key data ttl|key|key|key ttl|key x|key inc ttl|]; cbn [run_op].
  - destruct Hok. eapply code_only_served; [|by apply set_ex_served]. done.
  - eapply code_only_served; [|by apply set_served]. done.
  - eapply answer_served; [|by apply get_served]. intros l1 [r v] l' Ha. by exists v.
  - eapply code_only_served; [|by apply delete_served]. done.
  - eapply code_only_served; [|by apply set_ttl_served]. done.
  - eapply code_only_served; [|by apply set_expires_served]. done.
  - destruct Hok. eapply answer_served; [|by apply incr_served]. intros l1 [r n] l' Ha. by exists n.
  - eapply code_only_served; [|by apply clear_served]. done.
Qed.

Lemma run_ops_refine ops s l :
  mutex_ok → Rep s l → limited s → ops_safe ops l →
  wp (run_ops ops) (λ rs s', same_config s s' ∧ ∃ l', Rep s' l' ∧ abs_run ops l rs l') s.
Proof.
  intros Hm. revert s l. induction ops as [|op ops IH]; intros s l Hrep Hlim Hok; cbn [run_ops].
  { wp_simpl. split; [done|]. exists l. split; [done|constructor]. }
  destruct Hok as [Hop Hops]. wp_simpl. eapply wp_mono; [by apply (run_op_served s l)|].
  intros r s1 (Hc1&l1&Hrep1&Hcall)%served_call. wp_simpl.
  eapply wp_mono; [apply (IH s1 l1 Hrep1 (limited_config s s1 Hc1 Hlim)); by eapply Hops|].
  intros rs s2 (Hc2&l2&Hrep2&Hrun). wp_simpl. split; [by etrans|]. exists l2. split; [done|]. by econstructor.
Qed.

(** ** Why a call fails *)
Lemma not_false : ¬ False.
Proof. by intros []. Qed.
Definition op_key (op : api_op) : option shmcache_key_info :=
  match op with
  | Op_set_ex key _ | Op_set key _ _ | Op_get key | Op_delete key | Op_set_ttl key _
  | Op_set_expires key _ | Op_incr key _ _ => Some key
  | Op_clear => None
  end.
Definition op_stores (op : api_op) : Prop :=
  match op with Op_set_ex _ _ | Op_set _ _ _ | Op_incr _ _ _ => True | _ => False end.
(** the lengths of the value a call may have to store *)
Definition stored_length (op : api_op) (n : Z) : Prop :=
  match op with
  | Op_set_ex _ value => n = v_length value
  | Op_set _ data _ => n = Z.of_nat (length data)
  | Op_incr _ _ _ => ∃ m, n = Z.of_nat (length (sprintf_int64 m))
  | _ => False
  end.
(** what is wrong with the arguments of a call on the records [l]: the value is
    longer than [limit], what is to be incremented is no integer, the time to
    live is negative or the expiry time has passed *)
Definition invalid (op : api_op) l : Prop :=
  (∃ n, stored_length op n ∧ limit < n) ∨
  match op with
  | Op_incr key _ _ => ∃ rec now, find_key (key_data key) l = Some rec ∧ clock now ∧
      HT_ENTRY_IS_VALID (v_expires (entry_value rec)) now = true ∧ parse_int (entry_value rec) = None
  | Op_set_ttl _ ttl => ttl < 0
  | Op_set_expires _ x => ∃ now, clock now ∧ 0 < x < now
  | _ => False
  end.
(** the error number of a call, and the records after it, on the records [l] *)
Inductive explained (op : api_op) l : Z → list shmcache_hash_entry → Prop :=
| Ex_success l' : explained op l 0 l'
| Ex_absent key : op_key op = Some key → ¬ op_stores op → key_data key ∉ keys_of l →
    explained op l ENOENT l
| Ex_expired key rec now : op_key op = Some key → ¬ op_stores op →
    find_key (key_data key) l = Some rec → clock now →
    HT_ENTRY_IS_VALID (v_expires (entry_value rec)) now = false → explained op l ETIMEDOUT l
| Ex_invalid : invalid op l → explained op l EINVAL l
| Ex_long_key key : op_key op = Some key → op_stores op → SHMCACHE_MAX_KEY_SIZE < key_length key →
    explained op l ENAMETOOLONG l
| Ex_no_memory l' : op_stores op → l' `sublist_of` l → explained op l ENOMEM l'.

Lemma abs_set_explained op key value l r l' :
  op_key op = Some key → op_stores op → stored_length op (v_length value) →
  abs_set limit key value l r l' → explained op l r l'.
Proof.
  intros Hk Hs Hn. unfold abs_set. destruct (decide (r = 0)) as [->|Hr]; [intros _; constructor|].
  intros [(->&?&->)|[(->&?&->)|(->&?)]]; econstructor; eauto. left. eauto.
Qed.
Lemma set_expires_explained op key x l r l' :
  op_key op = Some key → ¬ op_stores op → set_expires_outcome l (key_data key) x r l' →
  explained op l r l'.
Proof.
  intros Hk Hs. unfold set_expires_outcome. destruct (find_key (key_data key) l) as [rec|] eqn:Hf.
  - intros (now&Hnow&H). destruct (HT_ENTRY_IS_VALID _ _) eqn:Hv; destruct H as [-> ->]; [constructor|].
    by econstructor.
  - intros [-> ->]. apply Ex_absent with key; [done|done|]. by apply find_key_none.
Qed.
Lemma incr_explained key inc ttl l r l' :
  abs_incr key inc ttl l r l' → explained (Op_incr key inc ttl) l r.1 l'.
Proof.
  unfold abs_incr. assert (∀ n, stores key n ttl l r l' → explained (Op_incr key inc ttl) l r.1 l') as Hst.
  { intros n (_&now&_&H). eapply abs_set_explained; [done..| |exact H]. by exists n. }
  destruct (find_key (key_data key) l) as [rec|] eqn:Hf; [|apply Hst].
  intros (now&Hnow&H). destruct (HT_ENTRY_IS_VALID _ _) eqn:Hv; [|by eapply Hst].
  destruct (parse_int _) eqn:Hp; [by eapply Hst|]. destruct H as [-> ->]. apply Ex_invalid. right.
  by exists rec, now.
Qed.
Lemma abs_op_explained op l r l' : abs_op op l r l' → explained op l r.1 l'.
Proof.
  destruct op as [key value|key data ttl|key|key|key ttl|key x|key inc ttl|]; cbn [abs_op].
  - by apply abs_set_explained.
  - intros (now&_&H). by eapply abs_set_explained; [..|exact H].
  - intros (v&_&->&Hf). destruct (find_key (key_data key) l) as [rec|] eqn:Hfk.
    + destruct Hf as (now&Hnow&[= -> _]). destruct (HT_ENTRY_IS_VALID _ _) eqn:Hv; [constructor|].
      eapply Ex_expired; [done|exact not_false|done..].
    + injection Hf as -> _. eapply Ex_absent; [done|exact not_false|by apply find_key_none].
  - intros [-> ->]. destruct (find_key (key_data key) l) eqn:Hfk; [constructor|].
    apply find_key_none in Hfk as Hn. rewrite without_all.
    + eapply Ex_absent; [done|exact not_false|done].
    + intros rec Hin Hkey. apply Hn, list_elem_of_fmap. by exists rec.
  - unfold abs_set_ttl. destruct (Z.ltb_spec ttl 0) as [Hneg|Hneg].
    + intros [-> ->]. apply Ex_invalid. by right.
    + intros (now&_&H). by eapply set_expires_explained; [done|exact not_false|exact H].
  - intros [(->&->&?)|H]; [apply Ex_invalid; by right|].
    by eapply set_expires_explained; [done|exact not_false|exact H].
  - intros (n&_&H). by apply incr_explained in H.
  - intros [-> _]. constructor.
Qed.

End api.

(** ** Without dead owners and errors of the mutex *)
Section alive.
Context `{E : Env} (Rep : shmcache_context → list shmcache_hash_entry → Prop) `{!CacheLaws Rep}.
Context (attempts : nat).
Implicit Types (l : list shmcache_hash_entry) (key : shmcache_key_info).

Definition peaceful : Prop := (∀ n p, os_kill0 n p = 0) ∧
  ∀ n, pthread_mutex_trylock n = 0 ∨ pthread_mutex_trylock n = EBUSY.
Lemma locked_alive l l1 : peaceful → locked l l1 → l1 = l.
Proof. intros [Hk _] [->|[_ (n&m&p&_&Hd&_)]]; [done|]. by destruct Hd. Qed.
Lemma no_lock_error r : peaceful → ¬ lock_error r.
Proof. intros [_ Ht] (H0&Hb&n&->). by destruct (Ht n). Qed.
Lemma peaceful_served {A} s l (ok : _ → A → _ → Prop) r s' (code_of : A → Z) fail :
  peaceful → (∀ r, fail r → lock_error (code_of r)) → served Rep s l fail ok r s' →
  ∃ l', Rep s' l' ∧ ok l r l'.
Proof.
  intros Hpc Hf [_ (l1&l'&Hl%(locked_alive _ _ Hpc)&Hrep&[[H _]|[H _]])]; subst l1.
  - by apply Hf, no_lock_error in H.
  - by exists l'.
Qed.

(** a stored value can be found *)
Lemma set_stores s l key value :
  mutex_ok attempts → Rep s l → key_ok key → value_ok value →
  wp (shmcache_set_ex attempts key value) (λ r s', ∃ l', Rep s' l' ∧
    (r = 0 → find_key (key_data key) l' = Some (new_record key value))) s.
Proof.
  intros Hm Hrep Hk Hv.
  eapply wp_mono; [by apply (set_ex_served Rep attempts (max_value_size (config s)))|].
  intros r s' [_ (l1&l'&_&Hrep'&H)]. exists l'. split; [done|]. intros ->.
  destruct H as [[[H _] _]|[Hset _]]; [done|]. unfold abs_set in Hset. rewrite decide_True in Hset by done.
  destruct Hset as (l0&Hsub&->). apply find_key_app_new; [|done]. intros Hin.
  apply (keys_without (key_data key) l1). unfold keys_of in *.
  eapply elem_of_sublist; [exact Hin|]. by apply fmap_sublist.
Qed.
(** with room for it, a value is stored and no other record is lost *)
Lemma wp_locked_alive s l (Q : Z → _ → Prop) :
  peaceful → mutex_ok attempts → Rep s l →
  (∀ s1, Rep s1 l → api_frame s s1 → Q 0 s1) → wp (shm_lock attempts) Q s.
Proof.
  intros Hpc (n0&Hrel&Hn0) Hrep HQ. eapply wp_mono.
  { apply (lock_spec attempts s n0); [by eapply law_clearable|done|lia]. }
  intros r s1 ((_&_&[Hf%lock_frame_api|[_ (n&m&p&_&Hd&_)]])&Hb&_&n2&Hn2).
  - destruct (proj2 Hpc n2) as [Ht|Ht]; [|congruence]. rewrite Ht in Hn2. subst r.
    apply HQ; [by eapply law_frame|done].
  - by destruct Hd; apply Hpc.
Qed.
Lemma set_ex_room s l key value :
  peaceful → mutex_ok attempts → Rep s l → key_ok key → value_ok value → storable_in s l key value →
  has_room s (entry_size (key_length key) (v_length value)) →
  wp (shmcache_set_ex attempts key value) (λ r s', r = 0 ∧
    Rep s' (without (key_data key) l ++ [new_record key value])) s.
Proof.
  intros Hpc Hm Hrep Hk Hv Hst Hroom. unfold shmcache_set_ex. wp_simpl.
  eapply wp_locked_alive; [done..|]. intros s1 Hrep1 Hf1. change (0 =? 0) with true. cbn [negb].
  eapply (wp_stats Rep); [done|]. intros s2 Hrep2 Hf2. wp_simpl.
  assert (api_frame s s2) as Hf by by etrans.
  eapply wp_mono; [apply law_set_lossless; [done..|by eapply api_frame_storable]|].
  intros r s3 (_&l'&Hrep3&[[-> ->]|(_&_&Hno&_)]); [|by destruct Hno; eapply api_frame_room].
  eapply (wp_stats Rep); [done|]. intros s4 Hrep4 Hf4. wp_simpl. eapply (wp_unlock Rep); [done|].
  intros u s5 Hrep5 ? ?. by wp_simpl.
Qed.
Lemma get_finds s l key :
  peaceful → mutex_ok attempts → Rep s l → key_ok key →
  wp (shmcache_get attempts key) (λ r s', Rep s' l ∧ get_outcome s' l (key_data key) r) s.
Proof.
  intros Hpc Hm Hrep Hk. eapply wp_mono; [by apply (get_ref_served Rep)|].
  intros r s' (_&l1&Hl%(locked_alive _ _ Hpc)&Hrep'&H). subst l1. split; [done|].
  destruct H as [[Hr _]|[H _]]; [by apply no_lock_error in Hr|done].
Qed.

End alive.

(** ** Properties *)
Section properties.
Context `{E : Env} `{L : !EnvLaws E}.
Implicit Types (l : list shmcache_hash_entry) (key : shmcache_key_info).

(** C2: refinement: any sequence of set_ex, set, get, delete, set_ttl,
    set_expires, incr and clear calls, on a well-formed cache that holds the
    records [l], returns, with results and final records that the abstract
    cache can produce: a list of records with unique keys in which a set
    appends, replacing the record with its key and possibly recycling others,
    a get returns the record with the key, ENOENT or ETIMEDOUT, a delete removes
    it, an incr stores the sum, and a recovery from a dead lock owner empties
    the list.  Increments must not overflow, which the code does not check. *)
Theorem api_refines attempts ops s l :
  mutex_ok attempts → rep s l → ops_safe (max_value_size (config s)) ops l →
  wp (run_ops attempts ops) (λ rs s', ∃ l', rep s' l' ∧
    abs_run (max_value_size (config s)) ops l rs l' ∧ NoDup (keys_of l')) s.
Proof.
  intros Hm Hrep Hok. eapply wp_mono; [by apply (run_ops_refine rep _ (max_value_size (config s)))|].
  intros rs s' (_&l'&?&?). exists l'. split_and!; [done|done|by eapply law_keys].
Qed.

(** C3: error: what the error number of a call means.  Once the lock is
    taken, a get, a delete or a change of the expiry time fails with ENOENT only
    when no record has the key, and with ETIMEDOUT only when the record of the
    key has expired.  EINVAL means that the value to be stored is longer than
    max_value_size, that an increment found a valid value that is no decimal
    integer of fewer than 24 characters, that the time to live given to
    [shmcache_set_ttl] is negative, or that the time given to
    [shmcache_set_expires] has passed; ENAMETOOLONG means that the key is too
    long.  ENOMEM, of a call that stores, may have cost other records but adds
    none; every other failure leaves all records as they are.  There are no
    further error numbers but those of the lock. *)
Theorem api_errors_explained attempts s l op :
  mutex_ok attempts → rep s l → op_ok op l →
  wp (run_op attempts op) (λ r s', ∃ l1 l', locked l l1 ∧ rep s' l' ∧
    (lock_error r.1 ∧ r.2 = None ∧ l' = l1 ∨
     explained (max_value_size (config s)) op l1 r.1 l')) s.
Proof.
  intros Hm Hrep Hok. eapply wp_mono; [by apply (run_op_served rep _ (max_value_size (config s)) s l)|].
  intros r s' (_&l'&Hrep'&l1&Hl&H)%served_call. exists l1, l'. split_and!; [done..|].
  destruct H as [H|H%abs_op_explained]; [by left|by right].
Qed.

(** C4: a value stored successfully is what the next get of its key returns,
    byte for byte with its length, options and expiry time, as long as no lock
    owner dies in between; the get reports ETIMEDOUT exactly when the entry has
    expired.  Storing does succeed when key and value are within the limits,
    fewer records than max_key_count are stored, and a queued striping has room
    for the entry. *)
Theorem get_after_set attempts s l key value :
  mutex_ok attempts → rep s l → key_ok key → value_ok value → peaceful →
  wp (r ← shmcache_set_ex attempts key value; g ← get_copy attempts key; mret (r, g))
    (λ '(r, g) s', (r = 0 → ∃ now, clock now ∧
       g = (if HT_ENTRY_IS_VALID (v_expires value) now then 0 else ETIMEDOUT, Some value)) ∧
       (storable_in s l key value → has_room s (entry_size (key_length key) (v_length value)) →
        r = 0)) s.
Proof.
  intros Hm Hrep Hk Hv Hpc. wp_simpl. eapply wp_mono.
  { apply (wp_when_true (storable_in s l key value ∧
      has_room s (entry_size (key_length key) (v_length value))));
      [by apply (set_stores rep attempts s l)|intros []; by apply (set_ex_room rep attempts s l)]. }
  intros r s1 [(l1&Hrep1&Hf) Hok]. wp_simpl. unfold get_copy. wp_simpl.
  eapply wp_mono; [by apply (get_finds rep attempts s1 l1)|].
  intros [g v] s2 [_ Ho]. wp_simpl. apply (wp_copy s2 l1 (key_data key) (g, v)); [done|].
  intros v' [_ Hg]. wp_simpl. split; [|intros H1 H2; by apply Hok]. intros ->. rewrite (Hf eq_refl) in Hg.
  destruct Hg as (now&Hnow&Heq). exists now. split; [done|]. cbn [fst] in Heq. rewrite Heq. by destruct value.
Qed.

(** C21: [shmcache_incr] is complete: on a missing or expired key it stores the
    increment; on a key whose value is a decimal integer of fewer than 24
    characters it stores the sum, in decimal and with the new expiry time; on
    any other value it returns EINVAL and changes nothing.  It needs the sum
    to fit in 64 bits, which the code does not check. *)
Theorem incr_correct attempts s l key inc ttl :
  mutex_ok attempts → rep s l → key_ok key → incr_safe (key_data key) inc l →
  wp (shmcache_incr attempts key inc ttl)
    (served rep s l incr_failed (abs_incr (max_value_size (config s)) key inc ttl)) s.
Proof. intros. by apply (incr_served rep). Qed.

(** a number that [shmcache_incr] stored is read back by the next
    increment: the text of any 64-bit integer fits the buffer of 24 characters
    and parses to the integer. *)
Theorem stored_counter_parses n now ttl :
  LLONG_MIN ≤ n ≤ LLONG_MAX → parse_int (integer_value n now ttl) = Some n.
Proof.
  intros Hn. destruct (sprintf_int64_spec n Hn) as [Hl Hp]. unfold parse_int, integer_value. cbn [v_data v_length].
  rewrite Hp. unfold sizeof_buff. rewrite (proj2 (Z.ltb_ge _ _)), (proj2 (Z.leb_gt _ _)) by lia. done.
Qed.

(** a get changes no record and counts itself: one more get in the
    statistics, and one more hit exactly when it returns 0. *)
Theorem get_counts_hits attempts s l key :
  rep s l → key_ok key → read_within_lock (lock_policy (config s)) = false →
  wp (shmcache_get attempts key) (λ r s', rep s' l ∧ get_outcome s' l (key_data key) r ∧
    total (stats_get (stats (memory s'))) = total (stats_get (stats (memory s))) + 1 ∧
    success (stats_get (stats (memory s'))) =
      success (stats_get (stats (memory s))) + (if r.1 =? 0 then 1 else 0)) s.
Proof.
  intros Hrep Hk Hcfg. unfold shmcache_get. wp_simpl. rewrite Hcfg.
  eapply wp_mono; [by apply (get_and_count_spec rep)|].
  intros [r v] s' (Hrep'&_&Ho&_&Hst). split_and!; [done|done|..]; rewrite Hst;
    unfold counted_get, count_success; cbn [fst]; destruct (Z.eqb_spec r 0); cbn; lia.
Qed.
End properties.
