(* ===== verification/Statistics.v ===== *)
(** * What the statistics say (src/shmcache.c, 954-1013)

    The counters [shmcache_stats_ex] reports describe the records of the
    cache, and its hit ratio is a proportion. *)
From S2P Require Import Prelude Types OpWrapper CLib Shmopt HentryOffset Invariant HashTable Recycle Lock CacheTable ShmCache ShmCacheSpec.
Local Open Scope Z_scope.
Local Open Scope shm_scope.

(** the gets since the ratio was last computed, and the hits among them *)
Definition gets_since (st : shm_stats) : Z := total (stats_get st) - total (last_get st).
Definition hits_since (st : shm_stats) : Z := success (stats_get st) - success (last_get st).
Definition hits_ok (st : shm_stats) : Prop := 0 ≤ hits_since st ≤ gets_since st.

Lemma hits_ok_counted r st :
  hits_ok st → hits_ok (st <| stats_get ::= counted_get r |>).
Proof.
  unfold hits_ok, hits_since, gets_since, counted_get, count_success. cbn.
  destruct (r =? 0); cbn; lia.
Qed.

Section properties.
Context `{E : Env} `{L : !EnvLaws E}.

(** the lengths of keys and values of a list of records *)
Definition total_length (f : shmcache_hash_entry → Z) (l : list shmcache_hash_entry) : Z :=
  foldr (λ r n, f r + n) 0 l.
Lemma total_length_view s es (f : shmcache_hash_entry → Z) (g : Z → Z) :
  (∀ o, f (record_of s o) = g o) → total_length f (view s es) = sum_by g es.
Proof.
  intros Hf. unfold total_length, sum_by, view. induction es as [|o es IH]; [done|].
  cbn [fmap list_fmap foldr]. by rewrite Hf, IH.
Qed.

(** a change of the statistics, of the clock and of what the kernel counts *)
Lemma inv_stats s es n t st :
  inv s es → inv (s <| ticks := n |> <| g_current_time := t |> <| memory; stats := st |>) es.
Proof. done. Qed.
Lemma view_stats s es n t st :
  view (s <| ticks := n |> <| g_current_time := t |> <| memory; stats := st |>) es = view s es.
Proof. done. Qed.

(** the ratio, the gets per second and the seconds reported *)
Definition hits_report (st : shm_stats) (seconds : Z) : Z * Z * (Z * Z) * Z :=
  if 0 <? gets_since st
  then (hits_since st, gets_since st, (gets_since st, if 0 <? seconds then seconds else 1), seconds)
  else (-1, 1, (0, 1), seconds).
Lemma hit_stats_spec s :
  hits_ok (stats (memory s)) →
  wp hit_stats (λ r s', ∃ n t st' seconds,
    s' = s <| ticks := n |> <| g_current_time := t |> <| memory; stats := st' |> ∧
    stats_get st' = stats_get (stats (memory s)) ∧ r = hits_report (stats (memory s)) seconds ∧
    last_get st' = (if (0 <? gets_since (stats (memory s))) && (0 <? seconds)
                    then stats_get st' else last_get (stats (memory s)))) s.
Proof.
  intros Hok. unfold hit_stats. apply (proj2 (wp_bind _ _ _ _)). apply (proj2 (wp_get _ _)).
  apply (proj2 (wp_bind _ _ _ _)).
  assert (wp (when (negb (g_schedule_flag s)) (t ← ext time_NULL; modify (λ s, s <| g_current_time := t |>)))
    (λ _ s1, ∃ n t, s1 = s <| ticks := n |> <| g_current_time := t |>) s) as Hclock.
  { destruct (g_schedule_flag s); cbn [negb]; wp_simpl.
    - exists (ticks s), (g_current_time s). by destruct s.
    - apply wp_ext. wp_simpl. by eexists _, _. }
  eapply wp_mono; [exact Hclock|]. intros _ s1 (n&t&->). unfold hits_report, gets_since, hits_since. wp_simpl.
  cbn [memory stats g_current_time]. change (stats (memory (s <| ticks := n |> <| g_current_time := t |>)))
    with (stats (memory s)). set (seconds := to_int _).
  assert (s <| ticks := n |> <| g_current_time := t |> =
    s <| ticks := n |> <| g_current_time := t |> <| memory; stats := stats (memory s) |>) as Hsame
    by by destruct s as [????[]].
  destruct (0 <? total _ - total _); [destruct (0 <? seconds) eqn:Hsec|]; wp_simpl.
  - exists n, t, ((stats (memory s)) <| last_calc_time := t |> <| last_get := stats_get (stats (memory s)) |>), seconds.
    split_and!; [|done|by rewrite Hsec|by rewrite Hsec].
    destruct s as [????[????????? []]]; cbn. destruct stats_get; done.
  - exists n, t, (stats (memory s)), seconds. rewrite Hsec. by split_and!.
  - exists n, t, (stats (memory s)), seconds. by split_and!.
Qed.

(** the report describes the records [es] of [s] *)
Definition describes (s : shmcache_context) (es : list Z) (st : shmcache_stats) : Prop :=
  stats_count st = Z.of_nat (length (view s es)) ∧
  used_key (stats_usage st) = total_length (λ r, key_length (entry_key r)) (view s es) ∧
  used_value (stats_usage st) = total_length (λ r, v_length (entry_value r)) (view s es) ∧
  stats_memory_used st = used_common (usage (memory s)) + sum_by (λ o, mem_size (mem_of s o)) es.

Lemma stats_ex_spec s es calc_hit_ratio :
  inv s es → hits_ok (stats (memory s)) →
  wp (shmcache_stats_ex calc_hit_ratio) (λ st s',
    inv s' es ∧ view s' es = view s es ∧ describes s es st ∧ hits_ok (stats (memory s')) ∧
    hit_ratio st = (if calc_hit_ratio && (0 <? gets_since (stats (memory s)))
                    then (hits_since (stats (memory s)), gets_since (stats (memory s))) else (-1, 1)) ∧
    (0 ≤ (hit_ratio st).1 → 0 < (hit_ratio st).2 ∧ (hit_ratio st).1 ≤ (hit_ratio st).2) ∧
    gets_since (stats (memory s')) =
      (if calc_hit_ratio && (0 <? gets_since (stats (memory s))) && (0 <? hit_seconds st)
       then 0 else gets_since (stats (memory s)))) s.
Proof.
  intros Hinv Hok. unfold shmcache_stats_ex. wp_simpl.
  assert (∀ rt q sec, describes s es (Stats (stats (memory s)) (seg_size (ht_segment s))
    (ht_capacity (hashtable (memory s))) (shm_ht_count s) (MAX_KEYS_IN_SHM s)
    (seg_size (ht_segment s) + vsize (vm_segment (memory s)) * count_max (vm_segment (memory s)))
    (used_common (usage (memory s)) + used_entry (usage (memory s))) (usage (memory s)) rt q sec)) as Hdesc.
  { intros rt q sec. pose proof Hinv as (_&_&(_&_&_&Hue)&_&(_&_&_&Hc&Huk&Huv)). unfold describes. cbn.
    rewrite (total_length_view _ _ _ (λ o, key_len (hdr s o))) by done.
    rewrite (total_length_view _ _ _ (λ o, value_length (he_value (hdr s o)))) by done.
    rewrite length_view. split_and!; [exact Hc|exact Huk|exact Huv|by rewrite Hue]. }
  unfold hits_ok in Hok. destruct calc_hit_ratio; cbn [andb]; wp_simpl.
  2: { split_and!; try done. }
  eapply wp_mono; [by apply hit_stats_spec|]. intros r s1 (n&t&st'&sec&->&Hg&->&Hl).
  unfold hits_report. destruct (Z.ltb_spec 0 (gets_since (stats (memory s)))) as [Hd|Hd]; cbn [andb] in *; wp_simpl.
  all: split_and!; try done; cbn; try lia.
  all: unfold hits_ok, gets_since, hits_since in *; rewrite Hg, Hl, ?Hg.
  all: destruct (0 <? sec); cbn [andb]; rewrite ?Hg; lia.
Qed.

(** C29: the statistics are exact: the count, the bytes of keys and values and
    the memory in use are those of the records; the hit ratio is the number of
    hits over the number of gets since the last report, a proportion, or -1
    when there was no get; reporting changes no record and counts the next
    ratio from now once a second has passed. *)
Theorem stats_correct s es calc_hit_ratio :
  inv s es → hits_ok (stats (memory s)) →
  wp (shmcache_stats_ex calc_hit_ratio) (λ st s',
    inv s' es ∧ view s' es = view s es ∧ describes s es st ∧ hits_ok (stats (memory s')) ∧
    hit_ratio st = (if calc_hit_ratio && (0 <? gets_since (stats (memory s)))
                    then (hits_since (stats (memory s)), gets_since (stats (memory s))) else (-1, 1)) ∧
    (0 ≤ (hit_ratio st).1 → 0 < (hit_ratio st).2 ∧ (hit_ratio st).1 ≤ (hit_ratio st).2) ∧
    gets_since (stats (memory s')) =
      (if calc_hit_ratio && (0 <? gets_since (stats (memory s))) && (0 <? hit_seconds st)
       then 0 else gets_since (stats (memory s)))) s.
Proof. apply stats_ex_spec. Qed.
End properties.
