(* ===== verification/Sizing.v ===== *)
(** * Sizes and layout (src/shmcache.c, 21-129)

    [shmcache_init] computes from the configuration the sizes of the segments
    and the stripings, their numbers, and where the parts of the hashtable
    segment lie.  The arithmetic is that of [int64_t] and [int]; a division
    by 0 is a fault. *)
From S2P Require Import Prelude Types ObjectPool HashTable.
Local Open Scope Z_scope.
Local Open Scope shm_scope.

Section Sizing.
Context `{E : Env}.

Definition SHMCACE_MEM_ALIGN (x align : Z) : Z :=
  Z.land (x + (align - 1)) (Z.lnot (align - 1)).

(** [x / y] of C *)
Definition c_div (x y : Z) : cmd Z := if y =? 0 then fault else mret (Z.quot x y).

(** get_value_segment_count_size (35-47) *)
Definition get_value_segment_count_size (cfg : shmcache_config) (value_max_memory : Z) :
    cmd shm_value_size_info :=
  let size := SHMCACE_MEM_ALIGN (segment_size cfg) getpagesize in
  q ← c_div value_max_memory size;
  let max := to_int q in
  mret (Value_size_info size 0 (if max =? 0 then 1 else max)).

(** the number of megabytes of a striping (61-72) *)
Definition striping_mb_count (segment_size : Z) : Z :=
  let mb_count := to_int (Z.quot segment_size (128 * 1024 * 1024)) in
  if mb_count =? 0 then 1
  else if 8 <? mb_count then 8
  else if (2 <? mb_count) && (mb_count <? 4) then 2
  else if (4 <? mb_count) && (mb_count <? 8) then 4
  else mb_count.

(** the size of a striping (74-81) *)
Definition striping_size (cfg : shmcache_config) (segment : shm_value_size_info) : Z :=
  let size := striping_mb_count (vsize segment) * 1024 * 1024 in
  let size := if size <? max_value_size cfg * 2 then max_value_size cfg * 2 else size in
  let size := SHMCACE_MEM_ALIGN size getpagesize in
  if vsize segment <? size then vsize segment else size.

(** get_value_striping_count_size (49-84): segment and striping *)
Definition get_value_striping_count_size (cfg : shmcache_config) (value_max_memory : Z) :
    cmd (shm_value_size_info * shm_value_size_info) :=
  segment ← get_value_segment_count_size cfg value_max_memory;
  let size := striping_size cfg segment in
  n ← c_div (vsize segment) size;
  mret (segment, Value_size_info size 0 (to_int (count_max segment * n))).

(** the [ht_offsets] array *)
Record ht_offsets := Ht_offsets {
  OFFSETS_INDEX_HT_BUCKETS : Z;
  OFFSETS_INDEX_HT_POOL_QUEUE : Z;
  OFFSETS_INDEX_VA_POOL_QUEUE_DOING : Z;
  OFFSETS_INDEX_VA_POOL_QUEUE_DONE : Z;
  OFFSETS_INDEX_VA_POOL_OBJECT : Z;
}.

(** the layout of the hashtable segment (97-123) and its size *)
Definition ht_layout (cfg : shmcache_config) (ht_capacity striping_max : Z) : ht_offsets * Z :=
  let o_buckets := sizeof_shm_memory_info in
  let o_queue := o_buckets + shm_ht_get_memory_size ht_capacity in
  let o_doing := o_queue + Pool.shm_object_pool_get_queue_memory_size (max_key_count cfg + 1) in
  let va_queue := Pool.shm_object_pool_get_queue_memory_size (striping_max + 1) in
  let o_done := o_doing + va_queue in
  let o_object := o_done + va_queue in
  (Ht_offsets o_buckets o_queue o_doing o_done o_object,
   o_object + Pool.shm_object_pool_get_object_memory_size sizeof_shm_striping_allocator striping_max).

(** shmcache_get_ht_segment_size (86-129) *)
Definition shmcache_get_ht_segment_size (cfg : shmcache_config) :
    cmd (Z * shm_value_size_info * shm_value_size_info * Z * ht_offsets) :=
  '(_, striping) ← get_value_striping_count_size cfg (max_memory cfg);
  let ht_capacity := shm_ht_get_capacity (max_key_count cfg + 1) in
  let '(offs, total_size) := ht_layout cfg ht_capacity (count_max striping) in
  '(segment, striping) ← get_value_striping_count_size cfg (max_memory cfg - total_size);
  mret (total_size, segment, striping, ht_capacity, offs).


(** ** Alignment *)
Definition page_ok : Prop := ∃ k, 0 ≤ k ≤ 20 ∧ getpagesize = 2 ^ k.

Lemma mem_align_spec x k : 0 ≤ k → 0 ≤ x →
  SHMCACE_MEM_ALIGN x (2 ^ k) = (x + (2 ^ k - 1)) / 2 ^ k * 2 ^ k.
Proof.
  intros Hk Hx. unfold SHMCACE_MEM_ALIGN. rewrite <-Z.ldiff_land.
  replace (2 ^ k - 1) with (Z.ones k) at 2 by (rewrite Z.ones_equiv; lia).
  rewrite Z.ldiff_ones_r by done. by rewrite Z.shiftr_div_pow2, Z.shiftl_mul_pow2 by done.
Qed.
Lemma mem_align_bounds x : page_ok → 0 ≤ x →
  x ≤ SHMCACE_MEM_ALIGN x getpagesize < x + getpagesize ∧
  (getpagesize | SHMCACE_MEM_ALIGN x getpagesize) ∧ 0 < getpagesize ≤ 2 ^ 20.
Proof.
  intros (k&Hk&->) Hx. rewrite mem_align_spec by lia.
  assert (0 < 2 ^ k) by (apply Z.pow_pos_nonneg; lia).
  assert (2 ^ k ≤ 2 ^ 20) by (apply Z.pow_le_mono_r; lia).
  pose proof (Z.div_mod (x + (2 ^ k - 1)) (2 ^ k)). pose proof (Z.mod_pos_bound (x + (2 ^ k - 1)) (2 ^ k)).
  split_and!; [lia|lia| |lia|lia]. apply Z.divide_factor_r.
Qed.

(** ** The number of megabytes of a striping *)
Lemma striping_mb_range x : 0 ≤ x < 2 ^ 31 → 1 ≤ striping_mb_count x ≤ 8.
Proof.
  intros Hx. unfold striping_mb_count. rewrite Z.quot_div_nonneg by lia.
  change (128 * 1024 * 1024) with (2 ^ 27).
  assert (0 ≤ x / 2 ^ 27 < 16) by (split; [apply Z.div_pos; lia|apply Z.div_lt_upper_bound; lia]).
  unfold to_int. rewrite wrap_signed_small by lia. set (q := x / 2 ^ 27) in *. clearbody q.
  destruct (Z.eqb_spec q 0), (Z.ltb_spec 8 q), (Z.ltb_spec 2 q), (Z.ltb_spec q 4),
    (Z.ltb_spec 4 q), (Z.ltb_spec q 8); cbn [andb]; lia.
Qed.

(** ** Valid configurations *)
Record config_ok (cfg : shmcache_config) : Prop := {
  ok_page : page_ok;
  ok_segment : 0 < segment_size cfg ≤ 2 ^ 30;
  ok_value : 0 < max_value_size cfg ≤ 2 ^ 29;
  ok_memory : 0 < max_memory cfg ≤ 2 ^ 35;
  ok_segments : max_memory cfg ≤ 256 * segment_size cfg;
}.

(** what the sizes are, and that they make a [geometry] *)
Definition segment_info (cfg : shmcache_config) (v : Z) : shm_value_size_info :=
  let size := SHMCACE_MEM_ALIGN (segment_size cfg) getpagesize in
  Value_size_info size 0 (Z.max 1 (v / size)).
Definition striping_info (cfg : shmcache_config) (v : Z) : shm_value_size_info :=
  let segment := segment_info cfg v in
  let size := striping_size cfg segment in
  Value_size_info size 0 (count_max segment * (vsize segment / size)).
Definition sizing_ok (segment striping : shm_value_size_info) : Prop :=
  (0 < vsize striping ≤ vsize segment ∧ vsize segment < 2 ^ 31) ∧
  (count_current segment = 0 ∧ count_current striping = 0) ∧
  1 ≤ count_max segment ≤ 256 ∧
  count_max striping = count_max segment * (vsize segment / vsize striping) ∧
  1 ≤ count_max striping ≤ 2 ^ 15.

Lemma segment_size_bounds cfg : config_ok cfg →
  segment_size cfg ≤ SHMCACE_MEM_ALIGN (segment_size cfg) getpagesize < 2 ^ 31.
Proof.
  intros [Hp Hs _ _ _]. destruct (mem_align_bounds (segment_size cfg) Hp); lia.
Qed.
Lemma striping_size_bounds cfg v : config_ok cfg →
  let segment := segment_info cfg v in
  0 < striping_size cfg segment ≤ vsize segment ∧
  (2 ^ 20 ≤ striping_size cfg segment ∨ striping_size cfg segment = vsize segment) ∧
  (2 * max_value_size cfg ≤ striping_size cfg segment ∨ striping_size cfg segment = vsize segment).
Proof.
  intros Hc. pose proof (segment_size_bounds cfg Hc) as Hseg. destruct Hc as [Hp Hs Hv _ _].
  unfold striping_size, segment_info. cbn [vsize].
  set (x := SHMCACE_MEM_ALIGN (segment_size cfg) _) in *. clearbody x.
  pose proof (striping_mb_range x ltac:(lia)) as Hmb.
  set (y := striping_mb_count x * 1024 * 1024). set (z := if y <? _ then _ else y).
  assert (2 ^ 20 ≤ z ∧ 2 * max_value_size cfg ≤ z) as [Hz1 Hz2].
  { subst z y. destruct (Z.ltb_spec (striping_mb_count x * 1024 * 1024) (max_value_size cfg * 2)); lia. }
  destruct (mem_align_bounds z Hp) as [? _]; [lia|].
  destruct (Z.ltb_spec x (SHMCACE_MEM_ALIGN z getpagesize)); split_and!; auto; lia.
Qed.

Lemma sizing_ok_info cfg v : config_ok cfg → 0 ≤ v ≤ max_memory cfg →
  sizing_ok (segment_info cfg v) (striping_info cfg v).
Proof.
  intros Hc Hv. destruct (striping_size_bounds cfg v Hc) as (Hsz&Hmb&_).
  pose proof (segment_size_bounds cfg Hc) as Hseg. destruct Hc as [_ Hs _ Hm H256].
  unfold sizing_ok, striping_info. cbn [vsize count_max count_current].
  set (st := striping_size cfg _) in *. unfold segment_info in *. cbn [vsize count_max] in *.
  set (x := SHMCACE_MEM_ALIGN (segment_size cfg) _) in *.
  assert (v / x ≤ 256) as Hq by (apply Z.lt_succ_r, Z.div_lt_upper_bound; lia).
  assert (1 ≤ x / st) as H1 by (apply Z.div_le_lower_bound; lia).
  split_and!; try (cbn; lia).
  destruct Hmb as [Hmb|Heq].
  2: { rewrite Heq in *. rewrite Z.div_same by lia. lia. }
  pose proof (Z.mul_div_le x st ltac:(lia)). pose proof (Z.mul_div_le v x ltac:(lia)).
  destruct (Z.max_spec 1 (v / x)) as [[? ->]|[? ->]]; [|nia].
  enough (v / x * (x / st) * 2 ^ 20 ≤ 2 ^ 35) by lia.
  enough (v / x * (x / st) * st ≤ 2 ^ 35) by nia. nia.
Qed.

Lemma segment_count_size_spec cfg v s : config_ok cfg → 0 ≤ v ≤ max_memory cfg →
  wp (get_value_segment_count_size cfg v) (λ r s', s' = s ∧ r = segment_info cfg v) s.
Proof.
  intros Hc Hv. pose proof (segment_size_bounds cfg Hc) as Hseg.
  destruct Hc as [_ Hs _ Hm H256]. unfold get_value_segment_count_size, c_div, segment_info. wp_simpl.
  set (x := SHMCACE_MEM_ALIGN (segment_size cfg) _) in *.
  rewrite (proj2 (Z.eqb_neq _ _)) by lia. wp_simpl. rewrite Z.quot_div_nonneg by lia.
  assert (0 ≤ v / x ≤ 256) as Hq
    by (split; [apply Z.div_pos; lia|apply Z.lt_succ_r, Z.div_lt_upper_bound; lia]).
  assert (to_int (v / x) = v / x) as -> by (apply wrap_signed_small; lia).
  split; [done|]. f_equal. destruct (Z.eqb_spec (v / x) 0); lia.
Qed.

Lemma striping_count_size_spec cfg v s : config_ok cfg → 0 ≤ v ≤ max_memory cfg →
  wp (get_value_striping_count_size cfg v)
    (λ r s', s' = s ∧ r = (segment_info cfg v, striping_info cfg v)) s.
Proof.
  intros Hc Hv. pose proof (sizing_ok_info cfg v Hc Hv) as ([Hsz ?]&_&Hcm&Hst&H15).
  unfold get_value_striping_count_size, c_div. wp_simpl.
  eapply wp_mono; [by apply segment_count_size_spec|]. intros seg s' [-> ->]. wp_simpl.
  unfold striping_info in *. cbn [vsize count_max] in *.
  rewrite (proj2 (Z.eqb_neq _ _)) by lia. wp_simpl. split; [done|]. do 2 f_equal.
  rewrite Z.quot_div_nonneg by lia. apply wrap_signed_small; lia.
Qed.

(** ** The layout of the hashtable segment *)
Definition ht_capacity_of (cfg : shmcache_config) : Z := shm_ht_get_capacity (max_key_count cfg + 1).
Definition layout_of (cfg : shmcache_config) : ht_offsets * Z :=
  ht_layout cfg (ht_capacity_of cfg) (count_max (striping_info cfg (max_memory cfg))).
(** what is left for the values *)
Definition value_memory (cfg : shmcache_config) : Z := max_memory cfg - (layout_of cfg).2.

Lemma ht_segment_size_spec cfg s : config_ok cfg → 0 ≤ (layout_of cfg).2 ≤ max_memory cfg →
  wp (shmcache_get_ht_segment_size cfg) (λ r s', s' = s ∧
    r = ((layout_of cfg).2, segment_info cfg (value_memory cfg), striping_info cfg (value_memory cfg),
         ht_capacity_of cfg, (layout_of cfg).1)) s.
Proof.
  intros Hc Hl. pose proof (ok_memory cfg Hc). unfold shmcache_get_ht_segment_size. wp_simpl.
  eapply wp_mono; [apply striping_count_size_spec; [done|lia]|]. intros r s' [-> ->]. wp_simpl.
  fold (ht_capacity_of cfg). fold (layout_of cfg). unfold value_memory in *.
  destruct (layout_of cfg) as [offs total] eqn:Hlo. cbn [fst snd] in *. wp_simpl.
  eapply wp_mono; [apply striping_count_size_spec; [done|lia]|]. intros r s' [-> ->]. by wp_simpl.
Qed.

(** fewer stripings fit in less memory *)
Lemma striping_info_mono cfg v w : config_ok cfg → 0 ≤ v ≤ w → w ≤ max_memory cfg →
  count_max (striping_info cfg v) ≤ count_max (striping_info cfg w).
Proof.
  intros Hc Hv Hw. pose proof (striping_size_bounds cfg v Hc) as ([? _]&_).
  pose proof (segment_size_bounds cfg Hc). pose proof (ok_segment cfg Hc).
  unfold striping_info. cbn [count_max].
  assert (striping_size cfg (segment_info cfg w) = striping_size cfg (segment_info cfg v)) as -> by done.
  change (vsize (segment_info cfg w)) with (vsize (segment_info cfg v)).
  set (n := vsize _ / _). assert (0 ≤ n) by (apply Z.div_pos; cbn in *; lia).
  apply Z.mul_le_mono_nonneg_r; [done|]. cbn.
  assert (v / SHMCACE_MEM_ALIGN (segment_size cfg) getpagesize ≤ w / SHMCACE_MEM_ALIGN (segment_size cfg) getpagesize)
    by (apply Z.div_le_mono; lia). lia.
Qed.
End Sizing.

(** ** Properties *)
Section properties.
Context `{E : Env}.

(** C32: for a valid configuration (a page size that is a power of two,
    segments of at most 1 GiB, values of at most 512 MiB, at most 32 GiB in at
    most 256 segments) and a hashtable segment that fits, the computed sizes
    are consistent: a striping is at most a segment and at least two values of
    the maximal size (or the whole segment), the number of stripings is the
    number of segments times the stripings per segment, at least one and
    representable as the [short] an allocator stores it in. *)
Theorem sizing_consistent cfg s :
  config_ok cfg → 0 ≤ (layout_of cfg).2 ≤ max_memory cfg →
  wp (shmcache_get_ht_segment_size cfg) (λ '(total, segment, striping, cap, offs) s', s' = s ∧
    sizing_ok segment striping ∧ segment_size cfg ≤ vsize segment ∧
    (2 * max_value_size cfg ≤ vsize striping ∨ vsize striping = vsize segment) ∧
    to_short (count_max striping - 1) = count_max striping - 1) s.
Proof.
  intros Hc Hl. eapply wp_mono; [by apply ht_segment_size_spec|]. intros r s' [-> ->].
  assert (0 ≤ value_memory cfg ≤ max_memory cfg) as Hv by (unfold value_memory; lia).
  pose proof (sizing_ok_info cfg _ Hc Hv) as Hsz.
  split_and!; [done|done| | |].
  - by apply segment_size_bounds.
  - by apply striping_size_bounds.
  - destruct Hsz as (_&_&_&_&?). apply wrap_signed_small; lia.
Qed.

(** C33: the regions of the hashtable segment do not overlap and are large
    enough: the header, [ht_capacity] buckets, the two queues of
    [count_max + 1] slots and [count_max] allocators, for the number of
    stripings finally chosen, which never exceeds the one the layout was made
    for. *)
Theorem layout_sound cfg s :
  config_ok cfg → 0 ≤ (layout_of cfg).2 ≤ max_memory cfg → 0 ≤ max_key_count cfg →
  0 ≤ ht_capacity_of cfg →
  wp (shmcache_get_ht_segment_size cfg) (λ '(total, _, striping, cap, offs) s', s' = s ∧
    sizeof_shm_memory_info ≤ OFFSETS_INDEX_HT_BUCKETS offs ∧
    OFFSETS_INDEX_HT_BUCKETS offs + sizeof_int64 * cap ≤ OFFSETS_INDEX_VA_POOL_QUEUE_DOING offs ∧
    OFFSETS_INDEX_VA_POOL_QUEUE_DOING offs + sizeof_int64 * (count_max striping + 1)
      ≤ OFFSETS_INDEX_VA_POOL_QUEUE_DONE offs ∧
    OFFSETS_INDEX_VA_POOL_QUEUE_DONE offs + sizeof_int64 * (count_max striping + 1)
      ≤ OFFSETS_INDEX_VA_POOL_OBJECT offs ∧
    OFFSETS_INDEX_VA_POOL_OBJECT offs + sizeof_shm_striping_allocator * count_max striping
      ≤ total) s.
Proof.
  intros Hc Hl Hk Hcap. eapply wp_mono; [by apply ht_segment_size_spec|]. intros r s' [-> ->].
  assert (0 ≤ value_memory cfg ≤ max_memory cfg) as Hv by (unfold value_memory; lia).
  assert (count_max (striping_info cfg (value_memory cfg))
          ≤ count_max (striping_info cfg (max_memory cfg))) as Hm
    by (apply striping_info_mono; [done|lia|lia]).
  pose proof (sizing_ok_info cfg (value_memory cfg) Hc Hv) as (_&_&_&_&Hcs).
  split; [done|]. unfold layout_of, ht_layout, shm_ht_get_memory_size,
    Pool.shm_object_pool_get_queue_memory_size, Pool.shm_object_pool_get_object_memory_size.
  cbn [fst snd OFFSETS_INDEX_HT_BUCKETS OFFSETS_INDEX_VA_POOL_QUEUE_DOING
       OFFSETS_INDEX_VA_POOL_QUEUE_DONE OFFSETS_INDEX_VA_POOL_OBJECT].
  unfold sizeof_int64, sizeof_shm_memory_info, sizeof_shm_striping_allocator. lia.
Qed.

(** when the memory left for values is negative by a segment or more, the
    number of segments is negative: the code tests the quotient only for 0. *)
Theorem negative_segment_count cfg v s :
  config_ok cfg → - 2 ^ 30 ≤ v → v ≤ - SHMCACE_MEM_ALIGN (segment_size cfg) getpagesize →
  wp (get_value_segment_count_size cfg v) (λ r s', s' = s ∧ count_max r < 0) s.
Proof.
  intros Hc Hlo Hv. pose proof (segment_size_bounds cfg Hc) as Hseg. pose proof (ok_segment cfg Hc).
  unfold get_value_segment_count_size, c_div. wp_simpl.
  set (x := SHMCACE_MEM_ALIGN (segment_size cfg) _) in *.
  rewrite (proj2 (Z.eqb_neq _ _)) by lia. wp_simpl. split; [done|]. cbn [count_max].
  assert (- 2 ^ 30 ≤ Z.quot v x ≤ -1) as Hq.
  { assert (Z.quot v x = - ((- v) / x)) as ->.
    { rewrite <-Z.quot_div_nonneg, Z.quot_opp_l by lia. lia. }
    assert (1 ≤ (- v) / x) by (apply Z.div_le_lower_bound; lia).
    assert ((- v) / x ≤ 2 ^ 30) by (apply Z.div_le_upper_bound; nia). lia. }
  assert (to_int (Z.quot v x) = Z.quot v x) as -> by (apply wrap_signed_small; lia).
  destruct (Z.eqb_spec (Z.quot v x) 0); lia.
Qed.
End properties.
