(* ===== verification/Init.v ===== *)
(** * Initialisation (src/shmcache.c, 131-519)

    [shmcache_init] runs on a state whose shared parts (the memory header, the
    queues, the allocators, the value segments) are what the mapped segment
    contains: all zeros when it is new, another process's data otherwise. *)
From S2P Require Import Prelude Types OpWrapper ObjectPool Striping Shmopt HentryOffset ShmList Invariant SegmentGrowth HashTable Lock ShmCache Sizing.
Local Open Scope Z_scope.
Local Open Scope shm_scope.

Section Init.
Context `{E : Env}.

Definition SHM_HASH_TABLE_PROJ_ID : Z := 1.

(** shmcache_set_object_pool_context (131-147): on one of the two pools *)
Definition shmcache_set_object_pool_context (elem_size obj_base_offset queue_capacity : Z)
    (init_full : bool) : Pool.cmd unit :=
  modify (λ op, op <| obj_pool_info; element_size := elem_size |>
                   <| obj_pool_info; base_offset := obj_base_offset |>
                   <| obj_pool_info; queue; capacity := queue_capacity |>);;
  modify (λ op, Pool.shm_object_pool_set (obj_pool_info op) (offsets op));;
  if init_full then Pool.shm_object_pool_init_full else Pool.shm_object_pool_init_empty.

(** shmcache_do_init (149-178) *)
Definition shmcache_do_init (offs : ht_offsets) : cmd Z :=
  result ← shm_lock_init;
  if negb (result =? 0) then mret result
  else
    s ← get;
    let queue_capacity := count_max (vm_striping (memory s)) + 1 in
    on_doing (shmcache_set_object_pool_context sizeof_shm_striping_allocator
      (OFFSETS_INDEX_VA_POOL_OBJECT offs) queue_capacity false);;
    on_done (shmcache_set_object_pool_context sizeof_shm_striping_allocator
      (OFFSETS_INDEX_VA_POOL_OBJECT offs) queue_capacity false);;
    mret 0.

(** shmcache_do_lock_init (180-224) *)
Definition do_first_init (ht_capacity : Z) (segment striping : shm_value_size_info)
    (offs : ht_offsets) : cmd Z :=
  s ← get;
  if status (memory s) =? SHMCACHE_STATUS_NORMAL then mret (- EEXIST)
  else
    modify (λ s, s <| memory; vm_segment := segment |> <| memory; vm_striping := striping |>);;
    shm_ht_init ht_capacity;;
    shm_list_init;;
    result ← shmcache_do_init offs;
    if negb (result =? 0) then mret result
    else
      now ← ext get_current_time;
      modify (λ s, s <| memory; stats; last_calc_time := now |>
                     <| memory; stats; stats_init_time := now |>
                     <| memory; init_time := now |>
                     <| memory; usage; alloced := seg_size (ht_segment s) |>
                     <| memory; usage; used_common := seg_size (ht_segment s) |>);;
      result ← shmopt_create_value_segment;
      if negb (result =? 0) then mret result
      else
        modify (λ s, s <| memory; mi_size := sizeof_shm_memory_info |>
                       <| memory; mi_max_key_count := max_key_count (config s) |>
                       <| memory; status := SHMCACHE_STATUS_NORMAL |>);;
        mret result.
Definition shmcache_do_lock_init (ht_capacity : Z) (segment striping : shm_value_size_info)
    (offs : ht_offsets) : cmd Z :=
  result ← shm_lock_file;
  if negb (result =? 0) then mret result
  else
    result ← do_first_init ht_capacity segment striping offs;
    shm_unlock_file;;
    mret result.

(** shmcache_set_obj_allocators (226-243) *)
Definition shmcache_set_obj_allocators (offs : ht_offsets) : cmd unit :=
  modify (λ s, s
    <| doing ::= λ op, Pool.shm_object_pool_set (obj_pool_info op) (offsets op) |>
    <| done_pool ::= λ op, Pool.shm_object_pool_set (obj_pool_info op) (offsets op) |>
    <| allocators_offset := OFFSETS_INDEX_VA_POOL_OBJECT offs |>).

(** shmcache_check_segement (295-316) *)
Definition shmcache_check_segement (shm cfg : shm_value_size_info) : Z :=
  if negb (vsize shm =? vsize cfg) then EINVAL
  else if negb (count_max shm =? count_max cfg) then EINVAL
  else 0.

(** shmcache_check (318-360) *)
Definition shmcache_check (s : shmcache_context) (segment striping : shm_value_size_info) : Z :=
  let mem := memory s in
  if negb (mi_size mem =? sizeof_shm_memory_info) then EINVAL
  else if negb (status mem =? SHMCACHE_STATUS_NORMAL) then EINVAL
  else if negb (max_key_count (config s) =? MAX_KEYS_IN_SHM s) then EINVAL
  else
    let result := shmcache_check_segement (vm_segment mem) segment in
    if negb (result =? 0) then result
    else shmcache_check_segement (vm_striping mem) striping.

(** the loop (424-436) that reaches [min_memory] *)
Fixpoint min_memory_loop (fuel : nat) (min_mem result : Z) : cmd Z :=
  match fuel with
  | O => fault
  | S fuel =>
    s ← get;
    let segment := vm_segment (memory s) in
    if seg_size (ht_segment s) + vsize segment * count_current segment <? min_mem then
      result ← shmopt_create_value_segment;
      if negb (result =? 0) then mret result
      else
        s ← get;
        let segment := vm_segment (memory s) in
        if count_max segment <=? count_current segment then mret result
        else min_memory_loop fuel min_mem result
    else mret result
  end.

(** mapping the value segments, up to [min_memory] (419-438) *)
Definition init_values (attempts : nat) (cfg : shmcache_config) : cmd Z :=
  result ← shmopt_open_value_segments;
  s ← get;
  let vm := vm_segment (memory s) in
  if (result =? 0) && (count_current vm <? count_max vm) then
    shm_lock attempts;;
    s ← get;
    let vm := vm_segment (memory s) in
    result ← min_memory_loop (S (Z.to_nat (count_max vm - count_current vm)))
               (min_memory cfg) result;
    shm_unlock;;
    mret result
  else mret result.

(** lines 411-439 *)
Definition init_create (attempts : nat) (cfg : shmcache_config) (ht_capacity : Z)
    (segment striping : shm_value_size_info) (offs : ht_offsets) : cmd Z :=
  s ← get;
  result ← (if status (memory s) =? SHMCACHE_STATUS_INIT
            then shmcache_do_lock_init ht_capacity segment striping offs
            else mret 0);
  if negb ((result =? 0) || (result =? - EEXIST)) then mret result
  else init_values attempts cfg.

Definition sizeof_shmcache_segment_info : Z := 24.
(** the offset of the list head in the hashtable segment *)
Definition offsetof_hashtable_head : Z := 440.

(** shmcache_init (362-519); [my_pid] is getpid() *)
Definition shmcache_init (attempts : nat) (my_pid : Z) (cfg : shmcache_config)
    (create check : bool) : cmd Z :=
  modify (λ s, s <| pid := my_pid |> <| lock_fd := -1 |> <| detect_deadlock_clocks := 0 |>
                 <| config := cfg |> <| ht_segment := segment_zero |> <| values_count := 0 |>
                 <| values_items := [] |> <| create_segment := create |>);;
  '(ht_segment_size, segment, striping, ht_capacity, offs) ← shmcache_get_ht_segment_size cfg;
  ht_segment_exists ← shm_exists (cfg_type cfg) (filename cfg) SHM_HASH_TABLE_PROJ_ID;
  s ← get;
  '(result, seg) ← shmopt_init_segment (ht_segment s) SHM_HASH_TABLE_PROJ_ID ht_segment_size;
  modify (λ s, s <| ht_segment := seg |>);;
  if negb (result =? 0) then mret result
  else
    ok ← ext (λ n, malloc_ok n (to_int (sizeof_shmcache_segment_info * count_max segment)));
    if negb ok then mret ENOMEM
    else
      modify (λ s, s <| values_items := replicate (Z.to_nat (count_max segment)) segment_zero |>);;
      (* [context->memory] is dereferenced from here on *)
      (if (base seg =? 0) || (base seg =? MAP_FAILED) then fault else mret tt);;
      shm_list_set offsetof_hashtable_head;;
      shmcache_set_obj_allocators offs;;
      s ← get;
      let checked := if ht_segment_exists && check then shmcache_check s segment striping else 0 in
      if negb (checked =? 0) then mret checked
      else
        result ← (if create then init_create attempts cfg ht_capacity segment striping offs
                  else mret checked);
        let policy := lock_policy cfg in
        when (0 <? trylock_interval_us policy)
          (modify (λ s, s <| detect_deadlock_clocks :=
             Z.quot (to_int (1000 * detect_deadlock_interval_ms policy)) (trylock_interval_us policy) |>));;
        mret result.

(** ** A new cache

    What the first process finds in the segments it just created: zeros, in
    arrays of the sizes the configuration gives. *)
Definition pristine (ht_capacity : Z) (segment striping : shm_value_size_info)
    (s : shmcache_context) : Prop :=
  (status (memory s) = SHMCACHE_STATUS_INIT ∧ values_count s = 0) ∧
  buckets (hashtable (memory s)) = replicate (Z.to_nat ht_capacity) 0 ∧
  (used_entry (usage (memory s)) = 0 ∧ used_key (usage (memory s)) = 0 ∧
   used_value (usage (memory s)) = 0) ∧
  (Z.of_nat (length (values_items s)) = count_max segment ∧
   Z.of_nat (length (allocators s)) = count_max striping) ∧
  0 < allocators_offset s ∧ ∃ h, list_head_offset s = hentry_pack (-1) h.
Definition queues_sized (striping : shm_value_size_info) (s : shmcache_context) : Prop :=
  Z.of_nat (length (offsets (doing s))) = count_max striping + 1 ∧
  Z.of_nat (length (offsets (done_pool s))) = count_max striping + 1.

(** an initialised queue *)
Definition empty_queue (op : shmcache_object_pool_context) (cap : Z) : Prop :=
  Pool.wf op ∧ capacity (queue (obj_pool_info op)) = cap ∧ Pool.contents op = [].

Lemma pristine_inv ht_capacity' segment striping s :
  pristine ht_capacity' segment striping s → sizing_ok segment striping →
  0 < ht_capacity' < 2 ^ 31 →
  vm_segment (memory s) = segment → vm_striping (memory s) = striping →
  ht_capacity (hashtable (memory s)) = ht_capacity' → ht_count (hashtable (memory s)) = 0 →
  empty_queue (doing s) (count_max striping + 1) → empty_queue (done_pool s) (count_max striping + 1) →
  dll s [] → inv s [].
Proof.
  intros ((_&Hvc)&Hb&(Hu1&Hu2&Hu3)&(Hvi&Hal)&Hao&Hlh) ((Hsz&Hs31)&(Hc1&Hc2)&Hm&Hst&H15) Hcap
    Hseg Hstr Hc Hn (Hw1&Hq1&He1) (Hw2&Hq2&He2) Hd.
  assert (current_stripings s = 0) as Hcur by (unfold current_stripings; by rewrite Hstr).
  split_and!; [split_and!| | |done|].
  all: rewrite ?Hseg, ?Hstr; try done; try lia.
  - unfold stripings_per_segment. by rewrite Hseg, Hstr.
  - intros i Hi. lia.
  - split_and!.
    + split_and!; [done|by rewrite Hq1, Hstr|rewrite He1; constructor|rewrite He1; constructor].
    + split_and!; [done|by rewrite Hq2, Hstr|rewrite He2; constructor|rewrite He2; constructor].
    + intros i Hi. lia.
  - split_and!; [constructor|constructor| |done]. intros i Hi. lia.
  - split_and!; [constructor|constructor| |split_and!; done].
    unfold buckets_ok. rewrite Hc, Hb, length_replicate. split; [done|]. split; [lia|].
    intros b Hbr. exists 0, []. split_and!; [by apply replicate_lookup_znth|done|done].
Qed.

(** error numbers of the calls are not negative *)
Record init_errors : Prop := {
  err_os : errno_ok;
  err_file_lock : ∀ n fd, 0 ≤ file_write_lock n fd;
  err_attr_init : ∀ n, 0 ≤ pthread_mutexattr_init n;
  err_attr_shared : ∀ n, 0 ≤ pthread_mutexattr_setpshared n;
  err_attr_type : ∀ n, 0 ≤ pthread_mutexattr_settype n;
  err_mutex_init : ∀ n, 0 ≤ pthread_mutex_init n;
}.

Lemma lock_init_spec s :
  wp shm_lock_init (λ r s', lock_frame s s' ∧ (init_errors → 0 ≤ r)) s.
Proof.
  unfold shm_lock_init. wp_simpl. apply wp_ext_lock. intros s1 H1 _ _. wp_simpl.
  destruct (_ =? _); cbn [negb]; wp_simpl; [|by split; [|intros []]].
  apply wp_ext_lock. intros s2 H2 _ _. wp_simpl. assert (lock_frame s s2) by by etrans.
  destruct (_ =? _); cbn [negb]; wp_simpl; [|by split; [|intros []]].
  apply wp_ext_lock. intros s3 H3 _ _. wp_simpl. assert (lock_frame s s3) by by etrans.
  destruct (_ =? _); cbn [negb]; wp_simpl; [|by split; [|intros []]].
  apply wp_ext_lock. intros s4 H4 _ _. wp_simpl. assert (lock_frame s s4) as H04 by by etrans.
  destruct (_ =? _); cbn [negb]; wp_simpl; [|by split; [|intros []]].
  split; [|done]. etrans; [exact H04|]. apply lock_frame_pid.
Qed.

Lemma pool_context_spec n b cap op :
  Z.of_nat (length (offsets op)) = cap → 0 < cap →
  wp (shmcache_set_object_pool_context n b cap false) (λ _ op', empty_queue op' cap) op.
Proof.
  intros Hl Hc. unfold shmcache_set_object_pool_context. wp_simpl.
  eapply wp_mono; [by apply Pool.init_empty_spec|]. intros _ op' (?&?&?&_). done.
Qed.

(** the queues set up, the rest kept *)
Definition queues_set (s s' : shmcache_context) (cap : Z) : Prop := ∃ dg dn,
  s' = s <| doing := dg |> <| done_pool := dn |> ∧ empty_queue dg cap ∧ empty_queue dn cap.
Lemma do_init_spec s offs :
  let cap := count_max (vm_striping (memory s)) + 1 in
  0 < cap → Z.of_nat (length (offsets (doing s))) = cap →
  Z.of_nat (length (offsets (done_pool s))) = cap →
  wp (shmcache_do_init offs) (λ r s', (init_errors → 0 ≤ r) ∧
    (r = 0 → ∃ s1, lock_frame s s1 ∧ queues_set s1 s' cap)) s.
Proof.
  intros cap Hcap Hd Hn. unfold shmcache_do_init. wp_simpl.
  eapply wp_mono; [apply lock_init_spec|]. intros r s1 [H1 Hr0]. wp_simpl.
  destruct (Z.eqb_spec r 0) as [Hr|Hr]; cbn [negb]; wp_simpl; [|done].
  assert (count_max (vm_striping (memory s1)) + 1 = cap ∧ doing s1 = doing s ∧ done_pool s1 = done_pool s)
    as (->&Hd1&Hn1) by by destruct H1 as (?&?&?&?&?&->&_).
  apply wp_on_doing. eapply wp_mono; [apply pool_context_spec; by rewrite ?Hd1|]. intros [] dg Hdg.
  wp_simpl. apply wp_on_done. eapply wp_mono; [apply pool_context_spec; [cbn; by rewrite Hn1|done]|].
  intros [] dn Hdn. wp_simpl. split; [done|]. intros _. exists s1. split; [done|]. by exists dg, dn.
Qed.

(** ** A cache ready for use *)
Definition conforms (segment striping : shm_value_size_info) (s : shmcache_context) : Prop :=
  (vsize (vm_segment (memory s)) = vsize segment ∧
   count_max (vm_segment (memory s)) = count_max segment) ∧
  (vsize (vm_striping (memory s)) = vsize striping ∧
   count_max (vm_striping (memory s)) = count_max striping) ∧
  status (memory s) = SHMCACHE_STATUS_NORMAL ∧ mi_size (memory s) = sizeof_shm_memory_info ∧
  mi_max_key_count (memory s) = max_key_count (config s).
Definition initialised (segment striping : shm_value_size_info) (s : shmcache_context) : Prop :=
  inv s [] ∧ conforms segment striping s.
Definition same_context (s s' : shmcache_context) : Prop :=
  config s' = config s ∧ pid s' = pid s ∧ ht_segment s' = ht_segment s ∧
  allocators_offset s' = allocators_offset s ∧ list_head_offset s' = list_head_offset s.

Lemma conforms_config segment striping s s' :
  same_config s s' → conforms segment striping s → conforms segment striping s'.
Proof.
  intros (_&Hc&_&_&_&Hst&Hk&_&H1&H2&H3&H4&H5&_) (?&?&?&?&?). unfold conforms.
  rewrite Hc, Hst, Hk, H1, H2, H3, H4, H5. done.
Qed.
Lemma same_context_config s s' : same_config s s' → same_context s s'.
Proof. unfold same_config, same_context. intuition. Qed.
#[export] Instance same_context_preorder : PreOrder same_context.
Proof. split; [done|]. unfold same_context. intros s1 s2 s3 H1 H2. intuition congruence. Qed.

Lemma do_first_init_spec s cap segment striping offs :
  pristine cap segment striping s → queues_sized striping s →
  sizing_ok segment striping → 0 < cap < 2 ^ 31 → mapping_ok (cfg_type (config s)) →
  wp (do_first_init cap segment striping offs) (λ r s', (init_errors → 0 ≤ r) ∧
    (r = 0 → initialised segment striping s' ∧ same_context s s')) s.
Proof.
  intros Hpr [Hod Hon] Hsz Hcap Hok. pose proof Hsz as (_&_&_&_&Hcm).
  pose proof Hpr as ([Hst _]&_).
  unfold do_first_init. wp_simpl. rewrite Hst. change (SHMCACHE_STATUS_INIT =? SHMCACHE_STATUS_NORMAL) with false. wp_simpl.
  unfold shm_ht_init. wp_simpl.
  set (s1 := s <| memory; vm_segment := segment |> <| memory; vm_striping := striping |>
               <| memory; hashtable; ht_capacity := cap |> <| memory; hashtable; ht_count := 0 |>).
  eapply wp_mono; [apply list_init_spec|]. intros _ s2 [(hd&en&->&_) Hdll]. wp_simpl.
  set (s2 := _ <| hentries := en |>) in *.
  eapply wp_mono; [apply (do_init_spec s2); cbn; [lia|done|done]|].
  intros r s3 [Hr0 Hr]. wp_simpl. destruct (Z.eqb_spec r 0) as [Hr1|Hr1]; cbn [negb]; wp_simpl; [|done].
  destruct (Hr Hr1) as (s3'&(n&fds&fd&p&sl&->&_)&dg&dn&->&Hdg&Hdn). clear Hr.
  apply wp_ext. wp_simpl.
  match goal with |- wp _ _ ?t => set (s4 := t) end.
  assert (inv s4 []) as Hinv4.
  { apply (pristine_inv cap segment striping); [|done..]. exact Hpr. }
  eapply wp_mono; [by apply create_value_segment_spec|].
  intros r' s5 (Hsc&Hinv5&_&_&_&_&Hr0'). wp_simpl.
  destruct (Z.eqb_spec r' 0) as [Hr'|Hr']; cbn [negb]; wp_simpl.
  2: { split; [|done]. intros [? _ _ _ _ _]. by apply Hr0'. }
  split; [by subst r'|]. intros _.
  pose proof (same_context_config _ _ (same_cache_config _ _ Hsc)) as Hk.
  destruct Hsc as (_&_&_&_&_&_&_&_&_&_&H1&H2&H3&H4&_).
  split; [|exact Hk]. destruct Hk as (Hcf&_). split; [exact Hinv5|].
  split_and!; [exact H1|exact H2|exact H3|exact H4|done|done|done].
Qed.

Lemma do_lock_init_spec s cap segment striping offs :
  pristine cap segment striping s → queues_sized striping s →
  sizing_ok segment striping → 0 < cap < 2 ^ 31 → mapping_ok (cfg_type (config s)) →
  wp (shmcache_do_lock_init cap segment striping offs) (λ r s', (init_errors → 0 ≤ r) ∧
    (r = 0 → initialised segment striping s' ∧ same_context s s')) s.
Proof.
  intros Hpr Hq Hsz Hcap Hok. unfold shmcache_do_lock_init. wp_simpl.
  eapply wp_mono; [apply lock_file_spec|]. intros r s1 (H1&_&_&Hr0). wp_simpl.
  destruct (Z.eqb_spec r 0) as [Hr|Hr]; cbn [negb]; wp_simpl.
  2: { split; [|done]. intros [? ? _ _ _ _]. auto. }
  assert (same_context s s1) as Hk by by apply same_context_config, lock_frame_config.
  assert (pristine cap segment striping s1 ∧ queues_sized striping s1 ∧ mapping_ok (cfg_type (config s1)))
    as (Hpr1&Hq1&Hok1) by by destruct H1 as (?&?&?&?&?&->&_).
  eapply wp_mono; [by apply do_first_init_spec|]. intros r2 s2 [Hr2 Hi2]. wp_simpl.
  eapply wp_mono; [apply unlock_file_spec|]. intros _ s3 (H3&_). wp_simpl. split; [done|]. intros Hr20.
  destruct (Hi2 Hr20) as [[Hinv Hcf] Hk2]. apply lock_frame_config in H3 as Hc3.
  split; [split; [by eapply lock_frame_inv|by eapply conforms_config]|].
  etrans; [exact Hk|]. etrans; [exact Hk2|]. by apply same_context_config.
Qed.

(** the loop that reaches [min_memory] creates at most the segments that are
    left *)
Lemma min_memory_spec fuel min_mem result s es :
  inv s es → mapping_ok (cfg_type (config s)) →
  count_max (vm_segment (memory s)) - count_current (vm_segment (memory s)) < Z.of_nat fuel →
  wp (min_memory_loop fuel min_mem result) (λ _ s', inv s' es ∧ same_cache s s' ∧
    ∀ o, agree s s' o) s.
Proof.
  revert result s. induction fuel as [|fuel IH]; intros result s Hinv Hok Hf.
  { pose proof Hinv as ((_&?&_)&_). lia. }
  cbn [min_memory_loop]. wp_simpl. destruct (_ <? _); wp_simpl; [|done].
  eapply wp_mono; [by apply create_value_segment_spec|].
  intros r s1 (Hsc&Hinv1&Hag&_&_&Hcc&_). wp_simpl.
  destruct (Z.eqb_spec r 0) as [Hr|Hr]; cbn [negb]; wp_simpl; [|done].
  destruct (Z.leb_spec (count_max (vm_segment (memory s1))) (count_current (vm_segment (memory s1))));
    wp_simpl; [done|].
  assert (count_max (vm_segment (memory s1)) = count_max (vm_segment (memory s))) as Hcm
    by by destruct Hsc as (_&_&_&_&_&_&_&_&_&_&_&->&_).
  eapply wp_mono; [apply IH; [done| |lia]|].
  { destruct Hsc as (_&->&_). done. }
  intros _ s2 (?&?&?). split; [done|]. split; [by etrans|]. intros o. by eapply agree_trans.
Qed.

(** the outcome of taking the lock on a cache with the entries [es] *)
Definition kept_or_cleared (s : shmcache_context) (es : list Z) (s' : shmcache_context) : Prop :=
  same_config s s' ∧
  ((inv s' es ∧ ∀ o, agree s s' o) ∨ (inv s' [] ∧ owner_died)).
Lemma lock_frame_agree s s' o : lock_frame s s' → agree s s' o.
Proof. intros (?&?&?&?&?&->&_). by apply agree_hdr. Qed.

(** once the segments are mapped *)
Lemma init_values_spec attempts cfg s0 es n0 (P : shmcache_context → Prop) :
  released_by n0 → (n0 < attempts)%nat →
  wp shmopt_open_value_segments (λ r s, r = 0 →
    P s ∧ inv s es ∧ mapping_ok (cfg_type (config s))) s0 →
  wp (init_values attempts cfg) (λ r s', r = 0 → ∃ s, P s ∧ kept_or_cleared s es s') s0.
Proof.
  intros Hrel Hn Hopen. unfold init_values. wp_simpl.
  eapply wp_mono; [exact Hopen|]. intros r s Hr. wp_simpl.
  destruct (Z.eqb_spec r 0) as [->|]; cbn [andb]; wp_simpl; [|done].
  destruct (Hr eq_refl) as (HP&Hinv&Hok).
  destruct (Z.ltb_spec (count_current (vm_segment (memory s))) (count_max (vm_segment (memory s))));
    wp_simpl.
  2: { intros _. exists s. split; [done|]. split; [done|]. left. split; [done|]. intros o. apply agree_refl. }
  eapply wp_mono; [apply (lock_spec attempts s n0); [by eapply inv_clearable|done|lia]|].
  intros lr s2 ((Hc2&_&Hl2)&_&_&_). wp_simpl.
  assert (∃ es2, inv s2 es2 ∧ ((es2 = es ∧ ∀ o, agree s s2 o) ∨ (es2 = [] ∧ owner_died))) as (es2&Hinv2&Hes2).
  { destruct Hl2 as [Hl2|[? ?]]; [exists es|exists []; by split; [|right]].
    split; [by eapply lock_frame_inv|]. left. split; [done|]. intros o. by apply lock_frame_agree. }
  eapply wp_mono; [apply (min_memory_spec _ _ _ s2 es2); [done| |lia]|].
  { destruct (same_context_config _ _ Hc2) as (->&_). done. }
  intros r3 s3 (Hinv3&Hc3&Hag3). wp_simpl.
  eapply wp_mono; [apply unlock_spec|]. intros ur s4 (Hf4&_). wp_simpl. intros _. exists s. split; [done|].
  assert (inv s4 es2) as Hinv4 by by eapply lock_frame_inv.
  split; [etrans; [exact Hc2|]; etrans; [exact (same_cache_config _ _ Hc3)|by apply lock_frame_config]|].
  destruct Hes2 as [[-> Hag]|[-> ?]]; [left|by right]. split; [done|]. intros o.
  eapply agree_trans; [apply Hag|]. eapply agree_trans; [apply Hag3|by apply lock_frame_agree].
Qed.

Lemma open_value_segments_all s :
  values_count s = count_current (vm_segment (memory s)) →
  wp shmopt_open_value_segments (λ r s', r = 0 ∧ s' = s) s.
Proof. intros Hv. unfold shmopt_open_value_segments. wp_simpl. rewrite Hv, Z.sub_diag. by apply wp_ret. Qed.

Lemma init_create_spec attempts cfg s cap segment striping offs n0 :
  pristine cap segment striping s → queues_sized striping s →
  sizing_ok segment striping → 0 < cap < 2 ^ 31 → mapping_ok (cfg_type (config s)) →
  init_errors → released_by n0 → (n0 < attempts)%nat →
  wp (init_create attempts cfg cap segment striping offs) (λ r s',
    (r = 0 → initialised segment striping s' ∧ same_context s s')) s.
Proof.
  intros Hpr Hq Hsz Hcap Hok Herr Hrel Hn. unfold init_create. wp_simpl.
  destruct (Hpr) as ([-> _]&_). change (SHMCACHE_STATUS_INIT =? SHMCACHE_STATUS_INIT) with true.
  cbn beta iota.
  eapply wp_mono; [by apply do_lock_init_spec|]. intros r s1 [Hr0 Hr]. specialize (Hr0 Herr). wp_simpl.
  destruct (Z.eqb_spec r 0) as [Hr1|Hr1]; cbn [orb negb].
  2: { rewrite (proj2 (Z.eqb_neq _ _)) by (unfold EEXIST; lia). cbn [negb]. by wp_simpl. }
  destruct (Hr Hr1) as [[Hinv Hcf] Hk]. wp_simpl.
  eapply wp_mono; [apply (init_values_spec attempts cfg s1 [] n0 (eq s1)); [done|done|]|].
  - eapply wp_mono; [apply open_value_segments_all, Hinv|]. intros _ s' [-> ->] _.
    split; [done|]. split; [done|]. by destruct Hk as (->&_).
  - intros r2 s2 H2 Hr2. destruct (H2 Hr2) as (?&<-&Hc2&Hor).
    split; [split; [by destruct Hor as [[? _]|[? _]]|by eapply conforms_config]|].
    etrans; [exact Hk|by apply same_context_config].
Qed.

(** what [shmcache_init] relies on: a valid configuration that leaves room for
    the hashtable segment, and an environment where the mutex gets free *)
Record init_ok (cfg : shmcache_config) (attempts : nat) : Prop := {
  io_config : config_ok cfg;
  io_room : 0 ≤ (layout_of cfg).2 ≤ max_memory cfg;
  io_keys : 0 ≤ max_key_count cfg;
  io_capacity : 0 < ht_capacity_of cfg < 2 ^ 31;
  io_mapping : mapping_ok (cfg_type cfg);
  io_errors : init_errors;
  io_released : ∃ n0, released_by n0 ∧ (n0 < attempts)%nat;
}.
Definition new_segment_info (cfg : shmcache_config) : shm_value_size_info :=
  segment_info cfg (value_memory cfg).
Definition new_striping_info (cfg : shmcache_config) : shm_value_size_info :=
  striping_info cfg (value_memory cfg).
(** the zero pages of the new segments *)
Definition new_image (cfg : shmcache_config) : shmcache_context :=
  zero_image cfg (Z.to_nat (ht_capacity_of cfg)) (Z.to_nat (count_max (new_striping_info cfg))).

(** a cache of this configuration with the entries [es] *)
Definition image (cfg : shmcache_config) (s : shmcache_context) (es : list Z) : Prop :=
  inv s es ∧ conforms (new_segment_info cfg) (new_striping_info cfg) s ∧ config s = cfg ∧
  allocators_offset s = OFFSETS_INDEX_VA_POOL_OBJECT (layout_of cfg).1 ∧
  list_head_offset s = hentry_pack (-1) offsetof_hashtable_head.

Lemma new_sizing cfg attempts : init_ok cfg attempts →
  sizing_ok (new_segment_info cfg) (new_striping_info cfg).
Proof.
  intros [Hc Hr _ _ _ _ _]. apply sizing_ok_info; [done|]. unfold value_memory. lia.
Qed.
Lemma layout_object_pos cfg attempts : init_ok cfg attempts →
  0 < OFFSETS_INDEX_VA_POOL_OBJECT (layout_of cfg).1.
Proof.
  intros [Hc _ Hk Hcap _ _ _]. pose proof (ok_memory cfg Hc).
  destruct (sizing_ok_info cfg (max_memory cfg) Hc ltac:(lia)) as (_&_&_&_&?).
  unfold layout_of, ht_layout, shm_ht_get_memory_size, Pool.shm_object_pool_get_queue_memory_size.
  cbn [fst OFFSETS_INDEX_VA_POOL_OBJECT]. unfold sizeof_int64, sizeof_shm_memory_info. lia.
Qed.

Lemma init_segment_spec seg proj size s :
  mapping_ok (cfg_type (config s)) →
  wp (shmopt_init_segment seg proj size) (λ r s', quiet s s' ∧
    (r.1 = 0 → base r.2 ≠ 0 ∧ base r.2 ≠ MAP_FAILED)) s.
Proof.
  intros Hok. unfold shmopt_init_segment. wp_simpl.
  eapply wp_mono; [by apply shm_mmap_spec|]. intros [[addr key] r] s1 (H1&Hz&Hm&_). cbn in Hz, Hm.
  wp_simpl. destruct (Z.eqb_spec addr 0) as [Ha|Ha]; wp_simpl; (split; [done|]); cbn; [|done].
  intros Hr. by destruct (Hz Ha).
Qed.

(** the context of a process that has just mapped the hashtable segment [seg] of
    a shared memory: its own fields are new, the rest is what the memory holds *)
Definition fresh_context (my_pid : Z) (cfg : shmcache_config) (seg : shmcache_segment_info)
    (n : nat) (fds : list Z) (s : shmcache_context) : shmcache_context :=
  s <| pid := my_pid |> <| lock_fd := -1 |> <| detect_deadlock_clocks := 0 |> <| config := cfg |>
    <| ht_segment := seg |> <| values_count := 0 |>
    <| values_items := replicate (Z.to_nat (count_max (new_segment_info cfg))) segment_zero |>
    <| create_segment := true |> <| list_head_offset := hentry_pack (-1) offsetof_hashtable_head |>
    <| doing; index := -1 |> <| done_pool; index := -1 |>
    <| allocators_offset := OFFSETS_INDEX_VA_POOL_OBJECT (layout_of cfg).1 |>
    <| ticks := n |> <| open_fds := fds |>.

(** [shmcache_init] up to the mapping of the hashtable segment, and its end *)
Lemma init_mapped attempts my_pid cfg check s (Q : Z → _ → Prop) :
  init_ok cfg attempts →
  (∀ r s', r ≠ 0 → Q r s') →
  (∀ seg n fds, base seg ≠ 0 → base seg ≠ MAP_FAILED →
     wp (init_create attempts cfg (ht_capacity_of cfg) (new_segment_info cfg) (new_striping_info cfg)
          (layout_of cfg).1)
       (λ r s', Q r s' ∧ ∀ d, Q r (s' <| detect_deadlock_clocks := d |>))
       (fresh_context my_pid cfg seg n fds s)) →
  wp (shmcache_init attempts my_pid cfg true check) Q s.
Proof.
  intros [Hc Hroom _ _ Hmap _ _] Hbad Hgood.
  unfold shmcache_init. wp_simpl. eapply wp_mono; [by apply ht_segment_size_spec|].
  intros r s1 [-> ->]. wp_simpl. fold (new_segment_info cfg) (new_striping_info cfg).
  eapply wp_mono; [apply exists_spec|]. intros ex s2 (n2&f2&->&_). wp_simpl.
  eapply wp_mono; [by apply init_segment_spec|]. intros [r seg] s3 [(n3&f3&->&_) Hseg]. wp_simpl.
  cbn [fst snd] in Hseg. destruct (Z.eqb_spec r 0) as [Hr|Hr]; cbn [negb]; wp_simpl; [|by apply Hbad].
  destruct (Hseg Hr) as [Hb1 Hb2]. apply wp_ext. wp_simpl.
  destruct (malloc_ok _ _); cbn [negb]; wp_simpl; [|by apply Hbad].
  rewrite (proj2 (Z.eqb_neq _ _) Hb1), (proj2 (Z.eqb_neq _ _) Hb2). cbn [orb]. wp_simpl.
  unfold shm_list_set, shmcache_set_obj_allocators. wp_simpl.
  match goal with |- context [if ex && check then ?c else 0] =>
    destruct (Z.eqb_spec (if ex && check then c else 0) 0) as [He|He] end;
    cbn [negb]; wp_simpl; [|by apply Hbad].
  eapply wp_mono; [exact (Hgood seg (S n3) f3 Hb1 Hb2)|].
  intros r2 s5 [H5 Hd5]. wp_simpl. by destruct (_ <? _); wp_simpl.
Qed.

Lemma init_spec attempts my_pid cfg check :
  init_ok cfg attempts →
  wp (shmcache_init attempts my_pid cfg true check) (λ r s', r = 0 →
    image cfg s' [] ∧ pid s' = my_pid) (new_image cfg).
Proof.
  intros Hio. pose proof (new_sizing cfg attempts Hio) as Hsz.
  pose proof (layout_object_pos cfg attempts Hio) as Hpos.
  apply init_mapped; [done|done|]. intros seg n fds _ _.
  destruct Hio as [_ _ _ Hcap Hmap Herr (n0&Hrel&Hn0)]. set (s4 := fresh_context _ _ _ _ _ _).
  pose proof Hsz as (_&_&Hcm&_&Hcs).
  assert (pristine (ht_capacity_of cfg) (new_segment_info cfg) (new_striping_info cfg) s4) as Hpr.
  { split_and!; try done; cbn -[count_max]; rewrite ?length_replicate; try lia. by eexists. }
  assert (queues_sized (new_striping_info cfg) s4) as Hq by (split; cbn -[count_max]; rewrite length_replicate; lia).
  eapply wp_mono; [by apply (init_create_spec attempts cfg s4 _ _ _ _ n0)|].
  intros r2 s5 H5. split; [|intros d]; intros Hr2; by destruct (H5 Hr2) as [[Hinv Hcf] (?&?&_&?&?)].
Qed.

End Init.

(** ** Properties *)
Section properties.
Context `{E : Env}.

(** C8: [shmcache_init] with [create_segment] on fresh shared memory returns,
    whatever the calls to the kernel answer; when it returns 0 the cache is
    well-formed and empty, has the sizes the configuration gives, records the
    process, and [shmcache_check] of any later process with the same
    configuration accepts it. *)
Theorem init_correct attempts my_pid cfg check :
  init_ok cfg attempts →
  wp (shmcache_init attempts my_pid cfg true check) (λ r s', r = 0 →
    image cfg s' [] ∧ pid s' = my_pid ∧
    shmcache_check s' (new_segment_info cfg) (new_striping_info cfg) = 0) (new_image cfg).
Proof.
  intros Hio. eapply wp_mono; [by apply init_spec|]. intros r s' H Hr.
  destruct (H Hr) as (Him&Hp). split_and!; [done..|]. destruct Him as (_&Hcf&Hc&_).
  destruct Hcf as ((H1&H2)&(H3&H4)&H5&H6&H7). unfold shmcache_check, MAX_KEYS_IN_SHM, shmcache_check_segement.
  by rewrite H1, H2, H3, H4, H5, H6, H7, !Z.eqb_refl.
Qed.

(** [shmcache_check] returns 0 exactly when the mapped header has the size
    this program expects, is initialised, and agrees with the configuration on
    the number of keys and on the sizes and numbers of segments and
    stripings; otherwise it returns EINVAL. *)
Theorem check_exact s segment striping :
  (shmcache_check s segment striping = 0 ↔
     mi_size (memory s) = sizeof_shm_memory_info ∧ status (memory s) = SHMCACHE_STATUS_NORMAL ∧
     max_key_count (config s) = mi_max_key_count (memory s) ∧
     vsize (vm_segment (memory s)) = vsize segment ∧
     count_max (vm_segment (memory s)) = count_max segment ∧
     vsize (vm_striping (memory s)) = vsize striping ∧
     count_max (vm_striping (memory s)) = count_max striping) ∧
  (shmcache_check s segment striping = 0 ∨ shmcache_check s segment striping = EINVAL).
Proof.
  unfold shmcache_check, shmcache_check_segement, MAX_KEYS_IN_SHM, EINVAL.
  repeat case_bool; cbn [negb]; try change (22 =? 0) with false; cbn [negb]; repeat case_bool; cbn [negb];
    (split; [split; naive_solver|auto]).
Qed.
End properties.
