(* ===== verification/Attach.v ===== *)
(** * A second process (src/shmcache.c, 362-439, on an initialised cache)

    [shmcache_init] of a process that finds the shared memory of another one:
    it maps the value segments, and its cache holds the records that were
    there. *)
From S2P Require Import Prelude Types OpWrapper ObjectPool Shmopt HentryOffset ShmList Invariant SegmentGrowth HashTable Lock Recycle Sizing Init.
Local Open Scope Z_scope.
Local Open Scope shm_scope.

Section Attach.
Context `{E : Env}.

(** the fields of the context that belong to the process alone may change, as
    long as the segments are mapped *)
Definition reattached (s s' : shmcache_context) : Prop :=
  ∃ p fd dc seg c i j now flag n fds items,
  s' = s <| pid := p |> <| lock_fd := fd |> <| detect_deadlock_clocks := dc |>
         <| ht_segment := seg |> <| create_segment := c |> <| doing; index := i |>
         <| done_pool; index := j |> <| g_current_time := now |> <| g_schedule_flag := flag |>
         <| ticks := n |> <| open_fds := fds |>
         <| values_items := items |> ∧ length items = length (values_items s) ∧ segs_ok s'.

Lemma reattached_inv s s' es : reattached s s' → inv s es → inv s' es.
Proof.
  intros (p&fd&dc&seg&c&i&j&now&flag&n&fds&items&->&Hl&Hs) (Hg&(Hd&Hn&Hf)&Ha&Hdl&Ht).
  split; [|split; [|split; [exact Ha|split; [exact Hdl|exact Ht]]]].
  - destruct Hg as (H1&H2&H3&(H4&H5&_)&H6&H7).
    split; [exact H1|]. split; [exact H2|]. split; [exact H3|]. split; [|split; [exact H6|exact H7]].
    split; [exact H4|]. split; [cbn; by rewrite Hl|exact Hs].
  - split; [exact (queue_ok_index _ _ _ i Hd)|]. split; [exact (queue_ok_index _ _ _ j Hn)|exact Hf].
Qed.
Lemma reattached_agree s s' o : reattached s s' → agree s s' o.
Proof. intros (p&fd&dc&seg&c&i&j&now&flag&n&fds&items&->&_). by apply agree_hdr. Qed.

(** mapping the value segments of a shared memory that is in use *)
Lemma open_fresh cfg s es my_pid seg n fds :
  image cfg s es → mapping_ok (cfg_type cfg) →
  wp shmopt_open_value_segments (λ r s', r = 0 → reattached s s' ∧ pid s' = my_pid ∧ config s' = cfg)
    (fresh_context my_pid cfg seg n fds s).
Proof.
  intros (Hinv&((_&Hcm)&_)&Hcf&Hao&Hlh) Hok. set (s1 := fresh_context _ _ _ _ _ _).
  pose proof Hinv as ((_&[Hcc _]&_&(Hvc&Hvi&_)&_)&_).
  unfold shmopt_open_value_segments. wp_simpl.
  eapply wp_mono; [apply (open_segments_loop_spec _ s1); [done| | |]|].
  - intros i Hi. cbn in Hi. lia.
  - done.
  - cbn [values_count values_items s1 fresh_context]. cbn -[new_segment_info]. rewrite length_replicate. lia.
  - intros r s' (m&fds2&tk&items&->&Hm&Hr&Hs&Hl) ->.
    assert (0 + Z.of_nat m = values_count s) as Hvm by (rewrite Hr by done; cbn in *; lia).
    split; [|done]. exists my_pid, (-1), 0, seg, true, (-1), (-1), (g_current_time s), (g_schedule_flag s), tk, fds2, items.
    split; [|split; [|exact Hs]].
    + change (values_count s1) with 0. rewrite Hvm. unfold s1, fresh_context.
      destruct s; cbn in *. by subst.
    + rewrite Hl. cbn -[new_segment_info]. rewrite length_replicate. lia.
Qed.

(** what the second process finds when it got in *)
Definition attached (cfg : shmcache_config) (s : shmcache_context) (es : list Z) (my_pid : Z)
    (s' : shmcache_context) : Prop :=
  pid s' = my_pid ∧
  count_current (vm_segment (memory s)) ≤ count_current (vm_segment (memory s')) ∧
  ∃ es', image cfg s' es' ∧
    ((es' = es ∧ view s' es' = view s es) ∨ (es' = [] ∧ owner_died)).

Lemma attached_of cfg s es my_pid s1 s' :
  image cfg s es → reattached s s1 → pid s1 = my_pid → kept_or_cleared s1 es s' →
  attached cfg s es my_pid s'.
Proof.
  intros (_&Hcf&Hc&Ha&Hl) Hre Hp [Hsc Hor].
  assert (conforms (new_segment_info cfg) (new_striping_info cfg) s1 ∧ config s1 = cfg ∧
    allocators_offset s1 = OFFSETS_INDEX_VA_POOL_OBJECT (layout_of cfg).1 ∧
    list_head_offset s1 = hentry_pack (-1) offsetof_hashtable_head ∧
    memory s1 = memory s) as (Hcf1&Hc1&Ha1&Hl1&Hm1)
    by by destruct Hre as (?&?&?&?&?&?&?&?&?&?&?&?&->&_).
  destruct (same_context_config _ _ Hsc) as (Hc'&Hp'&_&Ha'&Hl').
  assert (∀ es', inv s' es' → image cfg s' es') as Him.
  { intros es' ?. split; [done|]. split; [by eapply conforms_config|]. by rewrite Hc', Ha', Hl'. }
  split; [by rewrite Hp'|]. split; [rewrite <-Hm1; apply Hsc|]. destruct Hor as [[Hinv Hag]|[Hinv Hd]].
  - exists es. split; [by apply Him|]. left. split; [done|]. apply view_agree.
    intros o _. eapply agree_trans; [by apply reattached_agree|apply Hag].
  - exists []. split; [by apply Him|]. by right.
Qed.

Lemma attach_init_spec attempts my_pid cfg check s es :
  init_ok cfg attempts → image cfg s es →
  wp (shmcache_init attempts my_pid cfg true check) (λ r s', r = 0 → attached cfg s es my_pid s') s.
Proof.
  intros Hio Him. apply init_mapped; [done|done|]. intros seg n fds _ _.
  destruct Hio as [_ _ _ _ Hmap _ (n0&Hrel&Hn0)]. unfold init_create. wp_simpl.
  pose proof Him as (Hinv&(_&_&Hst&_)&_). set (s1 := fresh_context _ _ _ _ _ _).
  change (status (memory s1)) with (status (memory s)). rewrite Hst.
  change (SHMCACHE_STATUS_NORMAL =? SHMCACHE_STATUS_INIT) with false. wp_simpl.
  change ((0 =? 0) || (0 =? - EEXIST)) with true. cbn [negb]. wp_simpl.
  eapply wp_mono; [apply (init_values_spec attempts cfg s1 es n0 (λ s2, reattached s s2 ∧ pid s2 = my_pid)); [done|done|]|].
  - eapply wp_mono; [by apply (open_fresh cfg s es)|]. intros r s2 Hr Hr0.
    destruct (Hr Hr0) as (Hre&Hp&Hc). split; [done|]. split; [by eapply reattached_inv|]. by rewrite Hc.
  - intros r s3 H3. assert (r = 0 → attached cfg s es my_pid s3) as Hat.
    { intros Hr. destruct (H3 Hr) as (s2&[Hre Hp]&Hk). by eapply attached_of. }
    split; [exact Hat|]. intros d Hr. exact (Hat Hr).
Qed.
End Attach.

(** ** Properties *)
Section properties.
Context `{E : Env}.

(** C10: a process that calls [shmcache_init] with the same configuration on a
    cache in use gets, when it returns 0, a well-formed context of its own
    with the very segments and records that were there - nothing is re-initialised - or an
    empty cache in case it found the owner of the lock dead. *)
Theorem attach_correct attempts my_pid cfg check s es :
  init_ok cfg attempts → image cfg s es →
  wp (shmcache_init attempts my_pid cfg true check) (λ r s', r = 0 →
    pid s' = my_pid ∧
    count_current (vm_segment (memory s)) ≤ count_current (vm_segment (memory s')) ∧
    ∃ es', image cfg s' es' ∧
      ((es' = es ∧ view s' es' = view s es) ∨ (es' = [] ∧ owner_died))) s.
Proof. apply attach_init_spec. Qed.
End properties.
