(* ===== verification/LazySegments.v ===== *)
(** * Reading in a process that is behind (src/shmopt.h, 55-71)

    Another process may have added value segments since this one last looked.
    [shmopt_get_value_segment] maps them, all at once, when an offset refers to
    one of them.  A read that does not take the lock is a series of loads with
    at most one such point: it gives the result it would give in a process
    that is up to date - or dereferences NULL when the mapping fails. *)
From S2P Require Import Prelude Types OpWrapper Shmopt HentryOffset ShmList Invariant SegmentGrowth HashTable Recycle CacheTable ShmCache ShmCacheSpec Init Attach.
Local Open Scope Z_scope.
Local Open Scope shm_scope.

Section lazy.
Context `{E : Env}.

(** a context that may be behind *)
Definition behind (t : shmcache_context) : Prop :=
  0 ≤ values_count t ≤ count_current (vm_segment (memory t)) ∧
  count_current (vm_segment (memory t)) ≤ Z.of_nat (length (values_items t)) ∧
  segs_ok t ∧ mapping_ok (cfg_type (config t)).
(** the same with all segments mapped *)
Definition ahead (t u : shmcache_context) : Prop := ∃ tk fds items,
  u = t <| ticks := tk |> <| open_fds := fds |> <| values_items := items |>
        <| values_count := count_current (vm_segment (memory t)) |> ∧
  length items = length (values_items t) ∧ segs_ok u.
Definition opened (t t' : shmcache_context) : Prop := shmopt_open_value_segments t = Some (0, t').
Definition cannot_map (t : shmcache_context) : Prop :=
  ∃ r t', shmopt_open_value_segments t = Some (r, t') ∧ r ≠ 0.

Lemma opened_ahead t t' : behind t → opened t t' → ahead t t'.
Proof.
  intros (Hv&Hl&Hs&Hok) Ho.
  assert (shmopt_open_value_segments t = open_value_segments_loop
    (Z.to_nat (count_current (vm_segment (memory t)) - values_count t)) (values_count t) t) as Heq by done.
  destruct (open_segments_loop_spec (Z.to_nat (count_current (vm_segment (memory t)) - values_count t)) t)
    as (r&s'&Hrun&m&fds&tk&items&->&Hm&Hr&Hs'&Hi); [done|done|lia|lia|].
  unfold opened in Ho. rewrite Heq, Hrun in Ho. injection Ho as -> <-.
  exists tk, fds, items. split_and!; [|done|done].
  by replace (count_current (vm_segment (memory t))) with (values_count t + Z.of_nat m)
    by (rewrite (Hr eq_refl); lia).
Qed.
Lemma open_cases t : behind t → cannot_map t ∨ ∃ t', opened t t'.
Proof.
  intros (Hv&Hl&Hs&Hok). destruct (open_segments_correct t) as (r&t'&Hrun&_); [done..|].
  destruct (decide (r = 0)) as [->|Hr]; [right; by exists t'|left; by exists r, t'].
Qed.

(** a command that only reads: it stops at NULL, or maps the segments and is
    then the command of a process that is up to date, or needs none of them *)
Definition lazily {A} (m : cmd A) (t : shmcache_context) (P : A → Prop) : Prop :=
  (m t = None ∧ cannot_map t) ∨ (∃ t', opened t t' ∧ m t = m t') ∨
  (∃ a, P a ∧ m t = Some (a, t) ∧ ∀ u, ahead t u → m u = Some (a, u)).

Lemma lazily_bind {A B} (m : cmd A) (f : A → cmd B) t P Q :
  behind t → lazily m t P → (∀ a, P a → lazily (f a) t Q) → lazily (m ≫= f) t Q.
Proof.
  unfold mbind, M_bind. intros Hb [[Hm Hc]|[(t'&Ho&Hm)|(a&Ha&Ht&Hu)]] Hf.
  - left. by rewrite Hm.
  - right. left. exists t'. by rewrite Hm.
  - destruct (Hf a Ha) as [[Hm Hc]|[(t'&Ho&Hm)|(b&Hbt&Hbu&Hq)]].
    + left. by rewrite Ht.
    + right. left. exists t'. split; [done|]. by rewrite Ht, Hm, (Hu t') by by apply opened_ahead.
    + right. right. exists b. split; [done|]. rewrite Ht. split; [done|]. intros u Hau. rewrite Hu by done. auto.
Qed.
Lemma lazily_ret {A} (a : A) t (P : A → Prop) : P a → lazily (mret a) t P.
Proof. intros. right. right. by exists a. Qed.
Lemma lazily_of_option {A} (o : option A) a t (P : A → Prop) : o = Some a → P a → lazily (of_option o) t P.
Proof. intros -> ?. right. right. by exists a. Qed.
Lemma lazily_get {A} (k : shmcache_context → cmd A) t P :
  behind t → (∀ u, ahead t u → k u = k t) → lazily (k t) t P → lazily (get ≫= k) t P.
Proof.
  unfold lazily, mbind, M_bind, get. intros Hb Hk [H|[(t'&Ho&Hm)|(a&Ha&Ht&Hu)]]; [by left| |].
  - right. left. exists t'. split; [done|]. by rewrite (Hk t') by by apply opened_ahead.
  - right. right. exists a. split_and!; [done..|]. intros u Hau. rewrite Hk by done. auto.
Qed.

(** loads from the segments that are mapped *)
Lemma ahead_place t u p n : behind t → ahead t u → place_ok t p n → place_ok u p n.
Proof. intros (?&_) (tk&fds&items&->&_) (?&?&?&?). split_and!; cbn in *; lia. Qed.
Lemma lazily_load_hentry t p (P : shm_hash_entry → Prop) :
  behind t → place_ok t p sizeof_shm_hash_entry → P (hentry_at t p) → lazily (load_hentry p) t P.
Proof.
  intros Hb Hp HP. right. right. exists (hentry_at t p). split; [done|]. unfold load_hentry.
  rewrite in_segment_true by (done || apply Hb). split; [done|]. intros u Hu.
  rewrite in_segment_true; [|by destruct Hu as (?&?&?&_&_&?)|by eapply ahead_place].
  by destruct Hu as (?&?&?&->&_).
Qed.
Lemma lazily_memcpy_from t p n (P : list ascii → Prop) :
  behind t → place_ok t p n → P (read_bytes (payload t) p (Z.to_nat n)) → lazily (memcpy_from p n) t P.
Proof.
  intros Hb Hp HP. right. right. exists (read_bytes (payload t) p (Z.to_nat n)). split; [done|].
  unfold memcpy_from. rewrite in_segment_true by (done || apply Hb). split; [done|]. intros u Hu.
  rewrite in_segment_true; [|by destruct Hu as (?&?&?&_&_&?)|by eapply ahead_place].
  by destruct Hu as (?&?&?&->&_).
Qed.

(** the base of a segment: known, or found by mapping, or NULL *)
Lemma mapped_base s i : segs_ok s → 0 ≤ i < values_count s → ∃ b, b ≠ 0 ∧
  shmopt_get_value_segment i s = Some (b, s) ∧ (seg ← load_segment i; mret (base seg)) s = Some (b, s).
Proof.
  intros Hs Hi. destruct (Hs i Hi) as (seg&Hseg&Hb0&_). exists (base seg). split; [done|].
  assert ((seg ← load_segment i; mret (base seg)) s = Some (base seg, s)) as Hr.
  { unfold load_segment, mbind, M_bind, get, of_option. by rewrite Hseg. }
  split; [|exact Hr]. unfold shmopt_get_value_segment. unfold mbind at 1, M_bind at 1, get at 1.
  by rewrite (proj2 (Z.ltb_lt _ _)) by lia.
Qed.
Lemma missing_base t i : values_count t ≤ i < count_current (vm_segment (memory t)) →
  shmopt_get_value_segment i t =
    (r ← shmopt_open_value_segments;
     if negb (r =? 0) then mret 0 else seg ← load_segment i; mret (base seg)) t.
Proof.
  intros Hi. unfold shmopt_get_value_segment. unfold mbind at 1, M_bind at 1, get at 1.
  by rewrite (proj2 (Z.ltb_ge _ _)), (proj2 (Z.ltb_lt _ _)) by lia.
Qed.
Lemma base_cases t i :
  behind t → 0 ≤ i < count_current (vm_segment (memory t)) →
  i < values_count t ∨
  (cannot_map t ∧ ∃ t', shmopt_get_value_segment i t = Some (0, t')) ∨
  ∃ t', opened t t' ∧ shmopt_get_value_segment i t = shmopt_get_value_segment i t'.
Proof.
  intros Hb Hi. destruct (decide (i < values_count t)) as [Hlt|Hge]; [by left|right].
  rewrite missing_base by lia. unfold mbind at 1 3, M_bind at 1 3.
  destruct (open_cases t Hb) as [(r&t'&Hr&Hr0)|(t'&Ho)].
  - left. split; [by exists r, t'|]. exists t'. rewrite Hr. by rewrite (proj2 (Z.eqb_neq _ _) Hr0).
  - right. exists t'. split; [done|]. pose proof (opened_ahead t t' Hb Ho) as (tk&fds&items&Heq&_&Hs').
    destruct (mapped_base t' i) as (b&_&Hg1&Hg2); [done|rewrite Heq; cbn; lia|].
    by rewrite Hg1, Ho, <-Hg2.
Qed.

(** the pointer for an entry offset, NULL being a fault *)
Definition deref (f : Z → hptr) (seg : Z) : cmd hptr :=
  b ← shmopt_get_value_segment seg; non_null (if negb (b =? 0) then Some (f seg) else None).
Lemma lazily_deref f t seg :
  behind t → 0 ≤ seg < count_current (vm_segment (memory t)) →
  lazily (deref f seg) t (λ p, p = f seg ∧ seg < values_count t).
Proof.
  intros Hb Hi. unfold lazily, deref, mbind, M_bind.
  assert (∀ s, segs_ok s → 0 ≤ seg < values_count s → deref f seg s = Some (f seg, s)) as Hok.
  { intros s Hs Hss. destruct (mapped_base s seg Hs Hss) as (b&Hb0&Hrun&_).
    unfold deref, mbind, M_bind. rewrite Hrun. by rewrite (proj2 (Z.eqb_neq _ _) Hb0). }
  destruct (base_cases t seg Hb Hi) as [Hlt|[(Hc&t'&Hrun)|(t'&Hop&Hrun)]].
  - right. right. exists (f seg). split; [done|]. split; [apply Hok; [apply Hb|lia]|].
    intros u (tk&fds&items&->&_&Hs). by apply Hok.
  - left. by rewrite Hrun.
  - right. left. exists t'. by rewrite Hrun.
Qed.

(** ** Entries, as they would be read with all segments mapped *)
Definition reachable (t : shmcache_context) (o : Z) : Prop := ∃ u, ahead t u ∧ readable u o.
Lemma reachable_index t o : reachable t o → 0 ≤ (hentry_addr o).1 < count_current (vm_segment (memory t)).
Proof. intros (u&(tk&fds&items&->&_)&(_&(Hp&_)&_)&_). exact Hp. Qed.
Lemma place_mapped t u p n : memory u = memory t → p.1 < values_count t → place_ok u p n → place_ok t p n.
Proof. intros Hm Hp (?&?&?&?). rewrite Hm in *. by split_and!; try lia. Qed.
Lemma readable_mapped t u o : memory u = memory t → hdr u o = hdr t o →
  (hentry_addr o).1 < values_count t → readable u o → readable t o.
Proof.
  intros Hm Hh Hlt. unfold readable, off_ok, value_ptr, mem_of. rewrite Hh.
  intros ((Ho&Hp&?&?)&Hk&Hv&Hpk&Hpv&Hs&Ho2).
  split; [split_and!; [exact Ho| |done..]|].
  { by apply (place_mapped t u _ _ Hm). }
  split; [exact Hk|]. split; [exact Hv|]. split; [by apply (place_mapped t u _ _ Hm)|].
  split; [by apply (place_mapped t u _ _ Hm)|]. split; [exact Hs|exact Ho2].
Qed.
Lemma reachable_readable t o : reachable t o → (hentry_addr o).1 < values_count t → readable t o.
Proof. intros (u&(tk&fds&items&->&_)&Hr) Hlt. by eapply readable_mapped, Hr. Qed.

Lemma lazily_key_equals t o key :
  behind t → readable t o → lazily (HT_KEY_EQUALS (hentry_addr o) key) t (λ _, True).
Proof.
  intros Hb ((_&Hpl&_)&_&_&Hkp&_). unfold HT_KEY_EQUALS. eapply lazily_bind; [done| |].
  { apply (lazily_load_hentry t _ (λ e, e = hdr t o)); done. }
  intros e ->. destruct (Z.eqb_spec (key_len (hdr t o)) (key_length key)) as [Heq|Hne]; [|by apply lazily_ret].
  eapply lazily_bind; [done| |intros k _; by apply lazily_ret].
  apply (lazily_memcpy_from t _ _ (λ _, True)); [done| |done]. by rewrite <-Heq.
Qed.
Lemma lazily_ext {A} (m m' : cmd A) t P : (∀ s, m s = m' s) → lazily m' t P → lazily m t P.
Proof.
  intros Heq [[Hm Hc]|[(t'&Ho&Hm)|(a&Ha&Ht&Hu)]].
  - left. by rewrite Heq.
  - right. left. exists t'. by rewrite !Heq.
  - right. right. exists a. rewrite Heq. split_and!; [done..|]. intros u Hau. rewrite Heq. auto.
Qed.
Lemma lazily_pointer {A} t o (f : hptr → cmd A) P :
  behind t → reachable t o → (readable t o → lazily (f (hentry_addr o)) t P) →
  lazily (p ← shm_get_hentry_ptr o; p ← non_null p; f p) t P.
Proof.
  intros Hb Ho Hf. apply (lazily_ext _ (deref (λ seg, (seg, (hentry_addr o).2)) (hentry_addr o).1 ≫= f)).
  { intros s. unfold shm_get_hentry_ptr, deref. destruct (hentry_addr o) as [seg off]. cbn [fst snd].
    unfold mbind, M_bind. by destruct (shmopt_get_value_segment seg s) as [[]|]. }
  eapply lazily_bind; [done|apply lazily_deref; [done|by apply reachable_index]|].
  intros p [-> Hlt]. destruct (hentry_addr o) as [seg off] eqn:He. apply Hf.
  apply reachable_readable; [done|by rewrite He].
Qed.
(** what a search that needs no mapping finds is mapped *)
Definition found_mapped (t : shmcache_context) (r : option hptr * Z * option hptr) : Prop :=
  ∀ e, r.1.1 = Some e → ∃ o, e = hentry_addr o ∧ readable t o.
Lemma lazily_search_loop fuel t key c start previous :
  behind t → chain (hnext t) start c → Forall (reachable t) c → (length c < fuel)%nat →
  lazily (search_loop fuel key previous start) t (found_mapped t).
Proof.
  intros Hb. revert start c previous.
  induction fuel as [|fuel IH]; intros start c previous Hc Hr Hf; [lia|].
  cbn [search_loop]. destruct c as [|o c].
  { simpl in Hc. subst start. by apply lazily_ret. }
  destruct Hc as [-> Hc]. apply Forall_cons in Hr as [Hro Hr].
  assert (0 < o) as Hpos by (destruct Hro as (u&_&Ho&_); by eapply off_ok_pos).
  rewrite Z.gtb_ltb, (proj2 (Z.ltb_lt _ _)) by done. apply lazily_pointer; [done..|]. intros Hrd.
  eapply lazily_bind; [done|by apply lazily_key_equals|]. intros [] _.
  - apply lazily_ret. intros e [= <-]. by exists o.
  - eapply lazily_bind; [done| |].
    { apply (lazily_load_hentry t _ (λ e, e = hdr t o)); [done|apply Hrd|done]. }
    intros e ->. apply (IH _ c); [done..|simpl in Hf; lia].
Qed.

(** ** shm_ht_get up to the time of day *)
Definition lookup_entry (key : shmcache_key_info) : cmd (option value_ref) :=
  index ← HT_GET_BUCKET_INDEX key;
  entry_offset ← load_bucket index;
  '(found, _, _) ← search key entry_offset;
  match found with
  | None => mret None
  | Some entry =>
    e ← load_hentry entry;
    p ← shm_get_value_ptr e;
    mret (Some (Value_ref p (value_length (he_value e)) (value_options (he_value e)) (expires e)))
  end.
Definition stamp (v : option value_ref) : cmd (Z * option value_ref) :=
  match v with
  | None => mret (ENOENT, None)
  | Some value =>
    now ← ext get_current_time;
    mret (if HT_ENTRY_IS_VALID (vr_expires value) now then 0 else ETIMEDOUT, Some value)
  end.
Lemma bind_assoc {A B C} (m : cmd A) (f : A → cmd B) (g : B → cmd C) s :
  ((m ≫= f) ≫= g) s = (m ≫= λ a, f a ≫= g) s.
Proof. unfold mbind, M_bind. by destruct (m s) as [[]|]. Qed.
Lemma bind_ext {A B} (m : cmd A) (f g : A → cmd B) s : (∀ a s, f a s = g a s) → (m ≫= f) s = (m ≫= g) s.
Proof. intros H. unfold mbind, M_bind. by destruct (m s) as [[]|]. Qed.
Lemma ht_get_lookup key s : shm_ht_get key s = (lookup_entry key ≫= stamp) s.
Proof.
  symmetry. unfold shm_ht_get, lookup_entry. rewrite bind_assoc. apply bind_ext. clear s. intros i s.
  rewrite bind_assoc. apply bind_ext. clear s. intros off s.
  rewrite bind_assoc. apply bind_ext. clear s. intros [[[entry|] ?] ?] s; [|done].
  rewrite bind_assoc. apply bind_ext. clear s. intros e s.
  rewrite bind_assoc. by apply bind_ext.
Qed.

(** what does not depend on the segments *)
Lemma lazily_shared {A} (m : cmd A) t a (P : A → Prop) :
  (∀ s, s = t ∨ ahead t s → m s = Some (a, s)) → P a → lazily m t P.
Proof. intros Hm HP. right. right. exists a. split_and!; [done|by apply Hm; left|]. intros u Hu. apply Hm. by right. Qed.
Lemma wp_exact {A} (m : cmd A) a s : wp m (λ r s', r = a ∧ s' = s) s → m s = Some (a, s).
Proof. by intros (r&s'&Hrun&->&->). Qed.
Lemma lazily_value_ptr t o : behind t → readable t o →
  lazily (shm_get_value_ptr (hdr t o)) t (λ p, p = Some (value_ptr t o)).
Proof.
  intros Hb Hr. apply (lazily_shared _ _ (Some (value_ptr t o))); [|done]. intros s Hs.
  pose proof (readable_segment t o Hr) as Hseg. pose proof Hb as (Hv&_).
  rewrite (readable_value_ptr t o Hr). apply wp_exact.
  apply wp_get_value_ptr; [|destruct Hs as [->|(?&?&?&->&_)]; unfold mem_of in Hseg; cbn; lia|done].
  destruct Hs as [->|(?&?&?&_&_&?)]; [by apply Hb|done].
Qed.

Context `{L : !EnvLaws E}.
Definition copyable (t : shmcache_context) (v : option value_ref) : Prop :=
  ∀ vr, v = Some vr → ∃ o, readable t o ∧ vr = value_ref_of t o.
Lemma lazily_lookup t u es key :
  behind t → ahead t u → inv u es → key_ok key → lazily (lookup_entry key) t (copyable t).
Proof.
  intros Hb Hu (Hg&_&Ha&_&Ht) Hk.
  assert (Forall (reachable t) es) as Hre.
  { eapply Forall_impl; [exact (inv_readable u es es Hg Ha Ht ltac:(done))|]. intros o Ho. by exists u. }
  assert (buckets_ok t es ∧ counters_ok t es) as [Hbk Hcnt].
  { destruct Hu as (tk&fds&items&->&_). destruct Ht as (_&_&H1&H2). split; [exact H1|exact H2]. }
  unfold lookup_entry. eapply lazily_bind; [done| |].
  { apply (lazily_shared _ _ (bucket_of t (key_data key)) (λ b, b = bucket_of t (key_data key))); [|done].
    intros s Hs. apply wp_exact. apply (wp_bucket_index s es key); [|done|].
    - destruct Hs as [->|(?&?&?&->&_)]; exact Hbk.
    - by destruct Hs as [->|(?&?&?&->&_)]. }
  intros b ->. pose proof Hbk as (_&_&Hch).
  destruct (Hch (bucket_of t (key_data key))) as (start&c&Hst&Hc&Hp); [by eapply bucket_of_range|].
  eapply lazily_bind; [done| |].
  { apply (lazily_shared _ _ start (λ x, x = start)); [|done]. intros s Hs. unfold load_bucket, mbind, M_bind, get.
    destruct Hs as [->|(?&?&?&->&_)]; cbn; by rewrite Hst. }
  intros x ->. eapply lazily_bind; [done| |].
  { unfold search. apply lazily_get; [done|by intros ? (?&?&?&->&_)|].
    apply (lazily_search_loop _ _ _ c); [done|done| |].
    - rewrite Hp. rewrite Forall_forall in *. intros x [_ Hx]%list_elem_of_filter. auto.
    - unfold chain_fuel, shm_ht_count. destruct Hcnt as (->&_). rewrite Nat2Z.id, Hp.
      pose proof (length_filter (λ o, bucket_of t (key_of t o) = bucket_of t (key_data key)) es). lia. }
  intros [[[entry|] off] prev] Hfm; [|by apply lazily_ret]. destruct (Hfm entry eq_refl) as (o&->&Hr).
  eapply lazily_bind; [done| |].
  { apply (lazily_load_hentry t _ (λ e, e = hdr t o)); [done|apply Hr|done]. }
  intros e ->. eapply lazily_bind; [done|by apply lazily_value_ptr|]. intros p ->. apply lazily_ret.
  intros vr [= <-]. by exists o.
Qed.

(** ** The call *)
(** the records as seen by a process that is behind *)
Definition rep_behind (t : shmcache_context) (l : list shmcache_hash_entry) : Prop :=
  behind t ∧ ∃ u, ahead t u ∧ rep u l.
Lemma ahead_rep t u u' l : behind t → ahead t u → ahead t u' → rep u l → rep u' l.
Proof.
  intros Hb (tk&fds&items&->&Hl&Hs) (tk'&fds'&items'&->&Hl'&Hs') (es&Hinv&->&Hm).
  assert (reattached (t <| ticks := tk |> <| open_fds := fds |> <| values_items := items |>
    <| values_count := count_current (vm_segment (memory t)) |>)
    (t <| ticks := tk' |> <| open_fds := fds' |> <| values_items := items' |>
    <| values_count := count_current (vm_segment (memory t)) |>)) as Hre.
  { exists (pid t), (lock_fd t), (detect_deadlock_clocks t), (ht_segment t), (create_segment t),
      (index (doing t)), (index (done_pool t)), (g_current_time t), (g_schedule_flag t), tk', fds', items'.
    split; [|split; [cbn; congruence|done]]. by destruct t as [????????[][]]. }
  exists es. split; [by eapply reattached_inv|]. split; [|exact Hm].
  symmetry. apply view_agree. intros o _. by apply reattached_agree.
Qed.

(** what a read leaves: more segments may be mapped *)
Definition settles (t s' : shmcache_context) : Prop := ∃ n fds fd p st items v,
  s' = t <| ticks := n |> <| open_fds := fds |> <| lock_fd := fd |> <| memory; lock_pid := p |>
         <| memory; stats := st |> <| values_items := items |> <| values_count := v |> ∧
  length items = length (values_items t) ∧ segs_ok s' ∧
  values_count t ≤ v ≤ count_current (vm_segment (memory t)).
Lemma settles_api t s' : behind t → api_frame t s' → settles t s'.
Proof.
  intros (?&?&?&_) (n&fds&fd&p&st&->). exists n, fds, fd, p, st, (values_items t), (values_count t).
  split; [by destruct t|]. split_and!; [done|done|lia..].
Qed.
Lemma settles_after t s1 s2 : settles t s1 → api_frame s1 s2 → settles t s2.
Proof.
  intros (n&fds&fd&p&st&items&v&->&Hl&Hs&Hv) (n2&fds2&fd2&p2&st2&->).
  by exists n2, fds2, fd2, p2, st2, items, v.
Qed.
Lemma settles_before t s1 s2 : api_frame t s1 → settles s1 s2 → settles t s2.
Proof.
  intros (n&fds&fd&p&st&->) (n2&fds2&fd2&p2&st2&items&v&->&H).
  by exists n2, fds2, fd2, p2, st2, items, v.
Qed.
Lemma settles_ahead t u : behind t → ahead t u → settles t u.
Proof.
  intros (?&?&?&_) (n&fds&items&->&Hl&Hs).
  exists n, fds, (lock_fd t), (lock_pid (memory t)), (stats (memory t)), items,
    (count_current (vm_segment (memory t))).
  split; [by destruct t as [????[]]|]. split_and!; [done|done|lia..].
Qed.

Lemma outcome_of_mapped t u1 l key v r s1 :
  behind t → ahead t u1 → ticks u1 = ticks t → copyable t v → stamp v u1 = Some (r, s1) →
  get_outcome s1 l key r → ∃ s', stamp v t = Some (r, s') ∧ api_frame t s' ∧ get_outcome s' l key r.
Proof.
  intros Hb (tk&fds&items&->&_) Htk Hv. cbn in Htk. subst tk. destruct v as [vr|].
  2: { intros [= <- <-] Ho. exists t. split_and!; [done|done|]. unfold get_outcome in *.
       destruct (find_key key l) as [rec|]; [|done]. destruct Ho as (now&vr&_&_&Hr). discriminate Hr. }
  intros [= <- <-] Ho. exists (t <| ticks ::= S |>). split; [done|]. split; [apply api_frame_ticks|].
  unfold get_outcome in *. destruct (find_key key l) as [rec|]; [|discriminate Ho].
  destruct Ho as (now&vr'&Hnow&(Hl&Ho&He&p&Hp&Hin&Hd)&Hr). injection Hr as Hr <-.
  exists now, vr. split; [done|]. split; [|by rewrite Hr].
  split_and!; [done..|]. exists p. split; [done|]. split; [|exact Hd].
  destruct (Hv vr eq_refl) as (x&Hrd&->). injection Hp as <-. rewrite <-Hl.
  apply in_segment_true; [apply Hb|apply Hrd].
Qed.

Lemma ht_get_behind t l key : rep_behind t l → key_ok key →
  (shm_ht_get key t = None ∧ cannot_map t) ∨
  wp (shm_ht_get key) (λ r s', settles t s' ∧ get_outcome s' l (key_data key) r) t.
Proof.
  intros (Hb&u&Hu&Hrep) Hk. pose proof Hrep as (es&Hinv&_).
  destruct (lazily_lookup t u es key Hb Hu Hinv Hk) as [[Hm Hc]|[(t'&Hop&Hm)|(v&Hv&Ht&Hall)]].
  - left. split; [|done]. rewrite ht_get_lookup. unfold mbind, M_bind. by rewrite Hm.
  - right. pose proof (opened_ahead t t' Hb Hop) as Ha.
    assert (shm_ht_get key t = shm_ht_get key t') as Heq.
    { rewrite !ht_get_lookup. unfold mbind, M_bind. by rewrite Hm. }
    destruct (rep_get t' l key) as (r&s'&Hrun&[Hf _]&Ho); [by apply (ahead_rep t u)|done|].
    exists r, s'. rewrite Heq. split; [done|]. split; [|done].
    eapply settles_after, Hf. by apply settles_ahead.
  - right. set (u1 := u <| ticks := ticks t |>).
    assert (ahead t u1) as Hu1.
    { destruct Hu as (tk&fds&items&->&Hl&Hs). by exists (ticks t), fds, items. }
    destruct (rep_get u1 l key) as (r&s1&Hrun&_&Ho); [by apply (ahead_rep t u)|done|].
    rewrite ht_get_lookup in Hrun. unfold mbind, M_bind in Hrun. rewrite (Hall u1 Hu1) in Hrun.
    destruct (outcome_of_mapped t u1 l (key_data key) v r s1) as (s'&Hst&Hf&Ho'); [done..|].
    exists r, s'. rewrite ht_get_lookup. unfold mbind, M_bind. rewrite Ht. split; [done|].
    split; [by apply settles_api|done].
Qed.

Lemma wp_at {A} (m m' : cmd A) (Q : A → _ → Prop) s s1 : m s = m' s1 → wp m' Q s1 → wp m Q s.
Proof. unfold wp. by intros ->. Qed.
Lemma rep_behind_stats t l st : rep_behind t l → rep_behind (t <| memory; stats := st |>) l.
Proof.
  intros (Hb&u&(tk&fds&items&->&Hl&Hs)&Hrep). split; [exact Hb|].
  eexists. split; [by exists tk, fds, items|].
  eapply (law_frame (Rep := rep)); [|exact Hrep]. exact (api_frame_stats _ (λ _, st)).
Qed.
Lemma get_and_count_behind t l key : rep_behind t l → key_ok key →
  (get_and_count key t = None ∧ ∃ st, cannot_map (t <| memory; stats := st |>)) ∨
  wp (get_and_count key) (λ r s', settles t s' ∧ get_outcome s' l (key_data key) r) t.
Proof.
  intros Hrep Hk. set (st := (stats (memory t)) <| stats_get; total ::= Z.succ |>).
  set (t1 := t <| memory; stats := st |>).
  assert (get_and_count key t = ('(result, value) ← shm_ht_get key;
    modify (λ s, s <| memory; stats; stats_get ::= count_success result |>);;
    mret (result, value)) t1) as Heq by done.
  destruct (ht_get_behind t1 l key) as [[Hm Hc]|Hw]; [by apply rep_behind_stats|done| |].
  - left. split; [|by exists st]. rewrite Heq. unfold mbind, M_bind. by rewrite Hm.
  - right. eapply wp_at; [exact Heq|]. wp_simpl. eapply wp_mono; [exact Hw|].
    intros [r v] s2 [Hset Ho]. wp_simpl.
    set (s3 := s2 <| memory; stats; stats_get ::= count_success r |>).
    assert (api_frame s2 s3) as Hf by exact (api_frame_stats s2 _).
    split; [|exact (outcome_frame s2 s3 _ _ _ Hf Ho)].
    eapply settles_before; [exact (api_frame_stats t (λ _, st))|]. by eapply settles_after.
Qed.

(** a get without the lock, in a process that is behind: it returns what the
    records say, or the segments could not be mapped *)
Lemma get_copy_behind attempts t l key :
  rep_behind t l → key_ok key → read_within_lock (lock_policy (config t)) = false →
  (get_copy attempts key t = None ∧ ∃ st, cannot_map (t <| memory; stats := st |>)) ∨
  wp (get_copy attempts key) (λ r s', settles t s' ∧ abs_get (key_data key) l r l) t.
Proof.
  intros Hrep Hk Hlock.
  assert (get_copy attempts key t = ('(r, v) ← get_and_count key; v ← copy_value v; mret (r, v)) t) as Heq.
  { unfold get_copy, shmcache_get, mbind, M_bind, get. by rewrite Hlock. }
  destruct (get_and_count_behind t l key Hrep Hk) as [[Hm Hc]|Hw].
  - left. split; [|done]. rewrite Heq. unfold mbind, M_bind. by rewrite Hm.
  - right. eapply wp_at; [exact Heq|]. wp_simpl. eapply wp_mono; [exact Hw|].
    intros [r v] s1 [Hset Ho]. wp_simpl. apply (wp_copy s1 l (key_data key) (r, v)); [done|].
    intros v' Hv'. by wp_simpl.
Qed.
End lazy.
