(* ===== verification/Processes.v ===== *)
(** * Many processes on one cache

    Every process has its own [shmcache_context]: its pid, the segments it has
    mapped, the positions of its iterators.  The header, queues, allocators,
    entries and bytes are shared.  The processes take turns call by call, which
    the lock gives them ([lock_mutual_exclusion]); new ones attach at any time.
    One of them may have added segments that another has not mapped yet: it maps
    them, all at once, when it meets an entry in one of them
    ([shmopt_get_value_segment]).  A get without the lock does so in the middle
    of the call (LazySegments.v); before any other call it does so here. *)
From S2P Require Import Prelude Types ObjectPool OpWrapper Shmopt HentryOffset Invariant SegmentGrowth HashTable Recycle Lock CacheTable ShmCache ShmCacheSpec Init Attach LazySegments.
Local Open Scope Z_scope.
Local Open Scope shm_scope.

(** ** The state of one process *)
(** the fields of [shmcache_context] that a process does not share, and the
    variables of libfastcommon's clock *)
Record process := Process {
  p_pid : Z; p_lock_fd : Z; p_detect_deadlock_clocks : Z; p_ht_segment : shmcache_segment_info;
  p_values_count : Z; p_values_items : list shmcache_segment_info;
  p_doing_index : Z; p_done_index : Z; p_create_segment : bool;
  p_current_time : Z; p_schedule_flag : bool; p_open_fds : list Z;
}.
Definition process_of (s : shmcache_context) : process :=
  Process (pid s) (lock_fd s) (detect_deadlock_clocks s) (ht_segment s) (values_count s)
    (values_items s) (index (doing s)) (index (done_pool s)) (create_segment s)
    (g_current_time s) (g_schedule_flag s) (open_fds s).
(** the context of process [p] on the shared memory of [s] *)
Definition load (p : process) (s : shmcache_context) : shmcache_context :=
  s <| pid := p_pid p |> <| lock_fd := p_lock_fd p |>
    <| detect_deadlock_clocks := p_detect_deadlock_clocks p |> <| ht_segment := p_ht_segment p |>
    <| values_count := p_values_count p |> <| values_items := p_values_items p |>
    <| doing; index := p_doing_index p |> <| done_pool; index := p_done_index p |>
    <| create_segment := p_create_segment p |> <| g_current_time := p_current_time p |>
    <| g_schedule_flag := p_schedule_flag p |> <| open_fds := p_open_fds p |>.
(** a process before [shmcache_init]: its context is not set up yet *)
Definition newborn (p : process) : Prop := p_open_fds p = [] ∧ p_values_count p = 0 ∧ p_values_items p = [].

(** ** The system *)
Record system := System { shared : shmcache_context; processes : list process }.
Inductive event := Attached | Called (op : api_op) (r : api_result).

Section system.
Context `{E : Env} `{L : !EnvLaws E} (attempts : nat) (cfg : shmcache_config).

(** the process has mapped every segment *)
Definition up_to_date (p : process) (s : shmcache_context) : Prop :=
  p_values_count p = count_current (vm_segment (memory s)).
(** a call that does not take the lock *)
Definition lock_free (op : api_op) : Prop :=
  match op with Op_get _ => read_within_lock (lock_policy cfg) = false | _ => False end.

Inductive system_step : system → list event → system → Prop :=
| Step_attach s ps p check s' :
    newborn p →
    shmcache_init attempts (p_pid p) cfg true check (load p s) = Some (0, s') →
    system_step (System s ps) [Attached] (System s' (ps ++ [process_of s']))
| Step_open s ps i p r s' :
    ps !! i = Some p → shmopt_open_value_segments (load p s) = Some (r, s') →
    system_step (System s ps) [] (System s' (<[i := process_of s']> ps))
| Step_call s ps i p op r s' :
    ps !! i = Some p → up_to_date p s ∨ lock_free op →
    run_op attempts op (load p s) = Some (r, s') →
    system_step (System s ps) [Called op r] (System s' (<[i := process_of s']> ps)).
Inductive system_run : system → list event → system → Prop :=
| Run_nil σ : system_run σ [] σ
| Run_step σ ev σ1 evs σ2 :
    system_step σ ev σ1 → system_run σ1 evs σ2 → system_run σ (ev ++ evs) σ2.

(** the events on the abstract cache; attaching, like a call, may find the owner
    of the lock dead *)
Inductive abs_events : list shmcache_hash_entry → list event → list shmcache_hash_entry → Prop :=
| Abs_done l : abs_events l [] l
| Abs_attached l l1 evs l2 : locked l l1 → abs_events l1 evs l2 → abs_events l (Attached :: evs) l2
| Abs_called l op r l1 evs l2 :
    abs_call (max_value_size cfg) op l r l1 → abs_events l1 evs l2 → abs_events l (Called op r :: evs) l2.
Fixpoint events_safe (evs : list event) (l : list shmcache_hash_entry) : Prop :=
  match evs with
  | [] => True
  | Attached :: evs => ∀ l', locked l l' → events_safe evs l'
  | Called op r :: evs => op_ok op l ∧ ∀ l', abs_call (max_value_size cfg) op l r l' → events_safe evs l'
  end.

(** ** The invariant *)
Definition mapped (s : shmcache_context) (p : process) : Prop :=
  0 ≤ p_values_count p ≤ count_current (vm_segment (memory s)) ∧
  Z.of_nat (length (p_values_items p)) = count_max (vm_segment (memory s)) ∧
  segments_mapped (p_values_count p) (p_values_items p) (vsize (vm_segment (memory s))).
(** seen by a process that is up to date, the cache is well-formed *)
Definition represents (s : shmcache_context) (l : list shmcache_hash_entry) : Prop :=
  ∃ p es, image cfg (load p s) es ∧ view (load p s) es = l.
Definition system_ok (σ : system) (l : list shmcache_hash_entry) : Prop :=
  represents (shared σ) l ∧ Forall (mapped (shared σ)) (processes σ).

Lemma load_process_of s : load (process_of s) s = s.
Proof. by destruct s as [????????[][]]. Qed.
Lemma load_load p q s : load p (load q s) = load p s.
Proof. done. Qed.

(** any process that is up to date sees the same cache *)
Lemma image_load p q s es :
  image cfg (load p s) es → mapped s q → up_to_date q s →
  image cfg (load q s) es ∧ view (load q s) es = view (load p s) es.
Proof.
  intros (Hinv&Hcf&Hc&Ha&Hl) (Hq&Hlen&Hsm) Hup.
  pose proof Hinv as ((_&_&_&(Hvc&Hvl&_)&_)&_). cbn in Hvc, Hvl.
  assert (reattached (load p s) (load q s)) as Hre.
  { exists (p_pid q), (p_lock_fd q), (p_detect_deadlock_clocks q), (p_ht_segment q), (p_create_segment q),
      (p_doing_index q), (p_done_index q), (p_current_time q), (p_schedule_flag q), (ticks s),
      (p_open_fds q), (p_values_items q).
    split; [|split; [cbn; lia|exact Hsm]].
    unfold load, up_to_date in *. cbn in *. rewrite Hvc, <-Hup. by destruct s. }
  split; [split; [by eapply reattached_inv|done]|].
  apply view_agree. intros o _. by apply reattached_agree.
Qed.

(** the other processes stay attached when segments are only added *)
Definition grows (s s' : shmcache_context) : Prop :=
  count_current (vm_segment (memory s)) ≤ count_current (vm_segment (memory s')) ∧
  count_max (vm_segment (memory s')) = count_max (vm_segment (memory s)) ∧
  vsize (vm_segment (memory s')) = vsize (vm_segment (memory s)).
Lemma mapped_grows s s' p : grows s s' → mapped s p → mapped s' p.
Proof. intros (?&Hm&Hv) (?&?&?). unfold mapped. rewrite Hm, Hv. split_and!; [lia..|done]. Qed.
Lemma mapped_of_inv s es : inv s es → mapped s (process_of s).
Proof.
  intros ((_&[? _]&_&(Hvc&Hl&Hs)&_)&_). split; [cbn; lia|]. split; [exact Hl|exact Hs].
Qed.
Lemma represents_of s es : image cfg s es → represents s (view s es).
Proof. intros Him. exists (process_of s), es. by rewrite load_process_of. Qed.

(** what a call of one process needs and gives *)
Lemma represents_rep s l p :
  mapping_ok (cfg_type cfg) → represents s l → mapped s p → up_to_date p s →
  rep (load p s) l ∧ limited (max_value_size cfg) (load p s) ∧ ∀ s' l', same_config (load p s) s' → rep s' l' →
    represents s' l' ∧ grows s s' ∧ mapped s' (process_of s').
Proof.
  intros Hok (p0&es&Him&<-) Hmp Hup. destruct (image_load p0 p s es Him Hmp Hup) as [Him' <-].
  pose proof Him' as (Hinv&Hcf&Hc&Ha&Hl). split; [exists es; by rewrite Hc|].
  split; [by unfold limited; rewrite Hc|]. intros s' l' Hsc (es'&Hinv'&->&_). split_and!.
  - apply represents_of. split; [done|]. split; [by eapply conforms_config|].
    destruct (same_context_config _ _ Hsc) as (->&_&_&->&->). done.
  - by destruct Hsc as (_&_&_&_&_&_&_&_&?&?&_&_&_&_&_&?).
  - by eapply mapped_of_inv.
Qed.

(** ** One step *)
Lemma attach_step s ps p check s' l :
  init_ok cfg attempts → system_ok (System s ps) l → newborn p →
  shmcache_init attempts (p_pid p) cfg true check (load p s) = Some (0, s') →
  ∃ l', locked l l' ∧ system_ok (System s' (ps ++ [process_of s'])) l'.
Proof.
  intros Hio [(p0&es&Him&<-) Hps] _ Hrun. cbn in Him, Hps.
  (* the initialisation does not look at what was mapped before *)
  set (q := Process (p_pid p) (p_lock_fd p) (p_detect_deadlock_clocks p) (p_ht_segment p)
    (p_values_count p0) (p_values_items p0) (p_doing_index p) (p_done_index p) (p_create_segment p)
    (p_current_time p) (p_schedule_flag p) (p_open_fds p)).
  assert (shmcache_init attempts (p_pid p) cfg true check (load q s) = Some (0, s')) as Hrun'
    by (rewrite <-Hrun; reflexivity).
  pose proof Him as (((_&[Hcc _]&_&(Hvc&Hvl&Hsm)&_)&_)&_). cbn in Hcc, Hvc, Hvl.
  assert (mapped s q) as Hq by (split; [cbn; lia|split; [exact Hvl|exact Hsm]]).
  destruct (image_load p0 q s es Him Hq Hvc) as [Himq Hviewq].
  destruct (attach_correct attempts (p_pid p) cfg check (load q s) es Hio Himq) as (r&s2&Hrun2&Hr).
  rewrite Hrun' in Hrun2. injection Hrun2 as <- <-. destruct (Hr eq_refl) as (_&Hgr&es'&Him'&Hes).
  exists (view s' es'). split.
  { destruct Hes as [[-> Hv]|[-> Hd]]; [left|right; by split]. by rewrite Hv. }
  split; [by apply represents_of|]. cbn. apply Forall_app. split.
  - eapply Forall_impl; [exact Hps|]. intros x Hx. apply (mapped_grows s); [|done].
    destruct Himq as (_&((Hv1&Hm1)&_)&_). destruct Him' as (_&((Hv2&Hm2)&_)&_). cbn in *.
    split_and!; [done|congruence|congruence].
  - constructor; [|done]. by eapply mapped_of_inv, Him'.
Qed.

Definition to_open (s : shmcache_context) : nat :=
  Z.to_nat (count_current (vm_segment (memory s)) - values_count s).
Lemma open_segments_loop s :
  shmopt_open_value_segments s = open_value_segments_loop (to_open s) (values_count s) s.
Proof. done. Qed.
Lemma open_spec s p l :
  mapping_ok (cfg_type cfg) → represents s l → mapped s p →
  wp shmopt_open_value_segments (λ r s', represents s' l ∧ mapped s' (process_of s') ∧ grows s s' ∧
    (r = 0 → up_to_date (process_of s') s')) (load p s).
Proof.
  intros Hok (p0&es&Him&<-) (Hpc&Hpl&Hpm).
  pose proof Him as (((_&[Hcc _]&_)&_)&_&Hc&_). cbn in Hcc, Hc.
  destruct (open_segments_loop_spec (to_open (load p s)) (load p s))
    as (r&s'&Hrun&m&fds&tk&items&Hs2&Hm&Hr&Hs&Hl);
    [cbn; by rewrite Hc|exact Hpm|exact (proj1 Hpc)|unfold to_open; cbn; lia|].
  exists r, s'. split; [rewrite open_segments_loop; exact Hrun|]. subst s'. unfold to_open in *. cbn in Hm, Hr.
  split; [exists p0, es; split; [exact Him|reflexivity]|]. split; [|split; [done|]].
  - split; [cbn; lia|]. split; [cbn in *; lia|exact Hs].
  - intros Hr0. unfold up_to_date. cbn. rewrite (Hr Hr0). lia.
Qed.
Lemma open_step s ps i p r s' l :
  mapping_ok (cfg_type cfg) → system_ok (System s ps) l → ps !! i = Some p →
  shmopt_open_value_segments (load p s) = Some (r, s') →
  system_ok (System s' (<[i := process_of s']> ps)) l.
Proof.
  intros Hok [Hrep Hps] Hi Hrun. cbn in Hrep, Hps.
  assert (mapped s p) as Hp by by eapply Forall_lookup_1.
  pose proof (proj1 (wp_run _ _ _ _ _ Hrun) (open_spec s p l Hok Hrep Hp)) as (?&?&?&_).
  split; [done|]. cbn. apply Forall_insert; [|done].
  eapply Forall_impl; [exact Hps|]. intros x. by apply mapped_grows.
Qed.

(** a process that is behind *)
Lemma represents_behind s l p :
  mapping_ok (cfg_type cfg) → represents s l → mapped s p →
  rep_behind (load p s) l ∧ config (load p s) = cfg ∧ ∀ s', settles (load p s) s' →
    represents s' l ∧ grows s s' ∧ mapped s' (process_of s').
Proof.
  intros Hok (p0&es&Him&<-) (Hpc&Hpl&Hpm).
  pose proof Him as (((_&[Hcc _]&_&(Hvc&Hvl&Hsm)&_)&_)&_&Hc&_). cbn in Hcc, Hc, Hvc, Hvl.
  set (q := Process (p_pid p) (p_lock_fd p) (p_detect_deadlock_clocks p) (p_ht_segment p)
    (count_current (vm_segment (memory s))) (p_values_items p0) (p_doing_index p) (p_done_index p)
    (p_create_segment p) (p_current_time p) (p_schedule_flag p) (p_open_fds p)).
  assert (segments_mapped (count_current (vm_segment (memory s))) (p_values_items p0)
    (vsize (vm_segment (memory s)))) as Hsq by (rewrite <-Hvc; exact Hsm).
  assert (mapped s q) as Hq by (split; [cbn; lia|split; [exact Hvl|exact Hsq]]).
  destruct (image_load p0 q s es Him Hq eq_refl) as [Himq Hviewq].
  assert (behind (load p s)) as Hb.
  { split; [exact Hpc|]. split; [cbn; lia|]. split; [exact Hpm|]. cbn. by rewrite Hc. }
  split; [|split; [exact Hc|]].
  - split; [exact Hb|]. exists (load q s). split.
    + exists (ticks s), (p_open_fds p), (p_values_items p0). split; [by destruct s|].
      split; [cbn; lia|exact Hsq].
    + exists es. split; [apply Himq|]. split; [by rewrite <-Hviewq|]. cbn. by rewrite Hc.
  - intros s' (n&fds&fd&pid&st&items&v&->&Hl&Hs&Hv). cbn in Hl, Hv. split_and!.
    + exists q, es. split; [exact Himq|exact Hviewq].
    + split_and!; [cbn; lia|done..].
    + split; [cbn; lia|]. split; [cbn; lia|exact Hs].
Qed.
Lemma lock_free_call s l p op :
  mapping_ok (cfg_type cfg) → represents s l → mapped s p → lock_free op → op_ok op l →
  (run_op attempts op (load p s) = None ∧ ∃ st, cannot_map (load p s <| memory; stats := st |>)) ∨
  wp (run_op attempts op) (λ r s', abs_call (max_value_size cfg) op l r l ∧ settles (load p s) s') (load p s).
Proof.
  intros Hok Hrep Hp Hfree Hop. destruct (represents_behind s l p Hok Hrep Hp) as (Hb&Hc&_).
  destruct op as [| |key| | | | |]; try by destruct Hfree. cbn in Hfree, Hop.
  rewrite <-Hc in Hfree. cbn [run_op]. unfold answer.
  destruct (get_copy_behind attempts (load p s) l key Hb Hop Hfree) as [[Hm Hx]|Hw].
  - left. split; [|done]. unfold mbind, M_bind. by rewrite Hm.
  - right. wp_simpl. eapply wp_mono; [exact Hw|]. intros [r v] s' [Hset Ho]. wp_simpl.
    split; [|done]. exists l. split; [by left|right]. by exists v.
Qed.

Lemma call_step s ps i p op r s' l :
  mapping_ok (cfg_type cfg) → mutex_ok attempts → system_ok (System s ps) l → op_ok op l →
  ps !! i = Some p → up_to_date p s ∨ lock_free op → run_op attempts op (load p s) = Some (r, s') →
  ∃ l', abs_call (max_value_size cfg) op l r l' ∧ system_ok (System s' (<[i := process_of s']> ps)) l'.
Proof.
  intros Hok Hm [Hrep Hps] Hop Hi Hup Hrun. cbn in Hrep, Hps.
  assert (mapped s p) as Hp by by eapply Forall_lookup_1.
  assert (∀ s', grows s s' → mapped s' (process_of s') →
    Forall (mapped s') (<[i := process_of s']> ps)) as Hall.
  { intros s1 Hgr Hm1. apply Forall_insert; [|done]. eapply Forall_impl; [exact Hps|]. intros x. by apply mapped_grows. }
  destruct Hup as [Hup|Hfree].
  2: { destruct (lock_free_call s l p op Hok Hrep Hp Hfree Hop) as [[Hn _]|Hw]; [congruence|].
       apply (proj1 (wp_run _ _ _ _ _ Hrun)) in Hw as [Hcall Hset].
       destruct (represents_behind s l p Hok Hrep Hp) as (_&_&Hback). destruct (Hback s' Hset) as (H1&H2&H3).
       exists l. split; [done|]. split; [done|by apply Hall]. }
  destruct (represents_rep s l p Hok Hrep Hp Hup) as (Hr&Hlim&Hback).
  destruct (run_op_served rep attempts (max_value_size cfg) (load p s) l op Hm Hr Hlim Hop) as (r2&s2&Hrun2&Hs).
  rewrite Hrun in Hrun2. injection Hrun2 as <- <-.
  apply served_call in Hs as (Hsc&l'&Hrep'&Hcall). destruct (Hback s' l' Hsc Hrep') as (H1&H2&H3).
  exists l'. split; [done|]. split; [done|by apply Hall].
Qed.

(** the system starts when the first process has set up the cache *)
Lemma first_process s es : image cfg s es → system_ok (System s [process_of s]) (view s es).
Proof.
  intros Him. split; [by apply represents_of|]. constructor; [|done]. by eapply mapped_of_inv, Him.
Qed.

Lemma step_refines σ ev σ' l :
  init_ok cfg attempts → mutex_ok attempts → system_ok σ l → system_step σ ev σ' →
  events_safe ev l → ∃ l', abs_events l ev l' ∧ system_ok σ' l'.
Proof.
  intros Hio Hm Hok Hstep Hsafe. pose proof (io_mapping cfg attempts Hio) as Hmap. destruct Hstep.
  - destruct (attach_step s ps p check s' l) as (l'&?&?); [done..|]. exists l'. split; [|done].
    econstructor; [done|constructor].
  - exists l. split; [constructor|]. by eapply open_step.
  - destruct Hsafe as [Hop _]. destruct (call_step s ps i p op r s' l) as (l'&?&?); [done..|].
    exists l'. split; [|done]. econstructor; [done|constructor].
Qed.

Lemma events_safe_prefix ev evs l : events_safe (ev ++ evs) l → events_safe ev l.
Proof.
  revert l. induction ev as [|[|op r] ev IH]; intros l; cbn; [done| |].
  - intros Hs l' Hl. by apply IH, Hs.
  - intros [? Hs]. split; [done|]. intros l' Hl. by apply IH, Hs.
Qed.
Lemma events_safe_rest ev evs l l' :
  events_safe (ev ++ evs) l → abs_events l ev l' → events_safe evs l'.
Proof. intros Hs Ha. induction Ha; cbn in *; [done|by auto|]. destruct Hs. auto. Qed.
Lemma abs_events_app ev evs l l1 l2 :
  abs_events l ev l1 → abs_events l1 evs l2 → abs_events l (ev ++ evs) l2.
Proof. induction 1; cbn; [done|econstructor; by eauto|econstructor; by eauto]. Qed.

Lemma run_refines σ evs σ' l :
  init_ok cfg attempts → mutex_ok attempts → system_ok σ l → system_run σ evs σ' →
  events_safe evs l → ∃ l', abs_events l evs l' ∧ system_ok σ' l'.
Proof.
  intros Hio Hm Hok Hrun. revert l Hok. induction Hrun as [σ|σ ev σ1 evs σ2 Hstep _ IH]; intros l Hok Hs.
  { exists l. split; [constructor|done]. }
  destruct (step_refines σ ev σ1 l) as (l1&Ha&Hok1); [done..|by eapply events_safe_prefix|].
  destruct (IH l1 Hok1) as (l2&Ha2&Hok2); [by eapply events_safe_rest|].
  exists l2. split; [by eapply abs_events_app|done].
Qed.

(** no process is ever stuck *)
Lemma call_returns s ps l i p op :
  mapping_ok (cfg_type cfg) → mutex_ok attempts → system_ok (System s ps) l →
  ps !! i = Some p → up_to_date p s → op_ok op l → is_Some (run_op attempts op (load p s)).
Proof.
  intros Hok Hm [Hrep Hps] Hi Hup Hop. cbn in Hrep, Hps.
  assert (mapped s p) as Hp by by eapply Forall_lookup_1.
  destruct (represents_rep s l p Hok Hrep Hp Hup) as (Hr&Hlim&_).
  eapply wp_total. by apply (run_op_served rep attempts (max_value_size cfg) (load p s) l op).
Qed.
End system.

(** ** Properties *)
Section properties.
Context `{E : Env} `{L : !EnvLaws E}.

(** C1: any number of processes: whatever the interleaving of their calls, with
    new processes attaching at any time and segments added by some and mapped
    later by others, results and records are those of one list of records on
    which the calls are made in that order; every process keeps a well-formed
    view of the cache, a process that is behind can always try to map what it
    is missing, and every call that may come next returns.  A get without the
    lock needs no such step: it maps what it meets, unless the mapping fails. *)
Theorem processes_refine attempts cfg σ evs σ' l :
  init_ok cfg attempts → system_ok cfg σ l → system_run attempts cfg σ evs σ' → events_safe cfg evs l →
  ∃ l', abs_events cfg l evs l' ∧ system_ok cfg σ' l' ∧ NoDup (keys_of l') ∧
    ∀ i p, processes σ' !! i = Some p →
      wp shmopt_open_value_segments (λ r s2, r = 0 → up_to_date (process_of s2) s2)
        (load p (shared σ')) ∧
      ∀ op, op_ok op l' →
        (up_to_date p (shared σ') → is_Some (run_op attempts op (load p (shared σ')))) ∧
        (lock_free cfg op → is_Some (run_op attempts op (load p (shared σ'))) ∨
         ∃ st, cannot_map (load p (shared σ') <| memory; stats := st |>)).
Proof.
  intros Hio Hok Hrun Hs. assert (mutex_ok attempts) as Hm by exact (io_released cfg attempts Hio).
  destruct (run_refines attempts cfg σ evs σ' l) as (l'&Ha&Hok'); [done..|].
  exists l'. split_and!; [done|done| |].
  - destruct Hok' as [(p&es&(Hinv&_)&<-) _]. rewrite keys_of_view. by apply inv_keys.
  - intros i p Hi. pose proof (io_mapping cfg attempts Hio) as Hmap. split.
    + destruct Hok' as [Hrep Hps]. eapply wp_mono.
      { apply (open_spec cfg (shared σ') p l'); [done..|]. by eapply Forall_lookup_1. }
      by intros r s2 (_&_&_&?).
    + intros op Hop. destruct σ' as [s' ps]. split; [intros Hup; by eapply call_returns|]. intros Hfree.
      destruct Hok' as [Hrep Hps]. destruct (lock_free_call attempts cfg s' l' p op) as [[_ Hx]|Hw];
        [done|done|by eapply Forall_lookup_1|done|done|by right|left]. by eapply wp_total.
Qed.
End properties.
