(* ===== verification/Safety.v ===== *)
(** * What holds at any time of the shared memory

    A cache that [shmcache_init] has set up in new shared memory and that any
    number of processes use: at every moment between their calls the entries
    are where they should be, and the fields of the structures hold what their
    C types can hold.  Both follow from the invariant that every operation was
    shown to keep ([inv_isolated], [inv_fields]), and are stated here of the
    runs themselves. *)
From S2P Require Import Prelude Types Invariant HashTable Recycle Lock CacheTable ShmCacheSpec Sizing Init Processes FieldWidths.
Local Open Scope Z_scope.
Local Open Scope shm_scope.

Section safety.
Context `{E : Env} `{L : !EnvLaws E} (attempts : nat) (cfg : shmcache_config).

(** process [my_pid] sets up the cache, and then the processes do [evs] *)
Definition runs_from_init (my_pid : Z) (check : bool) (evs : list event) (σ : system) : Prop :=
  ∃ s, shmcache_init attempts my_pid cfg true check (new_image cfg) = Some (0, s) ∧
    system_run attempts cfg (System s [process_of s]) evs σ ∧ events_safe cfg evs [].
(** the shared memory holds the entries [es], whose records the calls account
    for; every process that has mapped all segments sees them *)
Definition holds (evs : list event) (σ : system) (es : list Z) : Prop :=
  ∃ p0, image cfg (load p0 (shared σ)) es ∧ abs_events cfg [] evs (view (load p0 (shared σ)) es) ∧
  ∀ i p, processes σ !! i = Some p → up_to_date p (shared σ) →
    image cfg (load p (shared σ)) es ∧ view (load p (shared σ)) es = view (load p0 (shared σ)) es.

Lemma runs_hold my_pid check evs σ :
  init_ok cfg attempts → runs_from_init my_pid check evs σ → ∃ es, holds evs σ es.
Proof.
  intros Hio (s&Hinit&Hrun&Hsafe).
  pose proof (proj1 (wp_run _ _ _ _ _ Hinit) (init_spec attempts my_pid cfg check Hio) eq_refl) as [Him _].
  destruct (run_refines attempts cfg (System s [process_of s]) evs σ [] Hio) as (l&Ha&[(p0&es&Him2&Hv) Hps]); [|exact (first_process cfg s [] Him)|done|done|].
  { exact (io_released cfg attempts Hio). }
  exists es, p0. split; [done|]. split; [by rewrite Hv|]. intros i p Hi Hup.
  apply (image_load cfg p0 p); [done| |done]. by eapply Forall_lookup_1.
Qed.

(** the number of entries is an [int] *)
Lemma image_count s es :
  config_ok cfg → 0 ≤ value_memory cfg ≤ max_memory cfg → image cfg s es →
  Z.of_nat (length es) < 2 ^ 31.
Proof.
  intros Hc Hv (Hinv&((Hs&Hm)&_)&_). pose proof (entries_bound s es Hinv) as Hb. rewrite Hs, Hm in Hb.
  pose proof (segment_size_bounds cfg Hc) as Hseg. destruct Hc as [_ Hsg _ Hmem _].
  unfold new_segment_info, segment_info in Hb. cbn [vsize count_max] in Hb.
  set (x := SHMCACE_MEM_ALIGN (segment_size cfg) getpagesize) in *.
  pose proof (Z.mul_div_le (value_memory cfg) x ltac:(lia)).
  assert (Z.max 1 (value_memory cfg / x) * x ≤ 2 ^ 35) by (destruct (Z.max_spec 1 (value_memory cfg / x)) as [[? ->]|[? ->]]; lia).
  unfold sizeof_shm_hash_entry in Hb. lia.
Qed.
End safety.

(** ** Properties *)
Section properties.
Context `{E : Env} `{L : !EnvLaws E}.

(** C11: memory safety and isolation, from [shmcache_init] on: whatever calls any
    number of processes have made, the records they account for are those of
    entries that do not share a byte: every entry - its 64-byte header, key and
    value, with their alignment - lies inside a value segment that each process
    that is up to date has mapped, its key and value lie inside it, and the
    bytes of two different entries are disjoint.  The configuration is within
    the limits of [init_ok], and no increment overflows. *)
Theorem entries_isolated attempts cfg my_pid check evs σ :
  init_ok cfg attempts → runs_from_init attempts cfg my_pid check evs σ →
  ∃ es l, abs_events cfg [] evs l ∧ ∀ i p, processes σ !! i = Some p → up_to_date p (shared σ) →
    view (load p (shared σ)) es = l ∧ isolated (load p (shared σ)) es.
Proof.
  intros Hio Hr. destruct (runs_hold attempts cfg my_pid check evs σ Hio Hr) as (es&p0&_&Ha&Hall).
  exists es, (view (load p0 (shared σ)) es). split; [done|]. intros i p Hi Hup.
  destruct (Hall i p Hi Hup) as [[Hinv _] Hv]. split; [done|]. by apply inv_isolated.
Qed.

(** C12: bounds of shared memory, from [shmcache_init] on: whatever calls any
    number of processes have made, with a configuration within the limits of
    [init_ok] and no increment that overflows, these fields hold values within
    their C types of shmcache_types.h: of the header the sizes and counts of segments,
    stripings and hash table, the bytes in use, the buckets and the head of the
    recycle list; of both queues the capacity, head and tail; of every
    allocator its index, queue, bytes in use and three offsets; of every entry
    its lengths, memory place, hash link and list links.  The bytes of keys and
    values are at most those of the entries, these at most the stripings, and
    these the segments.  The statistics, the lock, the status, times, options
    and failure counts are not covered. *)
Theorem fields_fit attempts cfg my_pid check evs σ :
  init_ok cfg attempts → runs_from_init attempts cfg my_pid check evs σ →
  ∃ es, holds cfg evs σ es ∧ fields_in_range (shared σ) es.
Proof.
  intros Hio Hr. destruct (runs_hold attempts cfg my_pid check evs σ Hio Hr) as (es&p0&Him&Hx).
  exists es. split; [by exists p0|]. change (fields_in_range (load p0 (shared σ)) es).
  apply inv_fields; [apply Him|]. eapply image_count; [apply Hio| |done].
  pose proof (io_room cfg attempts Hio). unfold value_memory. lia.
Qed.
End properties.
