(* ===== verification/LockFree.v ===== *)
(** * A read without the lock (src/shm_hashtable.c, 134-162)

    The README calls reading lockless: unless read_within_lock is set, other
    processes may write while a get reads.  Here a get is a machine whose steps
    read a bucket, compare an entry, follow a link or read the fields of the
    entry found; alone it is [shm_ht_get], and between its steps other
    processes make calls. *)
From S2P Require Import Prelude Types OpWrapper Shmopt HentryOffset ShmList Invariant HashTable Recycle CacheTable ShmCache ShmCacheSpec Init Attach Processes.
Local Open Scope Z_scope.
Local Open Scope shm_scope.

(** where a get is: before the bucket, at an offset, about to follow ht_next of
    an entry, at the entry with the key, or finished *)
Inductive reader :=
| R_bucket | R_entry (offset : Z) | R_next (entry : hptr) | R_found (entry : hptr)
| R_done (r : Z * option value_ref).
Inductive action := Reader_step | Other_call (p : process) (op : api_op).

Section machine.
Context `{E : Env} (attempts : nat) (key : shmcache_key_info).

(** load the bucket (142-143), compare an entry (145-146), follow the chain
    (158), read the value (147-155) *)
Definition reader_step (r : reader) : cmd reader :=
  match r with
  | R_bucket =>
    index ← HT_GET_BUCKET_INDEX key;
    entry_offset ← load_bucket index;
    mret (R_entry entry_offset)
  | R_entry entry_offset =>
    if entry_offset >? 0 then
      entry ← shm_get_hentry_ptr entry_offset; entry ← non_null entry;
      eq ← HT_KEY_EQUALS entry key;
      mret (if eq : bool then R_found entry else R_next entry)
    else mret (R_done (ENOENT, None))
  | R_next entry => e ← load_hentry entry; mret (R_entry (ht_next e))
  | R_found entry =>
    e ← load_hentry entry;
    p ← shm_get_value_ptr e;
    let value := Value_ref p (value_length (he_value e)) (value_options (he_value e)) (expires e) in
    now ← ext get_current_time;
    mret (R_done (if HT_ENTRY_IS_VALID (expires e) now then 0 else ETIMEDOUT, Some value))
  | R_done r => mret (R_done r)
  end.
Fixpoint reader_steps (n : nat) (r : reader) : cmd reader :=
  match n with O => mret r | S n => r ← reader_step r; reader_steps n r end.

(** a call of another process takes effect as a whole *)
Definition other_call (p : process) (op : api_op) : cmd unit := λ s,
  '(_, s') ← run_op attempts op (load p s); Some (tt, load (process_of s) s').
Fixpoint run_actions (l : list action) (r : reader) : cmd reader :=
  match l with
  | [] => mret r
  | Reader_step :: l => r ← reader_step r; run_actions l r
  | Other_call p op :: l => other_call p op;; run_actions l r
  end.

(** ** Alone, the machine is shm_ht_get *)
Lemma reader_steps_done n r s : reader_steps n (R_done r) s = Some (R_done r, s).
Proof. induction n as [|n IH]; [done|exact IH]. Qed.
Lemma reader_steps_add n m r s r1 s1 :
  reader_steps n r s = Some (r1, s1) → reader_steps (n + m) r s = reader_steps m r1 s1.
Proof.
  revert r s. induction n as [|n IH]; intros r s; [by intros [= -> ->]|].
  cbn [reader_steps Nat.add]. unfold mbind, M_bind. destruct (reader_step r s) as [[r2 s2]|]; [|done]. apply IH.
Qed.
(** how a search ends *)
Definition reader_at (found : option hptr) : reader :=
  match found with Some entry => R_found entry | None => R_done (ENOENT, None) end.
Lemma reader_search fuel previous off s x s1 :
  search_loop fuel key previous off s = Some (x, s1) →
  ∃ n, (n ≤ 2 * fuel)%nat ∧ reader_steps n (R_entry off) s = Some (reader_at x.1.1, s1).
Proof.
  revert previous off s. induction fuel as [|fuel IH]; intros previous off s; [done|].
  cbn [search_loop]. destruct (off >? 0) eqn:Hoff.
  2: { intros [= <- <-]. exists 1%nat. split; [lia|]. cbn. unfold mbind, M_bind. by rewrite Hoff. }
  unfold mbind, M_bind.
  destruct (shm_get_hentry_ptr off s) as [[p s2]|] eqn:E1; [|done].
  destruct (non_null p s2) as [[entry s3]|] eqn:E2; [|done].
  destruct (HT_KEY_EQUALS entry key s3) as [[[] s4]|] eqn:E3; [| |done].
  - intros [= <- <-]. exists 1%nat. split; [lia|]. cbn. unfold mbind, M_bind.
    by rewrite Hoff, E1, E2, E3.
  - destruct (load_hentry entry s4) as [[e s5]|] eqn:E4; [|done].
    intros (n&Hn&Hrun)%IH. exists (2 + n)%nat. split; [lia|].
    rewrite <-Hrun. apply (reader_steps_add 2 n). cbn. unfold mbind, M_bind.
    rewrite Hoff, E1, E2, E3. cbn. unfold mbind, M_bind. by rewrite E4.
Qed.
Lemma reader_alone s r s' :
  shm_ht_get key s = Some (r, s') → ∃ n, ∀ m, reader_steps (n + m) R_bucket s = Some (R_done r, s').
Proof.
  unfold shm_ht_get, search, mbind, M_bind, get.
  destruct (HT_GET_BUCKET_INDEX key s) as [[i s1]|] eqn:E1; [|done].
  destruct (load_bucket i s1) as [[off s2]|] eqn:E2; [|done].
  destruct (search_loop (chain_fuel s2) key None off s2) as [[[[found o] prev] s3]|] eqn:E3; [|done].
  destruct (reader_search _ _ _ _ _ _ E3) as (n&_&Hn). cbn [fst] in Hn.
  assert (reader_steps (1 + n) R_bucket s = Some (reader_at found, s3)) as Hrun.
  { rewrite <-Hn. apply (reader_steps_add 1 n). cbn. unfold mbind, M_bind. by rewrite E1, E2. }
  intros Hget. exists (1 + n + 1)%nat. intros m. rewrite <-Nat.add_assoc, (reader_steps_add _ _ _ _ _ _ Hrun).
  rewrite (reader_steps_add 1 m _ _ (R_done r) s'); [apply reader_steps_done|].
  destruct found as [entry|]; cbn; unfold mbind, M_bind.
  - destruct (load_hentry entry s3) as [[e s4]|]; [|done].
    destruct (shm_get_value_ptr e s4) as [[p s5]|]; [|done].
    destruct (ext get_current_time s5) as [[now s6]|]; [|done]. by injection Hget as <- <-.
  - by injection Hget as <- <-.
Qed.
Lemma run_actions_steps n r s : run_actions (replicate n Reader_step) r s = reader_steps n r s.
Proof.
  revert r s. induction n as [|n IH]; intros r s; [done|]. cbn. unfold mbind, M_bind.
  destruct (reader_step r s) as [[]|]; [apply IH|done].
Qed.

(** without calls in between a get finds what [shm_ht_get] finds *)
Lemma lock_free_get_alone `{!EnvLaws E} s es :
  inv s es → key_ok key → ∃ n, ∀ m,
    wp (run_actions (replicate (n + m) Reader_step) R_bucket)
      (λ r s', ∃ out, r = R_done out ∧ shm_ht_get key s = Some (out, s')) s.
Proof.
  intros Hinv Hk. destruct (get_spec s es key Hinv Hk) as (out&s'&Hrun&_).
  destruct (reader_alone s out s' Hrun) as (n&Hn). exists n. intros m.
  exists (R_done out), s'. rewrite run_actions_steps, Hn. split; [done|]. by exists out.
Qed.

(** ** Between its steps others store new keys and change expiry times *)
(** a run of the machine, with the states it went through: nothing is removed
    meanwhile ([extends]) *)
Inductive overlapped : list (shmcache_context * list Z) → reader → shmcache_context → list Z → Prop :=
| Ov_start s es : inv s es → overlapped [(s, es)] R_bucket s es
| Ov_step h r s es r' s' :
    overlapped h r s es → reader_step r s = Some (r', s') → overlapped ((s', es) :: h) r' s' es
| Ov_other h r s es s' es' :
    overlapped h r s es → inv s' es' → extends s es s' es' → overlapped ((s', es') :: h) r s' es'.

Definition missed (h : list (shmcache_context * list Z)) : Prop :=
  ∃ s es, (s, es) ∈ h ∧ inv s es ∧ key_data key ∉ key_of s <$> es.
Definition passed (s : shmcache_context) (c : list Z) : Prop := ∀ x, x ∈ c → key_of s x ≠ key_data key.
(** where a reader is in the chain of its bucket *)
Definition reader_ok (h : list (shmcache_context * list Z)) (r : reader) s es : Prop :=
  let b := bucket_of s (key_data key) in
  match r with
  | R_bucket => True
  | R_entry off => off = 0 ∧ missed h ∨ ∃ c1 c2, bucket_chain s es b (c1 ++ off :: c2) ∧ passed s c1
  | R_next p => ∃ c1 o c2, bucket_chain s es b (c1 ++ o :: c2) ∧ p = hentry_addr o ∧ passed s (c1 ++ [o])
  | R_found p => ∃ o, finds s es (key_data key) o ∧ p = hentry_addr o
  | R_done out => ∃ s' es', (s', es') ∈ h ∧ inv s' es' ∧ get_outcome s' (view s' es') (key_data key) out
  end.

Lemma bucket_chain_in s es b c x : bucket_chain s es b c → x ∈ c → x ∈ es.
Proof. intros (st&_&_&Hp) Hx. rewrite Hp in Hx. by apply list_elem_of_filter in Hx as [_ ?]. Qed.
Lemma missed_mono h h' : h ⊆ h' → missed h → missed h'.
Proof. intros Hh (s&es&Hin&H). exists s, es. split; [by apply Hh|exact H]. Qed.
Lemma reader_ok_other h r s es s' es' :
  extends s es s' es' → reader_ok h r s es → reader_ok ((s', es') :: h) r s' es'.
Proof.
  intros (Hcf&Hcap&Ho&Hch). unfold reader_ok.
  assert (bucket_of s' (key_data key) = bucket_of s (key_data key)) as -> by (unfold bucket_of; by rewrite Hcf, Hcap).
  assert (∀ c b c', bucket_chain s es b c → c' ⊆ c → passed s c' → passed s' c') as Hps.
  { intros c b c' Hc Hsub Hp x Hx. destruct (Ho x) as [_ ->]; [by eapply bucket_chain_in, Hsub|auto]. }
  destruct r as [|off|p|p|out]; [done| | | |].
  - intros [[-> Hm]|(c1&c2&Hc&Hp)]; [left; split; [done|]; eapply missed_mono; [|done]; set_solver|right].
    destruct (Hch _ _ Hc) as (c'&Hc'). exists c1, (c2 ++ c'). rewrite <-app_assoc in Hc'. split; [done|].
    eapply Hps; [exact Hc|set_solver|done].
  - intros (c1&o&c2&Hc&->&Hp). destruct (Hch _ _ Hc) as (c'&Hc'). exists c1, o, (c2 ++ c').
    rewrite <-app_assoc in Hc'. split_and!; [done|done|]. eapply Hps; [exact Hc|set_solver|done].
  - intros (o&[Hin Hk]&->). exists o. split; [|done]. destruct (Ho o Hin) as [H1 H2]. split; [done|congruence].
  - intros (s2&es2&Hin&H). exists s2, es2. split; [by right|exact H].
Qed.

(** at the end of its chain the reader has seen that the key is missing *)
Lemma reader_ok_entry h s es c1 c2 :
  inv s es → (s, es) ∈ h → bucket_chain s es (bucket_of s (key_data key)) (c1 ++ c2) → passed s c1 →
  reader_ok h (R_entry (hd 0 c2)) s es.
Proof.
  intros Hinv Hin Hc Hp. destruct c2 as [|off c2]; cbn; [left|right; by exists c1, c2].
  split; [done|]. exists s, es. split_and!; [done|done|]. rewrite app_nil_r in Hc.
  destruct Hc as (st&_&_&Hpc). by eapply search_none_key.
Qed.
Context `{!EnvLaws E}.
Lemma reader_step_ok h r s es :
  key_ok key → inv s es → reader_ok h r s es →
  wp (reader_step r) (λ r' s', inv s' es ∧ reader_ok ((s', es) :: h) r' s' es) s.
Proof.
  intros Hk Hinv. pose proof Hinv as (Hg&_&Ha&_&Ht). pose proof Ht as (_&_&Hbk&_).
  pose proof (geometry_segs s Hg) as Hs.
  pose proof (inv_readable s es es Hg Ha Ht ltac:(done)) as Hrd. rewrite Forall_forall in Hrd.
  assert ((s, es) ∈ (s, es) :: h) as Hhere by left.
  destruct r as [|off|p|p|out]; cbn [reader_ok reader_step].
  - intros _. wp_simpl. eapply wp_bucket_index; [done..|]. wp_simpl.
    eapply wp_load_bucket; [done|by eapply bucket_of_range|]. intros start c Hst Hc Hp. wp_simpl.
    split; [done|]. rewrite (chain_first _ _ _ Hc).
    apply (reader_ok_entry _ _ _ [] c); [done|done|by exists start|]. intros x Hx. set_solver.
  - intros [[-> Hm]|(c1&c2&Hc&Hp)].
    + change (0 >? 0) with false. wp_simpl. split; [done|]. destruct Hm as (s2&es2&Hin&Hinv2&Hno). exists s2, es2.
      split_and!; [by right|done|]. unfold get_outcome. rewrite (proj2 (find_key_none _ _)); [done|].
      by rewrite keys_of_view.
    + assert (off ∈ es) as Ho by (eapply bucket_chain_in; [exact Hc|set_solver]).
      pose proof (Hrd off Ho) as Hro. pose proof (off_ok_pos s off (proj1 Hro)).
      rewrite Z.gtb_ltb, (proj2 (Z.ltb_lt _ _)) by done. wp_simpl.
      apply wp_get_hentry_ptr; [done|apply Hro|]. wp_simpl. apply wp_non_null. wp_simpl.
      apply wp_key_equals; [done..|]. wp_simpl. case_bool_decide as Heq; (split; [done|]).
      * exists off. by split.
      * exists c1, off, c2. split_and!; [done|done|]. intros x [Hx|Hx]%elem_of_app; [by apply Hp|].
        by apply list_elem_of_singleton in Hx as ->.
  - intros (c1&o&c2&Hc&->&Hp).
    assert (o ∈ es) as Ho by (eapply bucket_chain_in; [exact Hc|set_solver]).
    wp_simpl. apply wp_load_readable; [done|by apply Hrd|]. wp_simpl. split; [done|].
    pose proof Hc as (st&_&Hch&_). pose proof (chain_first _ _ _ (chain_app _ _ _ _ _ Hch)) as Hn.
    unfold hnext in Hn. rewrite Hn.
    apply (reader_ok_entry _ _ _ (c1 ++ [o]) c2); [done|done| |done]. by rewrite <-app_assoc.
  - intros (o&Hf&->). pose proof (Hrd o (proj1 Hf)) as Hro. wp_simpl.
    apply wp_load_readable; [done|done|]. wp_simpl. apply wp_value_ptr; [done|done|]. wp_simpl.
    apply wp_ext. wp_simpl. split; [done|]. exists (s <| ticks ::= S |>), es. split_and!; [left|done|].
    change (view (s <| ticks ::= S |>) es) with (view s es). unfold get_outcome.
    rewrite (find_key_view s es o) by (done || by eapply inv_keys).
    exists (get_current_time (ticks s)), (value_ref_of s o). split; [by eexists|]. split; [|done].
    eapply api_frame_refers; [apply api_frame_ticks|]. by apply readable_refers.
  - intros (s2&es2&Hin&H). wp_simpl. split; [done|]. exists s2, es2. split; [by right|exact H].
Qed.
Lemma overlapped_ok h r s es : key_ok key → overlapped h r s es → inv s es ∧ reader_ok h r s es.
Proof.
  intros Hk. induction 1 as [s es Hinv|h r s es r' s' _ [Hinv Hok] Hstep|h r s es s' es' _ [Hinv Hok] Hinv' Hx].
  - done.
  - exact (proj1 (wp_run _ _ _ _ _ Hstep) (reader_step_ok h r s es Hk Hinv Hok)).
  - split; [done|]. by eapply reader_ok_other.
Qed.
End machine.

(** ** What other processes do meanwhile *)
Section others.
Context `{E : Env} `{!EnvLaws E}.
(** storing a new key, where memory suffices, and changing expiry times *)
Lemma set_new_extends key value s es :
  mapping_ok (cfg_type (config s)) → inv s es → key_ok key → value_ok value →
  key_data key ∉ key_of s <$> es → storable_in s (view s es) key value →
  wp (shm_ht_set key value) (λ _ s', ∃ es', inv s' es' ∧ extends s es s' es') s.
Proof.
  intros Hok Hinv Hk Hv Hnew (Hk64&Hvm&Hcnt&Hll). rewrite length_view in Hcnt.
  eapply wp_mono; [by apply (set_lossless_spec key value s es)|].
  intros r s' (es'&Hinv'&Hx&_). exists es'. auto.
Qed.
Lemma set_expires_extends key x s es :
  inv s es → key_ok key → wp (shm_ht_set_expires key x) (λ _ s', inv s' es ∧ extends s es s' es) s.
Proof.
  intros Hinv Hk. eapply wp_mono; [by apply set_expires_spec|].
  intros r s' [(_&_&->)|(o&_&Hr)]; [split; [done|apply extends_refl]|].
  destruct (HT_ENTRY_IS_VALID _ _).
  - by destruct Hr as (_&Hinv'&_&_&_&Hx).
  - destruct Hr as [_ ->]. split; [done|]. by apply extends_same.
Qed.
(** a call of another process, seen from the process that reads; segments added
    meanwhile are mapped when one is met (LazySegments.v) *)
Lemma other_process p s es s' es' :
  inv s es → same_cache (load p s) s' → inv s' es' → extends (load p s) es s' es' →
  count_current (vm_segment (memory s')) = count_current (vm_segment (memory s)) →
  inv (load (process_of s) s') es' ∧ extends s es (load (process_of s) s') es'.
Proof.
  intros ((_&_&_&(Hvc&Hl&Hs)&_)&_) Hsc Hinv' Hx Hcc. split; [|exact Hx].
  pose proof Hinv' as ((_&_&_&(Hvc'&Hl'&_)&_)&_).
  assert (vsize (vm_segment (memory s')) = vsize (vm_segment (memory s)) ∧
          count_max (vm_segment (memory s')) = count_max (vm_segment (memory s))) as [Hvs Hcm].
  { destruct Hsc as (_&_&_&_&_&_&_&_&_&_&H1&H2&_). split; [exact H1|exact H2]. }
  apply (reattached_inv s'); [|done].
  exists (pid s), (lock_fd s), (detect_deadlock_clocks s), (ht_segment s), (create_segment s),
    (index (doing s)), (index (done_pool s)), (g_current_time s), (g_schedule_flag s), (ticks s'),
    (open_fds s), (values_items s).
  split; [|split; [lia|]].
  - assert (values_count s = values_count s') as Heq by congruence. unfold load. cbn. rewrite Heq. by destruct s'.
  - unfold segs_ok. cbn. rewrite Hvs. exact Hs.
Qed.
End others.

(** ** Properties *)
Section properties.
Context `{E : Env} `{!EnvLaws E}.

(** C5: reading without the lock: whatever new keys are stored and expiry times
    are changed between the steps of a get, every step of it is safe, and its result is the one a get in one piece gives at some
    moment between its start and its end: ENOENT only if the key was missing
    then, and otherwise the value of its record then. *)
Theorem lock_free_get_linearizable key h r s es :
  key_ok key → overlapped key h r s es →
  inv s es ∧ is_Some (reader_step key r s) ∧
  ∀ out, r = R_done out →
    ∃ s' es', (s', es') ∈ h ∧ inv s' es' ∧ get_outcome s' (view s' es') (key_data key) out.
Proof.
  intros Hk Hov. destruct (overlapped_ok key h r s es Hk Hov) as [Hinv Hok].
  split; [done|]. split; [by eapply wp_total, reader_step_ok|]. by intros out ->.
Qed.
End properties.
