(* ===== verification/Config.v ===== *)
(** * The configuration file (src/shmcache.c, 521-755)

    [shmcache_load_config] reads the items of an INI file into the
    configuration.  The INI reader, the size parser and the dynamic loader
    are outside the source tree: class [IniEnv].  A function that fails gives
    the error number, one that succeeds its result. *)
From S2P Require Import Prelude Types CLib OpWrapper Shmopt HashTable Lock Sizing Init.
Local Open Scope Z_scope.
Local Open Scope shm_scope.

(** the items of a loaded file, as the reader of libfastcommon answers *)
Record IniContext := Ini_context {
  iniGetStrValue : string → option string;
  iniGetIntValue : string → Z → Z;
  iniGetBoolValue : string → bool → bool;
}.
Class IniEnv := {
  iniLoadFromFile : string → Z + IniContext;
  (** the error number and the size in bytes *)
  parse_bytes : string → Z → Z * Z;
  (** dlopen(NULL) succeeds; the function of a name *)
  dlopen_self : bool;
  dlsym : string → option (list ascii → Z);
  fc_simple_hash : list ascii → Z;
}.

(** the error number or the result *)
#[export] Instance sum_ret : MRet (sum Z) := λ A x, inr x.
#[export] Instance sum_bind : MBind (sum Z) := λ A B f m,
  match m with inl e => inl e | inr x => f x end.

Section Config.
Context `{E : Env} `{I : IniEnv}.

(** shmcache_parse_bytes (521-546) *)
Definition shmcache_parse_bytes (ini : IniContext) (name : string) : Z + Z :=
  match iniGetStrValue ini name with
  | None => inl ENOENT
  | Some value =>
    let '(result, size) := parse_bytes value 1 in
    if negb (result =? 0) then inl result
    else if size <=? 0 then inl EINVAL
    else inr size
  end.

(** shmcache_parse_bytes_with_default (548-564): the size and [*result] *)
Definition shmcache_parse_bytes_with_default (ini : IniContext) (name : string) (def_value : Z) :
    Z * Z :=
  match iniGetStrValue ini name with
  | None => (def_value, 0)
  | Some value =>
    let '(result, size) := parse_bytes value 1 in
    if negb (result =? 0) then (def_value, result) else (size, result)
  end.

(** strcasecmp(a, b) == 0 *)
Definition tolower (c : ascii) : ascii :=
  if (65 <=? code c) && (code c <=? 90) then ascii_of_nat (Z.to_nat (code c + 32)) else c.
Definition strcaseeq (a b : string) : bool :=
  bool_decide (tolower <$> String.list_ascii_of_string a = tolower <$> String.list_ascii_of_string b).

(** the type (581-594) *)
Definition load_type (ini : IniContext) : Z + Z :=
  match iniGetStrValue ini "type" with
  | None => inr SHMCACHE_TYPE_MMAP
  | Some type =>
    if strcaseeq type "shm" then inr SHMCACHE_TYPE_SHM
    else if strcaseeq type "mmap" then inr SHMCACHE_TYPE_MMAP
    else inl EINVAL
  end.

(** the file name (596-605): snprintf keeps what fits the array *)
Definition load_filename (ini : IniContext) : Z + string :=
  match iniGetStrValue ini "filename" with
  | None => inl ENOENT
  | Some name =>
    if bool_decide (name = EmptyString) then inl ENOENT
    else inr (String.substring 0 (MAX_PATH_SIZE - 1) name)
  end.

(** the size of a segment, such that there are at most 255 (616-630) *)
Definition load_segment_size (ini : IniContext) (max_memory : Z) : Z + Z :=
  size ← shmcache_parse_bytes ini "segment_size";
  if 255 <? Z.quot max_memory size then inr (Z.quot max_memory 255) else inr size.

(** the hash function (649-676): by its name, or with the prefix "fc_" *)
Definition sizeof_new_funcname : nat := 64.
Definition load_hash_func (ini : IniContext) : Z + (list ascii → Z) :=
  match iniGetStrValue ini "hash_function" with
  | None => inr fc_simple_hash
  | Some name =>
    if bool_decide (name = EmptyString) then inr fc_simple_hash
    else if negb dlopen_self then inl EBUSY
    else
      match dlsym name with
      | Some f => inr f
      | None =>
        match dlsym (String.substring 0 (sizeof_new_funcname - 1) ("fc_" +:+ name)) with
        | Some f => inr f
        | None => inl ENOENT
        end
      end
  end.

(** an item that must be positive *)
Definition positive (x : Z) : Z + Z := if x <=? 0 then inl EINVAL else inr x.

(** shmcache_load_config (566-733) *)
Definition load_items (ini : IniContext) : Z + shmcache_config :=
  type ← load_type ini;
  name ← load_filename ini;
  max_mem ← shmcache_parse_bytes ini "max_memory";
  let '(min_mem, _) := shmcache_parse_bytes_with_default ini "min_memory" 0 in
  segment ← load_segment_size ini max_mem;
  keys ← positive (iniGetIntValue ini "max_key_count" 0);
  max_value ← shmcache_parse_bytes ini "max_value_size";
  hash ← load_hash_func ini;
  let avg_ttl := iniGetIntValue ini "value_policy.avg_key_ttl" 0 in
  discard ← shmcache_parse_bytes ini "value_policy.discard_memory_size";
  let max_fails := iniGetIntValue ini "value_policy.max_fail_times" 5 in
  let within_lock := iniGetBoolValue ini "lock_policy.read_within_lock" false in
  trylock_us ← positive (iniGetIntValue ini "lock_policy.trylock_interval_us" 200);
  let sleep_us := iniGetIntValue ini "value_policy.sleep_us_when_recycle_valid_entries" 0 in
  deadlock_ms ← positive (iniGetIntValue ini "lock_policy.detect_deadlock_interval_ms" 1000);
  let once := iniGetIntValue ini "recycle_key_once" 0 in
  let once := if once <=? 0 then -1 else once in
  let valid_entries := iniGetBoolValue ini "recycle_valid_entries" false in
  mret (Shmcache_config name min_mem max_mem segment keys (to_int max_value) type once valid_entries
    (Va_policy avg_ttl (to_int discard) max_fails sleep_us)
    (Lock_policy within_lock trylock_us deadlock_ms) hash).
Definition shmcache_load_config (config_filename : string) : Z + shmcache_config :=
  ini ← iniLoadFromFile config_filename;
  load_items ini.

(** shmcache_init_from_file_ex (735-755) *)
Definition shmcache_init_from_file_ex (attempts : nat) (my_pid : Z) (config_filename : string)
    (create check : bool) : cmd Z :=
  match shmcache_load_config config_filename with
  | inl result => mret result
  | inr config => shmcache_init attempts my_pid config create check
  end.

(** ** What a loaded configuration satisfies *)
Lemma bind_inr {A B} (m : Z + A) (k : A → Z + B) y :
  m ≫= k = inr y ↔ ∃ x, m = inr x ∧ k x = inr y.
Proof. destruct m; naive_solver. Qed.

Definition size_item (ini : IniContext) (name : string) (size : Z) : Prop :=
  ∃ value, iniGetStrValue ini name = Some value ∧ parse_bytes value 1 = (0, size) ∧ 0 < size.
Lemma parse_bytes_item ini name size :
  shmcache_parse_bytes ini name = inr size ↔ size_item ini name size.
Proof.
  unfold shmcache_parse_bytes, size_item. destruct (iniGetStrValue ini name) as [v|]; [|naive_solver].
  destruct (parse_bytes v 1) as [r z] eqn:Hp. destruct (Z.eqb_spec r 0) as [->|Hr]; cbn [negb].
  - destruct (Z.leb_spec z 0); split.
    + done.
    + intros (v'&[= <-]&Hp'&?). rewrite Hp in Hp'. simplify_eq. lia.
    + intros [= ->]. by exists v.
    + intros (v'&[= <-]&Hp'&?). rewrite Hp in Hp'. by simplify_eq.
  - split; [done|]. intros (v'&[= <-]&Hp'&?). rewrite Hp in Hp'. by simplify_eq.
Qed.
Lemma positive_inr x y : positive x = inr y ↔ y = x ∧ 0 < x.
Proof. unfold positive. destruct (Z.leb_spec x 0); split; naive_solver lia. Qed.
Lemma segment_size_inr ini m z :
  load_segment_size ini m = inr z ↔ ∃ size, size_item ini "segment_size" size ∧
    z = if 255 <? Z.quot m size then Z.quot m 255 else size.
Proof.
  unfold load_segment_size. rewrite bind_inr. setoid_rewrite parse_bytes_item.
  split; intros (size&?&H); exists size; (split; [done|]); destruct (255 <? _); congruence.
Qed.

(** the hash function the items name *)
Definition hash_item (ini : IniContext) (f : list ascii → Z) : Prop :=
  match iniGetStrValue ini "hash_function" with
  | None => f = fc_simple_hash
  | Some name =>
    (name = EmptyString ∧ f = fc_simple_hash) ∨
    (name ≠ EmptyString ∧ dlopen_self = true ∧
      (dlsym name = Some f ∨
       (dlsym name = None ∧
        dlsym (String.substring 0 (sizeof_new_funcname - 1) ("fc_" +:+ name)) = Some f)))
  end.
Lemma hash_func_inr ini f : load_hash_func ini = inr f ↔ hash_item ini f.
Proof.
  unfold load_hash_func, hash_item. destruct (iniGetStrValue ini _) as [name|]; [|naive_solver].
  case_bool_decide; [naive_solver|]. destruct dlopen_self; cbn [negb]; [|naive_solver].
  destruct (dlsym name); [naive_solver|]. destruct (dlsym _); naive_solver.
Qed.
Definition type_item (ini : IniContext) (t : Z) : Prop :=
  match iniGetStrValue ini "type" with
  | None => t = SHMCACHE_TYPE_MMAP
  | Some type => (strcaseeq type "shm" = true ∧ t = SHMCACHE_TYPE_SHM) ∨
      (strcaseeq type "shm" = false ∧ strcaseeq type "mmap" = true ∧ t = SHMCACHE_TYPE_MMAP)
  end.
Lemma type_inr ini t : load_type ini = inr t ↔ type_item ini t.
Proof.
  unfold load_type, type_item. destruct (iniGetStrValue ini "type") as [v|]; [|naive_solver].
  destruct (strcaseeq v "shm"), (strcaseeq v "mmap"); naive_solver.
Qed.
Lemma filename_inr ini n : load_filename ini = inr n ↔
  ∃ name, iniGetStrValue ini "filename" = Some name ∧ name ≠ EmptyString ∧
    n = String.substring 0 (MAX_PATH_SIZE - 1) name.
Proof.
  unfold load_filename. destruct (iniGetStrValue ini "filename") as [v|]; [|naive_solver].
  case_bool_decide; naive_solver.
Qed.

(** what the items say, item by item *)
Record items_say (ini : IniContext) (cfg : shmcache_config) : Prop := {
  say_type : type_item ini (cfg_type cfg);
  say_filename : ∃ name, iniGetStrValue ini "filename" = Some name ∧ name ≠ EmptyString ∧
    filename cfg = String.substring 0 (MAX_PATH_SIZE - 1) name;
  say_max_memory : size_item ini "max_memory" (max_memory cfg);
  say_min_memory : min_memory cfg = (shmcache_parse_bytes_with_default ini "min_memory" 0).1;
  say_segment : ∃ size, size_item ini "segment_size" size ∧
    segment_size cfg = if 255 <? Z.quot (max_memory cfg) size
                       then Z.quot (max_memory cfg) 255 else size;
  say_keys : max_key_count cfg = iniGetIntValue ini "max_key_count" 0 ∧ 0 < max_key_count cfg;
  say_value : ∃ size, size_item ini "max_value_size" size ∧ max_value_size cfg = to_int size;
  say_hash : hash_item ini (hash_func cfg);
  say_recycle : recycle_valid_entries cfg = iniGetBoolValue ini "recycle_valid_entries" false ∧
    recycle_key_once cfg = (let n := iniGetIntValue ini "recycle_key_once" 0 in
                            if n <=? 0 then -1 else n);
  say_policy : ∃ discard, size_item ini "value_policy.discard_memory_size" discard ∧
    va_policy cfg = Va_policy (iniGetIntValue ini "value_policy.avg_key_ttl" 0) (to_int discard)
      (iniGetIntValue ini "value_policy.max_fail_times" 5)
      (iniGetIntValue ini "value_policy.sleep_us_when_recycle_valid_entries" 0);
  say_lock : lock_policy cfg = Lock_policy
      (iniGetBoolValue ini "lock_policy.read_within_lock" false)
      (iniGetIntValue ini "lock_policy.trylock_interval_us" 200)
      (iniGetIntValue ini "lock_policy.detect_deadlock_interval_ms" 1000) ∧
    0 < trylock_interval_us (lock_policy cfg) ∧ 0 < detect_deadlock_interval_ms (lock_policy cfg);
}.
Lemma load_items_say ini cfg : load_items ini = inr cfg ↔ items_say ini cfg.
Proof.
  unfold load_items. destruct (shmcache_parse_bytes_with_default ini "min_memory" 0) as [min_mem e] eqn:Hmin.
  split.
  - intros (t&Ht%type_inr&H)%bind_inr. apply bind_inr in H as (n&Hn%filename_inr&H).
    apply bind_inr in H as (m&Hm%parse_bytes_item&H). apply bind_inr in H as (sg&Hsg%segment_size_inr&H).
    apply bind_inr in H as (k&[-> Hk]%positive_inr&H). apply bind_inr in H as (v&Hv%parse_bytes_item&H).
    apply bind_inr in H as (h&Hh%hash_func_inr&H). apply bind_inr in H as (d&Hd%parse_bytes_item&H).
    apply bind_inr in H as (tr&[-> Htr]%positive_inr&H). apply bind_inr in H as (dl&[-> Hdl]%positive_inr&H).
    injection H as <-. split; cbn; eauto. by rewrite Hmin.
  - destruct cfg. intros [Ht Hn Hm Hmn Hsg [Hk Hk0] (v&Hv&Hv1) Hh [Hr1 Hr2] (d&Hd&Hp) (Hl&Htr&Hdl)].
    cbn in *. rewrite Hmin in Hmn. cbn in Hmn. subst. cbn in *.
    apply bind_inr; eexists; split; [by apply type_inr|].
    apply bind_inr; eexists; split; [by apply filename_inr|].
    apply bind_inr; eexists; split; [by apply parse_bytes_item|].
    apply bind_inr; eexists; split; [by apply segment_size_inr|].
    apply bind_inr; eexists; split; [by apply positive_inr|].
    apply bind_inr; eexists; split; [by apply parse_bytes_item|].
    apply bind_inr; eexists; split; [by apply hash_func_inr|].
    apply bind_inr; eexists; split; [by apply parse_bytes_item|].
    apply bind_inr; eexists; split; [by apply positive_inr|].
    apply bind_inr; eexists; split; [by apply positive_inr|]. done.
Qed.
(** an item that cannot be used gives an error number *)
Lemma bind_nonzero {A B} (m : Z + A) (k : A → Z + B) e :
  m ≫= k = inl e → (∀ e', m = inl e' → e' ≠ 0) → (∀ x e', k x = inl e' → e' ≠ 0) → e ≠ 0.
Proof. destruct m; cbn; naive_solver. Qed.
Lemma load_items_error ini e : load_items ini = inl e → e ≠ 0.
Proof.
  assert (∀ name e, shmcache_parse_bytes ini name = inl e → e ≠ 0) as Hb.
  { intros name e'. unfold shmcache_parse_bytes. destruct (iniGetStrValue _ _); [|by intros [= <-]].
    destruct (parse_bytes _ _) as [r z]. destruct (Z.eqb_spec r 0); cbn [negb]; [|by intros [= <-]].
    destruct (z <=? 0); by intros [= <-]. }
  assert (∀ x e, positive x = inl e → e ≠ 0) as Hp.
  { intros x e'. unfold positive. destruct (x <=? 0); by intros [= <-]. }
  intros H. unfold load_items in H. destruct (shmcache_parse_bytes_with_default _ _ _).
  repeat (eapply bind_nonzero; [exact H|clear H|clear H e; intros ? e H]; [eauto|]);
    try done; intros e' He; clear H || idtac.
  - unfold load_type in He. repeat case_match; by simplify_eq.
  - unfold load_filename in He. repeat case_match; by simplify_eq.
  - eapply bind_nonzero; [exact He|by eauto|]. intros size e2 He2. cbn in He2. destruct (255 <? _); discriminate He2.
  - unfold load_hash_func in He. repeat case_match; by simplify_eq.
Qed.
End Config.

(** ** Properties *)
Section properties.
Context `{E : Env} `{I : IniEnv}.

Lemma substring_length n s : (String.length (String.substring 0 n s) ≤ n)%nat.
Proof.
  revert n. induction s as [|c s IH]; intros [|n]; cbn; try lia. specialize (IH n). lia.
Qed.

Lemma segments_bound max size :
  0 < max → 0 < size → page_ok → 256 ≤ getpagesize →
  let seg := if 255 <? Z.quot max size then Z.quot max 255 else size in
  0 < seg ∧ max / SHMCACE_MEM_ALIGN seg getpagesize ≤ 255.
Proof.
  intros Hm Hs Hp Hp8. cbv zeta. rewrite !Z.quot_div_nonneg by lia.
  assert (∀ seg, 0 < seg → getpagesize ≤ SHMCACE_MEM_ALIGN seg getpagesize ∧
                 seg ≤ SHMCACE_MEM_ALIGN seg getpagesize) as Hal.
  { intros seg Hseg. destruct (mem_align_bounds seg Hp ltac:(lia)) as ([H1 _]&Hd&_).
    split; [|done]. apply Z.divide_pos_le in Hd; lia. }
  destruct (Z.ltb_spec 255 (max / size)) as [Hq|Hq].
  - assert (256 ≤ max) by (pose proof (Z.div_le_upper_bound max size max); nia).
    assert (0 < max / 255) as Hpos by (apply Z.div_str_pos; lia). split; [done|].
    destruct (Hal _ Hpos) as [Ha1 Ha2]. pose proof (Z.div_mod max 255 ltac:(lia)).
    pose proof (Z.mod_pos_bound max 255 ltac:(lia)).
    set (a := SHMCACE_MEM_ALIGN _ _) in *. set (q := max / 255) in *.
    assert (max / a < 256); [|lia]. apply Z.div_lt_upper_bound; nia.
  - split; [done|]. destruct (Hal _ Hs) as [Ha1 Ha2]. etrans; [|exact Hq].
    apply Z.div_le_compat_l; lia.
Qed.

(** every configuration [shmcache_load_config] accepts is usable: the type
    is one of the two, the file name is not empty and fits its array, the
    sizes, the number of keys and the lock intervals are positive, and
    whatever part of [max_memory] is left for the values there are between 1
    and 255 value segments, so that the eight bits an entry offset keeps of a
    segment index are enough. *)
Theorem load_config_valid config_filename cfg s :
  shmcache_load_config config_filename = inr cfg →
  page_ok → 256 ≤ getpagesize → (2 ≤ MAX_PATH_SIZE)%nat →
  (cfg_type cfg = SHMCACHE_TYPE_SHM ∨ cfg_type cfg = SHMCACHE_TYPE_MMAP) ∧
  (0 < String.length (filename cfg) < MAX_PATH_SIZE)%nat ∧
  0 < max_memory cfg ∧ 0 < segment_size cfg ∧ 0 < max_key_count cfg ∧
  0 < trylock_interval_us (lock_policy cfg) ∧ 0 < detect_deadlock_interval_ms (lock_policy cfg) ∧
  (recycle_key_once cfg = -1 ∨ 0 < recycle_key_once cfg) ∧
  ∀ v, 0 ≤ v ≤ max_memory cfg →
    wp (get_value_segment_count_size cfg v) (λ r s', s' = s ∧ 1 ≤ count_max r ≤ 255 ∧
      ∀ i, 0 ≤ i < count_max r → Z.land i 0xFF = i) s.
Proof.
  intros Hload Hp Hp8 Hpath. apply bind_inr in Hload as (ini&_&Hsay%load_items_say).
  destruct Hsay as [Ht (name&_&Hne&Hn) (_&_&_&Hm) _ (size&(_&_&_&Hsz)&Hseg) [_ Hk] _ _ [_ Hr] _ (_&Htr&Hdl)].
  destruct (segments_bound (max_memory cfg) size Hm Hsz Hp Hp8) as [Hs Hb]. cbv zeta in Hs, Hb.
  rewrite <-Hseg in Hs, Hb. split_and!; try done.
  - unfold type_item in Ht. destruct (iniGetStrValue _ _); naive_solver.
  - rewrite Hn. destruct name as [|c name]; [done|]. destruct MAX_PATH_SIZE as [|[|n]]; [lia..|].
    cbn. lia.
  - rewrite Hn. pose proof (substring_length (MAX_PATH_SIZE - 1) name). lia.
  - rewrite Hr. cbv zeta. destruct (Z.leb_spec (iniGetIntValue ini "recycle_key_once" 0) 0); auto.
  - intros v Hv. unfold get_value_segment_count_size, c_div.
    destruct (mem_align_bounds (segment_size cfg) Hp ltac:(lia)) as ([Ha _]&_).
    set (a := SHMCACE_MEM_ALIGN _ _) in *.
    rewrite (proj2 (Z.eqb_neq a 0)) by lia. wp_simpl. split; [done|]. rewrite Z.quot_div_nonneg by lia.
    assert (0 ≤ v / a ≤ 255).
    { split; [apply Z.div_pos; lia|]. etrans; [|exact Hb]. apply Z.div_le_mono; lia. }
    unfold to_int. rewrite wrap_signed_small by lia. cbn [count_max].
    assert (1 ≤ (if v / a =? 0 then 1 else v / a) ≤ 255) as Hcm by bool_lia. split; [exact Hcm|].
    intros i Hi. change 0xFF with (Z.ones 8). rewrite Z.land_ones, Z.mod_small; lia.
Qed.
(** an item [min_memory] that does not parse is not an error: its error
    number is overwritten by that of the next item, and 0 is used. *)
Theorem min_memory_error_ignored config_filename ini cfg value :
  iniLoadFromFile config_filename = inr ini → iniGetStrValue ini "min_memory" = Some value →
  (parse_bytes value 1).1 ≠ 0 → shmcache_load_config config_filename = inr cfg →
  min_memory cfg = 0.
Proof.
  intros Hini Hv Hp Hload. unfold shmcache_load_config in Hload. rewrite Hini in Hload.
  apply load_items_say in Hload. rewrite (say_min_memory _ _ Hload).
  unfold shmcache_parse_bytes_with_default. rewrite Hv. destruct (parse_bytes value 1) as [r z].
  cbn in Hp. by rewrite (proj2 (Z.eqb_neq r 0) Hp).
Qed.

(** within these limits a loaded configuration is one [shmcache_init] can use *)
Lemma loaded_config_ok config_filename cfg :
  shmcache_load_config config_filename = inr cfg → page_ok →
  segment_size cfg ≤ 2 ^ 30 → 0 < max_value_size cfg ≤ 2 ^ 29 → 2 ^ 16 ≤ max_memory cfg ≤ 2 ^ 35 →
  config_ok cfg ∧ 0 ≤ max_key_count cfg.
Proof.
  intros Hload Hp Hsg Hv Hm. apply bind_inr in Hload as (ini&_&Hsay%load_items_say).
  destruct Hsay as [_ _ (_&_&_&Hm0) _ (size&(_&_&_&Hsz)&Hseg) [_ Hk] _ _ _ _ _].
  rewrite !Z.quot_div_nonneg in Hseg by lia.
  assert (0 < segment_size cfg ∧ max_memory cfg ≤ 256 * segment_size cfg) as [? ?].
  { rewrite Hseg. pose proof (Z.div_mod (max_memory cfg) 255 ltac:(lia)).
    pose proof (Z.mod_pos_bound (max_memory cfg) 255 ltac:(lia)).
    destruct (Z.ltb_spec 255 (max_memory cfg / size)) as [Hq|Hq]; [lia|]. split; [done|].
    pose proof (Z.div_mod (max_memory cfg) size ltac:(lia)).
    pose proof (Z.mod_pos_bound (max_memory cfg) size ltac:(lia)). nia. }
  split; [split; [done|lia..]|lia].
Qed.

(** C34: from the file to the cache, on new shared memory.  The error of a file
    that cannot be read is returned; when no configuration is what the items of
    the file say - a required item is missing, a size or an interval is not
    positive, the type or the hash function is unknown - an error number is
    returned, and either way nothing is mapped.  With the configuration the
    items say, segments of at most 1 GB, values of at most 512 MB, a memory of
    64 KB to 32 GB with room for the hash table, an mmap that does not fail,
    system error numbers that are not negative, and a mutex that gets free, the
    call returns, and when it returns 0 the cache is well-formed, empty and has
    that configuration. *)
Theorem init_from_file_correct attempts my_pid config_filename check :
  match iniLoadFromFile config_filename with
  | inl e => ∀ s, shmcache_init_from_file_ex attempts my_pid config_filename true check s = Some (e, s)
  | inr ini =>
    ((∀ cfg, ¬ items_say ini cfg) → ∃ e, e ≠ 0 ∧
       ∀ s, shmcache_init_from_file_ex attempts my_pid config_filename true check s = Some (e, s)) ∧
    ∀ cfg, items_say ini cfg →
      page_ok → segment_size cfg ≤ 2 ^ 30 → 0 < max_value_size cfg ≤ 2 ^ 29 →
      2 ^ 16 ≤ max_memory cfg ≤ 2 ^ 35 → 0 ≤ (layout_of cfg).2 ≤ max_memory cfg →
      0 < ht_capacity_of cfg < 2 ^ 31 → mapping_ok (cfg_type cfg) → init_errors →
      (∃ n0, released_by n0 ∧ (n0 < attempts)%nat) →
      wp (shmcache_init_from_file_ex attempts my_pid config_filename true check)
        (λ r s', r = 0 → image cfg s' [] ∧ pid s' = my_pid) (new_image cfg)
  end.
Proof.
  destruct (iniLoadFromFile config_filename) as [e|ini] eqn:Hini;
    unfold shmcache_init_from_file_ex, shmcache_load_config; rewrite Hini; [done|]. split.
  - intros Hno. cbn. destruct (load_items ini) as [e|cfg] eqn:Hl.
    + exists e. split; [by eapply load_items_error|done].
    + by destruct (Hno cfg); apply load_items_say.
  - intros cfg Hsay%load_items_say Hp Hsg Hv Hm Hroom Hcap Hmap Herr Hrel. cbn. rewrite Hsay.
    assert (shmcache_load_config config_filename = inr cfg) as Hload
      by (unfold shmcache_load_config; by rewrite Hini).
    destruct (loaded_config_ok config_filename cfg Hload Hp Hsg Hv Hm) as [Hc Hk].
    apply init_spec. by split.
Qed.
End properties.
