(* ===== verification/Tools.v ===== *)
(** * The command-line tools (src/tools/)

    The dump tool's separators, key patterns and output
    (shmcache_dump.c), and what the other tools do with their arguments
    (shmcache_get.c, shmcache_set.c, shmcache_delete.c,
    shmcache_remove_all.c).  Messages to the user are left out. *)
From S2P Require Import Prelude Types CLib OpWrapper Shmopt HentryOffset Invariant HashTable Recycle Lock CacheTable ShmCache Init Config.
Local Open Scope Z_scope.
Local Open Scope shm_scope.

(** ** unescape_string (shmcache_dump.c, 42-109): C strings, without their NUL *)
Definition chr (n : Z) : ascii := ascii_of_nat (Z.to_nat (n mod 256)).
Definition backslash : ascii := chr 92.
(** atoi of digits that fit an int *)
Definition atoi_digits (l : list ascii) : Z := (parse_digits 0 l).1.

(** the loop 80-86: at most [n] digits, and the rest *)
Fixpoint take_digits (n : nat) (p : list ascii) : list ascii * list ascii :=
  match n, p with
  | S n, c :: p' =>
    if is_digit c then let '(ds, rest) := take_digits n p' in (c :: ds, rest) else ([], p)
  | _, _ => ([], p)
  end.
(** the character an escape with one letter stands for (64-77) *)
Definition letter_escape (e : ascii) : option ascii :=
  if code e =? 114 then Some (chr 13)
  else if code e =? 110 then Some (chr 10)
  else if code e =? 116 then Some (chr 9)
  else if code e =? 102 then Some (chr 12)
  else if code e =? 92 then Some backslash
  else None.

(** the loop 61-103; it advances, so the length of the string is enough fuel *)
Fixpoint unescape_loop (fuel : nat) (p : list ascii) : option (list ascii) :=
  match p with
  | [] => Some []
  | c :: p1 =>
    match fuel with
    | O => None
    | S fuel =>
      match p1 with
      | e :: p2 =>
        if code c =? 92 then
          match letter_escape e with
          | Some x => cons x <$> unescape_loop fuel p2
          | None =>
            if is_digit e then
              let '(ds, rest) := take_digits 2 p2 in
              cons (chr (atoi_digits (e :: ds))) <$> unescape_loop fuel rest
            else (λ l, c :: e :: l) <$> unescape_loop fuel p2
          end
        else cons c <$> unescape_loop fuel p1
      | [] => cons c <$> unescape_loop fuel p1
      end
    end
  end.
(** NULL when [malloc] fails *)
Definition unescape_string (allocated : bool) (s : list ascii) : option (list ascii) :=
  if allocated then unescape_loop (length s) s else None.

(** ** parse_search_key (shmcache_dump.c, 152-180) *)
Definition percent : ascii := chr 37.
Definition parse_search_key (search_key : option (list ascii)) : option shmcache_match_key_info :=
  match search_key with
  | None | Some [] => None
  | Some (c :: k) =>
    let '(op, key) := if code c =? 37 then (SHMCACHE_MATCH_KEY_OP_RIGHT, k)
                      else (SHMCACHE_MATCH_KEY_OP_EXACT, c :: k) in
    if bool_decide (key = []) then None
    else if code (List.last key NUL) =? 37 then
      let key := removelast key in
      if bool_decide (key = []) then None
      else Some (Match_key_info key (Z.of_nat (length key)) (Z.lor op SHMCACHE_MATCH_KEY_OP_LEFT))
    else Some (Match_key_info key (Z.of_nat (length key)) op)
  end.

(** ** parse_args (shmcache_dump.c, 111-150) *)
Record dump_options := Dump_options {
  config_filename : list ascii;
  key_value_seperator : option (list ascii);
  row_seperator : option (list ascii);
  start_offset : Z;
  row_count : Z;
  search_key : option (list ascii);
  show_usage : bool;
  output_filename : option (list ascii);
}.
#[export] Instance eta_dump_options : Settable dump_options := λ o, Dump_options
  (config_filename o) (key_value_seperator o) (row_seperator o) (start_offset o) (row_count o)
  (search_key o) (show_usage o) (output_filename o).
Definition str (x : string) : list ascii := String.list_ascii_of_string x.
Definition default_config_filename : list ascii := str "/etc/libshmcache.conf".
Definition dump_defaults : dump_options :=
  Dump_options default_config_filename (Some (str "=")) (Some [chr 10]) 0 0 None false None.
(** what [getopt] yields, one option after the other; [allocated] tells whether
    the [malloc] for a separator succeeds *)
Inductive dump_arg :=
| Opt_c (arg : list ascii) | Opt_F (arg : list ascii) | Opt_R (arg : list ascii)
| Opt_k (arg : list ascii) | Opt_s (arg : list ascii) | Opt_n (arg : list ascii)
| Opt_o (arg : list ascii) | Opt_h.
Definition atoi (s : list ascii) : Z := to_int (strtoll s).1.
Fixpoint parse_opts (allocated : nat → bool) (args : list dump_arg) (o : dump_options) : dump_options :=
  match args with
  | [] => o
  | Opt_c arg :: args => parse_opts allocated args (o <| config_filename := arg |>)
  | Opt_F arg :: args => parse_opts allocated args (o <| key_value_seperator := unescape_string (allocated (length args)) arg |>)
  | Opt_R arg :: args => parse_opts allocated args (o <| row_seperator := unescape_string (allocated (length args)) arg |>)
  | Opt_k arg :: args => parse_opts allocated args (o <| search_key := Some arg |>)
  | Opt_s arg :: args => parse_opts allocated args (o <| start_offset := atoi arg |>)
  | Opt_n arg :: args => parse_opts allocated args (o <| row_count := atoi arg |>)
  | Opt_o arg :: args => parse_opts allocated args (o <| output_filename := Some arg |>)
  | Opt_h :: _ => o <| show_usage := true |>
  end.
(** [rest]: are there arguments left that are no options *)
Definition parse_args (allocated : nat → bool) (args : list dump_arg) (rest : bool) : dump_options :=
  let o := parse_opts allocated args dump_defaults in
  if rest then o <| show_usage := true |> else o.

Section dump.
Context `{E : Env}.

(** "%.*s", and "%s" of a separator *)
Definition print_prec (length : Z) (data : list ascii) : list ascii :=
  c_string (take (Z.to_nat length) data).
(** "%d" *)
Definition print_int : Z → list ascii := sprintf_int64.
(** the line of a record (shmcache_dump.c, 196-212) *)
Definition dump_line (kv row : list ascii) (entry : shmcache_hash_entry) : list ascii :=
  let k := entry_key entry in let v := entry_value entry in
  if negb (Z.land (v_options v) SHMCACHE_SERIALIZER_STRING =? 0) then
    print_prec (key_length k) (key_data k) ++ c_string kv ++
    print_prec (v_length v) (v_data v) ++ c_string row
  else
    print_prec (key_length k) (key_data k) ++ c_string kv ++
    str "<" ++ str (shmcache_get_serializer_label (v_options v)) ++
    str " serializer, data length: " ++ print_int (v_length v) ++ str ">" ++ c_string row.
(** do_dump (182-217): the result and what is written; a separator that could
    not be allocated is NULL, for which "%s" has no meaning *)
Definition do_dump (o : dump_options) : cmd (Z * list ascii) :=
  '(result, rows) ← shm_ht_to_array_ex (parse_search_key (search_key o)) (start_offset o) (row_count o);
  if negb (result =? 0) then mret (result, [])
  else
    match rows with
    | [] => mret (0, [])
    | _ =>
      kv ← of_option (key_value_seperator o);
      row ← of_option (row_seperator o);
      mret (0, concat (dump_line kv row <$> rows))
    end.
End dump.

(** ** The main functions: their exit status, and what is written on success;
    [argv] without the name of the program *)
Section tools.
Context `{E : Env} `{I : IniEnv} (attempts : nat) (my_pid : Z).
(** isFile of libfastcommon, and the opening of the output file *)
Context (isFile : string → bool) (fopen_ok : list ascii → bool).

(** shmcache_dump.c, 219-263 *)
Definition main_dump (allocated : nat → bool) (args : list dump_arg) (rest : bool) :
    cmd (Z * list ascii) :=
  let o := parse_args allocated args rest in
  if show_usage o then mret (0, [])
  else
    if negb (match output_filename o with Some f => fopen_ok f | None => true end) then
      e ← errno_or EPERM; mret (e, [])
    else
      result ← shmcache_init_from_file_ex attempts my_pid
        (String.string_of_list_ascii (config_filename o)) false true;
      if negb (result =? 0) then mret (result, [])
      else
        s ← get;
        if read_within_lock (lock_policy (config s)) then
          result ← shm_lock attempts;
          if negb (result =? 0) then mret (result, [])
          else
            r ← do_dump o;
            shm_unlock;;
            shmcache_destroy;;
            mret r
        else
          r ← do_dump o;
          shmcache_destroy;;
          mret r.

Definition is_help (argv : list string) : bool :=
  match argv with
  | a :: _ => bool_decide (a = "-h") || bool_decide (a = "help") || bool_decide (a = "--help")
  | [] => false
  end.
(** the arguments of the tools that take [n] of them, the first of which may
    be preceded by the name of a configuration file (shmcache_get.c, 27-51):
    the exit status, or the configuration file and the arguments *)
Definition tool_args (n : nat) (argv : list string) : Z + string * list string :=
  if is_help argv then inl 0
  else if (length argv <? n)%nat then inl EINVAL
  else
    match argv with
    | a :: rest =>
      if isFile a then if (length argv <? S n)%nat then inl EINVAL else inr (a, rest)
      else inr ("/etc/libshmcache.conf", argv)
    | [] => inl EINVAL
    end.
Definition key_arg (k : string) : shmcache_key_info :=
  Key_info (str k) (Z.of_nat (String.length k)).

(** shmcache_get.c, 16-71 *)
Definition main_get (argv : list string) : cmd (Z * list ascii) :=
  match tool_args 1 argv with
  | inr (config_filename, k :: _) =>
    result ← shmcache_init_from_file_ex attempts my_pid config_filename false true;
    if negb (result =? 0) then mret (result, [])
    else
      '(result, value) ← shmcache_get attempts (key_arg k);
      if result =? 0 then
        v ← of_option value;
        let head := str "value options: " ++ print_int (vr_options v) ++ str " (" ++
          str (shmcache_get_serializer_label (vr_options v)) ++ str " serializer), value length: " ++
          print_int (vr_length v) in
        if negb (Z.land (vr_options v) SHMCACHE_SERIALIZER_STRING =? 0) then
          p ← non_null (vr_data v);
          data ← memcpy_from p (vr_length v);
          mret (0, head ++ str ", value:" ++ [chr 10] ++ print_prec (vr_length v) data ++ [chr 10])
        else mret (0, head ++ [chr 10])
      else mret (result, [])
  | inr (_, []) => fault
  | inl status => mret (status, [])
  end.

(** shmcache_set.c, 15-67 *)
Definition main_set (argv : list string) : cmd Z :=
  match tool_args 3 argv with
  | inr (config_filename, k :: v :: ttl :: _) =>
    result ← shmcache_init_from_file_ex attempts my_pid config_filename true true;
    if negb (result =? 0) then mret result
    else shmcache_set attempts (key_arg k) (str v) (Z.of_nat (String.length v)) (atoi (str ttl))
  | inr _ => fault
  | inl status => mret status
  end.

(** shmcache_delete.c, 15-64 *)
Definition main_delete (argv : list string) : cmd Z :=
  match tool_args 1 argv with
  | inr (config_filename, k :: _) =>
    result ← shmcache_init_from_file_ex attempts my_pid config_filename false true;
    if negb (result =? 0) then mret result else shmcache_delete attempts (key_arg k)
  | inr _ => fault
  | inl status => mret status
  end.

(** shmcache_remove_all.c, 15-78; [confirm] is the character read, if any *)
Definition ECANCELED : Z := 125.
Definition IS_YES (a : string) : bool := bool_decide (a = "--yes") || bool_decide (a = "-y").
Definition remove_all_args (argv : list string) : Z + string * bool :=
  if is_help argv then inl 0
  else
    match argv with
    | [] => inr ("/etc/libshmcache.conf", true)
    | [a] => if IS_YES a then inr ("/etc/libshmcache.conf", false) else inr (a, true)
    | [a; b] =>
      if IS_YES a then inr (b, false) else if IS_YES b then inr (a, false) else inl EINVAL
    | _ => inl EINVAL
    end.
Definition main_remove_all (argv : list string) (confirm : option ascii) : cmd Z :=
  match remove_all_args argv with
  | inl status => mret status
  | inr (config_filename, ask) =>
    if ask && negb (bool_decide (confirm = Some (chr 121))) then mret ECANCELED
    else
      result ← shmcache_init_from_file_ex attempts my_pid config_filename false false;
      if negb (result =? 0) then mret result else shmcache_remove_all
  end.
End tools.

(** ** Escapes *)
Lemma take_digits_length n p : (length (take_digits n p).1 + length (take_digits n p).2 = length p)%nat.
Proof.
  revert p. induction n as [|n IH]; intros [|c p]; try done. cbn [take_digits].
  destruct (is_digit c); [|done]. specialize (IH p). destruct (take_digits n p). cbn in *. lia.
Qed.

(** the loop returns for any fuel that covers the string, always the same, and
    never more than it read *)
Lemma unescape_loop_total f f' p : (length p ≤ f)%nat → (length p ≤ f')%nat →
  ∃ out, unescape_loop f p = Some out ∧ unescape_loop f' p = Some out ∧ (length out ≤ length p)%nat.
Proof.
  revert f' p. induction f as [|f IH]; intros [|f'] [|c p]; intros Hf Hf'; cbn [length] in *; try lia;
    try (by exists []).
  assert (∀ q (g : list ascii → list ascii) k, (length q + k ≤ S (length p))%nat → (1 ≤ k)%nat →
    (∀ l, length (g l) ≤ length l + k)%nat → ∃ out, g <$> unescape_loop f q = Some out ∧
    g <$> unescape_loop f' q = Some out ∧ (length out ≤ S (length p))%nat) as Hstep.
  { intros q g k Hq Hk Hg. destruct (IH f' q) as (out&H1&H2&Hl); [lia|lia|]. exists (g out).
    rewrite H1, H2. split_and!; [done|done|]. specialize (Hg out). lia. }
  cbn [unescape_loop]. destruct p as [|e p2].
  - apply (Hstep [] (cons c) 1%nat); cbn; lia.
  - cbn [length] in *. destruct (code c =? 92).
    2: { apply (Hstep (e :: p2) (cons c) 1%nat); intros; cbn; lia. }
    destruct (letter_escape e) as [x|].
    { apply (Hstep p2 (cons x) 1%nat); intros; cbn; lia. }
    destruct (is_digit e).
    2: { apply (Hstep p2 (λ l, c :: e :: l) 2%nat); intros; cbn; lia. }
    pose proof (take_digits_length 2 p2) as Hl. destruct (take_digits 2 p2) as [ds rest].
    cbn [fst snd] in Hl. apply (Hstep rest (cons _) 1%nat); intros; cbn; lia.
Qed.
Lemma unescape_loop_string f p : (length p ≤ f)%nat → unescape_loop f p = unescape_string true p.
Proof.
  intros H. destruct (unescape_loop_total f (length p) p H ltac:(lia)) as (out&->&H2&_). done.
Qed.

(** one turn of the loop *)
Lemma unescape_turn c e p : unescape_string true (c :: e :: p) =
  if code c =? 92 then
    match letter_escape e with
    | Some x => cons x <$> unescape_string true p
    | None =>
      if is_digit e then
        let '(ds, rest) := take_digits 2 p in
        cons (chr (atoi_digits (e :: ds))) <$> unescape_string true rest
      else (λ l, c :: e :: l) <$> unescape_string true p
    end
  else cons c <$> unescape_string true (e :: p).
Proof.
  pose proof (take_digits_length 2 p) as Hl.
  unfold unescape_string at 1. cbn [length].
  transitivity (if code c =? 92 then
    match letter_escape e with
    | Some x => cons x <$> unescape_loop (S (length p)) p
    | None =>
      if is_digit e then
        let '(ds, rest) := take_digits 2 p in
        cons (chr (atoi_digits (e :: ds))) <$> unescape_loop (S (length p)) rest
      else (λ l, c :: e :: l) <$> unescape_loop (S (length p)) p
    end
  else cons c <$> unescape_loop (S (length p)) (e :: p)); [done|].
  destruct (take_digits 2 p) as [ds rest]. cbn [fst snd] in Hl.
  rewrite !unescape_loop_string by (cbn; lia). done.
Qed.

(** a character as an escape: with a letter where there is one, or with its
    code in three digits *)
Definition escape_letter (c : ascii) : list ascii :=
  if code c =? 13 then str "\r" else if code c =? 10 then str "\n"
  else if code c =? 9 then str "\t" else if code c =? 12 then str "\f"
  else if code c =? 92 then str "\\" else [c].
Definition escape_number (c : ascii) : list ascii :=
  [backslash; digit (code c / 100); digit (code c / 10 mod 10); digit (code c mod 10)].

Lemma unescape_letter c p :
  unescape_string true (escape_letter c ++ p) = cons c <$> unescape_string true p.
Proof.
  unfold escape_letter.
  assert (∀ e x, letter_escape e = Some x →
    unescape_string true (backslash :: e :: p) = cons x <$> unescape_string true p) as Hl.
  { intros e x He. rewrite unescape_turn. change (code backslash =? 92) with true. by rewrite He. }
  assert (∀ n, 0 ≤ n → code c = n → c = ascii_of_nat (Z.to_nat n)) as Hc.
  { intros n Hn Hcn. unfold code in Hcn. rewrite <-Hcn, Nat2Z.id. by rewrite ascii_nat_embedding. }
  destruct (Z.eqb_spec (code c) 13) as [H|_]; [rewrite (Hc 13 ltac:(lia) H); by apply Hl|].
  destruct (Z.eqb_spec (code c) 10) as [H|_]; [rewrite (Hc 10 ltac:(lia) H); by apply Hl|].
  destruct (Z.eqb_spec (code c) 9) as [H|_]; [rewrite (Hc 9 ltac:(lia) H); by apply Hl|].
  destruct (Z.eqb_spec (code c) 12) as [H|_]; [rewrite (Hc 12 ltac:(lia) H); by apply Hl|].
  destruct (Z.eqb_spec (code c) 92) as [H|H]; [rewrite (Hc 92 ltac:(lia) H); by apply Hl|].
  cbn [app]. destruct p as [|e p]; [done|]. by rewrite unescape_turn, (proj2 (Z.eqb_neq _ _) H).
Qed.
Lemma digits_back c : ∃ d2 d1 d0, escape_number c = [backslash; d2; d1; d0] ∧
  letter_escape d2 = None ∧ is_digit d2 = true ∧ is_digit d1 = true ∧ is_digit d0 = true ∧
  chr (atoi_digits [d2; d1; d0]) = c.
Proof.
  unfold escape_number. do 3 eexists. split; [done|].
  by destruct c as [[] [] [] [] [] [] [] []]; vm_compute.
Qed.
Lemma unescape_number c p :
  unescape_string true (escape_number c ++ p) = cons c <$> unescape_string true p.
Proof.
  destruct (digits_back c) as (d2&d1&d0&->&Hl&H2&H1&H0&Hc).
  cbn [app]. rewrite unescape_turn. change (code backslash =? 92) with true.
  rewrite Hl, H2. cbn [take_digits]. by rewrite H1, H0, Hc.
Qed.

(** ** Key patterns *)
(** the pattern of the option -k selects a key *)
Definition pattern_selects (search_key : option (list ascii)) (entry_key : list ascii) : bool :=
  match parse_search_key search_key with
  | None => true
  | Some key_info => shm_ht_match_key key_info entry_key
  end.
Definition no_wildcard (k : list ascii) : Prop :=
  k ≠ [] ∧ code (List.hd NUL k) ≠ 37 ∧ code (List.last k NUL) ≠ 37.

Lemma last_percent k : List.last (k ++ [percent]) NUL = percent.
Proof. apply List.last_last. Qed.
(** what [parse_search_key] makes of a pattern *)
Lemma parse_pattern k : no_wildcard k →
  parse_search_key (Some k) = Some (Match_key_info k (Z.of_nat (length k)) 0) ∧
  parse_search_key (Some (k ++ [percent])) = Some (Match_key_info k (Z.of_nat (length k)) 1) ∧
  parse_search_key (Some (percent :: k)) = Some (Match_key_info k (Z.of_nat (length k)) 2) ∧
  parse_search_key (Some (percent :: k ++ [percent])) = Some (Match_key_info k (Z.of_nat (length k)) 3).
Proof.
  intros (Hne&Hh&Hl). destruct k as [|c k]; [done|]. cbn [List.hd] in Hh.
  assert (removelast ((c :: k) ++ [percent]) = c :: k) as Hr by (by rewrite List.removelast_last).
  assert ((c :: k) ++ [percent] ≠ []) as Hn by by destruct k.
  unfold parse_search_key. change (code percent =? 37) with true. cbn [app].
  change (c :: k ++ [percent]) with ((c :: k) ++ [percent]).
  rewrite (proj2 (Z.eqb_neq _ _) Hh), (proj2 (Z.eqb_neq _ _) Hl), last_percent, Hr.
  rewrite !bool_decide_eq_false_2 by done. done.
Qed.

(** ** Properties *)
Section properties.
Context `{E : Env} `{L : !EnvLaws E}.

(** [unescape_string] terminates on every string and writes no more
    characters than it read, so the buffer of [strlen(s) + 1] bytes suffices. *)
Theorem unescape_bounded s :
  ∃ out, unescape_string true s = Some out ∧ (length out ≤ length s)%nat.
Proof. destruct (unescape_loop_total _ _ s (le_n _) (le_n _)) as (out&H&_&Hl). by exists out. Qed.

(** a string written with escapes - by letter, or by the three digits of
    the code - unescapes to the string, whatever the mixture. *)
Theorem unescape_roundtrip (ways : list (ascii * bool)) :
  unescape_string true
    (concat ((λ '(c, number), if number : bool then escape_number c else escape_letter c) <$> ways))
  = Some (fst <$> ways).
Proof.
  induction ways as [|[c number] ways IH]; [done|]. cbn [fmap list_fmap concat].
  destruct number; [rewrite unescape_number|rewrite unescape_letter]; by rewrite IH.
Qed.

(** C38: the patterns of the dump tool are those of SQL's LIKE with % at the
    ends: K selects the key K, K% the keys that begin with K, %K those that end
    with K, %K% those that contain K, and an empty pattern, % and %% every key. *)
Theorem search_pattern_correct k entry_key :
  no_wildcard k →
  (pattern_selects (Some k) entry_key = true ↔ entry_key = k) ∧
  (pattern_selects (Some (k ++ [percent])) entry_key = true ↔ ∃ l, entry_key = k ++ l) ∧
  (pattern_selects (Some (percent :: k)) entry_key = true ↔ ∃ l, entry_key = l ++ k) ∧
  (pattern_selects (Some (percent :: k ++ [percent])) entry_key = true ↔
     ∃ l1 l2, entry_key = l1 ++ k ++ l2) ∧
  ∀ pat, pat ∈ [None; Some []; Some [percent]; Some [percent; percent]] →
    pattern_selects pat entry_key = true.
Proof.
  intros Hk. destruct (parse_pattern k Hk) as (H0&H1&H2&H3). unfold pattern_selects.
  rewrite H0, H1, H2, H3.
  assert (∀ op, let ki := Match_key_info k (Z.of_nat (length k)) op in
    match_length ki = Z.of_nat (length (match_key ki))) as Hl by done.
  destruct (match_key_spec _ entry_key (Hl 0)) as (M0&_).
  destruct (match_key_spec _ entry_key (Hl 1)) as (_&M1&_).
  destruct (match_key_spec _ entry_key (Hl 2)) as (_&_&M2&_).
  destruct (match_key_spec _ entry_key (Hl 3)) as (_&_&_&M3&_).
  split_and!.
  - rewrite (M0 eq_refl). cbn. done.
  - exact (M1 eq_refl).
  - exact (M2 eq_refl).
  - exact (M3 eq_refl).
  - intros pat Hp. repeat (apply elem_of_cons in Hp as [->|Hp]; [done|]). by apply elem_of_nil in Hp.
Qed.

(** the dump writes exactly the lines of the records that are valid and
    match the pattern, oldest first, from the start offset on and at most as
    many as asked for; it changes nothing, and fails only for want of memory,
    writing nothing. *)
Theorem dump_correct s es o kv row :
  inv s es → 0 ≤ start_offset o →
  key_value_seperator o = Some kv → row_seperator o = Some row →
  wp (do_dump o) (λ r s', ticked s s' ∧ (malloc_succeeds → r.1 = 0) ∧
    (r.1 = 0 → r.2 = concat (dump_line kv row <$>
       listing s es (parse_search_key (search_key o)) (start_offset o) (row_count o)
         (to_int (time_NULL (S (ticks s)))))) ∧
    (r.1 ≠ 0 → r = (ENOMEM, []))) s.
Proof.
  intros Hinv Hs Hkv Hrow. unfold do_dump. wp_simpl.
  eapply wp_mono; [by apply to_array_ex_spec|]. intros [r rows] s1 (Ht&Hok&Hl&Hne). cbn [fst snd] in *.
  destruct (Z.eqb_spec r 0) as [->|Hr]; cbn [negb]; wp_simpl.
  - rewrite <-(Hl eq_refl). destruct rows as [|x rows]; wp_simpl; [done|].
    rewrite Hkv, Hrow. apply wp_of_option. exists kv. split; [done|]. wp_simpl.
    apply wp_of_option. exists row. split; [done|]. by wp_simpl.
  - split_and!; [done|done|done|]. intros _. specialize (Hne Hr). by simplify_eq.
Qed.
End properties.
