(* ===== verification/Monitor.v ===== *)
(** * Watching a cache

    The statistics tool (src/tools/shmcache_stats.c) and the module for the
    monitor tsar (src/tsar-shmcache-module/mod_shmcache.c).  Times are kept as
    numbers and quotients of floating point as pairs. *)
From S2P Require Import Prelude Types CLib OpWrapper HentryOffset Invariant HashTable Recycle CacheTable ShmCache Statistics Sizing Init Config Tools.
Local Open Scope Z_scope.
Local Open Scope shm_scope.

(** ** The statistics tool *)
(** the first argument or the default, and whether to clear (shmcache_stats.c,
    27-54); [argv] is without the name of the program *)
Definition IS_CLEAR (a : string) : bool := bool_decide (a = "clean") || bool_decide (a = "clear").
Definition stats_args (argv : list string) : option (string * bool) :=
  if is_help argv then None
  else
    let clear_stats := match last argv with Some a => IS_CLEAR a | None => false end in
    let config_filename :=
      match argv with
      | [] => "/etc/libshmcache.conf"
      | [a] => if clear_stats then "/etc/libshmcache.conf" else a
      | a :: _ => a
      end in
    Some (config_filename, clear_stats).

(** what is printed: times (112-148), hash table (150-179), memory (181-192),
    recycling (194-210), lock (212-220) *)
Record stats_report := Report {
  rep_times : list (string * Z);
  rep_counts : list (string * Z);
  rep_segment_size : Z;
  rep_qps : Z * Z;
  rep_hit : Z * option (Z * Z);
  rep_total_hit : Z * option (Z * Z);
  rep_rw : option (Z * Z);
  rep_memory : list (string * Z);
  rep_avg_key_len : Z;
  rep_avg_value_len : Z;
  rep_recycle : list (string * Z);
  rep_lock : list (string * Z);
}.

(** a time that is shown once it is set *)
Definition time_line (label : string) (t : Z) : list (string * Z) := if 0 <? t then [(label, t)] else [].
Definition time_lines (m : shm_memory_info) : list (string * Z) :=
  let st := stats m in
  [("shm init time", init_time m)] ++ time_line "last clear time" (last_clear_time st) ++
  [("stats begin time", stats_init_time st)] ++
  time_line "last recycle by key time" (last_recycle_time (recycle_key_stats st)) ++
  time_line "last recycle by value time" (last_recycle_time (recycle_striping_stats st)) ++
  time_line "last detect deadlock time" (last_detect_deadlock_time (stats_lock st)) ++
  time_line "last unlock deadlock time" (last_unlock_deadlock_time (stats_lock st)).
Definition count_lines (st : shmcache_stats) : list (string * Z) :=
  let shm := stats_shm st in
  [("max_key_count", stats_max_key_count st); ("current_key_count", stats_count st);
   ("set.total_count", total (stats_set shm)); ("set.success_count", success (stats_set shm));
   ("incr.total_count", total (stats_incr shm)); ("incr.success_count", success (stats_incr shm));
   ("get.total_count", total (stats_get shm)); ("get.success_count", success (stats_get shm));
   ("del.total_count", total (stats_del shm)); ("del.success_count", success (stats_del shm))].
Definition memory_lines (st : shmcache_stats) : list (string * Z) :=
  [("total", stats_memory_max st); ("alloced", alloced (stats_usage st));
   ("used", stats_memory_used st); ("free", stats_memory_max st - stats_memory_used st)].
Definition recycle_lines (shm : shm_stats) : list (string * Z) :=
  let k := recycle_key_stats shm in let v := recycle_striping_stats shm in
  [("clear_ht_entry.total_count", clear_ht_entry_total shm);
   ("clear_ht_entry.valid_count", clear_ht_entry_valid shm);
   ("recycle.key.total_count", recycle_total k); ("recycle.key.success_count", recycle_success k);
   ("recycle.key.force_count", recycle_force k);
   ("recycle.value_striping.total_count", recycle_total v);
   ("recycle.value_striping.success_count", recycle_success v);
   ("recycle.value_striping.force_count", recycle_force v)].
Definition lock_lines (shm : shm_stats) : list (string * Z) :=
  let l := stats_lock shm in
  [("total_count", lock_total l); ("retry_count", lock_retry l);
   ("detect_deadlock", detect_deadlock l); ("unlock_deadlock", unlock_deadlock l)].

Definition ratio_of (a b : Z) : option (Z * Z) := if 0 <? b then Some (a, b) else None.

Section stats_tool.
Context `{E : Env} `{I : IniEnv} (attempts : nat) (my_pid : Z).

(** an average of a number of bytes over the keys, an int (84-90); dividing by
    zero is a fault *)
Definition average (bytes count : Z) : cmd Z :=
  if 0 <? count then q ← c_div bytes count; mret (to_int q) else mret 0.

Definition stats_output : cmd stats_report :=
  t ← ext time_NULL;
  modify (λ s, s <| g_current_time := t |>);;
  st ← shmcache_stats_ex true;
  s ← get;
  let shm := stats_shm st in
  avg_key_len ← average (used_key (stats_usage st)) (stats_count st);
  avg_value_len ← average (used_value (stats_usage st)) (stats_count st);
  mret (Report (time_lines (memory s)) (count_lines st) (stats_segment_size st) (hit_get_qps st)
    (hit_seconds st, if 0 <=? (hit_ratio st).1 then Some (hit_ratio st) else None)
    (to_int (g_current_time s - stats_init_time (stats (memory s))),
     ratio_of (success (stats_get shm)) (total (stats_get shm)))
    (ratio_of (total (stats_get shm)) (total (stats_set shm)))
    (memory_lines st)
    avg_key_len avg_value_len
    (recycle_lines shm) (lock_lines shm)).

(** the exit status, and the report if there is one (19-70) *)
Definition main_stats (argv : list string) : cmd (Z * option stats_report) :=
  match stats_args argv with
  | None => mret (0, None)
  | Some (config_filename, clear_stats) =>
    result ← shmcache_init_from_file_ex attempts my_pid config_filename false true;
    if negb (result =? 0) then mret (result, None)
    else if clear_stats : bool then shmcache_clear_stats attempts;; mret (0, None)
    else r ← stats_output; mret (0, Some r)
  end.

(** ** The tsar module *)
(** read_shmcache_stats (80-134): the fields, and the text handed to tsar *)
Definition record_fields (shm : shm_stats) : list Z :=
  let k := recycle_key_stats shm in let v := recycle_striping_stats shm in
  [0; 0; 0; 0; 0; lock_retry (stats_lock shm); recycle_total k; recycle_force k; recycle_total v;
   recycle_force v; clear_ht_entry_total shm; clear_ht_entry_valid shm;
   total (stats_set shm); success (stats_set shm); total (stats_incr shm); success (stats_incr shm);
   total (stats_get shm); success (stats_get shm); total (stats_del shm); success (stats_del shm)].
Definition comma : ascii := ascii_of_nat 44.
Fixpoint comma_list (l : list Z) : list ascii :=
  match l with
  | [] => []
  | [z] => sprintf_int64 z
  | z :: l => sprintf_int64 z ++ comma :: comma_list l
  end.
Definition record_size : nat := 512.
(** snprintf keeps what fits the buffer *)
Definition record_text (shm : shm_stats) : list ascii :=
  take (record_size - 1) (comma_list (record_fields shm)).
Definition read_shmcache_stats : cmd (list ascii) :=
  result ← shmcache_init_from_file_ex attempts my_pid "/etc/libshmcache.conf" false true;
  shm ← (if result =? 0
         then st ← shmcache_stats_ex false; shmcache_destroy;; mret (stats_shm st)
         else mret stats_zero);
  mret (record_text shm).
End stats_tool.

(** ** set_shmcache_record (156-185): from the fields of two records to what is
    shown *)
Definition U_64 (z : Z) : Z := z mod 2 ^ 64.
(** a counter's increase (136-142) *)
Definition CALC_INCR_FIELD_VAL (pre cur : Z) : Z :=
  let v := to_int64 (U_64 (cur - pre)) in
  if (v <? 0) || (1000000000 <? v) then 0 else v.
(** [d / inter > limit] for doubles; a quotient by 0 is infinite, 0 / 0 compares
    with nothing *)
Definition quotient_exceeds (d inter limit : Z) : bool :=
  if inter =? 0 then 0 <? d else if 0 <? inter then limit * inter <? d else false.
(** a rate per second (144-154) *)
Definition SET_QPS_FIELD_VAL (pre cur inter : Z) : Z * Z :=
  let d := U_64 (cur - pre) in
  if quotient_exceeds d inter 100000000 then (0, 1)
  else if 0 <? d then (d, inter) else (0, 1).

(** the columns (57-78): their names and where tsar shows them *)
Inductive mod_bits := SUMMARY_BIT | DETAIL_BIT | HIDE_BIT.
Definition shmcache_info : list (string * mod_bits) :=
  [("GetQPS", SUMMARY_BIT); ("HitRat", SUMMARY_BIT); ("SetQPS", DETAIL_BIT); ("IncQPS", DETAIL_BIT);
   ("DelQPS", DETAIL_BIT); ("Relock", DETAIL_BIT); ("CycKey", DETAIL_BIT); ("CKForce", DETAIL_BIT);
   ("CycVal", DETAIL_BIT); ("CVForce", DETAIL_BIT); ("CLREle", DETAIL_BIT); ("CLRVld", DETAIL_BIT);
   ("set.total_count", HIDE_BIT); ("set.success_count", HIDE_BIT); ("incr.total_count", HIDE_BIT);
   ("incr.success_count", HIDE_BIT); ("get.total_count", HIDE_BIT); ("get.success_count", HIDE_BIT);
   ("del.total_count", HIDE_BIT); ("del.success_count", HIDE_BIT)].
Definition FILED_INDEX_RETRY_LOCKS : nat := 5.
Definition FILED_INDEX_CLEAR_HT_VALID : nat := 11.
Definition FILED_INDEX_SET_TOTAL_COUNT : nat := 12.
Definition FILED_INDEX_INCR_TOTAL_COUNT : nat := 14.
Definition FILED_INDEX_GET_TOTAL_COUNT : nat := 16.
Definition FILED_INDEX_GET_SUCCESS_COUNT : nat := 17.
Definition FILED_INDEX_DEL_TOTAL_COUNT : nat := 18.
Definition FILED_INDEX_DEL_SUCCESS_COUNT : nat := 19.
(** one entry of [st_array], from the entries of the two records *)
Definition on_field {A} (f : Z → Z → A) (pre cur : list Z) (i : nat) : option A :=
  p ← pre !! i; c ← cur !! i; Some (f p c).
Definition hit_percent (total_sub success_sub : Z) : Z * Z :=
  if 0 <? total_sub then (100 * success_sub, total_sub) else (0, 1).
Definition whole (z : Z) : Z * Z := (z, 1).
Definition set_shmcache_record (pre cur : list Z) (inter : Z) : option (list (Z * Z)) :=
  let qps := on_field (λ p c, SET_QPS_FIELD_VAL p c inter) pre cur in
  let incr := on_field CALC_INCR_FIELD_VAL pre cur in
  get_qps ← qps FILED_INDEX_GET_TOTAL_COUNT;
  set_qps ← qps FILED_INDEX_SET_TOTAL_COUNT;
  incr_qps ← qps FILED_INDEX_INCR_TOTAL_COUNT;
  del_qps ← qps FILED_INDEX_DEL_TOTAL_COUNT;
  total_sub ← incr FILED_INDEX_GET_TOTAL_COUNT;
  success_sub ← incr FILED_INDEX_GET_SUCCESS_COUNT;
  subs ← mapM incr (seq FILED_INDEX_RETRY_LOCKS (S (FILED_INDEX_CLEAR_HT_VALID - FILED_INDEX_RETRY_LOCKS)));
  keeps ← mapM (λ i, cur !! i)
    (seq FILED_INDEX_SET_TOTAL_COUNT (S (FILED_INDEX_DEL_SUCCESS_COUNT - FILED_INDEX_SET_TOTAL_COUNT)));
  Some ([get_qps; hit_percent total_sub success_sub; set_qps; incr_qps; del_qps] ++
        (whole <$> subs) ++ (whole <$> keeps)).

(** ** The text of a record *)
(** reading it: the parts between the commas *)
Fixpoint split_comma (l : list ascii) : list (list ascii) :=
  match l with
  | [] => [[]]
  | c :: l =>
    if code c =? 44 then [] :: split_comma l
    else match split_comma l with w :: ws => (c :: w) :: ws | [] => [[c]] end
  end.
Definition no_comma (l : list ascii) : Prop := Forall (λ c, code c ≠ 44) l.

Lemma split_comma_nonempty l : split_comma l ≠ [].
Proof. destruct l as [|c l]; cbn; [done|]. by destruct (_ =? _), (split_comma l). Qed.
Lemma split_no_comma w : no_comma w → split_comma w = [w].
Proof.
  induction 1 as [|c w Hc _ IH]; [done|]. cbn. by rewrite (proj2 (Z.eqb_neq _ _) Hc), IH.
Qed.
Lemma split_comma_app w l : no_comma w → split_comma (w ++ comma :: l) = w :: split_comma l.
Proof.
  induction 1 as [|c w Hc _ IH]; [done|]. cbn [app split_comma].
  by rewrite (proj2 (Z.eqb_neq _ _) Hc), IH.
Qed.

Definition int64_ok (z : Z) : Prop := LLONG_MIN ≤ z ≤ LLONG_MAX.
Lemma sprintf_no_comma z : int64_ok z → no_comma (sprintf_int64 z).
Proof.
  intros Hz. destruct (sprintf_int64_digits z Hz) as (ds&Hd&_&_&_&->).
  assert (no_comma ds) as H.
  { eapply Forall_impl; [exact Hd|]. intros c Hc. unfold is_digit in Hc.
    apply andb_true_iff in Hc as [Hc%Z.leb_le _]. lia. }
  destruct (z <? 0); [by constructor|done].
Qed.
Lemma split_comma_list l : l ≠ [] → Forall int64_ok l →
  split_comma (comma_list l) = sprintf_int64 <$> l.
Proof.
  intros Hne Hl. induction Hl as [|z l Hz Hl IH]; [done|]. destruct l as [|z2 l].
  - apply split_no_comma. by apply sprintf_no_comma.
  - change (comma_list (z :: z2 :: l)) with (sprintf_int64 z ++ comma :: comma_list (z2 :: l)).
    rewrite split_comma_app by by apply sprintf_no_comma. by rewrite IH.
Qed.
Lemma comma_list_length l : Forall int64_ok l → (length (comma_list l) ≤ 22 * length l)%nat.
Proof.
  induction 1 as [|z l Hz _ IH]; [done|]. destruct (sprintf_int64_spec z Hz) as [Hl _].
  destruct l as [|z2 l]; [simpl; lia|].
  change (comma_list (z :: z2 :: l)) with (sprintf_int64 z ++ comma :: comma_list (z2 :: l)).
  rewrite length_app. cbn [length] in *. lia.
Qed.

(** ** What tsar shows *)
(** counters of a cache: they count from 0 *)
Definition counter_ok (z : Z) : Prop := 0 ≤ z < 2 ^ 63.
Definition counted_ok (shm : shm_stats) : Prop := Forall counter_ok (record_fields shm).

(** an increase that is not absurd, and a rate that is not *)
Definition increase (p c : Z) : Z := if decide (0 ≤ c - p ≤ 10 ^ 9) then c - p else 0.
Definition rate (p c inter : Z) : Z * Z :=
  if decide (0 < c - p ≤ 10 ^ 8 * inter) then (c - p, inter) else (0, 1).

Lemma CALC_INCR_increase p c : counter_ok p → counter_ok c → CALC_INCR_FIELD_VAL p c = increase p c.
Proof.
  intros Hp Hc. unfold counter_ok, CALC_INCR_FIELD_VAL, increase, U_64, to_int64 in *.
  rewrite wrap_signed_mod, wrap_signed_small by (change (2 ^ (64 - 1)) with (2 ^ 63); lia).
  change (10 ^ 9) with 1000000000.
  case_decide; destruct (Z.ltb_spec (c - p) 0), (Z.ltb_spec 1000000000 (c - p)); cbn [orb]; lia.
Qed.
Lemma SET_QPS_rate p c inter : counter_ok p → counter_ok c → 0 < inter < 2 ^ 31 →
  SET_QPS_FIELD_VAL p c inter = rate p c inter.
Proof.
  intros Hp Hc Hi. unfold counter_ok, SET_QPS_FIELD_VAL, rate, U_64, quotient_exceeds in *.
  rewrite (proj2 (Z.eqb_neq _ _)), (proj2 (Z.ltb_lt 0 inter)) by lia. change (10 ^ 8) with 100000000.
  destruct (decide (p ≤ c)) as [Hle|Hlt].
  - rewrite Z.mod_small by lia.
    case_decide; destruct (Z.ltb_spec (100000000 * inter) (c - p)), (Z.ltb_spec 0 (c - p)); done || lia.
  - replace ((c - p) mod 2 ^ 64) with (c - p + 2 ^ 64)
      by (rewrite <-(Z_mod_plus_full _ 1), Z.mod_small; lia).
    rewrite decide_False, (proj2 (Z.ltb_lt _ _)) by lia. done.
Qed.

(** the twenty columns: the rates, the hit ratio, the increases since the
    previous record, and the counters themselves *)
Definition shown (pre cur : shm_stats) (inter : Z) : list (Z * Z) :=
  let grew (f : shm_stats → Z) := increase (f pre) (f cur) in
  let per (f : shm_stats → Z) := rate (f pre) (f cur) inter in
  let gets shm := total (stats_get shm) in let hits shm := success (stats_get shm) in
  [per gets; hit_percent (grew gets) (grew hits); per (λ s, total (stats_set s));
   per (λ s, total (stats_incr s)); per (λ s, total (stats_del s))] ++
  (whole <$>
    [grew (λ s, lock_retry (stats_lock s)); grew (λ s, recycle_total (recycle_key_stats s));
     grew (λ s, recycle_force (recycle_key_stats s)); grew (λ s, recycle_total (recycle_striping_stats s));
     grew (λ s, recycle_force (recycle_striping_stats s)); grew clear_ht_entry_total;
     grew clear_ht_entry_valid]) ++
  (whole <$> drop 12 (record_fields cur)).

Lemma on_field_incr pre cur i : counted_ok pre → counted_ok cur →
  on_field CALC_INCR_FIELD_VAL (record_fields pre) (record_fields cur) i =
  on_field increase (record_fields pre) (record_fields cur) i.
Proof.
  intros Hp Hc. unfold on_field. destruct (record_fields pre !! i) as [p|] eqn:Ep; [|done].
  destruct (record_fields cur !! i) as [c|] eqn:Ec; [|done]. cbn.
  rewrite CALC_INCR_increase; [done|exact (Forall_lookup_1 _ _ _ _ Hp Ep)|exact (Forall_lookup_1 _ _ _ _ Hc Ec)].
Qed.
Lemma on_field_qps pre cur inter i : counted_ok pre → counted_ok cur → 0 < inter < 2 ^ 31 →
  on_field (λ p c, SET_QPS_FIELD_VAL p c inter) (record_fields pre) (record_fields cur) i =
  on_field (λ p c, rate p c inter) (record_fields pre) (record_fields cur) i.
Proof.
  intros Hp Hc Hi. unfold on_field. destruct (record_fields pre !! i) as [p|] eqn:Ep; [|done].
  destruct (record_fields cur !! i) as [c|] eqn:Ec; [|done]. cbn.
  rewrite SET_QPS_rate; [done|exact (Forall_lookup_1 _ _ _ _ Hp Ep)|exact (Forall_lookup_1 _ _ _ _ Hc Ec)|done].
Qed.

Lemma set_record_spec pre cur inter : counted_ok pre → counted_ok cur → 0 < inter < 2 ^ 31 →
  set_shmcache_record (record_fields pre) (record_fields cur) inter = Some (shown pre cur inter).
Proof.
  intros Hp Hc Hi. unfold set_shmcache_record. cbv zeta.
  rewrite !(on_field_qps pre cur inter) by done.
  unfold FILED_INDEX_RETRY_LOCKS, FILED_INDEX_CLEAR_HT_VALID, FILED_INDEX_SET_TOTAL_COUNT,
    FILED_INDEX_DEL_SUCCESS_COUNT. cbn [Nat.sub seq mapM].
  rewrite !(on_field_incr pre cur) by done. reflexivity.
Qed.

Lemma increase_nonneg p c : 0 ≤ increase p c.
Proof. unfold increase. case_decide; lia. Qed.
Lemma rate_bounds p c inter : 0 < inter →
  (0 ≤ (rate p c inter).1 ∧ 0 < (rate p c inter).2) ∧ (rate p c inter).1 ≤ 10 ^ 8 * (rate p c inter).2.
Proof. unfold rate. case_decide; cbn; lia. Qed.
Lemma hit_percent_bounds t h : 0 ≤ h →
  (0 ≤ (hit_percent t h).1 ∧ 0 < (hit_percent t h).2) ∧
  (h ≤ t → (hit_percent t h).1 ≤ 100 * (hit_percent t h).2).
Proof. unfold hit_percent. destruct (Z.ltb_spec 0 t); cbn; lia. Qed.

(** every column is a number, no rate is above 10^8 per second, and the hit
    ratio is at most 100 when there were no more hits than gets *)
Lemma shown_bounds pre cur inter : 0 < inter → counted_ok cur →
  Forall (λ q, 0 ≤ q.1 ∧ 0 < q.2) (shown pre cur inter) ∧
  (success (stats_get cur) - success (stats_get pre) ≤ total (stats_get cur) - total (stats_get pre)
     ≤ 10 ^ 9 →
   ∃ h, shown pre cur inter !! 1%nat = Some h ∧ h.1 ≤ 100 * h.2).
Proof.
  intros Hi Hc. split.
  - assert (∀ l, Forall (λ z, 0 ≤ z) l → Forall (λ q, 0 ≤ q.1 ∧ 0 < q.2) (whole <$> l)) as Hw.
    { intros l Hl. apply Forall_fmap. eapply Forall_impl; [exact Hl|]. intros z Hz. by split. }
    unfold shown. apply Forall_app. split; [|apply Forall_app; split; apply Hw].
    + repeat constructor; try apply rate_bounds; try apply hit_percent_bounds; try apply increase_nonneg; done.
    + repeat constructor; apply increase_nonneg.
    + apply Forall_drop. eapply Forall_impl; [exact Hc|]. by intros z [? _].
  - intros Hh. eexists. split; [reflexivity|]. apply hit_percent_bounds; [apply increase_nonneg|].
    unfold increase. repeat case_decide; lia.
Qed.

(** ** What the tool reports *)
Lemma average_spec bytes count m s : 0 ≤ bytes → bytes ≤ m * count → m < 2 ^ 31 →
  wp (average bytes count) (λ r s', s' = s ∧
    r = (if decide (0 < count) then bytes / count else 0) ∧ (0 ≤ m → 0 ≤ r ≤ m)) s.
Proof.
  intros Hb Hm H31. unfold average, c_div. case_decide as Hc.
  2: { rewrite (proj2 (Z.ltb_ge _ _)) by lia. wp_simpl. split_and!; [done|done|lia]. }
  rewrite (proj2 (Z.ltb_lt _ _)), (proj2 (Z.eqb_neq _ _)), Z.quot_div_nonneg by lia. wp_simpl.
  assert (0 ≤ bytes / count ≤ m) as H.
  { split; [apply Z.div_pos; lia|]. apply Z.div_le_upper_bound; lia. }
  unfold to_int. rewrite wrap_signed_small by (change (2 ^ (32 - 1)) with (2 ^ 31); lia).
  split_and!; [done|done|lia..].
Qed.

Section properties.
Context `{E : Env} `{L : !EnvLaws E}.

Lemma total_length_bound f m l : Forall (λ r, 0 ≤ f r ≤ m) l →
  0 ≤ total_length f l ≤ m * Z.of_nat (length l).
Proof.
  induction 1 as [|r l Hr _ IH]; [cbn; lia|]. cbn [total_length foldr length] in *.
  unfold total_length in *. lia.
Qed.
(** keys are at most 64 bytes, values less than a segment *)
Lemma view_lengths s es : inv s es →
  Forall (λ r, 0 ≤ key_length (entry_key r) ≤ SHMCACHE_MAX_KEY_SIZE) (view s es) ∧
  Forall (λ r, 0 ≤ v_length (entry_value r) ≤ vsize (vm_segment (memory s))) (view s es).
Proof.
  intros (Hg&_&Ha&_&Ht). pose proof (inv_readable s es es Hg Ha Ht ltac:(done)) as Hrd.
  destruct Ht as (He&_). unfold view. split; apply Forall_fmap.
  - eapply Forall_impl; [exact He|]. intros o (Hk&_). exact Hk.
  - eapply Forall_impl; [exact Hrd|]. intros o (_&_&?&_&(_&?&?&?)&_). cbn. lia.
Qed.
Lemma averages_spec s es st : inv s es → describes s es st →
  let l := view s es in let n := Z.of_nat (length l) in
  let mean f := if decide (0 < n) then total_length f l / n else 0 in
  ∀ t, wp (average (used_key (stats_usage st)) (stats_count st)) (λ r t', t' = t ∧
      r = mean (λ r, key_length (entry_key r)) ∧ 0 ≤ r ≤ SHMCACHE_MAX_KEY_SIZE) t ∧
    wp (average (used_value (stats_usage st)) (stats_count st)) (λ r t', t' = t ∧
      r = mean (λ r, v_length (entry_value r))) t.
Proof.
  intros Hinv (->&->&->&_). cbv zeta. intros t. destruct (view_lengths s es Hinv) as [Hk Hv].
  apply total_length_bound in Hk, Hv. destruct Hinv as (([??]&_)&_).
  split.
  - eapply wp_mono; [exact (average_spec _ _ SHMCACHE_MAX_KEY_SIZE t (proj1 Hk) (proj2 Hk) ltac:(done))|].
    intros r t' (->&->&Hb). split_and!; [done|done|by apply Hb..].
  - eapply wp_mono; [exact (average_spec _ _ (vsize (vm_segment (memory s))) t (proj1 Hv) (proj2 Hv) ltac:(lia))|].
    by intros r t' (->&->&_).
Qed.

(** C30: what the statistics tool prints is true of the records: their number,
    the mean lengths of their keys and values, rounded down, or 0 for an empty
    cache, and a hit ratio that is a proportion; it never divides by zero, which
    would be a fault, and changes no record. *)
Theorem stats_output_correct s es :
  inv s es → hits_ok (stats (memory s)) →
  wp stats_output (λ r s',
    let l := view s es in let n := Z.of_nat (length l) in
    let mean f := if decide (0 < n) then total_length f l / n else 0 in
    inv s' es ∧ view s' es = l ∧ ("current_key_count", n) ∈ rep_counts r ∧
    rep_avg_key_len r = mean (λ r, key_length (entry_key r)) ∧
    0 ≤ rep_avg_key_len r ≤ SHMCACHE_MAX_KEY_SIZE ∧
    rep_avg_value_len r = mean (λ r, v_length (entry_value r)) ∧
    ∀ q, (rep_hit r).2 = Some q → 0 ≤ q.1 ≤ q.2 ∧ 0 < q.2) s.
Proof.
  intros Hinv Hok. unfold stats_output. wp_simpl. apply wp_ext. wp_simpl.
  set (s1 := s <| ticks ::= S |> <| g_current_time := _ |>).
  eapply wp_mono; [by apply (stats_ex_spec s1 es)|].
  intros st s2 (Hinv2&Hview2&Hd&_&Hr&Hle&_). wp_simpl. cbv zeta.
  pose proof (averages_spec s1 es st ltac:(done) Hd) as Hav. cbv zeta in Hav.
  eapply wp_mono; [apply Hav|]. intros ak t (->&Hk&Hkb). wp_simpl.
  eapply wp_mono; [apply Hav|]. intros av t (->&Hv). wp_simpl.
  cbn [rep_counts rep_avg_key_len rep_avg_value_len rep_hit snd].
  split; [done|]. split; [done|]. split.
  { destruct Hd as (Hc&_). unfold count_lines. rewrite Hc. right. by left. }
  split; [exact Hk|]. split; [exact Hkb|]. split; [exact Hv|].
  intros q. destruct (Z.leb_spec 0 (hit_ratio st).1) as [H0|]; [|done]. intros [= <-].
  destruct (Hle H0). lia.
Qed.
End properties.

(** C31: the record handed to tsar fits its buffer and reads back as the
    counters; what is shown of two records are the rates per second, the hit
    ratio in per cent and the increases of the counters between them, where an
    increase that is negative (the statistics were cleared) or absurdly large
    counts as none, and the counters themselves.  Every column is a
    non-negative number.  The hit ratio is at most 100 when the hits grew by no
    more than the gets and the gets by at most 10^9, as they do unless the
    statistics are cleared between the two samples; then it can be anything
    ([tsar_ratio_after_clear]). *)
Theorem tsar_correct pre cur inter :
  counted_ok pre → counted_ok cur → 0 < inter < 2 ^ 31 →
  strtoll <$> split_comma (record_text cur) = (λ z, (z, [])) <$> record_fields cur ∧
  set_shmcache_record (record_fields pre) (record_fields cur) inter = Some (shown pre cur inter) ∧
  length (shown pre cur inter) = length shmcache_info ∧
  Forall (λ q, 0 ≤ q.1 ∧ 0 < q.2) (shown pre cur inter) ∧
  (success (stats_get cur) - success (stats_get pre) ≤ total (stats_get cur) - total (stats_get pre)
     ≤ 10 ^ 9 →
   ∃ h, shown pre cur inter !! 1%nat = Some h ∧ h.1 ≤ 100 * h.2).
Proof.
  intros Hp Hc Hi. destruct (shown_bounds pre cur inter) as [Hb Hh]; [lia|done|].
  split; [|split; [by apply set_record_spec|by split_and!]].
  assert (Forall int64_ok (record_fields cur)) as H64.
  { eapply Forall_impl; [exact Hc|]. intros z Hz. unfold counter_ok, int64_ok, LLONG_MIN, LLONG_MAX in *. lia. }
  unfold record_text. rewrite take_ge.
  2: { pose proof (comma_list_length _ H64) as Hl. change (length (record_fields cur)) with 20%nat in Hl.
       unfold record_size. lia. }
  rewrite split_comma_list, <-list_fmap_compose by done. apply list_fmap_ext. intros i z Hz.
  apply strtoll_sprintf. exact (Forall_lookup_1 _ _ _ _ H64 Hz).
Qed.

(** the ratio is not bounded when the statistics were cleared between the two
    samples: the totals may have grown by less than the hits.  1000 gets without
    a hit before, 1001 gets with 1001 hits after the clearing show 100100 per
    cent. *)
Definition gets (t h : Z) : shm_stats := stats_zero <| stats_get := Counter t h |>.
Theorem tsar_ratio_after_clear :
  (set_shmcache_record (record_fields (gets 1000 0)) (record_fields (gets 1001 1001)) 60
     ≫= λ l, l !! 1%nat) = Some (100100, 1).
Proof. reflexivity. Qed.
