(* ===== verification/TestDriver.v ===== *)
(** * The test driver (src/tests/tests.c)

    The driver initialises a cache from a file, makes 13000 keys with values of
    random length, shuffles them, stores them five times over and prints the
    number of records.  [rand] and [RAND_MAX] of the C library are parameters:
    [rand seed k] is what call [k] of [rand] returns after [srand(seed)]. *)
From S2P Require Import Prelude Types CLib OpWrapper Shmopt HentryOffset Invariant HashTable Recycle Lock CacheTable ShmCache ShmCacheSpec Init Config Tools.
Local Open Scope Z_scope.
Local Open Scope shm_scope.

(** ** The driver *)
Definition MAX_VALUE_SIZE : Z := 8 * 1024.
Definition KEY_COUNT : Z := 13000.
Definition ttl_seconds : Z := 300.
Definition conf_filename : string := "/usr/local/etc/libshmcache.conf".

(** "%04d" of a number that is not negative *)
Definition print_04d (z : Z) : list ascii :=
  let d := sprintf_int64 z in replicate (4 - length d) (ascii_of_nat 48) ++ d.
(** the text of key [i] (57) *)
Definition szKey (i : Z) : list ascii := str "key_" ++ print_04d (i + 1).
(** the addition of two [int]s, without meaning when it overflows *)
Definition int_add (a b : Z) : option Z :=
  if (- 2 ^ 31 <=? a + b) && (a + b <? 2 ^ 31) then Some (a + b) else None.

(** the swap (69-73) *)
Definition swap_entries {A} (i1 i2 : Z) (entries : list A) : option (list A) :=
  if i1 =? i2 then Some entries
  else
    tmp ← znth entries i1;
    x ← znth entries i2;
    entries ← zupd entries i1 x;
    zupd entries i2 tmp.

Section driver.
Context `{E : Env} `{I : IniEnv} (attempts : nat) (my_pid : Z).
Context (RAND_MAX : Z) (rand : Z → nat → Z).

(** [n * rand() / RAND_MAX] (61, 67) *)
Definition scaled_rand (n seed : Z) (k : nat) : Z := to_int (Z.quot (n * rand seed k) RAND_MAX).

(** an element of [entries] (57-63); the value is the part of [szValue] its
    length covers *)
Definition test_entry (seed expires : Z) (i : nat) : shmcache_hash_entry :=
  let len := scaled_rand MAX_VALUE_SIZE seed (S i) in
  Hash_entry (Key_info (szKey (Z.of_nat i)) (Z.of_nat (length (szKey (Z.of_nat i)))))
    (Value_info (replicate (Z.to_nat len) (ascii_of_nat 65)) len SHMCACHE_SERIALIZER_STRING expires).
(** the loop 56-64: [n] more elements from [i] on; [None] is an element whose
    [key.data] is the NULL of a failed [strdup] *)
Fixpoint fill_entries (seed current_time : Z) (n i : nat) : cmd (list (option shmcache_hash_entry)) :=
  match n with
  | O => mret []
  | S n =>
    ok ← ext (λ t, malloc_ok t (Z.of_nat (length (szKey (Z.of_nat i))) + 1));
    expires ← of_option (int_add current_time ttl_seconds);
    rest ← fill_entries seed current_time n (S i);
    mret ((if ok : bool then Some (test_entry seed expires i) else None) :: rest)
  end.
(** the loop 66-74; [k] counts the calls of [rand] *)
Fixpoint shuffle {A} (seed : Z) (n k : nat) (entries : list A) : option (list A) :=
  match n with
  | O => Some entries
  | S n =>
    let i1 := scaled_rand KEY_COUNT seed k in
    let i2 := KEY_COUNT - 1 - i1 in
    entries ← swap_entries i1 i2 entries;
    shuffle seed n (S k) entries
  end.
(** the loop 77-85 from [i] on: the failure it breaks off with, as printed *)
Fixpoint set_entries (i : Z) (entries : list (option shmcache_hash_entry)) : cmd (option (Z * Z)) :=
  match entries with
  | [] => mret None
  | entry :: entries =>
    entry ← of_option entry;
    result ← shmcache_set_ex attempts (entry_key entry) (entry_value entry);
    if negb (result =? 0) then mret (Some (i + 1, result)) else set_entries (i + 1) entries
  end.
(** the loop 76-86 *)
Fixpoint passes (n : nat) (entries : list (option shmcache_hash_entry)) : cmd (list (Z * Z)) :=
  match n with
  | O => mret []
  | S n =>
    failed ← set_entries 0 entries;
    rest ← passes n entries;
    mret (option_list failed ++ rest)
  end.
(** main: the exit status, and the failures and the count printed *)
Definition main_tests : cmd (Z * option (list (Z * Z) * Z)) :=
  result ← shmcache_init_from_file_ex attempts my_pid conf_filename true true;
  if negb (result =? 0) then mret (result, None)
  else
    ok ← ext (λ t, malloc_ok t (sizeof_shmcache_hash_entry * KEY_COUNT));
    if negb ok then mret (ENOMEM, None)
    else
      now ← ext time_NULL;
      let current_time := to_int now in
      let seed := to_uint current_time in
      entries ← fill_entries seed current_time (Z.to_nat KEY_COUNT) 0;
      entries ← of_option (shuffle seed (Z.to_nat KEY_COUNT) (S (Z.to_nat KEY_COUNT)) entries);
      failures ← passes 5 entries;
      s ← get;
      mret (0, Some (failures, shm_ht_count s)).
End driver.

(** ** The keys are distinct *)
Lemma value_of_zeros n l : value_of_digits 0 (replicate n (ascii_of_nat 48) ++ l) = value_of_digits 0 l.
Proof. induction n as [|n IH]; [done|exact IH]. Qed.
Lemma print_04d_value z : 0 ≤ z ≤ LLONG_MAX → value_of_digits 0 (print_04d z) = z.
Proof.
  intros Hz. unfold print_04d. rewrite value_of_zeros. unfold sprintf_int64.
  destruct (Z.ltb_spec z 0); [lia|].
  destruct (print_digits_spec 20 z []) as (ds&->&_&_&_&Hv); [unfold LLONG_MAX in *; lia|lia|].
  by rewrite app_nil_r.
Qed.
Lemma szKey_inj i j : 0 ≤ i < LLONG_MAX → 0 ≤ j < LLONG_MAX → szKey i = szKey j → i = j.
Proof.
  intros Hi Hj H%app_inv_head. apply (f_equal (value_of_digits 0)) in H.
  rewrite !print_04d_value in H by lia. lia.
Qed.

(** ** The shuffle permutes *)
Lemma swap_permutation {A} i1 i2 (l : list A) :
  0 ≤ i1 < Z.of_nat (length l) → 0 ≤ i2 < Z.of_nat (length l) →
  ∃ l', swap_entries i1 i2 l = Some l' ∧ l' ≡ₚ l.
Proof.
  intros H1 H2. unfold swap_entries. destruct (Z.eqb_spec i1 i2); [by exists l|].
  destruct (znth_is_Some l i1 H1) as [x1 Hx1], (znth_is_Some l i2 H2) as [x2 Hx2].
  rewrite Hx1, Hx2. cbn. rewrite zupd_Some by done. cbn. rewrite zupd_Some by (by rewrite length_insert).
  eexists. split; [done|]. apply znth_Some in Hx1 as [_ Hx1], Hx2 as [_ Hx2].
  by apply Permutation_insert_swap.
Qed.

Section specs.
Context `{E : Env} (Rep : shmcache_context → list shmcache_hash_entry → Prop) `{!CacheLaws Rep}.
Context (attempts : nat) (RAND_MAX : Z) (rand : Z → nat → Z).
Implicit Types (es : list shmcache_hash_entry).

(** [rand] of the C library, when it does not return its maximum *)
Definition rand_below_max : Prop := RAND_MAX < 2 ^ 31 ∧ ∀ seed k, 0 ≤ rand seed k < RAND_MAX.

Lemma scaled_rand_bounds n seed k :
  rand_below_max → 0 < n < 2 ^ 31 → 0 ≤ scaled_rand RAND_MAX rand n seed k < n.
Proof.
  intros [Hm Hr] Hn. specialize (Hr seed k). unfold scaled_rand.
  assert (0 ≤ Z.quot (n * rand seed k) RAND_MAX < n) as Hq.
  { rewrite Z.quot_div_nonneg by nia. split; [apply Z.div_pos; nia|apply Z.div_lt_upper_bound; nia]. }
  unfold to_int. rewrite wrap_signed_small; [done|lia|]. change (2 ^ (32 - 1)) with (2 ^ 31). lia.
Qed.
Lemma shuffle_permutation {A} seed n k (l : list A) :
  rand_below_max → Z.of_nat (length l) = KEY_COUNT →
  ∃ l', shuffle RAND_MAX rand seed n k l = Some l' ∧ l' ≡ₚ l.
Proof.
  intros Hr. revert k l. induction n as [|n IH]; intros k l Hl; [by exists l|].
  pose proof (scaled_rand_bounds KEY_COUNT seed k Hr ltac:(unfold KEY_COUNT; lia)) as Hi.
  cbn [shuffle]. set (i1 := scaled_rand _ _ _ _ _) in *.
  destruct (swap_permutation i1 (KEY_COUNT - 1 - i1) l) as (l1&->&Hp); [lia..|].
  cbn. destruct (IH (S k) l1) as (l2&->&Hp2); [by rewrite Hp|]. exists l2. split; [done|]. by etrans.
Qed.

(** ** Filling *)
Definition memory_suffices : Prop := ∀ n size, malloc_ok n size = true.
Lemma fill_entries_spec seed now n i s l :
  memory_suffices → - 2 ^ 31 ≤ now < 2 ^ 31 - ttl_seconds → Rep s l →
  wp (fill_entries RAND_MAX rand seed now n i) (λ entries s', Rep s' l ∧
    entries = Some <$> (test_entry RAND_MAX rand seed (now + ttl_seconds) <$> seq i n)) s.
Proof.
  intros Hmem Hnow. revert i s. induction n as [|n IH]; intros i s Hrep; cbn [fill_entries]; wp_simpl.
  { by split. }
  apply wp_ext. rewrite Hmem. unfold int_add, ttl_seconds in *.
  rewrite (proj2 (Z.leb_le _ _)), (proj2 (Z.ltb_lt _ _)) by lia. cbn [andb]. wp_simpl.
  apply wp_of_option. eexists. split; [done|]. wp_simpl.
  eapply wp_mono; [by apply IH, (law_ticks Rep)|]. intros rest s' [Hrep' ->]. wp_simpl. by split.
Qed.

(** ** Storing *)
Definition storable_entry (e : shmcache_hash_entry) : Prop := key_ok (entry_key e) ∧ value_ok (entry_value e).
Lemma new_record_eta e : new_record (entry_key e) (entry_value e) = e.
Proof. by destruct e as [[] []]. Qed.

(** the errors a call can break off with *)
Definition set_error (key : shmcache_key_info) (r : Z) : Prop :=
  lock_error r ∨ r = EINVAL ∨ r = ENOMEM ∨ (r = ENAMETOOLONG ∧ SHMCACHE_MAX_KEY_SIZE < key_length key).
Lemma set_entry_spec s l e :
  mutex_ok attempts → Rep s l → storable_entry e →
  wp (shmcache_set_ex attempts (entry_key e) (entry_value e)) (λ r s', ∃ l', Rep s' l' ∧
    (∀ x, x ∈ l' → x = e ∨ x ∈ l) ∧ (r = 0 → last l' = Some e) ∧
    (r ≠ 0 → set_error (entry_key e) r)) s.
Proof.
  intros Hm Hrep [Hk Hv]. eapply wp_mono; [by apply (set_ex_served Rep attempts (max_value_size (config s)) s l)|].
  intros r s' [_ (l1&l'&Hl&Hrep'&H)]. exists l'. split; [done|].
  assert (∀ x, x ∈ l1 → x ∈ l) as Hsub.
  { intros x. destruct Hl as [->|[-> _]]; [done|]. intros H'. by apply not_elem_of_nil in H'. }
  destruct H as [[Hf ->]|[Ha _]].
  { split_and!; [auto| |by left]. intros ->. by destruct Hf. }
  unfold abs_set in Ha. case_decide as Hr.
  - subst r. destruct Ha as (l0&Hs&->). rewrite new_record_eta. split_and!; [|by rewrite last_snoc|done].
    intros x [Hx|Hx%list_elem_of_singleton]%elem_of_app; [right|by left].
    apply Hsub. eapply elem_of_sublist in Hx; [|exact Hs]. by apply list_elem_of_filter in Hx as [_ ?].
  - split_and!; [|done|].
    + intros x Hx. right. apply Hsub. eapply elem_of_sublist; [exact Hx|]. by eapply set_failure_sublist.
    + intros _. unfold set_error. destruct Ha as [(?&?&_)|[(?&_&_)|[? _]]]; auto.
Qed.

Lemma set_entries_spec s l es i :
  mutex_ok attempts → Rep s l → Forall storable_entry es →
  wp (set_entries attempts i (Some <$> es)) (λ f s', ∃ l', Rep s' l' ∧
    (∀ x, x ∈ l' → x ∈ es ∨ x ∈ l) ∧
    match f with
    | None => last l' = last (l ++ es)
    | Some (j, r) => i < j ≤ i + Z.of_nat (length es) ∧
        ∃ e, es !! Z.to_nat (j - i - 1) = Some e ∧ set_error (entry_key e) r
    end) s.
Proof.
  intros Hm Hrep Hes. revert i s l Hrep.
  induction Hes as [|e es He Hes IH]; intros i s l Hrep; cbn [set_entries fmap list_fmap]; wp_simpl.
  { exists l. rewrite app_nil_r. split_and!; [done|by right|done]. }
  apply wp_of_option. exists e. split; [done|]. wp_simpl.
  eapply wp_mono; [by apply set_entry_spec|]. intros r s1 (l1&Hrep1&Hsub&Hlast&Herr).
  destruct (Z.eqb_spec r 0) as [->|Hr]; cbn [negb]; wp_simpl.
  - eapply wp_mono; [by apply (IH (i + 1) s1 l1)|]. intros f s2 (l2&Hrep2&Hsub2&Hf).
    exists l2. split_and!; [done| |].
    + intros x Hx. destruct (Hsub2 x Hx) as [?|Hx1]; [left; by right|].
      destruct (Hsub x Hx1) as [->|?]; [left; left|by right].
    + destruct f as [[j r]|].
      * destruct Hf as (Hj&x&Hx&Hxr). cbn [length]. split; [lia|]. exists x. split; [|done].
        replace (Z.to_nat (j - i - 1)) with (S (Z.to_nat (j - (i + 1) - 1))) by lia. done.
      * rewrite Hf, !last_app, last_cons, (Hlast eq_refl). by destruct (last es).
  - exists l1. split; [done|]. split.
    + intros x Hx. destruct (Hsub x Hx) as [->|?]; [left; left|by right].
    + cbn [length]. split; [lia|]. exists e. replace (Z.to_nat (i + 1 - i - 1)) with 0%nat by lia. auto.
Qed.

Lemma passes_spec n es s l :
  mutex_ok attempts → Rep s l → Forall storable_entry es → es ≠ [] → (∀ x, x ∈ l → x ∈ es) →
  wp (passes attempts n (Some <$> es)) (λ failures s', ∃ l', Rep s' l' ∧
    (∀ x, x ∈ l' → x ∈ es) ∧ (length failures ≤ n)%nat ∧
    Forall (λ '(j, r), 0 < j ≤ Z.of_nat (length es) ∧
      ∃ e, es !! Z.to_nat (j - 1) = Some e ∧ set_error (entry_key e) r) failures ∧
    (failures = [] → last l' = if n is O then last l else last es)) s.
Proof.
  intros Hm Hrep Hes Hne Hl. revert s l Hrep Hl.
  induction n as [|n IH]; intros s l Hrep Hl; cbn [passes]; wp_simpl.
  { exists l. split_and!; [done|done|simpl; lia|by constructor|done]. }
  eapply wp_mono; [by apply (set_entries_spec s l es 0)|]. intros f s1 (l1&Hrep1&Hl1&Hf). wp_simpl.
  assert (∀ x, x ∈ l1 → x ∈ es) as Hl1' by (intros x [?|?]%Hl1; auto).
  eapply wp_mono; [by apply (IH s1 l1)|]. intros rest s2 (l2&Hrep2&Hl2&Hn&Hall&Hlast). wp_simpl.
  exists l2. split_and!; [done|done|rewrite length_app; destruct f; simpl; lia| |].
  - apply Forall_app. split; [|done]. destruct f as [[j r]|]; [|by constructor].
    apply Forall_singleton. destruct Hf as (Hj&e&He&Hr). split; [lia|]. exists e. split; [|done].
    by replace (j - 1) with (j - 0 - 1) by lia.
  - destruct f; [done|]. cbn [option_list app]. intros Hrest. rewrite (Hlast Hrest).
    destruct n; [|done]. rewrite Hf, last_app. destruct (last es) eqn:He; [done|].
    by apply last_None in He.
Qed.

(** ** What a failure printed stands for *)
(** the entries [es] are stored one after the other, each with the result 0 *)
Fixpoint stores_all (es : list shmcache_hash_entry) (s s' : shmcache_context) : Prop :=
  match es with
  | [] => s' = s
  | e :: es => ∃ s1, shmcache_set_ex attempts (entry_key e) (entry_value e) s = Some (0, s1) ∧
      stores_all es s1 s'
  end.
(** one pass: every entry is stored, or those before entry [j], counted from 1,
    are, and storing entry [j] gives the error [r] *)
Definition pass_outcome es (s : shmcache_context) (failed : option (Z * Z)) (s' : shmcache_context) : Prop :=
  match failed with
  | None => stores_all es s s'
  | Some (j, r) => 0 < j ∧ r ≠ 0 ∧ ∃ e s1, es !! Z.to_nat (j - 1) = Some e ∧
      stores_all (take (Z.to_nat (j - 1)) es) s s1 ∧
      shmcache_set_ex attempts (entry_key e) (entry_value e) s1 = Some (r, s')
  end.
Fixpoint passes_outcome (n : nat) es (s : shmcache_context) (failures : list (Z * Z))
    (s' : shmcache_context) : Prop :=
  match n with
  | O => failures = [] ∧ s' = s
  | S n => ∃ failed s1 rest, failures = option_list failed ++ rest ∧
      pass_outcome es s failed s1 ∧ passes_outcome n es s1 rest s'
  end.

Lemma set_entries_run i es s f s' :
  set_entries attempts i (Some <$> es) s = Some (f, s') →
  match f with
  | None => stores_all es s s'
  | Some (j, r) => i < j ∧ r ≠ 0 ∧ ∃ e s1, es !! Z.to_nat (j - i - 1) = Some e ∧
      stores_all (take (Z.to_nat (j - i - 1)) es) s s1 ∧
      shmcache_set_ex attempts (entry_key e) (entry_value e) s1 = Some (r, s')
  end.
Proof.
  revert i s. induction es as [|e es IH]; intros i s; cbn [set_entries fmap list_fmap].
  { by intros [= <- <-]. }
  intros (e'&s0&Hs0&H)%run_bind. injection Hs0 as <- <-. apply run_bind in H as (r&s1&Hset&H).
  destruct (Z.eqb_spec r 0) as [->|Hr]; cbn [negb] in H.
  - apply IH in H. destruct f as [[j r]|]; [|by exists s1].
    destruct H as (Hj&Hr&x&s2&Hx&Hst&Hx2). split; [lia|]. split; [done|]. exists x, s2.
    replace (Z.to_nat (j - i - 1)) with (S (Z.to_nat (j - (i + 1) - 1))) by lia.
    split_and!; [done| |done]. by exists s1.
  - injection H as <- <-. split; [lia|]. split; [done|]. exists e, s.
    by replace (Z.to_nat (i + 1 - i - 1)) with 0%nat by lia.
Qed.
Lemma passes_run n es s failures s' :
  passes attempts n (Some <$> es) s = Some (failures, s') → passes_outcome n es s failures s'.
Proof.
  revert s failures s'. induction n as [|n IH]; intros s failures s'; cbn [passes passes_outcome].
  { by intros [= <- <-]. }
  intros (f&s1&Hf%set_entries_run&H)%run_bind. apply run_bind in H as (rest&s2&Hrest%IH&[= <- <-]).
  exists f, s1, rest. split; [done|]. split; [|done]. unfold pass_outcome.
  destruct f as [[j r]|]; [|done]. by rewrite Z.sub_0_r in Hf.
Qed.

(** ** The whole driver *)
Lemma test_entry_ok seed expires i : rand_below_max → storable_entry (test_entry RAND_MAX rand seed expires i).
Proof.
  intros Hr. split; [done|]. unfold value_ok. cbn. rewrite length_replicate.
  pose proof (scaled_rand_bounds MAX_VALUE_SIZE seed (S i) Hr ltac:(done)). lia.
Qed.
End specs.

(** [rand] may return its maximum; then the swap reads [entries[KEY_COUNT]] and
    [entries[-1]], both outside the array *)
Lemma rand_max_overruns {A} RAND_MAX rand seed n k (entries : list A) :
  0 < RAND_MAX → rand seed k = RAND_MAX → Z.of_nat (length entries) = KEY_COUNT →
  shuffle RAND_MAX rand seed (S n) k entries = None.
Proof.
  intros Hm Hr Hl. cbn [shuffle].
  assert (scaled_rand RAND_MAX rand KEY_COUNT seed k = KEY_COUNT) as ->.
  { unfold scaled_rand. by rewrite Hr, Z.quot_mul by lia. }
  unfold swap_entries. rewrite (proj2 (Z.eqb_neq _ _)) by (unfold KEY_COUNT; lia).
  assert (znth entries KEY_COUNT = None) as ->; [|done].
  unfold znth. destruct (0 <=? KEY_COUNT); [|done]. apply lookup_ge_None_2. rewrite <-Hl. lia.
Qed.

Lemma szKey_length i : 0 ≤ i < LLONG_MAX → (length (szKey i) ≤ 24)%nat.
Proof.
  intros Hi. unfold szKey, print_04d, sprintf_int64. destruct (Z.ltb_spec (i + 1) 0); [lia|].
  destruct (print_digits_spec 20 (i + 1) []) as (ds&->&_&_&Hl&_); [unfold LLONG_MAX in *; lia|lia|].
  rewrite app_nil_r, !length_app, length_replicate. change (length (str "key_")) with 4%nat. lia.
Qed.
(** records of distinct keys, all from a list *)
Lemma distinct_keys_length (l es : list shmcache_hash_entry) :
  NoDup (keys_of l) → (∀ e, e ∈ l → e ∈ es) → (length l ≤ length es)%nat.
Proof.
  intros Hnd Hsub. apply submseteq_length, NoDup_submseteq; [|done].
  unfold keys_of in Hnd. by apply NoDup_fmap_1 in Hnd.
Qed.

(** what a command gives is what running it gives *)
Lemma wp_with_run {A} (m : cmd A) (Q : A → shmcache_context → Prop) s :
  wp m Q s → wp m (λ r s', m s = Some (r, s') ∧ Q r s') s.
Proof. intros (r&s'&Hm&HQ). by exists r, s'. Qed.

Section properties.
Context `{E : Env} `{L : !EnvLaws E} `{I : IniEnv}.

Lemma init_from_conf attempts my_pid cfg :
  shmcache_load_config conf_filename = inr cfg → init_ok cfg attempts →
  wp (shmcache_init_from_file_ex attempts my_pid conf_filename true true)
    (λ r s', r = 0 → rep s' []) (new_image cfg).
Proof.
  intros Hload Hio. unfold shmcache_init_from_file_ex. rewrite Hload.
  eapply wp_mono; [by apply init_spec|]. intros r s' H Hr. destruct (H Hr) as [(Hinv&_&Hc&_) _].
  apply (law_empty (Rep := rep)); [done|]. rewrite Hc. by apply io_mapping in Hio.
Qed.

(** C40: the driver runs to its end: on new shared memory, with enough memory, before
    2038 and as long as [rand] stays below its maximum, it returns; when it
    returns 0 the cache is well-formed and holds only keys of the driver, each
    with its own value, and the count printed is the number of those records.
    The entries are a permutation of the 13000 made; each of the five passes
    stores them all, or stores those before the one whose number it prints and
    gets the error it prints from storing that one, an error of the lock, EINVAL
    or ENOMEM.  Without a failure the cache is not empty. *)
Theorem test_driver_correct attempts my_pid RAND_MAX rand cfg :
  rand_below_max RAND_MAX rand → memory_suffices →
  (∀ n, - 2 ^ 31 ≤ time_NULL n < 2 ^ 31 - ttl_seconds) →
  shmcache_load_config conf_filename = inr cfg → init_ok cfg attempts →
  wp (main_tests attempts my_pid RAND_MAX rand) (λ '(r, out) s', r = 0 → ∃ seed x l failures es s0,
    es ≡ₚ test_entry RAND_MAX rand seed x <$> seq 0 (Z.to_nat KEY_COUNT) ∧ rep s0 [] ∧
    passes_outcome attempts 5 es s0 failures s' ∧
    out = Some (failures, Z.of_nat (length l)) ∧ rep s' l ∧ NoDup (keys_of l) ∧
    (∀ e, e ∈ l → ∃ i, (i < Z.to_nat KEY_COUNT)%nat ∧ e = test_entry RAND_MAX rand seed x i) ∧
    (length l ≤ Z.to_nat KEY_COUNT)%nat ∧ (length failures ≤ 5)%nat ∧
    Forall (λ '(j, r), 0 < j ≤ KEY_COUNT ∧ (lock_error r ∨ r = EINVAL ∨ r = ENOMEM)) failures ∧
    (failures = [] → l ≠ [])) (new_image cfg).
Proof.
  intros Hr Hmem Hclock Hload Hio. pose proof (io_released _ _ Hio) as Hm. unfold main_tests. wp_simpl.
  eapply wp_mono; [by apply init_from_conf|]. intros r s1 H1.
  destruct (Z.eqb_spec r 0) as [->|Hne]; cbn [negb]; wp_simpl; [|done].
  specialize (H1 eq_refl). apply wp_ext. rewrite Hmem. cbn [negb]. wp_simpl. apply wp_ext.
  specialize (Hclock (S (ticks s1))). set (now := time_NULL _) in *. cbn zeta.
  replace (to_int now) with now.
  2: { unfold to_int. rewrite wrap_signed_small; [done|lia|]. unfold ttl_seconds in *.
       change (2 ^ (32 - 1)) with (2 ^ 31). lia. }
  set (N := Z.to_nat KEY_COUNT). assert (Z.of_nat N = KEY_COUNT) as HN by (by apply Z2Nat.id). clearbody N.
  set (seed := to_uint now). set (es := test_entry RAND_MAX rand seed (now + ttl_seconds) <$> seq 0 N).
  assert (length es = N) as Hes by (unfold es; by rewrite length_fmap, length_seq).
  wp_simpl. eapply wp_mono; [apply (fill_entries_spec rep); [done|done|by apply (law_ticks rep), (law_ticks rep)]|].
  intros entries s2 [Hrep2 ->]. fold es. wp_simpl.
  destruct (shuffle_permutation RAND_MAX rand seed N (S N) (Some <$> es) Hr) as (entries&Hsh&Hp);
    [by rewrite length_fmap, Hes|].
  apply Permutation_map_inv in Hp as (es'&->&Hp).
  apply wp_of_option. eexists. split; [exact Hsh|]. wp_simpl.
  assert (∀ e, e ∈ es' → ∃ i, (i < N)%nat ∧ e = test_entry RAND_MAX rand seed (now + ttl_seconds) i) as Hin.
  { intros e He. rewrite <-Hp in He. apply list_elem_of_fmap in He as (i&->&[_ Hi]%elem_of_seq).
    by exists i. }
  assert (length es' = N) as Hes' by (by rewrite <-Hp).
  eapply wp_mono.
  { apply wp_with_run, (passes_spec rep attempts 5 es' s2 []); [done|done| | |].
    - apply Forall_forall. intros e (i&_&->)%Hin. by apply test_entry_ok.
    - intros ->. by rewrite <-Hes' in HN.
    - intros x Hx. by apply not_elem_of_nil in Hx. }
  intros failures s3 [Hrun%passes_run (l&Hrep3&Hl&Hf&Hall&Hlast)]. wp_simpl. intros _.
  exists seed, (now + ttl_seconds), l, failures, es', s2.
  split; [by rewrite <-Hp|]. split; [done|]. split; [done|]. pose proof (law_keys _ _ Hrep3) as Hnd.
  split; [by rewrite (law_count _ _ Hrep3)|]. split; [done|]. split; [done|].
  split; [by intros e He%Hl%Hin|].
  split; [rewrite <-Hes'; by apply distinct_keys_length|]. split; [done|]. split.
  - eapply Forall_impl; [exact Hall|]. intros [j e] [Hj (x&Hx%list_elem_of_lookup_2&He)].
    rewrite Hes', HN in Hj. split; [done|]. destruct He as [?|[?|[?|[_ Hlen]]]]; [tauto..|].
    apply Hin in Hx as (i&Hi&->). exfalso. revert Hlen. cbn [entry_key key_length test_entry].
    assert (0 ≤ Z.of_nat i < LLONG_MAX) as Hll.
    { assert (KEY_COUNT < LLONG_MAX) by done. lia. }
    pose proof (szKey_length (Z.of_nat i) Hll). unfold SHMCACHE_MAX_KEY_SIZE. lia.
  - intros Hnone ->. specialize (Hlast Hnone). symmetry in Hlast. apply last_None in Hlast as ->.
    by rewrite <-Hes' in HN.
Qed.
End properties.
