(* ===== verification/IniAnnotation.v ===== *)
(** * Configuration items kept in the cache (src/shmcache_ini_annotation.c)

    The annotation CONFIG_GET of libfastcommon's INI reader: the value of an
    item is looked up in the cache, and a JSON array in it gives several.  The
    JSON parser is outside the source tree: class [JsonEnv]. *)
From S2P Require Import Prelude Types CLib OpWrapper Shmopt HentryOffset Invariant HashTable Recycle Lock CacheTable ShmCache ShmCacheSpec Init Config.
Local Open Scope Z_scope.
Local Open Scope shm_scope.

Class JsonEnv := {
  fc_decode_json_array : list ascii → option (list (list ascii));
  fc_init_json_context : nat → Z;
}.

Section IniAnnotation.
Context `{E : Env} `{I : IniEnv} `{J : JsonEnv} (attempts : nat) (my_pid : Z).

(** fc_strdup1: a copy, unless malloc fails *)
Definition fc_strdup1 (x : list ascii) : cmd (option (list ascii)) :=
  ok ← ext (λ n, malloc_ok n (Z.of_nat (length x) + 1));
  mret (if ok : bool then Some x else None).
(** the loop 74-80 *)
Fixpoint copy_elements (els : list (list ascii)) : cmd (list (list ascii)) :=
  match els with
  | [] => mret []
  | el :: els =>
    output ← fc_strdup1 el;
    match output with
    | None => mret []
    | Some output => outputs ← copy_elements els; mret (output :: outputs)
    end
  end.

(** the values of the item (60-96), from the options and the bytes found; [None]
    is NULL, which strdup of the empty text gives without memory *)
Definition item_values (options : Z) (data : list ascii) (max_values : Z) :
    cmd (list (option (list ascii))) :=
  if Z.land options SHMCACHE_SERIALIZER_LIST =? SHMCACHE_SERIALIZER_LIST then
    match fc_decode_json_array data with
    | Some els =>
      outputs ← copy_elements
        (if max_values <? Z.of_nat (length els) then take (Z.to_nat max_values) els else els);
      mret (Some <$> outputs)
    | None => output ← fc_strdup1 []; mret [output]
    end
  else
    output ← fc_strdup1 data;
    mret (match output with None => [] | Some output => [Some output] end).

(** the key (28-32): the value of the item, or its name *)
Definition item_key (item_name item_value : list ascii) : shmcache_key_info :=
  let key := if bool_decide (item_value = []) then item_name else item_value in
  Key_info key (Z.of_nat (length key)).

(** config_get (17-99): the values written to [pOutValue] *)
Definition config_get (item_name item_value : list ascii) (max_values : Z) :
    cmd (list (option (list ascii))) :=
  '(result, value) ← shmcache_get attempts (item_key item_name item_value);
  let options := match value with Some v => vr_options v | None => SHMCACHE_SERIALIZER_STRING end in
  data ← (if negb (result =? 0) then mret []
          else if Z.land options SHMCACHE_SERIALIZER_STRING =? 0 then mret []
          else
            value ← of_option value;
            p ← non_null (vr_data value);
            memcpy_from p (vr_length value));
  item_values options data max_values.

(** CONFIG_GET_init_annotation (113-147): the error number, and whether the
    annotation has its argument; annotation_destroy (101-111) *)
Context (sizeof_args : Z).
Definition init_annotation (config_filename : string) : cmd (Z * bool) :=
  ok ← ext (λ n, malloc_ok n sizeof_args);
  if negb ok then mret (ENOMEM, false)
  else
    result ← shmcache_init_from_file_ex attempts my_pid config_filename false true;
    if negb (result =? 0) then mret (result, false)
    else
      result ← ext fc_init_json_context;
      if negb (result =? 0) then mret (result, false) else mret (0, true).
Definition annotation_destroy (arg : bool) : cmd bool :=
  if arg then shmcache_destroy;; mret false else mret false.

(** ** The values found *)
Lemma copy_elements_spec els s :
  malloc_succeeds → wp (copy_elements els) (λ r s', r = els ∧ quiet s s') s.
Proof.
  intros Hms. revert s. induction els as [|el els IH]; intros s; cbn [copy_elements].
  { wp_simpl. split; [done|apply quiet_refl]. }
  unfold fc_strdup1. wp_simpl. apply wp_ext_quiet. intros s1 H1. wp_simpl. rewrite Hms. wp_simpl.
  eapply wp_mono; [apply IH|]. intros r s2 [-> H2]. wp_simpl. split; [done|]. by eapply quiet_trans.
Qed.
(** the values of options and bytes *)
Definition values_of (options : Z) (data : list ascii) (max_values : Z) : list (list ascii) :=
  if Z.land options SHMCACHE_SERIALIZER_LIST =? SHMCACHE_SERIALIZER_LIST then
    match fc_decode_json_array data with
    | Some els => if max_values <? Z.of_nat (length els) then take (Z.to_nat max_values) els else els
    | None => [[]]
    end
  else [data].
Lemma item_values_spec options data max_values s :
  malloc_succeeds →
  wp (item_values options data max_values) (λ r s', r = Some <$> values_of options data max_values ∧ quiet s s') s.
Proof.
  intros Hms. unfold item_values, values_of. destruct (_ =? SHMCACHE_SERIALIZER_LIST).
  - destruct (fc_decode_json_array data); wp_simpl.
    + eapply wp_mono; [by apply copy_elements_spec|]. intros r s1 [-> ?]. by wp_simpl.
    + unfold fc_strdup1. wp_simpl. apply wp_ext_quiet. intros s1 H1. wp_simpl. by rewrite Hms.
  - unfold fc_strdup1. wp_simpl. apply wp_ext_quiet. intros s1 H1. wp_simpl. by rewrite Hms.
Qed.
Lemma quiet_api s s' : quiet s s' → api_frame s s'.
Proof. intros H. by apply lock_frame_api, quiet_lock_frame. Qed.
End IniAnnotation.

(** ** Properties *)
Section properties.
Context `{E : Env} `{L : !EnvLaws E} `{J : JsonEnv}.
Implicit Types (l : list shmcache_hash_entry).

(** C39: CONFIG_GET, with enough memory: of the list the cache holds for the
    item's key it gives the elements of the JSON array, at most as many as there
    is room for, or one empty value when the JSON parser finds no array; of any
    other string the text; of bytes of a serializer, of an expired string that
    is no list and of a key that is not there one empty value.  An expired list
    is treated as empty text: it gives what the JSON parser makes of that. *)
Theorem config_get_correct attempts s l name value max_values :
  mutex_ok attempts → peaceful → malloc_succeeds → rep s l →
  wp (config_get attempts name value max_values) (λ r s', rep s' l ∧
    match find_key (key_data (item_key name value)) l with
    | None => r = [Some []]
    | Some rec => ∃ now, clock now ∧
        let v := entry_value rec in
        let readable := HT_ENTRY_IS_VALID (v_expires v) now &&
          negb (Z.land (v_options v) SHMCACHE_SERIALIZER_STRING =? 0) in
        r = Some <$> values_of (v_options v) (if readable then v_data v else []) max_values
    end) s.
Proof.
  intros Hm Hpc Hms Hrep. unfold config_get. wp_simpl.
  eapply wp_mono; [by apply (get_finds rep attempts s l)|].
  intros [r v] s1 [Hrep1 Ho]. unfold get_outcome in Ho. cbn iota beta.
  assert (∀ options data s2, rep s2 l → wp (item_values options data max_values)
    (λ r s', rep s' l ∧ r = Some <$> values_of options data max_values) s2) as Hend.
  { intros options data s2 Hrep2. eapply wp_mono; [by apply item_values_spec|].
    intros r' s' [-> Hq]. split; [|done]. eapply law_frame; [by apply quiet_api|done]. }
  destruct (find_key _ l) as [rec|].
  - destruct Ho as (now&vr&Hnow&(Hl&Hopt&_&p&Hp&Hin&Hd)&[= -> ->]).
    destruct (HT_ENTRY_IS_VALID _ now) eqn:Hv.
    + change (0 =? 0) with true. cbn [negb]. rewrite Hopt. destruct (_ =? 0) eqn:Hst.
      * wp_simpl. eapply wp_mono; [by apply Hend|]. intros r' s' [? ->]. split; [done|]. exists now.
        cbv zeta. by rewrite Hv.
      * wp_simpl. apply wp_of_option. exists vr. split; [done|]. rewrite Hp. wp_simpl.
        apply wp_non_null. rewrite Hl. eapply wp_run; [unfold memcpy_from; by rewrite Hin|]. rewrite Hd.
        eapply wp_mono; [by apply Hend|]. intros r' s' [? ->]. split; [done|]. exists now.
        cbv zeta. by rewrite Hv.
    + change (ETIMEDOUT =? 0) with false. cbn [negb]. wp_simpl. rewrite Hopt.
      eapply wp_mono; [by apply Hend|]. intros r' s' [? ->]. split; [done|]. exists now.
      cbv zeta. by rewrite Hv.
  - simplify_eq. change (ENOENT =? 0) with false. cbn [negb]. wp_simpl.
    eapply wp_mono; [by apply Hend|]. intros r' s' [? ->]. done.
Qed.
End properties.
