(* ===== verification/PhpShmCache.v ===== *)
(** * The PHP extension (src/php-shmcache/)

    The serializers of PHP values (serializer/), the methods of the class
    ShmCache and the table of contexts by configuration file
    (php_shmcache.c).  The Zend engine and the serializers it loads are outside
    the source tree: class [PhpEnv].  Messages to the log are left out; a method
    gets its parsed arguments, [None] when zend_parse_parameters fails. *)
From S2P Require Import Prelude Types CLib OpWrapper Shmopt HentryOffset Invariant HashTable Recycle Lock CacheTable ShmCache ShmCacheSpec.
Local Open Scope Z_scope.
Local Open Scope shm_scope.

(** ** Values: what ZEND_TYPE_OF tells apart; [O] stands for the rest *)
Inductive zval (O : Type) :=
| Zstring (s : list ascii)
| Zlong (n : Z)
| Zbool (b : bool)
| Znull
| Zother (x : O).
Arguments Zstring {O} s.
Arguments Zlong {O} n.
Arguments Zbool {O} b.
Arguments Znull {O}.
Arguments Zother {O} x.

Class PhpEnv (O : Type) := {
  (** dlopen(NULL), and dlsym of the four functions *)
  php_dlopen : bool;
  dlopen_errno : Z;
  php_msgpack_serialize : option (zval O → list ascii);
  php_msgpack_unserialize : option (list ascii → zval O);
  igbinary_serialize : option (zval O → Z * list ascii);
  igbinary_unserialize : option (list ascii → Z * zval O);
  (** of the engine itself *)
  php_var_serialize : zval O → list ascii;
  php_var_unserialize : list ascii → option (zval O);
}.

Section serializer.
Context {O : Type} `{P : PhpEnv O}.

(** ** The functions found (serializer/shmcache_serializer.c, 5-15) *)
Record php_functions := Php_functions {
  shmcache_serializers : Z;
  msgpack_serialize_func : option (zval O → list ascii);
  msgpack_unserialize_func : option (list ascii → zval O);
  igbinary_pack_func : option (zval O → Z * list ascii);
  igbinary_unpack_func : option (list ascii → Z * zval O);
}.
Definition initial_serializers : Z :=
  Z.lor (Z.lor (Z.lor (Z.lor SHMCACHE_SERIALIZER_STRING SHMCACHE_SERIALIZER_LIST)
    SHMCACHE_SERIALIZER_MAP) SHMCACHE_SERIALIZER_INTEGER) SHMCACHE_SERIALIZER_PHP.
Definition functions_initial : php_functions :=
  Php_functions initial_serializers None None None None.

(** shmcache_load_functions (25-53) *)
Definition shmcache_load_functions (f : php_functions) : Z * php_functions :=
  if negb php_dlopen then (if dlopen_errno =? 0 then EFAULT else dlopen_errno, f)
  else
    let m := shmcache_serializers f in
    let m := if bool_decide (is_Some php_msgpack_serialize) &&
                bool_decide (is_Some php_msgpack_unserialize)
             then Z.lor m SHMCACHE_SERIALIZER_MSGPACK else m in
    let m := if bool_decide (is_Some igbinary_serialize) && bool_decide (is_Some igbinary_unserialize)
             then Z.lor m SHMCACHE_SERIALIZER_IGBINARY else m in
    (0, Php_functions m php_msgpack_serialize php_msgpack_unserialize
          igbinary_serialize igbinary_unserialize).

(** shmcache_serializer_enabled (shmcache_serializer.h, 54-60) *)
Definition shmcache_serializer_enabled (f : php_functions) (serializer : Z) : bool :=
  if serializer =? SHMCACHE_SERIALIZER_STRING then true
  else negb (Z.land (shmcache_serializers f) serializer =? 0).

(** ** The serializers: a call through a NULL pointer is [None] *)
(** php.c, 11-19 *)
Definition shmcache_php_pack (pzval : zval O) : Z * list ascii := (0, php_var_serialize pzval).
(** php.c, 21-39 *)
Definition shmcache_php_unpack (content : list ascii) : Z * zval O :=
  match php_var_unserialize content with
  | Some rv => (0, rv)
  | None => (EINVAL, Zbool false)
  end.
(** msgpack.c, 3-7 *)
Definition shmcache_msgpack_pack (f : php_functions) (pzval : zval O) : option (Z * list ascii) :=
  pack ← msgpack_serialize_func f; Some (0, pack pzval).
(** msgpack.c, 9-14 *)
Definition shmcache_msgpack_unpack (f : php_functions) (content : list ascii) : option (Z * zval O) :=
  unpack ← msgpack_unserialize_func f; Some (0, unpack content).
(** igbinary.c, 3-15 *)
Definition shmcache_igbinary_pack (f : php_functions) (pzval : zval O) : option (Z * list ascii) :=
  pack ← igbinary_pack_func f;
  let '(ret, out) := pack pzval in
  Some (if ret =? 0 then (ret, out) else (ret, [])).
(** igbinary.c, 17-25 *)
Definition shmcache_igbinary_unpack (f : php_functions) (content : list ascii) : option (Z * zval O) :=
  unpack ← igbinary_unpack_func f; Some (unpack content).

(** shmcache_serialize (55-111): the result and [*output->value]; a size becomes
    an int *)
Definition with_data (value : shmcache_value_info) (data : list ascii) : shmcache_value_info :=
  Value_info data (to_int (Z.of_nat (length data))) (v_options value) (v_expires value).
Definition with_options (value : shmcache_value_info) (options : Z) : shmcache_value_info :=
  Value_info (v_data value) (v_length value) options (v_expires value).
(** the switch on the serializer of the object (77-110) *)
Definition pack_value (f : php_functions) (pzval : zval O) (value : shmcache_value_info) :
    option (Z * shmcache_value_info) :=
  let serializer := v_options value in
  if serializer =? SHMCACHE_SERIALIZER_IGBINARY then
    '(result, out) ← shmcache_igbinary_pack f pzval; Some (result, with_data value out)
  else if (serializer =? SHMCACHE_SERIALIZER_MSGPACK) || (serializer =? SHMCACHE_SERIALIZER_PHP) then
    '(result, out) ← (if serializer =? SHMCACHE_SERIALIZER_MSGPACK
                      then shmcache_msgpack_pack f pzval else Some (shmcache_php_pack pzval));
    Some (result, with_data value (if result =? 0 then out else []))
  else Some (EINVAL, with_data value []).
Definition shmcache_serialize (f : php_functions) (pzval : zval O) (value : shmcache_value_info) :
    option (Z * shmcache_value_info) :=
  match pzval with
  | Zstring s => Some (0, with_data (with_options value SHMCACHE_SERIALIZER_STRING) s)
  | Zlong n => Some (0, with_data (with_options value SHMCACHE_SERIALIZER_INTEGER) (sprintf_int64 n))
  | _ => pack_value f pzval value
  end.

(** shmcache_unserialize (128-159) *)
Definition sizeof_unserialize_buff : Z := 32.
Definition shmcache_unserialize (f : php_functions) (value : shmcache_value_info) :
    option (Z * zval O) :=
  if v_options value =? SHMCACHE_SERIALIZER_STRING then Some (0, Zstring (v_data value))
  else if v_options value =? SHMCACHE_SERIALIZER_INTEGER then
    let len := if v_length value <? sizeof_unserialize_buff then v_length value
               else sizeof_unserialize_buff - 1 in
    Some (0, Zlong (strtoll (c_string (take (Z.to_nat len) (v_data value) ++ [NUL]))).1)
  else if v_options value =? SHMCACHE_SERIALIZER_IGBINARY then
    shmcache_igbinary_unpack f (v_data value)
  else if v_options value =? SHMCACHE_SERIALIZER_MSGPACK then
    shmcache_msgpack_unpack f (v_data value)
  else if v_options value =? SHMCACHE_SERIALIZER_PHP then Some (shmcache_php_unpack (v_data value))
  else Some (EINVAL, Znull).
End serializer.
Arguments php_functions O : clear implicits.

(** ** The methods of ShmCache (php_shmcache.c) *)
Inductive php_result (O : Type) :=
| Return (v : zval O)
| Throw (message : string).
Arguments Return {O} v.
Arguments Throw {O} message.

(** the arrays the method stats builds *)
Inductive php_stat :=
| Slong (n : Z)
| Sdouble (num den : Z)
| Spercent (num den : Z)       (** "%.2f%%" of 100 num / den *)
| Sstring (s : string)
| Sarray (l : list (string * php_stat)).

(** the macros of the engine *)
Notation RETURN_FALSE := (mret (M := M shmcache_context) (Return (Zbool false))).
Notation RETURN_TRUE := (mret (M := M shmcache_context) (Return (Zbool true))).

Section methods.
Context `{E : Env} {O : Type} `{P : PhpEnv O} (attempts : nat).
(** what the module has loaded, and the member [serializer] of the object;
    the member [context] is the state *)
Context (f : php_functions O) (serializer : Z).

(** a key of [zend_size_t] bytes becomes one of [int] bytes *)
Definition php_key (key : list ascii) : shmcache_key_info :=
  Key_info key (to_int (Z.of_nat (length key))).

(** set (193-244), from the serialization on (226-242) *)
Definition set_serialized (key : list ascii) (val : zval O) (expires : Z) : cmd (php_result O) :=
  r ← of_option (shmcache_serialize f val (Value_info [] 0 serializer expires));
  let '(result, value) := r in
  if negb (result =? 0) then RETURN_FALSE
  else
    result ← shmcache_set_ex attempts (php_key key) value;
    if negb (result =? 0) then RETURN_FALSE else RETURN_TRUE.
Definition php_set (args : option (list ascii * zval O * Z)) : cmd (php_result O) :=
  match args with
  | None => RETURN_FALSE
  | Some (_, Zbool false, _) => mret (Throw "can't set value to false")
  | Some (key, val, ttl) =>
    now ← (if ttl =? SHMCACHE_NEVER_EXPIRED then mret 0 else ext time_NULL);
    set_serialized key val (HT_CALC_EXPIRES now ttl)
  end.

(** setExpires (249-284); [expires] becomes an int *)
Definition php_setExpires (args : option (list ascii * Z)) : cmd (php_result O) :=
  match args with
  | None => RETURN_FALSE
  | Some (key, expires) =>
    result ← shmcache_set_expires attempts (php_key key) (to_int expires);
    if result =? 0 then RETURN_TRUE
    else if result =? EINVAL then mret (Throw "invalid expires parameter")
    else RETURN_FALSE
  end.

(** setTTL (289-324); [ttl] becomes an int *)
Definition php_setTTL (args : option (list ascii * Z)) : cmd (php_result O) :=
  match args with
  | None => RETURN_FALSE
  | Some (key, ttl) =>
    result ← shmcache_set_ttl attempts (php_key key) (to_int ttl);
    if result =? 0 then RETURN_TRUE
    else if result =? EINVAL then mret (Throw "invalid ttl parameter")
    else RETURN_FALSE
  end.

(** incr (329-360) *)
Definition php_incr (args : option (list ascii * Z * Z)) : cmd (php_result O) :=
  match args with
  | None => RETURN_FALSE
  | Some (key, increment, ttl) =>
    '(result, new_value) ← shmcache_incr attempts (php_key key) increment (to_int ttl);
    if negb (result =? 0) then RETURN_FALSE
    else new_value ← of_option new_value; mret (Return (Zlong new_value))
  end.

(** the value a get refers to, in the segment *)
Definition fetch (value : value_ref) : cmd shmcache_value_info :=
  p ← non_null (vr_data value);
  data ← memcpy_from p (vr_length value);
  mret (Value_info data (vr_length value) (vr_options value) (vr_expires value)).

(** get (365-413) *)
Definition php_get (args : option (list ascii * bool)) : cmd (php_result O) :=
  match args with
  | None => RETURN_FALSE
  | Some (key, returnExpired) =>
    '(result, value) ← shmcache_get attempts (php_key key);
    if negb (result =? 0) && negb (returnExpired && (result =? ETIMEDOUT)) then RETURN_FALSE
    else
      value ← of_option value;
      if negb (shmcache_serializer_enabled f (vr_options value)) then
        mret (Throw ("php extension: " +:+ shmcache_get_serializer_label (vr_options value) +:+
                     " not enabled"))
      else
        value ← fetch value;
        r ← of_option (shmcache_unserialize f value);
        let '(result, rv) := r in
        if negb (result =? 0) then RETURN_FALSE else mret (Return rv)
  end.

(** getExpires (418-449) *)
Definition php_getExpires (args : option (list ascii * bool)) : cmd (php_result O) :=
  match args with
  | None => RETURN_FALSE
  | Some (key, returnExpired) =>
    '(result, value) ← shmcache_get attempts (php_key key);
    if negb (result =? 0) && negb (returnExpired && (result =? ETIMEDOUT)) then RETURN_FALSE
    else value ← of_option value; mret (Return (Zlong (vr_expires value)))
  end.

(** delete (454-480) *)
Definition php_delete (args : option (list ascii)) : cmd (php_result O) :=
  match args with
  | None => RETURN_FALSE
  | Some key =>
    result ← shmcache_delete attempts (php_key key);
    if negb (result =? 0) then RETURN_FALSE else RETURN_TRUE
  end.

(** stats (485-637) *)
Definition hashtable_rows (st : shmcache_stats) : list (string * php_stat) :=
  let shm := stats_shm st in
  [("max_keys", Slong (stats_max_key_count st)); ("current_keys", Slong (stats_count st));
   ("segment_size", Slong (stats_segment_size st));
   ("set.total", Slong (total (stats_set shm))); ("set.success", Slong (success (stats_set shm)));
   ("incr.total", Slong (total (stats_incr shm))); ("incr.success", Slong (success (stats_incr shm)));
   ("get.total", Slong (total (stats_get shm))); ("get.success", Slong (success (stats_get shm)));
   ("del.total", Slong (total (stats_del shm))); ("del.success", Slong (success (stats_del shm)));
   ("last_clear_time", Slong (last_clear_time shm));
   ("get.qps", Sdouble (hit_get_qps st).1 (hit_get_qps st).2);
   ("hit.ratio", if 0 <=? (hit_ratio st).1 then Spercent (hit_ratio st).1 (hit_ratio st).2
                 else Sstring "-");
   ("hit.last_seconds", Slong (hit_seconds st))].
Definition memory_rows (st : shmcache_stats) : list (string * php_stat) :=
  let u := stats_usage st in
  [("total", Slong (stats_memory_max st)); ("alloced", Slong (alloced u));
   ("used", Slong (stats_memory_used st)); ("free", Slong (stats_memory_max st - stats_memory_used st));
   ("used_detail", Sarray
     [("common", Slong (used_common u)); ("entry", Slong (used_entry u));
      ("key", Slong (used_key u)); ("value", Slong (used_value u))])].
Definition recycle_rows (st : shmcache_stats) : list (string * php_stat) :=
  let shm := stats_shm st in
  let k := recycle_key_stats shm in let v := recycle_striping_stats shm in
  [("ht_entry.total", Slong (clear_ht_entry_total shm));
   ("ht_entry.valid", Slong (clear_ht_entry_valid shm));
   ("by_key.total", Slong (recycle_total k)); ("by_key.success", Slong (recycle_success k));
   ("by_key.force", Slong (recycle_force k));
   ("by_value_striping.total", Slong (recycle_total v));
   ("by_value_striping.success", Slong (recycle_success v));
   ("by_value_striping.force", Slong (recycle_force v))].
Definition lock_rows (st : shmcache_stats) : list (string * php_stat) :=
  let l := stats_lock (stats_shm st) in
  [("total", Slong (lock_total l)); ("retry", Slong (lock_retry l));
   ("detect_deadlock", Slong (detect_deadlock l)); ("unlock_deadlock", Slong (unlock_deadlock l))].
Definition php_stats (args : option (option bool)) : cmd (php_result O + php_stat) :=
  match args with
  | None => mret (inl (Return (Zbool false)))
  | Some calc_hit_ratio =>
    st ← shmcache_stats_ex (default true calc_hit_ratio);
    mret (inr (Sarray [("hashtable", Sarray (hashtable_rows st)); ("memory", Sarray (memory_rows st));
                       ("recycle", Sarray (recycle_rows st)); ("lock", Sarray (lock_rows st))]))
  end.

(** clear (642-651) *)
Definition php_clear : cmd (php_result O) :=
  result ← shmcache_clear attempts; mret (Return (Zbool (result =? 0))).
End methods.

(** ** The contexts by configuration file (30-38 and 848-915), and the
    constructor (147-188) *)
Section contexts.
(** a context, and shmcache_init_from_file of one: [None] is a failure *)
Context {C : Type} (init_from_file : nat → string → option C) (allocated : nat → Z → bool).
(** sizeof(struct shmcache_context), which depends on the platform *)
Context (sizeof_shmcache_context : Z).

Record shmcache_context_array := Context_array {
  contexts : list (string * C);   (** the first [count] elements *)
  alloc : Z;
  calls : nat;                    (** the calls of malloc, strdup and init_from_file so far *)
}.
#[local] Instance eta_context_array : Settable shmcache_context_array := λ a,
  Context_array (contexts a) (alloc a) (calls a).
Definition context_array_initial : shmcache_context_array := Context_array [] 0 0.
Definition call {A} (g : nat → A) : M shmcache_context_array A := λ a,
  Some (g (calls a), a <| calls ::= S |>).

Fixpoint find_context (filename : string) (l : list (string * C)) : option C :=
  match l with
  | [] => None
  | (config_filename, context) :: l =>
    if bool_decide (filename = config_filename) then Some context else find_context filename l
  end.
Definition sizeof_context_by_file : Z := 16.

(** the char array [error_info] of 128 bytes: snprintf keeps what fits, and
    sprintf does not check *)
Definition error_size : nat := 128.
Definition snprintf_error (message : string) : string := String.substring 0 (error_size - 1) message.
Definition malloc_message (bytes : Z) : string :=
  snprintf_error ("malloc " +:+ String.string_of_list_ascii (sprintf_int64 bytes) +:+ " bytes fail").

(** room for one more (862-886): the message when there is none *)
Definition grow : M shmcache_context_array (option string) :=
  a ← get;
  if Z.of_nat (length (contexts a)) <? alloc a then mret None
  else
    let n := if alloc a =? 0 then 2 else alloc a * 2 in
    let bytes := to_int (sizeof_context_by_file * n) in
    ok ← call (λ k, allocated k bytes);
    if ok : bool then modify (λ a, a <| alloc := n |>);; mret None
    else mret (Some (malloc_message bytes)).

(** sprintf into [error_info] (903-904) *)
Definition init_fail_message (filename : string) : string :=
  "shmcache_init_from_file: " +:+ filename +:+ " fail".
Definition sprintf_error (message : string) : M shmcache_context_array string :=
  if (String.length message <? error_size)%nat then mret message else fault.

(** shmcache_get_context: the message or the context *)
Definition shmcache_get_context (filename : string) : M shmcache_context_array (string + C) :=
  a ← get;
  match find_context filename (contexts a) with
  | Some context => mret (inr context)
  | None =>
    full ← grow;
    match full with
    | Some message => mret (inl message)
    | None =>
      ok ← call (λ k, allocated k (Z.of_nat (String.length filename) + 1));
      if negb ok then mret (inl (snprintf_error ("strdup filename: " +:+ filename +:+ " fail")))
      else
        ok ← call (λ k, allocated k sizeof_shmcache_context);
        if negb ok then mret (inl (malloc_message (to_int sizeof_shmcache_context)))
        else
          context ← call (λ k, init_from_file k filename);
          match context with
          | None => message ← sprintf_error (init_fail_message filename); mret (inl message)
          | Some context =>
            a ← get;
            if Z.of_nat (length (contexts a)) <? alloc a then
              modify (λ a, a <| contexts ::= λ l, l ++ [(filename, context)] |>);;
              mret (inr context)
            else fault
          end
    end
  end.

(** an object of the class (18-28), without its zend_object: [None] is a NULL
    [context] *)
Record php_shmcache_t := Php_shmcache {
  obj_context : option C;
  obj_serializer : Z;
}.
(** __construct (147-188) on the object [i_obj]: the message of the exception
    thrown, if any, and the object afterwards *)
Definition php_construct {O} (f : php_functions O) (args : option (string * option Z))
    (i_obj : php_shmcache_t) : M shmcache_context_array (option string * php_shmcache_t) :=
  match args with
  | None => mret (Some "zend_parse_parameters fail", i_obj)
  | Some (config_filename, serializer) =>
    let serializer := to_int (default SHMCACHE_SERIALIZER_IGBINARY serializer) in
    if negb (shmcache_serializer_enabled f serializer) then
      mret (Some ("php extension: " +:+ shmcache_get_serializer_label serializer +:+ " not enabled"), i_obj)
    else
      r ← shmcache_get_context config_filename;
      mret (match r with
            | inl e => (Some e, Php_shmcache None (obj_serializer i_obj))
            | inr context => (None, Php_shmcache (Some context) serializer)
            end)
  end.

(** *** The array *)
Definition contexts_ok (a : shmcache_context_array) : Prop :=
  Z.of_nat (length (contexts a)) ≤ alloc a ∧ NoDup (contexts a).*1.

Lemma find_context_None filename l : find_context filename l = None ↔ filename ∉ l.*1.
Proof.
  induction l as [|[x c] l IH]; cbn [find_context fmap list_fmap fst].
  - split; [intros _; apply not_elem_of_nil|done].
  - rewrite not_elem_of_cons. case_bool_decide; naive_solver.
Qed.
Lemma find_context_elem filename l c : find_context filename l = Some c → c ∈ l.*2.
Proof.
  induction l as [|[x d] l IH]; cbn [find_context fmap list_fmap snd]; [done|].
  case_bool_decide; [intros [= ->]; left|right; by apply IH].
Qed.
(** a file that was opened stays open with its context *)
Lemma find_context_prefix filename l l' c :
  l `prefix_of` l' → find_context filename l = Some c → find_context filename l' = Some c.
Proof.
  intros [k ->]. induction l as [|[x d] l IH]; cbn [app find_context]; [done|].
  case_bool_decide; [done|apply IH].
Qed.
Lemma find_context_app filename l c :
  find_context filename l = None → find_context filename (l ++ [(filename, c)]) = Some c.
Proof.
  induction l as [|[x d] l IH]; cbn [app find_context]; intros H.
  - by rewrite bool_decide_eq_true_2.
  - case_bool_decide; [done|]. by apply IH.
Qed.
Lemma string_length_app (s t : string) :
  String.length (s +:+ t) = (String.length s + String.length t)%nat.
Proof. induction s as [|c s IH]; [done|]. exact (f_equal S IH). Qed.
Lemma grow_spec a : Z.of_nat (length (contexts a)) ≤ alloc a →
  wp grow (λ full a', contexts a' = contexts a ∧ alloc a ≤ alloc a' ∧
    (full = None → Z.of_nat (length (contexts a')) < alloc a')) a.
Proof.
  intros Ha. unfold grow. wp_simpl. destruct (Z.ltb_spec (Z.of_nat (length (contexts a))) (alloc a)); wp_simpl.
  { split_and!; [done|lia|done]. }
  eapply wp_run; [done|]. destruct (allocated _ _); wp_simpl; cbn.
  - split_and!; [done|..]; bool_lia.
  - split_and!; [done|lia|done].
Qed.
Lemma get_context_spec a filename :
  contexts_ok a → (String.length filename ≤ 97)%nat →
  wp (shmcache_get_context filename) (λ r a', contexts_ok a' ∧ contexts a `prefix_of` contexts a' ∧
    (∀ c, r = inr c → find_context filename (contexts a') = Some c) ∧
    (∀ c, find_context filename (contexts a) = Some c → r = inr c ∧ a' = a) ∧
    (∀ e, r = inl e → contexts a' = contexts a)) a.
Proof.
  intros [Ha Hnd] Hlen. unfold shmcache_get_context. wp_simpl.
  destruct (find_context filename (contexts a)) as [c|] eqn:Hf; wp_simpl.
  { split_and!; [done|done|by intros c' [= <-]|by intros c' [= <-]|done]. }
  assert (∀ a' e, contexts a' = contexts a → alloc a ≤ alloc a' →
    contexts_ok a' ∧ contexts a `prefix_of` contexts a' ∧
    (∀ c, @inl string C e = inr c → find_context filename (contexts a') = Some c) ∧
    (∀ c : C, None = Some c → @inl string C e = inr c ∧ a' = a) ∧
    (∀ e', @inl string C e = inl e' → contexts a' = contexts a)) as Hfail.
  { intros a' e Hc Hal. unfold contexts_ok. rewrite Hc. split_and!; try done. lia. }
  eapply wp_mono; [by apply grow_spec|]. intros [e|] a1 (H1&Hal&Hroom); [wp_simpl; by apply Hfail|].
  specialize (Hroom eq_refl). wp_simpl. eapply wp_run; [done|].
  destruct (allocated _ _); cbn [negb]; [|wp_simpl; by apply Hfail].
  wp_simpl. eapply wp_run; [done|]. destruct (allocated _ _); cbn [negb]; [|wp_simpl; by apply Hfail].
  wp_simpl. eapply wp_run; [done|]. destruct (init_from_file _ _) as [c|].
  - wp_simpl. cbn. rewrite (proj2 (Z.ltb_lt _ _)) by done. wp_simpl. unfold contexts_ok. cbn. rewrite H1.
    split_and!.
    + rewrite H1, length_app in *. cbn. lia.
    + rewrite fmap_app. apply NoDup_app. split_and!; [done| |apply NoDup_singleton].
      intros x Hx Hx'. apply list_elem_of_singleton in Hx' as ->. by apply find_context_None in Hf.
    + by apply prefix_app_r.
    + intros c' [= <-]. by apply find_context_app.
    + done.
    + done.
  - wp_simpl. unfold sprintf_error, init_fail_message.
    rewrite (proj2 (Nat.ltb_lt _ _)); [wp_simpl; by apply Hfail|].
    rewrite !string_length_app. unfold error_size. cbn. lia.
Qed.
(** a constructor that does not throw leaves an object with the context of the
    file, and with a serializer that is enabled *)
Lemma construct_spec {O} (f : php_functions O) a filename serializer i_obj :
  contexts_ok a → (String.length filename ≤ 97)%nat →
  wp (php_construct f (Some (filename, serializer)) i_obj) (λ '(e, o) a', contexts_ok a' ∧
    contexts a `prefix_of` contexts a' ∧
    (∀ c, obj_context o = Some c → c ∈ (contexts a').*2 ∨ o = i_obj) ∧
    (e = None → ∃ c, obj_context o = Some c ∧ find_context filename (contexts a') = Some c ∧
       obj_serializer o = to_int (default SHMCACHE_SERIALIZER_IGBINARY serializer) ∧
       shmcache_serializer_enabled f (obj_serializer o) = true ∧
       (∀ c', find_context filename (contexts a) = Some c' → c = c'))) a.
Proof.
  intros Ha Hl. unfold php_construct. set (ser := to_int _).
  destruct (shmcache_serializer_enabled f ser) eqn:He; cbn [negb]; wp_simpl.
  2: { split_and!; [done|done|auto|done]. }
  eapply wp_mono; [by apply get_context_spec|]. intros r a' (Hok&Hp&Hc&Hold&_). wp_simpl.
  destruct r as [e|c].
  { split_and!; [done|done|done|done]. }
  split_and!; [done|done| |].
  - intros c' [= <-]. left. eapply find_context_elem. by apply Hc.
  - intros _. exists c. split_and!; [done|by apply Hc|done|done|]. intros c' Hf.
    destruct (Hold c' Hf) as [[= <-] _]. done.
Qed.
End contexts.
Arguments php_shmcache_t C : clear implicits.
Arguments Php_shmcache {C} _ _.
Arguments obj_context {C} _.
Arguments obj_serializer {C} _.

(** ** What is serialized can be read back *)
Section codecs.
Context {O : Type} `{P : PhpEnv O}.
Implicit Types (f : php_functions O) (val : zval O).

(** the module before and after it looked for the functions *)
Definition functions_ok f : Prop :=
  f = functions_initial ∨ f = (shmcache_load_functions functions_initial).2.

Lemma enabled_functions f : functions_ok f →
  (shmcache_serializer_enabled f SHMCACHE_SERIALIZER_IGBINARY = true →
     is_Some (igbinary_pack_func f) ∧ is_Some (igbinary_unpack_func f)) ∧
  (shmcache_serializer_enabled f SHMCACHE_SERIALIZER_MSGPACK = true →
     is_Some (msgpack_serialize_func f) ∧ is_Some (msgpack_unserialize_func f)) ∧
  shmcache_serializer_enabled f SHMCACHE_SERIALIZER_INTEGER = true.
Proof.
  intros [->| ->]; [done|]. unfold shmcache_load_functions.
  destruct php_dlopen, php_msgpack_serialize, php_msgpack_unserialize,
    igbinary_serialize, igbinary_unserialize; (split_and!; [intros He|intros He|done]); cbn;
    first [split; eexists; reflexivity | by vm_compute in He].
Qed.

(** the text of a 64-bit integer fits the buffer it is read through *)
Lemma integer_unserialize f n x : LLONG_MIN ≤ n ≤ LLONG_MAX →
  let v := with_data (Value_info [] 0 SHMCACHE_SERIALIZER_INTEGER x) (sprintf_int64 n) in
  value_ok v ∧ shmcache_unserialize f v = Some (0, Zlong n).
Proof.
  intros Hn v. destruct (sprintf_int64_spec n Hn) as [Hl Hp].
  assert (v_length v = Z.of_nat (length (sprintf_int64 n))) as Hv.
  { unfold v. cbn [v_length with_data]. apply wrap_signed_small; lia. }
  split; [exact Hv|]. unfold shmcache_unserialize. rewrite Hv.
  change (v_options v) with SHMCACHE_SERIALIZER_INTEGER.
  change (SHMCACHE_SERIALIZER_INTEGER =? SHMCACHE_SERIALIZER_STRING) with false.
  change (SHMCACHE_SERIALIZER_INTEGER =? SHMCACHE_SERIALIZER_INTEGER) with true. cbn iota.
  rewrite (proj2 (Z.ltb_lt _ _)) by (unfold sizeof_unserialize_buff; lia).
  rewrite Nat2Z.id. unfold v, with_data. cbn [v_data]. rewrite take_ge by lia. by rewrite Hp.
Qed.

(** the serializer, which is not code of this repository, reads back what it
    writes for [val], and that fits a value *)
Definition codec_ok f (serializer : Z) val : Prop :=
  (serializer = SHMCACHE_SERIALIZER_IGBINARY → ∀ pack unpack data, igbinary_pack_func f = Some pack →
     igbinary_unpack_func f = Some unpack → pack val = (0, data) →
     Z.of_nat (length data) < 2 ^ 31 ∧ unpack data = (0, val)) ∧
  (serializer = SHMCACHE_SERIALIZER_MSGPACK → ∀ pack unpack, msgpack_serialize_func f = Some pack →
     msgpack_unserialize_func f = Some unpack →
     Z.of_nat (length (pack val)) < 2 ^ 31 ∧ unpack (pack val) = val) ∧
  (serializer = SHMCACHE_SERIALIZER_PHP → Z.of_nat (length (php_var_serialize val)) < 2 ^ 31 ∧
     php_var_unserialize (php_var_serialize val) = Some val).
Definition storable f (serializer : Z) val : Prop :=
  match val with
  | Zstring s => Z.of_nat (length s) < 2 ^ 31
  | Zlong n => LLONG_MIN ≤ n ≤ LLONG_MAX
  | _ => codec_ok f serializer val
  end.

(** a value with its data *)
Lemma with_data_ok value data :
  Z.of_nat (length data) < 2 ^ 31 → value_ok (with_data value data).
Proof.
  intros H. apply wrap_signed_small; [lia|]. change (2 ^ (32 - 1)) with (2 ^ 31).
  cbn [v_data with_data]. lia.
Qed.

(** what is stored and how it is read *)
Definition reads_back f val (x : Z) (v : shmcache_value_info) : Prop :=
  value_ok v ∧ v_expires v = x ∧ shmcache_serializer_enabled f (v_options v) = true ∧
  shmcache_unserialize f v = Some (0, val).

Lemma pack_value_reads f serializer val x v :
  functions_ok f → shmcache_serializer_enabled f serializer = true → codec_ok f serializer val →
  pack_value f val (Value_info [] 0 serializer x) = Some (0, v) → reads_back f val x v.
Proof.
  intros Hf He (Hci&Hcm&Hcp) Hs. destruct (enabled_functions f Hf) as (Hig&Hms&_).
  unfold pack_value in Hs. cbn [v_options] in Hs. unfold reads_back, shmcache_unserialize.
  destruct (Z.eqb_spec serializer SHMCACHE_SERIALIZER_IGBINARY) as [->|_].
  { destruct (Hig He) as [[pack Hp] [unpack Hu]]. unfold shmcache_igbinary_pack in Hs. rewrite Hp in Hs.
    cbn in Hs. destruct (pack val) as [ret out] eqn:Hpv. destruct (Z.eqb_spec ret 0) as [->|]; simplify_eq/=.
    destruct (Hci eq_refl pack unpack out Hp Hu Hpv) as [Hl Hun].
    split_and!; [by apply with_data_ok|done|done|].
    unfold shmcache_igbinary_unpack. rewrite Hu. cbn. by rewrite Hun. }
  destruct (Z.eqb_spec serializer SHMCACHE_SERIALIZER_MSGPACK) as [->|_]; cbn [orb] in Hs.
  { destruct (Hms He) as [[pack Hp] [unpack Hu]]. unfold shmcache_msgpack_pack in Hs. rewrite Hp in Hs.
    cbn in Hs. simplify_eq/=. destruct (Hcm eq_refl pack unpack Hp Hu) as [Hl Hun].
    split_and!; [by apply with_data_ok|done|done|].
    unfold shmcache_msgpack_unpack. rewrite Hu. cbn. by rewrite Hun. }
  destruct (Z.eqb_spec serializer SHMCACHE_SERIALIZER_PHP) as [->|_]; [|done].
  cbn in Hs. simplify_eq/=. destruct (Hcp eq_refl) as [Hl Hun].
  split_and!; [by apply with_data_ok|done|done|]. unfold shmcache_php_unpack. cbn. by rewrite Hun.
Qed.
Lemma serialize_reads f serializer val x v :
  functions_ok f → shmcache_serializer_enabled f serializer = true → storable f serializer val →
  shmcache_serialize f val (Value_info [] 0 serializer x) = Some (0, v) → reads_back f val x v.
Proof.
  intros Hf He Hst Hs.
  destruct val as [s|n| | |]; cbn [shmcache_serialize storable] in *; [..|by eapply pack_value_reads|
    by eapply pack_value_reads|by eapply pack_value_reads].
  - injection Hs as <-. split_and!; [by apply with_data_ok|done|done|done].
  - injection Hs as <-. destruct (integer_unserialize f n x Hst) as [Hv Hu].
    destruct (enabled_functions f Hf) as (_&_&Hi). by split_and!.
Qed.
End codecs.

(** ** The methods on a represented cache *)
Section method_specs.
Context `{E : Env} {O : Type} `{P : PhpEnv O} (attempts : nat).
Context (Rep : shmcache_context → list shmcache_hash_entry → Prop) `{!CacheLaws Rep}.
Implicit Types (f : php_functions O) (val : zval O) (l : list shmcache_hash_entry).

Lemma wp_fetch s vr v (Q : shmcache_value_info → _ → Prop) :
  refers s vr v → Q v s → wp (fetch vr) Q s.
Proof.
  intros (Hl&Ho&He&p&Hp&Hin&Hd) HQ. unfold fetch. rewrite Hp. wp_simpl. apply wp_non_null. wp_simpl.
  rewrite Hl. eapply wp_run; [unfold memcpy_from; by rewrite Hin|]. rewrite Hd, Ho, He.
  wp_simpl. by destruct v.
Qed.

Lemma php_key_ok (key : list ascii) : Z.of_nat (length key) < 2 ^ 31 → key_ok (php_key key).
Proof.
  intros H. apply wrap_signed_small; [lia|]. change (2 ^ (32 - 1)) with (2 ^ 31). cbn [key_data php_key]. lia.
Qed.

(** nothing the module enables is called through NULL *)
Lemma unserialize_total f v :
  functions_ok f → shmcache_serializer_enabled f (v_options v) = true → is_Some (shmcache_unserialize f v).
Proof.
  intros Hf He. destruct (enabled_functions f Hf) as (Hig&Hms&_). unfold shmcache_unserialize.
  repeat case_match; eauto.
  - destruct (Z.eqb_spec (v_options v) SHMCACHE_SERIALIZER_IGBINARY) as [Heq|]; [|done].
    rewrite Heq in He. destruct (Hig He) as [_ [u Hu]]. unfold shmcache_igbinary_unpack. rewrite Hu. by eexists.
  - destruct (Z.eqb_spec (v_options v) SHMCACHE_SERIALIZER_MSGPACK) as [Heq|]; [|done].
    rewrite Heq in He. destruct (Hms He) as [_ [u Hu]]. unfold shmcache_msgpack_unpack. rewrite Hu. by eexists.
Qed.
Lemma serialize_total f val v :
  functions_ok f → shmcache_serializer_enabled f (v_options v) = true → is_Some (shmcache_serialize f val v).
Proof.
  intros Hf He. destruct (enabled_functions f Hf) as (Hig&Hms&_).
  assert (is_Some (pack_value f val v)) as Hp; [|by destruct val; cbn; eauto].
  unfold pack_value. destruct (Z.eqb_spec (v_options v) SHMCACHE_SERIALIZER_IGBINARY) as [Heq|].
  { rewrite Heq in He. destruct (Hig He) as [[p Hpk] _]. unfold shmcache_igbinary_pack. rewrite Hpk. cbn.
    destruct (p val) as [ret out]. destruct (ret =? 0); by eexists. }
  destruct (Z.eqb_spec (v_options v) SHMCACHE_SERIALIZER_MSGPACK) as [Heq|]; cbn [orb].
  { rewrite Heq in He. destruct (Hms He) as [[p Hpk] _]. unfold shmcache_msgpack_pack. rewrite Hpk. by eexists. }
  destruct (_ =? SHMCACHE_SERIALIZER_PHP); by eexists.
Qed.

(** what get returns for a record *)
Definition php_reads f (returnExpired : bool) (v : shmcache_value_info) (g : php_result O) : Prop :=
  ∃ now, clock now ∧
    if negb (HT_ENTRY_IS_VALID (v_expires v) now) && negb returnExpired then g = Return (Zbool false)
    else if shmcache_serializer_enabled f (v_options v) then
      ∃ r rv, shmcache_unserialize f v = Some (r, rv) ∧
        g = Return (if r =? 0 then rv else Zbool false)
    else ∃ message, g = Throw message.
Lemma php_get_spec f s l (key : list ascii) returnExpired :
  functions_ok f → peaceful → mutex_ok attempts → Rep s l → Z.of_nat (length key) < 2 ^ 31 →
  wp (php_get attempts f (Some (key, returnExpired))) (λ g s', Rep s' l ∧
    match find_key key l with
    | None => g = Return (Zbool false)
    | Some rec => php_reads f returnExpired (entry_value rec) g
    end) s.
Proof.
  intros Hf Hpc Hm Hrep Hk. unfold php_get. wp_simpl.
  eapply wp_mono; [by apply (get_finds Rep attempts s l); [..|by apply php_key_ok]|].
  intros [r v] s1 [Hrep1 Ho]. unfold get_outcome in Ho. cbn [key_data php_key] in Ho.
  destruct (find_key key l) as [rec|].
  2: { simplify_eq. change (ENOENT =? 0) with false. change (ENOENT =? ETIMEDOUT) with false.
       rewrite andb_false_r. cbn [negb andb]. by wp_simpl. }
  destruct Ho as (now&vr&Hnow&Href&[= -> ->]). unfold php_reads. pose proof Href as (_&Hopt&_).
  set (valid := HT_ENTRY_IS_VALID _ now).
  assert (negb ((if valid then 0 else ETIMEDOUT) =? 0) &&
    negb (returnExpired && ((if valid then 0 else ETIMEDOUT) =? ETIMEDOUT)) =
    negb valid && negb returnExpired) as -> by by destruct valid, returnExpired.
  destruct (negb valid && negb returnExpired) eqn:Hv; wp_simpl.
  { split; [done|]. exists now. fold valid. by rewrite Hv. }
  apply wp_of_option. exists vr. split; [done|]. wp_simpl. rewrite Hopt.
  destruct (shmcache_serializer_enabled f _) eqn:He; cbn [negb]; wp_simpl.
  2: { split; [done|]. exists now. fold valid. rewrite Hv. split; [done|]. by eexists. }
  eapply wp_fetch; [done|]. wp_simpl. destruct (unserialize_total f _ Hf He) as [[r rv] Hu].
  apply wp_of_option. exists (r, rv). split; [done|].
  destruct (Z.eqb_spec r 0) as [->|Hr]; cbn [negb]; wp_simpl; (split; [done|]); exists now; fold valid;
    rewrite Hv; (split; [done|]); eexists _, _; (split; [done|]); [done|by rewrite (proj2 (Z.eqb_neq _ _) Hr)].
Qed.

(** what set stores when it returns true *)
Definition set_stored f val (key : list ascii) (expires : Z) l (r : php_result O) : Prop :=
  r = Return (Zbool true) → ∃ v, find_key key l = Some (new_record (php_key key) v) ∧
    reads_back f val expires v.
Lemma set_serialized_spec f serializer s l (key : list ascii) val expires :
  functions_ok f → shmcache_serializer_enabled f serializer = true → storable f serializer val →
  mutex_ok attempts → Rep s l → Z.of_nat (length key) < 2 ^ 31 →
  wp (set_serialized attempts f serializer key val expires)
    (λ r s', ∃ l', Rep s' l' ∧ set_stored f val key expires l' r) s.
Proof.
  intros Hf He Hst Hm Hrep Hk. unfold set_serialized, set_stored. wp_simpl. apply wp_of_option.
  destruct (serialize_total f val (Value_info [] 0 serializer expires) Hf He) as [[r v] Hs].
  exists (r, v). split; [done|]. destruct (Z.eqb_spec r 0) as [->|Hr]; cbn [negb]; wp_simpl.
  2: { exists l. by split. }
  pose proof (serialize_reads f serializer val _ v Hf He Hst Hs) as Hrb.
  eapply wp_mono; [apply (set_stores Rep attempts s l); [done|done|by apply php_key_ok|apply Hrb]|].
  intros r s2 (l2&Hrep2&Hfind). destruct (Z.eqb_spec r 0) as [->|Hr]; cbn [negb]; wp_simpl.
  - exists l2. split; [done|]. intros _. exists v. split; [by apply Hfind|done].
  - exists l2. by split.
Qed.
Lemma php_set_spec f serializer s l (key : list ascii) val ttl :
  functions_ok f → shmcache_serializer_enabled f serializer = true → storable f serializer val →
  mutex_ok attempts → Rep s l → Z.of_nat (length key) < 2 ^ 31 →
  wp (php_set attempts f serializer (Some (key, val, ttl))) (λ r s', ∃ l' now, Rep s' l' ∧
    (ttl = SHMCACHE_NEVER_EXPIRED ∨ ∃ n, now = time_NULL n) ∧
    set_stored f val key (HT_CALC_EXPIRES now ttl) l' r) s.
Proof.
  intros Hf He Hst Hm Hrep Hk.
  assert (val = Zbool false ∨ php_set attempts f serializer (Some (key, val, ttl)) =
    (now ← (if ttl =? SHMCACHE_NEVER_EXPIRED then mret 0 else ext time_NULL);
     set_serialized attempts f serializer key val (HT_CALC_EXPIRES now ttl))) as [->| ->].
  { destruct val as [| |[]| |]; auto. }
  { exists (Throw "can't set value to false"), s. split; [done|].
    exists l, (time_NULL 0). split_and!; [done|right; by eexists|done]. }
  wp_simpl. destruct (Z.eqb_spec ttl SHMCACHE_NEVER_EXPIRED) as [Ht|Ht]; wp_simpl.
  - eapply wp_mono; [by apply (set_serialized_spec f serializer s l)|]. intros r s' (l'&?&?). exists l', 0. auto.
  - apply wp_ext. eapply wp_mono; [apply (set_serialized_spec f serializer _ l); [done..|by apply (law_ticks Rep)|done]|].
    intros r s' (l'&?&?). exists l', (time_NULL (ticks s)). split_and!; [done|right; by eexists|done].
Qed.
(** get after a set that returned true *)
Lemma stored_reads f val (key : list ascii) x l returnExpired r g :
  set_stored f val key x l r → r = Return (Zbool true) →
  match find_key key l with
  | None => g = Return (Zbool false)
  | Some rec => php_reads f returnExpired (entry_value rec) g
  end →
  ∃ now, clock now ∧ g = Return (if HT_ENTRY_IS_VALID x now || returnExpired then val else Zbool false).
Proof.
  intros Hr -> Hg. destruct (Hr eq_refl) as (v&Hfind&(_&Hx&Hen&Hu)).
  assert (entry_value (new_record (php_key key) v) = v) as Hev by by destruct v.
  rewrite Hfind, Hev in Hg. destruct Hg as (now&Hnow&Hg). exists now. split; [done|].
  rewrite Hx, Hen in Hg.
  destruct (HT_ENTRY_IS_VALID _ now), returnExpired; cbn in Hg |- *; try done;
    destruct Hg as (r&rv&Hrv&->); rewrite Hu in Hrv; by simplify_eq.
Qed.
End method_specs.

(** ** Properties *)
Section properties.
Context `{E : Env} `{L : !EnvLaws E} {O : Type} `{P : PhpEnv O}.

(** no serializer is called through a NULL pointer: when the constructor
    accepted the serializer of the object, every value can be serialized or is
    refused with an error number, and every stored value whose serializer is
    enabled can be read or is refused. *)
Theorem php_never_null (f : php_functions O) (serializer : Z) (val : zval O) (v : shmcache_value_info) :
  functions_ok f →
  (shmcache_serializer_enabled f serializer = true →
     is_Some (shmcache_serialize f val (with_options v serializer))) ∧
  (shmcache_serializer_enabled f (v_options v) = true → is_Some (shmcache_unserialize f v)).
Proof.
  intros Hf. split; intros He; [by apply serialize_total|by apply unserialize_total].
Qed.

(** a PHP value that ShmCache::set stored - a string, an integer, or any
    value its serializer reads back - is the very value ShmCache::get returns
    next, until it expires; then get returns false, or still the value when
    asked for expired ones. *)
Theorem php_get_after_set attempts (f : php_functions O) serializer s l (key : list ascii) val ttl
    returnExpired :
  functions_ok f → shmcache_serializer_enabled f serializer = true → storable f serializer val →
  mutex_ok attempts → peaceful → rep s l → Z.of_nat (length key) < 2 ^ 31 →
  wp (r ← php_set attempts f serializer (Some (key, val, ttl));
      g ← php_get attempts f (Some (key, returnExpired)); mret (r, g))
    (λ '(r, g) s', r = Return (Zbool true) → ∃ t now,
       (ttl = SHMCACHE_NEVER_EXPIRED ∨ ∃ n, t = time_NULL n) ∧ clock now ∧
       g = Return (if HT_ENTRY_IS_VALID (HT_CALC_EXPIRES t ttl) now || returnExpired
                   then val else Zbool false)) s.
Proof.
  intros Hf He Hst Hm Hpc Hrep Hk. wp_simpl.
  eapply wp_mono; [by apply (php_set_spec attempts rep f serializer s l)|].
  intros r s1 (l1&t&Hrep1&Ht&Hr). wp_simpl.
  eapply wp_mono; [by apply (php_get_spec attempts rep f s1 l1)|].
  intros g s2 [_ Hg]. wp_simpl. intros Htrue.
  destruct (stored_reads f val key _ l1 returnExpired r g Hr Htrue Hg) as (now&Hnow&->). eauto.
Qed.
End properties.

(** the table of contexts never overflows its array, keeps one context per
    configuration file and never drops or replaces one: a file already opened
    gives the same context again and changes nothing, and a failure adds none. *)
Theorem contexts_correct {C} (init_from_file : nat → string → option C) allocated size a filename :
  contexts_ok a → (String.length filename ≤ 97)%nat →
  wp (shmcache_get_context init_from_file allocated size filename) (λ r a', contexts_ok a' ∧
    contexts a `prefix_of` contexts a' ∧
    (∀ c, r = inr c → find_context filename (contexts a') = Some c) ∧
    (∀ c, find_context filename (contexts a) = Some c → r = inr c ∧ a' = a) ∧
    (∀ e, r = inl e → contexts a' = contexts a)) a.
Proof. intros. by apply get_context_spec. Qed.

(** the message of a failed initialisation is written without a bound: with a
    file name of 98 characters it no longer fits [error_info] *)
Lemma long_filename_overflows {C} size filename :
  (98 ≤ String.length filename)%nat →
  shmcache_get_context (C := C) (λ _ _, None) (λ _ _, true) size filename context_array_initial = None.
Proof.
  intros Hl. unfold shmcache_get_context. cbn. unfold sprintf_error, init_fail_message.
  rewrite (proj2 (Nat.ltb_ge _ _)); [done|]. rewrite !string_length_app. unfold error_size. cbn. lia.
Qed.
