(* ===== verification/PhpObjects.v ===== *)
(** * The class ShmCache and its objects (src/php-shmcache/php_shmcache.c)

    What the module registers with the Zend engine, and the objects of a PHP
    process: they are made, constructed, called and destroyed, and share the
    contexts of the configuration files.  The engine itself, its class table
    and its object store are outside the source tree: an object is a handle
    here.  PHP 7 is taken where the source depends on the version. *)
From S2P Require Import Prelude Types CLib OpWrapper Shmopt HentryOffset Invariant HashTable Recycle Lock CacheTable ShmCache ShmCacheSpec PhpShmCache.
Local Open Scope Z_scope.
Local Open Scope shm_scope.

(** ** The class *)
(** ZEND_BEGIN_ARG_INFO_EX: how many arguments are required, and the names *)
Record php_arginfo := Arginfo {
  required_num_args : nat;
  arg_names : list string;
}.
Definition arginfo___construct : php_arginfo := Arginfo 1 ["config_filename"].
Definition arginfo_set : php_arginfo := Arginfo 3 ["key"; "value"; "ttl"].
Definition arginfo_setExpires : php_arginfo := Arginfo 2 ["key"; "expires"].
Definition arginfo_setTTL : php_arginfo := Arginfo 2 ["key"; "ttl"].
Definition arginfo_incr : php_arginfo := Arginfo 3 ["key"; "increment"; "ttl"].
Definition arginfo_get : php_arginfo := Arginfo 1 ["key"; "returnExpired"].
Definition arginfo_getExpires : php_arginfo := Arginfo 1 ["key"; "returnExpired"].
Definition arginfo_delete : php_arginfo := Arginfo 1 ["key"].
Definition arginfo_stats : php_arginfo := Arginfo 0 [].
Definition arginfo_clear : php_arginfo := Arginfo 0 [].
Definition shmcache_class_methods : list (string * php_arginfo) :=
  [("__construct", arginfo___construct); ("set", arginfo_set); ("setExpires", arginfo_setExpires);
   ("setTTL", arginfo_setTTL); ("incr", arginfo_incr); ("get", arginfo_get);
   ("getExpires", arginfo_getExpires); ("delete", arginfo_delete); ("stats", arginfo_stats);
   ("clear", arginfo_clear)].

(** the type specifiers each method gives zend_parse_parameters; clear does not
    call it *)
Definition parse_specs : list (string * string) :=
  [("__construct", "s|l"); ("set", "szl"); ("setExpires", "sl"); ("setTTL", "sl"); ("incr", "sll");
   ("get", "s|b"); ("getExpires", "s|b"); ("delete", "s"); ("stats", "|b"); ("clear", "")].
(** the letters in front of the bar are required, all others optional *)
Fixpoint spec_counts (spec : list ascii) : nat * nat :=
  match spec with
  | [] => (0, 0)%nat
  | c :: spec =>
    let '(required, all) := spec_counts spec in
    if code c =? 124 then (0, all)%nat else (S required, S all)
  end.

Section module.
Context {O : Type} `{P : PhpEnv O}.
(** a class of the engine, its class table, and the class Exception *)
Context {Cls : Type} (find_class : string → option Cls) (zend_exception_get_default : Cls) (HAVE_SPL : bool).

(** php_shmcache_get_exception_base (813-846): the base class, and
    [spl_ce_RuntimeException] afterwards *)
Definition php_shmcache_get_exception_base (root : bool) (spl_ce_RuntimeException : option Cls) :
    option Cls * option Cls :=
  if HAVE_SPL && negb root then
    match spl_ce_RuntimeException with
    | None =>
      match find_class "runtimeexception" with
      | Some pce => (Some pce, Some pce)
      | None => (None, None)
      end
    | Some _ => (spl_ce_RuntimeException, spl_ce_RuntimeException)
    end
  else (Some zend_exception_get_default, spl_ce_RuntimeException).

(** what INIT_CLASS_ENTRY, zend_register_internal_class_ex and
    zend_declare_class_constant_long say of a class *)
Record php_class := Php_class {
  class_name : string;
  class_parent : option Cls;
  class_methods : list (string * php_arginfo);
  class_constants : list (string * Z);
}.
Record php_module := Php_module {
  shmcache_ce : php_class;
  shmcache_exception_ce : php_class;
  can_clone : bool;     (** [shmcache_object_handlers.clone_obj] is not NULL *)
  module_functions : php_functions O;
}.
(** PHP_MINIT (714-757): the result, the module and [spl_ce_RuntimeException];
    the result of loading the functions is not looked at *)
Definition shmcache_constants : list (string * Z) :=
  [("MAX_KEY_SIZE", SHMCACHE_MAX_KEY_SIZE); ("NEVER_EXPIRED", SHMCACHE_NEVER_EXPIRED);
   ("SERIALIZER_IGBINARY", SHMCACHE_SERIALIZER_IGBINARY);
   ("SERIALIZER_MSGPACK", SHMCACHE_SERIALIZER_MSGPACK);
   ("SERIALIZER_PHP", SHMCACHE_SERIALIZER_PHP)].
Definition php_minit (spl_ce_RuntimeException : option Cls) : Z * (php_module * option Cls) :=
  let '(parent, spl) := php_shmcache_get_exception_base false spl_ce_RuntimeException in
  (0, (Php_module
         (Php_class "ShmCache" None shmcache_class_methods shmcache_constants)
         (Php_class "ShmCacheException" parent [] [])
         false (shmcache_load_functions functions_initial).2,
       spl)).
End module.

(** the version: "%d.%d.%d" (796-798 and 778-780), and the module entry's (86) *)
Definition SHMCACHE_MAJOR_VERSION : Z := 1.
Definition SHMCACHE_MINOR_VERSION : Z := 0.
Definition SHMCACHE_PATCH_VERSION : Z := 6.
Definition int_text (z : Z) : string := String.string_of_list_ascii (sprintf_int64 z).
Definition version_text : string :=
  int_text SHMCACHE_MAJOR_VERSION +:+ "." +:+ int_text SHMCACHE_MINOR_VERSION +:+ "." +:+
  int_text SHMCACHE_PATCH_VERSION.
Definition sizeof_szVersion : nat := 16.
(** shmcache_version (791-801): sprintf into [szVersion] *)
Definition shmcache_version : option string :=
  if (String.length version_text <? sizeof_szVersion)%nat then Some version_text else None.
(** PHP_MINFO (775-785): sprintf into [info] *)
Definition sizeof_info : nat := 64.
Definition php_minfo : option string :=
  let info := "shmcache v" +:+ version_text +:+ " support" in
  if (String.length info <? sizeof_info)%nat then Some info else None.
Definition shmcache_module_version : string := "1.0.5".

(** ** The objects of a process *)
(** a call of a method, with what zend_parse_parameters makes of its arguments *)
Inductive php_call (O : Type) :=
| Call_set (args : option (list ascii * zval O * Z))
| Call_setExpires (args : option (list ascii * Z))
| Call_setTTL (args : option (list ascii * Z))
| Call_incr (args : option (list ascii * Z * Z))
| Call_get (args : option (list ascii * bool))
| Call_getExpires (args : option (list ascii * bool))
| Call_delete (args : option (list ascii))
| Call_stats (args : option (option bool))
| Call_clear.
Arguments Call_set {O} args.
Arguments Call_setExpires {O} args.
Arguments Call_setTTL {O} args.
Arguments Call_incr {O} args.
Arguments Call_get {O} args.
Arguments Call_getExpires {O} args.
Arguments Call_delete {O} args.
Arguments Call_stats {O} args.
Arguments Call_clear {O}.

Section calls.
Context `{E : Env} {O : Type} `{P : PhpEnv O} (attempts : nat).
Context (f : php_functions O) (serializer : Z).

Definition php_reply : Type := php_result O + php_stat.
Definition reply (m : cmd (php_result O)) : cmd php_reply := r ← m; mret (inl r).
Definition run_method (call : php_call O) : cmd php_reply :=
  match call with
  | Call_set args => reply (php_set attempts f serializer args)
  | Call_setExpires args => reply (php_setExpires attempts args)
  | Call_setTTL args => reply (php_setTTL attempts args)
  | Call_incr args => reply (php_incr attempts args)
  | Call_get args => reply (php_get attempts f args)
  | Call_getExpires args => reply (php_getExpires attempts args)
  | Call_delete args => reply (php_delete attempts args)
  | Call_stats args => php_stats args
  | Call_clear => reply (php_clear attempts)
  end.
(** what a method returns before it dereferences the context *)
Definition before_context (call : php_call O) : option php_reply :=
  match call with
  | Call_set None | Call_setExpires None | Call_setTTL None | Call_incr None | Call_get None
  | Call_getExpires None | Call_delete None | Call_stats None => Some (inl (Return (Zbool false)))
  | Call_set (Some (_, Zbool false, _)) => Some (inl (Throw "can't set value to false"))
  | Call_set (Some (_, val, _)) =>
    r ← shmcache_serialize f val (Value_info [] 0 serializer 0);
    if negb (r.1 =? 0) then Some (inl (Return (Zbool false))) else None
  | _ => None
  end.
End calls.
Arguments php_reply O : clear implicits.

Section process.
Context `{E : Env} {O : Type} `{P : PhpEnv O} (attempts : nat).
Context {C : Type} `{!EqDecision C} (init_from_file : nat → string → option C).
Context (allocated : nat → Z → bool) (sizeof_shmcache_context : Z).

(** a PHP process: what the module loaded, the contexts by file, the objects by
    their handles, and what each context maps *)
Record php_process := Php_process {
  functions : php_functions O;
  context_array : shmcache_context_array (C := C);
  objects : gmap nat (php_shmcache_t C);
  caches : C → shmcache_context;
}.
#[local] Instance eta_process : Settable php_process := λ p,
  Php_process (functions p) (context_array p) (objects p) (caches p).

Definition set_cache (c : C) (s : shmcache_context) (caches : C → shmcache_context) : C → shmcache_context :=
  λ c', if decide (c' = c) then s else caches c'.

Lemma set_cache_same c s caches : set_cache c s caches c = s.
Proof. unfold set_cache. by rewrite decide_True. Qed.

(** php_shmcache_new (129-140): the memory of the object is zeroed *)
Definition php_shmcache_new : M php_process nat :=
  p ← get;
  let h := fresh (dom (objects p)) in
  modify (λ p, p <| objects ::= <[h := Php_shmcache None 0]> |>);;
  mret h.
(** php_shmcache_destroy (102-107): the context stays open *)
Definition php_shmcache_destroy (h : nat) : M php_process unit :=
  modify (λ p, p <| objects ::= delete h |>).
Definition php_shmcache_construct (h : nat) (args : option (string * option Z)) :
    M php_process (option string) :=
  p ← get;
  i_obj ← of_option (objects p !! h);
  '(e, i_obj) ← zoom context_array (λ a p, p <| context_array := a |>)
    (php_construct init_from_file allocated sizeof_shmcache_context (functions p) args i_obj);
  modify (λ p, p <| objects ::= <[h := i_obj]> |>);;
  mret e.
(** the expression new ShmCache(...): the handle, and the exception *)
Definition new_ShmCache (args : option (string * option Z)) : M php_process (nat * option string) :=
  h ← php_shmcache_new;
  e ← php_shmcache_construct h args;
  mret (h, e).
(** a method call on an object; no method looks whether [context] is NULL *)
Definition call_method (h : nat) (call : php_call O) : M php_process (php_reply O) :=
  p ← get;
  i_obj ← of_option (objects p !! h);
  match obj_context i_obj with
  | Some c =>
    zoom (λ p, caches p c) (λ s p, p <| caches ::= set_cache c s |>)
      (run_method attempts (functions p) (obj_serializer i_obj) call)
  | None => of_option (before_context (functions p) (obj_serializer i_obj) call)
  end.

(** what may happen in a process, with file names that fit [error_info] *)
Definition fits_error_info (args : option (string * option Z)) : Prop :=
  match args with Some (filename, _) => (String.length filename ≤ 97)%nat | None => True end.
Inductive php_step : php_process → php_process → Prop :=
| step_new p h p' : php_shmcache_new p = Some (h, p') → php_step p p'
| step_construct h args p e p' : fits_error_info args →
    php_shmcache_construct h args p = Some (e, p') → php_step p p'
| step_call h call p r p' : call_method h call p = Some (r, p') → php_step p p'
| step_destroy h p r p' : php_shmcache_destroy h p = Some (r, p') → php_step p p'.

(** *** Every context an object has is one of the array *)
Definition process_ok (p : php_process) : Prop :=
  contexts_ok (context_array p) ∧
  map_Forall (λ _ o, ∀ c, obj_context o = Some c → c ∈ (contexts (context_array p)).*2) (objects p).
(** what a step leaves: contexts are added, never dropped or replaced *)
Definition process_grows (p p' : php_process) : Prop :=
  functions p' = functions p ∧ contexts (context_array p) `prefix_of` contexts (context_array p').
#[local] Instance process_grows_po : PreOrder process_grows.
Proof. split; [by intros p|]. intros p1 p2 p3 [H1 ?] [H2 ?]. split; [congruence|by etrans]. Qed.

Lemma process_ok_insert p h o :
  process_ok p → (∀ c, obj_context o = Some c → c ∈ (contexts (context_array p)).*2) →
  process_ok (p <| objects ::= <[h := o]> |>).
Proof. intros [Ha Ho] Hc. split; [done|]. by apply map_Forall_insert_2. Qed.
Lemma process_ok_array p a :
  process_ok p → contexts_ok a → contexts (context_array p) `prefix_of` contexts a →
  process_ok (p <| context_array := a |>).
Proof.
  intros [_ Ho] Ha [l Hl]. split; [done|]. intros h o Hh c Hc. specialize (Ho h o Hh c Hc). cbn.
  rewrite Hl, fmap_app. by apply elem_of_app; left.
Qed.

Lemma new_spec p : process_ok p → wp php_shmcache_new (λ h p', process_ok p' ∧ process_grows p p' ∧
  objects p !! h = None ∧ objects p' = <[h := Php_shmcache None 0]> (objects p) ∧
  context_array p' = context_array p ∧ caches p' = caches p) p.
Proof.
  intros Hp. unfold php_shmcache_new. wp_simpl. split; [by apply process_ok_insert|].
  split; [by split|]. split_and!; [|done..].
  apply not_elem_of_dom, is_fresh.
Qed.
(** the constructor gives the object the context of the file: the one the
    file has already, if any *)
Lemma object_construct_spec p h o filename serializer :
  process_ok p → (String.length filename ≤ 97)%nat → objects p !! h = Some o →
  wp (php_shmcache_construct h (Some (filename, serializer))) (λ e p', process_ok p' ∧
    process_grows p p' ∧ caches p' = caches p ∧ (∀ h', h' ≠ h → objects p' !! h' = objects p !! h') ∧
    (e = None → ∃ c ser, objects p' !! h = Some (Php_shmcache (Some c) ser) ∧
       find_context filename (contexts (context_array p')) = Some c ∧
       ser = to_int (default SHMCACHE_SERIALIZER_IGBINARY serializer) ∧
       shmcache_serializer_enabled (functions p) ser = true ∧
       (∀ c', find_context filename (contexts (context_array p)) = Some c' → c = c'))) p.
Proof.
  intros Hp Hl Ho. unfold php_shmcache_construct. wp_simpl. apply wp_of_option. exists o. split; [done|].
  wp_simpl. pose proof Hp as [Ha Hobj]. eapply wp_mono; [by apply construct_spec|].
  intros [e o'] a' (Ha'&Hpre&Hc&He). wp_simpl. split; [|split; [done|split; [done|split]]].
  - apply process_ok_insert; [by apply process_ok_array|]. cbn. intros c Hco.
    destruct (Hc c Hco) as [?|Heq]; [done|]. subst o'. specialize (Hobj h o Ho c Hco).
    destruct Hpre as [l ->]. rewrite fmap_app. by apply elem_of_app; left.
  - intros h' Hne. by apply lookup_insert_ne.
  - intros Hnone. destruct (He Hnone) as (c&Hco&Hf&Hser&Hen&Hold). exists c, (obj_serializer o').
    split_and!; [|done|done|done|done]. cbn. rewrite lookup_insert_eq. destruct o'. cbn in *. by subst.
Qed.
Lemma call_grows p h call r p' : process_ok p → call_method h call p = Some (r, p') →
  process_ok p' ∧ process_grows p p' ∧ objects p' = objects p.
Proof.
  intros Hp (q&p1&[= -> ->]&(o&p2&[Ho ->]%run_of_option&H)%run_bind)%run_bind.
  destruct (obj_context o) as [c|].
  - unfold zoom in H. destruct (run_method _ _ _ _ _) as [[r1 s1]|]; [|done]. by simplify_eq.
  - by apply run_of_option in H as [_ ->].
Qed.
Lemma step_grows p p' : process_ok p → php_step p p' → process_ok p' ∧ process_grows p p'.
Proof.
  intros Hp Hstep. destruct Hstep as
    [p h p' Hrun|h [[filename ser]|] p e p' Hl Hrun|h call p r p' Hrun|h p [] p' Hrun].
  - by destruct (wp_inv _ _ _ _ _ (new_spec _ Hp) Hrun) as (?&?&_).
  - pose proof (run_bind _ _ _ _ Hrun) as (q&p1&[= <- <-]&(o&p2&[Ho _]%run_of_option&_)%run_bind).
    by destruct (wp_inv _ _ _ _ _ (object_construct_spec _ _ _ _ _ Hp Hl Ho) Hrun) as (?&?&_).
  - apply run_bind in Hrun as (q&p1&[= <- <-]&(o&p2&[Ho ->]%run_of_option&H)%run_bind).
    apply run_bind in H as ([e1 o1]&p3&[= _ <- <-]&(u&p4&[= _ <-]&[= _ <-])%run_bind). split; [|done].
    apply process_ok_insert; [done|]. destruct Hp as [_ Hobj]. by apply Hobj with h.
  - by destruct (call_grows _ _ _ _ _ Hp Hrun) as (?&?&_).
  - injection Hrun as <-. split; [|done]. destruct Hp as [Ha Ho]. split; [done|].
    by apply map_Forall_delete.
Qed.
Lemma steps_grow p p' : process_ok p → rtc php_step p p' → process_ok p' ∧ process_grows p p'.
Proof.
  intros Hp Hsteps. revert Hp. induction Hsteps as [|p p1 p2 Hstep _ IH]; intros Hp; [done|].
  destruct (step_grows p p1 Hp Hstep) as [Hp1 ?]. destruct (IH Hp1) as [? ?]. split; [done|by etrans].
Qed.

(** *** Calls *)
Lemma call_method_spec p h o c call Q :
  objects p !! h = Some o → obj_context o = Some c →
  wp (run_method attempts (functions p) (obj_serializer o) call) Q (caches p c) →
  wp (call_method h call) (λ r p', ∃ s', Q r s' ∧ p' = p <| caches ::= set_cache c s' |>) p.
Proof.
  intros Ho Hc H. unfold call_method. wp_simpl. apply wp_of_option. exists o. split; [done|]. rewrite Hc.
  apply wp_zoom. eapply wp_mono; [exact H|]. intros r s' HQ. by exists s'.
Qed.
Lemma wp_reply (m : cmd (php_result O)) (Q : php_reply O → _ → Prop) s :
  wp m (λ r, Q (inl r)) s → wp (reply m) Q s.
Proof. intros H. unfold reply. wp_simpl. eapply wp_mono; [exact H|]. intros r s' ?. by wp_simpl. Qed.

Lemma call_reply_spec p h o c call m Q :
  objects p !! h = Some o → obj_context o = Some c →
  run_method attempts (functions p) (obj_serializer o) call = reply m → wp m Q (caches p c) →
  wp (call_method h call) (λ r p', ∃ r' s', r = inl r' ∧ Q r' s' ∧ p' = p <| caches ::= set_cache c s' |>) p.
Proof.
  intros Ho Hc Hcall H.
  eapply wp_mono; [apply (call_method_spec p h o c call (λ r s', ∃ r', r = inl r' ∧ Q r' s') Ho Hc)|].
  { rewrite Hcall. apply wp_reply. eapply wp_mono; [exact H|]. eauto. }
  intros r p' (s'&(r'&?&?)&?). eauto 6.
Qed.

(** a new object *)
Lemma new_object_spec p filename serializer :
  process_ok p → (String.length filename ≤ 97)%nat →
  wp (new_ShmCache (Some (filename, serializer))) (λ '(h, e) p', process_ok p' ∧ process_grows p p' ∧
    caches p' = caches p ∧ objects p !! h = None ∧ (∀ h', h' ≠ h → objects p' !! h' = objects p !! h') ∧
    (e = None → ∃ c ser, objects p' !! h = Some (Php_shmcache (Some c) ser) ∧
       find_context filename (contexts (context_array p')) = Some c ∧
       ser = to_int (default SHMCACHE_SERIALIZER_IGBINARY serializer) ∧
       shmcache_serializer_enabled (functions p) ser = true ∧
       (∀ c', find_context filename (contexts (context_array p)) = Some c' → c = c'))) p.
Proof.
  intros Hp Hl. unfold new_ShmCache. wp_simpl. eapply wp_mono; [by apply new_spec|].
  intros h p1 (Hp1&Hg1&Hh&Ho1&Ha1&Hc1). wp_simpl.
  eapply wp_mono; [apply (object_construct_spec p1 h (Php_shmcache None 0)); [done|done|]|].
  { rewrite Ho1. apply lookup_insert_eq. }
  intros e p2 (Hp2&Hg2&Hc2&Hoth&He). wp_simpl.
  split; [done|]. split; [by etrans|]. split; [congruence|]. split; [done|]. split.
  - intros h' Hne. rewrite Hoth by done. rewrite Ho1. by apply lookup_insert_ne.
  - intros Hn. destruct (He Hn) as (c&ser&H1&H2&H3&H4&H5). exists c, ser. destruct Hg1 as [Hf1 _].
    rewrite Ha1 in H5. rewrite Hf1 in H4. auto.
Qed.
End process.

(** ** Properties *)
(** the reflection data of every method requires what the method requires, and
    names every argument it takes, but for the optional ones of __construct and
    stats *)
Lemma arginfo_matches :
  Forall2 (λ '(name, info) '(name', spec),
      name = name' ∧ required_num_args info = (spec_counts (String.list_ascii_of_string spec)).1 ∧
      (length (arg_names info) = (spec_counts (String.list_ascii_of_string spec)).2 ∨
       (name = "__construct" ∨ name = "stats") ∧
       S (length (arg_names info)) = (spec_counts (String.list_ascii_of_string spec)).2))
    shmcache_class_methods parse_specs.
Proof. repeat (apply Forall2_cons; split; [by (split_and!; [..|first [by left|right; split; [auto|]]])|]). by apply Forall2_nil. Qed.
(** the texts of the version fit their buffers; the module entry says another one *)
Lemma version_fits : shmcache_version = Some "1.0.6" ∧ php_minfo = Some "shmcache v1.0.6 support" ∧
  shmcache_version ≠ Some shmcache_module_version.
Proof. by vm_compute. Qed.

Section properties.
Context `{E : Env} `{L : !EnvLaws E} {O : Type} `{P : PhpEnv O}.

Lemma serialize_expires (f : php_functions O) val serializer x y :
  fst <$> shmcache_serialize f val (Value_info [] 0 serializer x) =
  fst <$> shmcache_serialize f val (Value_info [] 0 serializer y).
Proof.
  assert (fst <$> pack_value f val (Value_info [] 0 serializer x) =
          fst <$> pack_value f val (Value_info [] 0 serializer y)) as H; [|by destruct val].
  unfold pack_value. cbn [v_options]. destruct (serializer =? SHMCACHE_SERIALIZER_IGBINARY).
  { by destruct (shmcache_igbinary_pack f val) as [[]|]. }
  destruct (_ || _); [|done].
  by destruct (if serializer =? SHMCACHE_SERIALIZER_MSGPACK then _ else _) as [[]|].
Qed.
(** what a method returns without its context it returns on every cache, and
    leaves the cache as it is *)
Lemma before_context_correct attempts (f : php_functions O) serializer call r s :
  before_context f serializer call = Some r →
  wp (run_method attempts f serializer call) (λ r' s', r' = r ∧ api_frame s s') s.
Proof.
  intros Hb.
  assert (∀ g, run_method attempts f serializer call = reply (mret g) → r = inl g →
    wp (run_method attempts f serializer call) (λ r' s', r' = r ∧ api_frame s s') s) as Hret.
  { intros g -> ->. apply wp_ret. by split. }
  destruct call as [[[[key val] ttl]|]|[]|[]|[]|[]|[]|[]|[]|]; cbn [before_context] in Hb;
    try discriminate Hb; try (injection Hb as <-; by eapply Hret).
  assert (val = Zbool false ∨ (fst <$> shmcache_serialize f val (Value_info [] 0 serializer 0)) ≫=
    (λ r, if negb (r =? 0) then Some (inl (Return (Zbool false))) else None) = Some r ∧
    php_set attempts f serializer (Some (key, val, ttl)) =
    (now ← (if ttl =? SHMCACHE_NEVER_EXPIRED then mret 0 else ext time_NULL);
     set_serialized attempts f serializer key val (HT_CALC_EXPIRES now ttl))) as [->|[Hs Hset]].
  { destruct val as [| |[]| |]; auto; right; (split; [|done]);
      cbn [mbind option_bind] in Hb; by destruct (shmcache_serialize _ _ _). }
  { injection Hb as <-. by eapply Hret. }
  cbn [run_method]. rewrite Hset.
  assert (∀ x s1, api_frame s s1 → wp (set_serialized attempts f serializer key val x)
    (λ r' s', inl r' = r ∧ api_frame s s') s1) as Hend.
  { intros x s1 Hf. unfold set_serialized. wp_simpl.
    pose proof (serialize_expires f val serializer 0 x) as Hx. rewrite Hx in Hs.
    destruct (shmcache_serialize f val (Value_info [] 0 serializer x)) as [[r1 v]|]; [|done].
    cbn in Hs. apply wp_of_option. eexists. split; [done|]. wp_simpl.
    destruct (negb (r1 =? 0)); [|done]. injection Hs as <-. by wp_simpl. }
  apply wp_reply. wp_simpl. destruct (ttl =? SHMCACHE_NEVER_EXPIRED); [wp_simpl; by apply Hend|].
  apply wp_ext, Hend, api_frame_ticks.
Qed.

Context {C : Type} `{!EqDecision C} (init_from_file : nat → string → option C).
Context (allocated : nat → Z → bool) (sizeof_shmcache_context : Z).

(** a method called on an object whose constructor did not run, or threw, is a
    NULL dereference unless its arguments are refused first *)
Lemma unconstructed_object_faults attempts (p : php_process (O := O) (C := C)) h serializer call :
  objects p !! h = Some (Php_shmcache None serializer) →
  before_context (functions p) serializer call = None → call_method attempts h call p = None.
Proof. intros Ho Hb. unfold call_method, mbind, M_bind. cbn. unfold of_option. rewrite Ho. cbn. by rewrite Hb. Qed.

(** one context per file for the life of the process: whatever happens between
    two constructions from one file, both objects get the same context, and the
    contexts of all objects stay in the array *)
Theorem php_contexts_shared attempts (p p1 p2 p3 : php_process (O := O) (C := C)) h1 h2 filename s1 s2 :
  process_ok p → (String.length filename ≤ 97)%nat →
  php_shmcache_construct init_from_file allocated sizeof_shmcache_context h1 (Some (filename, s1)) p =
    Some (None, p1) →
  rtc (php_step attempts init_from_file allocated sizeof_shmcache_context) p1 p2 →
  php_shmcache_construct init_from_file allocated sizeof_shmcache_context h2 (Some (filename, s2)) p2 =
    Some (None, p3) →
  process_ok p3 ∧ ∃ c, obj_context <$> objects p1 !! h1 = Some (Some c) ∧
    obj_context <$> objects p3 !! h2 = Some (Some c).
Proof.
  intros Hp Hl Hrun1 Hsteps Hrun2.
  pose proof (run_bind _ _ _ _ Hrun1) as (q&q1&[= <- <-]&(o1&q2&[Ho1 _]%run_of_option&_)%run_bind).
  pose proof (run_bind _ _ _ _ Hrun2) as (q&q1&[= <- <-]&(o2&q3&[Ho2 _]%run_of_option&_)%run_bind).
  destruct (wp_inv _ _ _ _ _ (object_construct_spec init_from_file allocated sizeof_shmcache_context
    p h1 o1 filename s1 Hp Hl Ho1) Hrun1) as (Hp1&_&_&_&H1).
  destruct (steps_grow attempts init_from_file allocated sizeof_shmcache_context p1 p2 Hp1 Hsteps) as [Hp2 [_ Hpre]].
  destruct (wp_inv _ _ _ _ _ (object_construct_spec init_from_file allocated sizeof_shmcache_context
    p2 h2 o2 filename s2 Hp2 Hl Ho2) Hrun2) as (Hp3&_&_&_&H2).
  destruct (H1 eq_refl) as (c&ser1&Hc1&Hfind&_), (H2 eq_refl) as (c2&ser2&Hc2&_&_&_&Hsame).
  split; [done|]. exists c. rewrite Hc1, Hc2. split; [done|].
  rewrite (Hsame c); [done|]. by eapply find_context_prefix.
Qed.

(** C22: two objects made from one configuration file see the same cache: a PHP
    value that set stored through one - a string, an integer, or any value its
    serializer reads back - is the very value get returns next through the
    other, until it expires; then get returns false, or still the value when
    asked for expired ones. *)
Theorem php_objects_share attempts (p : php_process (O := O) (C := C)) filename s1 s2
    (key : list ascii) val ttl returnExpired :
  process_ok p → functions_ok (functions p) → (String.length filename ≤ 97)%nat →
  (∀ c, ∃ l, rep (caches p c) l) →
  storable (functions p) (to_int (default SHMCACHE_SERIALIZER_IGBINARY s1)) val →
  mutex_ok attempts → peaceful → Z.of_nat (length key) < 2 ^ 31 →
  wp ('(a, e1) ← new_ShmCache init_from_file allocated sizeof_shmcache_context (Some (filename, s1));
      '(b, e2) ← new_ShmCache init_from_file allocated sizeof_shmcache_context (Some (filename, s2));
      match e1, e2 with
      | None, None =>
        r ← call_method attempts a (Call_set (Some (key, val, ttl)));
        g ← call_method attempts b (Call_get (Some (key, returnExpired)));
        mret (Some (r, g))
      | _, _ => mret None
      end)
    (λ res _, ∀ g, res = Some (inl (Return (Zbool true)), g) → ∃ t now,
       (ttl = SHMCACHE_NEVER_EXPIRED ∨ ∃ n, t = time_NULL n) ∧ clock now ∧
       g = inl (Return (if HT_ENTRY_IS_VALID (HT_CALC_EXPIRES t ttl) now || returnExpired
                        then val else Zbool false))) p.
Proof.
  intros Hp Hf Hl Hcaches Hst Hm Hpc Hk. wp_simpl.
  eapply wp_mono; [by apply new_object_spec|]. intros [a e1] p1 (Hp1&[Hf1 _]&Hc1&_&_&H1). wp_simpl.
  eapply wp_mono; [by apply new_object_spec|]. intros [b e2] p2 (Hp2&[Hf2 _]&Hc2&Hb&Hoth&H2). wp_simpl.
  destruct e1, e2; try (by apply wp_ret).
  destruct (H1 eq_refl) as (c&ser&Ha&Hfind&->&Hen&_), (H2 eq_refl) as (c2&ser2&Hob&_&_&_&Hsame).
  rewrite (Hsame c Hfind) in *. clear H1 H2 Hsame.
  assert (objects p2 !! a = Some (Php_shmcache (Some c) (to_int (default SHMCACHE_SERIALIZER_IGBINARY s1)))) as Hoa.
  { rewrite Hoth; [done|]. intros ->. by rewrite Hb in Ha. }
  destruct (Hcaches c) as [l Hrep]. rewrite <-Hc1, <-Hc2 in Hrep. rewrite <-Hf1, <-Hf2 in *. wp_simpl.
  eapply wp_mono.
  { eapply call_reply_spec; [exact Hoa|done|done|]. by apply (php_set_spec attempts rep _ _ _ l). }
  intros ? p3 (r&s3&->&(l3&t&Hrep3&Ht&Hr)&Hp3). wp_simpl.
  assert (caches p3 c = s3) as Hs3 by (rewrite Hp3; apply set_cache_same).
  assert (objects p3 = objects p2 ∧ functions p3 = functions p2) as [Ho3 Hf3] by by rewrite Hp3.
  rewrite <-Ho3 in Hob. rewrite <-Hf3 in *.
  eapply wp_mono.
  { eapply (call_reply_spec _ _ b); [exact Hob|done|done|]. 
    rewrite Hs3. by apply (php_get_spec attempts rep _ _ l3). }
  intros ? p4 (g&s4&->&[_ Hg]&_). wp_simpl. intros g' [= -> <-].
  destruct (stored_reads (functions p3) val key _ l3 returnExpired _ g Hr eq_refl Hg) as (now&Hnow&->).
  eauto 6.
Qed.
End properties.
