(* ===== verification/JavaShmCache.v ===== *)
(** * The Java binding (src/java/jni/org_csource_shmcache_ShmCache.c)

    The native methods of org.csource.shmcache.ShmCache: the handler is the
    address of the context, which is the state here, and 0 is NULL.  A Java
    string is given by its UTF-8 bytes.  What the virtual machine looks up is
    class [JavaEnv]. *)
From S2P Require Import Prelude Types CLib OpWrapper Shmopt HentryOffset Invariant HashTable Recycle Lock CacheTable ShmCache ShmCacheSpec Init Config.
Local Open Scope Z_scope.
Local Open Scope shm_scope.

Class JavaEnv := {
  strerror : Z → string;
  find_value_class : bool;
  find_value_constructor : bool;
}.

(** the value of a native method, or the exception it left pending (5-13) *)
Inductive java_result (A : Type) :=
| Jreturn (a : A)
| Jthrow (message : string).
Arguments Jreturn {A} a.
Arguments Jthrow {A} message.

(** class ShmCache.Value: expires in milliseconds *)
Record java_value := Java_value {
  jv_value : list ascii;
  jv_options : Z;
  jv_expires : Z;
}.

Section JavaShmCache.
Context `{E : Env} `{I : IniEnv} `{J : JavaEnv} (attempts : nat) (my_pid : Z).
(** sizeof(struct shmcache_context), which depends on the platform, and the
    address malloc returns *)
Context (sizeof_shmcache_context address : Z).

Definition java_key (key : list ascii) : shmcache_key_info :=
  Key_info key (Z.of_nat (length key)).
(** the guard every method begins with *)
Definition with_handler {A} (handler : Z) (m : cmd (java_result A)) : cmd (java_result A) :=
  if handler =? 0 then mret (Jthrow "empty handler") else m.
(** the error number of a result as an exception *)
Definition throw_error (result : Z) : cmd (java_result unit) :=
  if negb (result =? 0) then mret (Jthrow (strerror result)) else mret (Jreturn tt).

(** doInit (15-39) *)
Definition doInit (config_filename : string) : cmd (java_result Z) :=
  ok ← ext (λ n, malloc_ok n sizeof_shmcache_context);
  if negb ok then mret (Jthrow "out of memory")
  else
    result ← shmcache_init_from_file_ex attempts my_pid config_filename true true;
    mret (Jreturn (if result =? 0 then address else 0)).

(** doDestroy (41-56) *)
Definition doDestroy (handler : Z) : cmd (java_result unit) :=
  with_handler handler (shmcache_destroy;; mret (Jreturn tt)).

(** doSetVO (58-102) *)
Definition doSetVO (handler : Z) (key : list ascii) (vo : java_value) : cmd (java_result unit) :=
  with_handler handler
    (result ← shmcache_set_ex attempts (java_key key)
       (Value_info (jv_value vo) (Z.of_nat (length (jv_value vo))) (jv_options vo)
          (Z.quot (jv_expires vo) 1000));
     throw_error result).

(** doSet (104-137) *)
Definition doSet (handler : Z) (key value : list ascii) (ttl : Z) : cmd (java_result unit) :=
  with_handler handler
    (result ← shmcache_set attempts (java_key key) value (Z.of_nat (length value)) ttl;
     throw_error result).

(** doIncr (139-167) *)
Definition doIncr (handler : Z) (key : list ascii) (increment ttl : Z) : cmd (java_result Z) :=
  with_handler handler
    ('(result, new_value) ← shmcache_incr attempts (java_key key) increment ttl;
     if negb (result =? 0) then mret (Jthrow (strerror result))
     else mret (Jreturn (default 0 new_value))).

(** the bytes of a value become a Java array *)
Definition java_bytes (value : value_ref) : cmd (list ascii) :=
  p ← non_null (vr_data value);
  memcpy_from p (vr_length value).

(** doGet (169-231) *)
Definition VALUE_CLASS_NAME : string := "org/csource/shmcache/ShmCache$Value".
Definition doGet (handler : Z) (key : list ascii) : cmd (java_result (option java_value)) :=
  with_handler handler
    ('(result, value) ← shmcache_get attempts (java_key key);
     if result =? 0 then
       if negb find_value_class then mret (Jthrow ("can find class: " +:+ VALUE_CLASS_NAME))
       else if negb find_value_constructor then
         mret (Jthrow ("can find constructor for class " +:+ VALUE_CLASS_NAME))
       else
         value ← of_option value;
         data ← java_bytes value;
         mret (Jreturn (Some (Java_value data (vr_options value) (vr_expires value * 1000))))
     else mret (Jreturn None)).

(** doGetBytes (233-264) *)
Definition doGetBytes (handler : Z) (key : list ascii) : cmd (java_result (option (list ascii))) :=
  with_handler handler
    ('(result, value) ← shmcache_get attempts (java_key key);
     if result =? 0 then
       value ← of_option value;
       data ← java_bytes value;
       mret (Jreturn (Some data))
     else mret (Jreturn None)).

(** doDelete (266-287) *)
Definition doDelete (handler : Z) (key : list ascii) : cmd (java_result bool) :=
  with_handler handler
    (result ← shmcache_delete attempts (java_key key); mret (Jreturn (result =? 0))).

(** doSetTTL (289-310) *)
Definition doSetTTL (handler : Z) (key : list ascii) (ttl : Z) : cmd (java_result bool) :=
  with_handler handler
    (result ← shmcache_set_ttl attempts (java_key key) ttl; mret (Jreturn (result =? 0))).

(** doGetExpires (312-338) *)
Definition doGetExpires (handler : Z) (key : list ascii) : cmd (java_result Z) :=
  with_handler handler
    ('(result, value) ← shmcache_get attempts (java_key key);
     if result =? 0 then value ← of_option value; mret (Jreturn (vr_expires value))
     else mret (Jreturn (-1))).

(** doClear (340-354) *)
Definition doClear (handler : Z) : cmd (java_result bool) :=
  with_handler handler (result ← shmcache_clear attempts; mret (Jreturn (result =? 0))).

(** doGetLastClearTime (356-370), doGetInitTime (372-386) *)
Definition doGetLastClearTime (handler : Z) : cmd (java_result Z) :=
  with_handler handler (s ← get; mret (Jreturn (shmcache_get_last_clear_time s))).
Definition doGetInitTime (handler : Z) : cmd (java_result Z) :=
  with_handler handler (s ← get; mret (Jreturn (shmcache_get_init_time s))).

(** ** Reading on a represented cache *)
Context (Rep : shmcache_context → list shmcache_hash_entry → Prop) `{!CacheLaws Rep}.
Implicit Types (l : list shmcache_hash_entry).

Lemma wp_java_bytes s vr v (Q : list ascii → _ → Prop) :
  refers s vr v → Q (v_data v) s → wp (java_bytes vr) Q s.
Proof.
  intros (Hl&_&_&p&Hp&Hin&Hd) HQ. unfold java_bytes. rewrite Hp. wp_simpl. apply wp_non_null.
  rewrite Hl. eapply wp_run; [unfold memcpy_from; by rewrite Hin|]. by rewrite Hd.
Qed.

(** what the three getters return *)
Definition java_reads {A} (of_value : shmcache_value_info → A) (missing : A) l (key : list ascii)
    (g : java_result A) : Prop :=
  match find_key key l with
  | None => g = Jreturn missing
  | Some rec => ∃ now, clock now ∧
      g = Jreturn (if HT_ENTRY_IS_VALID (v_expires (entry_value rec)) now
                   then of_value (entry_value rec) else missing)
  end.
Lemma java_get_spec {A} (of_value : shmcache_value_info → A) (missing : A)
    (k : value_ref → cmd (java_result A)) s l handler (key : list ascii) :
  handler ≠ 0 → peaceful → mutex_ok attempts → Rep s l →
  (∀ vr v s', refers s' vr v → wp (k vr) (λ g s2, s2 = s' ∧ g = Jreturn (of_value v)) s') →
  wp (with_handler handler
       ('(result, value) ← shmcache_get attempts (java_key key);
        if result =? 0 then value ← of_option value; k value else mret (Jreturn missing)))
    (λ g s', Rep s' l ∧ java_reads of_value missing l key g) s.
Proof.
  intros Hh Hpc Hm Hrep Hk. unfold with_handler. rewrite (proj2 (Z.eqb_neq _ _) Hh). wp_simpl.
  eapply wp_mono; [by apply (get_finds Rep attempts s l)|].
  intros [r value] s1 [Hrep1 Ho]. unfold get_outcome, java_reads in *. cbn [key_data java_key] in Ho.
  destruct (find_key key l) as [rec|].
  2: { simplify_eq. change (ENOENT =? 0) with false. by wp_simpl. }
  destruct Ho as (now&vr&Hnow&Href&[= -> ->]).
  destruct (HT_ENTRY_IS_VALID _ now) eqn:Hv.
  - change (0 =? 0) with true. wp_simpl. apply wp_of_option. exists vr. split; [done|].
    eapply wp_mono; [by apply Hk|]. intros g s2 [-> ->]. split; [done|]. exists now. by rewrite Hv.
  - change (ETIMEDOUT =? 0) with false. wp_simpl. split; [done|]. exists now. by rewrite Hv.
Qed.
Lemma doGet_spec s l handler (key : list ascii) :
  handler ≠ 0 → peaceful → mutex_ok attempts → Rep s l →
  find_value_class = true → find_value_constructor = true →
  wp (doGet handler key) (λ g s', Rep s' l ∧
    java_reads (λ v, Some (Java_value (v_data v) (v_options v) (v_expires v * 1000))) None l key g) s.
Proof.
  intros Hh Hpc Hm Hrep Hc Hk. unfold doGet. rewrite Hc, Hk. cbn [negb].
  apply java_get_spec; [done..|]. intros vr v s' Href. pose proof Href as (_&Ho&He&_). wp_simpl.
  eapply wp_java_bytes; [done|]. wp_simpl. by rewrite Ho, He.
Qed.
Lemma doGetBytes_spec s l handler (key : list ascii) :
  handler ≠ 0 → peaceful → mutex_ok attempts → Rep s l →
  wp (doGetBytes handler key) (λ g s', Rep s' l ∧ java_reads (λ v, Some (v_data v)) None l key g) s.
Proof.
  intros. apply java_get_spec; [done..|]. intros vr v s' Href. wp_simpl.
  eapply wp_java_bytes; [done|]. by wp_simpl.
Qed.
Lemma doGetExpires_spec s l handler (key : list ascii) :
  handler ≠ 0 → peaceful → mutex_ok attempts → Rep s l →
  wp (doGetExpires handler key) (λ g s', Rep s' l ∧ java_reads v_expires (-1) l key g) s.
Proof.
  intros. apply java_get_spec; [done..|]. intros vr v s' (_&_&He&_). wp_simpl. by rewrite He.
Qed.
Lemma doSetVO_spec s l handler (key : list ascii) vo :
  handler ≠ 0 → mutex_ok attempts → Rep s l →
  wp (doSetVO handler key vo) (λ r s', ∃ l', Rep s' l' ∧
    (r = Jreturn tt → find_key key l' = Some (new_record (java_key key)
       (Value_info (jv_value vo) (Z.of_nat (length (jv_value vo))) (jv_options vo)
          (Z.quot (jv_expires vo) 1000))))) s.
Proof.
  intros Hh Hm Hrep. unfold doSetVO, with_handler. rewrite (proj2 (Z.eqb_neq _ _) Hh). wp_simpl.
  eapply wp_mono; [by apply (set_stores Rep attempts s l)|].
  intros r s' (l'&Hrep'&Hf). unfold throw_error. destruct (Z.eqb_spec r 0); cbn [negb]; wp_simpl.
  - exists l'. split; [done|]. intros _. by apply Hf.
  - exists l'. by split.
Qed.
End JavaShmCache.

(** ** Properties *)
Section properties.
Context `{E : Env} `{L : !EnvLaws E} `{J : JavaEnv}.

(** C23: a Value that doSetVO stored is what doGet, doGetBytes and doGetExpires
    find until it expires: the same bytes and options, with the expiry time cut
    to whole seconds; then they return null, null and -1. *)
Theorem java_get_after_set attempts s l handler (key : list ascii) vo :
  handler ≠ 0 → mutex_ok attempts → peaceful → rep s l →
  find_value_class = true → find_value_constructor = true →
  wp (r ← doSetVO attempts handler key vo; g ← doGet attempts handler key;
      b ← doGetBytes attempts handler key; x ← doGetExpires attempts handler key;
      mret (r, (g, (b, x))))
    (λ '(r, (g, (b, x))) s', r = Jreturn tt →
      let expires := Z.quot (jv_expires vo) 1000 in
      ∃ t1 t2 t3, clock t1 ∧ clock t2 ∧ clock t3 ∧
        g = Jreturn (if HT_ENTRY_IS_VALID expires t1
                     then Some (Java_value (jv_value vo) (jv_options vo) (expires * 1000)) else None) ∧
        b = Jreturn (if HT_ENTRY_IS_VALID expires t2 then Some (jv_value vo) else None) ∧
        x = Jreturn (if HT_ENTRY_IS_VALID expires t3 then expires else -1)) s.
Proof.
  intros Hh Hm Hpc Hrep Hc Hk. wp_simpl.
  eapply wp_mono; [by apply (doSetVO_spec attempts rep s l)|]. intros r s1 (l1&Hrep1&Hf). wp_simpl.
  eapply wp_mono; [by apply (doGet_spec attempts rep s1 l1)|]. intros g s2 [Hrep2 Hg]. wp_simpl.
  eapply wp_mono; [by apply (doGetBytes_spec attempts rep s2 l1)|]. intros b s3 [Hrep3 Hb]. wp_simpl.
  eapply wp_mono; [by apply (doGetExpires_spec attempts rep s3 l1)|]. intros x s4 [Hrep4 Hx]. wp_simpl.
  intros Hr. unfold java_reads in *. rewrite (Hf Hr) in Hg, Hb, Hx.
  destruct Hg as (t1&H1&Hg), Hb as (t2&H2&Hb), Hx as (t3&H3&Hx). by exists t1, t2, t3.
Qed.
End properties.
