(* ===== verification/Examples.v ===== *)
(** * A running cache

    A concrete environment and configuration, the cache [shmcache_init] makes
    of them, and the cache after an entry was stored: the states at which the
    theorems about the whole structure are instantiated. *)
From S2P Require Import Prelude Types ObjectPool Striping OpWrapper Shmopt HentryOffset ShmList Invariant FieldWidths SegmentGrowth ValueAllocator HashTable Recycle Lock CacheTable CLib ShmCache ShmCacheSpec Sizing Init Attach LazySegments Processes Safety LockFree Config LockProtocol.
Local Open Scope Z_scope.
Local Open Scope shm_scope.

(** an environment, given what [fstat], [mmap], [kill], [errno] and
    [pthread_mutex_trylock] answer *)
Definition env_of (fstat : Z * Z) (mmap : nat → Z) (kill errno : Z) (trylock : nat → Z) : Env := {|
  MEM_ALIGN x := Z.land (x + 7) (Z.lnot 7);
  fc_hash_get_prime_capacity n := Some 11;
  getpagesize := 4096; MAX_PATH_SIZE := 256;
  time_NULL _ := 1000; get_current_time _ := 1000; get_current_time_us _ := 1000000000;
  malloc_ok _ _ := true; os_errno _ := errno; os_open _ _ _ := 5; os_fstat _ _ := fstat;
  os_ftruncate _ _ _ := 0; os_mmap n _ _ := mmap n; os_munmap _ _ _ := 0;
  os_access _ _ := 0; os_chmod _ _ := 0; os_unlink _ _ := 0; os_shmget _ _ _ _ := 3;
  os_shmat _ _ := 77; os_shmdt _ _ := 0; os_shmctl_rmid _ _ := 0; os_kill0 _ _ := kill;
  writeToFile _ _ := 0; fc_ftok _ _ _ := 9; file_write_lock _ _ := 0;
  pthread_mutex_trylock := trylock; pthread_mutex_unlock _ := 0;
  pthread_mutexattr_init _ := 0; pthread_mutexattr_setpshared _ := 0;
  pthread_mutexattr_settype _ := 0; pthread_mutex_init _ := 0 |}.
(** every call to the kernel succeeds *)
Definition env0 : Env :=
  env_of (0, 100000) (λ n, 4096 * Z.of_nat (S n)) 0 0 (λ _, 0).
#[local] Existing Instance env0.
#[local] Instance env0_laws : EnvLaws env0.
Proof.
  constructor. intros x. change (x ≤ Z.land (x + 7) (Z.lnot (Z.ones 3))).
  rewrite <-Z.ldiff_land, Z.ldiff_ones_r, Z.shiftr_div_pow2, Z.shiftl_mul_pow2 by done.
  pose proof (Z.div_mod (x + 7) (2 ^ 3)). pose proof (Z.mod_pos_bound (x + 7) (2 ^ 3)). lia.
Qed.

Definition hash0 (l : list ascii) : Z := foldr (λ c h, h * 31 + code c) 7 l.
(** segments of 2 MiB, 8 MiB in all, 8 keys, values of at most 64 KiB *)
Definition cfg0 : shmcache_config :=
  Shmcache_config "/tmp/shm" 0 (8 * 1024 * 1024) (2 * 1024 * 1024) 8 (64 * 1024)
    SHMCACHE_TYPE_MMAP 0 true (Va_policy 0 128 5 0) (Lock_policy false 200 1000) hash0.

Lemma mapping0 : mapping_ok (cfg_type cfg0).
Proof. intros _ n size fd. cbn. unfold MAP_FAILED. lia. Qed.
Lemma released0 : released_by 0.
Proof. by intros n _. Qed.
Lemma init_ok0 : init_ok cfg0 3.
Proof.
  split.
  - split; cbn; [by exists 12; split; [lia|]|lia..].
  - by vm_compute.
  - done.
  - by vm_compute.
  - exact mapping0.
  - by repeat split.
  - exists 0%nat. split; [exact released0|lia].
Qed.

Definition run_or {A} (m : cmd A) (s : shmcache_context) : shmcache_context :=
  match m s with Some (_, s') => s' | None => s end.
Lemma run_or_wp {A} (m : cmd A) s (Q : A → _ → Prop) a :
  wp m Q s → fst <$> m s = Some a → Q a (run_or m s).
Proof. intros (a'&s'&Hm&HQ) Ha. unfold run_or. rewrite Hm in *. by simplify_eq/=. Qed.

Lemma run_or_run {A} (m : cmd A) s r : fst <$> m s = Some r → m s = Some (r, run_or m s).
Proof. unfold run_or. destruct (m s) as [[]|]; [|done]. by intros [= <-]. Qed.

(** the initialised cache *)
Definition started : shmcache_context := run_or (shmcache_init 3 42 cfg0 true false) (new_image cfg0).
Lemma started_run : shmcache_init 3 42 cfg0 true false (new_image cfg0) = Some (0, started).
Proof. refine (run_or_run (shmcache_init 3 42 cfg0 true false) (new_image cfg0) 0 _). by vm_compute. Qed.
Lemma started_ok : image cfg0 started [] ∧ pid started = 42.
Proof.
  apply (run_or_wp _ _ _ 0 (init_spec 3 42 cfg0 false init_ok0)); [|done]. by vm_compute.
Qed.
#[local] Opaque started.
Lemma started_inv : inv started [].
Proof. apply started_ok. Qed.
Lemma started_config : config started = cfg0.
Proof. apply started_ok. Qed.
Lemma started_rep : rep started [].
Proof.
  exists []. split; [apply started_inv|]. split; [done|].
  rewrite started_config. exact mapping0.
Qed.
Lemma peaceful0 : peaceful.
Proof. split; [intros n p; reflexivity|intros n; by left]. Qed.
Lemma mutex_ok0 : mutex_ok 3.
Proof. exists 0%nat. split; [exact released0|lia]. Qed.

(** the cache with one entry *)
Definition K (x : string) : shmcache_key_info :=
  Key_info (String.list_ascii_of_string x) (Z.of_nat (String.length x)).
Definition V (x : string) : shmcache_value_info :=
  Value_info (String.list_ascii_of_string x) (Z.of_nat (String.length x)) 0 0.
Definition stored : shmcache_context := run_or (shm_ht_set (K "a") (V "hello")) started.
#[local] Opaque stored.
Definition record0 : shmcache_hash_entry := new_record (K "a") (V "hello").
Lemma stored_set : set_post (K "a") (V "hello") started [] 0 stored.
Proof.
  assert (wp (shm_ht_set (K "a") (V "hello")) (set_post (K "a") (V "hello") started []) started) as H.
  { apply set_spec; [|exact started_inv|done|done]. rewrite started_config. exact mapping0. }
  refine (run_or_wp _ _ _ 0 H _). by vm_compute.
Qed.
Lemma stored_inv : ∃ es, inv stored es ∧ view stored es = [record0] ∧ config stored = cfg0.
Proof.
  destruct stored_set as (es&Hinv&Hsc&_&Hr). rewrite decide_True in Hr by done.
  destruct Hr as (l&Hl%sublist_nil_r&Hv). exists es. subst l. split_and!; [done|done|].
  destruct Hsc as (_&->&_). exact started_config.
Qed.
Lemma stored_rep : rep stored [record0].
Proof.
  destruct stored_inv as (es&Hinv&Hv&Hc). exists es. split_and!; [done|done|]. rewrite Hc. exact mapping0.
Qed.

(** two entries *)
Definition stored2 : shmcache_context := run_or (shm_ht_set (K "b") (V "world!")) stored.
Definition record1 : shmcache_hash_entry := new_record (K "b") (V "world!").
Lemma stored2_count : shm_ht_count stored2 = 2.
Proof. by vm_compute. Qed.
Lemma set_second : wp (shm_ht_set (K "b") (V "world!"))
  (λ r s', r = 0 → same_cache stored s' ∧ config s' = cfg0 ∧
     (rep s' [record0; record1] ∨ shm_ht_count s' ≠ 2)) stored.
Proof.
  eapply wp_mono; [apply (rep_set stored [record0]); [exact stored_rep|done|done]|].
  intros r s' (Hsc&l'&Hrep&Ha&_) ->.
  split; [exact Hsc|]. split; [destruct Hsc as (_&->&_); destruct stored_inv as (?&_&_&?); done|].
  pose proof (law_count s' l' Hrep) as Hc. rewrite Hc.
  unfold abs_set in Ha. rewrite decide_True in Ha by done. destruct Ha as (l0&Hsub&->).
  change (without (key_data (K "b")) [record0]) with [record0] in Hsub.
  destruct l0 as [|r0 [|]]; [right; simpl; lia| |apply sublist_length in Hsub; simpl in Hsub; lia].
  left. apply singleton_sublist_l, list_elem_of_singleton in Hsub as ->. exact Hrep.
Qed.
Lemma stored2_code : fst <$> shm_ht_set (K "b") (V "world!") stored = Some 0.
Proof. by vm_compute. Qed.
Lemma stored2_rep : rep stored2 [record0; record1].
Proof.
  unfold stored2. destruct (run_or_wp _ _ _ 0 set_second stored2_code eq_refl) as (_&_&[H|H]); [exact H|].
  destruct H. exact stored2_count.
Qed.
Lemma stored2_inv : ∃ es, inv stored2 es ∧ view stored2 es = [record0; record1].
Proof. destruct stored2_rep as (es&Hinv&Hv&_). by exists es. Qed.
Lemma stored2_two : ∃ o1 o2, inv stored2 [o1; o2].
Proof.
  destruct stored2_inv as (es&Hinv&Hv). pose proof (length_view stored2 es) as Hl. rewrite Hv in Hl.
  destruct es as [|o1 [|o2 [|]]]; try discriminate Hl. exists o1, o2. exact Hinv.
Qed.
Lemma stored2_config : config stored2 = cfg0.
Proof. unfold stored2. exact (proj1 (proj2 (run_or_wp _ _ _ 0 set_second stored2_code eq_refl))). Qed.
Lemma stored2_image : ∃ es, image cfg0 stored2 es ∧ view stored2 es = [record0; record1].
Proof.
  assert (same_cache stored stored2) as H2.
  { unfold stored2. exact (proj1 (run_or_wp _ _ _ 0 set_second stored2_code eq_refl)). }
  destruct stored_set as (_&_&H1&_). destruct stored2_inv as (es&Hinv&Hv).
  exists es. split; [|exact Hv].
  assert (same_config started stored2) as (_&_&Hs).
  { etrans; [exact (same_cache_config _ _ H1)|exact (same_cache_config _ _ H2)]. }
  assert (same_config started stored2) as Hsc.
  { etrans; [exact (same_cache_config _ _ H1)|exact (same_cache_config _ _ H2)]. }
  destruct started_ok as [(_&Hcf&_&Ha&Hl) _].
  destruct Hs as (_&_&_&_&_&_&_&_&_&_&_&Hao&Hlo&_).
  split; [exact Hinv|]. split; [exact (conforms_config _ _ _ _ Hsc Hcf)|].
  split; [exact stored2_config|]. rewrite Hao, Hlo. split; [exact Ha|exact Hl].
Qed.
#[local] Opaque stored2.

(** ** The theorems at these states *)
Lemma stored2_mapping : mapping_ok (cfg_type (config stored2)).
Proof. rewrite stored2_config. exact mapping0. Qed.

Lemma api_refines_witness :
  let ops := [Op_incr (K "n") 5 0; Op_get (K "a"); Op_set_ex (K "c") (V "!");
    Op_set (K "d") (key_data (K "x")) 60; Op_delete (K "b"); Op_get (K "b"); Op_clear] in
  wp (run_ops 3 ops) (λ rs s', ∃ l', rep s' l' ∧ abs_run (max_value_size cfg0) ops [record0; record1] rs l' ∧
    NoDup (keys_of l')) stored2.
Proof.
  intros ops. rewrite <-stored2_config. apply (api_refines 3 ops stored2 [record0; record1] mutex_ok0 stored2_rep).
  split.
  - split; [exact eq_refl|]. intros rec n Hf. vm_compute in Hf. discriminate Hf.
  - intros r l' _. apply ops_safe_simple. repeat constructor.
Defined.

(** deleting the absent key "zz" reports ENOENT *)
Lemma api_errors_explained_witness :
  let op := Op_delete (K "zz") in
  op_ok op [record0; record1] ∧
  wp (run_op 3 op) (λ r s', ∃ l1 l', locked [record0; record1] l1 ∧ rep s' l' ∧
    (lock_error r.1 ∧ r.2 = None ∧ l' = l1 ∨
     explained (max_value_size cfg0) op l1 r.1 l')) stored2.
Proof.
  intros op. rewrite <-stored2_config. assert (op_ok op [record0; record1]) as Hok by exact eq_refl.
  split; [exact Hok|].
  exact (api_errors_explained 3 stored2 [record0; record1] op mutex_ok0 stored2_rep Hok).
Defined.
Lemma hd_error_elem {A} (l : list A) x : hd_error l = Some x → x ∈ l.
Proof. destruct l; [done|]. intros [= ->]. left. Qed.
(** there is room in the first striping for the key and value of [K "c"] *)
Lemma stored2_room : has_room stored2 (entry_size (key_length (K "c")) (v_length (V "!"))).
Proof.
  assert (hd_error (Pool.contents (doing stored2)) = Some 768) as Hd by (vm_compute; reflexivity).
  assert (allocator_offset_of stored2 0 = 768) as Ho by (vm_compute; reflexivity).
  assert (room stored2 0 = Some 1048416) as Hr by (vm_compute; reflexivity).
  assert (current_stripings stored2 = 2) as Hc by (vm_compute; reflexivity).
  apply Exists_exists. exists 768. split.
  - exact (hd_error_elem _ _ Hd).
  - exists 0, 1048416. rewrite Hc, Ho, Hr. split; [lia|]. split; [reflexivity|]. split; [reflexivity|].
    change (80 ≤ 1048416). lia.
Qed.
Lemma stored2_storable : storable_in stored2 [record0; record1] (K "c") (V "!").
Proof.
  unfold storable_in. rewrite stored2_config. repeat split; [discriminate..|]. left. exact stored2_room.
Qed.

Lemma get_after_set_witness :
  wp (r ← shmcache_set_ex 3 (K "c") (V "!"); g ← get_copy 3 (K "c"); mret (r, g))
    (λ '(r, g) s', r = 0 ∧ ∃ now, clock now ∧
       g = (if HT_ENTRY_IS_VALID 0 now then 0 else ETIMEDOUT, Some (V "!"))) stored2.
Proof.
  destruct (get_after_set 3 stored2 [record0; record1] (K "c") (V "!") mutex_ok0 stored2_rep
    eq_refl eq_refl peaceful0) as ([r g]&s'&Hrun&Hg&Hr).
  exists (r, g), s'. split; [exact Hrun|]. pose proof (Hr stored2_storable stored2_room) as H0.
  split; [exact H0|exact (Hg H0)].
Defined.

Lemma table_set_lossless_witness :
  wp (shm_ht_set (K "c") (V "!")) (λ r s', r = 0 ∧
    rep s' [record0; record1; new_record (K "c") (V "!")]) stored2.
Proof.
  destruct (table_set_lossless stored2 [record0; record1] (K "c") (V "!") stored2_rep
    eq_refl eq_refl stored2_storable) as (r&s'&Hrun&l'&Hrep&_&Hex).
  destruct (Hex stored2_room) as [H0 Hl]. exists r, s'. split; [exact Hrun|]. split; [exact H0|].
  rewrite Hl in Hrep. exact Hrep.
Defined.

Lemma table_set_correct_witness :
  wp (shm_ht_set (K "a") (V "again")) (λ r s', ∃ l', rep s' l' ∧
    abs_set (max_value_size cfg0) (K "a") (V "again") [record0; record1] r l') stored2.
Proof.
  rewrite <-stored2_config.
  destruct (table_set_correct stored2 [record0; record1] (K "a") (V "again") stored2_rep) as
    (r&s'&Hrun&_&l'&Hrep&Habs&_); [done|done|].
  exists r, s'. split; [exact Hrun|]. exists l'. split; [exact Hrep|exact Habs].
Defined.

Lemma init_correct_witness :
  wp (shmcache_init 3 42 cfg0 true true) (λ r s', r = 0 → image cfg0 s' [] ∧ pid s' = 42 ∧
    shmcache_check s' (new_segment_info cfg0) (new_striping_info cfg0) = 0) (new_image cfg0) ∧
  fst <$> shmcache_init 3 42 cfg0 true false (new_image cfg0) = Some 0.
Proof. split; [exact (init_correct 3 42 cfg0 true init_ok0)|by vm_compute]. Defined.

Lemma recycle_correct_witness :
  ∃ es, inv stored2 es ∧ length es = 2%nat ∧
  is_Some (shm_value_allocator_recycle Recycle_key 1 stored2) ∧
  wp (shm_value_allocator_recycle Recycle_key 1) (λ r s',
    ∃ l3 l4, es = l3 ++ l4 ∧
      inv s' (kept (stored2 <| g_current_time := 1000 |>) l3 ++ l4)) stored2.
Proof.
  destruct stored2_inv as (es&Hinv&Hv). exists es. split; [exact Hinv|].
  split; [by rewrite <-(length_view stored2 es), Hv|].
  pose proof (recycle_correct Recycle_key 1 stored2 es Hinv) as H. split; [exact (wp_total _ _ _ H)|].
  destruct H as (r&s'&Hrun&l3&l4&Heq&Hinv'&_). exists r, s'. split; [exact Hrun|]. exists l3, l4. split; [exact Heq|exact Hinv'].
Defined.

Lemma lock_returns_witness :
  ∃ es, inv stored2 es ∧
    wp (shm_lock 1) (λ r s', r ≠ EBUSY ∧ (r = 0 → lock_pid (memory s') = pid stored2) ∧
      inv s' es) stored2.
Proof.
  destruct stored2_inv as (es&Hinv&_). exists es. split; [exact Hinv|].
  destruct (lock_returns 1 stored2 es 0 Hinv released0 ltac:(lia)) as (r&s'&Hrun&Hb&Hp&Hk&_).
  exists r, s'. split; [exact Hrun|]. split_and!; [exact Hb|exact Hp|].
  apply Hk. intros n p. reflexivity.
Defined.

(** the process 7 died holding the lock; the third attempt finds out *)
Definition env_dead : Env :=
  env_of (0, 100000) (λ n, 4096 * Z.of_nat (S n)) (-1) ESRCH (λ n, if (n <? 4)%nat then EBUSY else 0).
Definition abandoned : shmcache_context :=
  stored2 <| detect_deadlock_clocks := 2 |> <| ticks := 0%nat |> <| memory; lock_pid := 7 |>.
Lemma clearable_abandoned s : clearable s → clearable
  (s <| detect_deadlock_clocks := 2 |> <| ticks := 0%nat |> <| memory; lock_pid := 7 |>).
Proof. exact id. Qed.
Lemma lock_recovers_dead_owner_witness :
  wp (@shm_lock env_dead 20) (λ r s', r ≠ EBUSY ∧ @inv env_dead s' [] ∧
    (r = 0 → lock_pid (memory s') = pid abandoned)) abandoned.
Proof.
  destruct stored2_inv as (es&Hinv&_).
  assert (clearable abandoned) as Hc by exact (clearable_abandoned stored2 (inv_clearable stored2 es Hinv)).
  refine (lock_recovers_dead_owner (E := env_dead) 20 abandoned 4 Hc _ _ _ _ _ _ _).
  - intros n Hn. change (@pthread_mutex_trylock env_dead n) with (if (n <? 4)%nat then EBUSY else 0).
    rewrite (proj2 (Nat.ltb_ge n 4) Hn). unfold EBUSY. lia.
  - change (ticks abandoned) with 0%nat. lia.
  - split; done.
  - done.
  - intros n. done.
  - done.
  - intros n Hn. change (ticks abandoned) with 0%nat in Hn.
    change (detect_deadlock_clocks abandoned) with 2 in Hn.
    change (@pthread_mutex_trylock env_dead n) with (if (n <? 4)%nat then EBUSY else 0).
    rewrite (proj2 (Nat.ltb_lt n 4)); [done|lia].
Defined.

(** *** Allocation and the table *)
Lemma do_alloc_correct_witness :
  ∃ os, length os = 2%nat ∧ wp (shm_value_allocator_do_alloc 100) (λ r s',
    ∀ p, r = Some p → ∃ o, o ∉ os ∧ alloc_inv s' (o :: os) ∧ mem_size (mem_of s' o) = 100) stored2.
Proof.
  destruct stored2_two as (o1&o2&(Hg&Hp&Ha&_)). exists [o1; o2]. split; [exact eq_refl|].
  destruct (do_alloc_correct stored2 [o1; o2] 100 Hg Ha Hp ltac:(unfold sizeof_shm_hash_entry; lia))
    as (r&s'&Hrun&_&_&Hr).
  exists r, s'. split; [exact Hrun|]. intros p ->. destruct Hr as (o&_&Hn&Ha'&Hsz&_).
  exists o. split; [exact Hn|]. split; [exact Ha'|exact Hsz].
Defined.

Lemma free_correct_witness :
  ∃ o1 o2, alloc_inv stored2 [o1; o2] ∧
    wp (shm_value_allocator_free (hentry_addr o1) false) (λ r s', r.1 = 0 ∧ alloc_inv s' [o2]) stored2.
Proof.
  destruct stored2_two as (o1&o2&(Hg&Hp&Ha&_)). exists o1, o2. split; [exact Ha|].
  destruct (free_correct stored2 o1 [o2] false Hg Ha Hp) as (r&s'&Hrun&H0&_&_&_&Ha'&_).
  exists r, s'. split; [exact Hrun|]. split; [exact H0|exact Ha'].
Defined.

Lemma ht_clear_correct_witness :
  wp shm_ht_clear (λ r s', r = ht_count (hashtable (memory abandoned)) ∧ inv s' [] ∧
    same_cache abandoned s' ∧ used_entry (usage (memory s')) = 0 ∧
    used_key (usage (memory s')) = 0 ∧ used_value (usage (memory s')) = 0 ∧ shm_ht_count s' = 0)
    abandoned.
Proof.
  destruct stored2_two as (o1&o2&Hinv).
  exact (ht_clear_correct abandoned (clearable_abandoned stored2 (inv_clearable stored2 _ Hinv))).
Defined.

Lemma table_delete_correct_witness :
  wp (shm_ht_delete (K "a")) (λ r s', rep s' [record1] ∧ r = 0) stored2.
Proof.
  destruct (table_delete_correct stored2 [record0; record1] (K "a") stored2_rep) as
    (r&s'&Hrun&_&Hrep&H0&_); [done|].
  exists r, s'. split; [exact Hrun|]. split; [exact Hrep|]. apply H0. apply list_elem_of_here.
Defined.

Lemma incr_correct_witness :
  wp (shmcache_incr 3 (K "n") 41 0)
    (served rep stored2 [record0; record1] incr_failed (abs_incr (max_value_size cfg0) (K "n") 41 0)) stored2.
Proof.
  rewrite <-stored2_config.
  refine (incr_correct 3 stored2 [record0; record1] (K "n") 41 0 mutex_ok0 stored2_rep _ _); [done|].
  intros rec n Hf. vm_compute in Hf. discriminate Hf.
Defined.

Lemma ht_get_correct_witness :
  ∃ es : list Z, wp (shm_ht_get (K "zz")) (λ r s', memory s' = memory stored2 ∧
    (key_data (K "zz") ∉ key_of stored2 <$> es → r = (ENOENT, None))) stored2.
Proof.
  destruct stored2_inv as (es&Hinv&_). exists es.
  destruct (ht_get_correct stored2 es (K "zz") Hinv) as (r&s'&Hrun&Hm&_&_&Hr); [done|].
  exists r, s'. split; [exact Hrun|]. split; [exact Hm|].
  intros Hn. destruct Hr as [[_ ->]|(o&Ho&_)]; [exact eq_refl|].
  destruct Hn. destruct Ho as (Hin&Hk). rewrite <-Hk. apply list_elem_of_fmap. exists o. split; [exact eq_refl|exact Hin].
Defined.

Lemma table_set_expires_correct_witness :
  wp (shm_ht_set_expires (K "b") 5000) (λ r s', r = 0 ∧
    rep s' [record0; with_expires 5000 record1]) stored2.
Proof.
  destruct (table_set_expires_correct stored2 [record0; record1] (K "b") 5000 stored2_rep) as
    (r&s'&Hrun&_&l'&Hrep&Ho&_); [done|].
  exists r, s'. split; [exact Hrun|].
  assert (find_key (key_data (K "b")) [record0; record1] = Some record1) as Hf by (vm_compute; exact eq_refl).
  unfold set_expires_outcome in Ho. rewrite Hf in Ho. destruct Ho as (now&_&Ho).
  change (HT_ENTRY_IS_VALID (v_expires (entry_value record1)) now) with true in Ho.
  destruct Ho as [-> ->]. split; [exact eq_refl|]. exact Hrep.
Defined.

Lemma create_segment_correct_witness :
  ∃ es, wp shmopt_create_value_segment (λ r s', inv s' es ∧
    count_current (vm_segment (memory s')) =
      count_current (vm_segment (memory stored2)) + (if r =? 0 then 1 else 0)) stored2.
Proof.
  destruct stored2_inv as (es&Hinv&_). exists es.
  destruct (create_segment_correct stored2 es stored2_mapping Hinv) as (r&s'&Hrun&Hinv'&_&_&Hc&_).
  exists r, s'. split; [exact Hrun|]. split; [exact Hinv'|exact Hc].
Defined.

Lemma rearrange_correct_witness :
  wp (shm_value_allocator_try_rearrange (shm_ht_set_n 2)) (λ _ s', ∃ es', inv s' es' ∧
    view s' es' `sublist_of` [record0; record1]) stored2.
Proof.
  destruct stored2_inv as (es&Hinv&Hv).
  assert (length es ≤ 2)%nat as Hl.
  { rewrite <-(length_view stored2 es), Hv. simpl. lia. }
  destruct (rearrange_correct 2 stored2 es stored2_mapping Hinv Hl) as (r&s'&Hrun&es'&Hi&_&Hs).
  exists r, s'. split; [exact Hrun|]. exists es'. split; [exact Hi|]. rewrite <-Hv. exact Hs.
Defined.

Lemma to_array_correct_witness :
  ∃ es, wp (shm_ht_to_array_ex None 0 0) (λ r s', r = (0, listing stored2 es None 0 0 1000)) stored2.
Proof.
  destruct stored2_inv as (es&Hinv&_). exists es.
  destruct (to_array_correct stored2 es None 0 0 Hinv) as (r&s'&Hrun&_&Hpos&_).
  destruct (Hpos ltac:(lia)) as (_&H0&Hr&_).
  assert (r.1 = 0) as Hr0 by (apply H0; intros n z; reflexivity).
  exists r, s'. split; [exact Hrun|]. rewrite (surjective_pairing r), Hr0, (Hr Hr0).
  change (to_int (time_NULL (S (ticks stored2)))) with 1000. exact eq_refl.
Defined.

(** *** Lists, segments and sizes *)
Lemma stored2_off : values_count stored2 = 1 ∧ count_current (vm_segment (memory stored2)) = 1 ∧
  length (values_items stored2) = 3%nat ∧ ht_count (hashtable (memory stored2)) = 2.
Proof. by vm_compute. Qed.

Lemma list_refines_sequence_witness :
  ∃ o1 o2, wp (run_list [Move_tail o1; Delete o1]) (λ _ s', frame_list stored2 s' ∧
    dll s' (filter (λ x, x ≠ o1) (filter (λ x, x ≠ o1) [o1; o2] ++ [o1]))) stored2.
Proof.
  destruct stored2_two as (o1&o2&Hg&_&_&Hd&_). exists o1, o2.
  refine (list_refines_sequence stored2 [o1; o2] [Move_tail o1; Delete o1] (geometry_segs _ Hg) Hd _).
  split; [apply list_elem_of_here|]. split; [|exact I].
  apply elem_of_app. right. apply list_elem_of_here.
Defined.

Lemma list_count_correct_witness :
  wp shm_list_count (λ r s', s' = stored2 ∧ r = 2) stored2.
Proof.
  destruct stored2_two as (o1&o2&Hg&_&_&Hd&_).
  refine (proj1 (list_count_correct stored2 [o1; o2] (geometry_segs _ Hg) Hd _)).
  rewrite (proj2 (proj2 (proj2 stored2_off))). simpl. lia.
Defined.

Lemma open_segments_correct_witness :
  wp shmopt_open_value_segments (λ r s', segs_ok s' ∧
    (r = 0 → values_count s' = count_current (vm_segment (memory s')))) stored2.
Proof.
  destruct stored2_two as (o1&o2&Hg&_). destruct stored2_off as (Hv&Hc&Hl&_).
  destruct (open_segments_correct stored2 stored2_mapping (geometry_segs _ Hg)) as
    (r&s'&Hrun&Hs&_&Hr&_); [rewrite Hv, Hc; lia|rewrite Hc, Hl; lia|].
  exists r, s'. split; [exact Hrun|]. split; [exact Hs|exact Hr].
Defined.

Lemma sizing_consistent_witness :
  wp (shmcache_get_ht_segment_size cfg0) (λ '(total, segment, striping, cap, offs) s', s' = started ∧
    sizing_ok segment striping ∧ to_short (count_max striping - 1) = count_max striping - 1) started.
Proof.
  destruct (sizing_consistent cfg0 started (io_config _ _ init_ok0) (io_room _ _ init_ok0)) as
    ([[[[t sg] st] cap] offs]&s'&Hrun&Hs&Hok&_&_&Hsh).
  exists (t, sg, st, cap, offs), s'. split; [exact Hrun|]. split; [exact Hs|]. split; [exact Hok|exact Hsh].
Defined.

Lemma layout_sound_witness :
  wp (shmcache_get_ht_segment_size cfg0) (λ '(total, segment, striping, cap, offs) s',
    OFFSETS_INDEX_VA_POOL_OBJECT offs + sizeof_shm_striping_allocator * count_max striping
      ≤ total) started.
Proof.
  destruct (layout_sound cfg0 started (io_config _ _ init_ok0) (io_room _ _ init_ok0)
    (io_keys _ _ init_ok0) (Z.lt_le_incl _ _ (proj1 (io_capacity _ _ init_ok0)))) as
    ([[[[t sg] st] cap] offs]&s'&Hrun&_&_&_&_&_&H).
  exists (t, sg, st, cap, offs), s'. split; [exact Hrun|exact H].
Defined.

Lemma negative_segment_count_witness :
  wp (get_value_segment_count_size cfg0 (-2097152)) (λ r s', s' = started ∧ count_max r < 0) started.
Proof.
  apply (negative_segment_count cfg0 (-2097152) started (io_config _ _ init_ok0)); by vm_compute.
Defined.

Lemma destroy_unmaps_all_witness :
  wp shmcache_destroy (λ _ s', base (ht_segment s') = 0 ∧
    (∃ seg, znth (values_items s') 0 = Some seg ∧ base seg = 0)) stored2.
Proof.
  destruct stored2_off as (Hv&_&Hl&_).
  destruct (destroy_unmaps_all stored2) as (r&s'&Hrun&H0&Hs&_); [rewrite Hv, Hl; lia|].
  exists r, s'. split; [exact Hrun|]. split; [exact H0|]. apply Hs. rewrite Hv. lia.
Defined.

Lemma remove_all_ignores_ht_error_witness :
  ∃ r s1, shmopt_remove_all stored2 = remove_segments 1 0 0 s1 ∧
    shm_remove (cfg_type (config stored2)) (filename (config stored2)) (proj_id (ht_segment stored2))
      (seg_size (ht_segment stored2)) (seg_key (ht_segment stored2)) stored2 = Some (r, s1).
Proof.
  destruct (shm_remove (cfg_type (config stored2)) (filename (config stored2))
    (proj_id (ht_segment stored2)) (seg_size (ht_segment stored2)) (seg_key (ht_segment stored2)) stored2)
    as [[r s1]|] eqn:E.
  - exists r, s1. split; [|exact eq_refl]. destruct stored2_off as (_&Hc&_).
    pose proof (remove_all_ignores_ht_error stored2 r s1 E) as H. rewrite Hc in H. apply H. lia.
  - exfalso. vm_compute in E. discriminate E.
Defined.

(** *** Calls and counters *)
Lemma stored_counter_parses_witness : parse_int (integer_value (-42) 1000 60) = Some (-42).
Proof. apply (stored_counter_parses (-42) 1000 60). unfold LLONG_MIN, LLONG_MAX. lia. Defined.

Lemma get_counts_hits_witness :
  wp (shmcache_get 3 (K "a")) (λ r s', rep s' [record0; record1] ∧
    total (stats_get (stats (memory s'))) = total (stats_get (stats (memory stored2))) + 1) stored2.
Proof.
  destruct (get_counts_hits 3 stored2 [record0; record1] (K "a") stored2_rep) as
    (r&s'&Hrun&Hrep&_&Ht&_); [done|rewrite stored2_config; exact eq_refl|].
  exists r, s'. split; [exact Hrun|]. split; [exact Hrep|exact Ht].
Defined.

Lemma set_rejects_witness :
  shm_ht_set (Key_info (replicate 65 "k"%char) 65) (V "") stored2 = Some (ENAMETOOLONG, stored2).
Proof.
  refine (set_rejects (Key_info (replicate 65 "k"%char) 65) (V "") stored2 _).
  left. unfold SHMCACHE_MAX_KEY_SIZE. cbn [key_length]. lia.
Defined.

Definition env_map_failed : Env := env_of (0, 100000) (λ _, MAP_FAILED) 0 0 (λ _, 0).
Lemma mmap_failure_unreported_witness :
  wp (@shm_do_mmap env_map_failed "/tmp/shm" 1 4096 true) (λ r _, r = (MAP_FAILED, 0)) stored2.
Proof.
  apply (mmap_failure_unreported (E := env_map_failed)); intros; [done|split; [exact eq_refl|cbn; lia]|done].
Defined.

Definition env_no_stat : Env := env_of (-1, 0) (λ n, 4096 * Z.of_nat (S n)) 0 EACCES (λ _, 0).
Lemma mmap_leaks_descriptor_witness :
  wp (@shm_do_mmap env_no_stat "/tmp/shm" 1 4096 true) (λ r s', r.1 = 0 ∧ r.2 ≠ 0 ∧
    open_fds s' = 5 :: open_fds stored2) stored2.
Proof.
  apply (mmap_leaks_descriptor (E := env_no_stat)); intros; cbn; lia.
Defined.

(** *** The lock among processes, and other processes *)
Lemma lock_mutual_exclusion_witness :
  ∃ s, lock_reachable 3 s ∧ in_section (l_point s 1) ∧
    ∀ q, in_section (l_point s q) → 1 = q.
Proof.
  set (s := goto 1 Acquired (goto 1 (Trying 0) lock_initial <| l_mutex := Some 1 |>)).
  assert (lock_reachable 3 s) as Hr.
  { eapply rtc_l; [apply (Run 3 1); [lia|apply Step_begin]|].
    apply rtc_once. apply (Run 3 1); [lia|]. by apply Step_try_ok. }
  assert (in_section (l_point s 1)) as H1 by (left; exact I).
  exists s. split; [exact Hr|]. split; [exact H1|]. intros q Hq.
  exact (lock_mutual_exclusion 3 s 1 q Hr H1 Hq).
Defined.

(** process 1 died inside; process 2 begins to wait *)
Lemma lock_recoverable_witness :
  ∃ s, lock_reachable 3 s ∧ l_point s 1 = Dead ∧ l_mutex s = Some 1 ∧ can_enter 3 2 s.
Proof.
  set (s1 := goto 1 Acquired (goto 1 (Trying 0) lock_initial <| l_mutex := Some 1 |>)).
  set (s2 := goto 1 Critical (s1 <| l_pid := 1 |>)).
  set (s := goto 2 (Trying 0) (die 1 s2)).
  assert (lock_reachable 3 s) as Hr.
  { eapply rtc_l; [apply (Run 3 1); [lia|apply Step_begin]|].
    eapply rtc_l; [apply (Run 3 1); [lia|by apply Step_try_ok]|].
    eapply rtc_l; [apply (Run 3 1 s1 s2); [lia|apply Step_own]|].
    eapply rtc_l; [apply (Die 3 1); lia|].
    apply rtc_once. apply (Run 3 2); [lia|]. apply Step_begin. }
  exists s. split; [exact Hr|]. split; [exact eq_refl|]. split; [exact eq_refl|].
  apply (lock_recoverable 3 s 2 0 Hr ltac:(lia) eq_refl). intros (H0&_). discriminate H0.
Defined.

Lemma attach_correct_witness :
  ∃ es, wp (shmcache_init 3 43 cfg0 true true) (λ r s', r = 0 →
    pid s' = 43 ∧ ∃ es', image cfg0 s' es' ∧
      ((es' = es ∧ view s' es' = [record0; record1]) ∨ (es' = [] ∧ owner_died))) stored2.
Proof.
  destruct stored2_image as (es&Him&Hv). exists es.
  destruct (attach_correct 3 43 cfg0 true stored2 es init_ok0 Him) as (r&s'&Hrun&Hr).
  exists r, s'. split; [exact Hrun|]. rewrite <-Hv. intros H0.
  destruct (Hr H0) as (Hp&_&Hes). split; [exact Hp|exact Hes].
Defined.

(** *** Two processes: one attaches and deletes a record of the other's, which
    finds it gone *)
Definition newcomer : process := Process 43 0 0 segment_zero 0 [] 0 0 false 0 false [].
Definition joined : shmcache_context :=
  run_or (shmcache_init 3 43 cfg0 true true) (load newcomer stored2).
Lemma joined_run : shmcache_init 3 43 cfg0 true true (load newcomer stored2) = Some (0, joined).
Proof.
  refine (run_or_run (shmcache_init 3 43 cfg0 true true) (load newcomer stored2) 0 _). by vm_compute.
Qed.
Definition deleted : shmcache_context :=
  run_or (run_op 3 (Op_delete (K "a"))) (load (process_of joined) joined).
Lemma deleted_run :
  run_op 3 (Op_delete (K "a")) (load (process_of joined) joined) = Some ((0, None), deleted).
Proof.
  refine (run_or_run (run_op 3 (Op_delete (K "a"))) (load (process_of joined) joined) _ _). by vm_compute.
Qed.
(** a process that has not mapped the value segment yet *)
Definition late : process := Process 44 0 0 segment_zero 0 (values_items stored2) 0 0 false 0 false [].
Definition looked : shmcache_context := run_or (run_op 3 (Op_get (K "b"))) (load late deleted).
Definition found_b : api_result := (0, Some (Value (V "world!"))).
Lemma looked_run : run_op 3 (Op_get (K "b")) (load late deleted) = Some (found_b, looked).
Proof.
  refine (run_or_run (run_op 3 (Op_get (K "b"))) (load late deleted) _ _). by vm_compute.
Qed.
Lemma late_maps : values_count (load late deleted) = 0 ∧ values_count looked = 1.
Proof. by vm_compute. Qed.
Lemma late_mapped : mapped stored2 late.
Proof.
  split; [split; vm_compute; intros H; discriminate H|]. split; [vm_compute; reflexivity|].
  intros i Hi. cbn in Hi. lia.
Qed.
#[local] Opaque joined deleted looked.

Lemma processes_refine_witness :
  let evs := [Attached; Called (Op_delete (K "a")) (0, None); Called (Op_get (K "b")) found_b] in
  let σ0 := System stored2 [process_of stored2; late] in
  let σ := System looked [process_of stored2; process_of looked; process_of deleted] in
  system_run 3 cfg0 σ0 evs σ ∧
  ∃ l', abs_events cfg0 [record0; record1] evs l' ∧ system_ok cfg0 σ l' ∧ NoDup (keys_of l').
Proof.
  intros evs σ0 σ. assert (system_run 3 cfg0 σ0 evs σ) as Hrun.
  { apply (Run_step 3 cfg0 _ [Attached] (System joined [process_of stored2; late; process_of joined])
      [Called (Op_delete (K "a")) (0, None); Called (Op_get (K "b")) found_b]).
    { apply (Step_attach 3 cfg0 stored2 [process_of stored2; late] newcomer true joined); [repeat split|].
      exact joined_run. }
    apply (Run_step 3 cfg0 _ [Called (Op_delete (K "a")) (0, None)]
      (System deleted [process_of stored2; late; process_of deleted]) [Called (Op_get (K "b")) found_b]).
    { apply (Step_call 3 cfg0 joined [process_of stored2; late; process_of joined] 2 (process_of joined)
        (Op_delete (K "a")) (0, None) deleted);
        [reflexivity|left; vm_compute; reflexivity|exact deleted_run]. }
    apply (Run_step 3 cfg0 _ [Called (Op_get (K "b")) found_b] σ []); [|constructor].
    apply (Step_call 3 cfg0 deleted [process_of stored2; late; process_of deleted] 1 late
      (Op_get (K "b")) found_b looked); [reflexivity|right; reflexivity|exact looked_run]. }
  split; [exact Hrun|]. destruct stored2_image as (es&Him&Hv).
  assert (system_ok cfg0 σ0 [record0; record1]) as Hok.
  { rewrite <-Hv. destruct (first_process cfg0 stored2 es Him) as [Hr Hps]. split; [exact Hr|].
    constructor; [exact (Forall_inv Hps)|]. constructor; [exact late_mapped|constructor]. }
  assert (events_safe cfg0 evs [record0; record1]) as Hsafe.
  { intros l1 _. split; [reflexivity|]. intros l2 _. split; [reflexivity|]. intros l3 _. exact I. }
  destruct (processes_refine 3 cfg0 σ0 evs σ [record0; record1] init_ok0 Hok Hrun Hsafe)
    as (l'&Ha&Hok'&Hnd&_).
  exists l'. split; [exact Ha|]. split; [exact Hok'|exact Hnd].
Defined.

(** *** From initialisation on: a set and a second process *)
Definition op_a : api_op := Op_set_ex (K "a") (V "hello").
Definition first_set : shmcache_context := run_or (run_op 3 op_a) (load (process_of started) started).
Lemma first_set_run : run_op 3 op_a (load (process_of started) started) = Some ((0, None), first_set).
Proof. refine (run_or_run (run_op 3 op_a) (load (process_of started) started) _ _). by vm_compute. Qed.
Definition second : shmcache_context :=
  run_or (shmcache_init 3 43 cfg0 true true) (load newcomer first_set).
Lemma second_run : shmcache_init 3 43 cfg0 true true (load newcomer first_set) = Some (0, second).
Proof.
  refine (run_or_run (shmcache_init 3 43 cfg0 true true) (load newcomer first_set) 0 _). by vm_compute.
Qed.
Lemma second_up_to_date : up_to_date (process_of second) second.
Proof. by vm_compute. Qed.
#[local] Opaque first_set second.
Definition evs0 : list event := [Called op_a (0, None); Attached].
Definition system0 : system := System second [process_of first_set; process_of second].
Lemma system0_runs : runs_from_init 3 cfg0 42 false evs0 system0.
Proof.
  exists started. split; [exact started_run|]. split.
  - apply (Run_step 3 cfg0 _ [Called op_a (0, None)] (System first_set [process_of first_set]) [Attached]).
    { apply (Step_call 3 cfg0 started [process_of started] 0 (process_of started) op_a (0, None) first_set);
        [reflexivity|left; vm_compute; reflexivity|exact first_set_run]. }
    apply (Run_step 3 cfg0 _ [Attached] system0 []); [|constructor].
    apply (Step_attach 3 cfg0 first_set [process_of first_set] newcomer true second); [repeat split|].
    exact second_run.
  - split; [split; reflexivity|]. intros l1 _ l2 _. exact I.
Qed.
Lemma events0_store l : abs_events cfg0 [] evs0 l → l = [record0].
Proof.
  intros Hev. inversion Hev as [| |l0 op r l1 evs l2 Hcall Hrest]; subst. inversion Hrest as [|? l3 ? ? Hl Hend|]; subst.
  inversion Hend; subst. assert (l1 = [record0]) as Hl1.
  { destruct Hcall as (l0&Hl0&[[[H0 _] _]|Hset]); [destruct H0; reflexivity|]. cbn [abs_op fst op_a] in Hset.
    unfold abs_set in Hset. rewrite decide_True in Hset by exact eq_refl.
    destruct Hset as (l4&Hsub&Hl1). rewrite Hl1. assert (l4 = []) as Hl4.
    { apply sublist_nil_r. destruct Hl0 as [Hl0|[Hl0 _]]; rewrite Hl0 in Hsub; exact Hsub. }
    rewrite Hl4. reflexivity. }
  apply (locked_alive _ _ peaceful0) in Hl. congruence.
Qed.
Lemma entries_isolated_witness :
  ∃ o, view second [o] = [record0] ∧ isolated second [o].
Proof.
  destruct (entries_isolated 3 cfg0 42 false evs0 system0 init_ok0 system0_runs) as (es&l&Ha&Hall).
  apply events0_store in Ha. specialize (Hall 1%nat (process_of second) eq_refl second_up_to_date).
  change (shared system0) with second in Hall. rewrite load_process_of in Hall.
  destruct Hall as [Hv Hi]. rewrite Ha in Hv.
  pose proof (length_view second es) as Hlen. rewrite Hv in Hlen.
  destruct es as [|o [|]]; [discriminate Hlen| |discriminate Hlen]. exists o. split; [exact Hv|exact Hi].
Defined.
Lemma fields_fit_witness :
  ∃ es, holds cfg0 evs0 system0 es ∧ fields_in_range second es.
Proof. exact (fields_fit 3 cfg0 42 false evs0 system0 init_ok0 system0_runs). Defined.

(** a process for which mapping the segment fails (its fstat reports EACCES)
    dereferences NULL in a get *)
Definition env_denied : Env := env_of (-1, 0) (λ n, 4096 * Z.of_nat (S n)) 0 13 (λ _, 0).
Lemma failed_mapping_faults :
  cannot_map (E := env_denied) (load late stored2) ∧
  shm_ht_get (E := env_denied) (K "b") (load late stored2) = None.
Proof.
  split; [|by vm_compute].
  exists 13, (run_or (shmopt_open_value_segments (E := env_denied)) (load late stored2)).
  split; [apply run_or_run; by vm_compute|by vm_compute].
Qed.

(** *** A get that another process's delete makes miss its key *)
(** "a" and "l" are in the same bucket *)
Definition three : shmcache_context := run_or (shm_ht_set (K "l") (V "!")) stored2.
Definition record2 : shmcache_hash_entry := new_record (K "l") (V "!").
Definition other : process := process_of (three <| pid := 43 |>).
Definition missed : shmcache_context :=
  run_or (run_actions 3 (K "l")
    [Reader_step; Reader_step; Other_call other (Op_delete (K "a")); Reader_step; Reader_step] R_bucket) three.
Definition emptier : shmcache_context := run_or (run_op 3 (Op_delete (K "a"))) (load other three).

Lemma represents_stored2 : represents cfg0 stored2 [record0; record1] ∧ mapped stored2 (process_of stored2).
Proof.
  destruct stored2_image as (es&Him&Hv). split; [rewrite <-Hv; exact (represents_of cfg0 stored2 es Him)|].
  exact (mapped_of_inv stored2 es (proj1 Him)).
Qed.
Lemma stored2_room_l : storable_in stored2 [record0; record1] (K "l") (V "!").
Proof.
  unfold storable_in. rewrite stored2_config. repeat split; [discriminate..|]. left. exact stored2_room.
Qed.
Lemma set_l : wp (shm_ht_set (K "l") (V "!"))
  (λ r s', r = 0 → represents cfg0 s' [record0; record1; record2] ∧ mapped s' (process_of s')) stored2.
Proof.
  destruct represents_stored2 as [Hrep Hmp].
  destruct (represents_rep cfg0 stored2 _ _ (io_mapping cfg0 3 init_ok0) Hrep Hmp eq_refl) as (_&_&Hback).
  rewrite load_process_of in Hback.
  eapply wp_mono; [exact (law_set_lossless stored2 _ (K "l") (V "!") stored2_rep eq_refl eq_refl stored2_room_l)|].
  intros r s' (Hsc&l'&Hrep'&[[_ Hl]|[Hr _]]) H0; [|rewrite Hr in H0; discriminate H0]. rewrite Hl in Hrep'.
  destruct (Hback s' _ (same_cache_config _ _ Hsc) Hrep') as (H1&_&H3). split; [exact H1|exact H3].
Qed.
Lemma three_code : fst <$> shm_ht_set (K "l") (V "!") stored2 = Some 0.
Proof. by vm_compute. Qed.
Lemma three_represents : represents cfg0 three [record0; record1; record2] ∧ mapped three (process_of three).
Proof.
  unfold three. pose proof (run_or_wp _ _ _ 0 set_l three_code eq_refl) as [H1 H2].
  split; [exact H1|exact H2].
Qed.

Lemma mapped_pid s q : mapped s (process_of s) → mapped s (process_of (s <| pid := q |>)).
Proof. done. Qed.
Lemma other_up_to_date : up_to_date other three.
Proof. by vm_compute. Qed.
Lemma delete_a : wp (run_op 3 (Op_delete (K "a")))
  (λ r s', r = (0, None) → represents cfg0 s' [record1; record2]) (load other three).
Proof.
  destruct three_represents as [Hrep Hmp].
  destruct (represents_rep cfg0 three _ other (io_mapping cfg0 3 init_ok0) Hrep (mapped_pid three 43 Hmp)
    other_up_to_date) as (Hr&Hlim&Hback).
  eapply wp_mono; [exact (run_op_served rep 3 _ _ _ (Op_delete (K "a")) mutex_ok0 Hr Hlim eq_refl)|].
  intros r s' Hs H0. apply served_call in Hs as (Hsc&l'&Hrep'&l1&Hl1&Hcall).
  apply (locked_alive _ _ peaceful0) in Hl1. subst l1.
  destruct (Hback s' l' Hsc Hrep') as [H1 _]. destruct Hcall as [[Hlock _]|[Hl _]].
  - exfalso. exact (no_lock_error _ peaceful0 Hlock).
  - rewrite Hl in H1. exact H1.
Qed.

Lemma missed_eq : missed = load (process_of three) emptier.
Proof. by vm_compute. Qed.
Lemma emptier_code : fst <$> run_op 3 (Op_delete (K "a")) (load other three) = Some (0, None).
Proof. by vm_compute. Qed.
Lemma missed_represents : represents cfg0 missed [record1; record2].
Proof.
  rewrite missed_eq. pose proof (run_or_wp _ _ _ (0, None) delete_a emptier_code eq_refl) as (p&es&Him).
  exists p, es. rewrite load_load. exact Him.
Qed.
Lemma missed_run :
  run_actions 3 (K "l")
    [Reader_step; Reader_step; Other_call other (Op_delete (K "a")); Reader_step; Reader_step] R_bucket three
  = Some (R_done (ENOENT, None), missed).
Proof. refine (run_or_run (run_actions 3 (K "l") _ R_bucket) three _ _). by vm_compute. Qed.
(** *** A get during which another key is stored *)
Definition step_of (r : reader) (s : shmcache_context) : reader :=
  default r (fst <$> reader_step (K "b") r s).
Definition reading1 : reader := step_of R_bucket stored2.
Definition reading2 : reader := step_of reading1 three.
Definition reading3 : reader := step_of reading2 three.
Definition finished : shmcache_context := run_or (reader_step (K "b") reading2) three.
Lemma reading1_run : reader_step (K "b") R_bucket stored2 = Some (reading1, stored2).
Proof. by vm_compute. Qed.
Lemma reading2_run : reader_step (K "b") reading1 three = Some (reading2, three).
Proof. by vm_compute. Qed.
Lemma reading3_run : reader_step (K "b") reading2 three = Some (reading3, finished).
Proof. refine (run_or_run (reader_step (K "b") reading2) three _ _). by vm_compute. Qed.
Lemma reading3_done : ∃ v, reading3 = R_done (0, Some v) ∧ vr_length v = 6.
Proof. eexists. split; [vm_compute; reflexivity|reflexivity]. Qed.
Lemma three_extends es : inv stored2 es → view stored2 es = [record0; record1] →
  ∃ es', inv three es' ∧ extends stored2 es three es'.
Proof.
  intros Hinv Hv. assert (key_data (K "l") ∉ key_of stored2 <$> es) as Hnew.
  { rewrite <-keys_of_view, Hv. intros H. vm_compute in H.
    apply elem_of_cons in H as [H|H]; [discriminate H|]. apply elem_of_cons in H as [H|H]; [discriminate H|].
    by apply elem_of_nil in H. }
  assert (storable_in stored2 (view stored2 es) (K "l") (V "!")) as Hst by (rewrite Hv; exact stored2_room_l).
  exact (run_or_wp _ _ _ 0 (set_new_extends (K "l") (V "!") stored2 es (io_mapping cfg0 3 init_ok0) Hinv
    eq_refl eq_refl Hnew Hst) three_code).
Qed.
#[local] Opaque three missed finished reading1 reading2 reading3.
Lemma lock_free_get_linearizable_witness :
  ∃ h r s es, overlapped (K "b") h (R_done r) s es ∧ r.1 = 0 ∧
    ∃ s' es', (s', es') ∈ h ∧ inv s' es' ∧ get_outcome s' (view s' es') (key_data (K "b")) r.
Proof.
  destruct stored2_inv as (es&Hinv&Hv). destruct (three_extends es Hinv Hv) as (es'&Hinv'&Hx).
  destruct reading3_done as (v&Hd&_).
  assert (overlapped (K "b") [(finished, es'); (three, es'); (three, es'); (stored2, es); (stored2, es)]
    (R_done (0, Some v)) finished es') as Hov.
  { rewrite <-Hd. apply (Ov_step _ _ reading2 three); [|exact reading3_run].
    apply (Ov_step _ _ reading1 three); [|exact reading2_run].
    apply (Ov_other _ _ _ stored2 es); [|exact Hinv'|exact Hx].
    apply (Ov_step _ _ R_bucket stored2); [|exact reading1_run]. exact (Ov_start _ stored2 es Hinv). }
  destruct (lock_free_get_linearizable (K "b") _ _ _ _ eq_refl Hov) as (_&_&Hout).
  eexists _, (0, Some v), finished, es'. split; [exact Hov|]. split; [exact eq_refl|].
  exact (Hout _ eq_refl).
Defined.

(** while one process reads "l", which stays in the cache, another deletes "a":
    the reader, which had come to the entry of "a", finds its ht_next cleared
    and reports ENOENT *)
Theorem lock_free_get_may_miss : ∃ s s' l l' p,
  represents cfg0 s l ∧ represents cfg0 s' l' ∧ key_data (K "l") ∈ keys_of l ∧ key_data (K "l") ∈ keys_of l' ∧
  run_actions 3 (K "l") [Reader_step; Reader_step; Other_call p (Op_delete (K "a")); Reader_step; Reader_step]
    R_bucket s = Some (R_done (ENOENT, None), s').
Proof.
  exists three, missed, [record0; record1; record2], [record1; record2], other.
  split; [exact (proj1 three_represents)|]. split; [exact missed_represents|].
  split; [right; right; left|]. split; [right; left|exact missed_run].
Qed.

(** *** A configuration file *)
Definition ini0 : IniContext := {|
  iniGetStrValue name :=
    if bool_decide (name = "type") then Some "MMAP"
    else if bool_decide (name = "filename") then Some "/tmp/shm"
    else if bool_decide (name = "max_memory") then Some "8M"
    else if bool_decide (name = "min_memory") then Some "lots"
    else if bool_decide (name = "segment_size") then Some "2M"
    else if bool_decide (name = "max_value_size") then Some "64K"
    else if bool_decide (name = "value_policy.discard_memory_size") then Some "128"
    else if bool_decide (name = "hash_function") then Some "simple_hash"
    else None;
  iniGetIntValue name d := if bool_decide (name = "max_key_count") then 8 else d;
  iniGetBoolValue name d := d |}.
Definition empty_ini : IniContext := {|
  iniGetStrValue name := None; iniGetIntValue name d := d; iniGetBoolValue name d := d |}.
#[local] Instance ini_env0 : IniEnv := {|
  iniLoadFromFile name := if bool_decide (name = "shm.conf") then inr ini0
    else if bool_decide (name = "empty.conf") then inr empty_ini else inl ENOENT;
  parse_bytes v _ :=
    if bool_decide (v = "8M") then (0, 8388608) else if bool_decide (v = "2M") then (0, 2097152)
    else if bool_decide (v = "64K") then (0, 65536) else if bool_decide (v = "128") then (0, 128)
    else (EINVAL, 0);
  dlopen_self := true;
  dlsym name := if bool_decide (name = "fc_simple_hash") then Some hash0 else None;
  fc_simple_hash := hash0 |}.
Definition loaded0 : shmcache_config :=
  Shmcache_config "/tmp/shm" 0 8388608 2097152 8 65536 SHMCACHE_TYPE_MMAP (-1) false
    (Va_policy 0 128 5 0) (Lock_policy false 200 1000) hash0.
Lemma loaded0_ok : shmcache_load_config "shm.conf" = inr loaded0.
Proof. by vm_compute. Qed.

Lemma load_config_valid_witness :
  shmcache_load_config "shm.conf" = inr loaded0 ∧
  wp (get_value_segment_count_size loaded0 8388608) (λ r s', s' = stored2 ∧ 1 ≤ count_max r ≤ 255 ∧
    ∀ i, 0 ≤ i < count_max r → Z.land i 0xFF = i) stored2.
Proof.
  split; [exact loaded0_ok|].
  destruct (load_config_valid "shm.conf" loaded0 stored2 loaded0_ok) as (_&_&_&_&_&_&_&_&H).
  - exists 12. split; [lia|exact eq_refl].
  - change getpagesize with 4096. lia.
  - change MAX_PATH_SIZE with 256%nat. lia.
  - apply H. change (max_memory loaded0) with 8388608. lia.
Defined.

Lemma min_memory_error_ignored_witness :
  shmcache_load_config "shm.conf" = inr loaded0 ∧ (parse_bytes "lots" 1).1 = EINVAL ∧
  min_memory loaded0 = 0.
Proof.
  split; [exact loaded0_ok|]. split; [by vm_compute|].
  apply (min_memory_error_ignored "shm.conf" ini0 loaded0 "lots"); by vm_compute.
Defined.

Lemma page_ok0 : page_ok.
Proof. exists 12. split; [lia|exact eq_refl]. Qed.
Lemma loaded0_init_ok : init_ok loaded0 3.
Proof.
  assert (config_ok loaded0 ∧ 0 ≤ max_key_count loaded0) as [Hc Hk].
  { apply (loaded_config_ok "shm.conf"); [exact loaded0_ok|exact page_ok0|by vm_compute..]. }
  split; [exact Hc|by vm_compute|exact Hk|by vm_compute|exact mapping0|by repeat split|exact mutex_ok0].
Qed.
Lemma init_from_file_correct_witness :
  wp (shmcache_init_from_file_ex 3 44 "shm.conf" true true)
    (λ r s', r = 0 → image loaded0 s' [] ∧ pid s' = 44) (new_image loaded0) ∧
  shmcache_init_from_file_ex 3 44 "none.conf" true true stored2 = Some (ENOENT, stored2) ∧
  ∃ e, e ≠ 0 ∧ shmcache_init_from_file_ex 3 44 "empty.conf" true true stored2 = Some (e, stored2).
Proof.
  split; [|split; [exact (init_from_file_correct 3 44 "none.conf" true stored2)|]].
  2: { destruct (init_from_file_correct 3 44 "empty.conf" true) as [Hno _].
       destruct Hno as (e&He&Hrun); [|exists e; split; [exact He|exact (Hrun stored2)]].
       intros cfg Hsay. destruct (say_filename _ _ Hsay) as (name&Hname&_). discriminate Hname. }
  destruct (init_from_file_correct 3 44 "shm.conf" true) as [_ H]. apply H.
  - apply load_items_say. exact loaded0_ok.
  - exact page_ok0.
  - by vm_compute.
  - by vm_compute.
  - by vm_compute.
  - by vm_compute.
  - by vm_compute.
  - exact mapping0.
  - by repeat split.
  - exists 0%nat. split; [exact released0|lia].
Defined.

(** *** A value outlives its entry *)
(** [shmcache_get] unlocks before its caller reads the bytes [*value] refers to,
    also when the configuration asks to read within the lock: if another call
    comes in between, the caller copies the bytes of another value. *)
Definition locked_reads : shmcache_context :=
  stored2 <| config := Shmcache_config "/tmp/shm" 0 (8 * 1024 * 1024) (2 * 1024 * 1024) 8 (64 * 1024)
    SHMCACHE_TYPE_MMAP 0 true (Va_policy 0 128 5 0) (Lock_policy true 200 1000) hash0 |>.
Example value_outlives_entry :
  fst <$> ('(r, v) ← shmcache_get 3 (K "a");
           shmcache_clear 3;;
           shmcache_set_ex 3 (K "z") (V "OTHER");;
           v ← copy_value v;
           mret (r, v)) locked_reads = Some (0, Some (V "OTHER")).
Proof. by vm_compute. Qed.
