(* ===== verification/ClientExamples.v ===== *)
(** * The clients on a running cache

    The theorems about the tools, the INI annotation and the bindings at the
    cache with two entries of Examples.v. *)
From S2P Require Import Prelude Types CLib Shmopt HentryOffset Invariant HashTable Recycle Lock CacheTable ShmCache ShmCacheSpec Statistics Init Config Tools Monitor TestDriver IniAnnotation PhpShmCache PhpObjects JavaShmCache Examples.
Local Open Scope Z_scope.
Local Open Scope shm_scope.
#[local] Existing Instance env0.
#[local] Existing Instance env0_laws.
#[local] Opaque stored2 stored started.

(** ** The statistics *)
Lemma stats_correct_witness :
  ∃ es, wp (shmcache_stats_ex true) (λ st s', inv s' es ∧ stats_count st = 2 ∧
    used_key (stats_usage st) = 2 ∧ used_value (stats_usage st) = 11 ∧ hit_ratio st = (-1, 1)) stored2.
Proof.
  destruct stored2_inv as (es&Hinv&Hv). exists es.
  destruct (stats_correct stored2 es true Hinv) as (st&s'&Hrun&Hi&_&(Hc&Hk&Hu&_)&_&Hr&_);
    [split; vm_compute; intros H; discriminate H|].
  rewrite Hv in Hc, Hk, Hu. exists st, s'. split; [exact Hrun|]. split; [exact Hi|].
  split; [exact Hc|]. split; [exact Hk|]. split; [exact Hu|].
  assert (gets_since (stats (memory stored2)) = 0) as Hg by (vm_compute; exact eq_refl).
  rewrite Hg in Hr. exact Hr.
Defined.

Lemma stats_output_correct_witness :
  ∃ es, wp stats_output (λ r s', inv s' es ∧ ("current_key_count", 2) ∈ rep_counts r ∧
    rep_avg_key_len r = 1 ∧ rep_avg_value_len r = 5) stored2.
Proof.
  destruct stored2_inv as (es&Hinv&Hv). exists es.
  destruct (stats_output_correct stored2 es Hinv) as (r&s'&Hrun&Hi&_&Hc&Hk&_&Hu&_);
    [split; vm_compute; intros H; discriminate H|].
  rewrite Hv in Hc, Hk, Hu. exists r, s'. split; [exact Hrun|]. split; [exact Hi|].
  split; [exact Hc|]. split; [exact Hk|exact Hu].
Defined.

(** a record, and one ten seconds later *)
Definition sample1 : shm_stats := stats_zero <| stats_get := Counter 1000 900 |> <| stats_set := Counter 70 70 |>.
Definition sample2 : shm_stats := stats_zero <| stats_get := Counter 1500 1300 |> <| stats_set := Counter 20 20 |>.
Lemma tsar_correct_witness :
  counted_ok sample1 ∧ counted_ok sample2 ∧
  ∃ st, set_shmcache_record (record_fields sample1) (record_fields sample2) 10 = Some st ∧
    take 3 st = [(500, 10); (40000, 500); (0, 1)] ∧
    strtoll <$> split_comma (record_text sample2) = (λ z, (z, [])) <$> record_fields sample2.
Proof.
  assert (counted_ok sample1) as H1 by (repeat constructor; vm_compute; congruence).
  assert (counted_ok sample2) as H2 by (repeat constructor; vm_compute; congruence).
  destruct (tsar_correct sample1 sample2 10 H1 H2) as (Ht&Hs&_); [split; reflexivity|].
  split; [exact H1|]. split; [exact H2|]. eexists. split; [exact Hs|]. split; [reflexivity|exact Ht].
Defined.

(** ** The tools *)
Lemma search_pattern_correct_witness :
  pattern_selects (Some (str "%ell%")) (str "hello") = true ∧
  pattern_selects (Some (str "hel%")) (str "hello") = true ∧
  pattern_selects (Some (str "%hel")) (str "hello") = false.
Proof.
  destruct (search_pattern_correct (str "ell") (str "hello")) as (_&_&_&H&_); [by split_and!|].
  destruct (search_pattern_correct (str "hel") (str "hello")) as (_&H1&_); [by split_and!|].
  split; [apply H; by exists (str "h"), (str "o")|]. split; [apply H1; by exists (str "lo")|].
  by vm_compute.
Defined.

Definition dump_all : dump_options := parse_args (λ _, true) [Opt_F (str "\t"); Opt_k (str "%")] false.
Lemma dump_correct_witness :
  ∃ es, wp (do_dump dump_all) (λ r s', r.1 = 0 ∧ r.2 = concat (dump_line [chr 9] [chr 10] <$>
    listing stored2 es None 0 0 1000)) stored2.
Proof.
  destruct stored2_inv as (es&Hinv&_). exists es.
  destruct (dump_correct stored2 es dump_all [chr 9] [chr 10] Hinv) as (r&s'&Hrun&_&H0&Hr&_);
    [by vm_compute|by vm_compute|by vm_compute|].
  assert (r.1 = 0) as Hr0 by (apply H0; intros n z; exact eq_refl).
  exists r, s'. split; [exact Hrun|]. split; [exact Hr0|]. rewrite (Hr Hr0).
  change (to_int (time_NULL (S (ticks stored2)))) with 1000. exact eq_refl.
Defined.

(** ** The INI annotation, with a parser that splits digits *)
#[local] Instance json0 : JsonEnv := {|
  fc_decode_json_array data := Some ((λ c, [c]) <$> data); fc_init_json_context _ := 0 |}.
Lemma config_get_correct_witness :
  wp (config_get 3 (str "a") [] 10) (λ r s', rep s' [record0; record1] ∧
    ∃ readable : bool, r = [Some (if readable then str "hello" else [])]) stored2.
Proof.
  destruct (config_get_correct 3 stored2 [record0; record1] (str "a") [] 10 mutex_ok0 peaceful0
    (λ n z, eq_refl) stored2_rep) as (r&s'&Hrun&Hrep&Hr).
  exists r, s'. split; [exact Hrun|]. split; [exact Hrep|].
  assert (find_key (key_data (item_key (str "a") [])) [record0; record1] = Some record0) as Hf
    by (vm_compute; exact eq_refl).
  rewrite Hf in Hr. destruct Hr as (now&_&Hr). cbv zeta in Hr. exists (HT_ENTRY_IS_VALID (v_expires (entry_value record0)) now &&
    negb (Z.land (v_options (entry_value record0)) SHMCACHE_SERIALIZER_STRING =? 0)).
  rewrite Hr. destruct (_ && _); exact eq_refl.
Defined.

(** ** The test driver, with a file at its place and [rand] that returns the
    number of the call *)
#[local] Instance ini_env1 : IniEnv := {|
  iniLoadFromFile name := if bool_decide (name = conf_filename) then inr ini0 else inl ENOENT;
  parse_bytes v _ :=
    if bool_decide (v = "8M") then (0, 8388608) else if bool_decide (v = "2M") then (0, 2097152)
    else if bool_decide (v = "64K") then (0, 65536) else if bool_decide (v = "128") then (0, 128)
    else (EINVAL, 0);
  dlopen_self := true;
  dlsym name := if bool_decide (name = "fc_simple_hash") then Some hash0 else None;
  fc_simple_hash := hash0 |}.
Definition rand1 (seed : Z) (k : nat) : Z := Z.of_nat k mod (2 ^ 31 - 1).
Lemma test_driver_correct_witness :
  wp (main_tests 3 44 (2 ^ 31 - 1) rand1) (λ '(r, out) s', r = 0 → ∃ failures n,
    out = Some (failures, n) ∧ 0 ≤ n ≤ 13000 ∧ shm_ht_count s' = n) (new_image loaded0).
Proof.
  destruct (test_driver_correct 3 44 (2 ^ 31 - 1) rand1 loaded0) as ([r out]&s'&Hrun&H).
  - split; [lia|]. intros seed k. unfold rand1. apply Z.mod_pos_bound. lia.
  - intros n size. exact eq_refl.
  - intros n. change (time_NULL n) with 1000. unfold ttl_seconds. lia.
  - by vm_compute.
  - exact loaded0_init_ok.
  - exists (r, out), s'. split; [exact Hrun|]. intros Hr.
    destruct (H Hr) as (seed&x&l&failures&es&s0&_&_&_&Hout&Hrep&_&_&Hl&_).
    exists failures, (Z.of_nat (length l)). split; [exact Hout|]. split.
    + split; [lia|]. apply Nat2Z.inj_le in Hl. rewrite Z2Nat.id in Hl by (unfold KEY_COUNT; lia). exact Hl.
    + exact (law_count s' l Hrep).
Defined.

(** ** PHP, without other serializers than its own, which knows one object *)
#[local] Instance php0 : PhpEnv unit := {|
  php_dlopen := true; dlopen_errno := 0;
  php_msgpack_serialize := None; php_msgpack_unserialize := None;
  igbinary_serialize := None; igbinary_unserialize := None;
  php_var_serialize _ := str "O:1";
  php_var_unserialize data := if bool_decide (data = str "O:1") then Some (Zother tt) else None |}.
Definition functions0 : php_functions unit := (shmcache_load_functions functions_initial).2.
Lemma functions0_ok : functions_ok functions0.
Proof. by right. Qed.

Lemma php_never_null_witness :
  is_Some (shmcache_serialize functions0 (Zother tt)
    (with_options (Value_info [] 0 0 0) SHMCACHE_SERIALIZER_PHP)).
Proof.
  apply (php_never_null functions0 SHMCACHE_SERIALIZER_PHP (Zother tt) (Value_info [] 0 0 0) functions0_ok).
  by vm_compute.
Defined.

Lemma php_get_after_set_witness :
  wp (r ← php_set 3 functions0 SHMCACHE_SERIALIZER_PHP (Some (str "k", Zother tt, 0));
      g ← php_get 3 functions0 (Some (str "k", true)); mret (r, g))
    (λ '(r, g) s', r = Return (Zbool true) → g = Return (Zother tt)) stored2.
Proof.
  assert (storable functions0 SHMCACHE_SERIALIZER_PHP (Zother tt)) as Hst.
  { split; [intros H; discriminate H|]. split; [intros H; discriminate H|]. intros _. split; by vm_compute. }
  destruct (php_get_after_set 3 functions0 SHMCACHE_SERIALIZER_PHP stored2 [record0; record1] (str "k")
    (Zother tt) 0 true functions0_ok eq_refl Hst mutex_ok0 peaceful0 stored2_rep) as ([r g]&s'&Hrun&Hr);
    [by vm_compute|].
  exists (r, g), s'. split; [exact Hrun|]. intros Heq. destruct (Hr Heq) as (t&now&_&_&Hg).
  rewrite orb_true_r in Hg. exact Hg.
Defined.

Lemma contexts_correct_witness :
  wp (shmcache_get_context (λ _ _, Some 7) (λ _ _, true) 1024 "a.conf")
    (λ r a', contexts_ok a' ∧ (∀ c, r = inr c → find_context "a.conf" (contexts a') = Some c))
    context_array_initial.
Proof.
  destruct (contexts_correct (λ _ _, Some 7) (λ _ _, true) 1024 context_array_initial "a.conf") as
    (r&a'&Hrun&Hok&_&Hc&_); [split; [done|constructor]|cbn; lia|].
  exists r, a'. split; [exact Hrun|]. split; [exact Hok|exact Hc].
Defined.

(** a process without objects, whose contexts are all of the cache with two
    entries; it makes two objects of one file *)
Definition process0 : php_process (O := unit) (C := unit) :=
  Php_process functions0 context_array_initial ∅ (λ _, stored2).
Lemma process0_ok : process_ok process0.
Proof. split; [split; [done|constructor]|]. apply map_Forall_empty. Qed.
Lemma php_objects_share_witness :
  wp ('(a, e1) ← new_ShmCache (λ _ _, Some tt) (λ _ _, true) 1024 (Some ("a.conf", Some SHMCACHE_SERIALIZER_PHP));
      '(b, e2) ← new_ShmCache (λ _ _, Some tt) (λ _ _, true) 1024 (Some ("a.conf", Some SHMCACHE_SERIALIZER_PHP));
      match e1, e2 with
      | None, None =>
        r ← call_method 3 a (Call_set (Some (str "k", Zother tt, 0)));
        g ← call_method 3 b (Call_get (Some (str "k", true)));
        mret (Some (r, g))
      | _, _ => mret None
      end)
    (λ res _, ∀ g, res = Some (inl (Return (Zbool true)), g) → g = inl (Return (Zother tt))) process0.
Proof.
  assert (storable functions0 (to_int (default SHMCACHE_SERIALIZER_IGBINARY (Some SHMCACHE_SERIALIZER_PHP)))
    (Zother tt)) as Hst.
  { split; [intros H; discriminate H|]. split; [intros H; discriminate H|]. intros _. split; by vm_compute. }
  destruct (php_objects_share (λ _ _, Some tt) (λ _ _, true) 1024 3 process0 "a.conf"
    (Some SHMCACHE_SERIALIZER_PHP) (Some SHMCACHE_SERIALIZER_PHP) (str "k") (Zother tt) 0 true
    process0_ok functions0_ok) as (res&p'&Hrun&Hr);
    [cbn; lia|intros c; exists [record0; record1]; exact stored2_rep|exact Hst|exact mutex_ok0|
     exact peaceful0|by vm_compute|].
  exists res, p'. split; [exact Hrun|]. intros g Heq. destruct (Hr g Heq) as (t&now&_&_&Hg).
  rewrite orb_true_r in Hg. exact Hg.
Defined.

(** ** Java *)
#[local] Instance java0 : JavaEnv := {|
  strerror _ := "error"; find_value_class := true; find_value_constructor := true |}.
Lemma java_get_after_set_witness :
  wp (r ← doSetVO 3 1 (str "k") (Java_value (str "v") 1 0); g ← doGet 3 1 (str "k");
      b ← doGetBytes 3 1 (str "k"); x ← doGetExpires 3 1 (str "k"); mret (r, (g, (b, x))))
    (λ '(r, (g, (b, x))) s', r = Jreturn tt →
      g = Jreturn (Some (Java_value (str "v") 1 0)) ∧ b = Jreturn (Some (str "v")) ∧ x = Jreturn 0) stored2.
Proof.
  destruct (java_get_after_set (J := java0) 3 stored2 [record0; record1] 1 (str "k") (Java_value (str "v") 1 0)
    ltac:(lia) mutex_ok0 peaceful0 stored2_rep eq_refl eq_refl) as ([r [g [b x]]]&s'&Hrun&Hr).
  exists (r, (g, (b, x))), s'. split; [exact Hrun|]. intros Heq.
  destruct (Hr Heq) as (t1&t2&t3&_&_&_&Hg&Hb&Hx). split; [exact Hg|]. split; [exact Hb|exact Hx].
Defined.
